(* ===== verification/_CoqProject ===== *)
-Q . S2P
Prelude.v
YamuxFrame.v
YamuxStream.v
YamuxStreamFacts.v
YamuxFlow.v
YamuxSession.v
YamuxSessionFacts.v
ChannelQueue.v
Channel.v
ChannelBound.v
ChannelBoundFacts.v
ChannelUnbound.v
ChannelSink.v
Buffer.v
Text.v
StdNet.v
ProxyProtocol.v
Multiaddr.v
MultiaddrFacts.v
Molecule.v
MoleculeFacts.v
Framed.v
SecioSupport.v
SecioCrypto.v
SecureStream.v
SecioMessages.v
SecioHandshake.v
SecioHandshakeFacts.v
ProtocolSelect.v
PeerId.v
AddrUtils.v
Ping.v
Identify.v
DiscoveryMessages.v
Discovery.v
Events.v
Substream.v
SubstreamFacts.v
ProtocolHandle.v
ServiceHandle.v
SessionHandle.v
FutureTask.v
TentacleSession.v
TentacleSessionFacts.v
Service.v
ServiceFacts.v
TcpListen.v
TcpListenFacts.v
Listener.v
MemoryTransport.v
QuicIdentity.v
WsStream.v
TcpDial.v
ByteStreams.v
Upnp.v
Control.v
Builder.v
TcpIncoming.v
