(* ===== verification/Prelude.v ===== *)
(** * Verification of tentacle

    tentacle is a peer-to-peer networking library. A user's program builds a
    service ([ServiceBuilder]) and steers it through a control; the service listens
    and dials over TCP, TLS, websockets or memory, secures a connection with secio,
    multiplexes it with yamux, negotiates a protocol on every substream, and hands
    the protocol's messages to the handles of the user. This development models
    the crates of the repository as Rocq functions and proves what each part
    promises, and how the parts fit together.

    ** Conventions (this file)

    A Rust function is a function: a fallible one returns [Res] (a value, an error
    or a panic), a method that changes its object is in the state-and-error monad
    [M], in which a change made before an error or a panic is kept. A [Poll]
    function is a function with that result; polls of several tasks are ordered by a
    step relation or by a list of events. Machine integers are [Z] with wrap-around
    written out ([wrap], [as_u32]); byte strings are [list byte]; a [HashMap] is a
    [gmap], iterated in the order of [map_to_list]. An assertion of a release build
    is a panic, a [debug_assert] is not there. The tactics [wp_step], [wp_apply] and
    [preserves] run monadic code symbolically.

    What is outside the repository is a type class with its operations, and a class
    of laws that state the behaviour that its documentation gives; each such pair
    has a concrete instance, on which the witnesses of the theorems run. The
    classes are named where they are declared: sockets ([Framed], [TcpStream] of
    the PROXY parser, [WebSocket], [Incoming]), channels of the futures crate
    (in [YamuxStream], [YamuxSession], [Substream]),
    cryptography ([Aead], [HandshakeCrypto], [KeyProvider], the hash of a peer id),
    codecs ([AddrCodecs], [MolNumber], [DelimCodec]), wakers ([AtomicWaker]), the
    gateway ([Gateway]), certificates (in [QuicIdentity]) and the user's callbacks.

    ** The files

    yamux/src: [YamuxFrame] (frame.rs: frames and codec), [YamuxStream] and
    [YamuxStreamFacts] (stream.rs, error.rs: one stream), [YamuxFlow] (two streams
    joined by two links), [YamuxSession] and [YamuxSessionFacts] (session.rs,
    config.rs, control.rs).

    tentacle/src/channel: [ChannelQueue] (queue.rs, at the granularity of its atomic
    steps), [Channel] (mod.rs), [ChannelBound] and [ChannelBoundFacts] (bound.rs,
    with all interleavings of senders and receiver), [ChannelUnbound] (unbound.rs),
    [ChannelSink] (sink_impl.rs). [Buffer] is tentacle/src/buffer.rs.

    Addresses: [Text] and [StdNet] (what the code uses of the standard library),
    [ProxyProtocol] (transports/proxy_protocol.rs), [Multiaddr] and
    [MultiaddrFacts] (multiaddr/src), [PeerId] (secio/src/peer_id.rs), [AddrUtils]
    (tentacle/src/utils.rs).

    secio/src: [SecioSupport] (support.rs), [SecioCrypto] (crypto), [Framed] and
    [SecureStream] (codec/secure_stream.rs), [SecioMessages], [SecioHandshake] and
    [SecioHandshakeFacts] (handshake). [Molecule] and [MoleculeFacts] hold the
    scheme of the generated serialization code, once for all message types.

    tentacle/src: [ProtocolSelect] (protocol_select), [Events], [Substream] and
    [SubstreamFacts] (substream.rs), [ProtocolHandle], [ServiceHandle] and
    [SessionHandle] (protocol_handle_stream.rs), [FutureTask]
    (service/future_task.rs), [TentacleSession] and [TentacleSessionFacts]
    (session.rs), [Service] and [ServiceFacts] (service.rs, service/event.rs),
    [Listener] (service/helper.rs), [Control] (service/control.rs), [Builder]
    (builder.rs, service/config.rs).

    Transports: [TcpListen], [TcpListenFacts] and [TcpIncoming]
    (tcp_base_listen.rs), [TcpDial] (utils/dns.rs and the dialing of tcp.rs, ws.rs,
    tls.rs, onion.rs, mod.rs), [MemoryTransport] (memory.rs), [WsStream] (ws.rs),
    [QuicIdentity] (quic/identity.rs, verifier.rs), [Upnp] (upnp).

    protocols: [Ping], [Identify], [DiscoveryMessages] and [Discovery].

    ** What is shown

    - Codecs. Frames, molecule messages, addresses (binary and text), peer ids, IP
      addresses and PROXY headers round-trip; decoders accept only well-formed
      input, and reading what they accepted does not panic.
    - Multiplexing. A stream delivers in order and without loss; the windows of two
      streams stay in balance, so that peers that follow the protocol never report a
      violation; a session keeps its limits and routes frames.
    - Channels. The lock-free queue is a FIFO queue under every interleaving; the
      bounded channel counts its messages, delivers each priority in order, loses no
      wake-up and unparks its senders; the unbounded channel implements a priority
      queue.
    - Security. Honest parties finish the handshake with matching keys; a handshake
      that succeeds on any input has authenticated its peer; nonces do not repeat;
      the encrypted stream delivers what was written; a QUIC certificate is accepted
      exactly if it is what the module documents.
    - Sessions and the service. Runs of a protocol stream, of a session, of the tasks
      of the handles and of the service keep their invariants whatever the network
      and the user do: no panic, streams and sessions are unique, the user is told
      of every session once, the service ends when nothing is left to do.
    - Transports. Dialing reaches the host of the address over its transport; a
      shared listener recognises its peers, accepts all that wait and reports its
      addresses; websockets and memory sockets are byte streams; port mappings are
      cleaned up as far as the gateway carries out what it is asked.
    - Composition. [ByteStreams] states what a frame reader needs of a byte stream,
      shows that the encrypted stream, the websocket and the memory socket provide
      it, and joins handshake, encryption and framing end to end. [Control] joins
      the control, the channel and the loop of the service. [YamuxFlow] joins two
      streams, [SecureStream] two ends of an encrypted stream.

    Theorems that show a fault of the code are stated as what the code does; their
    comments say what it should do.

    ** Bounds

    Where the code has a limit, the theorems have it as a hypothesis. A framed socket
    refuses frames above the limit that the code sets on its codec ([fr_limit]: the
    configured [max_frame_length] for secio, the codec's default of 8 MiB for the
    selection of a protocol), so results over two ends ask that the messages fit.
    The handler of discovery does not panic for addresses of at most 3000 bytes,
    which keeps its largest message within 8 MiB. Counters wrap at their width:
    a session has fewer than [2^64] streams, an encrypted stream fewer than [2^96]
    messages, an unbounded channel fewer than [2^62 - 2] calls.

    ** Fuel

    Loops that are not structural take fuel, and run out of it visibly ([None], or
    [Stop] for an asynchronous function). A loop over an address or a byte string
    gets the length of the string plus one, since every turn consumes a byte; the
    loops that search a free id get one turn per id in use, plus one; a loop that
    drains a channel gets the number of messages, a poll of a listener the number of
    connections that wait, plus one. That this is enough is part of the lemmas of
    each loop. Asynchronous functions get the number of polls they may take; the
    theorems that promise a result ask for one poll per step on sockets that are
    ready, and the others hold for every fuel.

    ** Not modelled

    Calls of foreign crates and of the operating system (sockets, timers, threads,
    tokio, openssl, ring, rustls, secp256k1, wasm-bindgen, igd) are parameters.
    [transports/browser.rs], [runtime/wasm_runtime.rs], [upnp/windows.rs], the
    SOCKS client and the spawning functions of [runtime/] consist of such calls.
    [quic/config.rs] holds constants; the sources have no QUIC transport. Formatting
    of errors, logging, metrics of memory (shrinking of buffers) and memory ordering
    weaker than sequential consistency are left out, as are the parts of the
    generated molecule code that no caller uses. [ServiceContext] and
    [ProtocolContext] only forward to the control. Benches, fuzz targets, tests and
    examples are programs that use the library. *)
From stdpp Require Export prelude gmap strings list fin_maps.
From Stdlib Require Export ZArith Lia.
From Stdlib Require Export Init.Byte.
From stdpp Require Export ssreflect.

#[global] Open Scope Z_scope.
#[global] Coercion Z.of_nat : nat >-> Z.

(** ** Results, polling and the state-and-error monad *)

(** Outcome of a Rust computation: [Result]'s two constructors, and a panic
    (an [assert!], [unreachable!], [expect] or [unwrap] that fails). *)
Inductive Res (E A : Type) : Type :=
| Ok (a : A)
| Err (e : E)
| Panic.
Arguments Ok {E A} a.
Arguments Err {E A} e.
Arguments Panic {E A}.

#[global] Instance Res_ret E : MRet (Res E) := λ A a, Ok a.
#[global] Instance Res_bind E : MBind (Res E) := λ A B f m,
  match m with Ok a => f a | Err e => Err e | Panic => Panic end.

Lemma Res_bind_Ok {E A B} (m : Res E A) (f : A → Res E B) b :
  m ≫= f = Ok b → ∃ a, m = Ok a ∧ f a = Ok b.
Proof. destruct m; try done. eauto. Qed.

(** [std::task::Poll]. *)
Inductive Poll (A : Type) : Type :=
| Ready (a : A)
| Pending.
Arguments Ready {A} a.
Arguments Pending {A}.

Definition is_ready {A} (p : Poll A) : bool :=
  match p with Ready _ => true | Pending => false end.

Definition is_pending {A} (p : Poll A) : bool := negb (is_ready p).

(** A method [fn f(&mut self, ..) -> Result<A, E>]: state changes made before
    an error or a panic are kept. *)
Definition M (S E A : Type) : Type := S → Res E A * S.

#[global] Instance M_ret S E : MRet (M S E) := λ A a s, (Ok a, s).
#[global] Instance M_bind S E : MBind (M S E) := λ A B k m s,
  match m s with
  | (Ok a, s') => k a s'
  | (Err e, s') => (Err e, s')
  | (Panic, s') => (Panic, s')
  end.

Lemma M_bind_Ok {S E A B} (m : M S E A) (k : A → M S E B) s a s' :
  m s = (Ok a, s') → (m ≫= k) s = k a s'.
Proof. rw /mbind /M_bind. by intros ->. Qed.

Lemma M_bind_inv {S E A B} (m : M S E A) (k : A → M S E B) s b s' :
  (m ≫= k) s = (Ok b, s') → ∃ a s1, m s = (Ok a, s1) ∧ k a s1 = (Ok b, s').
Proof. rw /mbind /M_bind. destruct (m s) as [[a|e|] s1]; try done. eauto. Qed.

Section monad_ops.
Context {S E : Type}.

Definition throw {A} (e : E) : M S E A := λ s, (Err e, s).
Definition panic {A} : M S E A := λ s, (Panic, s).
Definition get : M S E S := λ s, (Ok s, s).
Definition gets {A} (f : S → A) : M S E A := λ s, (Ok (f s), s).
Definition modify (f : S → S) : M S E unit := λ s, (Ok (), f s).
(** [match self.f() { Ok .. Err .. }]: the caller inspects the result. *)
Definition try_catch {A} (m : M S E A) {E'} : M S E' (Res E A) := λ s,
  match m s with
  | (Panic, s') => (Panic, s')
  | (r, s') => (Ok r, s')
  end.
Definition map_err {A E'} (f : E → E') (m : M S E A) : M S E' A := λ s,
  match m s with
  | (Ok a, s') => (Ok a, s')
  | (Err e, s') => (Err (f e), s')
  | (Panic, s') => (Panic, s')
  end.
Definition when (b : bool) (m : M S E unit) : M S E unit :=
  if b then m else mret ().
Definition lift_res {A} (r : Res E A) : M S E A := λ s, (r, s).
End monad_ops.

Lemma bind_get {S E B} (k : S → M S E B) s : (get ≫= k) s = k s s.
Proof. done. Qed.
Lemma bind_gets {S E A B} (f : S → A) (k : A → M S E B) s : (gets f ≫= k) s = k (f s) s.
Proof. done. Qed.
Lemma bind_modify {S E B} (f : S → S) (k : unit → M S E B) s : (modify f ≫= k) s = k () (f s).
Proof. done. Qed.

(** [std::io::ErrorKind], the kinds the code produces or inspects. *)
Module io.
Inductive ErrorKind :=
| BrokenPipe | InvalidData | InvalidInput | ConnectionReset | ConnectionAborted
| NotConnected | UnexpectedEof | TimedOut | WriteZero | AddrNotAvailable | ConnectionRefused | Other.

#[global] Instance ErrorKind_eq_dec : EqDecision ErrorKind.
Proof. solve_decision. Defined.
End io.

(** *** Total correctness for monadic code *)

(** From [P] the method ends well, in [P]; [ok_val] adds a property of the result. *)
Definition ok_on {S E A} (P : S → Prop) (m : M S E A) : Prop := ∀ s, P s → ∃ a s', m s = (Ok a, s') ∧ P s'.
Definition ok_val {S E A} (P : S → Prop) (m : M S E A) (Q : A → Prop) : Prop :=
  ∀ s, P s → ∃ a s', m s = (Ok a, s') ∧ P s' ∧ Q a.

Section ok_lemmas.
Context {S E : Type} (P : S → Prop).

Lemma ok_ret {A} (a : A) : ok_on P (mret a : M S E A).
Proof. intros s Hs. by eexists _, s. Qed.

Lemma ok_gets {A} (f : S → A) : ok_on P (gets f : M S E A).
Proof. intros s Hs. by eexists _, s. Qed.

Lemma ok_modify (f : S → S) : (∀ s, P s → P (f s)) → ok_on P (modify f : M S E unit).
Proof. intros H s Hs. eexists _, _. split; [done|by apply H]. Qed.

Lemma ok_bind_val {A B} (m : M S E A) (k : A → M S E B) Q :
  ok_val P m Q → (∀ a, Q a → ok_on P (k a)) → ok_on P (m ≫= k).
Proof.
  intros Hm Hk s Hs. destruct (Hm s Hs) as (a & s1 & H1 & Hs1 & Ha). destruct (Hk a Ha s1 Hs1) as (b & s2 & H2 & Hs2).
  exists b, s2. by rw (M_bind_Ok _ _ _ _ _ H1).
Qed.

Lemma ok_bind {A B} (m : M S E A) (k : A → M S E B) : ok_on P m → (∀ a, ok_on P (k a)) → ok_on P (m ≫= k).
Proof.
  intros Hm Hk. apply (ok_bind_val _ _ (λ _, True)); [|by intros].
  intros s Hs. destruct (Hm s Hs) as (a & s1 & H1 & Hs1). by exists a, s1.
Qed.

Lemma ok_get_bind {B} (k : S → M S E B) :
  (∀ s, P s → ∃ b s', k s s = (Ok b, s') ∧ P s') → ok_on P (get ≫= k).
Proof. intros H s Hs. destruct (H s Hs) as (b & s' & Hk & Hs'). exists b, s'. by rw (M_bind_Ok _ _ _ _ _ (eq_refl : get s = (Ok s, s))). Qed.

Lemma ok_when b (m : M S E unit) : ok_on P m → ok_on P (when b m).
Proof. destruct b; [done|]. intros _. apply ok_ret. Qed.
End ok_lemmas.

(** *** Invariant preservation for monadic code *)

(** [m] keeps [I] on every outcome: success, error and panic alike. *)
Definition preserves {S E A} (I : S → Prop) (m : M S E A) : Prop :=
  ∀ s, I s → I (m s).2.

Create HintDb preserves.

Section preserves_lemmas.
Context {S E : Type} (I : S → Prop).

Lemma preserves_ret {A} (a : A) : preserves I (mret a : M S E A).
Proof. by intros s. Qed.

Lemma preserves_throw {A} (e : E) : preserves I (throw e : M S E A).
Proof. by intros s. Qed.

Lemma preserves_panic {A} : preserves I (panic : M S E A).
Proof. by intros s. Qed.

Lemma preserves_get : preserves I (get : M S E S).
Proof. by intros s. Qed.

Lemma preserves_gets {A} (f : S → A) : preserves I (gets f : M S E A).
Proof. by intros s. Qed.

Lemma preserves_lift_res {A} (r : Res E A) : preserves I (lift_res r).
Proof. by intros s. Qed.

Lemma preserves_modify (f : S → S) :
  (∀ s, I s → I (f s)) → preserves I (modify f : M S E unit).
Proof. intros H s. apply H. Qed.

Lemma preserves_bind {A B} (m : M S E A) (k : A → M S E B) :
  preserves I m → (∀ a, preserves I (k a)) → preserves I (m ≫= k).
Proof.
  intros Hm Hk s Hs. specialize (Hm s Hs).
  rw /mbind /M_bind. destruct (m s) as [[a|e|] s']; simpl in *; auto.
  by apply Hk.
Qed.

Lemma preserves_when (b : bool) (m : M S E unit) :
  preserves I m → preserves I (when b m).
Proof. destruct b; [done|]. intros _. apply preserves_ret. Qed.

Lemma preserves_try {A E'} (m : M S E A) :
  preserves I m → preserves I (try_catch m : M S E' _).
Proof.
  intros Hm s Hs. specialize (Hm s Hs). rw /try_catch.
  by destruct (m s) as [[a|e|] s'].
Qed.

Lemma preserves_map_err {A E'} (f : E → E') (m : M S E A) :
  preserves I m → preserves I (map_err f m).
Proof.
  intros Hm s Hs. specialize (Hm s Hs). rw /map_err.
  by destruct (m s) as [[a|e|] s'].
Qed.
End preserves_lemmas.

#[export] Hint Resolve preserves_ret preserves_throw preserves_panic
  preserves_get preserves_gets preserves_lift_res preserves_when preserves_try
  preserves_map_err : preserves.

(** Walks through monadic code, leaving the [modify] steps and the calls that
    have no hint in the [preserves] database. *)
Ltac preserves_step :=
  match goal with
  | |- preserves _ (_ ≫= _) => apply preserves_bind; [|intros ?]
  | |- preserves _ (match ?x with _ => _ end) => destruct x
  | |- preserves _ (when _ _) => apply preserves_when
  | |- preserves _ (try_catch _) => apply preserves_try
  | |- preserves _ (map_err _ _) => apply preserves_map_err
  | |- preserves _ _ => solve [eauto 2 with preserves]
  end.
Ltac preserves := repeat preserves_step.

(** *** Weakest preconditions of monadic code *)

(** [wp m Q s]: run from [s], [m] ends with a result and a state in [Q]. *)
Definition wp {S E A} (m : M S E A) (Q : Res E A → S → Prop) (s : S) : Prop :=
  Q (m s).1 (m s).2.

(** A postcondition by cases; a panic is excluded. *)
Definition post {S E A} (Q : A → S → Prop) (QE : E → S → Prop) : Res E A → S → Prop :=
  λ r s, match r with Ok a => Q a s | Err e => QE e s | Panic => False end.

Create HintDb wp.

Section wp_lemmas.
Context {S E : Type}.
Implicit Types s : S.

Lemma wp_intro {A} (m : M S E A) Q s r s' : wp m Q s → m s = (r, s') → Q r s'.
Proof. rw /wp => H Hm. by rw Hm in H. Qed.

Lemma wp_eq {A} (m m' : M S E A) Q s : m s = m' s → wp m' Q s → wp m Q s.
Proof. rw /wp. by intros ->. Qed.

Lemma wp_mono {A} (m : M S E A) (Q Q' : Res E A → S → Prop) s :
  wp m Q s → (∀ r s', Q r s' → Q' r s') → wp m Q' s.
Proof. rw /wp. auto. Qed.

Lemma wp_ret {A} (a : A) (Q : Res E A → S → Prop) s : Q (Ok a) s → wp (mret a) Q s.
Proof. done. Qed.

Lemma wp_bind {A B} (m : M S E A) (k : A → M S E B) Q s :
  wp m (λ r s', match r with
                | Ok a => wp (k a) Q s'
                | Err e => Q (Err e) s'
                | Panic => Q Panic s'
                end) s →
  wp (m ≫= k) Q s.
Proof. rw /wp /mbind /M_bind. by destruct (m s) as [[a|e|] s']. Qed.

Lemma wp_throw {A} (e : E) (Q : Res E A → S → Prop) s : Q (Err e) s → wp (throw e) Q s.
Proof. done. Qed.

Lemma wp_panic {A} (Q : Res E A → S → Prop) s : Q Panic s → wp panic Q s.
Proof. done. Qed.

Lemma wp_get (Q : Res E S → S → Prop) s : Q (Ok s) s → wp get Q s.
Proof. done. Qed.

Lemma wp_gets {A} (f : S → A) (Q : Res E A → S → Prop) s : Q (Ok (f s)) s → wp (gets f) Q s.
Proof. done. Qed.

Lemma wp_modify (f : S → S) (Q : Res E unit → S → Prop) s : Q (Ok ()) (f s) → wp (modify f) Q s.
Proof. done. Qed.

Lemma wp_lift_res {A} (r : Res E A) (Q : Res E A → S → Prop) s : Q r s → wp (lift_res r) Q s.
Proof. done. Qed.

Lemma wp_when (b : bool) (m : M S E unit) Q s :
  (b = true → wp m Q s) → (b = false → Q (Ok ()) s) → wp (when b m) Q s.
Proof. destruct b; intros H1 H2; [by apply H1|by apply H2]. Qed.

Lemma wp_try {A E'} (m : M S E A) (Q : Res E' (Res E A) → S → Prop) s :
  wp m (λ r s', match r with Panic => Q Panic s' | _ => Q (Ok r) s' end) s →
  wp (try_catch m) Q s.
Proof. rw /wp /try_catch. by destruct (m s) as [[a|e|] s']. Qed.

Lemma wp_try_ok {A E'} (m : M S E A) (Q : Res E' (Res E A) → S → Prop) s :
  wp m (λ r s', r ≠ Panic ∧ Q (Ok r) s') s → wp (try_catch m) Q s.
Proof. intros Hm. apply wp_try. eapply wp_mono; [done|]. by intros [] ? []. Qed.

Lemma wp_map_err {A E'} (f : E → E') (m : M S E A) (Q : Res E' A → S → Prop) s :
  wp m (λ r s', match r with
                | Ok a => Q (Ok a) s'
                | Err e => Q (Err (f e)) s'
                | Panic => Q Panic s'
                end) s →
  wp (map_err f m) Q s.
Proof. rw /wp /map_err. by destruct (m s) as [[a|e|] s']. Qed.

Lemma wp_preserves {A} (I : S → Prop) (m : M S E A) s :
  preserves I m → I s → wp m (λ _ s', I s') s.
Proof. intros Hm. apply Hm. Qed.

(** A call of which only an invariant is known, followed by [k]. *)
Lemma wp_bind_inv {A B} (I : S → Prop) (m : M S E A) (k : A → M S E B) Q s :
  preserves I m → I s → (∀ a s', I s' → wp (k a) Q s') →
  (∀ e s', I s' → Q (Err e) s') → (∀ s', I s' → Q Panic s') → wp (m ≫= k) Q s.
Proof.
  intros Hm Hs Hk He Hp. apply wp_bind. specialize (Hm s Hs). rw /wp.
  destruct (m s) as [[a|e|] s']; simpl in *; auto. by apply Hk.
Qed.

Lemma preserves_bind_gets {A B} (I : S → Prop) (f : S → A) (k : A → M S E B) :
  (∀ s, I s → wp (k (f s)) (λ _ s', I s') s) → preserves I (gets f ≫= k).
Proof. done. Qed.

Lemma wp_and {A} (m : M S E A) Q Q' s :
  wp m Q s → wp m Q' s → wp m (λ r s', Q r s' ∧ Q' r s') s.
Proof. rw /wp. auto. Qed.

(** The postcondition may speak of the run itself. *)
Lemma wp_eqn {A} (m : M S E A) Q s : wp m Q s → wp m (λ r s', Q r s' ∧ m s = (r, s')) s.
Proof. rw /wp. intros H. split; [done|]. by destruct (m s). Qed.

Lemma wp_frame {A} (I : S → Prop) (m : M S E A) Q s :
  preserves I m → I s → wp m Q s → wp m (λ r s', Q r s' ∧ I s') s.
Proof. rw /wp. auto. Qed.
End wp_lemmas.

(** One step of symbolic execution; a call with a specification is left to
    [wp_apply]. *)
Ltac wp_step :=
  lazymatch goal with
  | |- wp (_ ≫= _) _ _ => apply wp_bind
  | |- wp (mret _) _ _ => apply wp_ret
  | |- wp (throw _) _ _ => apply wp_throw
  | |- wp panic _ _ => apply wp_panic
  | |- wp get _ _ => apply wp_get
  | |- wp (gets _) _ _ => apply wp_gets
  | |- wp (modify _) _ _ => apply wp_modify
  | |- wp (lift_res _) _ _ => apply wp_lift_res
  | |- wp (when _ _) _ _ => apply wp_when; intros ?
  | |- wp (try_catch _) _ _ => apply wp_try
  | |- wp (map_err _ _) _ _ => apply wp_map_err
  | |- wp (match ?x with _ => _ end) _ _ => destruct x eqn:?
  end.
Ltac wp_steps := repeat wp_step.
(** Uses the specification [lem] of the call at hand. *)
Tactic Notation "wp_apply" uconstr(lem) := eapply wp_mono; [eapply lem|].

(** ** Machine integers *)

Definition u8_max : Z := 2 ^ 8 - 1.
Definition u16_max : Z := 2 ^ 16 - 1.
Definition u32_max : Z := 2 ^ 32 - 1.
Definition u64_max : Z := 2 ^ 64 - 1.
Definition usize_max : Z := 2 ^ 64 - 1.

Definition is_u8 (z : Z) : Prop := 0 ≤ z ≤ u8_max.
Definition is_u16 (z : Z) : Prop := 0 ≤ z ≤ u16_max.
Definition is_u32 (z : Z) : Prop := 0 ≤ z ≤ u32_max.
Definition is_u64 (z : Z) : Prop := 0 ≤ z ≤ u64_max.

(** Arithmetic as a release build performs it: modulo [2 ^ w]. *)
Definition wrap (w z : Z) : Z := z mod 2 ^ w.
Definition u32_add (a b : Z) : Z := wrap 32 (a + b).
Definition u32_sub (a b : Z) : Z := wrap 32 (a - b).
(** [u32::checked_add]. *)
Definition u32_checked_add (a b : Z) : option Z :=
  if a + b <=? u32_max then Some (a + b) else None.
(** [x as u32] for a [usize]. *)
Definition as_u32 (z : Z) : Z := wrap 32 z.

Ltac unfold_int :=
  unfold is_u8, is_u16, is_u32, is_u64, u8_max, u16_max, u32_max, u64_max, usize_max in *.

Lemma wrap_small w z : 0 ≤ z < 2 ^ w → wrap w z = z.
Proof. intros. by apply Z.mod_small. Qed.

Lemma wrap_range w z : 0 ≤ w → 0 ≤ wrap w z < 2 ^ w.
Proof. intros. apply Z.mod_pos_bound. lia. Qed.

Lemma u32_add_small a b : is_u32 (a + b) → u32_add a b = a + b.
Proof. unfold_int. intros. apply wrap_small. lia. Qed.

Lemma u32_sub_small a b : 0 ≤ b ≤ a → is_u32 a → u32_sub a b = a - b.
Proof. unfold_int. intros. apply wrap_small. lia. Qed.

Lemma as_u32_small z : is_u32 z → as_u32 z = z.
Proof. unfold_int. intros. apply wrap_small. lia. Qed.

Lemma as_u32_range z : is_u32 (as_u32 z).
Proof. unfold_int. pose proof (wrap_range 32 z). rw /as_u32. lia. Qed.

Lemma u32_checked_add_Some a b c :
  u32_checked_add a b = Some c ↔ c = a + b ∧ a + b ≤ u32_max.
Proof.
  rw /u32_checked_add. case: Z.leb_spec; intros; split; intros; destruct_and?; simplify_eq; try done; lia.
Qed.

(** ** Bytes and big-endian integers *)

Abbreviation bytes := (list byte).

Definition byte_Z (b : byte) : Z := Z.of_N (Byte.to_N b).
Definition Z_byte (z : Z) : byte :=
  default x00 (Byte.of_N (Z.to_N (z mod 256))).

Lemma byte_Z_range b : 0 ≤ byte_Z b < 256.
Proof. rw /byte_Z. pose proof (Byte.to_N_bounded b). lia. Qed.

Lemma byte_Z_inj b1 b2 : byte_Z b1 = byte_Z b2 → b1 = b2.
Proof.
  rw /byte_Z => H. apply N2Z.inj in H.
  pose proof (Byte.of_to_N b1) as H1. pose proof (Byte.of_to_N b2) as H2.
  congruence.
Qed.

Lemma byte_Z_Z_byte z : byte_Z (Z_byte z) = z mod 256.
Proof.
  rw /byte_Z /Z_byte.
  pose proof (Z.mod_pos_bound z 256 ltac:(lia)) as Hz.
  destruct (Byte.of_N (Z.to_N (z mod 256))) as [b|] eqn:Hb; simpl.
  - apply Byte.to_of_N in Hb. rw Hb. lia.
  - apply Byte.of_N_None_iff in Hb. lia.
Qed.

Lemma Z_byte_byte_Z b : Z_byte (byte_Z b) = b.
Proof.
  apply byte_Z_inj. rw byte_Z_Z_byte Z.mod_small //. apply byte_Z_range.
Qed.

#[global] Instance byte_eq_dec : EqDecision byte := Byte.byte_eq_dec.
#[global] Instance byte_countable : Countable byte :=
  inj_countable Byte.to_N Byte.of_N Byte.of_to_N.

(** [BufMut::put_uint]: the [n] low bytes of [z], most significant first. *)
Fixpoint be_bytes (n : nat) (z : Z) : bytes :=
  match n with
  | O => []
  | S n => Z_byte (Z.shiftr z (8 * Z.of_nat n)) :: be_bytes n z
  end.

(** [Buf::get_uint]: the bytes read as one big-endian number. *)
Definition be_Z (l : bytes) : Z := foldl (λ acc b, acc * 256 + byte_Z b) 0 l.

Definition put_u8 (z : Z) : bytes := be_bytes 1 z.
Definition put_u16 (z : Z) : bytes := be_bytes 2 z.
Definition put_u32 (z : Z) : bytes := be_bytes 4 z.
Definition put_u64 (z : Z) : bytes := be_bytes 8 z.

(** [split_to(n)] / [split_at(n)] on a buffer known to hold [n] bytes. *)
Definition split_at {A} (n : nat) (l : list A) : list A * list A :=
  (take n l, drop n l).

(** [Buf::get_uN] on a buffer: value and remaining bytes. *)
Definition get_be (n : nat) (l : bytes) : Z * bytes :=
  (be_Z (take n l), drop n l).

Lemma length_be_bytes n z : length (be_bytes n z) = n.
Proof. induction n as [|n IH]; [done|]. cbn [be_bytes length]. by rw IH. Qed.

Lemma pow256_succ (n : nat) : 256 ^ S n = 256 * 256 ^ n.
Proof. rw Nat2Z.inj_succ. apply Z.pow_succ_r. lia. Qed.

Lemma shiftr_pow256 z (n : nat) : Z.shiftr z (8 * n) = z `div` 256 ^ n.
Proof.
  rewrite -> Z.shiftr_div_pow2 by lia. by rewrite -> (Z.pow_mul_r 2 8) by lia.
Qed.

Lemma be_Z_acc l acc :
  foldl (λ acc b, acc * 256 + byte_Z b) acc l = acc * 256 ^ length l + be_Z l.
Proof.
  rw /be_Z. revert acc. induction l as [|b l IH]; intros acc; cbn [foldl length].
  - lia.
  - rw IH (IH (0 * 256 + byte_Z b)) pow256_succ. lia.
Qed.

Lemma be_Z_cons b l : be_Z (b :: l) = byte_Z b * 256 ^ length l + be_Z l.
Proof. rw {1}/be_Z. cbn [foldl]. rw be_Z_acc. lia. Qed.

Lemma be_Z_range l : 0 ≤ be_Z l < 256 ^ length l.
Proof.
  induction l as [|b l IH]; [done|].
  rw be_Z_cons. cbn [length]. rw pow256_succ.
  pose proof (byte_Z_range b). nia.
Qed.

Lemma be_Z_be_bytes n z : be_Z (be_bytes n z) = z mod 256 ^ n.
Proof.
  induction n as [|n IH]; cbn [be_bytes]; [by rw Z.mod_1_r|].
  rw be_Z_cons length_be_bytes IH byte_Z_Z_byte shiftr_pow256 pow256_succ.
  rw (Z.mul_comm 256). rewrite -> Z.rem_mul_r by lia. lia.
Qed.

(** The [n] low bytes only depend on the number modulo [256 ^ m], [n ≤ m]. *)
Lemma be_bytes_mod (n m : nat) z :
  (n ≤ m)%nat → be_bytes n (z mod 256 ^ m) = be_bytes n z.
Proof.
  induction n as [|n IH]; intros Hm; [done|]. cbn [be_bytes].
  rw IH; [|lia]. f_equal. apply byte_Z_inj.
  rw !byte_Z_Z_byte !shiftr_pow256.
  replace (256 ^ m) with (256 ^ n * (256 * 256 ^ (Z.of_nat m - n - 1))); last first.
  { rewrite <- Z.pow_succ_r, <- Z.pow_add_r by lia. f_equal. lia. }
  rewrite -> Z.rem_mul_r by lia.
  rewrite -> (Z.mul_comm (256 ^ n)), Z.div_add by lia.
  rewrite -> (Z.div_small (z mod _)) by (apply Z.mod_pos_bound; lia).
  rewrite -> Z.add_0_l, Z.rem_mul_r by lia.
  rewrite -> (Z.mul_comm 256), Z.mod_add by lia. by rw Z.mod_mod.
Qed.

Lemma be_bytes_be_Z l : be_bytes (length l) (be_Z l) = l.
Proof.
  induction l as [|b l IH]; [done|]. cbn [length be_bytes].
  pose proof (be_Z_range l) as Hl. f_equal.
  - rw be_Z_cons shiftr_pow256. rewrite -> Z.div_add_l by lia.
    rw (Z.div_small (be_Z l)) // Z.add_0_r. apply Z_byte_byte_Z.
  - trans (be_bytes (length l) (be_Z l)); [|done].
    rewrite <- (be_bytes_mod _ (length l)) by lia.
    rw be_Z_cons Z.add_comm. rewrite -> Z.mod_add by lia. by rw Z.mod_small.
Qed.

Lemma be_bytes_be_Z' n l : length l = n → be_bytes n (be_Z l) = l.
Proof. intros <-. apply be_bytes_be_Z. Qed.

Lemma be_Z_put (n : nat) z : 0 ≤ z < 256 ^ n → be_Z (be_bytes n z) = z.
Proof. intros. by rw be_Z_be_bytes Z.mod_small. Qed.

Lemma get_be_put (n : nat) z rest :
  0 ≤ z < 256 ^ n → get_be n (be_bytes n z ++ rest) = (z, rest).
Proof.
  intros. rw /get_be take_app_length' ?length_be_bytes //.
  rw drop_app_length' ?length_be_bytes //. by rw be_Z_put.
Qed.

#[global] Arguments be_bytes : simpl never.
#[global] Arguments put_u8 : simpl never.
#[global] Arguments put_u16 : simpl never.
#[global] Arguments put_u32 : simpl never.
#[global] Arguments put_u64 : simpl never.

Lemma length_concat_put segs : length (concat (put_u16 <$> segs)) = (2 * length segs)%nat.
Proof.
  induction segs as [|n segs IH]; [done|]. cbn [fmap list_fmap concat length].
  rw length_app IH /put_u16 length_be_bytes. lia.
Qed.
