(* ===== verification/YamuxFrame.v ===== *)
(** * Yamux frames and their codec

    Models [yamux/src/frame.rs] with the constants of [yamux/src/lib.rs] and
    [yamux/src/config.rs]: frames, flags, the streaming decoder and the
    encoder of [FrameCodec].  The byte buffers ([BytesMut]) are byte lists;
    a decode step returns the outcome, the codec and the rest of the buffer. *)
From S2P Require Import Prelude.

(** ** Constants *)

Definition PROTOCOL_VERSION : Z := 0.
Definition RESERVED_STREAM_ID : Z := 0.
Definition HEADER_SIZE : nat := 12.
Definition INITIAL_STREAM_WINDOW : Z := 256 * 1024.

(** ** Frame data *)

Inductive FrameType := Data | WindowUpdate | Ping | GoAway.
#[global] Instance FrameType_eq_dec : EqDecision FrameType.
Proof. solve_decision. Defined.

(** [ty as u8]. *)
Definition ty_u8 (t : FrameType) : Z :=
  match t with Data => 0 | WindowUpdate => 1 | Ping => 2 | GoAway => 3 end.

(** [Type::try_from]. *)
Definition ty_try_from (value : Z) : option FrameType :=
  if decide (value = 0) then Some Data
  else if decide (value = 1) then Some WindowUpdate
  else if decide (value = 2) then Some Ping
  else if decide (value = 3) then Some GoAway
  else None.

Inductive Flag := Syn | Ack | Fin | Rst.
#[global] Instance Flag_eq_dec : EqDecision Flag.
Proof. solve_decision. Defined.

(** [flag as u16]. *)
Definition flag_u16 (f : Flag) : Z :=
  match f with Syn => 1 | Ack => 2 | Fin => 4 | Rst => 8 end.

(** [struct Flags(u16)]. *)
Abbreviation Flags := Z (only parsing).
Definition flags_default : Flags := 0.
Definition flags_from (f : Flag) : Flags := flag_u16 f.
Definition flags_add (fs : Flags) (f : Flag) : Flags := Z.lor fs (flag_u16 f).
Definition flags_remove (fs : Flags) (f : Flag) : Flags := Z.lxor fs (flag_u16 f).
Definition flags_contains (fs : Flags) (f : Flag) : bool :=
  Z.land fs (flag_u16 f) =? flag_u16 f.
Definition flags_value (fs : Flags) : Z := fs.

Inductive GoAwayCode := Normal | ProtocolError | InternalError.
#[global] Instance GoAwayCode_eq_dec : EqDecision GoAwayCode.
Proof. solve_decision. Defined.

(** [reason as u32]. *)
Definition go_away_u32 (c : GoAwayCode) : Z :=
  match c with Normal => 0 | ProtocolError => 1 | InternalError => 2 end.

(** [impl From<u32> for GoAwayCode]. *)
Definition go_away_from (value : Z) : GoAwayCode :=
  if decide (value = 0) then Normal
  else if decide (value = 1) then ProtocolError
  else if decide (value = 2) then InternalError
  else ProtocolError.

Record Header := mkHeader {
  version : Z;
  ty : FrameType;
  flags : Flags;
  stream_id : Z;
  length_ : Z;
}.
#[global] Instance Header_eq_dec : EqDecision Header.
Proof. solve_decision. Defined.

Record Frame := mkFrame {
  header : Header;
  body : option bytes;
}.
#[global] Instance Frame_eq_dec : EqDecision Frame.
Proof. solve_decision. Defined.

Definition new_data (fl : Flags) (sid : Z) (data : bytes) : Frame :=
  mkFrame (mkHeader PROTOCOL_VERSION Data fl sid (as_u32 (length data))) (Some data).
Definition new_window_update (fl : Flags) (sid delta : Z) : Frame :=
  mkFrame (mkHeader PROTOCOL_VERSION WindowUpdate fl sid delta) None.
Definition new_ping (fl : Flags) (ping_id : Z) : Frame :=
  mkFrame (mkHeader PROTOCOL_VERSION Ping fl RESERVED_STREAM_ID ping_id) None.
Definition new_go_away (reason : GoAwayCode) : Frame :=
  mkFrame (mkHeader PROTOCOL_VERSION GoAway flags_default RESERVED_STREAM_ID
             (go_away_u32 reason)) None.

(** Accessors of [Frame]. *)
Definition frame_ty (f : Frame) : FrameType := ty (header f).
Definition frame_stream_id (f : Frame) : Z := stream_id (header f).
Definition frame_flags (f : Frame) : Flags := flags (header f).
Definition frame_length (f : Frame) : Z := length_ (header f).
Definition frame_size (f : Frame) : Z :=
  match body f with
  | Some _ => frame_length f + HEADER_SIZE
  | None => HEADER_SIZE
  end.

(** ** The codec *)

Record FrameCodec := mkCodec {
  unused_data_header : option Header;
  max_frame_size : Z;
}.

Definition codec_default : FrameCodec := mkCodec None INITIAL_STREAM_WINDOW.
Definition set_max_frame_size (c : FrameCodec) (size : Z) : FrameCodec :=
  mkCodec (unused_data_header c) size.

(** The [io::Error]s of [decode], all of kind [InvalidData]; the constructor
    stands for the message ["yamux.version=.."], ["yamux.type=.."],
    ["yamux.length=.."]. *)
Inductive FrameError :=
| yamux_version (v : Z)
| yamux_type (v : Z)
| yamux_length (v : Z).

(** The [None if src.len() >= HEADER_SIZE] arm: 12 bytes read and checked. *)
Definition decode_header (max : Z) (header_data : bytes) : Res FrameError Header :=
  let '(version, header_data) := get_be 1 header_data in
  if negb (version =? PROTOCOL_VERSION) then Err (yamux_version version) else
  let '(ty_value, header_data) := get_be 1 header_data in
  match ty_try_from ty_value with
  | None => Err (yamux_type ty_value)
  | Some ty =>
    let '(flags, header_data) := get_be 2 header_data in
    let '(stream_id, header_data) := get_be 4 header_data in
    let '(length, _) := get_be 4 header_data in
    if bool_decide (ty = Data) && (max <? length) then Err (yamux_length length)
    else Ok (mkHeader version ty flags stream_id length)
  end.

(** The body part: [header] is known, the body may not have arrived yet. *)
Definition decode_body (self : FrameCodec) (h : Header) (src : bytes)
    : Res FrameError (option Frame) * FrameCodec * bytes :=
  if decide (ty h = Data) then
    if length src <? length_ h then
      (Ok None, mkCodec (Some h) (max_frame_size self), src)
    else
      let '(data, src) := split_at (Z.to_nat (length_ h)) src in
      (Ok (Some (mkFrame h (Some data))), self, src)
  else (Ok (Some (mkFrame h None)), self, src).

(** [FrameCodec::decode]. *)
Definition decode (self : FrameCodec) (src : bytes)
    : Res FrameError (option Frame) * FrameCodec * bytes :=
  match src with
  | [] => (Ok None, self, src)
  | _ =>
    match unused_data_header self with
    | Some h => decode_body (mkCodec None (max_frame_size self)) h src
    | None =>
      if (HEADER_SIZE <=? length src)%nat then
        let '(header_data, src) := split_at HEADER_SIZE src in
        match decode_header (max_frame_size self) header_data with
        | Ok h => decode_body self h src
        | Err e => (Err e, self, src)
        | Panic => (Panic, self, src)
        end
      else (Ok None, self, src)
    end
  end.

(** [FrameCodec::encode], [dst] before and after. *)
Definition encode (item : Frame) (dst : bytes) : bytes :=
  dst ++ put_u8 (version (header item)) ++ put_u8 (ty_u8 (ty (header item)))
      ++ put_u16 (flags_value (flags (header item)))
      ++ put_u32 (stream_id (header item))
      ++ put_u32 (length_ (header item))
      ++ default [] (body item).

(** ** Well-formed frames *)

Definition wf_header (h : Header) : Prop :=
  version h = PROTOCOL_VERSION ∧ is_u16 (flags h) ∧ is_u32 (stream_id h) ∧
  is_u32 (length_ h).

(** What a conforming peer puts on the wire: a body exactly for data frames,
    of the announced length and within the receiver's [max_frame_size]. *)
Definition wf_frame (max : Z) (f : Frame) : Prop :=
  wf_header (header f) ∧
  match frame_ty f with
  | Data => ∃ b, body f = Some b ∧ frame_length f = length b ∧ frame_length f ≤ max
  | _ => body f = None
  end.

Lemma ty_try_from_u8 t : ty_try_from (ty_u8 t) = Some t.
Proof. by destruct t. Qed.

Lemma ty_try_from_Some v t : ty_try_from v = Some t → v = ty_u8 t.
Proof. rw /ty_try_from. by repeat case_decide; intros; simplify_eq. Qed.

Lemma ty_u8_range t : 0 ≤ ty_u8 t < 256.
Proof. by destruct t. Qed.

(** The twelve header bytes of [encode]. *)
Definition header_bytes (h : Header) : bytes :=
  put_u8 (version h) ++ put_u8 (ty_u8 (ty h)) ++ put_u16 (flags h)
    ++ put_u32 (stream_id h) ++ put_u32 (length_ h).

Lemma encode_header_body f dst :
  encode f dst = dst ++ header_bytes (header f) ++ default [] (body f).
Proof. rw /encode /header_bytes /flags_value. by rw -!app_assoc. Qed.

Lemma length_header_bytes h : length (header_bytes h) = HEADER_SIZE.
Proof. by rw /header_bytes !length_app !length_be_bytes. Qed.

Lemma decode_header_bytes max h :
  wf_header h → ty h ≠ Data ∨ length_ h ≤ max →
  decode_header max (header_bytes h) = Ok h.
Proof.
  destruct h as [v t fl sid len]. rw /wf_header /header_bytes /=. unfold_int.
  intros (-> & Hfl & Hsid & Hlen) Hmax.
  pose proof (ty_u8_range t) as Ht.
  rw /decode_header /put_u8 /put_u16 /put_u32 get_be_put //.
  rw get_be_put //. rw ty_try_from_u8 get_be_put; [|lia].
  rw get_be_put; [|lia].
  rewrite <- (app_nil_r (be_bytes 4 len)), get_be_put by lia.
  case_bool_decide; [|done]. simpl.
  destruct (Z.ltb_spec max len); [destruct Hmax; [done|lia]|done].
Qed.

Lemma decode_header_Ok max bs h :
  length bs = HEADER_SIZE → decode_header max bs = Ok h →
  bs = header_bytes h ∧ wf_header h ∧ (ty h = Data → length_ h ≤ max).
Proof.
  intros Hlen.
  do 12 (destruct bs as [|? bs]; [done|]). destruct bs; [|done]. clear Hlen.
  rw /decode_header /get_be. cbn [take drop].
  case: Z.eqb_spec => [Hv|//]. cbn [negb].
  destruct (ty_try_from _) as [t|] eqn:Ht; [|done].
  apply ty_try_from_Some in Ht.
  destruct (bool_decide (t = Data) && _) eqn:Hmax; [done|]. intros [= <-].
  split; [|split].
  - rw /header_bytes. cbn [version ty flags stream_id length_].
    by rw -Ht /put_u8 /put_u16 /put_u32 !be_bytes_be_Z'.
  - rw /wf_header /=. unfold_int.
    repeat match goal with |- context [be_Z ?l] =>
      lazymatch goal with H : 0 ≤ be_Z l < _ |- _ => fail | _ =>
      pose proof (be_Z_range l); cbn [length] in * end end.
    split_and!; try done; lia.
  - simpl. intros ->. by apply Z.ltb_ge.
Qed.

(** ** Reading a byte stream with the decoder *)

(** A codec between two calls: a saved header announces a non-empty data body
    that passed the size check. *)
Definition wf_codec (c : FrameCodec) : Prop :=
  match unused_data_header c with
  | Some h => wf_header h ∧ ty h = Data ∧ 0 < length_ h ≤ max_frame_size c
  | None => True
  end.

(** Work left in a buffer; every frame decoded decreases it. *)
Definition pending_work (c : FrameCodec) (src : bytes) : nat :=
  (length src + match unused_data_header c with Some _ => 1 | None => 0 end)%nat.

Lemma decode_body_app max h src more :
  decode_body (mkCodec None max) h (src ++ more) =
  match decode_body (mkCodec None max) h src with
  | (Ok None, _, src') => decode_body (mkCodec None max) h (src' ++ more)
  | (r, c', src') => (r, c', src' ++ more)
  end.
Proof.
  rw /decode_body /split_at. case_decide; [|done].
  destruct (Z.ltb_spec (length src) (length_ h)); [done|].
  rw length_app. destruct (Z.ltb_spec (length src + length more)%nat (length_ h)); [lia|].
  rw take_app_le; [|lia]. by rw drop_app_le; [|lia].
Qed.

(** A body step that asks for more bytes saves the header and keeps the buffer. *)
Lemma decode_body_None max h src c' src' :
  decode_body (mkCodec None max) h src = (Ok None, c', src') →
  c' = mkCodec (Some h) max ∧ src' = src ∧ ty h = Data ∧ length src < length_ h.
Proof.
  rw /decode_body. case_decide; [|done].
  destruct (Z.ltb_spec (length src) (length_ h)); [|done]. by intros [= <- <-].
Qed.

(** A body step that succeeds takes exactly the body off the buffer. *)
Lemma decode_body_Some max h src f c' src' :
  decode_body (mkCodec None max) h src = (Ok (Some f), c', src') →
  c' = mkCodec None max ∧ header f = h ∧ src = default [] (body f) ++ src' ∧
  match ty h with
  | Data => 0 ≤ length_ h → ∃ b, body f = Some b ∧ length_ h = length b
  | _ => body f = None
  end.
Proof.
  rw /decode_body /split_at. case_decide as Hty.
  - destruct (Z.ltb_spec (length src) (length_ h)); [done|]. intros [= <- <- <-].
    rw take_drop Hty. split_and!; [done..|]. intros ?. eexists; split; [done|].
    simpl. rw length_take. lia.
  - intros [= <- <- <-]. split_and!; [done..|]. by destruct (ty h).
Qed.

(** With a saved header, [decode] is the body step (on an empty buffer too,
    when the body is not empty). *)
Lemma decode_saved max h src :
  ty h = Data → 0 < length_ h →
  decode (mkCodec (Some h) max) src = decode_body (mkCodec None max) h src.
Proof.
  intros Hty Hlen. destruct src; [|done].
  rw /decode /decode_body decide_True //.
  by case: Z.ltb_spec; [|simpl; lia].
Qed.

(** Appending bytes to the buffer does not change what a step that already
    succeeded or failed returns, and a step that asked for more bytes can be
    resumed from the state it left. *)
Lemma decode_app c src more :
  decode c (src ++ more) =
  match decode c src with
  | (Ok None, c', src') => decode c' (src' ++ more)
  | (r, c', src') => (r, c', src' ++ more)
  end.
Proof.
  destruct src as [|b src]; [done|]. destruct c as [[u|] max].
  - change (decode (mkCodec (Some u) max) (b :: src))
      with (decode_body (mkCodec None max) u (b :: src)).
    change (decode (mkCodec (Some u) max) ((b :: src) ++ more))
      with (decode_body (mkCodec None max) u ((b :: src) ++ more)).
    rw decode_body_app.
    destruct (decode_body _ u (b :: src)) as [[[[f|]| |] c'] src'] eqn:E; [done| |done..].
    by apply decode_body_None in E as (-> & -> & _ & _).
  - set (l := b :: src). assert (Hne : l ≠ []) by done. clearbody l.
    assert (∀ l', l' ≠ [] → decode (mkCodec None max) l' =
      if (HEADER_SIZE <=? length l')%nat then
        match decode_header max (take HEADER_SIZE l') with
        | Ok h => decode_body (mkCodec None max) h (drop HEADER_SIZE l')
        | Err e => (Err e, mkCodec None max, drop HEADER_SIZE l')
        | Panic => (Panic, mkCodec None max, drop HEADER_SIZE l')
        end
      else (Ok None, mkCodec None max, l')) as Hdec by (by intros []).
    rw (Hdec l) // {1}(Hdec (l ++ more)); [|by destruct l].
    destruct (Nat.leb_spec HEADER_SIZE (length l)) as [Hl|Hl]; last first.
    { rw Hdec //. by destruct l. }
    rw length_app. destruct (Nat.leb_spec HEADER_SIZE (length l + length more)); [|lia].
    rw take_app_le // drop_app_le //.
    destruct (decode_header max _) as [h| |]; [|done..].
    rw decode_body_app.
    destruct (decode_body _ h _) as [[[[f|]| |] c'] src'] eqn:E; [done| |done..].
    apply decode_body_None in E as (-> & -> & Hty & Hlen).
    rw decode_saved //. lia.
Qed.

Lemma decode_work c src f c' src' :
  decode c src = (Ok (Some f), c', src') →
  (pending_work c' src' < pending_work c src)%nat.
Proof.
  destruct src as [|b src]; [done|].
  destruct c as [[u|] max]; rw /decode; cbn [unused_data_header max_frame_size].
  - intros (-> & _ & -> & _)%decode_body_Some.
    rw /pending_work length_app /=. lia.
  - destruct (Nat.leb_spec HEADER_SIZE (length (b :: src))) as [Hl|]; [|done].
    rw /split_at /HEADER_SIZE in Hl |- *.
    destruct (decode_header max _) as [h| |]; [|done..].
    intros (-> & _ & Hsrc & _)%decode_body_Some.
    apply (f_equal length) in Hsrc. rw length_app length_drop in Hsrc.
    rw /pending_work /= in Hl Hsrc |- *. lia.
Qed.

(** [decode] called until it asks for more bytes or fails, as [Framed] does;
    [n] bounds the number of calls. *)
Fixpoint decode_all (n : nat) (c : FrameCodec) (src : bytes)
    : list Frame * option FrameError * FrameCodec * bytes :=
  match n with
  | O => ([], None, c, src)
  | S n =>
    match decode c src with
    | (Ok (Some f), c', src') =>
      let '(fs, e, c'', src'') := decode_all n c' src' in (f :: fs, e, c'', src'')
    | (Err e, c', src') => ([], Some e, c', src')
    | (_, c', src') => ([], None, c', src')
    end
  end.

(** A reader: the frames produced so far, the error that stopped it, the codec
    and the bytes not consumed yet. *)
Record Reader := mkReader {
  rd_out : list Frame;
  rd_err : option FrameError;
  rd_codec : FrameCodec;
  rd_buf : bytes;
}.

Definition reader_new (c : FrameCodec) : Reader := mkReader [] None c [].

(** A chunk arrives from the network and the decoder runs on the buffer. *)
Definition feed (r : Reader) (chunk : bytes) : Reader :=
  let src := rd_buf r ++ chunk in
  match rd_err r with
  | Some e => mkReader (rd_out r) (Some e) (rd_codec r) src
  | None =>
    let '(fs, e, c, src) := decode_all (S (pending_work (rd_codec r) src)) (rd_codec r) src in
    mkReader (rd_out r ++ fs) e c src
  end.

Definition feed_chunks (r : Reader) (chunks : list bytes) : Reader := foldl feed r chunks.

Lemma decode_work_None c src c' src' more :
  decode c src = (Ok None, c', src') →
  (pending_work c' (src' ++ more) ≤ pending_work c (src ++ more))%nat.
Proof.
  destruct src as [|b src]; [by intros [= <- <-]|].
  destruct c as [[u|] max]; rw /decode; cbn [unused_data_header max_frame_size].
  - intros (-> & -> & _ & _)%decode_body_None. done.
  - destruct (Nat.leb_spec HEADER_SIZE (length (b :: src))) as [Hl|]; [|by intros [= <- <-]].
    rw /split_at /HEADER_SIZE in Hl |- *.
    destruct (decode_header max _) as [h| |]; [|done..].
    intros (-> & -> & _ & _)%decode_body_None.
    rw /pending_work !length_app length_drop. simpl in *. lia.
Qed.

Lemma decode_no_panic c src : (decode c src).1.1 ≠ Panic.
Proof.
  assert (∀ max bs, decode_header max bs ≠ Panic) as Hh.
  { intros. rw /decode_header. by repeat case_match. }
  assert (∀ c h src, (decode_body c h src).1.1 ≠ Panic) as Hb.
  { intros. rw /decode_body. by repeat case_match. }
  rw /decode. destruct src; [done|]. case_match; [done|]. case_match; [|done].
  cbn [split_at]. specialize (Hh (max_frame_size c) (take HEADER_SIZE (b :: src))).
  by destruct (decode_header _ _).
Qed.

Lemma decode_all_S n c src :
  decode_all (S n) c src =
  match decode c src with
  | (Ok (Some f), c', src') =>
    let '(fs, e, c'', src'') := decode_all n c' src' in (f :: fs, e, c'', src'')
  | (Err e, c', src') => ([], Some e, c', src')
  | (_, c', src') => ([], None, c', src')
  end.
Proof. done. Qed.

Lemma decode_all_fuel n m c src :
  (pending_work c src < n)%nat → (pending_work c src < m)%nat →
  decode_all n c src = decode_all m c src.
Proof.
  revert m c src. induction n as [|n IH]; intros m c src; [lia|].
  destruct m as [|m]; [lia|]. intros Hn Hm. cbn [decode_all].
  destruct (decode c src) as [[[[f|]| |] c'] src'] eqn:E; [|done..].
  apply decode_work in E. by rw (IH m); [|lia..].
Qed.

Lemma decode_all_app n m c src more :
  (pending_work c src < n)%nat → (pending_work c (src ++ more) < m)%nat →
  decode_all m c (src ++ more) =
  match decode_all n c src with
  | (fs, Some e, c', src') => (fs, Some e, c', src' ++ more)
  | (fs, None, c', src') =>
    let '(fs', e, c'', src'') :=
      decode_all (S (pending_work c' (src' ++ more))) c' (src' ++ more) in
    (fs ++ fs', e, c'', src'')
  end.
Proof.
  revert m c src. induction n as [|n IH]; intros m c src Hn Hm; [lia|].
  destruct m as [|m]; [lia|]. rw (decode_all_S n) (decode_all_S m).
  pose proof (decode_app c src more) as Happ. pose proof (decode_no_panic c src).
  destruct (decode c src) as [[[[f|]|e|] c'] src'] eqn:E; [| |by rw Happ|done].
  - rw Happ. pose proof (decode_work _ _ _ _ _ E). pose proof (decode_work _ _ _ _ _ Happ).
    rw (IH m c' src'); [|lia..].
    destruct (decode_all n c' src') as [[[fs [e|]] c2] s2]; [done|].
    by destruct (decode_all _ c2 (s2 ++ more)) as [[[??]?]?].
  - pose proof (decode_work_None _ _ _ _ more E).
    trans (decode_all (S m) c' (src' ++ more)); [by rw decode_all_S Happ|].
    rw (decode_all_fuel (S m) (S (pending_work c' (src' ++ more)))); [|lia..].
    by destruct (decode_all _ _ _) as [[[??]?]?].
Qed.

Lemma feed_app r a b : feed r (a ++ b) = feed (feed r a) b.
Proof.
  rw /feed. destruct (rd_err r) as [e|] eqn:He; [by rw /= app_assoc|].
  rw app_assoc.
  rw (decode_all_app (S (pending_work (rd_codec r) (rd_buf r ++ a)))); [|lia..].
  destruct (decode_all _ _ (rd_buf r ++ a)) as [[[fs [e|]] c'] s'];
    cbn [rd_err rd_out rd_codec rd_buf]; [done|].
  destruct (decode_all _ c' (s' ++ b)) as [[[fs' e] c''] s'']. by rw app_assoc.
Qed.

(** A well-formed frame at the front of the buffer is decoded, whatever follows. *)
Lemma decode_encode max f rest :
  wf_frame max f →
  decode (mkCodec None max) (encode f [] ++ rest) = (Ok (Some f), mkCodec None max, rest).
Proof.
  intros [Hh Hbody]. rw encode_header_body app_nil_l -app_assoc.
  pose proof (length_header_bytes (header f)) as Hlen.
  set (tail := default [] (body f) ++ rest).
  rw /decode. destruct (header_bytes (header f) ++ tail) as [|b0 l0] eqn:E.
  { apply (f_equal length) in E. rw length_app Hlen in E. by simpl in E. }
  rw -E. cbn [unused_data_header max_frame_size]. rw length_app Hlen.
  destruct (Nat.leb_spec HEADER_SIZE (HEADER_SIZE + length tail)); [|lia].
  rw /split_at take_app_length' // drop_app_length' // decode_header_bytes //; last first.
  { rw /frame_ty in Hbody. destruct (ty (header f)); [right|left..]; [|done..].
    by destruct Hbody as (?&?&?&?). }
  rw /decode_body /tail. rw /frame_ty /frame_length in Hbody. case_decide as Hty.
  - rw Hty in Hbody. destruct Hbody as (b & Hb & Hl & _). rw Hb Hl /=.
    rw length_app Nat2Z.id. destruct (Z.ltb_spec (length b + length rest)%nat (length b)); [lia|].
    rw /split_at take_app_length drop_app_length. destruct f; simpl in *; by subst.
  - destruct f as [h b]; simpl in *. by destruct (ty h); simplify_eq; simpl.
Qed.

(** What a sender writes: [encode] applied to its outgoing frames in order. *)
Definition encode_all (fs : list Frame) : bytes := foldl (λ dst f, encode f dst) [] fs.

Lemma encode_all_cons f fs : encode_all (f :: fs) = encode f [] ++ encode_all fs.
Proof.
  rw /encode_all. cbn [foldl]. generalize (encode f []) as acc.
  assert (∀ acc acc' fs, foldl (λ dst f, encode f dst) (acc ++ acc') fs =
    acc ++ foldl (λ dst f, encode f dst) acc' fs) as H.
  { intros acc acc' gs. revert acc'. induction gs as [|g gs IH]; intros acc'; [done|].
    simpl. rw -IH. f_equal. rw !encode_header_body. by rw -app_assoc. }
  intros acc. rw -{1}(app_nil_r acc). apply H.
Qed.

Lemma feed_encoded max frames rd :
  rd_err rd = None → rd_codec rd = mkCodec None max → rd_buf rd = [] →
  Forall (wf_frame max) frames →
  feed rd (encode_all frames) = mkReader (rd_out rd ++ frames) None (mkCodec None max) [].
Proof.
  revert rd. induction frames as [|f fs IH]; intros [out e c buf] He Hc Hb Hwf; simpl in *; subst.
  { by rw /feed /= app_nil_r. }
  apply Forall_cons in Hwf as [Hf Hfs].
  rw encode_all_cons feed_app.
  assert (feed (mkReader out None (mkCodec None max) []) (encode f []) =
    mkReader (out ++ [f]) None (mkCodec None max) []) as ->.
  { rw /feed. cbn [rd_err rd_codec rd_buf rd_out].
    pose proof (decode_encode max f [] Hf) as Hd. rw app_nil_r in Hd.
    rw app_nil_l decode_all_S Hd. by destruct (pending_work _ _). }
  by rw IH //= -app_assoc.
Qed.

Lemma feed_chunks_concat r chunks pre :
  feed_chunks (feed r pre) chunks = feed r (pre ++ concat chunks).
Proof.
  rw /feed_chunks. revert pre. induction chunks as [|ch chunks IH]; intros pre; simpl.
  - by rw app_nil_r.
  - by rw -feed_app IH -app_assoc.
Qed.

(** ** Flags *)

Definition flag_bit (f : Flag) : Z :=
  match f with Syn => 0 | Ack => 1 | Fin => 2 | Rst => 3 end.

Lemma flag_u16_bit f : flag_u16 f = 2 ^ flag_bit f.
Proof. by destruct f. Qed.

Lemma flags_contains_testbit fs f : flags_contains fs f = Z.testbit fs (flag_bit f).
Proof.
  assert (0 ≤ flag_bit f) by by destruct f.
  rw /flags_contains flag_u16_bit. apply eq_true_iff_eq.
  rw Z.eqb_eq. split; intros H1.
  - apply (f_equal (λ z, Z.testbit z (flag_bit f))) in H1.
    rw Z.land_spec Z.pow2_bits_true // andb_true_r in H1. by rw H1.
  - apply Z.bits_inj'. intros n Hn. rw Z.land_spec.
    destruct (decide (n = flag_bit f)) as [->|Hne].
    + by rw H1 Z.pow2_bits_true.
    + rw Z.pow2_bits_false // andb_false_r //.
Qed.

Lemma testbit_flag f g : Z.testbit (flag_u16 f) (flag_bit g) = bool_decide (f = g).
Proof. by destruct f, g. Qed.

(** ** Properties *)

(** C12. Round trip over a byte stream: when a peer encodes well-formed frames
    and the network delivers the bytes cut in any way into chunks, the decoder
    yields exactly these frames in order, without error, and is left idle with
    an empty buffer. *)
Theorem frames_roundtrip (max : Z) (frames : list Frame) (chunks : list bytes) :
  Forall (wf_frame max) frames →
  concat chunks = encode_all frames →
  feed_chunks (reader_new (mkCodec None max)) chunks =
    mkReader frames None (mkCodec None max) [].
Proof.
  intros Hwf Hch. change (reader_new (mkCodec None max))
    with (feed (reader_new (mkCodec None max)) []).
  rw feed_chunks_concat Hch. by apply (feed_encoded max frames (reader_new _)).
Qed.

Definition sample_frames : list Frame :=
  [new_window_update (flags_from Syn) 1 0; new_data 0 1 [x01; x02; x03]; new_data 0 1 [];
   new_ping (flags_from Ack) 7; new_go_away Normal].

Lemma frames_roundtrip_witness :
  feed_chunks (reader_new (mkCodec None 256)) (map (λ b, [b]) (encode_all sample_frames)) =
    mkReader sample_frames None (mkCodec None 256) [].
Proof.
  apply (frames_roundtrip 256 sample_frames).
  - rw /sample_frames. repeat constructor; simpl; try done; eexists; done.
  - vm_compute. reflexivity.
Defined.

(** The decoder's behaviour does not depend on how the input is cut: for
    arbitrary bytes (malformed ones included) the frames produced, the error
    reported and the state left are those of a single read of all the bytes. *)
Theorem decoder_chunk_independent (c : FrameCodec) (chunks : list bytes) :
  feed_chunks (reader_new c) chunks = feed (reader_new c) (concat chunks).
Proof.
  change (reader_new c) with (feed (reader_new c) []) at 1.
  by rw feed_chunks_concat.
Qed.

(** C20. Soundness of one decoding step: a frame is only produced from bytes
    that are its own encoding, it is well formed and a data frame never
    exceeds [max_frame_size]; nothing else is consumed from the buffer. *)
Theorem decode_sound (max : Z) (src : bytes) (f : Frame) (c' : FrameCodec) (src' : bytes) :
  decode (mkCodec None max) src = (Ok (Some f), c', src') →
  src = encode f [] ++ src' ∧ wf_frame max f ∧ c' = mkCodec None max.
Proof.
  destruct src as [|b src]; [done|]. rw /decode /split_at. cbn [unused_data_header max_frame_size].
  destruct (Nat.leb_spec HEADER_SIZE (length (b :: src))) as [Hl|]; [|done].
  destruct (decode_header max _) as [h| |] eqn:Hh; [|done..].
  apply decode_header_Ok in Hh as (Hbs & Hwf & Hmax); [|rw length_take; lia].
  intros (-> & <- & Hsrc & Hbody)%decode_body_Some.
  rw encode_header_body app_nil_l -app_assoc -Hsrc -Hbs take_drop.
  split_and!; [done| |done]. split; [done|].
  rw /frame_ty /frame_length. destruct Hwf as (_ & _ & _ & [? _]).
  destruct (ty (header f)) eqn:Hty; [|done..].
  destruct Hbody as (bd & ? & ?); [done|]. eauto.
Qed.

Lemma decode_sound_witness :
  encode (new_data 0 1 [x05]) [] ++ [x07] = encode (new_data 0 1 [x05]) [] ++ [x07] ∧
  wf_frame 256 (new_data 0 1 [x05]) ∧ mkCodec None 256 = mkCodec None 256.
Proof. apply decode_sound. vm_compute. reflexivity. Defined.

(** Frame flags are a set of bits: adding a flag makes it present and
    changes no other flag; [remove] flips the flag, so it removes a flag that
    is present and sets one that is absent. *)
Theorem flags_ops_spec (fs : Flags) (f g : Flag) :
  flags_contains (flags_from f) g = bool_decide (f = g) ∧
  flags_contains (flags_add fs f) g = flags_contains fs g || bool_decide (f = g) ∧
  flags_contains (flags_remove fs f) g =
    (if bool_decide (f = g) then negb (flags_contains fs g) else flags_contains fs g).
Proof.
  rw !flags_contains_testbit /flags_from /flags_add /flags_remove Z.lor_spec Z.lxor_spec !testbit_flag.
  split_and!; [done|done|]. case_bool_decide; by destruct (Z.testbit _ _).
Qed.
