(* ===== verification/YamuxStream.v ===== *)
(** * Yamux streams

    Models [yamux/src/stream.rs]: [StreamHandle], its state machine, its flow
    control windows and its [AsyncRead]/[AsyncWrite]/[Drop] implementations,
    with [yamux/src/error.rs].

    The two channels that join a stream to its session are [futures::mpsc]
    channels, which are not part of the repository: the stream is modelled
    over any receiver [R] and event sender [T] with the operations the code
    calls ([FrameReceiver], [EventSender]).  A waker is a number; a call of
    [Waker::wake] is recorded in [woken].  Polling functions return
    [Err e] for [Poll::Ready(Err(e))] and [Ok p] otherwise. *)
From S2P Require Import Prelude YamuxFrame.

(** ** Errors, events and states *)

Inductive Error :=
| InvalidVersion | InvalidMsgType | SessionShutdown | StreamsExhausted
| DuplicateStream | RecvWindowExceeded | Timeout | StreamClosed
| UnexpectedFlag | RemoteGoAway | ConnectionReset | ConnectionWriteTimeout
| KeepAliveTimeout | SubStreamRemoteClosing | WouldBlock.
#[global] Instance Error_eq_dec : EqDecision Error.
Proof. solve_decision. Defined.

Inductive StreamEvent :=
| EvFrame (f : Frame)
| EvClosed (id : Z)
| EvGoAway.
#[global] Instance StreamEvent_eq_dec : EqDecision StreamEvent.
Proof. solve_decision. Defined.

Inductive StreamState :=
| Init | SynSent | SynReceived | Established
| LocalClosing | RemoteClosing | Closed | Reset.
#[global] Instance StreamState_eq_dec : EqDecision StreamState.
Proof. solve_decision. Defined.

Abbreviation Waker := nat (only parsing).

(** ** The channels, as the stream uses them *)

(** [futures::channel::mpsc::Receiver<Frame>]. [fr_try_recv] returns
    [Ready (Some f)] for [Ok(f)], [Ready None] for [Err(Closed)] and [Pending]
    for [Err(Empty)].  [fr_queue] are the frames in the channel, oldest first;
    [fr_open] holds while the sending half exists. *)
Class FrameReceiver (R : Type) := {
  fr_poll_next : R → Poll (option Frame) * R;
  fr_try_recv : R → Poll (option Frame) * R;
  fr_is_terminated : R → bool;
  fr_queue : R → list Frame;
  fr_open : R → bool;
}.

(** What one receive does: it takes the oldest frame, reports an empty channel
    only when there is none, and a closed one only when the sender is gone. *)
Definition takes_oldest {R} `{!FrameReceiver R} (next : R → Poll (option Frame) * R) : Prop :=
  ∀ r, fr_open (next r).2 = fr_open r ∧
       match next r with
       | (Ready (Some f), r') => fr_queue r = f :: fr_queue r'
       | (Ready None, r') => fr_queue r = [] ∧ fr_queue r' = [] ∧ fr_open r = false
       | (Pending, r') => fr_queue r = [] ∧ fr_queue r' = []
       end.

Class FrameReceiverLaws (R : Type) `{!FrameReceiver R} := {
  fr_poll_next_fifo : takes_oldest fr_poll_next;
  fr_try_recv_fifo : takes_oldest fr_try_recv;
  fr_terminated_closed r : fr_is_terminated r = true → fr_queue r = [] ∧ fr_open r = false;
}.

(** [futures::channel::mpsc::UnboundedSender<StreamEvent>]: [es_send] is
    [unbounded_send], [true] for [Ok(())].  [es_log] are the events accepted so
    far, oldest first. *)
Class EventSender (T : Type) := {
  es_send : StreamEvent → T → bool * T;
  es_is_closed : T → bool;
  es_log : T → list StreamEvent;
}.

(** A send fails exactly on a closed channel, and is recorded otherwise. *)
Class EventSenderLaws (T : Type) `{!EventSender T} := {
  es_send_closed t ev : (es_send ev t).1 = negb (es_is_closed t);
  es_send_log t ev :
    es_log (es_send ev t).2 = if (es_send ev t).1 then es_log t ++ [ev] else es_log t;
  es_send_is_closed t ev : es_is_closed (es_send ev t).2 = es_is_closed t;
}.

(** ** The stream handle *)

Record StreamHandle (R T : Type) := mkStream {
  id : Z;
  state : StreamState;
  max_recv_window : Z;
  recv_window : Z;
  send_window : Z;
  read_buf : list bytes;
  unbound_event_sender : T;
  frame_receiver : R;
  writeable_wake : option Waker;
  readable_wake : option Waker;
  woken : list Waker;
}.
Arguments mkStream {R T}.
Arguments id {R T}.
Arguments state {R T}.
Arguments max_recv_window {R T}.
Arguments recv_window {R T}.
Arguments send_window {R T}.
Arguments read_buf {R T}.
Arguments unbound_event_sender {R T}.
Arguments frame_receiver {R T}.
Arguments writeable_wake {R T}.
Arguments readable_wake {R T}.
Arguments woken {R T}.

Section setters.
Context {R T : Type}.
Implicit Types h : StreamHandle R T.

Definition set_state (x : StreamState) h : StreamHandle R T :=
  mkStream (id h) x (max_recv_window h) (recv_window h) (send_window h) (read_buf h)
    (unbound_event_sender h) (frame_receiver h) (writeable_wake h) (readable_wake h) (woken h).
Definition set_recv_window (x : Z) h : StreamHandle R T :=
  mkStream (id h) (state h) (max_recv_window h) x (send_window h) (read_buf h)
    (unbound_event_sender h) (frame_receiver h) (writeable_wake h) (readable_wake h) (woken h).
Definition set_send_window (x : Z) h : StreamHandle R T :=
  mkStream (id h) (state h) (max_recv_window h) (recv_window h) x (read_buf h)
    (unbound_event_sender h) (frame_receiver h) (writeable_wake h) (readable_wake h) (woken h).
Definition set_read_buf (x : list bytes) h : StreamHandle R T :=
  mkStream (id h) (state h) (max_recv_window h) (recv_window h) (send_window h) x
    (unbound_event_sender h) (frame_receiver h) (writeable_wake h) (readable_wake h) (woken h).
Definition set_event_sender (x : T) h : StreamHandle R T :=
  mkStream (id h) (state h) (max_recv_window h) (recv_window h) (send_window h) (read_buf h)
    x (frame_receiver h) (writeable_wake h) (readable_wake h) (woken h).
Definition set_frame_receiver (x : R) h : StreamHandle R T :=
  mkStream (id h) (state h) (max_recv_window h) (recv_window h) (send_window h) (read_buf h)
    (unbound_event_sender h) x (writeable_wake h) (readable_wake h) (woken h).
Definition set_writeable_wake (x : option Waker) h : StreamHandle R T :=
  mkStream (id h) (state h) (max_recv_window h) (recv_window h) (send_window h) (read_buf h)
    (unbound_event_sender h) (frame_receiver h) x (readable_wake h) (woken h).
Definition set_readable_wake (x : option Waker) h : StreamHandle R T :=
  mkStream (id h) (state h) (max_recv_window h) (recv_window h) (send_window h) (read_buf h)
    (unbound_event_sender h) (frame_receiver h) (writeable_wake h) x (woken h).
Definition set_woken (x : list Waker) h : StreamHandle R T :=
  mkStream (id h) (state h) (max_recv_window h) (recv_window h) (send_window h) (read_buf h)
    (unbound_event_sender h) (frame_receiver h) (writeable_wake h) (readable_wake h) x.
End setters.

Section stream.
Context {R T : Type} `{!FrameReceiver R, !EventSender T}.
Abbreviation Stream := (StreamHandle R T).

(** [StreamHandle::new]; panics unless the state is [Init] or [SynReceived]. *)
Definition stream_new (sid : Z) (es : T) (rx : R) (st : StreamState)
    (max_window_size : Z) : Res Error Stream :=
  if bool_decide (st = Init ∨ st = SynReceived) then
    Ok (mkStream sid st max_window_size INITIAL_STREAM_WINDOW INITIAL_STREAM_WINDOW []
          es rx None None [])
  else Panic.

(** [self.writeable_wake.take()] followed by [wake()], and its readable twin. *)
Definition wake_writeable {E} : M Stream E unit := modify (λ h,
  match writeable_wake h with
  | Some w => set_woken (woken h ++ [w]) (set_writeable_wake None h)
  | None => h
  end).
Definition wake_readable {E} : M Stream E unit := modify (λ h,
  match readable_wake h with
  | Some w => set_woken (woken h ++ [w]) (set_readable_wake None h)
  | None => h
  end).

(** [unbounded_send] on the stream's event sender. *)
Definition send_raw {E} (ev : StreamEvent) : M Stream E bool := λ h,
  let '(ok, es) := es_send ev (unbound_event_sender h) in
  (Ok ok, set_event_sender es h).

Definition unbound_send_event (ev : StreamEvent) : M Stream Error unit :=
  ok ← send_raw ev;
  if (ok : bool) then mret () else throw SessionShutdown.

Definition unbound_send_frame (f : Frame) : M Stream Error unit :=
  unbound_send_event (EvFrame f).

Definition get_flags {E} : M Stream E Flags :=
  st ← gets state;
  match st with
  | Init => modify (set_state SynSent);; mret (flags_from Syn)
  | SynReceived => modify (set_state Established);; mret (flags_from Ack)
  | _ => mret flags_default
  end.

(** Bytes buffered and not read yet. *)
Definition buf_len (bufs : list bytes) : Z := length (concat bufs).

Definition send_window_update : M Stream Error unit :=
  h ← get;
  let buffered := as_u32 (buf_len (read_buf h)) in
  let delta := u32_sub (u32_sub (max_recv_window h) buffered) (recv_window h) in
  fl ← get_flags;
  if (delta <? max_recv_window h `div` 2) && (flags_value fl =? 0) then mret ()
  else
    modify (λ h, set_recv_window (u32_add (recv_window h) delta) h);;
    unbound_send_event (EvFrame (new_window_update fl (id h) delta)).

Definition send_data (data : bytes) : M Stream Error unit :=
  fl ← get_flags;
  i ← gets id;
  unbound_send_frame (new_data fl i data).

Definition send_close : M Stream Error unit :=
  fl ← get_flags;
  i ← gets id;
  unbound_send_frame (new_window_update (flags_add fl Fin) i 0).

Definition close : M Stream Error unit :=
  st ← gets state;
  i ← gets id;
  match st with
  | SynSent | SynReceived | Established | Init =>
    modify (set_state LocalClosing);;
    send_close
  | RemoteClosing =>
    modify (set_state Closed);;
    send_close;;
    unbound_send_event (EvClosed i)
  | Reset | Closed =>
    modify (set_state Closed);;
    unbound_send_event (EvClosed i)
  | LocalClosing =>
    modify (set_state Closed);;
    unbound_send_event (EvClosed i)
  end.

Definition send_go_away {E} : M Stream E unit :=
  modify (set_state LocalClosing);;
  send_raw EvGoAway;;
  mret ().

Definition process_flags (fl : Flags) : M Stream Error unit :=
  st ← gets state;
  when (flags_contains fl Ack && bool_decide (st = SynSent))
    (modify (set_state Established));;
  (if flags_contains fl Fin then
     st ← gets state;
     match st with
     | Init | SynSent | SynReceived | Established => modify (set_state RemoteClosing)
     | LocalClosing => modify (set_state Closed)
     | _ => throw UnexpectedFlag
     end
   else mret ());;
  when (flags_contains fl Rst) (modify (set_state Reset)).

Definition handle_window_update (f : Frame) : M Stream Error unit :=
  process_flags (frame_flags f);;
  sw ← gets send_window;
  match u32_checked_add sw (frame_length f) with
  | None => throw InvalidMsgType
  | Some sw' =>
    modify (set_send_window sw');;
    wake_writeable
  end.

Definition handle_data (f : Frame) : M Stream Error unit :=
  process_flags (frame_flags f);;
  let len := frame_length f in
  rw_ ← gets recv_window;
  if rw_ <? len then throw RecvWindowExceeded
  else
    match body f with
    | Some data => when (0 <? len) (modify (λ h, set_read_buf (read_buf h ++ [data]) h))
    | None => mret ()
    end;;
    modify (λ h, set_recv_window (u32_sub (recv_window h) len) h).

Definition handle_frame (f : Frame) : M Stream Error unit :=
  match frame_ty f with
  | WindowUpdate => handle_window_update f
  | Data => handle_data f
  | _ => throw InvalidMsgType
  end.

(** One receive on the frame channel, with [poll_next] or [try_recv]. *)
Definition recv_one {E} (next : R → Poll (option Frame) * R) : M Stream E (Poll (option Frame)) :=
  λ h, let '(p, rx) := next (frame_receiver h) in (Ok p, set_frame_receiver rx h).

(** The loop shared by [recv_frames] ([next] is [poll_next]) and
    [try_recv_frames] ([next] is [try_recv]); [fuel] bounds the rounds. *)
Fixpoint recv_loop (next : R → Poll (option Frame) * R) (fuel : nat) (has_new_frame : bool)
    : M Stream Error bool :=
  st ← gets state;
  match st with
  | RemoteClosing => throw SubStreamRemoteClosing
  | Reset | Closed => throw SessionShutdown
  | _ =>
    term ← gets (λ h, fr_is_terminated (frame_receiver h));
    if (term : bool) then
      modify (set_state RemoteClosing);;
      throw SubStreamRemoteClosing
    else
      p ← recv_one next;
      match p with
      | Ready (Some f) =>
        handle_frame f;;
        match fuel with
        | O => mret true
        | S fuel => recv_loop next fuel true
        end
      | Ready None =>
        modify (set_state RemoteClosing);;
        throw SubStreamRemoteClosing
      | Pending => mret has_new_frame
      end
  end.

(** The loop with as much fuel as there are frames in the channel. *)
Definition recv_all (next : R → Poll (option Frame) * R) (has_new_frame : bool)
    : M Stream Error bool := λ h,
  recv_loop next (length (fr_queue (frame_receiver h))) has_new_frame h.

Definition recv_frames : M Stream Error bool := recv_all fr_poll_next false.

Definition try_recv_frames : M Stream Error bool := recv_all fr_try_recv false.

Definition recv_frames_wake : M Stream Error unit :=
  n ← gets (λ h, length (read_buf h));
  st ← gets state;
  r ← try_catch try_recv_frames;
  st' ← gets state;
  n' ← gets (λ h, length (read_buf h));
  let closing := bool_decide (st' = RemoteClosing) && bool_decide (st ≠ RemoteClosing) in
  match r with
  | Ok should_wake_read =>
    when (closing || (should_wake_read && negb (n =? n')%nat)) wake_readable
  | Err e => when closing wake_readable;; throw e
  | Panic => panic
  end.

(** [Ok true] exactly when the end of the stream is reached. *)
Definition check_self_state : M Stream io.ErrorKind bool :=
  bufs ← gets read_buf;
  match bufs with
  | [] =>
    st ← gets state;
    match st with
    | RemoteClosing | Closed => mret true
    | Reset => throw io.ConnectionReset
    | _ => mret false
    end
  | _ => mret false
  end.

(** The errors for which the stream asks its session to go away. *)
Definition is_protocol_error (r : Res Error unit) : bool :=
  match r with
  | Err (UnexpectedFlag | RecvWindowExceeded | InvalidMsgType) => true
  | _ => false
  end.
Definition forget {E A} (r : Res E A) : Res E unit :=
  match r with Ok _ => Ok () | Err e => Err e | Panic => Panic end.

(** [poll_peek]'s copy loop: [remaining] is the room left in the caller's
    buffer, the result what is copied into it. *)
Fixpoint peek_loop (remaining : nat) (bufs : list bytes) : bytes :=
  match bufs with
  | [] => []
  | b :: bufs =>
    let n := Nat.min remaining (length b) in
    if (n =? 0)%nat then [] else take n b ++ peek_loop (remaining - n) bufs
  end.

(** [poll_read]'s copy loop: what is copied, the buffers after [split_to]
    and the index of the last one emptied. *)
Fixpoint read_loop (index remaining : nat) (bufs : list bytes) (offset : option nat)
    : bytes * list bytes * option nat :=
  match bufs with
  | [] => ([], [], offset)
  | b :: rest =>
    let n := Nat.min remaining (length b) in
    if (n =? 0)%nat then ([], b :: rest, offset)
    else
      let '(copied, b') := split_at n b in
      let offset := match b' with [] => Some index | _ => offset end in
      let '(out, rest', offset) := read_loop (S index) (remaining - n) rest offset in
      (copied ++ out, b' :: rest', offset)
  end.

(** [self.read_buf.drain(..=offset)]. *)
Definition drain_to (offset : option nat) (bufs : list bytes) : list bytes :=
  match offset with Some o => drop (S o) bufs | None => bufs end.

(** The part [poll_peek] and [poll_read] share: [Ok None] when they go on to
    copy data, [Ok (Some p)] when they return [p]. *)
Definition poll_fill (w : Waker) : M Stream io.ErrorKind (option (Poll bytes)) :=
  eof ← check_self_state;
  if (eof : bool) then mret (Some (Ready [])) else
  modify (set_readable_wake (Some w));;
  r ← try_catch recv_frames;
  if is_protocol_error (forget r) then
    send_go_away;;
    throw io.InvalidData
  else
    eof ← check_self_state;
    if (eof : bool) then mret (Some (Ready [])) else
    bufs ← gets read_buf;
    match bufs with
    | [] => mret (Some Pending)
    | _ => mret None
    end.

(** [poll_peek] into a buffer with [remaining] bytes of room: the bytes
    copied, whose number the code returns. *)
Definition poll_peek (w : Waker) (remaining : nat) : M Stream io.ErrorKind (Poll bytes) :=
  early ← poll_fill w;
  match early with
  | Some p => mret p
  | None => bufs ← gets read_buf; mret (Ready (peek_loop remaining bufs))
  end.

(** [AsyncRead::poll_read] into a buffer with [remaining] bytes of room. *)
Definition poll_read (w : Waker) (remaining : nat) : M Stream io.ErrorKind (Poll bytes) :=
  early ← poll_fill w;
  match early with
  | Some p => mret p
  | None =>
    bufs ← gets read_buf;
    let '(out, bufs', offset) := read_loop 0 remaining bufs None in
    modify (set_read_buf (drain_to offset bufs'));;
    st ← gets state;
    match st with
    | RemoteClosing | Closed | Reset => mret ()
    | _ =>
      r ← try_catch send_window_update;
      match r with
      | Ok _ => mret ()
      | Err _ => throw io.BrokenPipe
      | Panic => panic
      end
    end;;
    mret (Ready out)
  end.

(** [AsyncWrite::poll_write]: the number of bytes accepted. *)
Definition poll_write (w : Waker) (buf : bytes) : M Stream io.ErrorKind (Poll nat) :=
  r ← try_catch recv_frames_wake;
  when (is_protocol_error r) send_go_away;;
  st ← gets state;
  match st with
  | Reset => throw io.BrokenPipe
  | LocalClosing | Closed => throw io.BrokenPipe
  | _ =>
    sw ← gets send_window;
    if sw =? 0 then
      modify (set_writeable_wake (Some w));;
      mret Pending
    else
      let n := Nat.min (Z.to_nat sw) (length buf) in
      r ← try_catch (send_data (take n buf));
      match r with
      | Ok _ =>
        modify (λ h, set_send_window (u32_sub (send_window h) (as_u32 n)) h);;
        mret (Ready n)
      | Err WouldBlock => mret Pending
      | _ => throw io.BrokenPipe
      end
  end.

Definition poll_flush : M Stream io.ErrorKind (Poll unit) := mret (Ready ()).

Definition poll_shutdown : M Stream io.ErrorKind (Poll unit) :=
  r ← try_catch close;
  match r with
  | Ok _ => mret (Ready ())
  | Err _ => throw io.BrokenPipe
  | Panic => panic
  end.

(** [Drop::drop]. *)
Definition drop_stream {E} : M Stream E unit :=
  h ← get;
  if negb (es_is_closed (unbound_event_sender h)) && bool_decide (state h ≠ Closed) then
    match state h with
    | LocalClosing | Reset => mret ()
    | Established | Init | RemoteClosing | SynReceived | SynSent =>
      fl ← get_flags;
      send_raw (EvFrame (new_window_update (flags_add fl Rst) (id h) 0));;
      mret ()
    | Closed => panic
    end;;
    send_raw (EvClosed (id h));;
    mret ()
  else mret ().

(** The operations a stream's owner can call; [OpInit] is the window update
    the session sends when it creates the stream. *)
Inductive StreamOp :=
| OpInit
| OpRead (w : Waker) (n : nat)
| OpPeek (w : Waker) (n : nat)
| OpWrite (w : Waker) (buf : bytes)
| OpFlush
| OpShutdown.

(** Runs one operation; the result is the data it takes out of the stream. *)
Definition run_op (op : StreamOp) : M Stream io.ErrorKind bytes :=
  match op with
  | OpInit => map_err (λ _, io.BrokenPipe) send_window_update;; mret []
  | OpRead w n =>
    p ← poll_read w n; mret (match p with Ready out => out | Pending => [] end)
  | OpPeek w n => poll_peek w n;; mret []
  | OpWrite w buf => poll_write w buf;; mret []
  | OpFlush => poll_flush;; mret []
  | OpShutdown => poll_shutdown;; mret []
  end.
End stream.

(** ** Channels as lists *)

(** A frame channel and an event channel held as lists: a model of the
    interfaces above, used to run the stream on concrete inputs. *)
Record ListReceiver := mkReceiver {
  lr_frames : list Frame;
  lr_open : bool;
  lr_terminated : bool;
}.

Definition lr_next (r : ListReceiver) : Poll (option Frame) * ListReceiver :=
  match lr_frames r with
  | f :: fs => (Ready (Some f), mkReceiver fs (lr_open r) (lr_terminated r))
  | [] => if lr_open r then (Pending, r) else (Ready None, mkReceiver [] false true)
  end.

#[global] Instance list_receiver : FrameReceiver ListReceiver := {
  fr_poll_next := lr_next;
  fr_try_recv := lr_next;
  fr_is_terminated r :=
    match lr_frames r with [] => lr_terminated r && negb (lr_open r) | _ => false end;
  fr_queue := lr_frames;
  fr_open := lr_open;
}.

#[global] Instance list_receiver_laws : FrameReceiverLaws ListReceiver.
Proof.
  assert (takes_oldest lr_next).
  { intros [[|f fs] [] t]; done. }
  split; [done..|]. intros [[|f fs] [] []]; done.
Qed.

Record ListSender := mkSender {
  ls_log : list StreamEvent;
  ls_closed : bool;
}.

#[global] Instance list_sender : EventSender ListSender := {
  es_send ev t := if ls_closed t then (false, t) else (true, mkSender (ls_log t ++ [ev]) false);
  es_is_closed := ls_closed;
  es_log := ls_log;
}.

#[global] Instance list_sender_laws : EventSenderLaws ListSender.
Proof. split; by intros [log []]. Qed.
