(* ===== verification/YamuxStreamFacts.v ===== *)
(** * Yamux streams: correctness

    Shows that the stream of [YamuxStream] keeps its flow-control invariant,
    delivers data in order and without loss, respects half-closing and wakes
    parked writers.  The reasoning is per operation ([wp] specifications), and
    then by induction over the steps a stream and its session can take. *)
From S2P Require Import Prelude YamuxFrame YamuxStream.

(** ** What received frames amount to *)

(** The stream data a frame carries, and the send credit it grants. *)
Definition frame_data (f : Frame) : bytes :=
  match frame_ty f with Data => default [] (body f) | _ => [] end.
Definition frame_credit (f : Frame) : Z :=
  match frame_ty f with WindowUpdate => frame_length f | _ => 0 end.
Definition data_of (fs : list Frame) : bytes := concat (map frame_data fs).
Definition credit_of (fs : list Frame) : Z := foldr (λ f z, frame_credit f + z) 0 fs.

(** The frames among the events a stream sends. *)
Definition frames_of (evs : list StreamEvent) : list Frame :=
  omap (λ ev, match ev with EvFrame f => Some f | _ => None end) evs.

Lemma frames_of_app evs evs' : frames_of (evs ++ evs') = frames_of evs ++ frames_of evs'.
Proof. apply omap_app. Qed.

(** A frame as the codec produces it: the announced length is the body's. *)
Definition sane_frame (f : Frame) : Prop :=
  is_u32 (frame_length f) ∧ (frame_ty f = Data → frame_length f = length (frame_data f)).

Lemma wf_frame_sane max f : wf_frame max f → sane_frame f.
Proof.
  rw /wf_frame /wf_header /sane_frame /frame_data. intros [(_ & _ & _ & ?) Hb]. split; [done|].
  intros Hty. rw Hty in Hb |- *. by destruct Hb as (b & -> & ? & _).
Qed.

Lemma data_of_app fs gs : data_of (fs ++ gs) = data_of fs ++ data_of gs.
Proof. by rw /data_of map_app concat_app. Qed.

Lemma credit_of_app fs gs : credit_of (fs ++ gs) = credit_of fs + credit_of gs.
Proof. induction fs as [|f fs IH]; simpl; [done|]. rw IH. lia. Qed.

Lemma buf_len_app b c : buf_len (b ++ c) = buf_len b + buf_len c.
Proof. rw /buf_len concat_app length_app. lia. Qed.

(** States in which the receive loop goes on. *)
Definition live (st : StreamState) : bool :=
  match st with RemoteClosing | Reset | Closed => false | _ => true end.

(** States in which [poll_write] refuses data. *)
Definition closed_for_write (st : StreamState) : bool :=
  match st with LocalClosing | Closed | Reset => true | _ => false end.

(** *** Half-closing *)

Definition has_fin (ev : StreamEvent) : bool :=
  match ev with EvFrame f => flags_contains (frame_flags f) Fin | _ => false end.
Definition has_data (ev : StreamEvent) : bool :=
  match ev with EvFrame f => bool_decide (frame_ty f = Data) | _ => false end.
Definition is_closed_event (ev : StreamEvent) : bool :=
  match ev with EvClosed _ => true | _ => false end.

(** After a frame with [Fin], neither data nor another [Fin] is sent. *)
Definition quiet_after_fin (log : list StreamEvent) : Prop :=
  ∀ l1 ev l2, log = l1 ++ ev :: l2 → has_fin ev = true →
  Forall (λ ev', has_fin ev' = false ∧ has_data ev' = false) l2.

Lemma quiet_snoc log ev :
  quiet_after_fin log →
  (existsb has_fin log = true → has_fin ev = false ∧ has_data ev = false) →
  quiet_after_fin (log ++ [ev]).
Proof.
  intros Hq Hev l1 ev' l2 Heq Hfin.
  destruct l2 as [|e l2 _] using rev_ind; [constructor|].
  rw app_comm_cons app_assoc in Heq. apply app_inj_tail in Heq as [-> <-].
  apply Forall_app. split; [by eapply Hq|]. apply Forall_singleton, Hev.
  apply existsb_exists. exists ev'. split; [|done]. apply in_or_app. right. by left.
Qed.

(** *** The copy loops *)

Lemma peek_loop_take n bufs :
  Forall (λ b, b ≠ []) bufs → peek_loop n bufs = take n (concat bufs).
Proof.
  intros Hne. revert n. induction Hne as [|b bufs Hb _ IH]; intros n; simpl; [by rw take_nil|].
  destruct (Nat.eqb_spec (Nat.min n (length b)) 0) as [H0|H0].
  - destruct b; [done|]. simpl in H0. by destruct n; [|lia].
  - rw IH take_app. f_equal; [|f_equal; lia].
    destruct (Nat.le_gt_cases n (length b)); [by rewrite -> Nat.min_l by lia|].
    rewrite -> Nat.min_r by lia. by rewrite -> !take_ge by lia.
Qed.

Lemma read_loop_full i bufs off : read_loop i 0 bufs off = ([], bufs, off).
Proof. by destruct bufs. Qed.

(** The loop empties some first chunks, at most shortens the next, and
    [offset] points at the last one emptied. *)
Lemma read_loop_spec i n bufs off :
  Forall (λ b, b ≠ []) bufs →
  ∃ bufs' k,
    read_loop i n bufs off =
      (take n (concat bufs), bufs', if (k =? 0)%nat then off else Some (i + k - 1)%nat) ∧
    concat (drop k bufs') = drop n (concat bufs) ∧ Forall (λ b, b ≠ []) (drop k bufs').
Proof.
  intros Hne. revert i n off. induction Hne as [|b bufs Hb Hbs IH]; intros i n off; simpl.
  { exists [], 0%nat. destruct n; (split_and!; [done..|constructor]). }
  destruct (Nat.eqb_spec (Nat.min n (length b)) 0) as [H0|H0].
  { assert (n = 0%nat) as -> by (destruct b; simpl in *; [done|lia]). exists (b :: bufs), 0%nat.
    split_and!; try done. by constructor. }
  rw /split_at take_app drop_app. destruct (Nat.le_gt_cases (length b) n) as [Hn|Hn].
  - rewrite -> !Nat.min_r by lia. rewrite -> !drop_ge by lia. rewrite -> !take_ge by lia.
    destruct (IH (S i) (n - length b)%nat (Some i)) as (bufs' & k & -> & Hc & Hk).
    exists ([] :: bufs'), (S k). split_and!; [|done|done].
    destruct k; simpl; do 2 f_equal; lia.
  - rewrite -> !Nat.min_l, Nat.sub_diag, read_loop_full by lia.
    replace (n - length b)%nat with 0%nat by lia.
    assert (Hd : drop n b ≠ []) by (intros Hd%(f_equal length); rw length_drop /= in Hd; lia).
    exists (drop n b :: bufs), 0%nat. split_and!; [|done|by constructor].
    by destruct (drop n b).
Qed.

Section stream_facts.
Context {R T : Type} `{!FrameReceiver R, !EventSender T}.
Context `{!FrameReceiverLaws R, !EventSenderLaws T}.
Abbreviation Stream := (StreamHandle R T).
Implicit Types h : Stream.
Abbreviation queue h := (fr_queue (frame_receiver h)).
Abbreviation sent h := (es_log (unbound_event_sender h)).

Lemma handle_frame_receiver rx f :
  preserves (λ h : Stream, frame_receiver h = rx) (handle_frame f).
Proof.
  rw /handle_frame /handle_window_update /handle_data /process_flags /wake_writeable.
  preserves; apply preserves_modify; intros h <-; try done.
  by destruct (writeable_wake h).
Qed.

(** One round of the loop in a live state. *)
Definition recv_round (next : R → Poll (option Frame) * R) (has_new : bool) : M Stream Error bool :=
  term ← gets (λ h, fr_is_terminated (frame_receiver h));
  if (term : bool) then modify (set_state RemoteClosing);; throw SubStreamRemoteClosing
  else
    p ← recv_one next;
    match p with
    | Ready (Some f) => handle_frame f;; recv_all next true
    | Ready None => modify (set_state RemoteClosing);; throw SubStreamRemoteClosing
    | Pending => mret has_new
    end.

(** [recv_loop] with enough fuel for the frames queued is the code's loop:
    one round followed by the loop itself. *)
Lemma recv_all_unfold (next : R → Poll (option Frame) * R) has_new h :
  takes_oldest next →
  recv_all next has_new h =
  (st ← gets state;
   match st with
   | RemoteClosing => throw SubStreamRemoteClosing
   | Reset | Closed => throw SessionShutdown
   | _ => recv_round next has_new
   end) h.
Proof.
  intros Hnext. rw /recv_round /recv_all. destruct (Hnext (frame_receiver h)) as [_ Hq].
  destruct (fr_queue (frame_receiver h)) as [|g q] eqn:Hh; cbn [length recv_loop];
    rw /mbind /M_bind /gets /recv_one; destruct (state h); try done;
    destruct (fr_is_terminated _); try done;
    destruct (next (frame_receiver h)) as [[[f|]|] rx] eqn:Hn; try done;
    try (by destruct Hq); simplify_eq;
    pose proof (handle_frame_receiver rx f (set_frame_receiver rx h) eq_refl) as Hrx;
    destruct (handle_frame f _) as [[[]|e|] h'] eqn:Hf; try done; simpl in Hrx; by rw Hrx.
Qed.

Lemma set_frame_receiver_id h : set_frame_receiver (frame_receiver h) h = h.
Proof. by destruct h. Qed.

(** Reasoning rule for the receive loop: [P] holds between rounds, [Q] when
    it stops with an error. *)
Lemma recv_all_rule next (P : Stream → Prop) (Q : Error → Stream → Prop) has_new h :
  takes_oldest next →
  (∀ h, P h → live (state h) = false →
    Q (if decide (state h = RemoteClosing) then SubStreamRemoteClosing else SessionShutdown) h) →
  (∀ h rx, P h → live (state h) = true → queue h = [] → fr_queue rx = [] →
    fr_open rx = fr_open (frame_receiver h) → P (set_frame_receiver rx h)) →
  (∀ h, P h → live (state h) = true → queue h = [] → fr_open (frame_receiver h) = false →
    Q SubStreamRemoteClosing (set_state RemoteClosing h)) →
  (∀ h f rx, P h → live (state h) = true → queue h = f :: fr_queue rx →
    fr_open rx = fr_open (frame_receiver h) →
    wp (handle_frame f) (post (λ _ h', P h') Q) (set_frame_receiver rx h)) →
  P h → wp (recv_all next has_new) (post (λ _ h', P h') Q) h.
Proof.
  intros Hnext Hdead Hidle Hclosed Hframe.
  remember (length (queue h)) as n eqn:Hn.
  revert h has_new Hn. induction n as [n IH] using lt_wf_ind. intros h has_new -> HP.
  eapply wp_eq; [by apply recv_all_unfold|].
  apply wp_bind, wp_gets. specialize (Hdead h HP).
  destruct (live (state h)) eqn:Hl; last first.
  { destruct (state h); try done; apply wp_throw, Hdead; done. }
  assert (wp (recv_round next has_new) (post (λ _ h', P h') Q) h); [|by destruct (state h)].
  apply wp_bind, wp_gets. destruct (fr_is_terminated _) eqn:Ht.
  { apply fr_terminated_closed in Ht as [??]. wp_steps. by apply Hclosed. }
  apply wp_bind. rw /wp /recv_one. destruct (Hnext (frame_receiver h)) as [Ho Hq].
  destruct (next (frame_receiver h)) as [[[f|]|] rx]; simpl in *.
  - apply wp_bind. specialize (Hframe h f rx HP Hl Hq Ho).
    pose proof (handle_frame_receiver rx f (set_frame_receiver rx h) eq_refl) as Hrx.
    rw /wp in Hframe |- *. destruct (handle_frame f _) as [[[]|e|] h']; simpl in *; try done.
    eapply IH; [|done|done]. rw Hrx Hq. simpl. lia.
  - destruct Hq as (? & ? & ?). wp_steps.
    apply (Hclosed (set_frame_receiver rx h)); simpl; try done; [by apply Hidle|congruence].
  - destruct Hq as (? & ?). wp_steps. by apply Hidle.
Qed.

(** *** The effect of receiving frames *)

(** [h] is [h0] after the frames [cs] have taken effect: their data is
    buffered and taken off the receive window, their credit is added to the
    send window, a parked writer is woken if the send window changed. *)
Record received (h0 : Stream) (cs : list Frame) (h : Stream) : Prop := {
  rc_id : id h = id h0;
  rc_max : max_recv_window h = max_recv_window h0;
  rc_sender : unbound_event_sender h = unbound_event_sender h0;
  rc_buf : concat (read_buf h) = concat (read_buf h0) ++ data_of cs;
  rc_chunks : Forall (λ b, b ≠ []) (read_buf h0) → Forall (λ b, b ≠ []) (read_buf h);
  rc_recv : recv_window h + length (data_of cs) = recv_window h0;
  rc_recv_pos : 0 ≤ recv_window h0 → 0 ≤ recv_window h;
  rc_send : send_window h = send_window h0 + credit_of cs;
  rc_send_u32 : is_u32 (send_window h0) → is_u32 (send_window h);
  rc_woken : woken h0 `prefix_of` woken h;
  rc_writer :
    (writeable_wake h = writeable_wake h0 ∧ send_window h = send_window h0) ∨
    (writeable_wake h = None ∧ ∀ w, writeable_wake h0 = Some w → w ∈ woken h);
}.

(** The fields [received] speaks about. *)
Definition same_windows (h h' : Stream) : Prop :=
  id h' = id h ∧ max_recv_window h' = max_recv_window h ∧
  unbound_event_sender h' = unbound_event_sender h ∧ read_buf h' = read_buf h ∧ recv_window h' = recv_window h ∧
  send_window h' = send_window h ∧ woken h' = woken h ∧ writeable_wake h' = writeable_wake h.

Lemma received_refl h h' : same_windows h h' → received h [] h'.
Proof.
  intros (? & ? & ? & Hbuf & ? & ? & Hw & ?).
  split; rw /data_of /= ?Hbuf ?Hw ?app_nil_r; try congruence; try lia; by auto.
Qed.

Lemma received_trans h0 cs h1 ds h2 :
  received h0 cs h1 → received h1 ds h2 → received h0 (cs ++ ds) h2.
Proof.
  intros [] []. split; try congruence; auto.
  - rw data_of_app app_assoc. congruence.
  - rw data_of_app length_app. lia.
  - rw credit_of_app. lia.
  - by etrans.
  - destruct rc_writer0 as [[??]|[? Hw]], rc_writer1 as [[??]|[? Hw']].
    + left. split; congruence.
    + right. split; [done|]. intros w Hh. apply Hw'. congruence.
    + right. split; [congruence|]. intros w Hh. eapply elem_of_prefix; [by apply Hw|done].
    + right. split; [done|]. intros w Hh. eapply elem_of_prefix; [by apply Hw|done].
Qed.

Lemma received_same h0 cs h h' : received h0 cs h → same_windows h h' → received h0 cs h'.
Proof.
  intros ??. rw -(app_nil_r cs). eapply received_trans; [done|by apply received_refl].
Qed.

(** In a live state [process_flags] only moves the state, keeps a local close
    and never fails. *)
Lemma process_flags_spec fl h :
  live (state h) = true →
  wp (process_flags fl) (post (λ _ h', ∃ st, h' = set_state st h ∧
    (closed_for_write (state h) = true → closed_for_write st = true)) (λ _ _, False)) h.
Proof.
  intros Hl. rw /process_flags /wp /mbind /M_bind /when /gets /modify.
  assert (h = set_state (state h) h) as Heq by by destruct h.
  destruct (state h) eqn:Hst; try done;
    destruct (flags_contains fl Ack), (flags_contains fl Fin), (flags_contains fl Rst);
    simpl; rw ?Hst /=; try (eexists; split; done); exists (state h); by rw Hst.
Qed.

Lemma wp_process_flags fl h Q :
  live (state h) = true →
  (∀ st, (closed_for_write (state h) = true → closed_for_write st = true) →
    Q (Ok ()) (set_state st h)) →
  wp (process_flags fl) Q h.
Proof.
  intros Hl HQ. wp_apply process_flags_spec; [done|].
  intros [[]|e|] h' Hp; [|done..]. destruct Hp as (st & -> & ?). auto.
Qed.

Definition protocol_error (e : Error) : Prop := e = RecvWindowExceeded ∨ e = InvalidMsgType.

Lemma handle_window_update_spec f h :
  frame_ty f = WindowUpdate → is_u32 (frame_length f) → is_u32 (send_window h) →
  live (state h) = true →
  wp (handle_window_update f) (post (λ _ h', received h [f] h')
    (λ e h', protocol_error e ∧ received h [] h')) h.
Proof.
  intros Hty Hlen Hs Hl. rw /handle_window_update. unfold_int.
  apply wp_bind, wp_process_flags; [done|]. intros st _. wp_steps; simpl in *.
  - apply u32_checked_add_Some in Heqo as [-> ?]. unfold_int.
    rw /wake_writeable. apply wp_modify. simpl.
    destruct (writeable_wake h) as [w|] eqn:Hw;
      split; rw /data_of /= /frame_data /frame_credit ?Hty /= ?app_nil_r; unfold_int; try done; try lia.
    + by apply prefix_app_r.
    + right. split; [done|]. intros w'. rw Hw. intros [= <-]. apply elem_of_app. right. by left.
    + right. split; [done|]. intros w'. congruence.
  - split; [by right|]. by apply received_refl; split_and!.
Qed.

Lemma handle_data_spec f h :
  frame_ty f = Data → sane_frame f → is_u32 (recv_window h) → live (state h) = true →
  wp (handle_data f) (post (λ _ h', received h [f] h')
    (λ e h', protocol_error e ∧ received h [] h')) h.
Proof.
  intros Hty [Hlen Hdata] Hr Hl. rw /handle_data. specialize (Hdata Hty).
  apply wp_bind, wp_process_flags; [done|]. intros st _. apply wp_bind, wp_gets. simpl.
  destruct (Z.ltb_spec (recv_window h) (frame_length f)) as [|Hle].
  { apply wp_throw. split; [by left|]. by apply received_refl; split_and!. }
  rw /frame_data Hty in Hdata.
  assert (Hdone : ∀ bufs, concat bufs = default [] (body f) → Forall (λ b, b ≠ []) bufs →
    received h [f] (set_recv_window (u32_sub (recv_window h) (frame_length f))
      (set_read_buf (read_buf h ++ bufs) (set_state st h)))).
  { intros bufs Hbufs Hne. rewrite -> u32_sub_small by (unfold_int; lia).
    split; rw /data_of /= /frame_data /frame_credit ?Hty /= ?app_nil_r ?concat_app; unfold_int; try lia; try done.
    - by rw Hbufs.
    - intros ?. by apply Forall_app.
    - by left. }
  assert (Hnil : set_read_buf (read_buf h ++ []) (set_state st h) = set_state st h).
  { by rw app_nil_r /set_read_buf. }
  destruct (body f) as [data|]; wp_steps; simpl in *.
  - apply (Hdone [data]); rw /= ?app_nil_r //. constructor; [|done]. intros ->.
    apply Z.ltb_lt in H. simpl in *. lia.
  - apply Z.ltb_ge in H. rw -Hnil. apply Hdone; [|done]. destruct data; simpl in *; [done|lia].
  - rw -Hnil. by apply Hdone.
Qed.

Lemma handle_frame_spec f h :
  sane_frame f → is_u32 (recv_window h) → is_u32 (send_window h) → live (state h) = true →
  wp (handle_frame f) (post (λ _ h', received h [f] h')
    (λ e h', protocol_error e ∧ received h [] h')) h.
Proof.
  intros Hf Hr Hs Hl. rw /handle_frame.
  destruct (frame_ty f) eqn:Hty.
  - by apply handle_data_spec.
  - destruct Hf. by apply handle_window_update_spec.
  - apply wp_throw. split; [by right|]. by apply received_refl.
  - apply wp_throw. split; [by right|]. by apply received_refl.
Qed.

(** Frames were taken off the channel in order; all of them took effect,
    except for one that made the code report a protocol error. *)
Definition recv_post {A} (h0 : Stream) : Res Error A → Stream → Prop := λ r h,
  ∃ cs bad, queue h0 = cs ++ option_list bad ++ queue h ∧ received h0 cs h ∧
    match r with
    | Ok _ => bad = None
    | Err e => protocol_error e ∨ bad = None ∧ (e = SubStreamRemoteClosing ∨ e = SessionShutdown)
    | Panic => False
    end.

(** The invariant of a stream: the bytes buffered and the receive window
    left together fit the maximal window, all counters are [u32]s, no empty
    chunk is buffered, and a writer is parked only on an exhausted window. *)
Record wf_stream (h : Stream) : Prop := {
  wf_max : is_u32 (max_recv_window h);
  wf_recv : 0 ≤ recv_window h;
  wf_send : is_u32 (send_window h);
  wf_window : recv_window h + buf_len (read_buf h) ≤ max_recv_window h;
  wf_chunks : Forall (λ b, b ≠ []) (read_buf h);
  wf_queue : Forall sane_frame (queue h);
  wf_parked : writeable_wake h ≠ None → send_window h = 0;
}.

Lemma wf_recv_u32 h : wf_stream h → is_u32 (recv_window h).
Proof. intros []. rw /buf_len in wf_window0. unfold_int. lia. Qed.

Lemma received_wf h0 cs h :
  wf_stream h0 → received h0 cs h → Forall sane_frame (queue h) → wf_stream h.
Proof.
  intros [] [] ?. split; try congruence; auto.
  - rw rc_max0 /buf_len rc_buf0 length_app. rw /buf_len in wf_window0. lia.
  - destruct rc_writer0 as [[-> ->]|[-> _]]; [done|by intros ?].
Qed.

Lemma recv_all_spec next has_new h0 :
  takes_oldest next → wf_stream h0 → wp (recv_all next has_new) (recv_post h0) h0.
Proof.
  intros Hnext Hwf.
  set (P := λ h, ∃ cs, queue h0 = cs ++ queue h ∧ received h0 cs h).
  set (Q := λ e h, recv_post (A:=bool) h0 (Err e) h).
  assert (HPQ : ∀ h e, P h → e = SubStreamRemoteClosing ∨ e = SessionShutdown → Q e h).
  { intros h e (cs & Hq & Hr) He. exists cs, None. auto. }
  assert (HPf : ∀ h f rx, P h → live (state h) = true → queue h = f :: fr_queue rx →
    wp (handle_frame f) (post (λ _ h', P h') Q) (set_frame_receiver rx h)).
  { intros h f rx (cs & Hq & Hr) Hl Hqh. rw Hqh in Hq.
    assert (Forall sane_frame (f :: fr_queue rx)) as [Hf Hrx]%Forall_cons.
    { destruct Hwf. rw Hq in wf_queue0. by apply Forall_app in wf_queue0 as [_ ?]. }
    assert (Hr' : received h0 cs (set_frame_receiver rx h)).
    { eapply received_same; [done|by split_and!]. }
    pose proof (received_wf _ _ _ Hwf Hr' Hrx) as Hwf'.
    eapply wp_mono; [apply (wp_frame (λ h, frame_receiver h = rx))|].
    - apply handle_frame_receiver.
    - done.
    - apply handle_frame_spec; [done|by apply wf_recv_u32|by apply wf_send|done].
    - intros [[]|e|] h' [Hh Hrx']; [| |done].
      + exists (cs ++ [f]). rw Hrx' -app_assoc. split; [done|by eapply received_trans].
      + destruct Hh as [He Hh]. exists cs, (Some f). rw Hrx'. split_and!; [done| |by left].
        rw -(app_nil_r cs). by eapply received_trans. }
  eapply wp_mono; [apply (recv_all_rule next P Q)|]; try done; [..|by eauto| |].
  - intros h HP Hl. apply HPQ; [done|]. case_decide; auto.
  - intros h rx (cs & Hq & Hr) Hl Hqh Hrx _. exists cs. simpl. split; [congruence|].
    eapply received_same; [done|by split_and!].
  - intros h (cs & Hq & Hr) Hl _ _. apply HPQ; [|by left]. exists cs. split; [done|].
    eapply received_same; [done|by split_and!].
  - exists []. split; [done|by apply received_refl].
  - intros [b|e|] h Hpost; [|done..]. destruct Hpost as (cs & ? & ?). by exists cs, None.
Qed.

(** *** Sending *)

(** The events accepted when [ev] is sent. *)
Definition log_after (ev : StreamEvent) h : list StreamEvent :=
  if es_is_closed (unbound_event_sender h) then sent h else sent h ++ [ev].

Lemma wp_send_raw {E} ev h (Q : Res E bool → Stream → Prop) :
  (∀ es, es_log es = log_after ev h → es_is_closed es = es_is_closed (unbound_event_sender h) →
    Q (Ok (negb (es_is_closed es))) (set_event_sender es h)) →
  wp (send_raw ev) Q h.
Proof.
  intros HQ. rw /wp /send_raw.
  pose proof (es_send_closed (unbound_event_sender h) ev) as Hc.
  pose proof (es_send_log (unbound_event_sender h) ev) as Hlog.
  pose proof (es_send_is_closed (unbound_event_sender h) ev) as Hc'.
  destruct (es_send ev _) as [ok es]; simpl in *. subst ok. rw -Hc'.
  apply HQ; [|done]. rw Hlog /log_after. by destruct (es_is_closed _).
Qed.

Lemma wp_unbound_send_event ev h (Q : Res Error unit → Stream → Prop) :
  (∀ es, es_log es = log_after ev h → es_is_closed es = es_is_closed (unbound_event_sender h) →
    Q (if es_is_closed es then Err SessionShutdown else Ok ()) (set_event_sender es h)) →
  wp (unbound_send_event ev) Q h.
Proof.
  intros HQ. rw /unbound_send_event. apply wp_bind, wp_send_raw. intros es ? ?.
  specialize (HQ es). destruct (es_is_closed es); simpl; wp_steps; auto.
Qed.

(** The state and flags after [get_flags]. *)
Definition flags_of (st : StreamState) : Flags :=
  match st with Init => flags_from Syn | SynReceived => flags_from Ack | _ => flags_default end.
Definition flagged (st : StreamState) : StreamState :=
  match st with Init => SynSent | SynReceived => Established | _ => st end.

Lemma wp_get_flags {E} h (Q : Res E Flags → Stream → Prop) :
  Q (Ok (flags_of (state h))) (set_state (flagged (state h)) h) → wp get_flags Q h.
Proof.
  intros HQ. rw /get_flags. apply wp_bind, wp_gets.
  assert (h = set_state (state h) h) as Heq by by destruct h.
  destruct (state h) eqn:Hst; wp_steps; try done; by rw Heq.
Qed.

Definition window_delta h : Z := max_recv_window h - buf_len (read_buf h) - recv_window h.

(** [send_window_update] either omits a small update or announces exactly the
    window freed; none of its subtractions and additions wraps. *)
Lemma wp_send_window_update h (Q : Res Error unit → Stream → Prop) :
  wf_stream h →
  let fl := flags_of (state h) in
  let h1 := set_state (flagged (state h)) h in
  (window_delta h < max_recv_window h `div` 2 → fl = 0 → Q (Ok ()) h1) →
  (max_recv_window h `div` 2 ≤ window_delta h ∨ fl ≠ 0 → ∀ es,
    es_log es = log_after (EvFrame (new_window_update fl (id h) (window_delta h))) h →
    es_is_closed es = es_is_closed (unbound_event_sender h) →
    Q (if es_is_closed es then Err SessionShutdown else Ok ())
      (set_event_sender es (set_recv_window (recv_window h + window_delta h) h1))) →
  wp send_window_update Q h.
Proof.
  intros Hwf fl h1 Hskip Hsend. pose proof (wf_recv_u32 _ Hwf).
  destruct Hwf. rw /send_window_update. apply wp_bind, wp_get, wp_bind, wp_get_flags.
  assert (0 ≤ buf_len (read_buf h)) by (rw /buf_len; lia).
  rw as_u32_small; [|unfold_int; lia].
  rewrite -> (u32_sub_small (max_recv_window h)) by (unfold_int; lia).
  rewrite -> u32_sub_small by (unfold_int; lia).
  fold (window_delta h). fold fl. rw /flags_value.
  destruct (Z.ltb_spec (window_delta h) (max_recv_window h `div` 2)), (Z.eqb_spec fl 0);
    simpl; [by apply wp_ret, Hskip|..];
    apply wp_bind, wp_modify, wp_unbound_send_event; intros es Hes Hc; simpl;
    (rewrite -> u32_add_small by (rw /window_delta; unfold_int; lia));
    apply Hsend; auto.
Qed.

Lemma send_window_update_wf : preserves wf_stream send_window_update.
Proof.
  intros h Hwf. change (wp send_window_update (λ _ h', wf_stream h') h).
  assert (0 ≤ buf_len (read_buf h)) by (rw /buf_len; lia).
  apply wp_send_window_update; [done| |]; intros; destruct Hwf; split; simpl; try done;
    rw /window_delta; lia.
Qed.

(** *** Reading *)

Definition eof_state (st : StreamState) : Prop := st = RemoteClosing ∨ st = Closed.

Lemma wp_check_self_state h (Q : Res io.ErrorKind bool → Stream → Prop) :
  (read_buf h = [] → state h = Reset → Q (Err io.ConnectionReset) h) →
  (read_buf h = [] → eof_state (state h) → Q (Ok true) h) →
  (read_buf h ≠ [] ∨ live (state h) = true → Q (Ok false) h) →
  wp check_self_state Q h.
Proof.
  intros Hr He Hn. rw /check_self_state. rw /eof_state in He. apply wp_bind, wp_gets.
  destruct (read_buf h) eqn:Hb; [|by apply wp_ret, Hn; left].
  apply wp_bind, wp_gets. destruct (state h) eqn:Hst; wp_steps; auto.
Qed.

Lemma recv_post_wf {A} h0 (r : Res Error A) h : wf_stream h0 → recv_post h0 r h → wf_stream h.
Proof.
  intros Hwf (cs & bad & Hq & Hr & _). eapply received_wf; [done..|].
  destruct Hwf. rw Hq in wf_queue0. by apply Forall_app in wf_queue0 as [_ [_ ?]%Forall_app].
Qed.

Lemma recv_post_no_error {A} h0 (r : Res Error A) h :
  recv_post h0 r h → is_protocol_error (forget r) = false →
  ∃ cs, queue h0 = cs ++ queue h ∧ received h0 cs h.
Proof.
  intros (cs & bad & Hq & Hr & Hres) He. exists cs. split; [|done].
  assert (bad = None) as ->; [|done].
  destruct r as [|e|]; [done| |done]. destruct Hres as [[->| ->]|[-> _]]; done.
Qed.

Lemma same_windows_wf h h' :
  wf_stream h → same_windows h h' → frame_receiver h' = frame_receiver h → wf_stream h'.
Proof.
  intros Hwf Hs Hrx. eapply received_wf; [done|by apply received_refl|].
  rw Hrx. apply Hwf.
Qed.

(** Changing only the event sender and the state keeps the invariant. *)
Lemma wf_set_sender_state es st h : wf_stream h → wf_stream (set_event_sender es (set_state st h)).
Proof. by intros []. Qed.

(** *** Accounting *)

(** From [h0] to [h] the frames [cs] took effect and the events [new] were
    sent: data received is paid from the receive window, which grows by what
    is announced to the peer; data sent is paid from the send window, which
    grows by the credit received. *)
Record acct (h0 : Stream) (cs : list Frame) (new : list StreamEvent) (h : Stream) : Prop := {
  ac_id : id h = id h0;
  ac_max : max_recv_window h = max_recv_window h0;
  ac_sent : sent h = sent h0 ++ new;
  ac_closed : es_is_closed (unbound_event_sender h) = es_is_closed (unbound_event_sender h0);
  ac_recv : es_is_closed (unbound_event_sender h0) = false →
    recv_window h + length (data_of cs) = recv_window h0 + credit_of (frames_of new);
  ac_send : send_window h + length (data_of (frames_of new)) = send_window h0 + credit_of cs;
}.

Lemma acct_trans h0 cs new h1 cs' new' h2 :
  acct h0 cs new h1 → acct h1 cs' new' h2 → acct h0 (cs ++ cs') (new ++ new') h2.
Proof.
  intros [] []. split; rw ?frames_of_app ?data_of_app ?length_app ?credit_of_app; try congruence.
  - rw app_assoc. congruence.
  - intros Ho. rw ac_closed0 in ac_recv1. specialize (ac_recv0 Ho). specialize (ac_recv1 Ho). lia.
  - lia.
Qed.

Lemma received_acct h0 cs h : received h0 cs h → acct h0 cs [] h.
Proof.
  intros []. split; rw ?app_nil_r ?rc_sender0 //=; intros; rw /data_of /= in rc_recv0 |- *; lia.
Qed.

Lemma acct_refl h h' : same_windows h h' → acct h [] [] h'.
Proof. intros. by apply received_acct, received_refl. Qed.

(** An event without stream data or credit. *)
Lemma acct_send ev h es st :
  es_log es = log_after ev h → es_is_closed es = es_is_closed (unbound_event_sender h) →
  data_of (frames_of [ev]) = [] → credit_of (frames_of [ev]) = 0 →
  ∃ new, acct h [] new (set_event_sender es (set_state st h)) ∧ data_of (frames_of new) = [] ∧
    (es_is_closed es = false → new = [ev]).
Proof.
  rw /log_after. intros Hlog Hc Hd Hcr. destruct (es_is_closed (unbound_event_sender h)) eqn:Ho.
  - exists []. split_and!; [|done|congruence]. split; rw /= ?app_nil_r //. intros. congruence.
  - exists [ev]. split_and!; [|done|done]. split; rw ?Hd ?Hcr //=; by rw Ho.
Qed.

(** Unless the session is gone, it is told to go away. *)
Definition went_away (h : Stream) (new : list StreamEvent) : Prop :=
  es_is_closed (unbound_event_sender h) = false → EvGoAway ∈ new.

(** The invariant holds afterwards, and what happened in between is accounted
    for: [cs] took effect, [bad] was rejected, [new] was sent. *)
Definition accounted (h0 h : Stream) (Φ : list Frame → option Frame → list StreamEvent → Prop) : Prop :=
  wf_stream h ∧ ∃ cs bad new, queue h0 = cs ++ option_list bad ++ queue h ∧ acct h0 cs new h ∧ Φ cs bad new.

(** What the receive part of a poll guarantees: frames taken in order, their
    data appended to what was buffered. *)
Definition fill_post (h0 : Stream) : Res io.ErrorKind (option (Poll bytes)) → Stream → Prop := λ r h,
  accounted h0 h (λ cs bad new,
    match r with
    | Ok early =>
      bad = None ∧ received h0 cs h ∧
      match early with
      | None => read_buf h ≠ []
      | Some Pending => read_buf h = [] ∧ live (state h) = true
      | Some (Ready bs) => bs = [] ∧ read_buf h = [] ∧ eof_state (state h)
      end
    | Err e => e = io.ConnectionReset ∧ bad = None ∧ read_buf h = [] ∧ state h = Reset ∨
               e = io.InvalidData ∧ went_away h new ∧ state h = LocalClosing
    | Panic => False
    end).

Lemma accounted_received h0 cs h (Φ : list Frame → option Frame → list StreamEvent → Prop) :
  wf_stream h → queue h0 = cs ++ queue h → received h0 cs h → Φ cs None [] → accounted h0 h Φ.
Proof. intros. split; [done|]. exists cs, None, []. split_and!; [done|by apply received_acct|done]. Qed.

Lemma poll_fill_spec w h0 : wf_stream h0 → wp (poll_fill w) (fill_post h0) h0.
Proof.
  intros Hwf. rw /poll_fill.
  assert (Hnow : ∀ Φ, Φ [] None [] → accounted h0 h0 Φ).
  { intros. by apply (accounted_received _ []); [..|apply received_refl|]. }
  apply wp_bind, wp_check_self_state.
  { intros. apply Hnow. by left. }
  { intros. apply wp_ret, Hnow. split_and!; try done. by apply received_refl. }
  intros _. apply wp_bind, wp_modify, wp_bind, wp_try_ok. clear Hnow.
  set (h1 := set_readable_wake (Some w) h0).
  assert (Hwf1 : wf_stream h1) by (by eapply same_windows_wf).
  eapply wp_mono; [by apply recv_all_spec, Hwf1; apply fr_poll_next_fifo|].
  intros r h Hpost. pose proof (recv_post_wf _ _ _ Hwf1 Hpost) as Hwf'.
  split; [intros ->; by destruct Hpost as (? & ? & ? & ? & ?)|].
  assert (Hrc0 : ∀ cs, received h1 cs h → received h0 cs h).
  { intros. by apply (received_trans h0 [] h1); [apply received_refl|]. }
  destruct (is_protocol_error (forget r)) eqn:He.
  { rw /send_go_away. apply wp_bind, wp_bind, wp_modify, wp_bind, wp_send_raw. intros es Hes Hc.
    wp_steps. split; [by apply wf_set_sender_state|].
    destruct Hpost as (cs & bad & Hq & Hrc & _).
    destruct (acct_send EvGoAway h es LocalClosing) as (new & Hac & _ & Hnew); [done..|].
    exists cs, bad, new. split_and!; [done| |right; split_and!; [done| |done]];
      [|intros Ho; rw Hnew //; by left].
    rw -(app_nil_r cs). eapply (acct_trans _ _ []); [|done]. by apply received_acct, Hrc0. }
  apply recv_post_no_error in Hpost as (cs & Hq & Hrc%Hrc0); [|done].
  apply wp_bind, wp_check_self_state.
  - intros. eapply accounted_received; [done..|]. by left.
  - intros. apply wp_ret. by eapply accounted_received.
  - intros Hn. apply wp_bind, wp_gets. destruct (read_buf h) eqn:Hb; apply wp_ret;
      (eapply accounted_received; [done..|]); split_and!; rw ?Hb //. by destruct Hn.
Qed.

Lemma send_window_update_spec h :
  wf_stream h →
  wp send_window_update (λ r h', wf_stream h' ∧ r ≠ Panic ∧ read_buf h' = read_buf h ∧
    ∃ new, acct h [] new h' ∧ queue h' = queue h) h.
Proof.
  intros Hwf. eapply wp_mono; [apply (wp_frame wf_stream); [apply send_window_update_wf|done|]|].
  { apply (wp_send_window_update h (λ r h', r ≠ Panic ∧ read_buf h' = read_buf h ∧
      ∃ new, acct h [] new h' ∧ queue h' = queue h)); [done| |].
    - intros. split_and!; [done..|]. exists []. split; [by apply acct_refl|done].
    - intros _ es Hlog Hc. split_and!; [by destruct (es_is_closed es)|done|].
      rw /log_after in Hlog. destruct (es_is_closed (unbound_event_sender h)) eqn:Ho.
      + exists []. split; [|done]. split; rw /= ?app_nil_r //; rw ?Ho //.
      + eexists [_]. split; [|done]. split; [done|done|exact Hlog|by rw Ho|..]; intros; cbn; lia. }
  intros r h' [(? & ? & ?) ?]. eauto.
Qed.

(** The bytes of [out] come first in what was buffered and received. *)
Definition read_result (h0 : Stream) (n : nat) (p : Poll bytes) (h : Stream) (cs : list Frame) : Prop :=
  match p with
  | Ready out =>
    out ++ concat (read_buf h) = concat (read_buf h0) ++ data_of cs ∧ (length out ≤ n)%nat ∧
    (out = [] → n = 0%nat ∨ read_buf h = [] ∧ eof_state (state h))
  | Pending => concat (read_buf h0) ++ data_of cs = [] ∧ read_buf h = [] ∧ live (state h) = true
  end.

Definition read_post (h0 : Stream) (n : nat) : Res io.ErrorKind (Poll bytes) → Stream → Prop := λ r h,
  accounted h0 h (λ cs bad new,
    match r with
    | Ok p => bad = None ∧ read_result h0 n p h cs
    | Err e => e ∈ [io.ConnectionReset; io.InvalidData; io.BrokenPipe] ∧
               (bad = None ∨ e = io.InvalidData ∧ went_away h new)
    | Panic => False
    end).

Lemma fill_early_result h0 h cs n p :
  received h0 cs h →
  match p with
  | Pending => read_buf h = [] ∧ live (state h) = true
  | Ready bs => bs = [] ∧ read_buf h = [] ∧ eof_state (state h)
  end → read_result h0 n p h cs.
Proof.
  intros [] Hp. destruct p as [bs|]; simpl.
  - destruct Hp as (-> & ? & ?). rw rc_buf0. split_and!; [done|simpl; lia|by right].
  - destruct Hp as [Hb ?]. by rw -rc_buf0 Hb.
Qed.

(** The state after the copy loop and [drain]. *)
Lemma read_rest n h (Hwf : wf_stream h) :
  ∃ rest, (let '(out, bufs', offset) := read_loop 0 n (read_buf h) None in
           (out, drain_to offset bufs')) = (take n (concat (read_buf h)), rest) ∧
    concat rest = drop n (concat (read_buf h)) ∧ wf_stream (set_read_buf rest h).
Proof.
  destruct (read_loop_spec 0 n (read_buf h) None (wf_chunks _ Hwf)) as (bufs' & k & Hl & Hc & Hne).
  rw Hl. exists (drop k bufs'). split_and!; [|done|].
  - f_equal. destruct k as [|k]; [done|]. simpl. do 2 f_equal. lia.
  - destruct Hwf. split; simpl; try done.
    rw /buf_len Hc length_drop. rw /buf_len in wf_window0. lia.
Qed.

Lemma read_result_take h0 cs h n rest h2 :
  wf_stream h → received h0 cs h → read_buf h ≠ [] →
  concat rest = drop n (concat (read_buf h)) → read_buf h2 = rest →
  read_result h0 n (Ready (take n (concat (read_buf h)))) h2 cs.
Proof.
  intros Hwf Hrc Hne Hc Hb2. rw /read_result. split_and!.
  - by rw Hb2 Hc take_drop (rc_buf _ _ _ Hrc).
  - rw length_take. lia.
  - intros Ht. left. destruct (read_buf h) as [|b bufs] eqn:Hb; [done|].
    pose proof (wf_chunks _ Hwf) as Hch. rw Hb in Hch. apply Forall_cons in Hch as [Hb' _].
    apply (f_equal length) in Ht. rw length_take /= length_app in Ht.
    assert (0 < length b)%nat by (destruct b; simpl; [done|lia]). cbn [length] in Ht. lia.
Qed.

Lemma poll_read_spec w n h0 : wf_stream h0 → wp (poll_read w n) (read_post h0 n) h0.
Proof.
  intros Hwf. rw /poll_read. apply wp_bind. eapply wp_mono; [by apply poll_fill_spec|].
  intros [early|e|] h (Hwf' & cs & bad & new & Hq & Hac & Hr); [| |done]; last first.
  { split; [done|]. exists cs, bad, new. split_and!; [done|done|..].
    - destruct Hr as [[-> _]|[-> _]]; [by left|by right; left].
    - destruct Hr as [(_ & ? & _)|(? & ? & _)]; auto. }
  destruct Hr as (-> & Hrc & Hearly). destruct early as [p|].
  { apply wp_ret. split; [done|]. exists cs, None, new. split_and!; [done..|].
    apply fill_early_result; [done|by destruct p]. }
  apply wp_bind, wp_gets. destruct (read_rest n h Hwf') as (rest & Hrest & Hc & Hwfr).
  destruct (read_loop 0 n (read_buf h) None) as [[out bufs'] offset]. simplify_eq.
  apply wp_bind, wp_modify. set (h1 := set_read_buf (drain_to offset bufs') h).
  assert (Hfinal : ∀ h2 new' e, acct h1 [] new' h2 → wf_stream h2 → read_buf h2 = read_buf h1 →
    queue h2 = queue h1 → e ∈ [Ok (Ready (take n (concat (read_buf h)))); Err io.BrokenPipe] →
    read_post h0 n e h2).
  { intros h2 new' e Hac' ? Hb2 Hq2 He. split; [done|]. exists cs, None, (new ++ new').
    split_and!; [by rw Hq2| |].
    - rw -(app_nil_r cs). eapply acct_trans; [done|]. by destruct Hac'; split.
    - apply elem_of_cons in He as [->|He%list_elem_of_singleton];
        [|subst; split; [by set_solver|by left]].
      split; [done|]. by eapply read_result_take. }
  apply wp_bind, wp_gets, wp_bind.
  destruct (live (state h1)) eqn:Hl; last first.
  { destruct (state h1) eqn:Hst; try done; wp_steps;
      (eapply (Hfinal h1 []); [by apply acct_refl|done..|by left]). }
  assert (Hupd : wp (try_catch send_window_update : M Stream io.ErrorKind _)
    (λ r h2, ∃ r', r = Ok r' ∧ r' ≠ Panic ∧ ∀ e, e ∈ [Ok (Ready (take n (concat (read_buf h)))); Err io.BrokenPipe] →
      read_post h0 n e h2) h1).
  { apply wp_try_ok. eapply wp_mono; [by apply send_window_update_spec|].
    intros r h2 (? & ? & ? & new' & ? & ?). split; [done|]. exists r. split_and!; [done..|].
    intros e He. by eapply Hfinal. }
  destruct (state h1); try done; apply wp_bind; (eapply wp_mono; [exact Hupd|]);
    intros ? h2 (r' & -> & ? & Hpost); destruct r'; try done; wp_steps; apply Hpost; set_solver.
Qed.

(** *** Writing *)

Lemma received_wake_readable h0 cs h Q :
  received h0 cs h →
  (∀ h', received h0 cs h' → queue h' = queue h → state h' = state h → Q (Ok ()) h') →
  wp (wake_readable : M Stream Error unit) Q h.
Proof.
  intros Hr HQ. rw /wake_readable. apply wp_modify.
  destruct (readable_wake h); [|by apply HQ]. apply HQ; [|done..].
  destruct Hr; split; simpl; try done.
  - etrans; [done|]. by apply prefix_app_r.
  - destruct rc_writer0 as [|[? Hw]]; [by left|right]. split; [done|].
    intros w Hh. apply elem_of_app. left. by apply Hw.
Qed.

Lemma recv_frames_wake_spec h0 :
  wf_stream h0 → wp recv_frames_wake (recv_post h0) h0.
Proof.
  intros Hwf. rw /recv_frames_wake. apply wp_bind, wp_gets, wp_bind, wp_gets, wp_bind, wp_try_ok.
  eapply wp_mono; [by apply recv_all_spec; [apply fr_try_recv_fifo|]|].
  intros r h (cs & bad & Hq & Hr & Hres). split; [by intros ->|].
  apply wp_bind, wp_gets, wp_bind, wp_gets.
  assert (Hw : ∀ b (Q : Res Error unit → Stream → Prop),
    (∀ h', received h0 cs h' → queue h' = queue h → Q (Ok ()) h') → wp (when b wake_readable) Q h).
  { intros [] Q HQ; [|by apply HQ]. eapply received_wake_readable; [done|]. intros. by apply HQ. }
  destruct r as [b|e|]; [| |done].
  - apply Hw. intros h' ? Hq'. exists cs, bad. by rw Hq'.
  - apply wp_bind, Hw. intros h' ? Hq'. apply wp_throw. exists cs, bad. by rw Hq'.
Qed.

Definition write_post (h0 : Stream) (w : Waker) (buf : bytes) : Res io.ErrorKind (Poll nat) → Stream → Prop :=
  λ r h, accounted h0 h (λ cs bad new,
    let window := send_window h0 + credit_of cs in
    match r with
    | Ok (Ready k) =>
      bad = None ∧ concat (read_buf h) = concat (read_buf h0) ++ data_of cs ∧
      0 < window ∧ k = Nat.min (Z.to_nat window) (length buf) ∧
      data_of (frames_of new) = take k buf ∧ closed_for_write (state h) = false
    | Ok Pending =>
      bad = None ∧ concat (read_buf h) = concat (read_buf h0) ++ data_of cs ∧
      send_window h = 0 ∧ writeable_wake h = Some w ∧
      data_of (frames_of new) = [] ∧ closed_for_write (state h) = false
    | Err e =>
      e = io.BrokenPipe ∧ data_of (frames_of new) = [] ∧
      (closed_for_write (state h) = true ∨ es_is_closed (unbound_event_sender h) = true) ∧
      (bad = None ∨ went_away h new)
    | Panic => False
    end).

Lemma wp_send_data data h (Q : Res Error unit → Stream → Prop) :
  (∀ es, es_log es = log_after (EvFrame (new_data (flags_of (state h)) (id h) data)) h →
    es_is_closed es = es_is_closed (unbound_event_sender h) →
    Q (if es_is_closed es then Err SessionShutdown else Ok ())
      (set_event_sender es (set_state (flagged (state h)) h))) →
  wp (send_data data) Q h.
Proof.
  intros HQ. rw /send_data /unbound_send_frame.
  by apply wp_bind, wp_get_flags, wp_bind, wp_gets, wp_unbound_send_event.
Qed.

Lemma flagged_closed st : closed_for_write (flagged st) = closed_for_write st.
Proof. by destruct st. Qed.

(** The writing part of [poll_write], on a stream still open for writing. *)
Definition write_out (w : Waker) (buf : bytes) : M Stream io.ErrorKind (Poll nat) :=
  sw ← gets send_window;
  if sw =? 0 then modify (set_writeable_wake (Some w));; mret Pending
  else
    let n := Nat.min (Z.to_nat sw) (length buf) in
    r ← try_catch (send_data (take n buf));
    match r with
    | Ok _ => modify (λ h, set_send_window (u32_sub (send_window h) (as_u32 n)) h);; mret (Ready n)
    | Err WouldBlock => mret Pending
    | _ => throw io.BrokenPipe
    end.

Lemma poll_write_unfold w buf h :
  poll_write w buf h =
  (r ← try_catch recv_frames_wake;
   when (is_protocol_error r) send_go_away;;
   st ← gets state;
   if closed_for_write st then throw io.BrokenPipe else write_out w buf) h.
Proof.
  rw /poll_write /mbind /M_bind. destruct (try_catch recv_frames_wake h) as [[r|e|] h1]; try done.
  destruct (when _ _ h1) as [[[]|e|] h2]; try done. simpl. by destruct (state h2).
Qed.

Lemma write_out_spec w buf h :
  wf_stream h → closed_for_write (state h) = false → wp (write_out w buf) (write_post h w buf) h.
Proof.
  intros Hwf Hst. pose proof (wf_send _ Hwf) as Hs. rw /write_out. apply wp_bind, wp_gets.
  destruct (Z.eqb_spec (send_window h) 0) as [H0|H0].
  - wp_steps. split.
    + destruct Hwf; by split.
    + exists [], None, []. split_and!; try done; [|by rw app_nil_r].
      split; cbn; rw ?app_nil_r //; lia.
  - apply wp_bind, wp_try_ok, wp_send_data. intros es Hlog Hc.
    rw /log_after in Hlog. set (n := Nat.min (Z.to_nat (send_window h)) (length buf)) in *.
    destruct (es_is_closed es) eqn:Hes; (split; [done|]).
    + rw -Hc in Hlog. apply wp_throw. split; [by apply wf_set_sender_state|].
      exists [], None, []. split_and!; [done| |by intros; split_and!; [..|right|left]].
      split; simpl; rw ?app_nil_r //; intros; congruence.
    + rw -Hc in Hlog. wp_steps. simpl. unfold_int.
      assert (Hn : Z.of_nat n ≤ send_window h) by lia.
      rewrite -> as_u32_small, u32_sub_small by (unfold_int; lia). split.
      * destruct Hwf. split; simpl; try done; [unfold_int; lia|]. intros Hw. by apply wf_parked0 in Hw.
      * set (ev := EvFrame (new_data (flags_of (state h)) (id h) (take n buf))) in *.
        assert (Hd : data_of (frames_of [ev]) = take n buf) by (cbn; by rw app_nil_r).
        assert (Hcr : credit_of (frames_of [ev]) = 0) by done.
        exists [], None, [ev]. split_and!; [done| |].
        -- split; [done|done|done|cbn; congruence|..]; rw ?Hd ?Hcr ?length_take; cbn; lia.
        -- intros window. rw /window /= Z.add_0_r flagged_closed app_nil_r. split_and!; try done. lia.
Qed.

Lemma write_post_received h0 cs h w buf r h' :
  queue h0 = cs ++ queue h → received h0 cs h → write_post h w buf r h' → write_post h0 w buf r h'.
Proof.
  intros Hq Hr (Hwf & cs' & bad & new & Hq' & Hac & Hres). split; [done|].
  exists (cs ++ cs'), bad, new. rw Hq Hq' app_assoc. split_and!; [done| |].
  - change new with ([] ++ new). eapply acct_trans; [by apply received_acct|done].
  - cbv zeta in *. rw credit_of_app data_of_app. destruct Hr. rw rc_send0 rc_buf0 -Z.add_assoc in Hres.
    rw app_assoc. done.
Qed.

Lemma poll_write_spec w buf h0 :
  wf_stream h0 → wp (poll_write w buf) (write_post h0 w buf) h0.
Proof.
  intros Hwf. eapply wp_eq; [apply poll_write_unfold|]. apply wp_bind, wp_try_ok.
  eapply wp_mono; [by apply recv_frames_wake_spec|]. intros r h Hpost.
  pose proof (recv_post_wf _ _ _ Hwf Hpost) as Hwf'.
  split; [intros ->; by destruct Hpost as (? & ? & ? & ? & ?)|].
  destruct (is_protocol_error r) eqn:He.
  - destruct Hpost as (cs & bad & Hq & Hr & _). cbn [when]. rw /send_go_away.
    apply wp_bind, wp_bind, wp_modify, wp_bind, wp_send_raw. intros es Hlog Hc. wp_steps; [|done].
    split; [by apply wf_set_sender_state|].
    destruct (acct_send EvGoAway h es LocalClosing) as (new & Hac & Hd & Hnew); [done..|].
    exists cs, bad, new. split_and!; [done| |split_and!; [done|done|by left|right]];
      [|intros Ho; rw Hnew //; by left].
    rw -(app_nil_r cs). eapply (acct_trans _ _ []); [by apply received_acct|done].
  - apply wp_bind, wp_ret, wp_bind, wp_gets.
    assert (is_protocol_error (forget r) = false) as He' by by destruct r.
    apply recv_post_no_error in Hpost as (cs & Hq & Hr); [|done].
    destruct (closed_for_write (state h)) eqn:Hst.
    + apply wp_throw. eapply accounted_received; [done..|]. by split_and!; [..|left|left].
    + eapply wp_mono; [by apply write_out_spec|]. intros. by eapply write_post_received.
Qed.

(** *** Closing, and all operations together *)

(** What every operation guarantees. *)
Definition op_post (h0 : Stream) : Res io.ErrorKind bytes → Stream → Prop := λ r h,
  accounted h0 h (λ cs bad new,
    match r with
    | Ok out => bad = None ∧ out ++ concat (read_buf h) = concat (read_buf h0) ++ data_of cs
    | Err _ => bad = None ∨ went_away h new
    | Panic => False
    end).

Lemma wp_send_close h (Q : Res Error unit → Stream → Prop) :
  (∀ es, es_log es = log_after (EvFrame (new_window_update (flags_add (flags_of (state h)) Fin) (id h) 0)) h →
    es_is_closed es = es_is_closed (unbound_event_sender h) →
    Q (if es_is_closed es then Err SessionShutdown else Ok ())
      (set_event_sender es (set_state (flagged (state h)) h))) →
  wp send_close Q h.
Proof.
  intros HQ. rw /send_close /unbound_send_frame.
  by apply wp_bind, wp_get_flags, wp_bind, wp_gets, wp_unbound_send_event.
Qed.

(** Nothing is received, and what is sent carries neither data nor credit. *)
Definition only_sends (h0 h : Stream) : Prop :=
  frame_receiver h = frame_receiver h0 ∧ read_buf h = read_buf h0 ∧ wf_stream h ∧
  ∃ new, acct h0 [] new h ∧ data_of (frames_of new) = [].

Lemma only_sends_send ev h0 h es st :
  only_sends h0 h →
  es_log es = log_after ev h → es_is_closed es = es_is_closed (unbound_event_sender h) →
  data_of (frames_of [ev]) = [] → credit_of (frames_of [ev]) = 0 →
  only_sends h0 (set_event_sender es (set_state st h)).
Proof.
  intros (? & ? & ? & new & Hac & Hd) Hlog Hc Hdata Hcredit.
  destruct (acct_send ev h es st Hlog Hc Hdata Hcredit) as (new' & Hac' & Hd' & _).
  split_and!; [done|done|by apply wf_set_sender_state|].
  exists (new ++ new'). split; [by apply (acct_trans h0 [] new h [])|].
  by rw frames_of_app data_of_app Hd Hd'.
Qed.

Lemma only_sends_refl h : wf_stream h → only_sends h h.
Proof. intros. split_and!; try done. exists []. split; [by apply acct_refl|done]. Qed.

Lemma close_spec h : wf_stream h → wp close (λ r h', r ≠ Panic ∧ only_sends h h') h.
Proof.
  intros Hwf%only_sends_refl. rw /close. apply wp_bind, wp_gets, wp_bind, wp_gets.
  destruct (state h) eqn:Hst.
  all: try (apply wp_bind, wp_modify, wp_send_close; intros es Hlog Hc;
    split; [by destruct (es_is_closed es)|];
    exact (only_sends_send _ h h es LocalClosing Hwf Hlog Hc eq_refl eq_refl)).
  all: try (apply wp_bind, wp_modify, wp_unbound_send_event; intros es Hlog Hc;
    split; [by destruct (es_is_closed es)|];
    exact (only_sends_send _ h h es Closed Hwf Hlog Hc eq_refl eq_refl)).
  apply wp_bind, wp_modify, wp_bind, wp_send_close. intros es Hlog Hc.
  pose proof (only_sends_send _ h h es Closed Hwf Hlog Hc eq_refl eq_refl) as Hs.
  destruct (es_is_closed es) eqn:Hes; [done|].
  apply wp_unbound_send_event. intros es' Hlog' Hc'. split; [by destruct (es_is_closed es')|].
  exact (only_sends_send _ h _ es' Closed Hs Hlog' Hc' eq_refl eq_refl).
Qed.

Lemma accounted_mono h0 h (Φ Ψ : list Frame → option Frame → list StreamEvent → Prop) :
  accounted h0 h Φ → (∀ cs bad new, acct h0 cs new h → Φ cs bad new → Ψ cs bad new) →
  accounted h0 h Ψ.
Proof. intros (? & cs & bad & new & ? & ? & ?) HΦ. split; [done|]. exists cs, bad, new. eauto. Qed.

Lemma only_sends_accounted h0 h (Φ : list Frame → option Frame → list StreamEvent → Prop) :
  only_sends h0 h → (∀ new, data_of (frames_of new) = [] → Φ [] None new) → accounted h0 h Φ.
Proof.
  intros (Hrx & _ & ? & new & ? & ?) HΦ. split; [done|]. exists [], None, new.
  rw Hrx. split_and!; [done..|by apply HΦ].
Qed.

Lemma poll_peek_spec w n h0 :
  wf_stream h0 →
  wp (poll_peek w n) (λ r h, accounted h0 h (λ cs bad new,
    match r with
    | Ok p => bad = None ∧ concat (read_buf h) = concat (read_buf h0) ++ data_of cs ∧
      match p with Ready out => out = take n (concat (read_buf h)) | Pending => read_buf h = [] end
    | Err _ => bad = None ∨ went_away h new
    | Panic => False
    end)) h0.
Proof.
  intros Hwf. rw /poll_peek. apply wp_bind. eapply wp_mono; [by apply poll_fill_spec|].
  intros [early|e|] h Hpost.
  - destruct early as [p|]; [apply wp_ret|apply wp_bind, wp_gets, wp_ret];
      pose proof (wf_chunks _ (proj1 Hpost)) as Hne;
      (eapply accounted_mono; [done|]); simpl; intros cs bad new _ (-> & [] & Hp); split_and!; try done.
    + destruct p; [|by destruct Hp]. destruct Hp as (-> & -> & _). by rw take_nil.
    + by apply peek_loop_take.
  - eapply accounted_mono; [done|]. simpl. intros cs bad new _ [(_ & ? & _)|(_ & ? & _)]; auto.
  - by destruct Hpost as (? & ? & ? & ? & ? & ? & ?).
Qed.

Lemma run_op_spec op h0 : wf_stream h0 → wp (run_op op) (op_post h0) h0.
Proof.
  intros Hwf. destruct op as [|w n|w n|w buf| |]; rw /run_op; apply wp_bind.
  - apply wp_map_err. eapply wp_mono; [by apply send_window_update_spec|].
    intros r h (Hwf' & Hr & Hb & new & Hac & Hq).
    assert (∀ r', r' = Ok [] ∨ r' = Err io.BrokenPipe → op_post h0 r' h) as Hpost.
    { intros r' Hr'. split; [done|]. exists [], None, new. rw Hq. split_and!; [done..|].
      destruct Hr' as [-> | ->]; [|by left]. by rw Hb app_nil_r. }
    destruct r; [apply wp_ret| |done]; apply Hpost; auto.
  - eapply wp_mono; [by apply poll_read_spec|]. intros [p|e|] h Hpost; [apply wp_ret| |];
      (eapply accounted_mono; [done|]); simpl; intros cs bad new _ Hp; [|by destruct_and?; destruct_or?; destruct_and?; auto|done].
    destruct Hp as [-> Hp]. split; [done|]. destruct p; [by destruct Hp|].
    by destruct Hp as (-> & -> & _).
  - eapply wp_mono; [by apply poll_peek_spec|]. intros [p|e|] h Hpost; [apply wp_ret| |];
      (eapply accounted_mono; [done|]); simpl; intros cs bad new _ Hp; [|by destruct_and?; destruct_or?; destruct_and?; auto|done].
    by destruct Hp as (-> & -> & _).
  - eapply wp_mono; [by apply poll_write_spec|]. intros [p|e|] h Hpost; [apply wp_ret| |];
      (eapply accounted_mono; [done|]); simpl; intros cs bad new _ Hp; [|by destruct_and?; destruct_or?; destruct_and?; auto|done].
    destruct p; destruct Hp as (-> & -> & _); done.
  - wp_steps. apply (only_sends_accounted h0 h0); [by apply only_sends_refl|].
    intros. by rw app_nil_r.
  - rw /poll_shutdown. apply wp_bind, wp_try_ok. eapply wp_mono; [by apply close_spec|].
    intros r h [Hr Hs]. split; [done|]. pose proof Hs as (_ & Hb & _). destruct r; wp_steps; try done;
    (eapply only_sends_accounted; [done|]); intros; rw ?Hb ?app_nil_r //; by left.
Qed.

(** *** A stream and its environment *)

(** One step of a stream: an operation of its owner, or its session putting
    frames into the channel, taking events, or going away.  The session drops
    its end of the frame channel only when it goes away itself or after the
    stream has reported [Closed].  [allowed] restricts the operations. *)
Inductive sstep (allowed : StreamOp → Prop) : Stream → Stream → Prop :=
| step_op op h : allowed op → sstep allowed h (run_op op h).2
| step_session rx es h :
    Forall sane_frame (fr_queue rx) →
    es_log es = sent h →
    (es_is_closed (unbound_event_sender h) = true → es_is_closed es = true) →
    (fr_open rx = true ∨ es_is_closed es = true ∨ EvClosed (id h) ∈ sent h) →
    sstep allowed h (set_frame_receiver rx (set_event_sender es h)).

Lemma sstep_wf allowed h h' : wf_stream h → sstep allowed h h' → wf_stream h'.
Proof.
  intros Hwf Hs. destruct Hs as [op h _|rx es h Hrx _ _ _].
  - destruct (run_op_spec op h Hwf) as [? _]. done.
  - destruct Hwf. by split.
Qed.

Lemma reachable_wf allowed h h' : wf_stream h → rtc (sstep allowed) h h' → wf_stream h'.
Proof. intros Hwf Hs. induction Hs; [done|]. eauto using sstep_wf. Qed.

Lemma stream_new_wf sid es rx st mw h :
  stream_new sid es rx st mw = Ok h → INITIAL_STREAM_WINDOW ≤ mw → is_u32 mw →
  Forall sane_frame (fr_queue rx) → wf_stream h.
Proof.
  rw /stream_new /INITIAL_STREAM_WINDOW. case_bool_decide; [|done]. intros [= <-] ? ? ?.
  split; cbn; unfold_int; try done; try lia.
Qed.

(** The invariant behind half-closing. *)
Record half_closed (h : Stream) : Prop := {
  hc_quiet : quiet_after_fin (sent h);
  hc_fin : existsb has_fin (sent h) = true →
    es_is_closed (unbound_event_sender h) = true ∨ closed_for_write (state h) = true;
  hc_closed : existsb is_closed_event (sent h) = true → state h = Closed;
  hc_link : fr_open (frame_receiver h) = true ∨ es_is_closed (unbound_event_sender h) = true ∨
    existsb is_closed_event (sent h) = true;
}.

(** The invariant does not depend on windows, buffers and wakers. *)
Lemma half_closed_same h h' :
  half_closed h → unbound_event_sender h' = unbound_event_sender h →
  fr_open (frame_receiver h') = fr_open (frame_receiver h) →
  (closed_for_write (state h) = true → closed_for_write (state h') = true) →
  (existsb is_closed_event (sent h) = true → state h' = Closed) →
  half_closed h'.
Proof.
  intros [] Hs Hr Hst Hcl. split; rw ?Hs ?Hr //. intros [|]%hc_fin0; auto.
Qed.

Lemma half_closed_eq h h' :
  half_closed h → unbound_event_sender h' = unbound_event_sender h →
  frame_receiver h' = frame_receiver h → state h' = state h → half_closed h'.
Proof.
  intros Hh Hs Hr Hst. eapply half_closed_same; [done..|by rw Hr|by rw Hst|]. rw Hst. apply Hh.
Qed.

Lemma half_closed_send ev es st h :
  half_closed h →
  es_log es = log_after ev h → es_is_closed es = es_is_closed (unbound_event_sender h) →
  (closed_for_write (state h) = true → has_fin ev = false ∧ has_data ev = false) →
  (closed_for_write (state h) = true ∨ has_fin ev = true → closed_for_write st = true) →
  (existsb is_closed_event (sent h) = true ∨ is_closed_event ev = true → st = Closed) →
  half_closed (set_event_sender es (set_state st h)).
Proof.
  intros [] Hlog Hc Hev Hst Hcl. rw /log_after in Hlog.
  destruct (es_is_closed (unbound_event_sender h)) eqn:Ho; split; simpl;
    rw ?Hlog ?Hc ?existsb_app /= ?orb_false_r ?orb_true_iff; try (by auto).
  - apply quiet_snoc; [done|]. intros [|]%hc_fin0; [done|auto].
  - intros [[|]%hc_fin0|]; auto; done.
  - destruct hc_link0 as [|[|]]; auto.
Qed.

Lemma live_not_closed h : half_closed h → live (state h) = true →
  existsb is_closed_event (sent h) = false.
Proof.
  intros [] Hl. destruct (existsb is_closed_event (sent h)); [|done].
  by rw hc_closed0 in Hl.
Qed.

Lemma handle_frame_state f h :
  live (state h) = true →
  wp (handle_frame f) (λ r h', r ≠ Panic ∧ unbound_event_sender h' = unbound_event_sender h ∧
    frame_receiver h' = frame_receiver h ∧
    (closed_for_write (state h) = true → closed_for_write (state h') = true)) h.
Proof.
  intros Hl. rw /handle_frame /handle_window_update /handle_data /wake_writeable.
  destruct (frame_ty f); [| |by apply wp_throw..];
    apply wp_bind, wp_process_flags; auto; intros st Hst; wp_steps; simpl; split_and!; auto;
    by destruct (writeable_wake h).
Qed.

Definition half_post {A} : Res Error A → Stream → Prop := λ r h,
  half_closed h ∧
  (is_protocol_error (forget r) = true → existsb is_closed_event (sent h) = false).

Lemma recv_all_half next b h :
  takes_oldest next → half_closed h → wp (recv_all next b) half_post h.
Proof.
  intros Hnext Hh. eapply wp_mono.
  - apply (recv_all_rule next half_closed (λ e h, half_post (A:=bool) (Err e) h)); try done.
    + intros h1 Hh1 _. split; [done|]. by case_decide.
    + intros h1 rx Hh1 _ _ _ Ho. eapply half_closed_same; [done..|]. apply Hh1.
    + intros h1 Hh1 Hl _ Ho. pose proof (live_not_closed _ Hh1 Hl) as Hcl. split; [|done].
      destruct Hh1. rw Hcl Ho in hc_link0. split; simpl; try done; rw ?Hcl //; intros;
        destruct hc_link0 as [|[|]]; auto; done.
    + intros h1 f rx Hh1 Hl _ Ho. pose proof (live_not_closed _ Hh1 Hl) as Hcl.
      eapply wp_mono; [by apply handle_frame_state|]. simpl. intros r h2 (Hp & Hs & Hr & Hst).
      assert (half_closed h2).
      { eapply half_closed_same; [done|done|by rw Hr|done|]. by rw Hcl. }
      destruct r; [done| |done]. split; [done|]. by rw Hs.
  - intros [a|e|] h1 Hp; [by split|done..].
Qed.

Lemma send_go_away_half {E} h :
  half_closed h → existsb is_closed_event (sent h) = false →
  wp (send_go_away : M Stream E unit) (λ _ h', half_closed h') h.
Proof.
  intros Hh Hcl. rw /send_go_away. apply wp_bind, wp_modify, wp_bind, wp_send_raw.
  intros es Hlog Hc. apply wp_ret.
  apply (half_closed_send EvGoAway es LocalClosing h); try done. rw Hcl. by intros [].
Qed.

Lemma poll_fill_half w h :
  half_closed h → wp (poll_fill w) (λ _ h', half_closed h') h.
Proof.
  intros Hh. rw /poll_fill. apply wp_bind, wp_check_self_state; [done|intros; by apply wp_ret|].
  intros _. apply wp_bind, wp_modify, wp_bind, wp_try.
  eapply wp_mono; [apply recv_all_half; [apply fr_poll_next_fifo|by eapply half_closed_same; [..|apply Hh]]|].
  intros r h' [Hh' Hcl].
  destruct r as [b|e|]; [| |done];
    destruct (is_protocol_error _) eqn:He; try done;
    try (apply wp_bind; eapply wp_mono; [by apply send_go_away_half; auto|];
         intros [] ??; [by apply wp_throw|done..]);
    (apply wp_bind, wp_check_self_state; [done|intros; by apply wp_ret|]);
    intros _; wp_steps; done.
Qed.

Lemma flags_of_no_fin st : flags_contains (flags_of st) Fin = false.
Proof. by destruct st. Qed.

Lemma send_window_update_half h :
  wf_stream h → half_closed h → wp send_window_update (λ r h', half_closed h') h.
Proof.
  intros Hwf Hh. apply wp_send_window_update; [done|..].
  - intros _ _. eapply half_closed_same; [done..| |]; simpl; [by rw flagged_closed|].
    intros Hcl. by rw (hc_closed _ Hh Hcl).
  - intros _ es Hlog Hc.
    apply (half_closed_eq (set_event_sender es (set_state (flagged (state h)) h))); try done.
    eapply half_closed_send; [done|exact Hlog|done|..];
      rw ?flagged_closed /= /frame_flags /= ?flags_of_no_fin //; [by intros []|].
    intros [Hcl|]; [|done]. by rw (hc_closed _ Hh).
Qed.

Lemma poll_read_half w n h :
  wf_stream h → half_closed h → wp (poll_read w n) (λ _ h', half_closed h') h.
Proof.
  intros Hwf Hh. rw /poll_read. apply wp_bind.
  eapply wp_mono; [apply (wp_frame half_closed (poll_fill w)); [intros ?; apply poll_fill_half|done|by apply poll_fill_spec]|].
  intros [[p|]|e|] h' [[Hwf' _] Hh']; [by apply wp_ret| |done..].
  apply wp_bind, wp_gets. destruct (read_rest n h' Hwf') as (rest & Hrest & _ & Hwfr).
  destruct (read_loop 0 n (read_buf h') None) as [[out bufs'] offset]. simplify_eq.
  apply wp_bind, wp_modify, wp_bind, wp_gets, wp_bind.
  set (h1 := set_read_buf (drain_to offset bufs') h').
  assert (half_closed h1) by by eapply half_closed_eq.
  assert (Hupd : wp (try_catch send_window_update : M Stream io.ErrorKind _)
    (λ r h2, half_closed h2) h1).
  { apply wp_try. eapply wp_mono; [by apply send_window_update_half|]. by intros []. }
  destruct (state h1); try (by wp_steps); apply wp_bind; (eapply wp_mono; [exact Hupd|]);
    intros [[]| |] h2 ?; wp_steps; done.
Qed.

Lemma write_out_half w buf h :
  half_closed h → closed_for_write (state h) = false → wp (write_out w buf) (λ _ h', half_closed h') h.
Proof.
  intros Hh Hst. rw /write_out. apply wp_bind, wp_gets. destruct (_ =? 0).
  { wp_steps. by eapply half_closed_eq. }
  apply wp_bind, wp_try, wp_send_data. intros es Hlog Hc.
  assert (half_closed (set_event_sender es (set_state (flagged (state h)) h))) as Hs.
  { eapply half_closed_send; [done|exact Hlog|done|..]; rw ?flagged_closed ?Hst //=.
    - rw /frame_flags /= flags_of_no_fin. by intros [].
    - intros [Hcl|]; [|done]. by rw (hc_closed _ Hh). }
  destruct (es_is_closed es); wp_steps; [done|]. by eapply half_closed_eq.
Qed.

Lemma recv_frames_wake_half h : half_closed h → wp recv_frames_wake half_post h.
Proof.
  intros Hh. rw /recv_frames_wake. apply wp_bind, wp_gets, wp_bind, wp_gets, wp_bind, wp_try.
  eapply wp_mono; [by apply recv_all_half; [apply fr_try_recv_fifo|]|].
  intros r h1 [Hh1 Hcl].
  assert (Hw : ∀ b (Q : Res Error unit → Stream → Prop),
    (∀ h2, half_closed h2 → sent h2 = sent h1 → Q (Ok ()) h2) → wp (when b wake_readable) Q h1).
  { intros [] Q HQ; [|by apply HQ]. rw /when /wake_readable. apply wp_modify.
    destruct (readable_wake h1); apply HQ; try done; by eapply half_closed_eq. }
  destruct r as [b|e|]; [| |done]; apply wp_bind, wp_gets, wp_bind, wp_gets.
  - apply Hw. intros. by split.
  - apply wp_bind, Hw. intros h2 ? Hs. apply wp_throw. split; [done|]. by rw Hs.
Qed.

Lemma poll_write_half w buf h :
  half_closed h → wp (poll_write w buf) (λ _ h', half_closed h') h.
Proof.
  intros Hh. eapply wp_eq; [apply poll_write_unfold|]. apply wp_bind, wp_try.
  eapply wp_mono; [by apply recv_frames_wake_half|]. intros r h1 [Hh1 Hcl].
  assert (Htail : ∀ h2, half_closed h2 → wp (st ← gets state;
    if closed_for_write st then throw io.BrokenPipe else write_out w buf)
    (λ _ h', half_closed h') h2).
  { intros h2 Hh2. apply wp_bind, wp_gets. destruct (closed_for_write _) eqn:Hst;
      [by apply wp_throw|by apply write_out_half]. }
  destruct r as [[]|e|]; [by apply wp_bind, Htail| |done].
  apply wp_bind, wp_when; intros He; [|by apply Htail].
  eapply wp_mono; [by apply send_go_away_half; auto|]. intros [[]| |] h2 ?; auto.
Qed.

Lemma close_half h : half_closed h → wp close (λ _ h', half_closed h') h.
Proof.
  intros Hh. pose proof (hc_closed _ Hh) as Hcl.
  rw /close. apply wp_bind, wp_gets, wp_bind, wp_gets. destruct (state h) eqn:Hst.
  all: try (apply wp_bind, wp_modify, wp_send_close; intros es Hlog Hc;
    apply (half_closed_send _ es LocalClosing h Hh Hlog Hc); rw ?Hst //;
    by intros [?%Hcl|]).
  all: try (apply wp_bind, wp_modify, wp_unbound_send_event; intros es Hlog Hc;
    by apply (half_closed_send _ es Closed h Hh Hlog Hc)).
  apply wp_bind, wp_modify, wp_bind, wp_send_close. intros es Hlog Hc.
  assert (half_closed (set_event_sender es (set_state Closed h))) as Hs.
  { apply (half_closed_send _ es Closed h Hh Hlog Hc); rw ?Hst //. }
  destruct (es_is_closed es); [done|].
  apply wp_unbound_send_event. intros es' Hlog' Hc'.
  by apply (half_closed_send _ es' Closed _ Hs Hlog' Hc').
Qed.

Lemma run_op_half op h :
  wf_stream h → half_closed h → wp (run_op op) (λ _ h', half_closed h') h.
Proof.
  intros Hwf Hh. destruct op as [|w n|w n|w buf| |]; rw /run_op; apply wp_bind.
  - apply wp_map_err. eapply wp_mono; [by apply send_window_update_half|]. by intros [].
  - eapply wp_mono; [by apply poll_read_half|]. by intros [].
  - rw /poll_peek. apply wp_bind. eapply wp_mono; [by apply poll_fill_half|].
    intros [[]| |] ??; wp_steps; done.
  - eapply wp_mono; [by apply poll_write_half|]. by intros [].
  - done.
  - rw /poll_shutdown. apply wp_bind, wp_try. eapply wp_mono; [by apply close_half|].
    intros [] ??; wp_steps; done.
Qed.

Lemma reachable_half allowed h h' :
  wf_stream h → half_closed h → rtc (sstep allowed) h h' → half_closed h'.
Proof.
  intros Hwf Hh Hs. induction Hs as [|h h1 h2 Hs _ IH]; [done|].
  apply IH; [by eapply sstep_wf|]. destruct Hs as [op h _|rx es h Hrx Hlog Hcl Hlink].
  - by apply run_op_half.
  - destruct Hh. split; simpl; rw ?Hlog //.
    + intros [|]%hc_fin0; auto.
    + destruct Hlink as [|[|Hin]]; auto. right. right. apply existsb_exists.
      exists (EvClosed (id h)). by rw -list_elem_of_In.
Qed.

(** *** Wakeups *)

(** [w] is parked as the writer, or has been woken. *)
Definition writer_kept (w : Waker) (h : Stream) : Prop :=
  w ∈ woken h ∨ writeable_wake h = Some w.

Lemma writer_kept_wake {E} w : preserves (writer_kept w) (wake_writeable : M Stream E unit).
Proof.
  apply preserves_modify. rw /writer_kept. intros h.
  destruct (writeable_wake h) eqn:Hw; simpl; rw ?Hw; [|auto].
  intros [|[= ->]]; left; apply elem_of_app; [by left|right; by left].
Qed.

Lemma writer_kept_same w h h' :
  woken h `prefix_of` woken h' → writeable_wake h' = writeable_wake h →
  writer_kept w h → writer_kept w h'.
Proof. rw /writer_kept. intros Hp -> [|]; [left; by eapply elem_of_prefix|by right]. Qed.

Lemma writer_kept_modify {E} w (g : Stream → Stream) :
  (∀ h, woken (g h) = woken h ∧ writeable_wake (g h) = writeable_wake h) →
  preserves (writer_kept w) (modify g : M Stream E unit).
Proof.
  intros Hg. apply preserves_modify. intros h. destruct (Hg h) as [Hw ?].
  apply writer_kept_same; [by rw Hw|done].
Qed.

Lemma writer_kept_wake_readable {E} w : preserves (writer_kept w) (wake_readable : M Stream E unit).
Proof.
  apply preserves_modify. intros h. apply writer_kept_same; destruct (readable_wake h); try done.
  by apply prefix_app_r.
Qed.

Lemma writer_kept_send_raw {E} w ev : preserves (writer_kept w) (send_raw ev : M Stream E bool).
Proof. intros h. rw /send_raw. by destruct (es_send _ _). Qed.

Lemma writer_kept_recv_one {E} w next : preserves (writer_kept w) (recv_one next : M Stream E _).
Proof. intros h. rw /recv_one. by destruct (next _). Qed.

Ltac kept := preserves; try (by apply writer_kept_modify).

Lemma writer_kept_handle_frame w f : preserves (writer_kept w) (handle_frame f).
Proof.
  rw /handle_frame /handle_window_update /handle_data /process_flags.
  kept; apply writer_kept_wake.
Qed.

Lemma writer_kept_recv_all w next b : preserves (writer_kept w) (recv_all next b).
Proof.
  assert (∀ fuel b, preserves (writer_kept w) (recv_loop next fuel b)) as Hl.
  { induction fuel as [|fuel IH]; intros b'; cbn [recv_loop]; kept;
      auto using writer_kept_recv_one, writer_kept_handle_frame. }
  intros h. apply Hl.
Qed.

#[local] Hint Resolve writer_kept_wake writer_kept_wake_readable writer_kept_send_raw
  writer_kept_recv_one writer_kept_handle_frame writer_kept_recv_all : preserves.

(** Only the owner of [w] parks as a writer. *)
Definition writer_is (w : Waker) (op : StreamOp) : Prop :=
  match op with OpWrite w' _ => w' = w | _ => True end.

Lemma writer_kept_run_op w op : writer_is w op → preserves (writer_kept w) (run_op op).
Proof.
  intros Hop. destruct op as [|w' n|w' n|w' buf| |]; simpl in Hop; subst;
    rw /run_op /poll_read /poll_peek /poll_fill /poll_write /poll_shutdown /poll_flush /check_self_state
      /close /send_close /send_data /send_window_update /send_go_away /unbound_send_frame
      /unbound_send_event /recv_frames_wake /recv_frames /try_recv_frames /get_flags; kept.
  all: try (apply preserves_modify; by right).
Qed.

Lemma reachable_writer_kept w h h' :
  writer_kept w h → rtc (sstep (writer_is w)) h h' → writer_kept w h'.
Proof.
  intros Hk Hs. induction Hs as [|h h1 h2 Hs _ IH]; [done|]. apply IH.
  destruct Hs as [op h Hop|]; [by apply writer_kept_run_op|done].
Qed.

Lemma reachable_max allowed h h' :
  wf_stream h → rtc (sstep allowed) h h' → max_recv_window h' = max_recv_window h.
Proof.
  intros Hwf Hs. induction Hs as [|h h1 h2 Hs _ IH]; [done|].
  rw IH; [|by eapply sstep_wf]. destruct Hs as [op h _|]; [|done].
  destruct (run_op_spec op h Hwf) as (_ & cs & bad & new & _ & [] & _). done.
Qed.

(** *** Runs without errors *)

(** [srun h out arrived h']: from [h] to [h'] every operation succeeded, the
    reads returned [out] and the session delivered [arrived]. *)
Inductive srun (h : Stream) : bytes → list Frame → Stream → Prop :=
| srun_start : srun h [] [] h
| srun_op out arrived h1 op out' h2 :
    srun h out arrived h1 → run_op op h1 = (Ok out', h2) → srun h (out ++ out') arrived h2
| srun_deliver out arrived h1 fs rx :
    srun h out arrived h1 → Forall sane_frame fs → fr_queue rx = queue h1 ++ fs →
    srun h out (arrived ++ fs) (set_frame_receiver rx h1).

Lemma srun_in_order h out arrived h' :
  wf_stream h → srun h out arrived h' →
  wf_stream h' ∧ out ++ concat (read_buf h') ++ data_of (queue h') =
    concat (read_buf h) ++ data_of (queue h ++ arrived).
Proof.
  intros Hwf Hr. induction Hr as [|out arrived h1 op out' h2 _ [Hwf1 IH] Hop
    |out arrived h1 fs rx _ [Hwf1 IH] Hfs Hrx].
  - by rw app_nil_r.
  - destruct (wp_intro _ _ _ _ _ (run_op_spec op h1 Hwf1) Hop)
      as (Hwf2 & cs & bad & new & Hq & _ & -> & Hout).
    split; [done|]. rw -IH Hq data_of_app -app_assoc. f_equal.
    rw (app_assoc out') Hout. by rw -!app_assoc.
  - split; [|rw /= Hrx app_assoc !data_of_app; rw data_of_app in IH;
      rw !app_assoc; rw !app_assoc in IH; by rw IH].
    destruct Hwf1. split; simpl; try done. rw Hrx. by apply Forall_app.
Qed.

(** ** Properties *)

(** An operation pays for what it took and sent, in integers: received data from
    the receive window, which grows by exactly what is announced to the peer, and sent
    data from the send window, which grows by exactly the credit received. A frame is
    rejected only by an operation that fails and asks the session to go away. *)
Definition pays {E A} h (r : Res E A) h' : Prop :=
  ∃ cs bad new,
    queue h = cs ++ option_list bad ++ queue h' ∧ sent h' = sent h ++ new ∧
    recv_window h' + length (data_of cs) = recv_window h + credit_of (frames_of new) ∧
    send_window h' + length (data_of (frames_of new)) = send_window h + credit_of cs ∧
    match r with Ok _ => bad = None | _ => bad = None ∨ EvGoAway ∈ new end.

Lemma op_pays op h r h' :
  wf_stream h → es_is_closed (unbound_event_sender h) = false → run_op op h = (r, h') → r ≠ Panic ∧ pays h r h'.
Proof.
  intros Hwf Ho Hop.
  destruct (wp_intro _ _ _ _ _ (run_op_spec op h Hwf) Hop)
    as (_ & cs & bad & new & Hq & [] & Hr).
  split; [by intros ->|]. exists cs, bad, new. split_and!; auto.
  destruct r; [by destruct Hr| |done]. rw /went_away ac_closed0 in Hr. destruct Hr; auto.
Qed.

(** C31. Flow-control invariant of a stream: from its creation with a maximal
    window of at least 256 KiB on, under any interleaving of its owner's calls
    with deliveries by the session, the bytes buffered and the receive window
    left never exceed the maximal window, no empty chunk is buffered, and a writer
    is parked only while the send window is exhausted. Neither window ever wraps:
    both are [u32]s, and while the session takes its frames every further operation
    ends without a panic and changes them, as integers, by exactly the data received
    and sent and the credit announced and received; so it never sends more than the
    send window. *)
Theorem stream_windows_invariant sid es rx st mw h allowed h' :
  stream_new sid es rx st mw = Ok h →
  INITIAL_STREAM_WINDOW ≤ mw → is_u32 mw → Forall sane_frame (fr_queue rx) →
  rtc (sstep allowed) h h' →
  0 ≤ recv_window h' ∧ recv_window h' + buf_len (read_buf h') ≤ mw ∧ is_u32 (send_window h') ∧
  Forall (λ b, b ≠ []) (read_buf h') ∧ (writeable_wake h' ≠ None → send_window h' = 0) ∧
  (∀ op r h'', es_is_closed (unbound_event_sender h') = false → run_op op h' = (r, h'') →
    r ≠ Panic ∧ pays h' r h'').
Proof.
  intros Hnew Hmw Hu Hq Hs. pose proof (stream_new_wf _ _ _ _ _ _ Hnew Hmw Hu Hq) as Hwf.
  pose proof (reachable_max _ _ _ Hwf Hs) as Hmax.
  assert (max_recv_window h = mw) as Hm.
  { rw /stream_new in Hnew. by case_bool_decide; simplify_eq. }
  pose proof (reachable_wf _ _ _ Hwf Hs) as Hwf'. destruct (Hwf'). rw Hmax Hm in wf_window0.
  split_and!; try done. intros op r h'' Hc. by apply op_pays.
Qed.

(** C15. Ordered, lossless delivery: over any run in which no operation failed,
    the bytes returned by the reads, followed by the bytes buffered and those
    still in the channel, are exactly the stream data that arrived, in order;
    nothing is lost, duplicated or reordered, whatever reads, peeks and writes
    are interleaved. *)
Theorem stream_delivers_in_order h out arrived h' :
  wf_stream h → srun h out arrived h' →
  out ++ concat (read_buf h') ++ data_of (queue h') =
    concat (read_buf h) ++ data_of (queue h ++ arrived).
Proof. intros Hwf Hr. by apply srun_in_order. Qed.

(** Accounting of one operation, failing ones included: received data is
    paid from the receive window, which grows by exactly what is announced to
    the peer; sent data is paid from the send window, which grows by exactly
    the credit received.  A frame is rejected only by an operation that fails
    and asks the session to go away. *)
Theorem stream_op_accounting op h r h' :
  wf_stream h → es_is_closed (unbound_event_sender h) = false → run_op op h = (r, h') →
  r ≠ Panic ∧ ∃ cs bad new,
    queue h = cs ++ option_list bad ++ queue h' ∧ sent h' = sent h ++ new ∧
    recv_window h' + length (data_of cs) = recv_window h + credit_of (frames_of new) ∧
    send_window h' + length (data_of (frames_of new)) = send_window h + credit_of cs ∧
    match r with Ok _ => bad = None | _ => bad = None ∨ EvGoAway ∈ new end.
Proof. apply op_pays. Qed.

(** Half-close: once a stream has sent a frame with [Fin], it never sends
    data nor a second [Fin], whatever its owner calls and its session does. *)
Theorem no_data_after_fin sid es rx st mw h allowed h' :
  stream_new sid es rx st mw = Ok h →
  INITIAL_STREAM_WINDOW ≤ mw → is_u32 mw → Forall sane_frame (fr_queue rx) →
  es_log es = [] → fr_open rx = true →
  rtc (sstep allowed) h h' → quiet_after_fin (sent h').
Proof.
  intros Hnew Hmw Hu Hq Hlog Ho Hs.
  eapply reachable_half; [by eapply stream_new_wf| |done].
  rw /stream_new in Hnew. case_bool_decide; simplify_eq.
  split; rw /= ?Hlog //; [by intros []|auto].
Qed.

(** No lost writer wakeup: a task parked by [poll_write] is, at any later
    time, woken or still parked on an exhausted send window. *)
Theorem no_lost_writer_wakeup w h h' :
  wf_stream h → writeable_wake h = Some w → rtc (sstep (writer_is w)) h h' →
  w ∈ woken h' ∨ writeable_wake h' = Some w ∧ send_window h' = 0.
Proof.
  intros Hwf Hw Hs.
  destruct (reachable_writer_kept w h h') as [|Hw']; [by right|done|by left|].
  right. split; [done|]. apply (wf_parked _ (reachable_wf _ _ _ Hwf Hs)). by rw Hw'.
Qed.

(** [poll_write] on every branch: it accepts as much as the send window
    (after the credit just received) allows and sends exactly these bytes in
    one data frame; it is pending only on an exhausted window, with the caller
    registered; it fails only when the local side is closed or the session is
    gone, and then sends no data. *)
Theorem poll_write_behaviour w buf h r h' :
  wf_stream h → poll_write w buf h = (r, h') →
  ∃ cs bad new, queue h = cs ++ option_list bad ++ queue h' ∧ sent h' = sent h ++ new ∧
    let window := send_window h + credit_of cs in
    match r with
    | Ok (Ready n) =>
      0 < window ∧ n = Nat.min (Z.to_nat window) (length buf) ∧
      data_of (frames_of new) = take n buf ∧ send_window h' = window - n ∧
      closed_for_write (state h') = false
    | Ok Pending =>
      window = 0 ∧ send_window h' = 0 ∧ writeable_wake h' = Some w ∧
      data_of (frames_of new) = [] ∧ closed_for_write (state h') = false
    | Err e =>
      e = io.BrokenPipe ∧ data_of (frames_of new) = [] ∧
      (closed_for_write (state h') = true ∨ es_is_closed (unbound_event_sender h') = true)
    | Panic => False
    end.
Proof.
  intros Hwf Hop.
  destruct (wp_intro _ _ _ _ _ (poll_write_spec w buf h Hwf) Hop)
    as (_ & cs & bad & new & Hq & [] & Hr).
  exists cs, bad, new. split_and!; [done..|]. cbv zeta in *.
  destruct r as [[n|]|e|]; [| |by destruct Hr as (? & ? & ? & _)|done].
  - destruct Hr as (_ & _ & ? & ? & Hd & ?). rw Hd length_take in ac_send0.
    split_and!; try done. lia.
  - destruct Hr as (_ & _ & Hs & ? & Hd & ?). rw Hd Hs /= in ac_send0. split_and!; done || lia.
Qed.

(** [poll_peek] shows the data a read would return, and takes nothing:
    from the same stream [poll_read] returns the same bytes (or reports that
    the window update could not be sent), and after the peek they are still
    at the front of the buffer. *)
Theorem peek_shows_next_read w n h out h' :
  wf_stream h → poll_peek w n h = (Ok (Ready out), h') →
  (∃ rest, concat (read_buf h') = out ++ rest) ∧
  ((poll_read w n h).1 = Ok (Ready out) ∨ (poll_read w n h).1 = Err io.BrokenPipe).
Proof.
  intros Hwf Hp.
  destruct (wp_intro _ _ _ _ _ (poll_peek_spec w n h Hwf) Hp) as (Hwf' & cs & bad & new & _ & _ & _ & _ & ->).
  split; [exists (drop n (concat (read_buf h'))); by rw take_drop|].
  rw /poll_peek /mbind /M_bind in Hp. rw /poll_read /mbind /M_bind.
  destruct (poll_fill w h) as [[[p|]|e|] h1]; simpl in *; try done.
  { left. rw /mret /M_ret in Hp |- *. simpl. congruence. }
  rw /mret /M_ret in Hp. injection Hp as _ ->.
  destruct (read_rest n h' Hwf') as (rest & Hrest & _ & Hwfr).
  destruct (read_loop 0 n (read_buf h') None) as [[out bufs'] offset]. simplify_eq. simpl.
  pose proof (send_window_update_spec _ Hwfr) as (_ & Hnp & _). rw /try_catch.
  destruct (state h'); auto; destruct (send_window_update _) as [[[]|e|] h2]; simpl in *;
    try done; auto.
Qed.

(** The receive loop terminates: with as many rounds as there are frames
    in the channel it behaves as the unbounded loop of the code, for both the
    polling and the non-blocking receive. *)
Theorem recv_frames_terminates next has_new h :
  next = fr_poll_next ∨ next = fr_try_recv →
  recv_all next has_new h =
  (st ← gets state;
   match st with
   | RemoteClosing => throw SubStreamRemoteClosing
   | Reset | Closed => throw SessionShutdown
   | _ => recv_round next has_new
   end) h.
Proof.
  intros [-> | ->]; apply recv_all_unfold; [apply fr_poll_next_fifo|apply fr_try_recv_fifo].
Qed.

(** What the session is told when [h] is dropped. *)
Definition drop_events (h : Stream) : list StreamEvent :=
  if es_is_closed (unbound_event_sender h) then [] else
  match state h with
  | Closed => []
  | LocalClosing | Reset => [EvClosed (id h)]
  | st => [EvFrame (new_window_update (flags_add (flags_of st) Rst) (id h) 0); EvClosed (id h)]
  end.

(** Dropping a stream never panics and tells the session exactly what is
    needed: nothing when the stream is closed or the session gone, a final
    [Closed] event otherwise, preceded by a frame with [Rst] (and the pending
    [Syn] or [Ack]) unless the stream was already locally closed or reset. *)
Theorem drop_notifies_session {E} h (r : Res E unit) h' :
  drop_stream h = (r, h') → r = Ok () ∧ sent h' = sent h ++ drop_events h.
Proof.
  revert r h'. enough (wp drop_stream (λ (r : Res E unit) h', r = Ok () ∧ sent h' = sent h ++ drop_events h) h)
    as Hw by (intros ?? Heq; by apply (wp_intro _ _ _ _ _ Hw)).
  rw /drop_stream /drop_events. apply wp_bind, wp_get.
  destruct (es_is_closed (unbound_event_sender h)) eqn:Ho; simpl.
  { apply wp_ret. by rw app_nil_r. }
  assert (Hclosed : ∀ h1, es_is_closed (unbound_event_sender h1) = false →
    wp (send_raw (EvClosed (id h));; mret ()) (λ (r : Res E unit) h', r = Ok () ∧
      sent h' = sent h1 ++ [EvClosed (id h)]) h1).
  { intros h1 Ho1. apply wp_bind, wp_send_raw. intros es Hlog _. apply wp_ret.
    split; [done|]. by rw /= Hlog /log_after Ho1. }
  destruct (state h) eqn:Hst; simpl;
    try (by apply wp_ret; rw app_nil_r); try (by apply wp_bind, wp_ret, Hclosed);
    apply wp_bind, wp_bind, wp_get_flags, wp_bind, wp_send_raw; intros es Hlog Hc; apply wp_ret;
    (eapply wp_mono; [by apply Hclosed; rw /= Hc|]);
    intros r h' [-> ->]; rw /= Hlog /log_after Ho Hst -app_assoc; done.
Qed.
End stream_facts.

(** ** Concrete runs *)

Abbreviation DemoStream := (StreamHandle ListReceiver ListSender).

(** A stream just created by its session: its window update carries the [Syn]. *)
Definition demo_sender : ListSender := mkSender [] false.
Definition demo_receiver : ListReceiver := mkReceiver [] true false.
Definition demo_stream : DemoStream :=
  mkStream 1 Init INITIAL_STREAM_WINDOW INITIAL_STREAM_WINDOW INITIAL_STREAM_WINDOW []
    demo_sender demo_receiver None None [].

(** What its peer answers: an acknowledgement, and data in two frames. *)
Definition demo_frames : list Frame :=
  [new_window_update (flags_from Ack) 1 0; new_data 0 1 [x0a; x0b; x0c]; new_data 0 1 [x0d]].
Definition demo_opened : DemoStream := (run_op OpInit demo_stream).2.
Definition demo_delivered : DemoStream :=
  set_frame_receiver (mkReceiver demo_frames true false)
    (set_event_sender (unbound_event_sender demo_opened) demo_opened).
Definition demo_read : DemoStream := (run_op (OpRead 7 2) demo_delivered).2.
Definition demo_closed : DemoStream := (run_op OpShutdown demo_read).2.

(** A stream whose send window is used up and whose writer is parked. *)
Definition demo_parked : DemoStream :=
  mkStream 1 Established INITIAL_STREAM_WINDOW INITIAL_STREAM_WINDOW 0 []
    demo_sender demo_receiver (Some 3%nat) None [].
Definition demo_credit : DemoStream :=
  set_frame_receiver (mkReceiver [new_window_update 0 1 5] true false)
    (set_event_sender demo_sender demo_parked).

Lemma demo_frames_sane : Forall sane_frame demo_frames.
Proof. repeat constructor; done. Qed.

Lemma demo_reaches allowed :
  (∀ op, allowed op) → rtc (sstep allowed) demo_stream demo_closed.
Proof.
  intros Hall. rw /demo_closed. apply (rtc_r _ demo_read); [|by apply step_op].
  rw /demo_read. apply (rtc_r _ demo_delivered); [|by apply step_op].
  rw /demo_delivered. apply (rtc_r _ demo_opened); [|apply step_session; auto using demo_frames_sane].
  rw /demo_opened. apply rtc_once. by apply step_op.
Qed.

Lemma stream_windows_invariant_witness :
  0 ≤ recv_window demo_closed ∧
  recv_window demo_closed + buf_len (read_buf demo_closed) ≤ INITIAL_STREAM_WINDOW ∧
  is_u32 (send_window demo_closed) ∧ Forall (λ b, b ≠ []) (read_buf demo_closed) ∧
  (writeable_wake demo_closed ≠ None → send_window demo_closed = 0) ∧
  (∀ op r h'', es_is_closed (unbound_event_sender demo_closed) = false → run_op op demo_closed = (r, h'') →
    r ≠ Panic ∧ pays demo_closed r h'').
Proof.
  apply (stream_windows_invariant 1 demo_sender demo_receiver Init INITIAL_STREAM_WINDOW
    demo_stream (λ _, True)).
  - reflexivity.
  - lia.
  - by vm_compute.
  - constructor.
  - by apply demo_reaches.
Defined.

Lemma demo_delivered_wf : wf_stream demo_delivered.
Proof. split; [by vm_compute..|constructor|apply demo_frames_sane|done]. Qed.

Lemma stream_delivers_in_order_witness :
  [x0a; x0b] ++ concat (read_buf demo_read) ++ data_of (fr_queue (frame_receiver demo_read)) =
  concat (read_buf demo_delivered) ++ data_of (fr_queue (frame_receiver demo_delivered) ++ []).
Proof.
  apply (stream_delivers_in_order demo_delivered [x0a; x0b] [] demo_read).
  - apply demo_delivered_wf.
  - apply (srun_op _ [] [] demo_delivered (OpRead 7 2) [x0a; x0b]); [apply srun_start|].
    vm_compute. reflexivity.
Defined.

Lemma stream_op_accounting_witness :
  (Ok [x0a; x0b] : Res io.ErrorKind bytes) ≠ Panic ∧ ∃ cs bad new,
    fr_queue (frame_receiver demo_delivered) =
      cs ++ option_list bad ++ fr_queue (frame_receiver demo_read) ∧
    es_log (unbound_event_sender demo_read) = es_log (unbound_event_sender demo_delivered) ++ new ∧
    recv_window demo_read + length (data_of cs) = recv_window demo_delivered + credit_of (frames_of new) ∧
    send_window demo_read + length (data_of (frames_of new)) = send_window demo_delivered + credit_of cs ∧
    bad = None.
Proof.
  apply (stream_op_accounting (OpRead 7 2) demo_delivered (Ok [x0a; x0b]) demo_read).
  - apply demo_delivered_wf.
  - reflexivity.
  - vm_compute. reflexivity.
Defined.

Lemma no_data_after_fin_witness : quiet_after_fin (es_log (unbound_event_sender demo_closed)).
Proof.
  apply (no_data_after_fin 1 demo_sender demo_receiver Init INITIAL_STREAM_WINDOW
    demo_stream (λ _, True)).
  - reflexivity.
  - lia.
  - by vm_compute.
  - constructor.
  - reflexivity.
  - reflexivity.
  - by apply demo_reaches.
Defined.

Lemma no_lost_writer_wakeup_witness :
  3%nat ∈ woken (run_op (OpRead 8 1) demo_credit).2 ∨
  writeable_wake (run_op (OpRead 8 1) demo_credit).2 = Some 3%nat ∧
  send_window (run_op (OpRead 8 1) demo_credit).2 = 0.
Proof.
  apply (no_lost_writer_wakeup 3 demo_parked).
  - split; [by vm_compute..|constructor|constructor|done].
  - reflexivity.
  - apply (rtc_r _ demo_credit); [|by apply step_op]. apply rtc_once. apply step_session; auto.
    repeat constructor; done.
Defined.

Lemma poll_write_behaviour_witness :
  ∃ cs bad new,
    fr_queue (frame_receiver demo_credit) = cs ++ option_list bad ++
      fr_queue (frame_receiver (poll_write 3 [x01; x02] demo_credit).2) ∧
    es_log (unbound_event_sender (poll_write 3 [x01; x02] demo_credit).2) =
      es_log (unbound_event_sender demo_credit) ++ new ∧
    let window := send_window demo_credit + credit_of cs in
    0 < window ∧ 2%nat = Nat.min (Z.to_nat window) 2 ∧
    data_of (frames_of new) = take 2 [x01; x02] ∧
    send_window (poll_write 3 [x01; x02] demo_credit).2 = window - 2%nat ∧
    closed_for_write (state (poll_write 3 [x01; x02] demo_credit).2) = false.
Proof.
  apply (poll_write_behaviour 3 [x01; x02] demo_credit (Ok (Ready 2%nat))).
  - split; [by vm_compute..|constructor|by repeat constructor|done].
  - vm_compute. reflexivity.
Defined.

Lemma peek_shows_next_read_witness :
  (∃ rest, concat (read_buf (poll_peek 7 2 demo_delivered).2) = [x0a; x0b] ++ rest) ∧
  ((poll_read 7 2 demo_delivered).1 = Ok (Ready [x0a; x0b]) ∨
   (poll_read 7 2 demo_delivered).1 = Err io.BrokenPipe).
Proof.
  apply (peek_shows_next_read 7 2 demo_delivered [x0a; x0b]).
  - apply demo_delivered_wf.
  - vm_compute. reflexivity.
Defined.

Lemma recv_frames_terminates_witness :
  recv_all fr_poll_next false demo_delivered =
  (st ← gets state;
   match st with
   | RemoteClosing => throw SubStreamRemoteClosing
   | Reset | Closed => throw SessionShutdown
   | _ => recv_round fr_poll_next false
   end) demo_delivered.
Proof. apply recv_frames_terminates. by left. Defined.

Lemma drop_notifies_session_witness :
  (Ok () : Res Error unit) = Ok () ∧
  es_log (unbound_event_sender (drop_stream demo_read : Res Error unit * _).2) =
    es_log (unbound_event_sender demo_read) ++ drop_events demo_read.
Proof. apply drop_notifies_session. vm_compute. reflexivity. Defined.
