(* ===== verification/YamuxFlow.v ===== *)
(** * Yamux flow control between two endpoints

    Two streams of [YamuxStream] joined by two FIFO links, as two sessions and
    a connection join them: what one endpoint sends travels, in order, into the
    other's frame channel.  The windows of the two sides stay in balance, so
    conforming endpoints never overrun each other and never report a protocol
    error. *)
From S2P Require Import Prelude YamuxFrame YamuxStream YamuxStreamFacts.

(** The frames a session passes to a stream. *)
Definition stream_frame (f : Frame) : Prop := frame_ty f = Data ∨ frame_ty f = WindowUpdate.

(** What a stream tells its session in normal operation: well-formed stream
    frames and its end, never [EvGoAway]. *)
Definition ok_event (ev : StreamEvent) : Prop :=
  match ev with
  | EvFrame f => sane_frame f ∧ stream_frame f
  | EvClosed _ => True
  | EvGoAway => False
  end.

Lemma ok_events_frames evs :
  Forall ok_event evs → Forall (λ f, sane_frame f ∧ stream_frame f) (frames_of evs).
Proof.
  induction 1 as [|ev evs Hev _ IH]; [constructor|]. destruct ev; simpl in *; [by constructor|done..].
Qed.

Lemma ok_event_window_update fl sid delta : is_u32 delta → ok_event (EvFrame (new_window_update fl sid delta)).
Proof. intros. split; [by split|by right]. Qed.

Lemma ok_event_data fl sid data : is_u32 (length data) → ok_event (EvFrame (new_data fl sid data)).
Proof.
  intros Hd. assert (frame_length (new_data fl sid data) = length data) as Hl.
  { rw /frame_length /new_data /=. by apply as_u32_small. }
  split; [|by left]. split; [by rw Hl|done].
Qed.

Section flow.
Context {R T : Type} `{!FrameReceiver R, !EventSender T}.
Context `{!FrameReceiverLaws R, !EventSenderLaws T}.
Abbreviation Stream := (StreamHandle R T).
Implicit Types h : Stream.
Abbreviation queue h := (fr_queue (frame_receiver h)).
Abbreviation sent h := (es_log (unbound_event_sender h)).

(** The frames in a stream's channel fit its windows. *)
Record flow_ok (h : Stream) : Prop := {
  fo_data : length (data_of (queue h)) ≤ recv_window h;
  fo_credit : send_window h + credit_of (queue h) ≤ u32_max;
  fo_frames : Forall stream_frame (queue h);
}.

Lemma credit_of_nonneg fs : Forall sane_frame fs → 0 ≤ credit_of fs.
Proof.
  induction 1 as [|f fs [Hf _] _ IH]; simpl; [done|]. rw /frame_credit.
  unfold_int. destruct (frame_ty f); lia.
Qed.

(** A frame that fits is accepted. *)
Lemma handle_frame_flow f h :
  sane_frame f → stream_frame f → live (state h) = true →
  length (frame_data f) ≤ recv_window h → send_window h + frame_credit f ≤ u32_max →
  wp (handle_frame f) (λ r _, r = Ok ()) h.
Proof.
  intros [Hlen Hdata] Hty Hl Hr Hs. rw /handle_frame /frame_credit in Hs |- *.
  destruct Hty as [Hty|Hty]; rw Hty in Hs |- *.
  - specialize (Hdata Hty). rw /handle_data. apply wp_bind, wp_process_flags; [done|].
    intros st _. apply wp_bind, wp_gets. simpl.
    destruct (Z.ltb_spec (recv_window h) (frame_length f)); [lia|]. wp_steps; done.
  - rw /handle_window_update /wake_writeable. apply wp_bind, wp_process_flags; [done|].
    intros st _. apply wp_bind, wp_gets. simpl.
    destruct (u32_checked_add _ _) eqn:Hc; [wp_steps; done|].
    rw /u32_checked_add in Hc. destruct (Z.leb_spec (send_window h + frame_length f) u32_max); [done|lia].
Qed.

Lemma received_flow h0 f h rx :
  flow_ok h0 → queue h0 = f :: fr_queue rx → frame_receiver h = rx →
  received (set_frame_receiver rx h0) [f] h → flow_ok h.
Proof.
  intros [Hd Hc Hf] Hq Hrx Hr. pose proof (rc_recv _ _ _ Hr) as Hrw.
  pose proof (rc_send _ _ _ Hr) as Hsw.
  rw Hq in Hd Hc Hf. apply Forall_cons in Hf as [_ ?].
  split; rw Hrx //; rw /data_of /credit_of /= ?length_app in Hd Hrw Hc Hsw;
    rw /data_of /credit_of; simpl in *; lia.
Qed.

Lemma flow_ok_idle h rx :
  flow_ok h → queue h = [] → fr_queue rx = [] → flow_ok (set_frame_receiver rx h).
Proof. intros [Hd Hc Hf] Hq Hrx. split; rw /= Hrx; by rw Hq in Hd Hc Hf. Qed.

Lemma wf_pop h f rx :
  wf_stream h → queue h = f :: fr_queue rx → wf_stream (set_frame_receiver rx h) ∧ sane_frame f.
Proof.
  intros Hwf Hq. pose proof (wf_queue _ Hwf) as Hs. rw Hq in Hs. apply Forall_cons in Hs as [? ?].
  split; [|done]. by destruct Hwf; split.
Qed.

(** With frames that fit, the receive loop meets no protocol error. *)
Lemma recv_all_flow next b h0 :
  takes_oldest next → wf_stream h0 → flow_ok h0 →
  wp (recv_all next b) (λ r h, is_protocol_error (forget r) = false ∧
    unbound_event_sender h = unbound_event_sender h0) h0.
Proof.
  intros Hnext Hwf0 Hflow0. eapply wp_mono.
  - apply (recv_all_rule next
      (λ h, wf_stream h ∧ flow_ok h ∧ unbound_event_sender h = unbound_event_sender h0)
      (λ e h, is_protocol_error (Err e) = false ∧ unbound_event_sender h = unbound_event_sender h0)); try done.
    + intros h (_ & _ & ?) _. by case_decide.
    + intros h rx (Hwf & Hf & ?) _ Hq Hrx _. split_and!; [|by apply flow_ok_idle|done].
      destruct Hwf; split; try done. by rw /= Hrx.
    + intros h (_ & _ & ?) _ _ _. done.
    + intros h f rx (Hwf & Hf & Hs) Hl Hq _. destruct (wf_pop _ _ _ Hwf Hq) as [Hwf1 Hsane].
      pose proof Hf as [Hd Hc Hfs]. rw Hq in Hd Hc Hfs. apply Forall_cons in Hfs as [Hsf _].
      pose proof (wf_queue _ Hwf1) as Hqs. simpl in Hqs. apply credit_of_nonneg in Hqs.
      assert (length (frame_data f) ≤ recv_window h) by (rw /data_of /= length_app in Hd; lia).
      assert (send_window h + frame_credit f ≤ u32_max) by (simpl in Hc; lia).
      pose proof (handle_frame_flow f (set_frame_receiver rx h) Hsane Hsf Hl ltac:(done) ltac:(done)) as Hok.
      pose proof (handle_frame_spec f (set_frame_receiver rx h) Hsane (wf_recv_u32 _ Hwf1) (wf_send _ Hwf1) Hl) as Hrec.
      pose proof (handle_frame_receiver rx f (set_frame_receiver rx h) eq_refl) as Hrx.
      rw /wp in Hok Hrec |- *. rw Hok in Hrec |- *. simpl in *.
      split_and!; [| |by rw (rc_sender _ _ _ Hrec)].
      * eapply received_wf; [done..|]. rw Hrx. apply Hwf1.
      * by eapply received_flow.
  - intros [x|e|] h Hp; [|done..]. by destruct Hp as (_ & _ & ?).
Qed.

(** ** Nothing but well-formed stream frames is sent *)

Definition ok_log (h : Stream) : Prop := Forall ok_event (sent h).

Lemma ok_log_send_raw {E} ev : ok_event ev → preserves ok_log (send_raw ev : M Stream E bool).
Proof.
  intros Hev h Hh. pose proof (es_send_log (unbound_event_sender h) ev) as Hlog.
  rw /send_raw /ok_log. destruct (es_send _ _) as [[] es]; rw /= in Hlog |- *; rw Hlog //.
  apply Forall_app. split; [done|by apply Forall_singleton].
Qed.

Lemma ok_log_modify {E} (g : Stream → Stream) :
  (∀ h, unbound_event_sender (g h) = unbound_event_sender h) →
  preserves ok_log (modify g : M Stream E unit).
Proof. intros Hg. apply preserves_modify. intros h. by rw /ok_log Hg. Qed.

Lemma ok_log_sender h h' :
  unbound_event_sender h' = unbound_event_sender h → ok_log h → ok_log h'.
Proof. by rw /ok_log => ->. Qed.

Ltac ok_log := preserves; try (by apply ok_log_modify); try (by apply ok_log_send_raw).

Lemma ok_log_get_flags {E} : preserves ok_log (get_flags : M Stream E Flags).
Proof. rw /get_flags. ok_log. Qed.

Lemma ok_log_send_window_update : preserves ok_log send_window_update.
Proof.
  rw /send_window_update /unbound_send_event. ok_log; [apply ok_log_get_flags|].
  apply ok_log_send_raw, ok_event_window_update, as_u32_range.
Qed.

Lemma ok_log_send_data data : is_u32 (length data) → preserves ok_log (send_data data).
Proof.
  intros. rw /send_data /unbound_send_frame /unbound_send_event. ok_log; [apply ok_log_get_flags|].
  by apply ok_log_send_raw, ok_event_data.
Qed.

Lemma ok_log_close : preserves ok_log close.
Proof.
  rw /close /send_close /unbound_send_frame /unbound_send_event.
  ok_log; try apply ok_log_get_flags;
    (apply ok_log_send_raw, ok_event_window_update; by vm_compute).
Qed.

Lemma ok_log_poll_fill w h :
  wf_stream h → flow_ok h → wp (poll_fill w) (λ _ h', unbound_event_sender h' = unbound_event_sender h) h.
Proof.
  intros Hwf Hflow. rw /poll_fill. apply wp_bind, wp_check_self_state; [done|intros; by apply wp_ret|].
  intros _. apply wp_bind, wp_modify, wp_bind, wp_try.
  eapply wp_mono; [apply recv_all_flow; [apply fr_poll_next_fifo|by eapply same_windows_wf|by destruct Hflow]|].
  intros r h' [He Hs]. destruct r as [b|e|]; [| |done]; rw He;
    (apply wp_bind, wp_check_self_state; [done|intros; by apply wp_ret|]); intros _; wp_steps; done.
Qed.

Lemma ok_log_poll_read w n h :
  wf_stream h → flow_ok h → ok_log h → wp (poll_read w n) (λ _ h', ok_log h') h.
Proof.
  intros Hwf Hflow Hlog. rw /poll_read. apply wp_bind.
  eapply wp_mono; [by apply ok_log_poll_fill|].
  intros [[p|]|e|] h' Hs; [apply wp_ret|..]; try by eapply ok_log_sender.
  assert (preserves ok_log (bufs ← gets read_buf;
      let '(out, bufs', offset) := read_loop 0 n bufs None in
      modify (set_read_buf (drain_to offset bufs'));;
      st ← gets state;
      match st with
      | RemoteClosing | Closed | Reset => mret ()
      | _ =>
        r ← try_catch send_window_update;
        match r with Ok _ => mret () | Err _ => throw io.BrokenPipe | Panic => panic end
      end;;
      mret (Ready out))) as Hrest.
  { ok_log; apply ok_log_send_window_update. }
  apply Hrest. by eapply ok_log_sender.
Qed.

Lemma recv_frames_wake_flow h :
  wf_stream h → flow_ok h →
  wp recv_frames_wake (λ r h', is_protocol_error r = false ∧
    unbound_event_sender h' = unbound_event_sender h) h.
Proof.
  intros Hwf Hflow. rw /recv_frames_wake. apply wp_bind, wp_gets, wp_bind, wp_gets, wp_bind, wp_try.
  eapply wp_mono; [by apply recv_all_flow; [apply fr_try_recv_fifo|..]|].
  intros r h1 [He Hs].
  assert (Hw : ∀ b (Q : Res Error unit → Stream → Prop),
    (∀ h2, unbound_event_sender h2 = unbound_event_sender h1 → Q (Ok ()) h2) →
    wp (when b wake_readable) Q h1).
  { intros [] Q HQ; [|by apply HQ]. rw /when /wake_readable. apply wp_modify.
    by destruct (readable_wake h1); apply HQ. }
  destruct r as [b|e|]; [| |done]; apply wp_bind, wp_gets, wp_bind, wp_gets.
  - apply Hw. intros h2 ->. done.
  - apply wp_bind, Hw. intros h2 Hs2. apply wp_throw. by rw Hs2.
Qed.

Lemma ok_log_poll_write w buf h :
  wf_stream h → flow_ok h → ok_log h → wp (poll_write w buf) (λ _ h', ok_log h') h.
Proof.
  intros Hwf Hflow Hlog. eapply wp_eq; [apply poll_write_unfold|]. apply wp_bind, wp_try_ok.
  eapply wp_mono; [apply wp_and; [by apply recv_frames_wake_flow|by apply recv_frames_wake_spec]|].
  intros r h1 [[He Hsd] Hs]. pose proof (recv_post_wf _ _ _ Hwf Hs) as Hwf1.
  split; [intros ->; by destruct Hs as (? & ? & ? & ? & ?)|]. rw He.
  assert (Hlog1 : ok_log h1) by by eapply ok_log_sender.
  apply wp_bind, wp_ret, wp_bind, wp_gets.
  destruct (closed_for_write (state h1)); [by apply wp_throw|].
  rw /write_out. apply wp_bind, wp_gets. pose proof (wf_send _ Hwf1).
  set (n := Nat.min (Z.to_nat (send_window h1)) (length buf)).
  assert (preserves ok_log (send_data (take n buf))) as Hsend.
  { apply ok_log_send_data. rw length_take. unfold_int. lia. }
  apply wp_preserves; [|done]. destruct (_ =? 0); ok_log; exact Hsend.
Qed.

Lemma ok_log_run_op op h :
  wf_stream h → flow_ok h → ok_log h → wp (run_op op) (λ _ h', ok_log h') h.
Proof.
  intros Hwf Hflow Hlog. destruct op as [|w n|w n|w buf| |]; rw /run_op; apply wp_bind.
  - apply wp_map_err. eapply wp_mono; [by apply wp_preserves; [apply ok_log_send_window_update|]|].
    by intros [].
  - eapply wp_mono; [by apply ok_log_poll_read|]. by intros [].
  - rw /poll_peek. apply wp_bind. eapply wp_mono; [by apply ok_log_poll_fill|].
    intros [[]| |] ??; wp_steps; by eapply ok_log_sender.
  - eapply wp_mono; [by apply ok_log_poll_write|]. by intros [].
  - done.
  - rw /poll_shutdown. apply wp_bind, wp_try.
    eapply wp_mono; [by apply wp_preserves; [apply ok_log_close|]|].
    intros [] ??; wp_steps; done.
Qed.

(** An operation on a stream whose queue fits rejects no frame. *)
Lemma run_op_flow op h :
  wf_stream h → flow_ok h → ok_log h → es_is_closed (unbound_event_sender h) = false →
  let h' := (run_op op h).2 in
  wf_stream h' ∧ ok_log h' ∧ es_is_closed (unbound_event_sender h') = false ∧
  ∃ cs new, queue h = cs ++ queue h' ∧ acct h cs new h'.
Proof.
  intros Hwf Hflow Hlog Ho h'. pose proof (ok_log_run_op op h Hwf Hflow Hlog) as Hlog'.
  destruct (run_op_spec op h Hwf) as (Hwf' & cs & bad & new & Hq & Hac & Hr).
  pose proof (ac_closed _ _ _ _ Hac) as Hc. rw Ho in Hc.
  assert (bad = None) as ->.
  { assert (bad = None ∨ EvGoAway ∈ sent h') as [|Hin]; [|done|].
    - rw /h' (ac_sent _ _ _ _ Hac). destruct (run_op op h).1; [by destruct Hr; left| |done].
      destruct Hr as [|Hr]; [by left|]. right. apply elem_of_app. right. by apply Hr.
    - change (Forall ok_event (sent h')) in Hlog'. by apply (proj1 (Forall_forall _ _) Hlog') in Hin. }
  split_and!; try done. by exists cs, new.
Qed.

(** ** Two endpoints *)

(** Two streams and the frames travelling between them, oldest first. *)
Record Duplex := mkDuplex {
  near : Stream;
  far : Stream;
  to_far : list Frame;
  to_near : list Frame;
}.

Definition swap (d : Duplex) : Duplex := mkDuplex (far d) (near d) (to_near d) (to_far d).

(** Either side performs an operation, whose frames enter its link, or the
    oldest frame of a link arrives in the other side's channel. *)
Inductive dstep : Duplex → Duplex → Prop :=
| dstep_op op d new :
    sent (run_op op (near d)).2 = sent (near d) ++ new →
    dstep d (mkDuplex (run_op op (near d)).2 (far d) (to_far d ++ frames_of new) (to_near d))
| dstep_deliver d f fs rx :
    to_far d = f :: fs → fr_queue rx = queue (far d) ++ [f] →
    dstep d (mkDuplex (near d) (set_frame_receiver rx (far d)) fs (to_near d))
| dstep_swap d d' : dstep d d' → dstep (swap d) (swap d').

(** What [h] may still send, what is underway from it and the credit underway
    to it add up to the peer's receive window. *)
Definition balanced (h : Stream) (out : list Frame) (back : list Frame) (peer : Stream) : Prop :=
  send_window h + length (data_of (queue peer ++ out)) + credit_of (queue h ++ back) = recv_window peer.

Record side_ok (h : Stream) (out : list Frame) : Prop := {
  so_wf : wf_stream h;
  so_log : ok_log h;
  so_open : es_is_closed (unbound_event_sender h) = false;
  so_queue : Forall stream_frame (queue h);
  so_out : Forall (λ f, sane_frame f ∧ stream_frame f) out;
}.

Record duplex_ok (d : Duplex) : Prop := {
  do_near : side_ok (near d) (to_far d);
  do_far : side_ok (far d) (to_near d);
  do_out : balanced (near d) (to_far d) (to_near d) (far d);
  do_back : balanced (far d) (to_near d) (to_far d) (near d);
}.

Lemma duplex_ok_swap d : duplex_ok d → duplex_ok (swap d).
Proof. by intros []; split. Qed.

Lemma credit_out_nonneg fs : Forall (λ f, sane_frame f ∧ stream_frame f) fs → 0 ≤ credit_of fs.
Proof. intros. apply credit_of_nonneg. eapply Forall_impl; [done|]. by intros ? []. Qed.

Lemma duplex_flow d : duplex_ok d → flow_ok (near d).
Proof.
  intros [[Hwf _ _ Hq Ho] [Hwf' _ _ Hq' Ho'] Hout Hback]. split; [| |done].
  - rw /balanced data_of_app credit_of_app length_app in Hback.
    pose proof (credit_out_nonneg _ Ho). pose proof (credit_of_nonneg _ (wf_queue _ Hwf')).
    pose proof (wf_send _ Hwf'). unfold_int. lia.
  - rw /balanced data_of_app credit_of_app length_app in Hout.
    pose proof (credit_out_nonneg _ Ho'). pose proof (wf_recv_u32 _ Hwf'). unfold_int. lia.
Qed.

Lemma duplex_op op d new :
  duplex_ok d → sent (run_op op (near d)).2 = sent (near d) ++ new →
  duplex_ok (mkDuplex (run_op op (near d)).2 (far d) (to_far d ++ frames_of new) (to_near d)).
Proof.
  intros Hd Hnew. pose proof (duplex_flow _ Hd) as Hflow.
  destruct Hd as [[Hwf Hlog Hopen Hq Ho] Hfar Hout Hback].
  destruct (run_op_flow op (near d)) as (Hwf' & Hlog' & Hopen' & cs & new' & Hq' & Hac); [done..|].
  pose proof (ac_sent _ _ _ _ Hac) as Hs. rw Hnew in Hs. apply app_inv_head in Hs as <-.
  pose proof (ac_recv _ _ _ _ Hac Hopen) as Hrecv. pose proof (ac_send _ _ _ _ Hac) as Hsend.
  split; [|done|..]; simpl.
  - split; try done.
    + rw Hq' in Hq. by apply Forall_app in Hq as [_ ?].
    + apply Forall_app. split; [done|]. apply ok_events_frames.
      rw /ok_log Hnew in Hlog'. by apply Forall_app in Hlog' as [_ ?].
  - rw /balanced /= Hq' !data_of_app !credit_of_app !length_app in Hout |- *. lia.
  - rw /balanced /= Hq' !data_of_app !credit_of_app !length_app in Hback |- *. lia.
Qed.

Lemma duplex_deliver d f fs rx :
  duplex_ok d → to_far d = f :: fs → fr_queue rx = queue (far d) ++ [f] →
  duplex_ok (mkDuplex (near d) (set_frame_receiver rx (far d)) fs (to_near d)).
Proof.
  intros [[Hwf Hlog Hopen Hq Ho] [Hwf' Hlog' Hopen' Hq' Ho'] Hout Hback] Hfs Hrx.
  rw Hfs in Ho Hout Hback. apply Forall_cons in Ho as [[Hsane Hsf] Ho].
  split; simpl; [by split| |..].
  - split; simpl; try done; [|rw Hrx; by apply Forall_app; split; [|apply Forall_singleton]].
    destruct Hwf'; split; simpl; try done. rw Hrx. by apply Forall_app; split; [|apply Forall_singleton].
  - rw /balanced /= Hrx -app_assoc in Hout |- *. done.
  - rw /balanced /= Hrx -app_assoc in Hback |- *. done.
Qed.

Lemma dstep_ok d d' : dstep d d' → duplex_ok d → duplex_ok d'.
Proof.
  induction 1 as [op d new Hnew|d f fs rx Hfs Hrx|d d' _ IH]; intros Hd.
  - by apply duplex_op.
  - by eapply duplex_deliver.
  - apply duplex_ok_swap, IH. apply duplex_ok_swap in Hd. by destruct d.
Qed.

Lemma reachable_duplex d d' : duplex_ok d → rtc dstep d d' → duplex_ok d'.
Proof. intros Hd Hs. induction Hs; eauto using dstep_ok. Qed.

(** Two streams just created, with nothing underway. *)
Definition fresh_pair (h1 h2 : Stream) : Prop :=
  ∃ id1 id2 es1 es2 rx1 rx2 st1 st2 mw1 mw2,
    stream_new id1 es1 rx1 st1 mw1 = Ok h1 ∧ stream_new id2 es2 rx2 st2 mw2 = Ok h2 ∧
    INITIAL_STREAM_WINDOW ≤ mw1 ∧ is_u32 mw1 ∧ INITIAL_STREAM_WINDOW ≤ mw2 ∧ is_u32 mw2 ∧
    fr_queue rx1 = [] ∧ fr_queue rx2 = [] ∧ es_log es1 = [] ∧ es_log es2 = [] ∧
    es_is_closed es1 = false ∧ es_is_closed es2 = false.

Lemma fresh_side sid es rx st mw h :
  stream_new sid es rx st mw = Ok h → INITIAL_STREAM_WINDOW ≤ mw → is_u32 mw →
  fr_queue rx = [] → es_log es = [] → es_is_closed es = false →
  side_ok h [] ∧ queue h = [] ∧ send_window h = INITIAL_STREAM_WINDOW ∧
  recv_window h = INITIAL_STREAM_WINDOW.
Proof.
  intros Hnew ?? Hq Hlog Ho. assert (wf_stream h) by (eapply stream_new_wf; try done; by rw Hq).
  rw /stream_new in Hnew. case_bool_decide; simplify_eq. split_and!; try done.
  split; rw /ok_log //= ?Hlog ?Hq; constructor.
Qed.

Lemma fresh_duplex h1 h2 : fresh_pair h1 h2 → duplex_ok (mkDuplex h1 h2 [] []).
Proof.
  intros (id1 & id2 & es1 & es2 & rx1 & rx2 & st1 & st2 & mw1 & mw2 & H1 & H2 & H). destruct_and! H.
  destruct (fresh_side _ _ _ _ _ _ H1) as (? & Hq1 & Hs1 & Hr1); [done..|].
  destruct (fresh_side _ _ _ _ _ _ H2) as (? & Hq2 & Hs2 & Hr2); [done..|].
  split; simpl; try done; rw /balanced Hq1 Hq2 ?Hs1 ?Hr2 ?Hs2 ?Hr1; cbn; lia.
Qed.

(** ** Properties *)

(** C4. Flow control is sound end to end: two freshly created streams joined by
    FIFO links keep, under any interleaving of operations and deliveries, the
    balance between what one side may send, what is underway and what the other
    side accepts. *)
Theorem flow_control_balance h1 h2 d :
  fresh_pair h1 h2 → rtc dstep (mkDuplex h1 h2 [] []) d →
  balanced (near d) (to_far d) (to_near d) (far d) ∧
  balanced (far d) (to_near d) (to_far d) (near d).
Proof. intros Hf Hs. by destruct (reachable_duplex _ _ (fresh_duplex _ _ Hf) Hs). Qed.

(** C5. Conforming endpoints never provoke a protocol error: in such a system
    no stream ever asks its session to go away, every frame underway is a
    well-formed stream frame, and the next operation, whichever it is, does not
    reject a frame or ask for it either. *)
Theorem conforming_peers_no_protocol_error h1 h2 d op :
  fresh_pair h1 h2 → rtc dstep (mkDuplex h1 h2 [] []) d →
  EvGoAway ∉ sent (near d) ∧ EvGoAway ∉ sent (far d) ∧
  EvGoAway ∉ sent (run_op op (near d)).2 ∧
  (∃ cs, queue (near d) = cs ++ queue (run_op op (near d)).2) ∧
  Forall (λ f, sane_frame f ∧ stream_frame f) (to_far d ++ to_near d).
Proof.
  intros Hf Hs. pose proof (reachable_duplex _ _ (fresh_duplex _ _ Hf) Hs) as Hd.
  pose proof (duplex_flow _ Hd) as Hflow. destruct Hd as [[] [] _ _].
  destruct (run_op_flow op (near d)) as (_ & Hlog & _ & cs & _ & Hq & _); [done..|].
  assert (Hno : ∀ h, ok_log h → EvGoAway ∉ sent h).
  { intros h Hh Hin. by apply (proj1 (Forall_forall _ _) Hh) in Hin. }
  split_and!; auto; [by exists cs|]. by apply Forall_app.
Qed.
End flow.

(** ** A concrete exchange *)

Definition pair_near : DemoStream := demo_stream.
Definition pair_far : DemoStream :=
  mkStream 1 SynReceived INITIAL_STREAM_WINDOW INITIAL_STREAM_WINDOW INITIAL_STREAM_WINDOW []
    demo_sender demo_receiver None None [].

Lemma demo_fresh : fresh_pair pair_near pair_far.
Proof.
  exists 1, 1, demo_sender, demo_sender, demo_receiver, demo_receiver, Init, SynReceived,
    INITIAL_STREAM_WINDOW, INITIAL_STREAM_WINDOW. split_and!; done.
Qed.

(** The near side opens the stream and its [Syn] arrives. *)
Definition demo_duplex_1 : Duplex (R:=ListReceiver) (T:=ListSender) :=
  mkDuplex (run_op OpInit pair_near).2 pair_far [new_window_update (flags_from Syn) 1 0] [].
Definition demo_duplex : Duplex (R:=ListReceiver) (T:=ListSender) :=
  mkDuplex (run_op OpInit pair_near).2
    (set_frame_receiver (mkReceiver [new_window_update (flags_from Syn) 1 0] true false) pair_far) [] [].

Lemma demo_duplex_reached : rtc dstep (mkDuplex pair_near pair_far [] []) demo_duplex.
Proof.
  apply (rtc_r _ demo_duplex_1).
  - apply rtc_once. by apply (dstep_op OpInit (mkDuplex pair_near pair_far [] [])
      [EvFrame (new_window_update (flags_from Syn) 1 0)]).
  - by eapply (dstep_deliver demo_duplex_1).
Qed.

Lemma flow_control_balance_witness :
  balanced (near demo_duplex) (to_far demo_duplex) (to_near demo_duplex) (far demo_duplex) ∧
  balanced (far demo_duplex) (to_near demo_duplex) (to_far demo_duplex) (near demo_duplex).
Proof. apply (flow_control_balance pair_near pair_far); [apply demo_fresh|apply demo_duplex_reached]. Defined.

Lemma conforming_peers_no_protocol_error_witness :
  let h := (run_op (OpWrite 1 [x01]) (near demo_duplex)).2 in
  EvGoAway ∉ es_log (unbound_event_sender (near demo_duplex)) ∧
  EvGoAway ∉ es_log (unbound_event_sender (far demo_duplex)) ∧
  EvGoAway ∉ es_log (unbound_event_sender h) ∧
  (∃ cs, fr_queue (frame_receiver (near demo_duplex)) = cs ++ fr_queue (frame_receiver h)) ∧
  Forall (λ f, sane_frame f ∧ stream_frame f) (to_far demo_duplex ++ to_near demo_duplex).
Proof.
  apply (conforming_peers_no_protocol_error pair_near pair_far demo_duplex (OpWrite 1 [x01]));
    [apply demo_fresh|apply demo_duplex_reached].
Defined.
