(* ===== verification/YamuxSession.v ===== *)
(** * Yamux sessions

    Models [yamux/src/session.rs] (and the commands of [control.rs] and the
    settings of [config.rs]): stream creation, frame distribution, pings,
    go-away handling, and the session's poll loop.

    Everything outside the crate is behind the class [World]: the framed
    connection ([tokio_util::codec::Framed] over [FrameCodec]), the [mpsc] and
    [oneshot] channels of [futures], the interval timer and the clock.  The
    session holds the world in its [world] field; the halves of a channel are
    identified by a [Chan].  Instants and durations are in nanoseconds. *)
From S2P Require Import Prelude YamuxFrame YamuxStream.

(** ** Settings *)

Record Config := mkConfig {
  accept_backlog : Z;
  enable_keepalive : bool;
  keepalive_interval : Z;
  connection_write_timeout : Z;
  max_stream_count : Z;
  max_stream_window_size : Z;
}.

Definition from_secs (s : Z) : Z := s * 10 ^ 9.
Definition DEFAULT_ACCEPT_BACKLOG : Z := 256.
Definition DEFAULT_MAX_STREAM_COUNT : Z := 65535.
Definition config_default : Config :=
  mkConfig DEFAULT_ACCEPT_BACKLOG true (from_secs 30) (from_secs 10)
    DEFAULT_MAX_STREAM_COUNT INITIAL_STREAM_WINDOW.

Definition TIMEOUT : Z := from_secs 30.

Inductive SessionType := Client | Server.
#[global] Instance SessionType_eq_dec : EqDecision SessionType.
Proof. solve_decision. Defined.

Definition is_client (t : SessionType) : bool := bool_decide (t = Client).
Definition is_server (t : SessionType) : bool := bool_decide (t = Server).

(** ** The session's environment *)

(** [mpsc::TrySendError]: the channel is full and the frame comes back, or the
    receiver is gone. *)
Inductive SendResult :=
| Sent
| Full (f : Frame)
| Disconnected.

(** A command of a [Control], with the handle its reply goes to. *)
Inductive Command (Reply : Type) :=
| OpenStream (tx : Reply)
| Shutdown (tx : Reply).
Arguments OpenStream {Reply} tx.
Arguments Shutdown {Reply} tx.

Class World (W Chan R T Reply Interval : Type) := {
  (** The framed connection, as a sink and as a stream; [Ready (Some (Err e))]
      of the stream is the error [e]. *)
  framed_poll_ready : M W io.ErrorKind (Poll unit);
  framed_start_send : Frame → M W io.ErrorKind unit;
  framed_poll_flush : M W io.ErrorKind (Poll unit);
  framed_poll_next : M W io.ErrorKind (Poll (option Frame));
  (** [mpsc::channel(n)], and its sender: [Ready true] for [Ready(Ok(()))]. *)
  channel : nat → W → Chan * R * W;
  sender_poll_ready : Chan → W → Poll bool * W;
  sender_try_send : Chan → Frame → W → SendResult * W;
  (** The session's event and control receivers, and command replies. *)
  event_poll_next : W → Poll (option StreamEvent) * W;
  control_poll_next : W → Poll (option (Command Reply)) * W;
  reply_open : Reply → Res Error (StreamHandle R T) → W → W;
  reply_shutdown : Reply → W → W;
  (** The timer, the clock and the waker of the current task. *)
  interval : Z → W → Interval * W;
  interval_poll_next : Interval → W → Poll (option unit) * (Interval * W);
  now : W → Z * W;
  wake_by_ref : W → W;
}.
#[global] Hint Mode World ! - - - - - : typeclass_instances.

(** ** The session *)

Record Session (W Chan R T Interval : Type) := mkSession {
  world : W;
  eof : bool;
  remote_go_away : bool;
  local_go_away : bool;
  next_stream_id : Z;
  sty : SessionType;
  config : Config;
  pings : gmap Z Z;
  ping_id : Z;
  streams : gmap Z Chan;
  pending_streams : list (StreamHandle R T);
  write_pending_frames : list Frame;
  read_pending_frames : list Frame;
  event_sender : T;
  keepalive : option Interval;
}.
Arguments mkSession {W Chan R T Interval}.
Arguments world {W Chan R T Interval}.
Arguments eof {W Chan R T Interval}.
Arguments remote_go_away {W Chan R T Interval}.
Arguments local_go_away {W Chan R T Interval}.
Arguments next_stream_id {W Chan R T Interval}.
Arguments sty {W Chan R T Interval}.
Arguments config {W Chan R T Interval}.
Arguments pings {W Chan R T Interval}.
Arguments ping_id {W Chan R T Interval}.
Arguments streams {W Chan R T Interval}.
Arguments pending_streams {W Chan R T Interval}.
Arguments write_pending_frames {W Chan R T Interval}.
Arguments read_pending_frames {W Chan R T Interval}.
Arguments event_sender {W Chan R T Interval}.
Arguments keepalive {W Chan R T Interval}.

Section setters.
Context {W Chan R T Interval : Type}.
Implicit Types s : Session W Chan R T Interval.

Definition set_world (x : W) s : Session W Chan R T Interval :=
  mkSession x (eof s) (remote_go_away s) (local_go_away s) (next_stream_id s) (sty s) (config s)
    (pings s) (ping_id s) (streams s) (pending_streams s) (write_pending_frames s)
    (read_pending_frames s) (event_sender s) (keepalive s).
Definition set_eof (x : bool) s : Session W Chan R T Interval :=
  mkSession (world s) x (remote_go_away s) (local_go_away s) (next_stream_id s) (sty s)
    (config s) (pings s) (ping_id s) (streams s) (pending_streams s) (write_pending_frames s)
    (read_pending_frames s) (event_sender s) (keepalive s).
Definition set_remote_go_away (x : bool) s : Session W Chan R T Interval :=
  mkSession (world s) (eof s) x (local_go_away s) (next_stream_id s) (sty s) (config s)
    (pings s) (ping_id s) (streams s) (pending_streams s) (write_pending_frames s)
    (read_pending_frames s) (event_sender s) (keepalive s).
Definition set_local_go_away (x : bool) s : Session W Chan R T Interval :=
  mkSession (world s) (eof s) (remote_go_away s) x (next_stream_id s) (sty s) (config s)
    (pings s) (ping_id s) (streams s) (pending_streams s) (write_pending_frames s)
    (read_pending_frames s) (event_sender s) (keepalive s).
Definition set_next_stream_id (x : Z) s : Session W Chan R T Interval :=
  mkSession (world s) (eof s) (remote_go_away s) (local_go_away s) x (sty s) (config s)
    (pings s) (ping_id s) (streams s) (pending_streams s) (write_pending_frames s)
    (read_pending_frames s) (event_sender s) (keepalive s).
Definition set_pings (x : gmap Z Z) s : Session W Chan R T Interval :=
  mkSession (world s) (eof s) (remote_go_away s) (local_go_away s) (next_stream_id s) (sty s)
    (config s) x (ping_id s) (streams s) (pending_streams s) (write_pending_frames s)
    (read_pending_frames s) (event_sender s) (keepalive s).
Definition set_ping_id (x : Z) s : Session W Chan R T Interval :=
  mkSession (world s) (eof s) (remote_go_away s) (local_go_away s) (next_stream_id s) (sty s)
    (config s) (pings s) x (streams s) (pending_streams s) (write_pending_frames s)
    (read_pending_frames s) (event_sender s) (keepalive s).
Definition set_streams (x : gmap Z Chan) s : Session W Chan R T Interval :=
  mkSession (world s) (eof s) (remote_go_away s) (local_go_away s) (next_stream_id s) (sty s)
    (config s) (pings s) (ping_id s) x (pending_streams s) (write_pending_frames s)
    (read_pending_frames s) (event_sender s) (keepalive s).
Definition set_pending_streams (x : list (StreamHandle R T)) s : Session W Chan R T Interval :=
  mkSession (world s) (eof s) (remote_go_away s) (local_go_away s) (next_stream_id s) (sty s)
    (config s) (pings s) (ping_id s) (streams s) x (write_pending_frames s)
    (read_pending_frames s) (event_sender s) (keepalive s).
Definition set_write_pending_frames (x : list Frame) s : Session W Chan R T Interval :=
  mkSession (world s) (eof s) (remote_go_away s) (local_go_away s) (next_stream_id s) (sty s)
    (config s) (pings s) (ping_id s) (streams s) (pending_streams s) x (read_pending_frames s)
    (event_sender s) (keepalive s).
Definition set_read_pending_frames (x : list Frame) s : Session W Chan R T Interval :=
  mkSession (world s) (eof s) (remote_go_away s) (local_go_away s) (next_stream_id s) (sty s)
    (config s) (pings s) (ping_id s) (streams s) (pending_streams s) (write_pending_frames s) x
    (event_sender s) (keepalive s).
Definition set_keepalive (x : option Interval) s : Session W Chan R T Interval :=
  mkSession (world s) (eof s) (remote_go_away s) (local_go_away s) (next_stream_id s) (sty s)
    (config s) (pings s) (ping_id s) (streams s) (pending_streams s) (write_pending_frames s)
    (read_pending_frames s) (event_sender s) x.
End setters.

Section session.
Context {W Chan R T Reply Interval : Type}.
Context `{!FrameReceiver R, !EventSender T, !World W Chan R T Reply Interval}.
Abbreviation Sess := (Session W Chan R T Interval).
Abbreviation Stream := (StreamHandle R T).

(** Access to the environment, for fallible and infallible calls. *)
Definition in_world {A} (m : M W io.ErrorKind A) : M Sess io.ErrorKind A := λ s,
  let '(r, w) := m (world s) in (r, set_world w s).
Definition ask {E A} (f : W → A * W) : M Sess E A := λ s,
  let '(a, w) := f (world s) in (Ok a, set_world w s).
Definition tell {E} (f : W → W) : M Sess E unit := modify (λ s, set_world (f (world s)) s).

(** [Session::new]; [assert!]s the window size. *)
Definition session_new (w : W) (es : T) (cfg : Config) (ty : SessionType) : Res io.ErrorKind Sess :=
  if INITIAL_STREAM_WINDOW <=? max_stream_window_size cfg then
    let next := match ty with Client => 1 | Server => 2 end in
    let '(ka, w) :=
      if enable_keepalive cfg then
        let '(i, w) := interval (keepalive_interval cfg) w in (Some i, w)
      else (None, w) in
    Ok (mkSession w false false false next ty cfg ∅ 0 ∅ [] [] [] es ka)
  else Panic.

Definition is_dead (s : Sess) : bool := remote_go_away s && local_go_away s || eof s.

(** [poll_complete]: [true] when the flush is pending. *)
Definition poll_complete : M Sess io.ErrorKind bool :=
  p ← in_world framed_poll_flush;
  mret (is_pending p).

(** The loop of [send_all]; [true] when the connection cannot take more. *)
Fixpoint send_loop (fuel : nat) : M Sess io.ErrorKind bool :=
  pending ← gets write_pending_frames;
  match pending, fuel with
  | [], _ | _, O => poll_complete;; mret false
  | frame :: rest, S fuel =>
    modify (set_write_pending_frames rest);;
    dead ← gets is_dead;
    if (dead : bool) then poll_complete;; mret false
    else
      p ← in_world framed_poll_ready;
      match p with
      | Ready _ =>
        in_world (framed_start_send frame);;
        send_loop fuel
      | Pending =>
        modify (λ s, set_write_pending_frames (frame :: write_pending_frames s) s);;
        full ← poll_complete;
        if (full : bool) then mret true else send_loop fuel
      end
  end.

(** A frame is retried at most once after a flush: twice as many rounds as
    frames are enough. *)
Definition send_all : M Sess io.ErrorKind bool := λ s,
  send_loop (2 * length (write_pending_frames s)) s.

Definition send_frame (frame : Frame) : M Sess io.ErrorKind unit :=
  modify (λ s, set_write_pending_frames (write_pending_frames s ++ [frame]) s);;
  send_all;;
  mret ().

(** [send_ping]: a reply to [Some id], or a new ping. *)
Definition send_ping (id : option Z) : M Sess io.ErrorKind Z :=
  '(flag, id) ← match id with
                | Some id => mret (Ack, id)
                | None =>
                  modify (λ s, set_ping_id (u32_add (ping_id s) 1) s);;
                  id ← gets ping_id;
                  mret (Syn, id)
                end;
  send_frame (new_ping (flags_from flag) id);;
  mret id.

Definition send_go_away_with_code (code : GoAwayCode) : M Sess io.ErrorKind unit :=
  modify (set_write_pending_frames []);;
  send_frame (new_go_away code);;
  modify (set_local_go_away true);;
  timeout ← gets (λ s, connection_write_timeout (config s));
  new_timer ← ask (interval timeout);
  '(_, new_timer) ← ask (λ w, let '(p, (i, w)) := interval_poll_next new_timer w in ((p, i), w));
  modify (set_keepalive (Some new_timer)).

Definition send_go_away : M Sess io.ErrorKind unit := send_go_away_with_code Normal.

Definition shutdown : M Sess io.ErrorKind unit :=
  dead ← gets is_dead;
  if (dead : bool) then mret ()
  else
    modify (set_write_pending_frames []);;
    send_go_away.

(** The part of [create_stream] after the id is known: a channel, the entry in
    the map, the handle and its first window update. *)
Definition insert_stream (stream_id : Z) (st : StreamState) : M Sess Error Stream :=
  '(frame_sender, frame_receiver) ← ask (channel 8);
  existing ← gets (λ s, streams s !! stream_id);
  match existing with
  | Some _ => throw DuplicateStream
  | None =>
    modify (λ s, set_streams (<[stream_id := frame_sender]> (streams s)) s);;
    es ← gets event_sender;
    mw ← gets (λ s, max_stream_window_size (config s));
    stream ← lift_res (stream_new stream_id es frame_receiver st mw);
    mret (send_window_update stream).2
  end.

(** [create_stream(stream_id)]. *)
Definition create_stream (stream_id : option Z) : M Sess Error Stream :=
  match stream_id with
  | Some stream_id => insert_stream stream_id SynReceived
  | None =>
    next_id ← gets next_stream_id;
    match u32_checked_add next_id 2 with
    | Some n => modify (set_next_stream_id n);; insert_stream next_id Init
    | None => throw StreamsExhausted
    end
  end.

Definition open_stream : M Sess Error Stream :=
  s ← get;
  if is_dead s then throw SessionShutdown
  else if remote_go_away s then throw RemoteGoAway
  else create_stream None.

Definition keep_alive (ping_at : Z) : M Sess io.ErrorKind unit :=
  ps ← gets pings;
  if existsb (λ '(_, time), TIMEOUT <? Z.max 0 (ping_at - time)) (map_to_list ps) then throw io.TimedOut
  else
    id ← send_ping None;
    modify (λ s, set_pings (<[id := ping_at]> (pings s)) s).

(** *** Distribution of received frames *)

Definition push_read (frame : Frame) : M Sess io.ErrorKind unit :=
  modify (λ s, set_read_pending_frames (read_pending_frames s ++ [frame]) s).

(** The handling of a frame with [Syn] before its delivery; [true] when
    [distribute_to_substream] returns at once. *)
Definition accept_syn (stream_id : Z) : M Sess io.ErrorKind bool :=
  s ← get;
  if local_go_away s then
    send_frame (new_window_update (flags_from Rst) stream_id 0);;
    mret true
  else if (Z.of_nat (size (streams s)) <? max_stream_count (config s)) &&
          (Z.of_nat (length (pending_streams s)) <? accept_backlog (config s)) then
    r ← try_catch (create_stream (Some stream_id));
    match r with
    | Ok stream =>
      modify (λ s, set_pending_streams (pending_streams s ++ [stream]) s);;
      mret false
    | Err _ => send_go_away_with_code ProtocolError;; mret true
    | Panic => panic
    end
  else
    modify (λ s, set_write_pending_frames
      (write_pending_frames s ++ [new_window_update (flags_add (flags_from Ack) Rst) stream_id 0]) s);;
    mret false.

(** Delivery of a frame to its stream's channel; [true] when the stream is
    blocked and keeps the frame for later. *)
Definition deliver (frame : Frame) (stream_id : Z) : M Sess io.ErrorKind bool :=
  sender ← gets (λ s, streams s !! stream_id);
  match sender with
  | None => mret false
  | Some frame_sender =>
    ready ← ask (sender_poll_ready frame_sender);
    match ready with
    | Ready true =>
      r ← ask (sender_try_send frame_sender frame);
      match r with
      | Sent => mret false
      | Full frame => push_read frame;; mret true
      | Disconnected => modify (λ s, set_streams (delete stream_id (streams s)) s);; mret false
      end
    | Pending => push_read frame;; mret true
    | Ready false => modify (λ s, set_streams (delete stream_id (streams s)) s);; mret false
    end
  end.

Fixpoint distribute_loop (buf : list Frame) (block_substream : gset Z) : M Sess io.ErrorKind unit :=
  match buf with
  | [] => mret ()
  | frame :: buf =>
    let stream_id := frame_stream_id frame in
    if bool_decide (stream_id ∈ block_substream) then
      push_read frame;;
      distribute_loop buf block_substream
    else
      stop ← (if flags_contains (frame_flags frame) Syn then accept_syn stream_id else mret false);
      if (stop : bool) then mret ()
      else
        blocked ← deliver frame stream_id;
        distribute_loop buf
          (if (blocked : bool) then {[stream_id]} ∪ block_substream else block_substream)
  end.

Definition distribute_to_substream : M Sess io.ErrorKind unit :=
  buf ← gets read_pending_frames;
  modify (set_read_pending_frames []);;
  distribute_loop buf ∅.

Definition flush : M Sess io.ErrorKind unit :=
  s ← get;
  match read_pending_frames s, write_pending_frames s with
  | [], [] => mret ()
  | _, _ => send_all;; distribute_to_substream
  end.

(** *** Frames from the connection *)

Definition handle_stream_message (frame : Frame) : M Sess io.ErrorKind unit :=
  push_read frame;;
  distribute_to_substream.

Definition handle_ping (frame : Frame) : M Sess io.ErrorKind unit :=
  let fl := frame_flags frame in
  if flags_contains fl Syn then
    send_ping (Some (frame_length frame));;
    mret ()
  else if flags_contains fl Ack then
    let id := frame_length frame in
    modify (λ s, set_pings (delete id (pings s)) s);;
    modify (λ s, set_pings (filter (λ '(k, _), id ≤ k) (pings s)) s)
  else mret ().

Definition handle_go_away (frame : Frame) : M Sess io.ErrorKind unit :=
  let close :=
    modify (set_remote_go_away true);;
    modify (set_write_pending_frames []);;
    gone ← gets local_go_away;
    when (negb gone) send_go_away in
  match go_away_from (frame_length frame) with
  | Normal => close
  | ProtocolError => close
  | InternalError => close
  end.

Definition handle_frame (frame : Frame) : M Sess io.ErrorKind unit :=
  match frame_ty frame with
  | Data | WindowUpdate => handle_stream_message frame
  | Ping => handle_ping frame
  | GoAway => handle_go_away frame
  end.

Definition recv_frames : M Sess io.ErrorKind (Poll (option unit)) :=
  p ← in_world framed_poll_next;
  match p with
  | Ready (Some frame) => handle_frame frame;; mret (Ready (Some ()))
  | Ready None => modify (set_eof true);; mret (Ready None)
  | Pending => mret Pending
  end.

(** *** Events from the streams and commands *)

Definition handle_event (event : StreamEvent) : M Sess io.ErrorKind unit :=
  match event with
  | EvFrame frame => send_frame frame
  | EvClosed stream_id => modify (λ s, set_streams (delete stream_id (streams s)) s)
  | EvGoAway => send_go_away_with_code ProtocolError
  end.

Definition recv_events : M Sess io.ErrorKind (Poll (option unit)) :=
  p ← ask event_poll_next;
  match p with
  | Ready (Some event) => handle_event event;; mret (Ready (Some ()))
  | Ready None => panic
  | Pending => mret Pending
  end.

Definition control_poll : M Sess io.ErrorKind (Poll (option unit)) :=
  p ← ask control_poll_next;
  match p with
  | Ready (Some event) =>
    match event with
    | OpenStream tx =>
      r ← try_catch open_stream;
      tell (reply_open tx r)
    | Shutdown tx =>
      shutdown;;
      tell (reply_shutdown tx)
    end;;
    mret (Ready (Some ()))
  | Ready None => panic
  | Pending => mret Pending
  end.

(** *** The poll loop *)

(** The keep-alive part of [poll_next]: [true] when the timer fired. *)
Definition poll_keepalive : M Sess io.ErrorKind bool :=
  ka ← gets keepalive;
  match ka with
  | None => mret false
  | Some i =>
    '(p, i) ← ask (λ w, let '(p, (i, w)) := interval_poll_next i w in ((p, i), w));
    modify (set_keepalive (Some i));;
    match p with
    | Ready (Some _) =>
      gone ← gets local_go_away;
      if (gone : bool) then modify (set_remote_go_away true);; mret true
      else
        t ← ask now;
        keep_alive t;;
        mret true
    | Ready None => mret false
    | Pending => mret false
    end
  end.

(** Up to [n] rounds; [inr need_wake] when the loop ends without a result. *)
Fixpoint poll_rounds (n : nat) (need_wake : bool)
    : M Sess io.ErrorKind (option Stream + bool) :=
  match n with
  | O => mret (inr need_wake)
  | S n =>
    dead ← gets is_dead;
    if (dead : bool) then mret (inl None)
    else
      flush;;
      poll_complete;;
      ps ← gets pending_streams;
      match ps with
      | stream :: rest =>
        modify (set_pending_streams rest);;
        mret (inl (Some stream))
      | [] =>
        p1 ← control_poll;
        p2 ← recv_frames;
        p3 ← recv_events;
        if is_pending p1 && is_pending p2 && is_pending p3 then mret (inr false)
        else poll_rounds n true
      end
  end.

(** [Stream::poll_next]; an error [e] stands for [Ready(Some(Err(e)))]. *)
Definition poll_next : M Sess io.ErrorKind (Poll (option Stream)) :=
  dead ← gets is_dead;
  if (dead : bool) then mret (Ready None)
  else
    keep_alive_wake ← poll_keepalive;
    r ← poll_rounds 16 false;
    match r with
    | inl item => mret (Ready item)
    | inr need_wake =>
      when (need_wake || keep_alive_wake) (tell wake_by_ref);;
      mret Pending
    end.
End session.
