(* ===== verification/YamuxSessionFacts.v ===== *)
(** * Yamux sessions: correctness

    Shows the invariants of the session of [YamuxSession] (stream ids, limits,
    go-away and end of the session), that frames are sent and distributed in
    order and without loss, and the behaviour of pings and stream opening. *)
From S2P Require Import Prelude YamuxFrame YamuxStream YamuxStreamFacts YamuxSession.

Section session_invariants.
Context {W Chan R T Reply Interval : Type}.
Context `{!FrameReceiver R, !EventSender T, !World W Chan R T Reply Interval}.
Abbreviation Sess := (Session W Chan R T Interval).
Implicit Types s : Sess.

(** ** A rule for session invariants *)

(** [I] does not depend on the environment, the buffers, the timer and the
    pings; the remaining updates each have a condition. *)
Class SessionInvariant (I : Sess → Prop) := {
  si_world w s : I s → I (set_world w s);
  si_write fs s : I s → I (set_write_pending_frames fs s);
  si_read fs s : I s → I (set_read_pending_frames fs s);
  si_keepalive i s : I s → I (set_keepalive i s);
  si_pings ps s : I s → I (set_pings ps s);
  si_ping_id s : I s → I (set_ping_id (u32_add (ping_id s) 1) s);
  si_eof s : I s → I (set_eof true s);
  si_remote s : I s → I (set_remote_go_away true s);
  si_local s : I s → I (set_local_go_away true s);
  si_delete sid s : I s → I (set_streams (delete sid (streams s)) s);
  si_pop p ps s : pending_streams s = p :: ps → I s → I (set_pending_streams ps s);
  si_open : preserves I open_stream;
  si_accept sid s r s' :
    local_go_away s = false → Z.of_nat (size (streams s)) < max_stream_count (config s) →
    Z.of_nat (length (pending_streams s)) < accept_backlog (config s) →
    create_stream (Some sid) s = (r, s') → I s →
    match r with
    | Ok stream => I (set_pending_streams (pending_streams s' ++ [stream]) s')
    | _ => I s'
    end;
}.

Section rule.
Context (I : Sess → Prop) `{HI : !SessionInvariant I}.

Lemma inv_in_world {A} (m : M W io.ErrorKind A) : preserves I (in_world m : M Sess _ A).
Proof. intros s. rw /in_world. destruct (m (world s)) as [r w]. apply si_world. Qed.

Lemma inv_ask {E A} (f : W → A * W) : preserves I (ask f : M Sess E A).
Proof. intros s. rw /ask. destruct (f (world s)) as [a w]. apply si_world. Qed.

Lemma inv_tell {E} (f : W → W) : preserves I (tell f : M Sess E unit).
Proof. apply preserves_modify. intros s. apply si_world. Qed.
Hint Resolve inv_in_world inv_ask inv_tell : preserves.

(** Unfolds an operation into updates covered by the rule. *)
Ltac session_inv :=
  preserves;
  try (apply preserves_modify; intros ? ?;
       first [ by apply si_write | by apply si_read | by apply si_keepalive | by apply si_pings
             | by apply si_ping_id | by apply si_eof | by apply si_remote | by apply si_local
             | by apply si_delete ]).

Lemma inv_poll_complete : preserves I (poll_complete : M Sess _ _).
Proof. rw /poll_complete. session_inv. Qed.
Hint Resolve inv_poll_complete : preserves.

Lemma inv_send_loop fuel : preserves I (send_loop fuel : M Sess _ _).
Proof.
  induction fuel as [|fuel IH]; cbn [send_loop]; session_inv; auto.
Qed.

Lemma inv_send_all : preserves I (send_all : M Sess _ _).
Proof. intros s. apply inv_send_loop. Qed.
Hint Resolve inv_send_all : preserves.

Lemma inv_send_frame f : preserves I (send_frame f : M Sess _ _).
Proof. rw /send_frame. session_inv. Qed.
Hint Resolve inv_send_frame : preserves.

Lemma inv_send_ping o : preserves I (send_ping o : M Sess _ _).
Proof. rw /send_ping. session_inv. Qed.
Hint Resolve inv_send_ping : preserves.

Lemma inv_send_go_away_with_code c : preserves I (send_go_away_with_code c : M Sess _ _).
Proof. rw /send_go_away_with_code. session_inv. Qed.
Hint Resolve inv_send_go_away_with_code : preserves.

Lemma inv_shutdown : preserves I (shutdown : M Sess _ _).
Proof. rw /shutdown /send_go_away. session_inv. Qed.
Hint Resolve inv_shutdown : preserves.

Lemma inv_keep_alive t : preserves I (keep_alive t : M Sess _ _).
Proof. rw /keep_alive. session_inv. Qed.
Hint Resolve inv_keep_alive : preserves.

Lemma inv_accept_syn sid : preserves I (accept_syn sid : M Sess _ _).
Proof.
  intros s Hs. change (wp (accept_syn sid) (λ _ s', I s') s). rw /accept_syn.
  apply wp_bind, wp_get. destruct (local_go_away s) eqn:Hl.
  { apply wp_preserves; [|done]. session_inv. }
  destruct (Z.ltb_spec (Z.of_nat (size (streams s))) (max_stream_count (config s))),
    (Z.ltb_spec (Z.of_nat (length (pending_streams s))) (accept_backlog (config s)));
    cbn [andb]; [|apply wp_preserves; [session_inv|done]..].
  apply wp_bind, wp_try. rw /wp. destruct (create_stream (Some sid) s) as [r s'] eqn:Hc.
  pose proof (si_accept sid s r s' Hl ltac:(done) ltac:(done) Hc Hs) as Hr.
  destruct r as [stream|e|]; simpl; [done| |done].
  apply (inv_send_go_away_with_code ProtocolError s') in Hr.
  rw /mbind /M_bind. by destruct (send_go_away_with_code ProtocolError s') as [[]?].
Qed.
Hint Resolve inv_accept_syn : preserves.

Lemma inv_deliver f sid : preserves I (deliver f sid : M Sess _ _).
Proof. rw /deliver /push_read. session_inv. Qed.
Hint Resolve inv_deliver : preserves.

Lemma inv_distribute_loop buf block : preserves I (distribute_loop buf block : M Sess _ _).
Proof.
  revert block. induction buf as [|f buf IH]; intros block; cbn [distribute_loop];
    rw /push_read; session_inv; auto.
Qed.
Hint Resolve inv_distribute_loop : preserves.

Lemma inv_flush : preserves I (flush : M Sess _ _).
Proof. rw /flush /distribute_to_substream. session_inv. Qed.
Hint Resolve inv_flush : preserves.

Lemma inv_handle_frame f : preserves I (handle_frame f : M Sess _ _).
Proof.
  rw /handle_frame /handle_stream_message /handle_ping /handle_go_away /send_go_away
    /distribute_to_substream /push_read. session_inv.
Qed.
Hint Resolve inv_handle_frame : preserves.

Lemma inv_recv_frames : preserves I (recv_frames : M Sess _ _).
Proof. rw /recv_frames. session_inv. Qed.

Lemma inv_recv_events : preserves I (recv_events : M Sess _ _).
Proof. rw /recv_events /handle_event. session_inv. Qed.

Lemma inv_open_stream : preserves I open_stream.
Proof. apply si_open. Qed.
Hint Resolve inv_open_stream : preserves.

Lemma inv_control_poll : preserves I (control_poll : M Sess _ _).
Proof. rw /control_poll. session_inv. Qed.
Hint Resolve inv_recv_frames inv_recv_events inv_control_poll : preserves.

Lemma inv_poll_keepalive : preserves I (poll_keepalive : M Sess _ _).
Proof. rw /poll_keepalive. session_inv. Qed.
Hint Resolve inv_poll_keepalive : preserves.

Lemma inv_poll_rounds n b : preserves I (poll_rounds n b : M Sess _ _).
Proof.
  revert b. induction n as [|n IH]; intros b; cbn [poll_rounds]; [session_inv|].
  apply preserves_bind; [session_inv|intros []; [session_inv|]].
  do 2 (apply preserves_bind; [session_inv|intros _]).
  apply preserves_bind_gets. intros s Hs. destruct (pending_streams s) eqn:Hp.
  - apply wp_preserves; [session_inv; auto|done].
  - apply wp_bind, wp_modify, wp_ret. by eapply si_pop.
Qed.

Lemma inv_poll_next : preserves I (poll_next : M Sess _ _).
Proof. rw /poll_next. session_inv. apply inv_poll_rounds. Qed.
End rule.

(** ** Creating streams *)

(** The fields [create_stream] leaves alone, and the id it takes. *)
Definition creates (o : option Z) (s s' : Sess) : Prop :=
  eof s' = eof s ∧ remote_go_away s' = remote_go_away s ∧ local_go_away s' = local_go_away s ∧
  sty s' = sty s ∧ config s' = config s ∧ pending_streams s' = pending_streams s ∧
  ping_id s' = ping_id s ∧
  (next_stream_id s' = next_stream_id s ∨
   o = None ∧ next_stream_id s' = next_stream_id s + 2 ∧ next_stream_id s + 2 ≤ u32_max).

Lemma insert_stream_eq sid st s :
  insert_stream sid st s =
    let '(c, rx, w) := channel 8 (world s) in
    match streams s !! sid with
    | Some _ => (Err DuplicateStream, set_world w s)
    | None =>
      (match stream_new sid (event_sender s) rx st (max_stream_window_size (config s)) with
       | Ok h => Ok (send_window_update h).2
       | Err e => Err e
       | Panic => Panic
       end, set_streams (<[sid := c]> (streams s)) (set_world w s))
    end.
Proof.
  rw /insert_stream /mbind /M_bind /ask. destruct (channel 8 (world s)) as [[c rx] w]. simpl.
  destruct (streams s !! sid); simpl; [done|]. by destruct (stream_new _ _ _ _ _).
Qed.

Lemma insert_stream_creates sid st o s0 s :
  creates o s0 s → wp (insert_stream sid st) (λ _ s', creates o s0 s') s.
Proof.
  intros Hs. rw /wp insert_stream_eq. destruct (channel 8 (world s)) as [[c rx] w].
  by destruct (streams s !! sid).
Qed.

Lemma creates_spec o s : wp (create_stream o) (λ _ s', creates o s s') s.
Proof.
  rw /create_stream. destruct o as [sid|].
  - apply insert_stream_creates. split_and!; auto.
  - wp_steps; [|by split_and!; auto]. apply insert_stream_creates.
    apply u32_checked_add_Some in Heqo as [-> ?]. split_and!; auto.
Qed.

(** ** Invariants *)

(** Stream ids have the parity of their side and fit a [u32]; the accept
    queue respects the backlog. *)
Record ids_ok (s : Sess) : Prop := {
  ids_parity : next_stream_id s mod 2 = match sty s with Client => 1 | Server => 0 end;
  ids_range : 1 ≤ next_stream_id s ≤ u32_max;
  ids_ping : is_u32 (ping_id s);
  ids_backlog : length (pending_streams s) ≤ Z.max 0 (accept_backlog (config s));
}.

Lemma creates_ids o s s' : creates o s s' → ids_ok s → ids_ok s'.
Proof.
  intros (? & ? & ? & Hty & Hc & Hp & Hpi & Hn) []. split; rw ?Hty ?Hc ?Hp ?Hpi //.
  - destruct Hn as [-> |(_ & -> & _)]; [done|]. rw -Zplus_mod_idemp_r. by rw Z.add_0_r.
  - destruct Hn as [-> |(_ & -> & ?)]; [done|]. lia.
Qed.

#[export] Instance ids_ok_invariant : SessionInvariant ids_ok.
Proof.
  split; try (by intros ?? []; split); try (by intros ? []; split).
  - intros s []. split; try done. simpl. apply as_u32_range.
  - intros p ps s Hp []. split; try done. rw Hp in ids_backlog0. simpl in *. lia.
  - apply preserves_bind; [apply preserves_get|]. intros s0.
    destruct (is_dead s0); [apply preserves_throw|].
    destruct (remote_go_away s0); [apply preserves_throw|].
    intros s Hs. by apply (creates_ids None s), Hs; apply creates_spec.
  - intros sid s r s' Hl Hm Hb Hc Hs. pose proof (creates_spec (Some sid) s) as Hcr.
    rw /wp Hc /= in Hcr. pose proof (creates_ids _ _ _ Hcr Hs) as Hs'.
    destruct r; [|done..]. destruct Hs'. split; try done. simpl.
    destruct Hcr as (_ & _ & _ & _ & -> & -> & _). rw length_app /=. lia.
Qed.

Lemma creates_dead o s s' : creates o s s' → is_dead s' = is_dead s.
Proof. intros (He & Hr & Hl & _). by rw /is_dead He Hr Hl. Qed.

(** [open_stream] keeps what [creates] leaves alone. *)
Lemma open_stream_preserves (I : Sess → Prop) :
  (∀ s s', creates None s s' → I s → I s') → preserves I open_stream.
Proof.
  intros HI. apply preserves_bind; [apply preserves_get|]. intros s0.
  destruct (is_dead s0); [apply preserves_throw|].
  destruct (remote_go_away s0); [apply preserves_throw|].
  intros s Hs. eapply HI; [apply creates_spec|done].
Qed.

#[export] Instance dead_invariant : SessionInvariant (λ s, is_dead s = true).
Proof.
  split; try done.
  - intros s _. by rw /is_dead /= orb_true_r.
  - intros s. rw /is_dead /=. by destruct (remote_go_away s), (local_go_away s), (eof s).
  - intros s. rw /is_dead /=. by destruct (remote_go_away s), (local_go_away s), (eof s).
  - apply open_stream_preserves. intros s s' Hc Hs. by rw (creates_dead _ _ _ Hc).
  - intros sid s r s' _ _ _ Hc Hs. pose proof (creates_spec (Some sid) s) as Hcr.
    rw /wp Hc /= in Hcr. apply creates_dead in Hcr. rw -Hcr in Hs. by destruct r.
Qed.

#[export] Instance remote_gone_invariant : SessionInvariant (λ s, remote_go_away s = true).
Proof.
  split; try done.
  - apply open_stream_preserves. intros s s' (_ & -> & _). done.
  - intros sid s r s' _ _ _ Hc Hs. pose proof (creates_spec (Some sid) s) as Hcr.
    rw /wp Hc /= in Hcr. destruct Hcr as (_ & Hr & _). rw -Hr in Hs. by destruct r.
Qed.

(** After the local go-away only streams already accepted are left. *)
Definition only_pending (P : list (StreamHandle R T)) (s : Sess) : Prop :=
  local_go_away s = true ∧ pending_streams s `suffix_of` P.

#[export] Instance only_pending_invariant P : SessionInvariant (only_pending P).
Proof.
  rw /only_pending. split; try done.
  - intros s []. done.
  - intros p ps s Hp [? Hs]. split; [done|]. rw Hp in Hs. by eapply suffix_cons_l.
  - apply open_stream_preserves. intros s s' (_ & _ & -> & _ & _ & -> & _). done.
  - intros sid s r s' Hl _ _ _ [Hl' _]. congruence.
Qed.

(** *** Steps of a session *)

(** A call of the session's public methods, or its environment moving on. *)
Inductive session_step : Sess → Sess → Prop :=
| ss_poll_next s : session_step s (poll_next s).2
| ss_open_stream s : session_step s (open_stream s).2
| ss_shutdown s : session_step s (shutdown s).2
| ss_send_go_away s : session_step s (send_go_away s).2
| ss_environment w s : session_step s (set_world w s).

Lemma reachable_inv I `{!SessionInvariant I} s s' : rtc session_step s s' → I s → I s'.
Proof.
  induction 1 as [|s s1 s2 Hs _ IH]; [done|]. intros HI. apply IH. destruct Hs.
  - by apply inv_poll_next.
  - by apply si_open.
  - by apply inv_shutdown.
  - by apply (inv_send_go_away_with_code I Normal).
  - by apply si_world.
Qed.

Lemma poll_rounds_dead n b s : is_dead s = true → poll_rounds (S n) b s = (Ok (inl None), s).
Proof. intros Hd. cbn [poll_rounds]. by rw /mbind /M_bind /gets Hd. Qed.

(** A stream handed out was pending. *)
Lemma poll_rounds_pending P n b s :
  only_pending P s →
  wp (poll_rounds n b) (λ r _, ∀ st, r = Ok (inl (Some st)) → st ∈ P) s.
Proof.
  revert b s. induction n as [|n IH]; intros b s Hs; cbn [poll_rounds]; [done|].
  apply wp_bind, wp_gets. destruct (is_dead s); [done|].
  apply (wp_bind_inv (only_pending P)); [apply inv_flush, _|done| |done..]. intros _ s1 Hs1.
  apply (wp_bind_inv (only_pending P)); [apply inv_poll_complete, _|done| |done..]. intros _ s2 Hs2.
  apply wp_bind, wp_gets. destruct (pending_streams s2) as [|st rest] eqn:Hp.
  - apply (wp_bind_inv (only_pending P)); [apply inv_control_poll, _|done| |done..]. intros p1 s3 Hs3.
    apply (wp_bind_inv (only_pending P)); [apply inv_recv_frames, _|done| |done..]. intros p2 s4 Hs4.
    apply (wp_bind_inv (only_pending P)); [apply inv_recv_events, _|done| |done..]. intros p3 s5 Hs5.
    wp_steps; [done|]. by apply IH.
  - apply wp_bind, wp_modify, wp_ret. intros st' [= <-]. destruct Hs2 as [_ [k Hk]].
    rw Hk Hp. apply elem_of_app. right. by left.
Qed.
End session_invariants.

(** ** What the environment does with frames *)

Section traffic.
Context {W Chan R T Reply Interval : Type}.
Context `{!FrameReceiver R, !EventSender T, !World W Chan R T Reply Interval}.
Abbreviation Sess := (Session W Chan R T Interval).
Implicit Types s : Sess.
Implicit Types w : W.

(** [wire w] are the frames the connection has accepted, [chan_log c w] those
    the channel [c] has accepted, oldest first; [chan_known c w] tells that [c]
    exists. *)
Class Traffic := {
  wire : W → list Frame;
  chan_log : Chan → W → list Frame;
  chan_known : Chan → W → Prop;
}.
Context `{!Traffic}.

(** Nothing is sent. *)
Definition quiet w w' : Prop :=
  wire w' = wire w ∧ (∀ c, chan_log c w' = chan_log c w) ∧ (∀ c, chan_known c w → chan_known c w').

(** The sink takes what [start_send] accepts and is ready once flushed; a new
    channel is unused and empty; [try_send] appends to its own channel or
    returns the frame; all other calls send nothing. *)
Class WorldLaws := {
  poll_ready_quiet w : quiet w (framed_poll_ready w).2;
  poll_flush_quiet w : quiet w (framed_poll_flush w).2;
  framed_poll_next_quiet w : quiet w (framed_poll_next w).2;
  framed_total f w : (framed_poll_ready w).1 ≠ Panic ∧ (framed_start_send f w).1 ≠ Panic ∧
    (framed_poll_flush w).1 ≠ Panic ∧ (framed_poll_next w).1 ≠ Panic;
  flush_then_ready w w' : framed_poll_flush w = (Ok (Ready ()), w') →
    (framed_poll_ready w').1 ≠ Ok Pending;
  start_send_wire f w :
    wire (framed_start_send f w).2 =
      (match (framed_start_send f w).1 with Ok _ => wire w ++ [f] | _ => wire w end) ∧
    (∀ c, chan_log c (framed_start_send f w).2 = chan_log c w) ∧
    (∀ c, chan_known c w → chan_known c (framed_start_send f w).2);
  channel_fresh n w c rx w' : channel n w = (c, rx, w') →
    quiet w w' ∧ ¬ chan_known c w ∧ chan_known c w' ∧ chan_log c w' = [] ∧ fr_queue rx = [];
  sender_poll_ready_quiet c w : quiet w (sender_poll_ready c w).2;
  try_send_log c f w :
    wire (sender_try_send c f w).2 = wire w ∧
    (∀ c', chan_known c' w → chan_known c' (sender_try_send c f w).2) ∧
    (∀ c', c' ≠ c → chan_log c' (sender_try_send c f w).2 = chan_log c' w) ∧
    chan_log c (sender_try_send c f w).2 = chan_log c w ++
      (match (sender_try_send c f w).1 with Sent => [f] | _ => [] end) ∧
    (∀ f', (sender_try_send c f w).1 = Full f' → f' = f);
  event_quiet w : quiet w (event_poll_next w).2;
  control_quiet w : quiet w (control_poll_next w).2;
  reply_open_quiet tx r w : quiet w (reply_open tx r w);
  reply_shutdown_quiet tx w : quiet w (reply_shutdown tx w);
  interval_quiet d w : quiet w (interval d w).2;
  interval_poll_quiet i w : quiet w (interval_poll_next i w).2.2;
  now_quiet w : quiet w (now w).2;
  wake_quiet w : quiet w (wake_by_ref w);
}.
Context `{!WorldLaws}.

Abbreviation out s := (wire (world s)).

(** Only the connection, its queue of frames and channel-free parts of the
    environment changed. *)
Definition io_only (s s' : Sess) : Prop :=
  ∃ w fs, s' = set_write_pending_frames fs (set_world w s) ∧
    (∀ c, chan_log c w = chan_log c (world s)) ∧
    (∀ c, chan_known c (world s) → chan_known c w).

#[export] Instance io_only_preorder : PreOrder io_only.
Proof.
  split.
  - intros s. exists (world s), (write_pending_frames s). by destruct s.
  - intros s1 s2 s3 (w & fs & -> & Hl & Hk) (w' & fs' & -> & Hl' & Hk'). exists w', fs'.
    split_and!; [done| |by auto]. intros c. by rw Hl' Hl.
Qed.

Lemma io_only_quiet s w fs :
  quiet (world s) w → io_only s (set_write_pending_frames fs (set_world w s)).
Proof. intros (_ & ? & ?). by exists w, fs. Qed.

Lemma io_only_dead s s' : io_only s s' → is_dead s' = is_dead s.
Proof. by intros (w & fs & -> & _). Qed.

Lemma wp_in_world {A} (m : M W io.ErrorKind A) s (Q : Res io.ErrorKind A → Sess → Prop) :
  Q (m (world s)).1 (set_world (m (world s)).2 s) → wp (in_world m) Q s.
Proof. rw /wp /in_world. by destruct (m (world s)). Qed.

(** *** Sending *)

Definition sink_ready w : Prop := (framed_poll_ready w).1 ≠ Ok Pending.

(** Frames leave in order: what is on the wire and what is queued is what was,
    or an error occurred and the wire holds a prefix of it. *)
Definition sent_post (s0 : Sess) (all : list Frame) {A} : Res io.ErrorKind A → Sess → Prop := λ r s,
  io_only s0 s ∧
  match r with
  | Ok _ => out s ++ write_pending_frames s = all
  | Err _ => out s `prefix_of` all
  | Panic => False
  end.

Lemma poll_complete_spec s :
  wp poll_complete (λ r s', sent_post s (out s ++ write_pending_frames s) r s' ∧
    write_pending_frames s' = write_pending_frames s ∧
    (r = Ok false → sink_ready (world s'))) s.
Proof.
  rw /poll_complete. apply wp_bind, wp_in_world.
  pose proof (poll_flush_quiet (world s)) as Hq. pose proof Hq as (Hw & Hl & Hk).
  pose proof (framed_total (new_ping 0 0) (world s)) as (_ & _ & Hp & _).
  pose proof (flush_then_ready (world s)) as Hready.
  destruct (framed_poll_flush (world s)) as [r w]; simpl in *.
  assert (io_only s (set_world w s)) as Hio.
  { exists w, (write_pending_frames s). by destruct s. }
  destruct r as [p|e|]; [apply wp_ret| |done].
  - split_and!; [split; [done|]; by rw /= Hw|done|]. destruct p as [[]|]; [|done].
    intros _. by apply Hready.
  - split_and!; [split; [done|]|done|done]. rw /= Hw. by apply prefix_app_r.
Qed.

Lemma sent_post_trans {A} s0 s1 all (r : Res io.ErrorKind A) s :
  io_only s0 s1 → sent_post s1 all r s → sent_post s0 all r s.
Proof. intros ? []. split; [by etrans|done]. Qed.

Lemma send_loop_spec fuel s :
  is_dead s = false →
  let n := (2 * length (write_pending_frames s))%nat in
  (n ≤ fuel)%nat ∨ (n ≤ S fuel)%nat ∧ sink_ready (world s) →
  wp (send_loop fuel) (λ r s', sent_post s (out s ++ write_pending_frames s) r s' ∧
    (r = Ok false → write_pending_frames s' = [])) s.
Proof.
  revert s. induction fuel as [|fuel IH]; intros s Hdead n Hn; cbn [send_loop];
    apply wp_bind, wp_gets; destruct (write_pending_frames s) as [|f rest] eqn:Hp; simpl in n.
  1,3: apply wp_bind; (eapply wp_mono; [apply poll_complete_spec|]); intros [b|e|] s' (Hs' & Hw & _);
    rw Hp in Hs' Hw; [by apply wp_ret| |by destruct Hs']; by split.
  { destruct Hn; lia. }
  apply wp_bind, wp_modify, wp_bind, wp_gets. rw /is_dead /= in Hdead |- *. rw Hdead.
  apply wp_bind, wp_in_world. simpl.
  pose proof (poll_ready_quiet (world s)) as Hq. pose proof Hq as (Hw & Hl & Hk).
  pose proof (framed_total f (world s)) as (Hp1 & _). rw /sink_ready in Hn.
  destruct (framed_poll_ready (world s)) as [r w]; simpl in *.
  assert (Hio : ∀ fs, io_only s (set_write_pending_frames fs (set_world w s))).
  { intros fs. by apply io_only_quiet. }
  destruct r as [[[]|]|e|]; [| | |done].
  - pose proof (start_send_wire f w) as (Hss & Hsl & Hsk). pose proof (framed_total f w) as (_ & Hp2 & _).
    apply wp_bind, wp_in_world. simpl. destruct (framed_start_send f w) as [r w2]; simpl in *.
    assert (Hio2 : io_only s (set_write_pending_frames rest (set_world w2 s))).
    { exists w2, rest. split_and!; [done| |by auto]. intros c. by rw Hsl Hl. }
    destruct r as [[]|e|]; [| |done].
    + eapply wp_mono; [apply IH; [done|left; simpl; lia]|].
      intros r s' [Hs' Hf]. split; [|done]. rw /= Hss Hw -app_assoc in Hs'.
      by eapply sent_post_trans.
    + split; [|done]. split; [done|]. rw /= Hss Hw. by apply prefix_app_r.
  - apply wp_bind, wp_modify, wp_bind. eapply wp_mono; [apply poll_complete_spec|].
    intros r s' (Hs' & Hws & Hready). rw /= Hw in Hs' Hws.
    apply (sent_post_trans s) in Hs'; [|apply (Hio (f :: rest))].
    destruct r as [[]|e|]; [by apply wp_ret| |by split|by destruct Hs'].
    pose proof Hs' as [Hio' Hout]. eapply wp_mono; [apply IH; [by rw (io_only_dead _ _ Hio')|]|].
    + right. split; [|by apply Hready]. rw Hws /=. destruct Hn as [|[_ Hn]]; [lia|done].
    + intros r s'' [Hs'' Hf]. split; [|done]. rw Hout in Hs''. by eapply sent_post_trans.
  - split; [|done]. split; [apply (Hio rest)|]. rw /= Hw. by apply prefix_app_r.
Qed.

Lemma send_frame_spec f s :
  is_dead s = false →
  wp (send_frame f) (sent_post s (out s ++ write_pending_frames s ++ [f])) s.
Proof.
  intros Hd. rw /send_frame. apply wp_bind, wp_modify, wp_bind.
  set (s1 := set_write_pending_frames (write_pending_frames s ++ [f]) s).
  assert (io_only s s1). { by exists (world s), (write_pending_frames s ++ [f]). }
  rw /send_all. eapply wp_mono; [apply (send_loop_spec _ s1); [done|by left]|].
  intros r s' Hs'. pose proof (sent_post_trans s s1 _ r s' ltac:(done) Hs') as Hs''.
  destruct r; [by apply wp_ret|done..].
Qed.

(** Even on a dead session, sending touches nothing else. *)
Lemma send_loop_io fuel s0 : preserves (io_only s0) (send_loop fuel : M Sess _ _).
Proof.
  assert (Hw : ∀ {A} (m : M W io.ErrorKind A), (∀ w, (∀ c, chan_log c (m w).2 = chan_log c w) ∧
    (∀ c, chan_known c w → chan_known c (m w).2)) → preserves (io_only s0) (in_world m : M Sess _ A)).
  { intros A m Hm s Hs. rw /in_world. specialize (Hm (world s)). destruct (m (world s)) as [r w].
    simpl in *. destruct Hm as [? ?]. etrans; [done|]. exists w, (write_pending_frames s). by destruct s. }
  assert (Hq : ∀ {A} (m : M W io.ErrorKind A), (∀ w, quiet w (m w).2) → preserves (io_only s0) (in_world m : M Sess _ A)).
  { intros A m Hm. apply Hw. intros w. by destruct (Hm w) as (_ & ? & ?). }
  assert (Hset : ∀ g, (∀ s, ∃ fs, g s = set_write_pending_frames fs s) →
    preserves (io_only s0) (modify g : M Sess io.ErrorKind unit)).
  { intros g Hg. apply preserves_modify. intros s Hs. destruct (Hg s) as [fs ->].
    etrans; [done|]. by exists (world s), fs. }
  induction fuel as [|fuel IH]; cbn [send_loop]; rw /poll_complete; preserves;
    first [ exact IH
          | apply Hq; apply poll_flush_quiet || apply poll_ready_quiet
          | apply Hset; by eauto
          | apply Hw; intros w; edestruct start_send_wire as (_ & ? & ?); done ].
Qed.

Lemma send_frame_io f s : wp (send_frame f) (λ _ s', io_only s s') s.
Proof.
  rw /send_frame. apply wp_bind, wp_modify, wp_bind.
  eapply wp_mono; [apply (wp_preserves (io_only s) send_all)|].
  - intros s1. apply send_loop_io.
  - by exists (world s), (write_pending_frames s ++ [f]).
  - by intros [].
Qed.

(** *** Distribution *)

Definition by_stream (sid : Z) (fs : list Frame) : list Frame :=
  filter (λ f, frame_stream_id f = sid) fs.

Lemma by_stream_snoc sid fs f :
  by_stream sid (fs ++ [f]) = by_stream sid fs ++ (if decide (frame_stream_id f = sid) then [f] else []).
Proof. rw /by_stream filter_app filter_cons. by case_decide. Qed.

Lemma by_stream_app sid fs gs : by_stream sid (fs ++ gs) = by_stream sid fs ++ by_stream sid gs.
Proof. apply filter_app. Qed.

Lemma by_stream_cons sid f fs :
  by_stream sid (f :: fs) = (if decide (frame_stream_id f = sid) then [f] else []) ++ by_stream sid fs.
Proof. rw /by_stream filter_cons. by case_decide. Qed.

(** Every open stream has a channel of its own. *)
Definition chans_ok (s : Sess) : Prop :=
  (∀ sid c, streams s !! sid = Some c → chan_known c (world s)) ∧
  (∀ sid sid' c, streams s !! sid = Some c → streams s !! sid' = Some c → sid = sid').

(** The channel [c] belongs to no stream any more. *)
Definition gone (c : Chan) (s : Sess) : Prop :=
  chan_known c (world s) ∧ ∀ sid, streams s !! sid ≠ Some c.

Lemma wp_ask {E A} (f : W → A * W) s (Q : Res E A → Sess → Prop) :
  Q (Ok (f (world s)).1) (set_world (f (world s)).2 s) → wp (ask f) Q s.
Proof. rw /wp /ask. by destruct (f (world s)). Qed.

(** What [deliver] does with a frame. *)
Record delivered (f : Frame) (sid : Z) (blocked : bool) (s s' : Sess) : Prop := {
  dl_known : ∀ c, chan_known c (world s) → chan_known c (world s');
  dl_local : local_go_away s' = local_go_away s;
  dl_streams : streams s' = streams s ∨ streams s' = delete sid (streams s);
  dl_read : read_pending_frames s' = read_pending_frames s ++ (if blocked then [f] else []);
  dl_own : ∀ c, streams s' !! sid = Some c →
    chan_log c (world s') = chan_log c (world s) ++ (if blocked then [] else [f]);
  dl_other : ∀ c, streams s !! sid ≠ Some c → chan_log c (world s') = chan_log c (world s);
}.

Lemma deliver_spec f sid s :
  wp (deliver f sid) (λ r s', ∃ b, r = Ok b ∧ delivered f sid b s s') s.
Proof.
  rw /deliver. apply wp_bind, wp_gets. destruct (streams s !! sid) as [c|] eqn:Hc; last first.
  { apply wp_ret. exists false. split; [done|]. split; rw ?app_nil_r; auto. intros c. by rw Hc. }
  apply wp_bind, wp_ask.
  pose proof (sender_poll_ready_quiet c (world s)) as (_ & Hl & Hk).
  destruct (sender_poll_ready c (world s)) as [[[]|] w]; simpl in *.
  - apply wp_bind, wp_ask. simpl. pose proof (try_send_log c f w) as (_ & Hk2 & Hother & Hown & Hfull).
    destruct (sender_try_send c f w) as [r w2]; simpl in *. destruct r as [|f'|].
    + apply wp_ret. exists false. split; [done|]. split; simpl; rw ?app_nil_r; auto.
      * intros c' [= <-]%(eq_trans (eq_sym Hc)). by rw Hown Hl.
      * intros c' Hne. rw Hother; [by rw Hl|congruence].
    + rw /push_read. wp_steps. exists true. split; [done|]. rewrite -> (Hfull f' eq_refl).
      split; simpl; auto.
      * intros c' [= <-]%(eq_trans (eq_sym Hc)). by rw Hown Hl app_nil_r.
      * intros c' Hne. rw Hother; [by rw Hl|congruence].
    + wp_steps. exists false. split; [done|]. split; simpl; rw ?app_nil_r; auto.
      * intros c'. by rw lookup_delete_eq.
      * intros c' Hne. rw Hother; [by rw Hl|congruence].
  - wp_steps. exists false. split; [done|]. split; simpl; rw ?app_nil_r; auto.
    intros c'. by rw lookup_delete_eq.
  - rw /push_read. wp_steps. exists true. split; [done|]. split; simpl; auto.
    intros c' _. by rw Hl app_nil_r.
Qed.

(** What accepting a stream leaves unchanged. *)
Record accepts (s s' : Sess) : Prop := {
  acc_known : ∀ c, chan_known c (world s) → chan_known c (world s');
  acc_read : read_pending_frames s' = read_pending_frames s;
  acc_log : ∀ c, chan_log c (world s') = chan_log c (world s);
  acc_streams : ∀ sid c, streams s !! sid = Some c → streams s' !! sid = Some c;
  acc_gone : ∀ c, gone c s → gone c s';
  acc_chans : chans_ok s → chans_ok s';
}.

Lemma io_only_accepts s s' : io_only s s' → accepts s s'.
Proof.
  intros (w & fs & -> & Hl & Hk). split; simpl; auto.
  - intros c [? ?]. split; simpl; auto.
  - intros [H1 H2]. split; simpl; eauto.
Qed.

Lemma insert_stream_accepts sid st s h s' :
  insert_stream sid st s = (Ok h, s') → accepts s s'.
Proof.
  rw insert_stream_eq. destruct (channel 8 (world s)) as [[c rx] w] eqn:Hch.
  apply channel_fresh in Hch as ((_ & Hl & Hk) & Hnew & Hknown & _ & _).
  destruct (streams s !! sid) eqn:Hsid; [done|]. intros [= _ <-]. split; simpl; auto.
  - intros sid' c' Hs. destruct (decide (sid' = sid)) as [->|]; [congruence|]. by rw lookup_insert_ne.
  - intros c' [Hk' Hne]. split; simpl; [by auto|]. intros sid'.
    destruct (decide (sid' = sid)) as [->|]; [rw lookup_insert_eq|by rw lookup_insert_ne].
    intros [= ->]. done.
  - intros [H1 H2].
    assert (Hold : ∀ sid', streams s !! sid' ≠ Some c) by (intros sid' ?%H1; done).
    split; simpl.
    + intros sid' c'. destruct (decide (sid' = sid)) as [->|]; [rw lookup_insert_eq|rw lookup_insert_ne //; eauto].
      by intros [= <-].
    + intros sid1 sid2 c'. destruct (decide (sid1 = sid)) as [->|], (decide (sid2 = sid)) as [->|];
        rw ?lookup_insert_eq ?lookup_insert_ne //; eauto; naive_solver.
Qed.

Lemma send_go_away_local code s :
  wp (send_go_away_with_code code) (λ r s', r = Ok () → local_go_away s' = true) s.
Proof.
  rw /send_go_away_with_code. apply wp_bind, wp_modify.
  apply (wp_bind_inv (λ _, True)); [done|done| |done..]. intros _ s1 _.
  apply wp_bind, wp_modify, wp_bind, wp_gets, wp_bind, wp_ask, wp_bind, wp_ask.
  destruct (interval_poll_next _ _) as [p [i w]]. simpl. by apply wp_modify.
Qed.

Lemma accept_syn_spec sid s :
  wp (accept_syn sid) (λ r s', (r = Ok true → local_go_away s' = true) ∧
    (r = Ok false → accepts s s')) s.
Proof.
  rw /accept_syn. apply wp_bind, wp_get. destruct (local_go_away s) eqn:Hl.
  { apply wp_bind. eapply wp_mono; [apply send_frame_io|].
    intros [[]|e|] s' (w & fs & -> & _); [|done..]. apply wp_ret. done. }
  destruct (_ && _).
  - apply wp_bind, wp_try. rw /wp. destruct (create_stream (Some sid) s) as [r s'] eqn:Hc.
    destruct r as [h|e|]; simpl; [|apply wp_bind|done].
    + split; [done|]. intros _. apply insert_stream_accepts in Hc. destruct Hc; split; auto.
    + eapply wp_mono; [apply send_go_away_local|]. intros [[]| |] s'' Hs''; [|done..].
      apply wp_ret. split; [auto|done].
  - wp_steps. split; [done|]. intros _. apply io_only_accepts. eexists (world s), _. by destruct s.
Qed.

Lemma delivered_gone f sid b s s' c : delivered f sid b s s' → gone c s → gone c s'.
Proof.
  intros [] [Hk Hne]. split; [auto|]. intros sid'. destruct dl_streams0 as [-> | ->]; [done|].
  intros Hd. apply lookup_delete_Some in Hd as [_ ?]. by eapply Hne.
Qed.

Lemma delivered_chans f sid b s s' : delivered f sid b s s' → chans_ok s → chans_ok s'.
Proof.
  intros [] [H1 H2]. destruct dl_streams0 as [Hs|Hs]; split; rw Hs.
  - eauto.
  - done.
  - intros sid' c Hd. apply lookup_delete_Some in Hd as [_ ?]. eauto.
  - intros sid1 sid2 c Hd1 Hd2. apply lookup_delete_Some in Hd1 as [_ ?], Hd2 as [_ ?]. eauto.
Qed.

(** A stream whose entry disappears loses its channel for good. *)
Lemma delivered_kept f sid b s s' sid' c :
  delivered f sid b s s' → chans_ok s → streams s !! sid' = Some c →
  streams s' !! sid' = Some c ∨ gone c s'.
Proof.
  intros [] [H1 H2] Hc. destruct dl_streams0 as [Hs|Hs]; [left; by rw Hs|].
  destruct (decide (sid' = sid)) as [->|]; [right|left; by rw Hs lookup_delete_ne].
  split; [eauto|]. intros sid'' Hd. rw Hs in Hd. apply lookup_delete_Some in Hd as [? ?].
  assert (sid'' = sid) by eauto. done.
Qed.

Lemma distribute_loop_order buf block s :
  chans_ok s → (∀ sid, sid ∉ block → by_stream sid (read_pending_frames s) = []) →
  wp (distribute_loop buf block) (λ r s', r = Ok () → local_go_away s' = false →
    (∀ c, gone c s → gone c s') ∧
    ∀ sid c, streams s !! sid = Some c → streams s' !! sid = Some c →
      chan_log c (world s') ++ by_stream sid (read_pending_frames s') =
      chan_log c (world s) ++ by_stream sid (read_pending_frames s ++ buf)) s.
Proof.
  revert block s. induction buf as [|f buf IH]; intros block s Hok Hblock; cbn [distribute_loop].
  { apply wp_ret. intros _ _. split; [done|]. intros. by rw app_nil_r. }
  case_bool_decide as Hin.
  { rw /push_read. apply wp_bind, wp_modify. eapply wp_mono; [apply IH; [done|]|].
    - intros sid Hsid. rw /= by_stream_snoc Hblock //. case_decide; [subst; done|done].
    - simpl. intros r s' Hs' Hr Hl. specialize (Hs' Hr Hl). by rw -app_assoc in Hs'. }
  apply wp_bind.
  assert (Hsyn : wp (if flags_contains (frame_flags f) Syn then accept_syn (frame_stream_id f) else mret false)
    (λ r s', (r = Ok true → local_go_away s' = true) ∧ (r = Ok false → accepts s s')) s).
  { destruct (flags_contains _ _); [apply accept_syn_spec|]. apply wp_ret. split; [done|].
    intros _. by apply io_only_accepts. }
  eapply wp_mono; [exact Hsyn|]. intros [stop|e|] s1 [Hstop Hacc]; [|done..].
  destruct stop; [apply wp_ret; intros _; by rw Hstop|]. specialize (Hacc eq_refl).
  apply wp_bind. eapply wp_mono; [apply deliver_spec|]. intros ? s2 (b & -> & Hdl).
  assert (Hok1 : chans_ok s1) by by apply (acc_chans _ _ Hacc).
  eapply wp_mono; [apply IH; [by eapply delivered_chans|]|].
  - intros sid Hsid. rw (dl_read _ _ _ _ _ Hdl) (acc_read _ _ Hacc) /by_stream filter_app.
    fold (by_stream sid (read_pending_frames s)).
    destruct b; [|rw app_nil_r; by apply Hblock].
    apply not_elem_of_union in Hsid as [Hsid%not_elem_of_singleton Hsid'].
    by rw Hblock // filter_cons decide_False.
  - intros r s' Hs' Hr Hl. destruct (Hs' Hr Hl) as [Hgone Hord]. split.
    { intros c Hc. eapply Hgone, delivered_gone; [done|]. by apply (acc_gone _ _ Hacc). }
    intros sid c Hc Hc'.
    assert (Hc1 : streams s1 !! sid = Some c) by by apply (acc_streams _ _ Hacc).
    destruct (delivered_kept _ _ _ _ _ sid c Hdl Hok1 Hc1) as [Hc2|Hg]; 
      [|by destruct (Hgone c Hg) as [_ Hne]; apply Hne in Hc'].
    rw (Hord sid c Hc2 Hc') (dl_read _ _ _ _ _ Hdl) (acc_read _ _ Hacc).
    rw !by_stream_app (by_stream_cons sid f buf).
    destruct (decide (frame_stream_id f = sid)) as [<-|Hne].
    + rw (dl_own _ _ _ _ _ Hdl _ Hc2) (acc_log _ _ Hacc) Hblock //.
      destruct b; rw ?app_nil_r -?app_assoc //. by rw by_stream_cons decide_True.
    + rw (dl_other _ _ _ _ _ Hdl) ?(acc_log _ _ Hacc).
      * destruct b; rw ?app_nil_r //. by rw (by_stream_cons sid f []) decide_False // /= app_nil_r.
      * intros Heq. apply Hne. by eapply (proj2 Hok1).
Qed.

(** *** Opening *)

(** A handle as the session creates it, after its first window update. *)
Lemma first_window_update `{!EventSenderLaws T} sid es rx mw h :
  stream_new sid es rx Init mw = Ok h → INITIAL_STREAM_WINDOW ≤ mw → is_u32 mw → fr_queue rx = [] →
  let h' := (send_window_update h).2 in
  id h' = sid ∧ state h' = SynSent ∧ recv_window h' = mw ∧
  es_log (unbound_event_sender h') = es_log es ++ (if es_is_closed es then [] else
    [EvFrame (new_window_update (flags_from Syn) sid (mw - INITIAL_STREAM_WINDOW))]).
Proof.
  intros Hnew Hmw Hu Hrx. assert (Hwf : wf_stream h) by (eapply stream_new_wf; try done; by rw Hrx).
  rw /stream_new /= in Hnew. simplify_eq.
  set (h := mkStream sid Init mw INITIAL_STREAM_WINDOW INITIAL_STREAM_WINDOW [] es rx None None []).
  assert (Hd : window_delta h = mw - INITIAL_STREAM_WINDOW).
  { rw /window_delta /buf_len /=. lia. }
  apply (wp_send_window_update h (λ _ h', id h' = sid ∧ state h' = SynSent ∧ recv_window h' = mw ∧
    es_log (unbound_event_sender h') = es_log es ++ (if es_is_closed es then [] else
    [EvFrame (new_window_update (flags_from Syn) sid (mw - INITIAL_STREAM_WINDOW))]))); [done|done|].
  intros _ es' Hlog _. rw Hd in Hlog |- *. simpl. split_and!; [done|done|lia|].
  rw Hlog /log_after /=. destruct (es_is_closed es); by rw ?app_nil_r.
Qed.

Lemma open_stream_cases s :
  open_stream s =
    if is_dead s then (Err SessionShutdown, s)
    else if remote_go_away s then (Err RemoteGoAway, s)
    else if next_stream_id s + 2 <=? u32_max then
      insert_stream (next_stream_id s) Init (set_next_stream_id (next_stream_id s + 2) s)
    else (Err StreamsExhausted, s).
Proof.
  rw /open_stream /mbind /M_bind /get. destruct (is_dead s); [done|].
  destruct (remote_go_away s); [done|]. rw /create_stream /mbind /M_bind /gets /u32_checked_add.
  by destruct (_ <=? _).
Qed.

(** ** Properties *)

(** Stream ids and limits: in every state a session reaches, the next id has
    the parity of its side (odd for a client, even for a server), is a non-zero
    [u32], so ids are never reused by wrapping, and no more streams wait to be
    accepted than the backlog allows. *)
Theorem session_ids_invariant w es cfg ty s s' :
  session_new w es cfg ty = Ok s → rtc session_step s s' →
  next_stream_id s' mod 2 = match sty s' with Client => 1 | Server => 0 end ∧
  1 ≤ next_stream_id s' ≤ u32_max ∧ is_u32 (ping_id s') ∧
  length (pending_streams s') ≤ Z.max 0 (accept_backlog (config s')).
Proof.
  intros Hnew Hs. destruct (reachable_inv ids_ok s s' Hs) as [????]; [|done].
  rw /session_new in Hnew. destruct (_ <=? _); [|done].
  destruct (enable_keepalive cfg); [destruct (interval _ w) as [i w']|];
    injection Hnew as <-; by split; destruct ty; simpl; try lia.
Qed.

(** The end of a session is final: once both sides have gone away or the
    connection has ended, the session stays dead, polling it yields the end of
    the stream and does nothing, and no stream can be opened. *)
Theorem dead_session_is_final s s' :
  is_dead s = true → rtc session_step s s' →
  is_dead s' = true ∧ poll_next s' = (Ok (Ready None), s') ∧
  open_stream s' = (Err SessionShutdown, s') ∧ shutdown s' = (Ok (), s').
Proof.
  intros Hd Hs. assert (Hd' : is_dead s' = true) by by apply (reachable_inv (λ s, is_dead s = true) s s' Hs).
  rw open_stream_cases /poll_next /shutdown /mbind /M_bind /gets Hd'. done.
Qed.

(** After the local go-away no inbound stream is accepted any more: every
    stream that polling still hands out was waiting when the go-away was sent. *)
Theorem no_inbound_after_go_away s s' st s'' :
  local_go_away s = true → rtc session_step s s' →
  poll_next s' = (Ok (Ready (Some st)), s'') → st ∈ pending_streams s.
Proof.
  intros Hl Hs Hp. assert (Hs' : only_pending (pending_streams s) s').
  { by apply (reachable_inv (only_pending _) s s' Hs). }
  enough (wp poll_next (λ r _, ∀ st, r = Ok (Ready (Some st)) → st ∈ pending_streams s) s') as Hw.
  { by apply (wp_intro _ _ _ _ _ Hw Hp). }
  rw /poll_next. apply wp_bind, wp_gets. destruct (is_dead s'); [done|].
  apply (wp_bind_inv (only_pending (pending_streams s))); [apply inv_poll_keepalive, _|done| |done..].
  intros b s1 Hs1. apply wp_bind. eapply wp_mono; [by apply poll_rounds_pending|].
  intros [[item|need]|e|] s2 Hi; [apply wp_ret|apply wp_bind|done..].
  - intros st' [= ->]. by apply Hi.
  - rw /tell. wp_steps; done.
Qed.

(** Frames leave a session in order and without loss: on a live session a
    successful [send_all] leaves on the wire, followed by the queue, exactly what
    was there before; when it reports that all was sent, the queue is empty; when
    the connection fails, the wire still holds a prefix.  The loop ends within
    two rounds per frame. *)
Theorem send_all_fifo s r s' :
  is_dead s = false → send_all s = (r, s') →
  match r with
  | Ok more => out s' ++ write_pending_frames s' = out s ++ write_pending_frames s ∧
               (more = false → write_pending_frames s' = [])
  | Err _ => out s' `prefix_of` out s ++ write_pending_frames s
  | Panic => False
  end.
Proof.
  intros Hd Hs. destruct (send_loop_spec (2 * length (write_pending_frames s)) s Hd ltac:(by left))
    as [[_ Hr] Hf]. rw /send_all in Hs. rw Hs /= in Hr Hf. destruct r as [b| |]; [|done..].
  split; [done|]. intros ->. by apply Hf.
Qed.

(** Received frames reach each stream in order and without loss: after a
    distribution that did not end the session, what a stream's channel got
    followed by what is still waiting for it is what it had, followed by the
    frames that were waiting, in order.  A slow stream does not affect others. *)
Theorem distribute_in_order s s' sid c :
  chans_ok s → distribute_to_substream s = (Ok (), s') → local_go_away s' = false →
  streams s !! sid = Some c → streams s' !! sid = Some c →
  chan_log c (world s') ++ by_stream sid (read_pending_frames s') =
  chan_log c (world s) ++ by_stream sid (read_pending_frames s).
Proof.
  intros Hok Hd Hl Hc Hc'. rw /distribute_to_substream /mbind /M_bind /= in Hd.
  set (s0 := set_read_pending_frames [] s) in *.
  destruct (wp_intro _ _ _ _ _ (distribute_loop_order (read_pending_frames s) ∅ s0 Hok ltac:(done)) Hd)
    as [_ Ho]; [done..|]. by apply Ho.
Qed.

(** [open_stream] on every branch: it fails on a dead session, after the
    peer's go-away, when the ids are used up or when the peer took the id; else
    the new stream has the next id, is announced with [Syn] and the full receive
    window, and is registered. *)
Theorem open_stream_behaviour `{!EventSenderLaws T} s r s' :
  let sid := next_stream_id s in
  let mw := max_stream_window_size (config s) in
  INITIAL_STREAM_WINDOW ≤ mw → is_u32 mw → open_stream s = (r, s') →
  match r with
  | Err SessionShutdown => is_dead s = true ∧ s' = s
  | Err RemoteGoAway => is_dead s = false ∧ remote_go_away s = true ∧ s' = s
  | Err StreamsExhausted => u32_max < sid + 2 ∧ s' = s
  | Err DuplicateStream => is_Some (streams s !! sid) ∧ streams s' = streams s
  | Err _ | Panic => False
  | Ok h =>
    is_dead s = false ∧ remote_go_away s = false ∧ streams s !! sid = None ∧
    id h = sid ∧ state h = SynSent ∧ recv_window h = mw ∧
    next_stream_id s' = sid + 2 ∧ (∃ c, streams s' = <[sid := c]> (streams s)) ∧
    es_log (unbound_event_sender h) = es_log (event_sender s) ++
      (if es_is_closed (event_sender s) then [] else
       [EvFrame (new_window_update (flags_from Syn) sid (mw - INITIAL_STREAM_WINDOW))])
  end.
Proof.
  intros sid mw Hmw Hu. rw open_stream_cases.
  destruct (is_dead s); [by intros [= <- <-]|]. destruct (remote_go_away s); [by intros [= <- <-]|].
  destruct (Z.leb_spec (next_stream_id s + 2) u32_max); [|intros [= <- <-]; split; [lia|done]].
  rw insert_stream_eq /=. destruct (channel 8 (world s)) as [[c rx] w] eqn:Hch.
  apply channel_fresh in Hch as (_ & _ & _ & _ & Hrx). fold sid mw.
  destruct (streams s !! sid) eqn:Hsid; [intros [= <- <-]; by split|].
  pose proof (first_window_update sid (event_sender s) rx mw _ eq_refl Hmw Hu Hrx) as (? & ? & ? & ?).
  intros [= <- <-]. split_and!; try done. by exists c.
Qed.

(** Pings: a ping request is answered with an acknowledgement of the same
    id, sent after everything queued before; an acknowledgement removes its ping
    and all older ones and sends nothing. *)
Theorem handle_ping_behaviour frame s r s' :
  is_dead s = false → handle_ping frame s = (r, s') →
  if flags_contains (frame_flags frame) Syn then
    pings s' = pings s ∧
    (r = Ok () → out s' ++ write_pending_frames s' =
      out s ++ write_pending_frames s ++ [new_ping (flags_from Ack) (frame_length frame)])
  else
    r = Ok () ∧ out s' = out s ∧ write_pending_frames s' = write_pending_frames s ∧
    ∀ k, pings s' !! k =
      if flags_contains (frame_flags frame) Ack && (k <=? frame_length frame) then None
      else pings s !! k.
Proof.
  intros Hd Hp. rw /handle_ping in Hp. destruct (flags_contains (frame_flags frame) Syn).
  - pose proof (send_frame_spec (new_ping (flags_from Ack) (frame_length frame)) s Hd) as [Hio Hr].
    rw /send_ping /mbind /M_bind /mret /M_ret /= in Hp.
    destruct (send_frame _ s) as [r1 s1]; simpl in *.
    destruct Hio as (w & fs & -> & _). destruct r1 as [[]|e|]; simplify_eq; done.
  - destruct (flags_contains (frame_flags frame) Ack); simpl in *; [|by injection Hp as <- <-].
    rw /mbind /M_bind /modify in Hp. injection Hp as <- <-. split_and!; try done. intros k. simpl.
    rw map_lookup_filter. destruct (Z.leb_spec k (frame_length frame)) as [Hle|Hlt].
    + destruct (decide (k = frame_length frame)) as [->|]; [by rw lookup_delete_eq|].
      rw lookup_delete_ne //. destruct (pings s !! k); [|done]. simpl. case_guard; [lia|done].
    + rw lookup_delete_ne; [|lia]. destruct (pings s !! k); [|done]. simpl. case_guard; [done|lia].
Qed.

(** Keep-alive: when some ping has been unanswered for more than 30 seconds
    the session reports a timeout and changes nothing; otherwise, if the sending
    succeeds, a ping with the next id is sent after everything queued before and
    recorded with the current time. *)
Theorem keep_alive_behaviour t s r s' :
  is_dead s = false → keep_alive t s = (r, s') →
  (∃ i at_, pings s !! i = Some at_ ∧ TIMEOUT < t - at_) ∧ r = Err io.TimedOut ∧ s' = s ∨
  (∀ i at_, pings s !! i = Some at_ → t - at_ ≤ TIMEOUT) ∧
  (r = Ok () → ping_id s' = u32_add (ping_id s) 1 ∧ pings s' = <[ping_id s' := t]> (pings s) ∧
    out s' ++ write_pending_frames s' =
    out s ++ write_pending_frames s ++ [new_ping (flags_from Syn) (ping_id s')]).
Proof.
  intros Hd. rw /keep_alive. rw /mbind {1}/M_bind /gets.
  destruct (existsb _ (map_to_list (pings s))) eqn:Hex.
  - intros [= <- <-]. left. apply existsb_exists in Hex as ([i at_] & Hin & Hlt).
    apply list_elem_of_In, elem_of_map_to_list in Hin. apply Z.ltb_lt in Hlt.
    split; [|done]. exists i, at_. split; [done|]. rw /TIMEOUT /from_secs in Hlt |- *. lia.
  - intros Hk. right. split.
    { intros i at_ Hi. apply elem_of_map_to_list in Hi.
      apply list_elem_of_In in Hi. rw -not_true_iff_false existsb_exists in Hex.
      destruct (Z.le_gt_cases (t - at_) TIMEOUT) as [|Hgt]; [done|]. exfalso. apply Hex.
      exists (i, at_). split; [done|]. apply Z.ltb_lt. lia. }
    intros ->. rw /send_ping /mbind /M_bind /mret /M_ret /= in Hk.
    set (s1 := set_ping_id _ s) in Hk.
    pose proof (send_frame_spec (new_ping (flags_from Syn) (ping_id s1)) s1 Hd) as [Hio Hr].
    destruct (send_frame _ s1) as [r1 s2]; simpl in *.
    destruct Hio as (w & fs & -> & _). destruct r1 as [[]|e|]; simplify_eq. by injection Hk as <-.
Qed.

(** Go-away handshake: after the peer's go-away, whatever its code, the
    session has sent its own (unless it had already) and is dead; and a session
    whose own go-away stays unanswered until its timer fires ends as well. *)
Theorem go_away_ends_session s :
  (∀ frame s', handle_go_away frame s = (Ok (), s') → is_dead s' = true) ∧
  (∀ i i' w', is_dead s = false → local_go_away s = true → keepalive s = Some i →
    interval_poll_next i (world s) = (Ready (Some ()), (i', w')) →
    (poll_next s).1 = Ok (Ready None)).
Proof.
  split.
  - intros frame s' Hg.
    enough (wp (handle_go_away frame) (λ r s', r = Ok () → is_dead s' = true) s) as Hw.
    { by apply (wp_intro _ _ _ _ _ Hw Hg). }
    assert (wp (modify (set_remote_go_away true);; modify (set_write_pending_frames []);;
      gone ← gets local_go_away; when (negb gone) send_go_away)
      (λ r s', r = Ok () → is_dead s' = true) s); [|rw /handle_go_away; by destruct (go_away_from _)].
    apply wp_bind, wp_modify, wp_bind, wp_modify, wp_bind, wp_gets, wp_when; simpl; intros Hl.
    + eapply wp_mono; [apply wp_and; [apply send_go_away_local|]|].
      * apply (wp_preserves (λ s, remote_go_away s = true)); [|done].
        apply inv_send_go_away_with_code, _.
      * simpl. intros r s1 [H1 H2] Hr. by rw /is_dead H1 // H2.
    + intros _. apply negb_false_iff in Hl. by rw /is_dead /= Hl.
  - intros i i' w' Hd Hl Hk Hi.
    change (wp poll_next (λ r _, r = Ok (Ready None)) s). rw /poll_next /poll_keepalive.
    apply wp_bind, wp_gets. rw Hd. apply wp_bind, wp_bind, wp_gets. rw Hk.
    apply wp_bind, wp_ask. rw Hi. apply wp_bind, wp_modify, wp_bind, wp_gets. rw /= Hl.
    apply wp_bind, wp_modify, wp_ret, wp_bind.
    apply (wp_eq _ (mret (inl None))); [|done]. apply (poll_rounds_dead 15 false). by rw /is_dead /= Hl.
Qed.
End traffic.

(** ** A concrete environment *)

(** A connection that buffers up to eight frames between flushes, channels of
    eight frames, and scripted input: a model of [World] and its laws. *)
Record DemoWorld := mkDemoWorld {
  dw_wire : list Frame;
  dw_room : nat;
  dw_input : list Frame;
  dw_chans : list (list Frame);
  dw_events : list StreamEvent;
  dw_commands : list (Command nat);
  dw_replies : list nat;
  dw_ticks : nat;
  dw_time : Z;
  dw_wakes : nat;
}.

Definition dw_start_send (f : Frame) (w : DemoWorld) : Res io.ErrorKind unit * DemoWorld :=
  (Ok (), mkDemoWorld (dw_wire w ++ [f]) (pred (dw_room w)) (dw_input w) (dw_chans w) (dw_events w)
    (dw_commands w) (dw_replies w) (dw_ticks w) (dw_time w) (dw_wakes w)).
Definition dw_flush (w : DemoWorld) : Res io.ErrorKind (Poll unit) * DemoWorld :=
  (Ok (Ready ()), mkDemoWorld (dw_wire w) 8 (dw_input w) (dw_chans w) (dw_events w)
    (dw_commands w) (dw_replies w) (dw_ticks w) (dw_time w) (dw_wakes w)).
Definition dw_set_input (fs : list Frame) (w : DemoWorld) : DemoWorld :=
  mkDemoWorld (dw_wire w) (dw_room w) fs (dw_chans w) (dw_events w)
    (dw_commands w) (dw_replies w) (dw_ticks w) (dw_time w) (dw_wakes w).
Definition dw_set_chans (cs : list (list Frame)) (w : DemoWorld) : DemoWorld :=
  mkDemoWorld (dw_wire w) (dw_room w) (dw_input w) cs (dw_events w)
    (dw_commands w) (dw_replies w) (dw_ticks w) (dw_time w) (dw_wakes w).
Definition dw_set_events (es : list StreamEvent) (w : DemoWorld) : DemoWorld :=
  mkDemoWorld (dw_wire w) (dw_room w) (dw_input w) (dw_chans w) es
    (dw_commands w) (dw_replies w) (dw_ticks w) (dw_time w) (dw_wakes w).
Definition dw_set_commands (cs : list (Command nat)) (w : DemoWorld) : DemoWorld :=
  mkDemoWorld (dw_wire w) (dw_room w) (dw_input w) (dw_chans w) (dw_events w)
    cs (dw_replies w) (dw_ticks w) (dw_time w) (dw_wakes w).
Definition dw_reply (r : nat) (w : DemoWorld) : DemoWorld :=
  mkDemoWorld (dw_wire w) (dw_room w) (dw_input w) (dw_chans w) (dw_events w)
    (dw_commands w) (dw_replies w ++ [r]) (dw_ticks w) (dw_time w) (dw_wakes w).
Definition dw_set_ticks (n : nat) (w : DemoWorld) : DemoWorld :=
  mkDemoWorld (dw_wire w) (dw_room w) (dw_input w) (dw_chans w) (dw_events w)
    (dw_commands w) (dw_replies w) n (dw_time w) (dw_wakes w).
Definition dw_wake (w : DemoWorld) : DemoWorld :=
  mkDemoWorld (dw_wire w) (dw_room w) (dw_input w) (dw_chans w) (dw_events w)
    (dw_commands w) (dw_replies w) (dw_ticks w) (dw_time w) (S (dw_wakes w)).

#[global] Instance demo_world : World DemoWorld nat ListReceiver ListSender nat unit := {
  framed_poll_ready w := (Ok (match dw_room w with O => Pending | S _ => Ready () end), w);
  framed_start_send := dw_start_send;
  framed_poll_flush := dw_flush;
  framed_poll_next w :=
    match dw_input w with
    | [] => (Ok Pending, w)
    | f :: fs => (Ok (Ready (Some f)), dw_set_input fs w)
    end;
  channel n w := (length (dw_chans w), mkReceiver [] true false, dw_set_chans (dw_chans w ++ [[]]) w);
  sender_poll_ready c w :=
    (match dw_chans w !! c with
     | Some fs => if (length fs <? 8)%nat then Ready true else Pending
     | None => Ready false
     end, w);
  sender_try_send c f w :=
    match dw_chans w !! c with
    | Some fs => (Sent, dw_set_chans (<[c := fs ++ [f]]> (dw_chans w)) w)
    | None => (Disconnected, w)
    end;
  event_poll_next w :=
    match dw_events w with
    | [] => (Pending, w)
    | e :: es => (Ready (Some e), dw_set_events es w)
    end;
  control_poll_next w :=
    match dw_commands w with
    | [] => (Pending, w)
    | c :: cs => (Ready (Some c), dw_set_commands cs w)
    end;
  reply_open tx _ := dw_reply tx;
  reply_shutdown := dw_reply;
  interval _ w := ((), w);
  interval_poll_next _ w :=
    match dw_ticks w with
    | O => (Pending, ((), w))
    | S n => (Ready (Some ()), ((), dw_set_ticks n w))
    end;
  now w := (dw_time w, w);
  wake_by_ref := dw_wake;
}.

#[global] Instance demo_traffic : Traffic (W:=DemoWorld) (Chan:=nat) := {
  wire := dw_wire;
  chan_log c w := default [] (dw_chans w !! c);
  chan_known c w := (c < length (dw_chans w))%nat;
}.

#[global] Instance demo_world_laws : WorldLaws (W:=DemoWorld) (Chan:=nat).
Proof.
  split; simpl; try (by intros; split_and!).
  - intros w. destruct (dw_input w); by split_and!.
  - intros _ w. destruct (dw_input w); done.
  - intros w w' [= <-]. done.
  - intros n w c rx w' [= <- <- <-]. split_and!; simpl; try done; [|lia|rw length_app /=; lia|].
    + split_and!; simpl; [done| |intros c; rw length_app; lia]. intros c.
      destruct (Nat.lt_ge_cases c (length (dw_chans w))); [by rw lookup_app_l|].
      rw (lookup_ge_None_2 (dw_chans w)) // lookup_app_r //.
      by destruct (c - length (dw_chans w))%nat as [|[]].
    + by rw lookup_app_r // Nat.sub_diag.
  - intros c f w. destruct (dw_chans w !! c) as [fs|] eqn:Hc; simpl.
    + split_and!; try done; [by intros; rw length_insert|..].
      * intros c' Hne. by rw list_lookup_insert_ne.
      * rw list_lookup_insert_eq; [done|by eapply lookup_lt_Some].
    + by rw Hc.
  - intros w. destruct (dw_events w); by split_and!.
  - intros w. destruct (dw_commands w); by split_and!.
  - intros i w. destruct (dw_ticks w); by split_and!.
Qed.

Abbreviation DemoSession := (Session DemoWorld nat ListReceiver ListSender unit).

Definition demo_world_0 : DemoWorld :=
  mkDemoWorld [] 1 [new_data 0 1 [x05]; new_ping (flags_from Syn) 9] [] [] [] [] 0 0 0.

(** A client session, with its first stream opened. *)
Definition demo_session : DemoSession :=
  mkSession demo_world_0 false false false 1 Client config_default ∅ 0 ∅ [] [] []
    (mkSender [] false) (Some ()).
Definition demo_session_1 : DemoSession := (open_stream demo_session).2.

(** Frames queued both ways: two to send, two to distribute. *)
Definition demo_busy : DemoSession :=
  set_read_pending_frames [new_data 0 1 [x05]; new_data 0 1 [x06]]
    (set_write_pending_frames [new_ping 0 1; new_ping 0 2] demo_session_1).

(** A session that has said its go-away, and one that is dead. *)
Definition demo_leaving : DemoSession :=
  set_pending_streams [demo_stream] (set_local_go_away true demo_session_1).
Definition demo_dead : DemoSession := set_remote_go_away true demo_leaving.

Lemma session_ids_invariant_witness :
  next_stream_id demo_session_1 mod 2 = match sty demo_session_1 with Client => 1 | Server => 0 end ∧
  1 ≤ next_stream_id demo_session_1 ≤ u32_max ∧ is_u32 (ping_id demo_session_1) ∧
  length (pending_streams demo_session_1) ≤ Z.max 0 (accept_backlog (config demo_session_1)).
Proof.
  apply (session_ids_invariant demo_world_0 (mkSender [] false) config_default Client demo_session).
  - reflexivity.
  - apply rtc_once, ss_open_stream.
Defined.

Lemma dead_session_is_final_witness :
  is_dead demo_dead = true ∧ poll_next demo_dead = (Ok (Ready None), demo_dead) ∧
  open_stream demo_dead = (Err SessionShutdown, demo_dead) ∧ shutdown demo_dead = (Ok (), demo_dead).
Proof. apply (dead_session_is_final demo_dead); [reflexivity|apply rtc_refl]. Defined.

Lemma no_inbound_after_go_away_witness : demo_stream ∈ pending_streams demo_leaving.
Proof.
  apply (no_inbound_after_go_away demo_leaving demo_leaving demo_stream (poll_next demo_leaving).2).
  - reflexivity.
  - apply rtc_refl.
  - vm_compute. reflexivity.
Defined.

Lemma send_all_fifo_witness :
  wire (world (send_all demo_busy).2) ++ write_pending_frames (send_all demo_busy).2 =
    wire (world demo_busy) ++ write_pending_frames demo_busy ∧
  (false = false → write_pending_frames (send_all demo_busy).2 = []).
Proof. apply (send_all_fifo demo_busy (Ok false)); [reflexivity|vm_compute; reflexivity]. Defined.

Lemma distribute_in_order_witness :
  chan_log 0%nat (world (distribute_to_substream demo_busy).2) ++
    by_stream 1 (read_pending_frames (distribute_to_substream demo_busy).2) =
  chan_log 0%nat (world demo_busy) ++ by_stream 1 (read_pending_frames demo_busy).
Proof.
  apply distribute_in_order.
  - split.
    + intros sid c. change (streams demo_busy) with (<[1 := 0%nat]> (∅ : gmap Z nat)).
      intros [[<- <-]|[_ ?]]%lookup_insert_Some; [|done]. vm_compute. lia.
    + intros sid sid' c. change (streams demo_busy) with (<[1 := 0%nat]> (∅ : gmap Z nat)).
      intros [[<- _]|[_ ?]]%lookup_insert_Some [[<- _]|[_ ?]]%lookup_insert_Some; done.
  - vm_compute. reflexivity.
  - reflexivity.
  - reflexivity.
  - reflexivity.
Defined.

Lemma open_stream_behaviour_witness :
  let h := match (open_stream demo_session).1 with Ok h => h | _ => demo_stream end in
  is_dead demo_session = false ∧ remote_go_away demo_session = false ∧
  streams demo_session !! 1 = None ∧ id h = 1 ∧ state h = SynSent ∧
  recv_window h = INITIAL_STREAM_WINDOW ∧
  next_stream_id demo_session_1 = 1 + 2 ∧ (∃ c, streams demo_session_1 = <[1 := c]> (streams demo_session)) ∧
  es_log (unbound_event_sender h) = es_log (event_sender demo_session) ++
    (if es_is_closed (event_sender demo_session) then [] else
     [EvFrame (new_window_update (flags_from Syn) 1 (INITIAL_STREAM_WINDOW - INITIAL_STREAM_WINDOW))]).
Proof.
  exact (open_stream_behaviour demo_session (open_stream demo_session).1 demo_session_1
    (Z.le_refl _) ltac:(by vm_compute) (surjective_pairing _)).
Defined.

Lemma handle_ping_behaviour_witness :
  pings (handle_ping (new_ping (flags_from Syn) 9) demo_busy).2 = pings demo_busy ∧
  ((Ok () : Res io.ErrorKind unit) = Ok () →
   wire (world (handle_ping (new_ping (flags_from Syn) 9) demo_busy).2) ++
     write_pending_frames (handle_ping (new_ping (flags_from Syn) 9) demo_busy).2 =
   wire (world demo_busy) ++ write_pending_frames demo_busy ++ [new_ping (flags_from Ack) 9]).
Proof.
  apply (handle_ping_behaviour (new_ping (flags_from Syn) 9) demo_busy); [reflexivity|].
  vm_compute. reflexivity.
Defined.

Lemma keep_alive_behaviour_witness :
  (∃ i at_, pings demo_busy !! i = Some at_ ∧ TIMEOUT < 5 - at_) ∧
    (Ok () : Res io.ErrorKind unit) = Err io.TimedOut ∧ (keep_alive 5 demo_busy).2 = demo_busy ∨
  (∀ i at_, pings demo_busy !! i = Some at_ → 5 - at_ ≤ TIMEOUT) ∧
  ((Ok () : Res io.ErrorKind unit) = Ok () →
    ping_id (keep_alive 5 demo_busy).2 = u32_add (ping_id demo_busy) 1 ∧
    pings (keep_alive 5 demo_busy).2 = <[ping_id (keep_alive 5 demo_busy).2 := 5]> (pings demo_busy) ∧
    wire (world (keep_alive 5 demo_busy).2) ++ write_pending_frames (keep_alive 5 demo_busy).2 =
    wire (world demo_busy) ++ write_pending_frames demo_busy ++
      [new_ping (flags_from Syn) (ping_id (keep_alive 5 demo_busy).2)]).
Proof. apply keep_alive_behaviour; [reflexivity|vm_compute; reflexivity]. Defined.

Lemma go_away_ends_session_witness :
  is_dead (handle_go_away (new_go_away InternalError) demo_busy).2 = true ∧
  (poll_next (set_world (dw_set_ticks 1 (world demo_leaving)) demo_leaving)).1 = Ok (Ready None).
Proof.
  split.
  - apply (proj1 (go_away_ends_session demo_busy) (new_go_away InternalError)).
    vm_compute. reflexivity.
  - apply (proj2 (go_away_ends_session (set_world (dw_set_ticks 1 (world demo_leaving)) demo_leaving))
      () () (dw_set_ticks 0 (world demo_leaving))); reflexivity.
Defined.
