(* ===== verification/ChannelQueue.v ===== *)
(** * The intrusive MPSC queue under the priority channel

    [tentacle/src/channel/queue.rs]: a linked list of heap nodes, pushed to by
    any number of threads and popped by one. Memory is an explicit heap, and
    [push] and [pop] are cut at their accesses to shared atomics, so that the
    step relation [qstep] interleaves any number of pushers with the consumer.
    The theorems show that the queue is a FIFO linearised at the [swap] of
    [push], that no interleaving frees a node another thread still writes or
    fails an assertion, and that dropping the queue frees every node. *)
From S2P Require Import Prelude.

(** Addresses the allocator returns; [None] is the null pointer. *)
Abbreviation ptr := (nat).

Inductive PopResult (T : Type) : Type :=
| Data (t : T)
| Empty
| Inconsistent.
Arguments Data {T} t.
Arguments Empty {T}.
Arguments Inconsistent {T}.

Record Node (T : Type) := mkNode { next : option ptr; value : option T }.
Arguments mkNode {T} next value.
Arguments next {T} n.
Arguments value {T} n.

Record Queue (T : Type) := mkQueue { heap : gmap ptr (Node T); head : ptr; tail : ptr }.
Arguments mkQueue {T} heap head tail.
Arguments heap {T} q.
Arguments head {T} q.
Arguments tail {T} q.

(** Access to memory that is not allocated (or was freed). *)
Inductive Fault := UseAfterFree.

Section queue.
Context {T : Type}.
Implicit Types (q : Queue T) (h : gmap ptr (Node T)).

(** [Node::new]: the allocator returned the address [n]. *)
Definition node_new (n : ptr) (v : option T) (h : gmap ptr (Node T)) : gmap ptr (Node T) :=
  <[n := mkNode None v]> h.

Definition queue_new (stub : ptr) : Queue T :=
  mkQueue (node_new stub None ∅) stub stub.

(** First half of [push]: allocate, then swap the head; returns [prev]. *)
Definition push_swap (n : ptr) (t : T) (q : Queue T) : ptr * Queue T :=
  (head q, mkQueue (node_new n (Some t) (heap q)) n (tail q)).

(** Second half of [push]: [prev->next.store(n)]. *)
Definition push_store (prev n : ptr) (q : Queue T) : Res Fault (Queue T) :=
  match heap q !! prev with
  | None => Err UseAfterFree
  | Some nd => Ok (mkQueue (<[prev := mkNode (Some n) (value nd)]> (heap q)) (head q) (tail q))
  end.

(** First half of [pop]: load [tail->next]; when it is not null, move the
    tail, take the value and free the old tail. Those last accesses are to
    memory that only the consumer touches. *)
Definition pop_load (q : Queue T) : Res Fault (option T * Queue T) :=
  match heap q !! tail q with
  | None => Err UseAfterFree
  | Some tl =>
      match next tl with
      | None => Ok (None, q)
      | Some n =>
          match heap q !! n with
          | None => Err UseAfterFree
          | Some nd =>
              match value tl, value nd with
              | None, Some ret =>
                  Ok (Some ret,
                      mkQueue (delete (tail q) (<[n := mkNode (next nd) None]> (heap q)))
                        (head q) n)
              | _, _ => Panic
              end
          end
      end
  end.

(** Second half of [pop]: load the head and compare it with the tail. *)
Definition pop_head (tl : ptr) (q : Queue T) : PopResult T :=
  if decide (head q = tl) then Empty else Inconsistent.

(** [push] and [pop] when no other thread runs in between. *)
Definition push (n : ptr) (t : T) (q : Queue T) : Res Fault (Queue T) :=
  let '(prev, q) := push_swap n t q in push_store prev n q.

Definition pop (q : Queue T) : Res Fault (PopResult T * Queue T) :=
  match pop_load q with
  | Ok (Some t, q') => Ok (Data t, q')
  | Ok (None, q') => Ok (pop_head (tail q) q', q')
  | Err e => Err e
  | Panic => Panic
  end.

(** [pop_spin] that gives up after [fuel] attempts ([None]). *)
Fixpoint pop_spin (fuel : nat) (q : Queue T) : option (Res Fault (option T * Queue T)) :=
  match fuel with
  | O => None
  | S fuel =>
      match pop q with
      | Ok (Empty, q') => Some (Ok (None, q'))
      | Ok (Data t, q') => Some (Ok (Some t, q'))
      | Ok (Inconsistent, q') => pop_spin fuel q'
      | Err e => Some (Err e)
      | Panic => Some Panic
      end
  end.

(** [Drop]: frees the nodes from the tail on; returns the heap that is left. *)
Fixpoint drop_queue (fuel : nat) (cur : option ptr) (h : gmap ptr (Node T)) :
    option (Res Fault (gmap ptr (Node T))) :=
  match cur with
  | None => Some (Ok h)
  | Some cur =>
      match fuel with
      | O => None
      | S fuel =>
          match h !! cur with
          | None => Some (Err UseAfterFree)
          | Some nd => drop_queue fuel (next nd) (delete cur h)
          end
      end
  end.

(** ** The interleaved system *)

(** [pushing] holds, for each push between its swap and its store, the [prev]
    and the [n] of that thread; [popping], for a consumer between its two
    loads, the tail it found without a successor. *)
Record Conf := mkConf { cq : Queue T; pushing : list (ptr * ptr); popping : option ptr }.

Inductive Event :=
| EPush (t : T)
| EPop (r : PopResult T)
| ETau.

(** One atomic step of some thread. [qs_swap] takes any address that is not
    in use, also one that was freed before. *)
Inductive qstep : Conf → Event → Conf → Prop :=
| qs_swap q ps c n t prev q' :
    heap q !! n = None → push_swap n t q = (prev, q') →
    qstep (mkConf q ps c) (EPush t) (mkConf q' ((prev, n) :: ps) c)
| qs_store q ps1 ps2 c prev n q' :
    push_store prev n q = Ok q' →
    qstep (mkConf q (ps1 ++ (prev, n) :: ps2) c) ETau (mkConf q' (ps1 ++ ps2) c)
| qs_pop_data q ps t q' :
    pop_load q = Ok (Some t, q') →
    qstep (mkConf q ps None) (EPop (Data t)) (mkConf q' ps None)
| qs_pop_null q ps q' :
    pop_load q = Ok (None, q') →
    qstep (mkConf q ps None) ETau (mkConf q' ps (Some (tail q)))
| qs_pop_head q ps tl r :
    pop_head tl q = r →
    qstep (mkConf q ps (Some tl)) (EPop r) (mkConf q ps None).

Inductive qrun : Conf → list Event → Conf → Prop :=
| qrun_nil c : qrun c [] c
| qrun_snoc c es c' e c'' : qrun c es c' → qstep c' e c'' → qrun c (es ++ [e]) c''.

Definition conf_init (stub : ptr) : Conf := mkConf (queue_new stub) [] None.

(** No thread can fault in its next step: every pending store writes to an
    allocated node, and the consumer neither reads freed memory nor fails an
    assertion. *)
Definition conf_safe (c : Conf) : Prop :=
  (∀ prev n, (prev, n) ∈ pushing c → ∃ q', push_store prev n (cq c) = Ok q') ∧
  (∃ o q', pop_load (cq c) = Ok (o, q')).

(** ** The abstract queue *)

(** A FIFO: pushes append, pops take the oldest, a pop that reports [Empty]
    does so on an empty queue, one that reports [Inconsistent] on a non-empty
    one. *)
Inductive fifo_step : list T → Event → list T → Prop :=
| fs_push l t : fifo_step l (EPush t) (l ++ [t])
| fs_pop l t : fifo_step (t :: l) (EPop (Data t)) l
| fs_empty : fifo_step [] (EPop Empty) []
| fs_inconsistent t l : fifo_step (t :: l) (EPop Inconsistent) (t :: l)
| fs_tau l : fifo_step l ETau l.

Inductive fifo_run : list T → list Event → list T → Prop :=
| fr_nil l : fifo_run l [] l
| fr_snoc l es l' e l'' : fifo_run l es l' → fifo_step l' e l'' → fifo_run l (es ++ [e]) l''.

Definition pushed (es : list Event) : list T :=
  omap (λ e, match e with EPush t => Some t | _ => None end) es.
Definition popped (es : list Event) : list T :=
  omap (λ e, match e with EPop (Data t) => Some t | _ => None end) es.

(** ** Representation invariant *)

Definition next_of (h : gmap ptr (Node T)) (p : ptr) : option (option ptr) := next <$> h !! p.
Definition value_of (h : gmap ptr (Node T)) (p : ptr) : option (option T) := value <$> h !! p.

(** From [p] on, the nodes [ns] hold the values [vs]; the link to the next
    node is there, or the thread that will store it is still pushing. *)
Fixpoint chain h (ps : list (ptr * ptr)) (p : ptr) (ns : list ptr) (vs : list T) : Prop :=
  match ns, vs with
  | [], [] => next_of h p = Some None ∧ p ∉ ps.*1
  | n :: ns, v :: vs =>
      value_of h n = Some (Some v) ∧
      ((next_of h p = Some (Some n) ∧ p ∉ ps.*1) ∨
       (next_of h p = Some None ∧ (p, n) ∈ ps)) ∧
      chain h ps n ns vs
  | _, _ => False
  end.

Record repr (c : Conf) (ns : list ptr) (vs : list T) : Prop := {
  repr_chain : chain (heap (cq c)) (pushing c) (tail (cq c)) ns vs;
  repr_head : last (tail (cq c) :: ns) = Some (head (cq c));
  repr_nodup : NoDup (tail (cq c) :: ns);
  repr_dom : ∀ p, is_Some (heap (cq c) !! p) ↔ p ∈ tail (cq c) :: ns;
  repr_stub : value_of (heap (cq c)) (tail (cq c)) = Some None;
  repr_pushing : NoDup (pushing c).*1;
  repr_pushers : ∀ p, p ∈ (pushing c).*1 → p ∈ tail (cq c) :: ns;
  repr_popping : ∀ p, popping c = Some p → p = tail (cq c);
}.

Lemma chain_length h ps p ns vs : chain h ps p ns vs → length ns = length vs.
Proof.
  revert p vs. induction ns as [|n ns IH]; intros p [|v vs]; simpl; try done.
  intros (_ & _ & H). f_equal. eauto.
Qed.

(** The links only depend on the nodes of the chain. *)
Lemma chain_frame h h' ps ps' p ns vs :
  chain h ps p ns vs →
  (∀ x, x ∈ p :: ns → next_of h' x = next_of h x) →
  (∀ x, x ∈ ns → value_of h' x = value_of h x) →
  (∀ x, x ∈ p :: ns → (x ∈ ps'.*1 ↔ x ∈ ps.*1) ∧ ∀ n, (x, n) ∈ ps → (x, n) ∈ ps') →
  chain h' ps' p ns vs.
Proof.
  revert p vs. induction ns as [|n ns IH]; intros p [|v vs]; simpl; try done.
  - intros [Hn Hp] Hnx _ Hps. rw Hnx; [|set_solver]. split; [done|].
    by rw (proj1 (Hps p ltac:(set_solver))).
  - intros (Hv & Hl & Hc) Hnx Hvl Hps. split_and!.
    + rw Hvl; [done|set_solver].
    + rw Hnx; [|set_solver]. destruct (Hps p ltac:(set_solver)) as [H1 H2].
      destruct Hl as [[Hl Hp]|[Hl Hp]]; [left|right]; split; auto. by rw H1.
    + eapply IH; [done|..]; intros x Hx; [apply Hnx|apply Hvl|apply Hps]; set_solver.
Qed.

Lemma next_of_insert_ne h p x nd : p ≠ x → next_of (<[p:=nd]> h) x = next_of h x.
Proof. intros. rw /next_of lookup_insert_ne //. Qed.
Lemma value_of_insert_ne h p x nd : p ≠ x → value_of (<[p:=nd]> h) x = value_of h x.
Proof. intros. rw /value_of lookup_insert_ne //. Qed.

(** The swap extends the chain; its link is pending. *)
Lemma chain_swap h ps p ns vs n t hd :
  chain h ps p ns vs → last (p :: ns) = Some hd → NoDup (p :: ns) →
  h !! n = None → n ∉ p :: ns → (∀ x, x ∈ ps.*1 → x ≠ n) →
  chain (node_new n (Some t) h) ((hd, n) :: ps) p (ns ++ [n]) (vs ++ [t]).
Proof.
  rw /node_new. intros Hc Hl Hnd Hn Hni Hps. revert p vs Hc Hl Hnd Hni.
  induction ns as [|m ns IH]; intros p [|v vs]; simpl; try done.
  - intros [Hnx Hp] [= ->] _ Hni. rw next_of_insert_ne; [|set_solver].
    rw /value_of /next_of !lookup_insert_eq /=. split_and!; auto; [|].
    + right. split; [done|]. set_solver.
    + set_solver.
  - intros (Hv & Hlk & Hc) Hl Hnd Hni. apply NoDup_cons in Hnd as [Hp Hnd].
    rw value_of_insert_ne; [|set_solver]. rw next_of_insert_ne; [|set_solver].
    split_and!; [done| |apply IH; auto; set_solver].
    assert (hd ∈ m :: ns) as Hhd by (by apply last_Some_elem_of).
    destruct Hlk as [[??]|[??]]; [left|right]; split; auto; set_solver.
Qed.

(** The store turns the pending link into a real one. *)
Lemma chain_store h ps1 ps2 p ns vs prev n nd :
  chain h (ps1 ++ (prev, n) :: ps2) p ns vs → NoDup (p :: ns) →
  NoDup (ps1 ++ (prev, n) :: ps2).*1 → h !! prev = Some nd →
  chain (<[prev := mkNode (Some n) (value nd)]> h) (ps1 ++ ps2) p ns vs.
Proof.
  intros Hc Hnd Hps Hnx. revert p vs Hc Hnd.
  assert (∀ x, value_of (<[prev := mkNode (Some n) (value nd)]> h) x = value_of h x) as Hval.
  { intros x. destruct (decide (prev = x)) as [<-|]; [|by apply value_of_insert_ne].
    by rw /value_of lookup_insert_eq Hnx. }
  rw fmap_app fmap_cons /= in Hps. rewrite <- Permutation_middle, NoDup_cons in Hps.
  destruct Hps as [Hfr _]. rw -fmap_app in Hfr.
  assert (∀ x, x ≠ prev → x ∈ (ps1 ++ (prev, n) :: ps2).*1 ↔ x ∈ (ps1 ++ ps2).*1) as Hother.
  { intros x Hx. rw !fmap_app fmap_cons /= !elem_of_app elem_of_cons. naive_solver. }
  induction ns as [|m ns IH]; intros p [|v vs]; simpl; try done.
  - intros [Hn Hp] _. assert (p ≠ prev).
    { intros ->. apply Hp. rw fmap_app fmap_cons. set_solver. }
    rw next_of_insert_ne //. by rw -Hother.
  - intros (Hv & Hlk & Hc) Hnd. apply NoDup_cons in Hnd as [Hp Hnd].
    rw Hval. split_and!; [done| |by apply IH].
    destruct (decide (p = prev)) as [->|Hne].
    + left. split; [|done]. rw /next_of lookup_insert_eq /=.
      destruct Hlk as [[_ Hni]|[_ Hin]]; [exfalso; apply Hni; rw fmap_app fmap_cons; set_solver|].
      do 2 f_equal. apply elem_of_app in Hin as [Hin|Hin].
      * exfalso. apply Hfr, list_elem_of_fmap. exists (prev, m). set_solver.
      * apply elem_of_cons in Hin as [[= ->]|Hin]; [done|].
        exfalso. apply Hfr, list_elem_of_fmap. exists (prev, m). set_solver.
    + rw next_of_insert_ne //. destruct Hlk as [[??]|[??]]; [left|right]; split; auto.
      * by rw -Hother.
      * set_solver.
Qed.

(** ** Every step keeps the representation *)

Lemma repr_swap q ps c ns vs n t :
  repr (mkConf q ps c) ns vs → heap q !! n = None →
  repr (mkConf (push_swap n t q).2 ((head q, n) :: ps) c) (ns ++ [n]) (vs ++ [t]).
Proof.
  intros [Hc Hh Hnd Hd Hst Hpn Hpp Hpo] Hn; simpl in *.
  assert (n ∉ tail q :: ns) as Hni by (intros [x Hx]%Hd; congruence).
  assert (tail q ≠ n) by set_solver.
  assert (head q ∈ tail q :: ns) by (by apply last_Some_elem_of).
  split; simpl.
  - apply chain_swap; auto. intros x Hx%Hpp ->. done.
  - by rw -(last_snoc n (tail q :: ns)).
  - change (NoDup ((tail q :: ns) ++ [n])). apply NoDup_app. split_and!; [done|set_solver|apply NoDup_singleton].
  - intros p. rw /node_new. destruct (decide (p = n)) as [->|Hp].
    + rw lookup_insert_eq. split; [set_solver|done].
    + rw lookup_insert_ne // Hd. set_solver.
  - by rw /node_new value_of_insert_ne.
  - apply NoDup_cons. split; [|done]. intros Hin. simpl in Hin.
    clear -Hc Hh Hin. revert Hc Hh. generalize (tail q) as p. revert vs.
    induction ns as [|m ns IH]; intros [|v vs] p; simpl; try done.
    + intros [_ Hp] [= ->]. done.
    + intros (_ & _ & Hc) Hl. by eapply IH.
  - intros p [->|Hp]%elem_of_cons; set_solver.
  - done.
Qed.

Lemma repr_store q ps1 ps2 c ns vs prev n :
  repr (mkConf q (ps1 ++ (prev, n) :: ps2) c) ns vs →
  ∃ q', push_store prev n q = Ok q' ∧ repr (mkConf q' (ps1 ++ ps2) c) ns vs.
Proof.
  intros [Hc Hh Hnd Hd Hst Hpn Hpp Hpo]; simpl in *.
  assert (prev ∈ tail q :: ns) as Hprev.
  { apply Hpp. rw fmap_app fmap_cons. set_solver. }
  destruct (proj2 (Hd prev) Hprev) as [nd Hnd']. rw /push_store Hnd'.
  eexists; split; [done|]. split; simpl; try done.
  - by apply chain_store.
  - intros p. destruct (decide (prev = p)) as [<-|Hp].
    + rw lookup_insert_eq. split; [done|eauto].
    + rw lookup_insert_ne //.
  - destruct (decide (prev = tail q)) as [->|]; [|by rw value_of_insert_ne].
    rw /value_of lookup_insert_eq. by rw /value_of Hnd' in Hst.
  - rw fmap_app fmap_cons in Hpn. rewrite <- Permutation_middle, NoDup_cons in Hpn.
    rw fmap_app. by destruct Hpn.
  - intros p Hp. apply Hpp. rw fmap_app fmap_cons. rw fmap_app in Hp. set_solver.
Qed.

(** The first load of [pop] finds the oldest value, or no link yet. *)
Lemma repr_pop_load q ps c ns vs :
  repr (mkConf q ps c) ns vs →
  (∃ n ns' v vs' q', ns = n :: ns' ∧ vs = v :: vs' ∧ pop_load q = Ok (Some v, q') ∧
     repr (mkConf q' ps None) ns' vs') ∨
  (pop_load q = Ok (None, q) ∧ (vs = [] ∨ ps ≠ [])).
Proof.
  intros [Hc Hh Hnd Hd Hst Hpn Hpp Hpo]; simpl in *. rw /pop_load.
  destruct (proj2 (Hd (tail q)) ltac:(set_solver)) as [tl Htl]. rw Htl.
  rw /value_of Htl in Hst. injection Hst as Hst.
  destruct ns as [|n ns], vs as [|v vs]; simpl in Hc; try done.
  { destruct Hc as [Hn _]. rw /next_of Htl in Hn. injection Hn as ->. right. auto. }
  destruct Hc as (Hv & Hl & Hc). rw /next_of Htl /= in Hl.
  destruct Hl as [[[= ->] Hp]|[[= ->] Hp]]; [left|right; split; [done|]; right; intros ->; set_solver].
  assert (tail q ≠ n) as Hne by (apply NoDup_cons in Hnd; set_solver).
  rw /value_of in Hv. destruct (heap q !! n) as [nd|] eqn:Hn; [|done].
  injection Hv as Hv. rw Hst Hv. do 5 eexists. split_and!; [done..|].
  apply NoDup_cons in Hnd as [Hni Hnd]. pose proof Hnd as [Hni' _]%NoDup_cons.
  split; simpl; try done.
  - eapply chain_frame; [done|..].
    + intros x Hx. rw /next_of lookup_delete_ne; [|set_solver].
      destruct (decide (n = x)) as [<-|]; [by rw lookup_insert_eq Hn|by rw lookup_insert_ne].
    + intros x Hx. rw /value_of lookup_delete_ne; [|set_solver].
      rw lookup_insert_ne //. set_solver.
    + done.
  - intros p. destruct (decide (p = tail q)) as [->|Hpt].
    + rw lookup_delete_eq. split; [by intros []|]. set_solver.
    + rw lookup_delete_ne //. destruct (decide (n = p)) as [<-|].
      * rw lookup_insert_eq. split; [set_solver|done].
      * rw lookup_insert_ne // Hd. set_solver.
  - rw /value_of lookup_delete_ne // lookup_insert_eq //.
  - intros p Hp'. specialize (Hpp p Hp'). apply elem_of_cons in Hpp as [->|]; done.
Qed.

Lemma repr_init stub : repr (conf_init stub) [] [].
Proof.
  split; simpl; try done.
  - rw /next_of /node_new lookup_insert_eq. split; [done|set_solver].
  - apply NoDup_singleton.
  - intros p. rw /node_new. destruct (decide (p = stub)) as [->|].
    + rw lookup_insert_eq. split; [set_solver|done].
    + rw lookup_insert_ne // lookup_empty. split; [by intros []|set_solver].
  - rw /value_of /node_new lookup_insert_eq //.
  - constructor.
  - set_solver.
Qed.

Lemma repr_popping_change q ps c ns vs :
  repr (mkConf q ps c) ns vs →
  repr (mkConf q ps None) ns vs ∧ repr (mkConf q ps (Some (tail q))) ns vs.
Proof. intros [????????]; split; split; simpl in *; try done; by intros ? [= <-]. Qed.

(** The consumer's second load decides emptiness at that instant. *)
Lemma repr_pop_head q ps tl ns vs :
  repr (mkConf q ps (Some tl)) ns vs → fifo_step vs (EPop (pop_head tl q)) vs.
Proof.
  intros [Hc Hh Hnd _ _ _ _ Hpo]; simpl in *. rewrite -> (Hpo tl) by done.
  rw /pop_head. destruct ns as [|n ns], vs as [|v vs]; simpl in Hc; try done.
  - injection Hh as Hh. rw decide_True //. constructor.
  - rewrite -> decide_False; [constructor|]. intros Hht.
    apply NoDup_cons in Hnd as [Hni _]. apply Hni. rw -Hht.
    by apply last_Some_elem_of.
Qed.

Lemma qstep_repr c e c' ns vs :
  repr c ns vs → qstep c e c' → ∃ ns' vs', repr c' ns' vs' ∧ fifo_step vs e vs'.
Proof.
  intros Hr Hs. destruct Hs as [q ps c n t prev q' Hn Hsw|q ps1 ps2 c prev n q' Hst|
    q ps t q' Hl|q ps q' Hl|q ps tl r <-].
  - injection Hsw as <- <-. eexists _, _. split; [by apply repr_swap|constructor].
  - apply repr_store in Hr as (q'' & Hst' & Hr). rw Hst in Hst'. simplify_eq. eexists _, _. split; [done|constructor].
  - apply repr_pop_load in Hr as [(n & ns' & v & vs' & q'' & -> & -> & Hl' & Hr)|[Hl' _]];
      rw Hl in Hl'; simplify_eq. eexists _, _. split; [done|constructor].
  - pose proof Hr as [(n & ns' & v & vs' & q'' & _ & _ & Hl' & _)|[Hl' _]]%repr_pop_load;
      rw Hl in Hl'; simplify_eq. eexists _, _. split; [by apply repr_popping_change in Hr as [_ ?]|constructor].
  - eexists _, _. split; [by apply repr_popping_change in Hr as [? _]|by eapply repr_pop_head].
Qed.

Lemma qrun_repr stub es c :
  qrun (conf_init stub) es c → ∃ ns vs, repr c ns vs ∧ fifo_run [] es vs.
Proof.
  intros Hr. remember (conf_init stub) as c0 eqn:Hc0. induction Hr as [c|c es c' e c'' _ IH Hs].
  - subst. exists [], []. split; [apply repr_init|constructor].
  - destruct (IH Hc0) as (ns & vs & Hr & Hf).
    destruct (qstep_repr _ _ _ _ _ Hr Hs) as (ns' & vs' & Hr' & Hf').
    exists ns', vs'. split; [done|]. by econstructor.
Qed.

Lemma fifo_run_content l es l' : fifo_run l es l' → l ++ pushed es = popped es ++ l'.
Proof.
  induction 1 as [l|l es l' e l'' _ IH Hs].
  - by rw app_nil_r.
  - rw /pushed /popped !omap_app. rw /pushed /popped in IH. rw app_assoc IH -!app_assoc.
    f_equal. by destruct Hs; simpl; rw ?app_nil_r.
Qed.

Lemma repr_safe c ns vs : repr c ns vs → conf_safe c.
Proof.
  destruct c as [q ps pp]. intros Hr. split; simpl.
  - intros prev n Hin. apply list_elem_of_split in Hin as (ps1 & ps2 & ->).
    apply repr_store in Hr as (q' & ? & _). eauto.
  - apply repr_pop_load in Hr as [(n & ns' & v & vs' & q'' & _ & _ & Hl' & _)|[Hl' _]]; eauto.
Qed.

Lemma repr_pop c ns vs :
  repr c ns vs → pushing c = [] →
  ∃ q', pop (cq c) = Ok (match vs with [] => Empty | v :: _ => Data v end, q').
Proof.
  destruct c as [q ps pp]. intros Hr; simpl. intros ->. rw /pop.
  pose proof Hr as [(n & ns' & v & vs' & q'' & _ & -> & -> & _)|[-> [->|]]]%repr_pop_load; [eauto| |done].
  apply repr_popping_change in Hr as [_ Hr]. apply repr_pop_head in Hr.
  exists q. inversion Hr. congruence.
Qed.

Lemma chain_drop h p ns vs :
  chain h [] p ns vs → NoDup (p :: ns) →
  drop_queue (S (length ns)) (Some p) h = Some (Ok (foldr delete h (reverse (p :: ns)))).
Proof.
  revert h p vs. induction ns as [|n ns IH]; intros h p [|v vs] Hc Hnd; simpl in Hc; try done.
  - destruct Hc as [Hn _]. rw /next_of in Hn. simpl.
    destruct (h !! p) as [nd|]; [|done]. injection Hn as ->. done.
  - destruct Hc as (_ & Hl & Hc). destruct Hl as [[Hl _]|[_ Hl]]; [|set_solver].
    apply NoDup_cons in Hnd as [Hni Hnd].
    rw /next_of in Hl. cbn [length drop_queue]. destruct (h !! p) as [nd|]; [|done].
    injection Hl as ->. rw reverse_cons foldr_app. eapply (IH (delete p h)); [|done].
    eapply chain_frame; [done|..].
    + intros x Hx. rw /next_of lookup_delete_ne //. set_solver.
    + intros x Hx. rw /value_of lookup_delete_ne //. set_solver.
    + done.
Qed.

Lemma repr_drop c ns vs :
  repr c ns vs → pushing c = [] →
  drop_queue (S (length vs)) (Some (tail (cq c))) (heap (cq c)) = Some (Ok ∅).
Proof.
  intros [Hc _ Hnd Hd _ _ _ _] Hp. rw Hp in Hc. rw -(chain_length _ _ _ _ _ Hc).
  rewrite -> (chain_drop _ _ _ vs) by done. do 2 f_equal.
  apply map_empty. intros p. destruct (decide (p ∈ tail (cq c) :: ns)) as [Hin|Hin].
  - apply lookup_foldr_delete. by rw elem_of_reverse.
  - rw lookup_foldr_delete_not_elem_of ?elem_of_reverse //.
    destruct (heap (cq c) !! p) eqn:E; [|done]. exfalso. apply Hin, Hd. eauto.
Qed.

(** ** Properties *)

(** C13. The queue is a FIFO under every interleaving of pushers with the
    consumer: the trace of swaps and pops is one of the abstract queue (the
    values popped are a prefix of the values pushed, in the order of the
    swaps; [Empty] is only reported on an empty queue, [Inconsistent] only on
    a non-empty one), and once no push is in progress [pop] returns the
    oldest value, or [Empty] when there is none. *)
Theorem queue_refines_fifo (stub : ptr) (es : list Event) (c : Conf) :
  qrun (conf_init stub) es c →
  ∃ vs, fifo_run [] es vs ∧ pushed es = popped es ++ vs ∧
    (pushing c = [] →
     ∃ q', pop (cq c) = Ok (match vs with [] => Empty | v :: _ => Data v end, q')).
Proof.
  intros Hr. destruct (qrun_repr _ _ _ Hr) as (ns & vs & Hre & Hf).
  exists vs. split; [done|]. split; [by apply fifo_run_content in Hf|].
  by eapply repr_pop.
Qed.

(** No interleaving makes a thread touch freed memory or fail an
    assertion of [pop], and once no push is in progress dropping the queue
    terminates and frees every node. *)
Theorem queue_memory_safe (stub : ptr) (es : list Event) (c : Conf) :
  qrun (conf_init stub) es c →
  conf_safe c ∧
  (pushing c = [] →
   ∃ fuel, drop_queue fuel (Some (tail (cq c))) (heap (cq c)) = Some (Ok ∅)).
Proof.
  intros Hr. destruct (qrun_repr _ _ _ Hr) as (ns & vs & Hre & _).
  split; [by eapply repr_safe|]. intros Hp. eexists. by eapply repr_drop.
Qed.
End queue.

(** ** A concrete interleaving *)

(** Two pushers whose stores happen in the reverse order of their swaps, and a
    consumer that arrives in between. *)
Definition demo_events : list (@Event nat) :=
  [EPush 10%nat; EPush 20%nat; ETau; ETau; EPop Inconsistent; ETau; EPop (Data 10%nat)].

Definition demo_conf : @Conf nat :=
  mkConf (mkQueue {[ 1%nat := mkNode (Some 2%nat) None; 2%nat := mkNode None (Some 20%nat) ]} 2 1)
    [] None.

Lemma demo_run : qrun (conf_init 0) demo_events demo_conf.
Proof.
  rw /demo_events /conf_init.
  eapply (qrun_snoc _ [_; _; _; _; _; _]); [eapply (qrun_snoc _ [_; _; _; _; _]);
   [eapply (qrun_snoc _ [_; _; _; _]); [eapply (qrun_snoc _ [_; _; _]);
   [eapply (qrun_snoc _ [_; _]); [eapply (qrun_snoc _ [_]);
   [eapply (qrun_snoc _ []); [constructor|]|]|]|]|]|]|].
  - by apply (qs_swap _ _ _ 1%nat).
  - by apply (qs_swap _ _ _ 2%nat).
  - by apply (qs_store _ [] [(0%nat, 1%nat)] _ 1%nat 2%nat).
  - by eapply qs_pop_null.
  - by eapply qs_pop_head.
  - by apply (qs_store _ [] [] _ 0%nat 1%nat).
  - by apply qs_pop_data.
Qed.

Lemma queue_refines_fifo_witness :
  qrun (conf_init 0) demo_events demo_conf ∧
  ∃ vs, fifo_run [] demo_events vs ∧ pushed demo_events = popped demo_events ++ vs ∧
    (pushing demo_conf = [] →
     ∃ q', pop (cq demo_conf) = Ok (match vs with [] => Empty | v :: _ => Data v end, q')).
Proof. split; [apply demo_run|]. apply (queue_refines_fifo 0), demo_run. Defined.

Lemma queue_memory_safe_witness :
  qrun (conf_init 0) demo_events demo_conf ∧ conf_safe demo_conf ∧
  (pushing demo_conf = [] →
   ∃ fuel, drop_queue fuel (Some (tail (cq demo_conf))) (heap (cq demo_conf)) = Some (Ok ∅)).
Proof. split; [apply demo_run|]. apply (queue_memory_safe 0 demo_events), demo_run. Defined.
