(* ===== verification/Channel.v ===== *)
(** * State word, errors and priorities of the channels

    [tentacle/src/channel/mod.rs]: the 64-bit state word shared by the bounded
    and the unbounded channel (an open flag in the top bit, the number of
    messages below it), the send errors and the two priorities. The theorem
    shows that the word and its decoded form correspond and that the atomic
    updates of the word act on the decoded fields as intended. *)
From S2P Require Import Prelude.

Definition OPEN_MASK : Z := usize_max - Z.shiftr usize_max 1.
Definition INIT_STATE : Z := OPEN_MASK.
Definition MAX_CAPACITY : Z := Z.lxor usize_max OPEN_MASK.
Definition MAX_BUFFER : Z := Z.shiftr MAX_CAPACITY 1.

Record State := mkState { is_open : bool; num_messages : Z }.

Definition State_is_closed (s : State) : bool := negb (is_open s) && (num_messages s =? 0).

Definition decode_state (num : Z) : State :=
  mkState (Z.land num OPEN_MASK =? OPEN_MASK) (Z.land num MAX_CAPACITY).

Definition encode_state (state : State) : Z :=
  let num := num_messages state in
  if is_open state then Z.lor num OPEN_MASK else num.

(** [fetch_and(!OPEN_MASK)] and [fetch_sub(1)] on the state word. *)
Definition state_clear_open (w : Z) : Z := Z.land w (Z.lxor usize_max OPEN_MASK).
Definition state_fetch_sub_1 (w : Z) : Z := wrap 64 (w - 1).

Inductive SendErrorKind := Full | Disconnected.

Record SendError := mkSendError { kind : SendErrorKind }.

Record TrySendError (T : Type) := mkTrySendError { err : SendError; val : T }.
Arguments mkTrySendError {T} err val.
Arguments err {T} t.
Arguments val {T} t.

Inductive TryRecvError := mkTryRecvError.

Definition is_full (e : SendError) : bool :=
  match kind e with Full => true | Disconnected => false end.
Definition is_disconnected (e : SendError) : bool :=
  match kind e with Full => false | Disconnected => true end.

Definition try_is_full {T} (e : TrySendError T) : bool := is_full (err e).
Definition try_is_disconnected {T} (e : TrySendError T) : bool := is_disconnected (err e).
Definition into_inner {T} (e : TrySendError T) : T := val e.
Definition into_send_error {T} (e : TrySendError T) : SendError := err e.

Inductive Priority := High | Normal.

#[global] Instance Priority_eq_dec : EqDecision Priority.
Proof. solve_decision. Defined.

Definition is_high (p : Priority) : bool :=
  match p with High => true | Normal => false end.

(** A task handle: [wake] calls are recorded by this identity. *)
Abbreviation Waker := (nat).

(** ** The state word *)

Lemma OPEN_MASK_val : OPEN_MASK = 2 ^ 63.
Proof. done. Qed.

Lemma MAX_CAPACITY_val : MAX_CAPACITY = Z.ones 63.
Proof. done. Qed.

(** A word whose top bit and low bits are known. *)
Lemma decode_state_split (b : bool) n :
  0 ≤ n < 2 ^ 63 → decode_state (Z.b2z b * 2 ^ 63 + n) = mkState b n.
Proof.
  intros Hn. rw /decode_state OPEN_MASK_val MAX_CAPACITY_val. f_equal.
  - assert (Z.testbit (Z.b2z b * 2 ^ 63 + n) 63 = b) as Hb.
    { rewrite -> Z.testbit_eqb by lia. rewrite -> Z.div_add_l, (Z.div_small n) by lia. by destruct b. }
    rewrite -> Z.land_comm.
    assert (Z.land (2 ^ 63) (Z.b2z b * 2 ^ 63 + n) = Z.b2z b * 2 ^ 63) as ->.
    { apply Z.bits_inj'. intros i Hi. rw Z.land_spec.
      rewrite -> Z.pow2_bits_eqb by lia.
      destruct (Z.eqb_spec 63 i) as [<-|Hne].
      - rw Hb. by destruct b.
      - destruct b; rw ?Z.mul_1_l ?Z.mul_0_l ?Z.bits_0 //.
        rewrite -> Z.pow2_bits_false by lia. done. }
    by destruct b.
  - rewrite -> Z.land_ones by lia. rewrite -> Z.add_comm, Z.mod_add by lia. by apply Z.mod_small.
Qed.

Lemma encode_state_split s :
  0 ≤ num_messages s < 2 ^ 63 → encode_state s = Z.b2z (is_open s) * 2 ^ 63 + num_messages s.
Proof.
  destruct s as [b n]; simpl. intros Hn. rw /encode_state /=. destruct b; [|done].
  rw OPEN_MASK_val. rewrite -> Z.lor_comm. change (Z.b2z true * 2 ^ 63) with (2 ^ 63).
  assert (Z.land (2 ^ 63) n = 0) as Hl.
  { apply Z.bits_inj'. intros i Hi. rw Z.land_spec Z.bits_0.
    rewrite -> Z.pow2_bits_eqb by lia. destruct (Z.eqb_spec 63 i) as [<-|]; [|done].
    rw andb_true_l. rewrite -> Z.testbit_eqb by lia. by rewrite -> (Z.div_small n) by lia. }
  rewrite -> Z.add_nocarry_lxor by done. by rewrite -> Z.lxor_lor.
Qed.

Lemma word_split w :
  is_u64 w → ∃ b n, 0 ≤ n < 2 ^ 63 ∧ w = Z.b2z b * 2 ^ 63 + n.
Proof.
  unfold_int. intros Hw. destruct (decide (w < 2 ^ 63)).
  - exists false, w. simpl. lia.
  - exists true, (w - 2 ^ 63). simpl. lia.
Qed.

Lemma state_decode_encode s : 0 ≤ num_messages s < 2 ^ 63 → decode_state (encode_state s) = s.
Proof. intros H. rw encode_state_split // decode_state_split //. by destruct s. Qed.

Lemma state_encode_decode w : is_u64 w → encode_state (decode_state w) = w.
Proof.
  intros (b & n & Hn & ->)%word_split. by rw decode_state_split // encode_state_split.
Qed.

Lemma encode_is_u64 s : 0 ≤ num_messages s < 2 ^ 63 → is_u64 (encode_state s).
Proof. unfold_int. intros. rw encode_state_split //. destruct (is_open s); simpl; lia. Qed.

Lemma decode_num_range w : is_u64 w → 0 ≤ num_messages (decode_state w) < 2 ^ 63.
Proof. intros (b & n & Hn & ->)%word_split. by rw decode_state_split. Qed.

Lemma clear_open_encode s :
  0 ≤ num_messages s < 2 ^ 63 →
  state_clear_open (encode_state s) = encode_state (mkState false (num_messages s)).
Proof.
  intros H. change (state_clear_open (encode_state s)) with (num_messages (decode_state (encode_state s))).
  rw state_decode_encode //.
Qed.

Lemma fetch_sub_encode s :
  0 < num_messages s < 2 ^ 63 →
  state_fetch_sub_1 (encode_state s) = encode_state (mkState (is_open s) (num_messages s - 1)).
Proof.
  intros H. rw /state_fetch_sub_1. rw !encode_state_split /=; [|lia|lia].
  rewrite -> wrap_small; destruct (is_open s); simpl; lia.
Qed.

Lemma decode_INIT_STATE : decode_state INIT_STATE = mkState true 0.
Proof. done. Qed.

(** The state word: encoding and decoding are inverse on words and on
    states with less than [2^63] messages; clearing the open flag keeps the
    count, subtracting one from a word with messages decrements the count
    and keeps the flag, and a count below [MAX_CAPACITY] can be incremented
    without touching the flag. *)
Theorem state_word_correct (w : Z) (s : State) :
  is_u64 w → 0 ≤ num_messages s ≤ MAX_CAPACITY →
  encode_state (decode_state w) = w ∧ decode_state (encode_state s) = s ∧
  decode_state (state_clear_open (encode_state s)) = mkState false (num_messages s) ∧
  (0 < num_messages s →
   decode_state (state_fetch_sub_1 (encode_state s)) = mkState (is_open s) (num_messages s - 1)) ∧
  (num_messages s < MAX_CAPACITY →
   is_u64 (encode_state (mkState (is_open s) (num_messages s + 1)))) ∧
  decode_state INIT_STATE = mkState true 0.
Proof.
  assert (MAX_CAPACITY = 2 ^ 63 - 1) as -> by done. intros Hw Hs.
  assert (0 ≤ num_messages s < 2 ^ 63) as Hs' by lia.
  split_and!.
  - by apply state_encode_decode.
  - by apply state_decode_encode.
  - rw clear_open_encode // state_decode_encode //.
  - intros ?. rw fetch_sub_encode ?state_decode_encode //=; lia.
  - intros ?. apply encode_is_u64. simpl. lia.
  - done.
Qed.

Lemma state_word_correct_witness :
  encode_state (decode_state (2 ^ 63 + 7)) = 2 ^ 63 + 7 ∧
  decode_state (state_fetch_sub_1 (encode_state (mkState true 7))) = mkState true 6.
Proof.
  destruct (state_word_correct (2 ^ 63 + 7) (mkState true 7)) as (H1 & _ & _ & H2 & _);
    [by unfold_int|by rw MAX_CAPACITY_val|]. split; [exact H1|by apply H2].
Defined.

#[global] Arguments decode_state : simpl never.
#[global] Arguments encode_state : simpl never.
