(* ===== verification/ChannelBound.v ===== *)
(** * The bounded priority channel

    [tentacle/src/channel/bound.rs]. Everything the handles share through
    [Arc]s is one record [Chan]: the [BoundedInner], the task cell of every
    sender ever created (the receiver reaches it through the parked queue also
    after the sender is gone), the live sender handles and the receiver
    handle. The three queues are FIFO lists, which is what [ChannelQueue]
    proves of them. Methods are written for a thread that runs alone; the
    pieces at which other threads can interleave are separate definitions,
    which [ChannelBoundFacts] interleaves. [debug_assert!]s are those of a
    release build. *)
From S2P Require Import Prelude Channel.

(** [futures::task::AtomicWaker]: [register] stores a waker, [wake] takes the
    stored one, if any, and wakes it. *)
Class AtomicWaker (A : Type) := {
  aw_new : A;
  aw_register : Waker → A → A;
  aw_wake : A → option Waker * A;
  aw_registered : A → option Waker;
}.

Class AtomicWakerLaws (A : Type) `{AtomicWaker A} : Prop := {
  aw_registered_new : aw_registered aw_new = None;
  aw_registered_register w a : aw_registered (aw_register w a) = Some w;
  aw_wake_spec a : (aw_wake a).1 = aw_registered a ∧ aw_registered (aw_wake a).2 = None;
}.

#[global] Instance OptionWaker : AtomicWaker (option Waker) := {|
  aw_new := None;
  aw_register w _ := Some w;
  aw_wake a := (a, None);
  aw_registered a := a;
|}.

#[global] Instance OptionWakerLaws : AtomicWakerLaws (option Waker).
Proof. by split. Qed.

Record SenderTask := mkSenderTask { task : option Waker; is_parked : bool }.

Definition SenderTask_new : SenderTask := mkSenderTask None false.

Record BoundedSenderInner := mkSenderInner { sender_task : nat; maybe_parked : bool }.

Record BoundedInner (T A : Type) := mkInner {
  buffer : Z;
  state : Z;
  message_queue : list T;
  quick_message_queue : list T;
  parked_queue : list nat;
  num_senders : Z;
  recv_task : A;
}.
Arguments mkInner {T A}.
Arguments buffer {T A}.
Arguments state {T A}.
Arguments message_queue {T A}.
Arguments quick_message_queue {T A}.
Arguments parked_queue {T A}.
Arguments num_senders {T A}.
Arguments recv_task {T A}.

(** [tasks]: the cells behind the [Arc<Mutex<SenderTask>>]s; [senders]: the
    handles whose [Option] is [Some]; [receiver]: whether the receiver's
    [inner] is [Some]; [woken]: the tasks woken so far. *)
Record Chan (T A : Type) := mkChan {
  inner : BoundedInner T A;
  tasks : gmap nat SenderTask;
  senders : gmap nat BoundedSenderInner;
  receiver : bool;
  woken : list Waker;
}.
Arguments mkChan {T A}.
Arguments inner {T A}.
Arguments tasks {T A}.
Arguments senders {T A}.
Arguments receiver {T A}.
Arguments woken {T A}.

Section bound.
Context {T A : Type} `{!AtomicWaker A}.
Implicit Types (c : Chan T A) (i : BoundedInner T A).

(** Field updates. *)
Definition with_inner (f : BoundedInner T A → BoundedInner T A) c : Chan T A :=
  mkChan (f (inner c)) (tasks c) (senders c) (receiver c) (woken c).
Definition with_tasks (f : gmap nat SenderTask → gmap nat SenderTask) c : Chan T A :=
  mkChan (inner c) (f (tasks c)) (senders c) (receiver c) (woken c).
Definition with_senders (f : gmap nat BoundedSenderInner → gmap nat BoundedSenderInner) c : Chan T A :=
  mkChan (inner c) (tasks c) (f (senders c)) (receiver c) (woken c).
Definition with_receiver (b : bool) c : Chan T A :=
  mkChan (inner c) (tasks c) (senders c) b (woken c).
Definition with_woken (ws : list Waker) c : Chan T A :=
  mkChan (inner c) (tasks c) (senders c) (receiver c) (woken c ++ ws).
Definition set_state (w : Z) i : BoundedInner T A :=
  mkInner (buffer i) w (message_queue i) (quick_message_queue i) (parked_queue i)
    (num_senders i) (recv_task i).
Definition set_message_queue (q : list T) i : BoundedInner T A :=
  mkInner (buffer i) (state i) q (quick_message_queue i) (parked_queue i)
    (num_senders i) (recv_task i).
Definition set_quick_message_queue (q : list T) i : BoundedInner T A :=
  mkInner (buffer i) (state i) (message_queue i) q (parked_queue i)
    (num_senders i) (recv_task i).
Definition set_parked_queue (q : list nat) i : BoundedInner T A :=
  mkInner (buffer i) (state i) (message_queue i) (quick_message_queue i) q
    (num_senders i) (recv_task i).
Definition set_num_senders (n : Z) i : BoundedInner T A :=
  mkInner (buffer i) (state i) (message_queue i) (quick_message_queue i) (parked_queue i)
    n (recv_task i).
Definition set_recv_task (a : A) i : BoundedInner T A :=
  mkInner (buffer i) (state i) (message_queue i) (quick_message_queue i) (parked_queue i)
    (num_senders i) a.

Definition state_of c : State := decode_state (state (inner c)).

(** [channel]: the first sender has identity 0. *)
Definition channel (buf : Z) : option (Chan T A) :=
  if buf <? MAX_BUFFER then
    Some (mkChan (mkInner buf INIT_STATE [] [] [] 1 aw_new)
            {[0%nat := SenderTask_new]} {[0%nat := mkSenderInner 0 false]} true [])
  else None.

Section methods.
Context {E : Type}.

Definition max_senders i : Z := MAX_CAPACITY - buffer i.

Definition set_closed : M (Chan T A) E unit :=
  curr ← gets (λ c, state (inner c));
  if negb (is_open (decode_state curr)) then mret ()
  else modify (with_inner (λ i, set_state (state_clear_open (state i)) i)).

(** [self.recv_task.wake()]. *)
Definition recv_wake : M (Chan T A) E unit :=
  modify (λ c, let '(w, a) := aw_wake (recv_task (inner c)) in
               with_woken (option_list w) (with_inner (set_recv_task a) c)).

(** [SenderTask::notify] on the cell [t]. *)
Definition notify (t : nat) : M (Chan T A) E unit :=
  modify (λ c, match tasks c !! t with
               | Some tk => with_woken (option_list (task tk))
                              (with_tasks <[t := mkSenderTask None false]> c)
               | None => c
               end).

(** The sender behind the handle [sid]. *)
Definition self (sid : nat) : M (Chan T A) E BoundedSenderInner :=
  o ← gets (λ c, senders c !! sid);
  match o with Some s => mret s | None => panic end.

Definition set_maybe_parked (sid : nat) (b : bool) : M (Chan T A) E unit :=
  modify (with_senders (alter (λ s, mkSenderInner (sender_task s) b) sid)).

Definition poll_unparked (sid : nat) (cx : option Waker) : M (Chan T A) E (Poll unit) :=
  s ← self sid;
  if maybe_parked s then
    o ← gets (λ c, tasks c !! sender_task s);
    match o with
    | None => panic
    | Some tk =>
        if negb (is_parked tk) then
          set_maybe_parked sid false;; mret (Ready ())
        else
          modify (with_tasks <[sender_task s := mkSenderTask cx (is_parked tk)]>);;
          mret Pending
    end
  else mret (Ready ()).

Definition inc_num_messages : M (Chan T A) E (option Z) :=
  curr ← gets (λ c, state (inner c));
  let st := decode_state curr in
  if negb (is_open st) then mret None
  else if negb (num_messages st <? MAX_CAPACITY) then panic
  else
    let st := mkState (is_open st) (num_messages st + 1) in
    modify (with_inner (set_state (encode_state st)));;
    mret (Some (num_messages st)).

(** [park], in its three accesses to shared data. *)
Definition park_lock (t : nat) : M (Chan T A) E unit :=
  modify (with_tasks <[t := mkSenderTask None true]>).
Definition park_push (t : nat) : M (Chan T A) E unit :=
  modify (with_inner (λ i, set_parked_queue (parked_queue i ++ [t]) i)).
Definition park_check (sid : nat) : M (Chan T A) E unit :=
  st ← gets state_of;
  set_maybe_parked sid (is_open st).

Definition park (sid : nat) : M (Chan T A) E unit :=
  s ← self sid;
  park_lock (sender_task s);;
  park_push (sender_task s);;
  park_check sid.

(** The push of [queue_push_and_signal]. *)
Definition queue_push (msg : T) (priority : Priority) : M (Chan T A) E unit :=
  modify (with_inner (λ i,
    match priority with
    | High => set_quick_message_queue (quick_message_queue i ++ [msg]) i
    | Normal => set_message_queue (message_queue i ++ [msg]) i
    end)).

Definition queue_push_and_signal (msg : T) (priority : Priority) : M (Chan T A) E unit :=
  queue_push msg priority;; recv_wake.

Definition sender_is_closed : M (Chan T A) E bool :=
  st ← gets state_of; mret (negb (is_open st)).

Definition sender_close_channel : M (Chan T A) E unit :=
  set_closed;; recv_wake.

Definition sender_poll_ready (sid : nat) (cx : Waker) :
    M (Chan T A) E (Poll (Res SendError unit)) :=
  st ← gets state_of;
  if negb (is_open st) then mret (Ready (Err (mkSendError Disconnected)))
  else
    p ← poll_unparked sid (Some cx);
    match p with
    | Ready u => mret (Ready (Ok u))
    | Pending => mret Pending
    end.
End methods.

Definition do_send_b (sid : nat) (msg : T) (priority : Priority) :
    M (Chan T A) (TrySendError T) unit :=
  o ← inc_num_messages;
  match o with
  | Some n =>
      buf ← gets (λ c, buffer (inner c));
      when (buf <? n) (park sid);;
      queue_push_and_signal msg priority
  | None => throw (mkTrySendError (mkSendError Disconnected) msg)
  end.

Definition sender_try_send (sid : nat) (msg : T) (priority : Priority) :
    M (Chan T A) (TrySendError T) unit :=
  p ← poll_unparked sid None;
  if negb (is_ready p) then throw (mkTrySendError (mkSendError Full) msg)
  else do_send_b sid msg priority.

(** [BoundedSenderInner::clone]: the identity of the new sender is that of its
    new task cell. *)
Definition sender_clone {E} : M (Chan T A) E nat :=
  curr ← gets (λ c, num_senders (inner c));
  mx ← gets (λ c, max_senders (inner c));
  if curr =? mx then panic
  else
    new ← gets (λ c, fresh (dom (tasks c)));
    modify (with_inner (set_num_senders (curr + 1)));;
    modify (with_tasks <[new := SenderTask_new]>);;
    modify (with_senders <[new := mkSenderInner new false]>);;
    mret new.

(** [Drop for BoundedSenderInner]. *)
Definition sender_drop {E} : M (Chan T A) E unit :=
  prev ← gets (λ c, num_senders (inner c));
  modify (with_inner (set_num_senders (wrap 64 (prev - 1))));;
  when (prev =? 1) sender_close_channel.

(** ** [Sender] *)

Definition try_send (sid : nat) (msg : T) : M (Chan T A) (TrySendError T) unit :=
  o ← gets (λ c, senders c !! sid);
  match o with
  | Some _ => sender_try_send sid msg Normal
  | None => throw (mkTrySendError (mkSendError Disconnected) msg)
  end.

Definition try_quick_send (sid : nat) (msg : T) : M (Chan T A) (TrySendError T) unit :=
  o ← gets (λ c, senders c !! sid);
  match o with
  | Some _ => sender_try_send sid msg High
  | None => throw (mkTrySendError (mkSendError Disconnected) msg)
  end.

Definition start_send (sid : nat) (msg : T) : M (Chan T A) SendError unit :=
  map_err err (try_send sid msg).

Definition start_quick_send (sid : nat) (msg : T) : M (Chan T A) SendError unit :=
  map_err err (try_quick_send sid msg).

Definition poll_ready {E} (sid : nat) (cx : Waker) : M (Chan T A) E (Poll (Res SendError unit)) :=
  o ← gets (λ c, senders c !! sid);
  match o with
  | Some _ => sender_poll_ready sid cx
  | None => mret (Ready (Err (mkSendError Disconnected)))
  end.

(** One poll of the future of [async_send], whose local [msg] is the
    argument; the new value of [msg] is returned. *)
Definition async_send_poll {E} (sid : nat) (msg : option T) (cx : Waker) :
    M (Chan T A) E (option T * Poll (Res SendError unit)) :=
  match msg with
  | None => panic
  | Some item =>
      p ← poll_ready sid cx;
      match p with
      | Ready (Ok _) => r ← try_catch (start_send sid item); mret (None, Ready r)
      | Ready r => mret (None, Ready r)
      | Pending => mret (Some item, Pending)
      end
  end.

Definition async_quick_send_poll {E} (sid : nat) (msg : option T) (cx : Waker) :
    M (Chan T A) E (option T * Poll (Res SendError unit)) :=
  match msg with
  | None => panic
  | Some item =>
      p ← poll_ready sid cx;
      match p with
      | Ready (Ok _) => r ← try_catch (start_quick_send sid item); mret (None, Ready r)
      | Ready r => mret (None, Ready r)
      | Pending => mret (Some item, Pending)
      end
  end.

Definition is_closed {E} (sid : nat) : M (Chan T A) E bool :=
  o ← gets (λ c, senders c !! sid);
  match o with Some _ => sender_is_closed | None => mret true end.

Definition close_channel {E} (sid : nat) : M (Chan T A) E unit :=
  o ← gets (λ c, senders c !! sid);
  match o with Some _ => sender_close_channel | None => mret () end.

(** [disconnect] and dropping a [Sender]: the inner sender is dropped. *)
Definition disconnect {E} (sid : nat) : M (Chan T A) E unit :=
  o ← gets (λ c, senders c !! sid);
  match o with
  | Some _ => modify (with_senders (delete sid));; sender_drop
  | None => mret ()
  end.

Definition clone {E} (sid : nat) : M (Chan T A) E (option nat) :=
  o ← gets (λ c, senders c !! sid);
  match o with Some _ => new ← sender_clone; mret (Some new) | None => mret None end.

(** ** [Receiver] *)

Section receiver.
Context {E : Type}.

(** [pop_spin] on the three queues. *)
Definition pop_parked : M (Chan T A) E (option nat) :=
  q ← gets (λ c, parked_queue (inner c));
  match q with
  | [] => mret None
  | t :: q => modify (with_inner (set_parked_queue q));; mret (Some t)
  end.
Definition pop_quick : M (Chan T A) E (option T) :=
  q ← gets (λ c, quick_message_queue (inner c));
  match q with
  | [] => mret None
  | t :: q => modify (with_inner (set_quick_message_queue q));; mret (Some t)
  end.
Definition pop_normal : M (Chan T A) E (option T) :=
  q ← gets (λ c, message_queue (inner c));
  match q with
  | [] => mret None
  | t :: q => modify (with_inner (set_message_queue q));; mret (Some t)
  end.

(** The [while let] of [close]; [n] bounds the iterations. *)
Fixpoint close_loop (n : nat) : M (Chan T A) E unit :=
  match n with
  | O => mret ()
  | S n =>
      o ← pop_parked;
      match o with
      | Some t => notify t;; close_loop n
      | None => mret ()
      end
  end.

Definition close : M (Chan T A) E unit :=
  rx ← gets receiver;
  when rx (set_closed;; n ← gets (λ c, length (parked_queue (inner c))); close_loop (S n)).

Definition unpark_one : M (Chan T A) E unit :=
  rx ← gets receiver;
  when rx (o ← pop_parked;
           match o with Some t => notify t | None => mret () end).

Definition dec_num_messages : M (Chan T A) E unit :=
  rx ← gets receiver;
  when rx (modify (with_inner (λ i, set_state (state_fetch_sub_1 (state i)) i))).

Definition next_message : M (Chan T A) E (Poll (option (Priority * T))) :=
  rx ← gets receiver;
  if negb rx then panic
  else
    q ← pop_quick;
    match q with
    | Some msg => unpark_one;; dec_num_messages;; mret (Ready (Some (High, msg)))
    | None =>
        m ← pop_normal;
        match m with
        | Some msg => unpark_one;; dec_num_messages;; mret (Ready (Some (Normal, msg)))
        | None =>
            st ← gets state_of;
            if State_is_closed st then
              modify (with_receiver false);; mret (Ready None)
            else mret Pending
        end
    end.

Definition is_terminated : M (Chan T A) E bool := rx ← gets receiver; mret (negb rx).

(** [recv_task.register(cx.waker())]. *)
Definition recv_register (cx : Waker) : M (Chan T A) E unit :=
  modify (with_inner (λ i, set_recv_task (aw_register cx (recv_task i)) i)).

Definition poll_next (cx : Waker) : M (Chan T A) E (Poll (option (Priority * T))) :=
  p ← next_message;
  match p with
  | Ready None => modify (with_receiver false);; mret (Ready None)
  | Ready msg => mret (Ready msg)
  | Pending => recv_register cx;; next_message
  end.

(** The loop of [Drop for Receiver], giving up ([None]) after [fuel] rounds. *)
Fixpoint drop_loop (fuel : nat) : M (Chan T A) E (option unit) :=
  match fuel with
  | O => mret None
  | S fuel =>
      p ← next_message;
      match p with
      | Ready (Some _) => drop_loop fuel
      | Ready None => mret (Some ())
      | Pending =>
          st ← gets state_of;
          if State_is_closed st then mret (Some ()) else drop_loop fuel
      end
  end.

Definition receiver_drop (fuel : nat) : M (Chan T A) E (option unit) :=
  close;;
  rx ← gets receiver;
  if (rx : bool) then drop_loop fuel else mret (Some ()).
End receiver.

Definition try_next : M (Chan T A) TryRecvError (option (Priority * T)) :=
  p ← next_message;
  match p with
  | Ready msg => mret msg
  | Pending => throw mkTryRecvError
  end.
End bound.
