(* ===== verification/ChannelBoundFacts.v ===== *)
(** * The bounded channel under interleaving

    The methods of [ChannelBound] cut at their accesses to shared data and
    interleaved: any number of sending threads (several may share one sender,
    [try_send] takes [&self]), threads that close the channel, and the one
    receiver. The invariant [SysInv] counts messages and parked senders; the
    theorems give the accounting and capacity of the channel, the order of
    delivery, and that neither the receiver nor a sender misses its wake-up.
    The last part is about the methods run alone. *)
From S2P Require Import Prelude Channel ChannelBound.

#[local] Opaque decode_state encode_state.

(** Where a thread inside [do_send_b] is. *)
Inductive SendPc := PcParkLock | PcParkPush | PcParkCheck | PcPush | PcWake.

Record SendThread (T : Type) := mkThread {
  th_sid : nat; th_task : nat; th_msg : T; th_prio : Priority; th_pc : SendPc }.
Arguments mkThread {T}.
Arguments th_sid {T}.
Arguments th_task {T}.
Arguments th_msg {T}.
Arguments th_prio {T}.
Arguments th_pc {T}.

(** The call of [next_message] the receiver is in: the first or the second one
    of [poll_next], or one of [try_next] or of the destructor. *)
Inductive RxCall := CallFirst (cx : Waker) | CallSecond (cx : Waker) | CallTry.

(** Where the receiver is; [RxParked cx] is a task whose last [poll_next]
    returned [Pending]. *)
Inductive RxPc (T : Type) :=
| RxIdle
| RxParked (cx : Waker)
| RxQuick (k : RxCall)
| RxNormal (k : RxCall)
| RxState (k : RxCall)
| RxRegister (cx : Waker)
| RxUnpark (m : Priority * T)
| RxNotify (m : Priority * T) (t : nat)
| RxDec (m : Priority * T)
| RxClose
| RxCloseNotify (t : nat).
Arguments RxIdle {T}.
Arguments RxParked {T} cx.
Arguments RxQuick {T} k.
Arguments RxNormal {T} k.
Arguments RxState {T} k.
Arguments RxRegister {T} cx.
Arguments RxUnpark {T} m.
Arguments RxNotify {T} m t.
Arguments RxDec {T} m.
Arguments RxClose {T}.
Arguments RxCloseNotify {T} t.

(** [closers]: threads that have closed the channel and not yet woken the
    receiver. [sent] and [received] record the pushes and the pops; [slept]
    is the length of the wake log when the receiver last registered. *)
Record Sys (T A : Type) := mkSys {
  chan : Chan T A;
  sends : list (SendThread T);
  closers : nat;
  rx : RxPc T;
  sent : list (Priority * T);
  received : list (Priority * T);
  slept : nat;
}.
Arguments mkSys {T A}.
Arguments chan {T A}.
Arguments sends {T A}.
Arguments closers {T A}.
Arguments rx {T A}.
Arguments sent {T A}.
Arguments received {T A}.
Arguments slept {T A}.

Section system.
Context {T A : Type} `{!AtomicWaker A}.
Implicit Types (c : Chan T A) (s : Sys T A) (th : SendThread T).

(** The state a method leaves when it runs to its end. *)
Definition exec {B} (m : M (Chan T A) unit B) c : Chan T A := (m c).2.

Definition set_pc (pc : SendPc) th : SendThread T :=
  mkThread (th_sid th) (th_task th) (th_msg th) (th_prio th) pc.

(** Does a send with [n] messages in a channel of [buf] slots park? *)
Definition pc_after_inc (buf n : Z) : SendPc := if buf <? n then PcParkLock else PcPush.

Definition pending_pc (k : RxCall) : RxPc T :=
  match k with
  | CallFirst cx => RxRegister cx
  | CallSecond cx => RxParked cx
  | CallTry => RxIdle
  end.

Inductive cstep : Sys T A → Sys T A → Prop :=
(** Senders. *)
| cs_poll c ths cl r sn rc sl sid cx :
    cstep (mkSys c ths cl r sn rc sl) (mkSys (exec (poll_unparked sid cx) c) ths cl r sn rc sl)
| cs_inc c ths cl r sn rc sl sid snd msg p n c' :
    senders c !! sid = Some snd → inc_num_messages (E:=unit) c = (Ok (Some n), c') →
    cstep (mkSys c ths cl r sn rc sl)
      (mkSys c' (mkThread sid (sender_task snd) msg p (pc_after_inc (buffer (inner c)) n) :: ths)
         cl r sn rc sl)
| cs_park_lock c ths1 th ths2 cl r sn rc sl :
    th_pc th = PcParkLock →
    cstep (mkSys c (ths1 ++ th :: ths2) cl r sn rc sl)
      (mkSys (exec (park_lock (th_task th)) c) (ths1 ++ set_pc PcParkPush th :: ths2) cl r sn rc sl)
| cs_park_push c ths1 th ths2 cl r sn rc sl :
    th_pc th = PcParkPush →
    cstep (mkSys c (ths1 ++ th :: ths2) cl r sn rc sl)
      (mkSys (exec (park_push (th_task th)) c) (ths1 ++ set_pc PcParkCheck th :: ths2) cl r sn rc sl)
| cs_park_check c ths1 th ths2 cl r sn rc sl :
    th_pc th = PcParkCheck →
    cstep (mkSys c (ths1 ++ th :: ths2) cl r sn rc sl)
      (mkSys (exec (park_check (th_sid th)) c) (ths1 ++ set_pc PcPush th :: ths2) cl r sn rc sl)
| cs_push c ths1 th ths2 cl r sn rc sl :
    th_pc th = PcPush →
    cstep (mkSys c (ths1 ++ th :: ths2) cl r sn rc sl)
      (mkSys (exec (queue_push (th_msg th) (th_prio th)) c) (ths1 ++ set_pc PcWake th :: ths2) cl r
         (sn ++ [(th_prio th, th_msg th)]) rc sl)
| cs_wake c ths1 th ths2 cl r sn rc sl :
    th_pc th = PcWake →
    cstep (mkSys c (ths1 ++ th :: ths2) cl r sn rc sl)
      (mkSys (exec recv_wake c) (ths1 ++ ths2) cl r sn rc sl)
| cs_clone c ths cl r sn rc sl new c' :
    sender_clone (E:=unit) c = (Ok new, c') →
    cstep (mkSys c ths cl r sn rc sl) (mkSys c' ths cl r sn rc sl)
| cs_drop c ths cl r sn rc sl sid snd prev :
    senders c !! sid = Some snd → num_senders (inner c) = prev → prev ≠ 1 →
    cstep (mkSys c ths cl r sn rc sl)
      (mkSys (with_inner (set_num_senders (wrap 64 (prev - 1))) (with_senders (delete sid) c))
         ths cl r sn rc sl)
| cs_drop_last c ths cl r sn rc sl sid snd :
    senders c !! sid = Some snd → num_senders (inner c) = 1 →
    cstep (mkSys c ths cl r sn rc sl)
      (mkSys (exec set_closed (with_inner (set_num_senders 0) (with_senders (delete sid) c)))
         ths (S cl) r sn rc sl)
| cs_close_channel c ths cl r sn rc sl :
    cstep (mkSys c ths cl r sn rc sl) (mkSys (exec set_closed c) ths (S cl) r sn rc sl)
| cs_closer_wake c ths cl r sn rc sl :
    cstep (mkSys c ths (S cl) r sn rc sl) (mkSys (exec recv_wake c) ths cl r sn rc sl)
(** The receiver. *)
| cs_poll_next c ths cl r sn rc sl cx :
    receiver c = true → r = RxIdle ∨ (∃ cx', r = RxParked cx') →
    cstep (mkSys c ths cl r sn rc sl) (mkSys c ths cl (RxQuick (CallFirst cx)) sn rc sl)
| cs_try_next c ths cl r sn rc sl :
    receiver c = true → r = RxIdle ∨ (∃ cx', r = RxParked cx') →
    cstep (mkSys c ths cl r sn rc sl) (mkSys c ths cl (RxQuick CallTry) sn rc sl)
| cs_quick_some c ths cl sn rc sl k msg c' :
    pop_quick (E:=unit) c = (Ok (Some msg), c') →
    cstep (mkSys c ths cl (RxQuick k) sn rc sl)
      (mkSys c' ths cl (RxUnpark (High, msg)) sn (rc ++ [(High, msg)]) sl)
| cs_quick_none c ths cl sn rc sl k c' :
    pop_quick (E:=unit) c = (Ok None, c') →
    cstep (mkSys c ths cl (RxQuick k) sn rc sl) (mkSys c' ths cl (RxNormal k) sn rc sl)
| cs_normal_some c ths cl sn rc sl k msg c' :
    pop_normal (E:=unit) c = (Ok (Some msg), c') →
    cstep (mkSys c ths cl (RxNormal k) sn rc sl)
      (mkSys c' ths cl (RxUnpark (Normal, msg)) sn (rc ++ [(Normal, msg)]) sl)
| cs_normal_none c ths cl sn rc sl k c' :
    pop_normal (E:=unit) c = (Ok None, c') →
    cstep (mkSys c ths cl (RxNormal k) sn rc sl) (mkSys c' ths cl (RxState k) sn rc sl)
| cs_state_closed c ths cl sn rc sl k :
    State_is_closed (state_of c) = true →
    cstep (mkSys c ths cl (RxState k) sn rc sl)
      (mkSys (with_receiver false c) ths cl RxIdle sn rc sl)
| cs_state_pending c ths cl sn rc sl k :
    State_is_closed (state_of c) = false →
    cstep (mkSys c ths cl (RxState k) sn rc sl) (mkSys c ths cl (pending_pc k) sn rc sl)
| cs_register c ths cl sn rc sl cx :
    cstep (mkSys c ths cl (RxRegister cx) sn rc sl)
      (mkSys (exec (recv_register cx) c) ths cl (RxQuick (CallSecond cx)) sn rc (length (woken c)))
| cs_unpark_some c ths cl sn rc sl m t c' :
    pop_parked (E:=unit) c = (Ok (Some t), c') →
    cstep (mkSys c ths cl (RxUnpark m) sn rc sl) (mkSys c' ths cl (RxNotify m t) sn rc sl)
| cs_unpark_none c ths cl sn rc sl m c' :
    pop_parked (E:=unit) c = (Ok None, c') →
    cstep (mkSys c ths cl (RxUnpark m) sn rc sl) (mkSys c' ths cl (RxDec m) sn rc sl)
| cs_notify c ths cl sn rc sl m t :
    cstep (mkSys c ths cl (RxNotify m t) sn rc sl) (mkSys (exec (notify t) c) ths cl (RxDec m) sn rc sl)
| cs_dec c ths cl sn rc sl m :
    cstep (mkSys c ths cl (RxDec m) sn rc sl) (mkSys (exec dec_num_messages c) ths cl RxIdle sn rc sl)
| cs_close c ths cl r sn rc sl :
    receiver c = true → r = RxIdle ∨ (∃ cx', r = RxParked cx') →
    cstep (mkSys c ths cl r sn rc sl) (mkSys (exec set_closed c) ths cl RxClose sn rc sl)
| cs_close_some c ths cl sn rc sl t c' :
    pop_parked (E:=unit) c = (Ok (Some t), c') →
    cstep (mkSys c ths cl RxClose sn rc sl) (mkSys c' ths cl (RxCloseNotify t) sn rc sl)
| cs_close_none c ths cl sn rc sl c' :
    pop_parked (E:=unit) c = (Ok None, c') →
    cstep (mkSys c ths cl RxClose sn rc sl) (mkSys c' ths cl RxIdle sn rc sl)
| cs_close_notify c ths cl sn rc sl t :
    cstep (mkSys c ths cl (RxCloseNotify t) sn rc sl)
      (mkSys (exec (notify t) c) ths cl RxClose sn rc sl).

Definition sys_init c : Sys T A := mkSys c [] 0 RxIdle [] [] 0.

(** ** What the pieces do *)

Lemma exec_park_lock t c : exec (park_lock t) c = with_tasks <[t := mkSenderTask None true]> c.
Proof. done. Qed.

Lemma exec_park_push t c :
  exec (park_push t) c = with_inner (λ i, set_parked_queue (parked_queue i ++ [t]) i) c.
Proof. done. Qed.

Lemma exec_park_check sid c :
  exec (park_check sid) c =
  with_senders (alter (λ x, mkSenderInner (sender_task x) (is_open (state_of c))) sid) c.
Proof. done. Qed.

Lemma exec_queue_push msg p c :
  exec (queue_push msg p) c =
  with_inner (λ i, match p with
    | High => set_quick_message_queue (quick_message_queue i ++ [msg]) i
    | Normal => set_message_queue (message_queue i ++ [msg]) i
    end) c.
Proof. done. Qed.

Lemma exec_recv_register cx c :
  exec (recv_register cx) c = with_inner (λ i, set_recv_task (aw_register cx (recv_task i)) i) c.
Proof. done. Qed.

Lemma set_closed_spec c :
  is_u64 (state (inner c)) →
  ∃ w, exec set_closed c = with_inner (set_state w) c ∧ is_u64 w ∧
       decode_state w = mkState false (num_messages (state_of c)).
Proof.
  intros Hu. rw /exec /set_closed /state_of /= /mbind /M_bind /gets /=.
  pose proof (decode_num_range _ Hu) as Hn.
  destruct (decode_state (state (inner c))) as [[] n] eqn:Hd; simpl in *.
  - exists (state_clear_open (state (inner c))). split; [done|].
    rw -(state_encode_decode _ Hu) Hd clear_open_encode //=.
    split; [by apply encode_is_u64|by rw state_decode_encode].
  - exists (state (inner c)). split; [|done]. by destruct c as [[] ? ? ? ?].
Qed.

Lemma inc_spec c n c' :
  is_u64 (state (inner c)) → inc_num_messages (E:=unit) c = (Ok (Some n), c') →
  is_open (state_of c) = true ∧ n = num_messages (state_of c) + 1 ∧
  ∃ w, c' = with_inner (set_state w) c ∧ is_u64 w ∧ decode_state w = mkState true n.
Proof.
  intros Hu. rw /inc_num_messages /state_of /= /mbind /M_bind /gets /=.
  pose proof (decode_num_range _ Hu) as Hn.
  destruct (decode_state (state (inner c))) as [[] m] eqn:Hd; simpl in *; [|done].
  case: Z.ltb_spec => Hm //=. intros [= <- <-]. split_and!; [done..|].
  assert (MAX_CAPACITY = 2 ^ 63 - 1) as HM by done.
  eexists. split; [done|].
  split; [apply encode_is_u64; simpl; lia|]. rw state_decode_encode //=; lia.
Qed.

Lemma dec_spec c :
  is_u64 (state (inner c)) → receiver c = true → 0 < num_messages (state_of c) →
  ∃ w, exec dec_num_messages c = with_inner (set_state w) c ∧ is_u64 w ∧
       decode_state w = mkState (is_open (state_of c)) (num_messages (state_of c) - 1).
Proof.
  intros Hu Hr Hn. rw /exec /dec_num_messages /mbind /M_bind /gets Hr /=.
  pose proof (decode_num_range _ Hu) as Hn'. rw /state_of in Hn *.
  exists (state_fetch_sub_1 (state (inner c))). split; [done|].
  rw -{1 2}(state_encode_decode _ Hu) fetch_sub_encode; [|lia].
  split; [apply encode_is_u64; simpl; lia|]. rw state_decode_encode //=; lia.
Qed.

Lemma poll_unparked_spec sid cx c :
  ∃ ts ss, exec (poll_unparked sid cx) c = mkChan (inner c) ts ss (receiver c) (woken c) ∧
    (∀ t tk, ts !! t = Some tk → is_parked tk = true →
       ∃ tk0, tasks c !! t = Some tk0 ∧ is_parked tk0 = true).
Proof.
  assert (∃ ts ss, c = mkChan (inner c) ts ss (receiver c) (woken c) ∧
    (∀ t tk, ts !! t = Some tk → is_parked tk = true →
       ∃ tk0, tasks c !! t = Some tk0 ∧ is_parked tk0 = true)) as Hid.
  { exists (tasks c), (senders c). split; [by destruct c|eauto]. }
  rw /exec /poll_unparked /self /mbind /M_bind /gets /=.
  destruct (senders c !! sid) as [snd|]; simpl; [|done].
  destruct (maybe_parked snd); simpl; [|done].
  destruct (tasks c !! sender_task snd) as [tk|] eqn:Ht; simpl; [|done].
  destruct (is_parked tk) eqn:Hp; simpl.
  - eexists _, _. split; [done|]. intros t tk'. destruct (decide (t = sender_task snd)) as [->|].
    + rw lookup_insert_eq. intros [= <-] _. eauto.
    + rw lookup_insert_ne //. eauto.
  - eexists _, _. split; [done|]. eauto.
Qed.

Lemma recv_wake_spec `{!AtomicWakerLaws A} c :
  ∃ a, exec recv_wake c =
         with_woken (option_list (aw_registered (recv_task (inner c)))) (with_inner (set_recv_task a) c) ∧
       aw_registered a = None.
Proof.
  rw /exec /recv_wake /modify /=. pose proof (aw_wake_spec (recv_task (inner c))) as [H1 H2].
  destruct (aw_wake (recv_task (inner c))) as [w a]; simpl in *. subst. eauto.
Qed.

Lemma notify_spec t c :
  ∃ ts ws, exec (notify t) c = with_woken ws (with_tasks (λ _, ts) c) ∧
    (∀ t' tk, ts !! t' = Some tk → is_parked tk = true → t' ≠ t ∧ tasks c !! t' = Some tk).
Proof.
  rw /exec /notify /modify /=. destruct (tasks c !! t) as [tk|] eqn:Ht.
  - eexists _, _. split; [done|]. intros t' tk'. destruct (decide (t' = t)) as [->|].
    + rw lookup_insert_eq. by intros [= <-].
    + rw lookup_insert_ne //.
  - exists (tasks c), []. split; [destruct c; by rw /with_woken /= app_nil_r|].
    intros t' tk' Ht' _. split; [congruence|done].
Qed.

Lemma clone_spec c new c' :
  sender_clone (E:=unit) c = (Ok new, c') →
  ∃ n ss, c' = mkChan (set_num_senders n (inner c)) (<[new := SenderTask_new]> (tasks c)) ss
                 (receiver c) (woken c).
Proof.
  rw /sender_clone /mbind /M_bind /gets /=. case_match; [done|]. intros [= <- <-].
  eexists _, _. done.
Qed.

Lemma pop_quick_Some c m c' :
  pop_quick (E:=unit) c = (Ok (Some m), c') →
  ∃ q, quick_message_queue (inner c) = m :: q ∧ c' = with_inner (set_quick_message_queue q) c.
Proof.
  rw /pop_quick /mbind /M_bind /gets /=. destruct (quick_message_queue _); [done|].
  intros [= <- <-]. eauto.
Qed.

Lemma pop_quick_None c c' :
  pop_quick (E:=unit) c = (Ok None, c') → quick_message_queue (inner c) = [] ∧ c' = c.
Proof.
  rw /pop_quick /mbind /M_bind /gets /=. destruct (quick_message_queue _); [|done].
  by intros [= <-].
Qed.

Lemma pop_normal_Some c m c' :
  pop_normal (E:=unit) c = (Ok (Some m), c') →
  ∃ q, message_queue (inner c) = m :: q ∧ c' = with_inner (set_message_queue q) c.
Proof.
  rw /pop_normal /mbind /M_bind /gets /=. destruct (message_queue _); [done|].
  intros [= <- <-]. eauto.
Qed.

Lemma pop_normal_None c c' :
  pop_normal (E:=unit) c = (Ok None, c') → message_queue (inner c) = [] ∧ c' = c.
Proof.
  rw /pop_normal /mbind /M_bind /gets /=. destruct (message_queue _); [|done].
  by intros [= <-].
Qed.

Lemma pop_parked_Some c t c' :
  pop_parked (E:=unit) c = (Ok (Some t), c') →
  ∃ q, parked_queue (inner c) = t :: q ∧ c' = with_inner (set_parked_queue q) c.
Proof.
  rw /pop_parked /mbind /M_bind /gets /=. destruct (parked_queue _); [done|].
  intros [= <- <-]. eauto.
Qed.

Lemma pop_parked_None c c' :
  pop_parked (E:=unit) c = (Ok None, c') → parked_queue (inner c) = [] ∧ c' = c.
Proof.
  rw /pop_parked /mbind /M_bind /gets /=. destruct (parked_queue _); [|done].
  by intros [= <-].
Qed.

#[local] Opaque exec.

(** ** The invariant *)

(** Number of sending threads whose position satisfies [f]. *)
Definition cnt (f : SendPc → bool) (ths : list (SendThread T)) : nat :=
  length (filter (λ th, f (th_pc th)) ths).

Definition inflight_pc (pc : SendPc) : bool := match pc with PcWake => false | _ => true end.
Definition parking_pc (pc : SendPc) : bool :=
  match pc with PcParkLock | PcParkPush => true | _ => false end.
Definition wake_pc (pc : SendPc) : bool := match pc with PcWake => true | _ => false end.

Lemma cnt_cons f th ths : cnt f (th :: ths) = (Nat.b2n (f (th_pc th)) + cnt f ths)%nat.
Proof. rw /cnt filter_cons. by destruct (f (th_pc th)). Qed.

Lemma cnt_app f l1 l2 : cnt f (l1 ++ l2) = (cnt f l1 + cnt f l2)%nat.
Proof. by rw /cnt filter_app length_app. Qed.

Lemma cnt_parking_inflight ths : (cnt parking_pc ths ≤ cnt inflight_pc ths)%nat.
Proof.
  induction ths as [|th ths IH]; [done|]. rw !cnt_cons. by destruct (th_pc th); simpl; lia.
Qed.

Definition queued c : nat := length (quick_message_queue (inner c)) + length (message_queue (inner c)).

(** The receiver has taken a message it has not yet discounted. *)
Definition rx_holds (r : RxPc T) : nat :=
  match r with RxUnpark _ | RxNotify _ _ | RxDec _ => 1 | _ => 0 end.
Definition rx_unparks (r : RxPc T) : nat := match r with RxUnpark _ => 1 | _ => 0 end.
Definition rx_unparked (r : RxPc T) : nat := match r with RxNotify _ _ | RxDec _ => 1 | _ => 0 end.
Definition rx_closing (r : RxPc T) : bool :=
  match r with RxClose | RxCloseNotify _ => true | _ => false end.

(** Somebody is going to notify the task [t]. *)
Definition will_notify s (t : nat) : Prop :=
  t ∈ parked_queue (inner (chan s)) ∨
  (∃ th, th ∈ sends s ∧ th_task th = t ∧ th_pc th = PcParkPush) ∨
  (∃ m, rx s = RxNotify m t) ∨ rx s = RxCloseNotify t.

Definition queue_of (p : Priority) c : list T :=
  match p with High => quick_message_queue (inner c) | Normal => message_queue (inner c) end.

(** The messages of one priority, in order. *)
Definition of_prio (p : Priority) (l : list (Priority * T)) : list T :=
  omap (λ m, if decide (m.1 = p) then Some m.2 else None) l.

Record SysInv s : Prop := {
  inv_u64 : is_u64 (state (inner (chan s)));
  inv_num : num_messages (state_of (chan s)) =
              (queued (chan s) + cnt inflight_pc (sends s) + rx_holds (rx s))%nat;
  inv_parked : (length (parked_queue (inner (chan s))) + cnt parking_pc (sends s) ≤
                queued (chan s) + cnt inflight_pc (sends s) + rx_unparks (rx s))%nat;
  inv_cap : is_open (state_of (chan s)) = true →
            num_messages (state_of (chan s)) ≤
              buffer (inner (chan s)) +
              (length (parked_queue (inner (chan s))) + cnt parking_pc (sends s) + rx_unparked (rx s))%nat;
  inv_closing : rx_closing (rx s) = true → is_open (state_of (chan s)) = false;
  inv_task : ∀ t tk, tasks (chan s) !! t = Some tk → is_parked tk = true → will_notify s t;
  inv_rx : receiver (chan s) = true ∨ rx s = RxIdle;
  inv_fifo : ∀ p, of_prio p (sent s) = of_prio p (received s) ++ queue_of p (chan s);
}.

(** The step, with the effect of its piece written out. *)
Ltac step_cases Hi Hs :=
  destruct Hs as [c ths cl r sn rc sl sid cx|c ths cl r sn rc sl sid snd msg p n c' Hsid Hm
    |c ths1 th ths2 cl r sn rc sl Hpc|c ths1 th ths2 cl r sn rc sl Hpc
    |c ths1 th ths2 cl r sn rc sl Hpc|c ths1 th ths2 cl r sn rc sl Hpc
    |c ths1 th ths2 cl r sn rc sl Hpc|c ths cl r sn rc sl new c' Hm
    |c ths cl r sn rc sl sid snd prev Hsid Hpr Hne|c ths cl r sn rc sl sid snd Hsid Hpr
    |c ths cl r sn rc sl|c ths cl r sn rc sl
    |c ths cl r sn rc sl cx Hr Hrx|c ths cl r sn rc sl Hr Hrx
    |c ths cl sn rc sl k msg c' Hm|c ths cl sn rc sl k c' Hm
    |c ths cl sn rc sl k msg c' Hm|c ths cl sn rc sl k c' Hm
    |c ths cl sn rc sl k Hst|c ths cl sn rc sl k Hst
    |c ths cl sn rc sl cx|c ths cl sn rc sl m t c' Hm|c ths cl sn rc sl m c' Hm
    |c ths cl sn rc sl m t|c ths cl sn rc sl m
    |c ths cl r sn rc sl Hr Hrx|c ths cl sn rc sl t c' Hm|c ths cl sn rc sl c' Hm
    |c ths cl sn rc sl t]; simpl in Hi |- *;
  [destruct (poll_unparked_spec sid cx c) as (ts & ss & Heff & Htk); rewrite -> Heff in *
  |destruct (inc_spec _ _ _ (inv_u64 _ Hi) Hm) as (Ho & -> & w & -> & Hw & Hd)
  |rewrite -> exec_park_lock in *|rewrite -> exec_park_push in *|rewrite -> exec_park_check in *
  |rewrite -> exec_queue_push in *
  |destruct (recv_wake_spec c) as (a & Heff & Ha); rewrite -> Heff in *
  |destruct (clone_spec _ _ _ Hm) as (n & ss & ->)|
  |destruct (set_closed_spec (with_inner (set_num_senders 0) (with_senders (delete sid) c)) (inv_u64 _ Hi))
     as (w & Heff & Hw & Hd); rewrite -> Heff in *
  |destruct (set_closed_spec c (inv_u64 _ Hi)) as (w & Heff & Hw & Hd); rewrite -> Heff in *
  |destruct (recv_wake_spec c) as (a & Heff & Ha); rewrite -> Heff in *
  | |
  |apply pop_quick_Some in Hm as (q & Hq & ->)
  |apply pop_quick_None in Hm as (Hq & ->)
  |apply pop_normal_Some in Hm as (q & Hq & ->)
  |apply pop_normal_None in Hm as (Hq & ->)
  | | |rewrite -> exec_recv_register in *
  |apply pop_parked_Some in Hm as (q & Hq & ->)
  |apply pop_parked_None in Hm as (Hq & ->)
  |destruct (notify_spec t c) as (ts & ws & Heff & Htk); rewrite -> Heff in *
  |destruct (dec_spec c (inv_u64 _ Hi)) as (w & Heff & Hw & Hd);
     [by destruct (inv_rx _ Hi)|pose proof (inv_num _ Hi); simpl in *; lia|rewrite -> Heff in *]
  |destruct (set_closed_spec c (inv_u64 _ Hi)) as (w & Heff & Hw & Hd); rewrite -> Heff in *
  |apply pop_parked_Some in Hm as (q & Hq & ->)
  |apply pop_parked_None in Hm as (Hq & ->)
  |destruct (notify_spec t c) as (ts & ws & Heff & Htk); rewrite -> Heff in *].

Context `{!AtomicWakerLaws A}.

Ltac inv_arith Hi :=
  destruct Hi as [Hu Hn Hp Hc Hcl Ht Hrx' Hf]; unfold queued, state_of in *; simpl in *;
  rewrite -> ?cnt_app, ?cnt_cons in *; simpl in *;
  repeat match goal with
  | H : decode_state _ = _ |- _ => rewrite -> H in *; simpl in *; clear H
  | H : th_pc _ = _ |- _ => rewrite -> H in *; simpl in *; clear H
  | H : _ ∨ (∃ _, _ = RxParked _) |- _ => destruct H as [->|[? ->]]; simpl in *
  | H : quick_message_queue _ = _ |- _ => rewrite -> H in *; simpl in *; clear H
  | H : message_queue _ = _ |- _ => rewrite -> H in *; simpl in *; clear H
  | H : parked_queue _ = _ |- _ => rewrite -> H in *; simpl in *; clear H
  | k : RxCall |- _ => destruct k; simpl in *
  | H : context [match ?p with High => _ | Normal => _ end] |- _ => destruct p; simpl in *
  | |- context [match ?p with High => _ | Normal => _ end] => destruct p; simpl in *
  | |- context [pc_after_inc ?b ?n] => unfold pc_after_inc; destruct (Z.ltb_spec b n); simpl in *
  end; rewrite -> ?length_app in *; simpl in *; try lia.

Lemma step_num s s' :
  SysInv s → cstep s s' →
  is_u64 (state (inner (chan s'))) ∧
  num_messages (state_of (chan s')) =
    (queued (chan s') + cnt inflight_pc (sends s') + rx_holds (rx s'))%nat.
Proof.
  intros Hi Hs. step_cases Hi Hs; inv_arith Hi; try done; (split; [done|lia]).
Qed.

Lemma step_parked s s' :
  SysInv s → cstep s s' →
  (length (parked_queue (inner (chan s'))) + cnt parking_pc (sends s') ≤
   queued (chan s') + cnt inflight_pc (sends s') + rx_unparks (rx s'))%nat.
Proof.
  intros Hi Hs. step_cases Hi Hs; inv_arith Hi.
  pose proof (cnt_parking_inflight ths). lia.
Qed.

Lemma step_cap s s' :
  SysInv s → cstep s s' → is_open (state_of (chan s')) = true →
  num_messages (state_of (chan s')) ≤
    buffer (inner (chan s')) +
    (length (parked_queue (inner (chan s'))) + cnt parking_pc (sends s') + rx_unparked (rx s'))%nat.
Proof.
  intros Hi Hs. step_cases Hi Hs; inv_arith Hi; intros Hop; try done;
    try (specialize (Hc Hop)); try (specialize (Hc Ho)); try lia; try (by rewrite -> Hcl in Hop).
Qed.

Lemma step_closing s s' :
  SysInv s → cstep s s' → rx_closing (rx s') = true → is_open (state_of (chan s')) = false.
Proof. intros Hi Hs. step_cases Hi Hs; inv_arith Hi; try done; intros Hr'; auto; by rewrite -> Hcl in Ho. Qed.

Lemma step_rx s s' : SysInv s → cstep s s' → receiver (chan s') = true ∨ rx s' = RxIdle.
Proof. intros Hi Hs. step_cases Hi Hs; inv_arith Hi; auto; by destruct Hrx'; auto. Qed.

Lemma of_prio_app p l1 l2 : of_prio p (l1 ++ l2) = of_prio p l1 ++ of_prio p l2.
Proof. apply omap_app. Qed.

Lemma step_fifo s s' pr :
  SysInv s → cstep s s' → of_prio pr (sent s') = of_prio pr (received s') ++ queue_of pr (chan s').
Proof.
  intros Hi Hs. pose proof (inv_fifo _ Hi pr) as Hf.
  step_cases Hi Hs; simpl in *; try done; clear Hi; rw ?of_prio_app.
  - rw Hf -app_assoc. f_equal. rw /of_prio /=. by destruct pr, (th_prio th); simpl; rw ?app_nil_r.
  - rw -app_assoc. destruct pr; simpl in *; rw Hf ?Hq //.
  - rw -app_assoc. destruct pr; simpl in *; rw Hf ?Hq //.
Qed.

(** A thread at [PcParkPush] stays there when another one moves. *)
Lemma at_push_other (ths1 ths2 l : list (SendThread T)) th t0 :
  th_pc th ≠ PcParkPush ∨ th_task th ≠ t0 →
  (∃ th', th' ∈ ths1 ++ th :: ths2 ∧ th_task th' = t0 ∧ th_pc th' = PcParkPush) →
  ∃ th', th' ∈ ths1 ++ l ++ ths2 ∧ th_task th' = t0 ∧ th_pc th' = PcParkPush.
Proof.
  intros Hth (th' & Hin & Ht & Hp). exists th'. split; [|done].
  rewrite -> !elem_of_app, !elem_of_cons in *. destruct Hin as [?|[->|?]]; naive_solver.
Qed.

Lemma step_task s s' t0 tk :
  SysInv s → cstep s s' → tasks (chan s') !! t0 = Some tk → is_parked tk = true → will_notify s' t0.
Proof.
  intros Hi Hs. pose proof (inv_task _ Hi) as Ht.
  step_cases Hi Hs; clear Hi; rw /will_notify /= in Ht *; intros Hl Hp.
  all: try by (eauto || naive_solver).
  - destruct (Ht _ _ Hl Hp) as [?|[(th & Hin & ?)|?]]; auto. right. left. exists th. set_solver.
  - destruct (decide (t0 = th_task th)) as [->|Hne].
    + right. left. exists (set_pc PcParkPush th). set_solver.
    + rw lookup_insert_ne in Hl; [|done]. destruct (Ht _ _ Hl Hp) as [?|[?|?]]; auto.
      right. left. apply (at_push_other _ _ [_] th); auto.
  - destruct (Ht _ _ Hl Hp) as [?|[?|?]]; [set_solver| |auto].
    destruct (decide (t0 = th_task th)) as [->|Hne]; [set_solver|].
    right. left. apply (at_push_other _ _ [_] th); auto.
  - destruct (Ht _ _ Hl Hp) as [?|[?|?]]; auto.
    right. left. apply (at_push_other _ _ [_] th); auto. left. by rw Hpc.
  - destruct (Ht _ _ Hl Hp) as [?|[?|?]]; [left; by destruct (th_prio th)| |auto].
    right. left. apply (at_push_other _ _ [_] th); auto. left. by rw Hpc.
  - destruct (Ht _ _ Hl Hp) as [?|[?|?]]; auto.
    right. left. apply (at_push_other _ _ [] th); auto. left. by rw Hpc.
  - destruct (decide (t0 = new)) as [->|Hne].
    + rw lookup_insert_eq in Hl. injection Hl as <-. done.
    + rw lookup_insert_ne in Hl; [|done]. eauto.
  - destruct (Ht _ _ Hl Hp) as [Hin|[?|[[??]|?]]]; try done; [|auto].
    simpl in Hq. rw Hq in Hin. set_solver.
  - destruct (Ht _ _ Hl Hp) as [Hin|[?|[[??]|?]]]; try done; [|auto].
    simpl in Hq. rw Hq in Hin. set_solver.
Qed.

Lemma step_inv s s' : SysInv s → cstep s s' → SysInv s'.
Proof.
  intros Hi Hs. pose proof (step_num _ _ Hi Hs) as [??]. split.
  - done.
  - done.
  - by eapply step_parked.
  - by eapply step_cap.
  - by eapply step_closing.
  - intros ??. by eapply step_task.
  - by eapply step_rx.
  - intros ?. by eapply step_fifo.
Qed.

Lemma init_inv buf c : channel buf = Some c → 0 ≤ buf → SysInv (sys_init c).
Proof.
  rw /channel. case_match; [|done]. intros [= <-] Hb. split; simpl; try done.
  - intros _. rw /state_of /= decode_INIT_STATE /=. lia.
  - intros t tk. destruct (decide (t = 0%nat)) as [->|].
    + rw lookup_singleton_eq. by intros [= <-].
    + rw lookup_singleton_ne //.
  - auto.
  - by intros [].
Qed.

Lemma run_inv buf c s : channel buf = Some c → 0 ≤ buf → rtc cstep (sys_init c) s → SysInv s.
Proof.
  intros Hc Hb Hr. pose proof (init_inv _ _ Hc Hb) as Hi. revert Hi.
  induction Hr as [|s0 s1 s2 Hs _ IH]; [done|]. intros Hi. by eapply IH, step_inv.
Qed.

(** ** The receiver's wake-up *)

Definition registered s : option Waker := aw_registered (recv_task (inner (chan s))).
(** [cx] was woken after its last registration. *)
Definition awake s (cx : Waker) : Prop := cx ∈ drop (slept s) (woken (chan s)).
Definition waking s : Prop := (0 < cnt wake_pc (sends s))%nat.

Definition sleep_inv s : Prop :=
  match rx s with
  | RxQuick (CallSecond cx) => awake s cx ∨ registered s = Some cx
  | RxNormal (CallSecond cx) =>
      awake s cx ∨ (registered s = Some cx ∧ (queue_of High (chan s) ≠ [] → waking s))
  | RxState (CallSecond cx) =>
      awake s cx ∨
      (registered s = Some cx ∧ (queue_of High (chan s) ≠ [] → waking s) ∧
       (queue_of Normal (chan s) ≠ [] → waking s))
  | RxParked cx =>
      awake s cx ∨
      (registered s = Some cx ∧ (queue_of High (chan s) ≠ [] → waking s) ∧
       (queue_of Normal (chan s) ≠ [] → waking s) ∧
       (State_is_closed (state_of (chan s)) = true → (0 < closers s)%nat))
  | _ => True
  end.

(** What a step of another thread must respect. *)
Definition sleep_ok s s' : Prop :=
  (∀ cx, awake s cx → awake s' cx) ∧
  ∀ cx, registered s = Some cx →
    awake s' cx ∨
    (registered s' = Some cx ∧
     (∀ p, queue_of p (chan s') ≠ [] → queue_of p (chan s) ≠ [] ∨ waking s') ∧
     (waking s → waking s') ∧
     (State_is_closed (state_of (chan s')) = true →
        State_is_closed (state_of (chan s)) = true ∨ (0 < closers s')%nat) ∧
     (closers s ≤ closers s')%nat).

Lemma sleep_other s s' : rx s' = rx s → sleep_ok s s' → sleep_inv s → sleep_inv s'.
Proof.
  intros Hrx [Ha Hr]. rw /sleep_inv Hrx.
  destruct (rx s) as [|cx|[|cx|]|[|cx|]|[|cx|]|cx|m|m t|m| |t]; try done;
    (intros [Hw|Hs]; [left; by apply Ha|]); try (specialize (Hr cx ltac:(apply Hs)) as [?|(Hr & Hq & Hw & Hst & Hcl)]; [by left|right]).
  - destruct Hs as (_ & H1 & H2 & H3). split_and!; [done|..].
    + intros [?|?]%Hq; auto.
    + intros [?|?]%Hq; auto.
    + intros [Hc|?]%Hst; [|done]. specialize (H3 Hc). lia.
  - done.
  - destruct Hs as (_ & H1). split; [done|]. intros [?|?]%Hq; auto.
  - destruct Hs as (_ & H1 & H2). split_and!; [done|..]; intros [?|?]%Hq; auto.
Qed.

Lemma sleep_ok_same s s' :
  registered s' = registered s → woken (chan s') = woken (chan s) → slept s' = slept s →
  (∀ p, queue_of p (chan s') = queue_of p (chan s)) → (waking s → waking s') →
  (State_is_closed (state_of (chan s')) = true → State_is_closed (state_of (chan s)) = true) →
  (closers s ≤ closers s')%nat → sleep_ok s s'.
Proof.
  intros Hr Hw Hsl Hq Hwk Hst Hcl. split.
  - intros cx. by rw /awake Hw Hsl.
  - intros cx Hcx. right. rw Hr. split_and!; auto. intros p. rw Hq. auto.
Qed.

(** [recv_wake]: a registered task is woken. *)
Lemma sleep_ok_wake s s' a :
  inner (chan s') = set_recv_task a (inner (chan s)) →
  woken (chan s') = woken (chan s) ++ option_list (registered s) →
  slept s' = slept s → (slept s ≤ length (woken (chan s)))%nat → sleep_ok s s'.
Proof.
  intros Hi Hw Hsl Hle. split.
  - intros cx. rw /awake Hw Hsl drop_app. set_solver.
  - intros cx Hcx. left. rw /awake Hw Hsl Hcx drop_app. simpl.
    replace (slept s - length (woken (chan s)))%nat with O by lia. set_solver.
Qed.

Lemma waking_app (ths1 ths2 : list (SendThread T)) th : th_pc th = PcWake → (0 < cnt wake_pc (ths1 ++ th :: ths2))%nat.
Proof. intros Hpc. rw cnt_app cnt_cons Hpc /=. lia. Qed.

Lemma step_slept s s' :
  SysInv s → cstep s s' → (slept s ≤ length (woken (chan s)))%nat →
  (slept s' ≤ length (woken (chan s')))%nat.
Proof.
  intros Hi Hs. step_cases Hi Hs; clear Hi; simpl; rewrite -> ?length_app; lia.
Qed.

Lemma step_sleep s s' :
  SysInv s → (slept s ≤ length (woken (chan s)))%nat → cstep s s' → sleep_inv s → sleep_inv s'.
Proof.
  intros Hi Hsl Hs. step_cases Hi Hs; simpl in Hsl.
  all: try (intros _; exact I).
  all: try (apply sleep_other; [done|]).
  all: try (by apply sleep_ok_same).
  all: try (apply sleep_ok_same; try done; rw /waking /= ?cnt_app ?cnt_cons ?Hpc /=; by try lia).
  - apply sleep_ok_same; try done; rw /waking /= ?cnt_cons; [lia|].
    rw /state_of /State_is_closed /= Hd //.
  - split; [done|]. intros cx Hcx. right. split_and!; try done.
    + rw -Hcx /registered /=. by destruct (th_prio th).
    + intros p _. right. by apply waking_app.
    + intros _. by apply waking_app.
    + rw /state_of /=. destruct (th_prio th); auto.
  - by apply (sleep_ok_wake _ _ a).
  - split; [done|]. intros cx Hcx. right. split_and!; simpl; auto; lia.
  - split; [done|]. intros cx Hcx. right. split_and!; simpl; auto; lia.
  - by apply (sleep_ok_wake _ _ a).
  - destruct k; simpl; try done. rw /sleep_inv /=. intros [?|?]; [by left|right].
    split; [done|]. by rw /= Hq.
  - destruct k; simpl; try done. rw /sleep_inv /=. intros [?|[??]]; [by left|right].
    split_and!; [done..|]. by rw /= Hq.
  - destruct k; simpl; try done. rw /sleep_inv /=. intros [?|(?&?&?)]; [by left|right].
    split_and!; try done. by rw Hst.
  - intros _. right. rw /registered /=. apply aw_registered_register.
Qed.

Lemma run_sleep buf c s :
  channel buf = Some c → 0 ≤ buf → rtc cstep (sys_init c) s → sleep_inv s.
Proof.
  intros Hc Hb Hr. pose proof (init_inv _ _ Hc Hb) as Hi.
  assert (sleep_inv (sys_init c)) as Hsl by done.
  assert (slept (sys_init c) ≤ length (woken (chan (sys_init c))))%nat as Hlen by (simpl; lia).
  revert Hi Hsl Hlen. induction Hr as [|s0 s1 s2 Hs _ IH]; [done|]. intros Hi Hsl Hlen.
  apply IH; [by eapply step_inv|by eapply step_sleep|by eapply step_slept].
Qed.

(** ** The receiver running alone *)

Definition quiet (r : RxPc T) : Prop := r = RxIdle ∨ ∃ cx, r = RxParked cx.

#[local] Transparent exec.

Lemma dec_eq c : dec_num_messages (E:=unit) c = (Ok (), exec dec_num_messages c).
Proof. rw /exec /dec_num_messages /mbind /M_bind /gets /when /=. by destruct (receiver c). Qed.

Lemma pop_parked_eq c :
  pop_parked (E:=unit) c =
  match parked_queue (inner c) with
  | [] => (Ok None, c)
  | t :: q => (Ok (Some t), with_inner (set_parked_queue q) c)
  end.
Proof. rw /pop_parked /mbind /M_bind /gets /=. by destruct (parked_queue (inner c)). Qed.

Lemma unpark_one_eq c :
  receiver c = true →
  unpark_one (E:=unit) c =
  (Ok (), match parked_queue (inner c) with
          | [] => c
          | t :: q => exec (notify t) (with_inner (set_parked_queue q) c)
          end).
Proof.
  intros Hr. rw /unpark_one /mbind /M_bind {1}/gets Hr /= pop_parked_eq.
  by destruct (parked_queue (inner c)).
Qed.

#[local] Opaque exec.

Lemma exec_dec_same c :
  receiver (exec dec_num_messages c) = receiver c ∧
  (∀ p, queue_of p (exec dec_num_messages c) = queue_of p c).
Proof.
  #[local] Transparent exec. rw /exec /dec_num_messages /mbind /M_bind /gets /when /=.
  destruct (receiver c) eqn:Hr; split; try done; by intros [].
Qed.

#[local] Opaque exec.

(** The rest of [next_message] once a message is taken. *)
Lemma take_message_steps c m ths cl sn rc sl :
  receiver c = true →
  ∃ c', ((unpark_one;; dec_num_messages) : M _ unit unit) c = (Ok (), c') ∧
    receiver c' = true ∧ (∀ p, queue_of p c' = queue_of p c) ∧
    rtc cstep (mkSys c ths cl (RxUnpark m) sn rc sl) (mkSys c' ths cl RxIdle sn rc sl).
Proof.
  intros Hr. rw /mbind /M_bind unpark_one_eq // dec_eq.
  pose proof (pop_parked_eq c) as Hpop. destruct (parked_queue (inner c)) as [|t q].
  - eexists. destruct (exec_dec_same c) as [H1 H2]. split_and!; [done|by rw H1|done|].
    eapply rtc_l; [by eapply cs_unpark_none|]. apply rtc_once. apply cs_dec.
  - set (c1 := exec (notify t) (with_inner (set_parked_queue q) c)).
    destruct (notify_spec t (with_inner (set_parked_queue q) c)) as (ts & ws & Heff & _).
    eexists. destruct (exec_dec_same c1) as [H1 H2]. split_and!; [done| | |].
    + by rw H1 /c1 Heff.
    + intros p. rw H2 /c1 Heff. by destruct p.
    + eapply rtc_l; [by eapply cs_unpark_some|]. eapply rtc_l; [apply cs_notify|].
      apply rtc_once. apply cs_dec.
Qed.

Lemma rx_start c ths cl r sn rc sl :
  quiet r → receiver c = true →
  cstep (mkSys c ths cl r sn rc sl) (mkSys c ths cl (RxQuick CallTry) sn rc sl).
Proof. intros Hq Hr. by apply cs_try_next. Qed.

(** [next_message] on a non-empty channel: the head of the quick queue, or of
    the normal queue when there is none. *)
Lemma next_message_steps c ths cl r sn rc sl :
  receiver c = true → quiet r → queued c ≠ 0%nat →
  ∃ m c', next_message (E:=unit) c = (Ok (Ready (Some m)), c') ∧
    receiver c' = true ∧ queued c = S (queued c') ∧
    rtc cstep (mkSys c ths cl r sn rc sl) (mkSys c' ths cl RxIdle sn (rc ++ [m]) sl).
Proof.
  intros Hr Hq Hn. rw /next_message /mbind /M_bind {1}/gets Hr /= /queued.
  rw /queued in Hn. pose proof (rx_start c ths cl r sn rc sl Hq Hr) as Hstart.
  assert (∃ qk, quick_message_queue (inner c) = qk) as [qk Hqk] by eauto.
  destruct qk as [|m qk].
  - assert (pop_quick (E:=unit) c = (Ok None, c)) as Hpq
      by (by rw /pop_quick /mbind /M_bind /gets Hqk).
    destruct (message_queue (inner c)) as [|m nq] eqn:Hnq; [by rw Hqk in Hn|].
    assert (pop_normal (E:=unit) c = (Ok (Some m), with_inner (set_message_queue nq) c)) as Hpn
      by (by rw /pop_normal /mbind /M_bind /gets Hnq).
    destruct (take_message_steps (with_inner (set_message_queue nq) c) (Normal, m) ths cl sn
                (rc ++ [(Normal, m)]) sl Hr) as (c' & Hm & Hr' & Hqs & Hst).
    exists (Normal, m), c'. rw Hpq Hpn /=. rw /mbind /M_bind in Hm.
    destruct (unpark_one _) as [[[]| |] c2]; try done. rw Hm. split_and!; [done..| |].
    + pose proof (Hqs High) as H1. pose proof (Hqs Normal) as H2. simpl in H1, H2. by rw H1 H2 Hqk.
    + eapply rtc_l; [done|]. eapply rtc_l; [by eapply cs_quick_none|].
      eapply rtc_l; [by eapply cs_normal_some|]. done.
  - assert (pop_quick (E:=unit) c = (Ok (Some m), with_inner (set_quick_message_queue qk) c)) as Hpq
      by (by rw /pop_quick /mbind /M_bind /gets Hqk).
    destruct (take_message_steps (with_inner (set_quick_message_queue qk) c) (High, m) ths cl sn
                (rc ++ [(High, m)]) sl Hr) as (c' & Hm & Hr' & Hqs & Hst).
    exists (High, m), c'. rw Hpq /=. rw /mbind /M_bind in Hm.
    destruct (unpark_one _) as [[[]| |] c2]; try done. rw Hm. split_and!; [done..| |].
    + pose proof (Hqs High) as H1. pose proof (Hqs Normal) as H2. simpl in H1, H2. by rw H1 H2 Hqk.
    + eapply rtc_l; [done|]. eapply rtc_l; [by eapply cs_quick_some|]. done.
Qed.

(** What [next_message] takes from a channel that holds messages. *)
Lemma next_message_takes c :
  receiver c = true →
  match queue_of High c, queue_of Normal c with
  | m :: q, n => ∃ c', next_message (E:=unit) c = (Ok (Ready (Some (High, m))), c') ∧
                       queue_of High c' = q ∧ queue_of Normal c' = n ∧ receiver c' = true
  | [], m :: q => ∃ c', next_message (E:=unit) c = (Ok (Ready (Some (Normal, m))), c') ∧
                       queue_of High c' = [] ∧ queue_of Normal c' = q ∧ receiver c' = true
  | [], [] => True
  end.
Proof.
  intros Hrx. rw /next_message /mbind /M_bind {1 3}/gets Hrx /= /pop_quick /pop_normal /mbind /M_bind /gets.
  destruct (quick_message_queue (inner c)) as [|m q] eqn:Hq;
    [destruct (message_queue (inner c)) as [|m q] eqn:Hn; [done|]|].
  - destruct (take_message_steps (with_inner (set_message_queue q) c) (Normal, m) [] 0 [] [] 0 Hrx)
      as (c' & Hm & Hr & Hqs & _). exists c'. rw /= Hn /=. rw /mbind /M_bind in Hm.
    destruct (unpark_one _) as [[[]| |] c2]; try done. rw Hm. split; [done|].
    pose proof (Hqs High) as H1. pose proof (Hqs Normal) as H2. simpl in *. by rw H1 H2 Hq.
  - destruct (take_message_steps (with_inner (set_quick_message_queue q) c) (High, m) [] 0 [] [] 0 Hrx)
      as (c' & Hm & Hr & Hqs & _). exists c'. simpl. rw /mbind /M_bind in Hm.
    destruct (unpark_one _) as [[[]| |] c2]; try done. rw Hm. split; [done|].
    pose proof (Hqs High) as H1. pose proof (Hqs Normal) as H2. simpl in *. by rw H1 H2.
Qed.

(** [n] calls of [next_message]. *)
Fixpoint drain (n : nat) : M (Chan T A) unit unit :=
  match n with
  | O => mret ()
  | S n => next_message;; drain n
  end.

Lemma drain_steps n c cl r sn rc sl :
  receiver c = true → quiet r → queued c = n →
  ∃ c' rc', drain n c = (Ok (), c') ∧ queued c' = 0%nat ∧ receiver c' = true ∧
    rtc cstep (mkSys c [] cl r sn rc sl) (mkSys c' [] cl (if decide (n = 0%nat) then r else RxIdle) sn rc' sl).
Proof.
  revert c r rc. induction n as [|n IH]; intros c r rc Hr Hq Hn.
  - exists c, rc. by split_and!.
  - destruct (next_message_steps c [] cl r sn rc sl Hr Hq) as (m & c1 & Hm & Hr1 & Hn1 & Hst); [by rw Hn|].
    destruct (IH c1 RxIdle (rc ++ [m])) as (c' & rc' & Hd & Hn' & Hr' & Hst'); [done|by left|lia|].
    exists c', rc'. cbn [drain]. rw /mbind /M_bind Hm Hd. split_and!; try done.
    rewrite -> decide_False by done. etrans; [done|]. by case_decide.
Qed.

(** Without sending threads and with nothing queued no sender is parked. *)
Lemma inv_no_parked s t tk :
  SysInv s → sends s = [] → quiet (rx s) → queued (chan s) = 0%nat →
  tasks (chan s) !! t = Some tk → is_parked tk = false.
Proof.
  intros Hi Hs Hq Hn Ht. destruct (is_parked tk) eqn:Hp; [|done]. exfalso.
  pose proof (inv_parked _ Hi) as Hpk. rw Hs Hn /= in Hpk.
  assert (rx_unparks (rx s) = 0%nat) as Hru by (by destruct Hq as [->|[? ->]]).
  rw Hru in Hpk. destruct (parked_queue (inner (chan s))) eqn:Hpq; [|simpl in Hpk; lia].
  destruct (inv_task _ Hi _ _ Ht Hp) as [Hin|[(th & Hin & _)|Hr]].
  - rw Hpq in Hin. set_solver.
  - rw Hs in Hin. set_solver.
  - destruct Hq as [Hq|[? Hq]]; rw Hq in Hr; by destruct Hr as [[??]|?].
Qed.

Lemma step_closed s s' :
  SysInv s → cstep s s' → is_open (state_of (chan s)) = false → is_open (state_of (chan s')) = false.
Proof.
  intros Hi Hs Hc. step_cases Hi Hs; simpl in *; rw /state_of /= ?Hd //=; try done.
  - by rw Hc in Ho.
  - by destruct (th_prio th).
Qed.

Lemma steps_inv s s' : SysInv s → rtc cstep s s' → SysInv s'.
Proof. intros Hi Hr. induction Hr; [done|]. by eauto using step_inv. Qed.

Lemma steps_closed s s' :
  SysInv s → rtc cstep s s' → is_open (state_of (chan s)) = false → is_open (state_of (chan s')) = false.
Proof. intros Hi Hr. induction Hr; [done|]. eauto using step_inv, step_closed. Qed.

Lemma close_loop_steps n c ths cl sn rc sl :
  length (parked_queue (inner c)) = n →
  ∃ c', close_loop (E:=unit) (S n) c = (Ok (), c') ∧ receiver c' = receiver c ∧
    (∀ p, queue_of p c' = queue_of p c) ∧ parked_queue (inner c') = [] ∧
    rtc cstep (mkSys c ths cl RxClose sn rc sl) (mkSys c' ths cl RxIdle sn rc sl).
Proof.
  revert c. induction n as [|n IH]; intros c Hn; pose proof (pop_parked_eq c) as Hpop;
    destruct (parked_queue (inner c)) as [|t q] eqn:Hq; try done.
  - exists c. cbn [close_loop]. rw /mbind /M_bind Hpop. split_and!; try done.
    apply rtc_once. by eapply cs_close_none.
  - set (c1 := exec (notify t) (with_inner (set_parked_queue q) c)).
    destruct (notify_spec t (with_inner (set_parked_queue q) c)) as (ts & ws & Heff & _).
    destruct (IH c1) as (c' & Hl & Hr & Hqs & Hpk & Hst); [by rw /c1 Heff; injection Hn|].
    exists c'. rw {1}/close_loop -/close_loop /mbind /M_bind Hpop. split_and!.
    + exact Hl.
    + by rw Hr /c1 Heff.
    + intros p. rw Hqs /c1 Heff. by destruct p.
    + done.
    + eapply rtc_l; [by eapply cs_close_some|]. by eapply rtc_l; [apply cs_close_notify|].
Qed.

#[local] Transparent exec.
Lemma set_closed_eq c : set_closed (E:=unit) c = (Ok (), exec set_closed c).
Proof. rw /exec /set_closed /mbind /M_bind /gets /=. by destruct (negb _). Qed.
#[local] Opaque exec.

Lemma close_steps c ths cl r sn rc sl :
  is_u64 (state (inner c)) → receiver c = true → quiet r →
  ∃ c', close (E:=unit) c = (Ok (), c') ∧ receiver c' = true ∧
    (∀ p, queue_of p c' = queue_of p c) ∧ parked_queue (inner c') = [] ∧
    ∃ c1, is_open (state_of c1) = false ∧
      cstep (mkSys c ths cl r sn rc sl) (mkSys c1 ths cl RxClose sn rc sl) ∧
      rtc cstep (mkSys c1 ths cl RxClose sn rc sl) (mkSys c' ths cl RxIdle sn rc sl).
Proof.
  intros Hu Hr Hq. destruct (set_closed_spec c Hu) as (w & Heff & _ & Hd).
  destruct (close_loop_steps _ (exec set_closed c) ths cl sn rc sl eq_refl) as (c' & Hl & Hr' & Hqs & Hpk & Hst).
  exists c'. rw /close /mbind /M_bind {1}/gets Hr /= set_closed_eq.
  split_and!; [done|by rw Hr' Heff|intros p; rw Hqs Heff; by destruct p|done|].
  exists (exec set_closed c). split_and!; [by rw Heff /state_of /= Hd| |done]. by apply cs_close.
Qed.

Lemma next_message_end c :
  receiver c = true → queued c = 0%nat → State_is_closed (state_of c) = true →
  next_message (E:=unit) c = (Ok (Ready None), with_receiver false c).
Proof.
  intros Hr Hn Hc. rw /next_message /mbind /M_bind {1}/gets Hr /=. rw /queued in Hn.
  rw /pop_quick /pop_normal /mbind /M_bind /gets /=.
  destruct (quick_message_queue (inner c)); [|done]. simpl.
  destruct (message_queue (inner c)); [|done]. by rw /= Hc.
Qed.

Lemma drop_loop_ends n c cl sn rc sl :
  SysInv (mkSys c [] cl RxIdle sn rc sl) → receiver c = true → queued c = n →
  is_open (state_of c) = false →
  ∃ c', drop_loop (E:=unit) (S n) c = (Ok (Some ()), c') ∧ receiver c' = false ∧ queued c' = 0%nat ∧
    ∀ t tk, tasks c' !! t = Some tk → is_parked tk = false.
Proof.
  revert c rc. induction n as [|n IH]; intros c rc Hi Hr Hn Hc.
  - exists (with_receiver false c). cbn [drop_loop]. rw /mbind /M_bind next_message_end //.
    + split_and!; try done. intros t tk Ht. eapply (inv_no_parked _ t tk Hi); try done. by left.
    + pose proof (inv_num _ Hi) as Hnum. simpl in Hnum. rw /State_is_closed Hc Hnum Hn. done.
  - destruct (next_message_steps c [] cl RxIdle sn rc sl Hr) as (m & c1 & Hm & Hr1 & Hn1 & Hst);
      [by left|by rw Hn|].
    destruct (IH c1 (rc ++ [m])) as (c' & Hd & H'); [by eapply steps_inv|done|lia|by eapply (steps_closed _ _ Hi Hst)|].
    exists c'. split; [|done]. rw {1}/drop_loop -/drop_loop /mbind /M_bind Hm. exact Hd.
Qed.

(** ** Properties *)

(** C7. Under every interleaving the message count of the state word is the
    number of queued messages plus those of threads between their increment
    and their push (plus the one the receiver is handing over); the parked
    senders never outnumber the messages; and while the channel is open the
    count exceeds the buffer by at most the number of senders that are parked
    or about to park. *)
Theorem channel_accounting (buf : Z) (c : Chan T A) (s : Sys T A) :
  channel buf = Some c → 0 ≤ buf → rtc cstep (sys_init c) s →
  num_messages (state_of (chan s)) =
    (queued (chan s) + cnt inflight_pc (sends s) + rx_holds (rx s))%nat ∧
  (length (parked_queue (inner (chan s))) + cnt parking_pc (sends s) ≤
     queued (chan s) + cnt inflight_pc (sends s) + rx_unparks (rx s))%nat ∧
  (is_open (state_of (chan s)) = true →
   num_messages (state_of (chan s)) ≤ buffer (inner (chan s)) +
     (length (parked_queue (inner (chan s))) + cnt parking_pc (sends s) + rx_unparked (rx s))%nat).
Proof.
  intros Hc Hb Hr. pose proof (run_inv _ _ _ Hc Hb Hr) as Hi.
  split_and!; [apply (inv_num _ Hi)|apply (inv_parked _ Hi)|apply (inv_cap _ Hi)].
Qed.

(** C32. Delivery: per priority, the messages received followed by those still
    queued are the messages sent, in the order of their pushes, under every
    interleaving; and a receiver that finds messages takes the oldest quick
    one, or the oldest normal one when no quick one is queued. *)
Theorem channel_priority_fifo (buf : Z) (c : Chan T A) (s : Sys T A) :
  channel buf = Some c → 0 ≤ buf → rtc cstep (sys_init c) s →
  (∀ p, of_prio p (sent s) = of_prio p (received s) ++ queue_of p (chan s)) ∧
  (receiver (chan s) = true →
   match queue_of High (chan s), queue_of Normal (chan s) with
   | m :: q, n => ∃ c', next_message (E:=unit) (chan s) = (Ok (Ready (Some (High, m))), c') ∧
                        queue_of High c' = q ∧ queue_of Normal c' = n
   | [], m :: q => ∃ c', next_message (E:=unit) (chan s) = (Ok (Ready (Some (Normal, m))), c') ∧
                        queue_of High c' = [] ∧ queue_of Normal c' = q
   | [], [] => True
   end).
Proof.
  intros Hc Hb Hr. pose proof (run_inv _ _ _ Hc Hb Hr) as Hi. split; [apply (inv_fifo _ Hi)|].
  intros Hrx. pose proof (next_message_takes (chan s) Hrx) as H.
  destruct (queue_of High (chan s)) as [|m q], (queue_of Normal (chan s)) as [|m' q']; [done|..];
    destruct H as (c' & ? & ? & ? & _); eauto.
Qed.

(** C19. The receiver does not miss a wake-up: when its task went to sleep
    after a pending [poll_next], either it has been woken since it registered,
    or its waker is still registered and, if a message is queued, a sending
    thread is about to wake it, and, if the channel has become closed and
    empty, the closing thread is. *)
Theorem no_lost_receiver_wakeup (buf : Z) (c : Chan T A) (s : Sys T A) (cx : Waker) :
  channel buf = Some c → 0 ≤ buf → rtc cstep (sys_init c) s → rx s = RxParked cx →
  cx ∈ drop (slept s) (woken (chan s)) ∨
  (aw_registered (recv_task (inner (chan s))) = Some cx ∧
   (queued (chan s) ≠ 0%nat → ∃ th, th ∈ sends s ∧ th_pc th = PcWake) ∧
   (State_is_closed (state_of (chan s)) = true → (0 < closers s)%nat)).
Proof.
  intros Hc Hb Hr Hrx. pose proof (run_sleep _ _ _ Hc Hb Hr) as Hs.
  rw /sleep_inv Hrx in Hs. destruct Hs as [Hs|(H1 & H2 & H3 & H4)]; [by left|right].
  split_and!; [done| |done]. intros Hq.
  assert (waking s) as Hw.
  { rw /queued in Hq. destruct (quick_message_queue (inner (chan s))) eqn:E1; [|by apply H2; rw /= E1].
    destruct (message_queue (inner (chan s))) eqn:E2; [done|by apply H3; rw /= E2]. }
  rw /waking /cnt in Hw. destruct (filter _ (sends s)) as [|th l] eqn:Hf; [simpl in Hw; lia|].
  assert (th ∈ filter (λ th, wake_pc (th_pc th)) (sends s)) as Hin by (rw Hf; set_solver).
  apply list_elem_of_filter in Hin as [Hpc Hin]. exists th. split; [done|].
  by destruct (th_pc th).
Qed.

(** No sender stays parked: from every reachable state in which no thread
    is inside a send, receiving the queued messages leaves every sender task
    unparked, the channel empty, and the receiver alive. *)
Theorem draining_unparks_senders (buf : Z) (c : Chan T A) (s : Sys T A) :
  channel buf = Some c → 0 ≤ buf → rtc cstep (sys_init c) s →
  sends s = [] → quiet (rx s) → receiver (chan s) = true →
  ∃ c', drain (queued (chan s)) (chan s) = (Ok (), c') ∧ queued c' = 0%nat ∧ receiver c' = true ∧
    ∀ t tk, tasks c' !! t = Some tk → is_parked tk = false.
Proof.
  intros Hc Hb Hr Hs Hq Hrx. pose proof (run_inv _ _ _ Hc Hb Hr) as Hi.
  destruct s as [c0 ths cl r sn rc sl]; simpl in *; subst ths.
  destruct (drain_steps _ c0 cl r sn rc sl Hrx Hq eq_refl) as (c' & rc' & Hd & Hn & Hr' & Hst).
  exists c'. split_and!; try done. intros t tk.
  apply (inv_no_parked _ t tk (steps_inv _ _ Hi Hst)); try done. simpl. case_decide; [done|by left].
Qed.

(** Dropping the receiver ends: from every reachable state in which no
    thread is inside a send, one round per queued message and a last one
    finish the destructor's loop, the channel is empty and every sender task
    is unparked. *)
Theorem receiver_drop_ends (buf : Z) (c : Chan T A) (s : Sys T A) :
  channel buf = Some c → 0 ≤ buf → rtc cstep (sys_init c) s →
  sends s = [] → quiet (rx s) → receiver (chan s) = true →
  ∃ c', receiver_drop (E:=unit) (S (queued (chan s))) (chan s) = (Ok (Some ()), c') ∧
    receiver c' = false ∧ queued c' = 0%nat ∧
    ∀ t tk, tasks c' !! t = Some tk → is_parked tk = false.
Proof.
  intros Hc Hb Hr Hs Hq Hrx. pose proof (run_inv _ _ _ Hc Hb Hr) as Hi.
  destruct s as [c0 ths cl r sn rc sl]; simpl in *; subst ths.
  destruct (close_steps c0 [] cl r sn rc sl (inv_u64 _ Hi) Hrx Hq)
    as (c1 & Hcl & Hr1 & Hqs & _ & c2 & Ho & Hst & Hsts).
  pose proof (step_inv _ _ Hi Hst) as Hi2. pose proof (steps_inv _ _ Hi2 Hsts) as Hi1.
  pose proof (steps_closed _ _ Hi2 Hsts Ho) as Ho1.
  destruct (drop_loop_ends (queued c0) c1 cl sn rc sl Hi1 Hr1) as (c' & Hd & H'); [|done|].
  { pose proof (Hqs High) as H1. pose proof (Hqs Normal) as H2. simpl in *. by rw /queued H1 H2. }
  exists c'. split; [|done]. rw /receiver_drop /mbind /M_bind Hcl /gets Hr1. exact Hd.
Qed.

(** [poll_unparked] by cases. *)
Lemma poll_unparked_eq {E} sid cx c snd tk :
  senders c !! sid = Some snd → tasks c !! sender_task snd = Some tk →
  poll_unparked (E:=E) sid cx c =
  if maybe_parked snd then
    if is_parked tk then (Ok Pending, with_tasks <[sender_task snd := mkSenderTask cx (is_parked tk)]> c)
    else (Ok (Ready ()), with_senders (alter (λ x, mkSenderInner (sender_task x) false) sid) c)
  else (Ok (Ready ()), c).
Proof.
  intros Hs Ht. rw /poll_unparked /self /mbind /M_bind /gets /= Hs /=.
  destruct (maybe_parked snd); [|done]. rw /= Ht. by destruct (is_parked tk).
Qed.

(** What a successful send leaves: the message is queued, the counter is
    incremented, and over the buffer size the sender is parked. *)
Definition sent_ok c c' sid (t : nat) (msg : T) (p : Priority) : Prop :=
  state_of c' = mkState true (num_messages (state_of c) + 1) ∧
  (∀ p', queue_of p' c' = queue_of p' c ++ (if decide (p' = p) then [msg] else [])) ∧
  (∀ w, aw_registered (recv_task (inner c)) = Some w → w ∈ woken c') ∧
  if buffer (inner c) <? num_messages (state_of c) + 1 then
    parked_queue (inner c') = parked_queue (inner c) ++ [t] ∧
    tasks c' !! t = Some (mkSenderTask None true) ∧
    senders c' !! sid = Some (mkSenderInner t true)
  else
    parked_queue (inner c') = parked_queue (inner c) ∧ tasks c' = tasks c ∧
    senders c' !! sid = Some (mkSenderInner t false).

Lemma do_send_b_ok sid msg p c t :
  is_u64 (state (inner c)) → senders c !! sid = Some (mkSenderInner t false) → is_open (state_of c) = true →
  num_messages (state_of c) < MAX_CAPACITY →
  ∃ c', do_send_b sid msg p c = (Ok (), c') ∧ sent_ok c c' sid t msg p.
Proof.
  intros Hu Hs Ho Hn. assert (MAX_CAPACITY = 2 ^ 63 - 1) as HM by done.
  pose proof (decode_num_range _ Hu) as Hr.
  set (st := mkState true (num_messages (state_of c) + 1)).
  assert (decode_state (encode_state st) = st) as Hst by (apply state_decode_encode; subst st; simpl; unfold state_of in *; lia).
  set (c1 := with_inner (set_state (encode_state st)) c).
  assert (inc_num_messages (E:=TrySendError T) c = (Ok (Some (num_messages st)), c1)) as Hinc.
  { rw /inc_num_messages /mbind /M_bind /gets /=. rw /state_of in Ho Hn.
    rw Ho /=. case: Z.ltb_spec; [|lia]. done. }
  rw /do_send_b /mbind /M_bind Hinc /gets /when /sent_ok. simpl.
  destruct (buffer (inner c) <? num_messages (state_of c) + 1).
  - rw /park /self /mbind /M_bind /gets /= Hs /=.
    destruct (aw_wake (recv_task (inner c))) as [w a] eqn:Hw.
    pose proof (aw_wake_spec (recv_task (inner c))) as [Hw1 _]. rw Hw /= in Hw1. subst w.
    destruct p; eexists; (split; [rw /queue_push_and_signal /recv_wake /modify /mbind /M_bind /c1 /= Hw; reflexivity|]);
    split_and!; rw /state_of /= ?Hst //=;
      try (by intros []; rw ?app_nil_r); try (intros w ->; set_solver);
      rw ?lookup_insert_eq ?lookup_alter_eq ?Hs //.
  - destruct (aw_wake (recv_task (inner c))) as [w a] eqn:Hw.
    pose proof (aw_wake_spec (recv_task (inner c))) as [Hw1 _]. rw Hw /= in Hw1. subst w.
    destruct p; eexists; (split; [rw /queue_push_and_signal /recv_wake /modify /mbind /M_bind /c1 /= Hw; reflexivity|]);
    split_and!; rw /state_of /= ?Hst //=;
      try (by intros []; rw ?app_nil_r); try (intros w ->; set_solver).
Qed.

(** [try_send] and [try_quick_send] on every branch: a parked sender gets
    its message back with [Full]; on a closed channel the message comes back
    with [Disconnected]; in both cases the channel is unchanged. Otherwise
    (short of [2^63 - 1] messages, where the assertion fires) the message is
    appended to the queue of its priority, the count grows by one, a
    registered receiver is woken, and the sender is parked exactly when the
    count now exceeds the buffer. *)
Theorem try_send_behaviour (c : Chan T A) (sid : nat) snd tk (msg : T) (p : Priority) :
  is_u64 (state (inner c)) → senders c !! sid = Some snd → tasks c !! sender_task snd = Some tk →
  let '(r, c') := sender_try_send sid msg p c in
  if maybe_parked snd && is_parked tk then
    r = Err (mkTrySendError (mkSendError Full) msg) ∧ inner c' = inner c
  else if negb (is_open (state_of c)) then
    r = Err (mkTrySendError (mkSendError Disconnected) msg) ∧ inner c' = inner c
  else if num_messages (state_of c) <? MAX_CAPACITY then
    r = Ok () ∧ sent_ok c c' sid (sender_task snd) msg p
  else r = Panic.
Proof.
  intros Hu Hs Ht. rw /sender_try_send /mbind /M_bind (poll_unparked_eq _ _ _ snd tk) //.
  assert (∃ c1, (if maybe_parked snd then
      if is_parked tk then (Ok Pending, with_tasks <[sender_task snd := mkSenderTask None (is_parked tk)]> c)
      else (Ok (Ready ()), with_senders (alter (λ x, mkSenderInner (sender_task x) false) sid) c)
    else (Ok (Ready ()), c)) =
    (Ok (if maybe_parked snd && is_parked tk then Pending else Ready ()) : Res (TrySendError T) _, c1) ∧
    inner c1 = inner c ∧ woken c1 = woken c ∧
    (maybe_parked snd && is_parked tk = false →
     tasks c1 = tasks c ∧ senders c1 !! sid = Some (mkSenderInner (sender_task snd) false)))
    as (c1 & -> & Hin & Hwk & H1).
  { destruct (maybe_parked snd) eqn:Hm; [destruct (is_parked tk)|]; eexists; split_and!; try done.
    - intros _. split; [done|]. by rw /= lookup_alter_eq Hs.
    - intros _. split; [done|]. rw Hs. by destruct snd; simpl in *; subst. }
  assert (state_of c1 = state_of c) as Hst by (by rw /state_of Hin).
  destruct (maybe_parked snd && is_parked tk); simpl; [done|].
  destruct (H1 eq_refl) as [Htk Hs1]. destruct (is_open (state_of c)) eqn:Ho; simpl; last first.
  { rw /do_send_b /mbind /M_bind /inc_num_messages /mbind /M_bind /gets /=.
    rw /state_of -Hin in Ho. by rw Ho. }
  case: Z.ltb_spec => Hn.
  - destruct (do_send_b_ok sid msg p c1 (sender_task snd)) as (c' & -> & Hok); try (by rw ?Hst ?Hin).
    split; [done|]. move: Hok. rw /sent_ok Hst Hin Htk.
    assert (∀ p', queue_of p' c1 = queue_of p' c) as Hq by (by intros []; rw /= Hin).
    intros (? & Hqs & ? & ?). split_and!; try done. intros p'. by rw Hqs Hq.
  - rw /do_send_b /mbind /M_bind /inc_num_messages /mbind /M_bind /gets /=.
    rw /state_of -Hin in Ho Hn. rw Ho /=. case: Z.ltb_spec; [lia|done].
Qed.
End system.

(** ** Concrete runs *)

Definition demo_chan (buf : Z) : Chan nat (option Waker) :=
  mkChan (mkInner buf INIT_STATE [] [] [] 1 None)
    {[0%nat := SenderTask_new]} {[0%nat := mkSenderInner 0 false]} true [].

Lemma demo_channel_0 : channel 0 = Some (demo_chan 0).
Proof. done. Qed.
Lemma demo_channel_1 : channel 1 = Some (demo_chan 1).
Proof. done. Qed.

(** One message in a channel without buffer slots: its sender is parked. *)
Definition demo_parked : Sys nat (option Waker) :=
  mkSys (mkChan (mkInner 0 (2 ^ 63 + 1) [7%nat] [] [0%nat] 1 None)
           {[0%nat := mkSenderTask None true]} {[0%nat := mkSenderInner 0 true]} true [])
    [] 0 RxIdle [(Normal, 7%nat)] [] 0.

(** The receiver sleeps, and a sender has pushed but not yet woken it. *)
Definition demo_asleep : Sys nat (option Waker) :=
  mkSys (mkChan (mkInner 1 (2 ^ 63 + 1) [] [7%nat] [] 1 (Some 3%nat))
           {[0%nat := SenderTask_new]} {[0%nat := mkSenderInner 0 false]} true [])
    [mkThread 0 0 7%nat High PcWake] 0 (RxParked 3) [(High, 7%nat)] [] 0.

Ltac run_end := match goal with |- rtc _ ?x ?y => replace x with y by (vm_compute; reflexivity); reflexivity end.

Lemma demo_parked_run : rtc cstep (sys_init (demo_chan 0)) demo_parked.
Proof.
  eapply rtc_l; [apply (cs_inc _ [] _ _ _ _ _ 0%nat (mkSenderInner 0 false) 7%nat Normal 1
    (with_inner (set_state (2 ^ 63 + 1)) (demo_chan 0))); reflexivity|].
  eapply rtc_l; [by apply (cs_park_lock _ [] _ [])|].
  eapply rtc_l; [by apply (cs_park_push _ [] _ [])|].
  eapply rtc_l; [by apply (cs_park_check _ [] _ [])|].
  eapply rtc_l; [by apply (cs_push _ [] _ [])|].
  eapply rtc_l; [by apply (cs_wake _ [] _ [])|].
  run_end.
Qed.

Lemma demo_asleep_run : rtc cstep (sys_init (demo_chan 1)) demo_asleep.
Proof.
  eapply rtc_l; [apply (cs_poll_next _ _ _ _ _ _ _ 3%nat); [done|by left]|].
  do 2 (eapply rtc_l; [by eapply cs_quick_none|]; eapply rtc_l; [by eapply cs_normal_none|];
        eapply rtc_l; [by apply cs_state_pending|]; simpl;
        try (eapply rtc_l; [apply cs_register|])).
  eapply rtc_l; [eapply (cs_inc _ [] _ _ _ _ _ 0%nat (mkSenderInner 0 false) 7%nat High); [reflexivity|vm_compute; reflexivity]|].
  eapply rtc_l; [by apply (cs_push _ [] _ [])|].
  run_end.
Qed.

Lemma channel_accounting_witness :
  rtc cstep (sys_init (demo_chan 0)) demo_parked ∧
  num_messages (state_of (chan demo_parked)) = 1 ∧
  (1 ≤ buffer (inner (chan demo_parked)) + 1).
Proof.
  split; [apply demo_parked_run|].
  destruct (channel_accounting 0 _ _ demo_channel_0 ltac:(lia) demo_parked_run) as (H1 & _ & H2).
  split; [exact H1|exact (H2 eq_refl)].
Defined.

Lemma channel_priority_fifo_witness :
  rtc cstep (sys_init (demo_chan 0)) demo_parked ∧
  of_prio Normal (sent demo_parked) = of_prio Normal (received demo_parked) ++ queue_of Normal (chan demo_parked) ∧
  ∃ c', next_message (E:=unit) (chan demo_parked) = (Ok (Ready (Some (Normal, 7%nat))), c') ∧
        queue_of High c' = [] ∧ queue_of Normal c' = [].
Proof.
  split; [apply demo_parked_run|].
  destruct (channel_priority_fifo 0 _ _ demo_channel_0 ltac:(lia) demo_parked_run) as (H1 & H2).
  split; [exact (H1 Normal)|exact (H2 eq_refl)].
Defined.

Lemma no_lost_receiver_wakeup_witness :
  rx demo_asleep = RxParked 3 ∧
  (3%nat ∈ drop (slept demo_asleep) (woken (chan demo_asleep)) ∨
   (aw_registered (recv_task (inner (chan demo_asleep))) = Some 3%nat ∧
    (queued (chan demo_asleep) ≠ 0%nat → ∃ th, th ∈ sends demo_asleep ∧ th_pc th = PcWake) ∧
    (State_is_closed (state_of (chan demo_asleep)) = true → (0 < closers demo_asleep)%nat))).
Proof.
  split; [done|].
  exact (no_lost_receiver_wakeup 1 _ _ 3%nat demo_channel_1 ltac:(lia) demo_asleep_run eq_refl).
Defined.

Lemma draining_unparks_senders_witness :
  tasks (chan demo_parked) !! 0%nat = Some (mkSenderTask None true) ∧
  ∃ c', drain (queued (chan demo_parked)) (chan demo_parked) = (Ok (), c') ∧ queued c' = 0%nat ∧
    receiver c' = true ∧ ∀ t tk, tasks c' !! t = Some tk → is_parked tk = false.
Proof.
  split; [done|].
  exact (draining_unparks_senders 0 _ _ demo_channel_0 ltac:(lia) demo_parked_run eq_refl
           (or_introl eq_refl) eq_refl).
Defined.

Lemma receiver_drop_ends_witness :
  ∃ c', receiver_drop (E:=unit) (S (queued (chan demo_parked))) (chan demo_parked) = (Ok (Some ()), c') ∧
    receiver c' = false ∧ queued c' = 0%nat ∧
    ∀ t tk, tasks c' !! t = Some tk → is_parked tk = false.
Proof.
  exact (receiver_drop_ends 0 _ _ demo_channel_0 ltac:(lia) demo_parked_run eq_refl
           (or_introl eq_refl) eq_refl).
Defined.

Lemma try_send_behaviour_witness :
  let '(r, c') := sender_try_send 0 9%nat High (demo_chan 1) in
  r = Ok () ∧ sent_ok (demo_chan 1) c' 0 0 9%nat High.
Proof.
  assert (is_u64 (state (inner (demo_chan 1)))) as Hu by (split; done).
  exact (try_send_behaviour (demo_chan 1) 0 (mkSenderInner 0 false) SenderTask_new 9%nat High Hu
           eq_refl eq_refl).
Defined.

(** The documented capacity, [buffer] plus the number of senders, is not a
    bound: a clone that sends one message and is dropped leaves its message
    behind, so one sender and no buffer slots can hold any number. *)
Definition clone_send_drop (msg : nat) : M (Chan nat (option Waker)) (TrySendError nat) unit :=
  o ← clone 0;
  match o with
  | Some sid => try_send sid msg;; disconnect sid
  | None => mret ()
  end.

Example capacity_not_buffer_plus_senders :
  let '(r, c) := (clone_send_drop 1;; clone_send_drop 2;; clone_send_drop 3) (demo_chan 0) in
  r = Ok () ∧ num_messages (state_of c) = 3 ∧ buffer (inner c) + num_senders (inner c) = 1.
Proof. vm_compute. done. Qed.
