(* ===== verification/ChannelUnbound.v ===== *)
(** * The unbounded priority channel

    [tentacle/src/channel/unbound.rs]: the same state word and queues as the
    bounded channel, without parking. The channel is one record [UChan] (the
    shared [UnboundedInner], the live sender handles, the receiver handle);
    the theorem shows that the methods, run one after the other, implement an
    abstract two-level priority queue [PQ] with open/closed state, wake-ups
    included. *)
From S2P Require Import Prelude Channel ChannelBound.

Record UnboundedInner (T A : Type) := mkUInner {
  u_state : Z;
  u_message_queue : list T;
  u_quick_message_queue : list T;
  u_num_senders : Z;
  u_recv_task : A;
}.
Arguments mkUInner {T A}.
Arguments u_state {T A}.
Arguments u_message_queue {T A}.
Arguments u_quick_message_queue {T A}.
Arguments u_num_senders {T A}.
Arguments u_recv_task {T A}.

(** [u_senders]: the [UnboundedSender]s whose [Option] is [Some];
    [u_receiver]: whether the receiver's [inner] is [Some]. *)
Record UChan (T A : Type) := mkUChan {
  u_inner : UnboundedInner T A;
  u_senders : gset nat;
  u_receiver : bool;
  u_woken : list Waker;
}.
Arguments mkUChan {T A}.
Arguments u_inner {T A}.
Arguments u_senders {T A}.
Arguments u_receiver {T A}.
Arguments u_woken {T A}.

Section unbound.
Context {T A : Type} `{!AtomicWaker A}.
Implicit Types (c : UChan T A) (i : UnboundedInner T A).

Definition u_with_inner (f : UnboundedInner T A → UnboundedInner T A) c : UChan T A :=
  mkUChan (f (u_inner c)) (u_senders c) (u_receiver c) (u_woken c).
Definition u_with_senders (f : gset nat → gset nat) c : UChan T A :=
  mkUChan (u_inner c) (f (u_senders c)) (u_receiver c) (u_woken c).
Definition u_with_receiver (b : bool) c : UChan T A :=
  mkUChan (u_inner c) (u_senders c) b (u_woken c).
Definition u_with_woken (ws : list Waker) c : UChan T A :=
  mkUChan (u_inner c) (u_senders c) (u_receiver c) (u_woken c ++ ws).
Definition u_set_state (w : Z) i : UnboundedInner T A :=
  mkUInner w (u_message_queue i) (u_quick_message_queue i) (u_num_senders i) (u_recv_task i).
Definition u_set_message_queue (q : list T) i : UnboundedInner T A :=
  mkUInner (u_state i) q (u_quick_message_queue i) (u_num_senders i) (u_recv_task i).
Definition u_set_quick_message_queue (q : list T) i : UnboundedInner T A :=
  mkUInner (u_state i) (u_message_queue i) q (u_num_senders i) (u_recv_task i).
Definition u_set_num_senders (n : Z) i : UnboundedInner T A :=
  mkUInner (u_state i) (u_message_queue i) (u_quick_message_queue i) n (u_recv_task i).
Definition u_set_recv_task (a : A) i : UnboundedInner T A :=
  mkUInner (u_state i) (u_message_queue i) (u_quick_message_queue i) (u_num_senders i) a.

Definition u_state_of c : State := decode_state (u_state (u_inner c)).

(** [unbounded]: the first sender has identity 0. *)
Definition unbounded : UChan T A :=
  mkUChan (mkUInner INIT_STATE [] [] 1 aw_new) {[0%nat]} true [].

Section methods.
Context {E : Type}.

Definition u_set_closed : M (UChan T A) E unit :=
  curr ← gets (λ c, u_state (u_inner c));
  if negb (is_open (decode_state curr)) then mret ()
  else modify (u_with_inner (λ i, u_set_state (state_clear_open (u_state i)) i)).

Definition u_recv_wake : M (UChan T A) E unit :=
  modify (λ c, let '(w, a) := aw_wake (u_recv_task (u_inner c)) in
               u_with_woken (option_list w) (u_with_inner (u_set_recv_task a) c)).

Definition poll_ready_nb : M (UChan T A) E (Poll (Res SendError unit)) :=
  st ← gets u_state_of;
  if is_open st then mret (Ready (Ok ()))
  else mret (Ready (Err (mkSendError Disconnected))).

Definition u_queue_push_and_signal (msg : T) (priority : Priority) : M (UChan T A) E unit :=
  modify (u_with_inner (λ i,
    match priority with
    | High => u_set_quick_message_queue (u_quick_message_queue i ++ [msg]) i
    | Normal => u_set_message_queue (u_message_queue i ++ [msg]) i
    end));;
  u_recv_wake.

Definition u_inc_num_messages : M (UChan T A) E (option Z) :=
  curr ← gets (λ c, u_state (u_inner c));
  let st := decode_state curr in
  if negb (is_open st) then mret None
  else if negb (num_messages st <? MAX_CAPACITY) then panic
  else
    let st := mkState (is_open st) (num_messages st + 1) in
    modify (u_with_inner (u_set_state (encode_state st)));;
    mret (Some (num_messages st)).

Definition u_sender_is_closed : M (UChan T A) E bool :=
  st ← gets u_state_of; mret (negb (is_open st)).

Definition u_sender_close_channel : M (UChan T A) E unit :=
  u_set_closed;; u_recv_wake.

(** [Clone for UnboundedSenderInner]; the new handle gets a fresh identity. *)
Definition u_sender_clone : M (UChan T A) E nat :=
  curr ← gets (λ c, u_num_senders (u_inner c));
  if curr =? MAX_BUFFER then panic
  else
    new ← gets (λ c, fresh (u_senders c));
    modify (u_with_inner (u_set_num_senders (curr + 1)));;
    modify (u_with_senders (λ s, {[new]} ∪ s));;
    mret new.

(** [Drop for UnboundedSenderInner]. *)
Definition u_sender_drop : M (UChan T A) E unit :=
  prev ← gets (λ c, u_num_senders (u_inner c));
  modify (u_with_inner (u_set_num_senders (wrap 64 (prev - 1))));;
  when (prev =? 1) u_sender_close_channel.

(** ** [UnboundedSender] *)

(** [self.0]. *)
Definition u_handle (sid : nat) : M (UChan T A) E bool :=
  gets (λ c, bool_decide (sid ∈ u_senders c)).

Definition u_poll_ready (sid : nat) : M (UChan T A) E (Poll (Res SendError unit)) :=
  h ← u_handle sid;
  if (h : bool) then poll_ready_nb else mret (Ready (Err (mkSendError Disconnected))).

Definition u_is_closed (sid : nat) : M (UChan T A) E bool :=
  h ← u_handle sid;
  if (h : bool) then u_sender_is_closed else mret true.

Definition u_close_channel (sid : nat) : M (UChan T A) E unit :=
  h ← u_handle sid;
  when h u_sender_close_channel.

(** [disconnect] and dropping an [UnboundedSender]. *)
Definition u_disconnect (sid : nat) : M (UChan T A) E unit :=
  h ← u_handle sid;
  when h (modify (u_with_senders (λ s, s ∖ {[sid]}));; u_sender_drop).

Definition len (sid : nat) : M (UChan T A) E (option Z) :=
  h ← u_handle sid;
  if (h : bool) then
    st ← gets u_state_of;
    if is_open st then mret (Some (num_messages st)) else mret None
  else mret None.

Definition u_clone (sid : nat) : M (UChan T A) E (option nat) :=
  h ← u_handle sid;
  if (h : bool) then new ← u_sender_clone; mret (Some new) else mret None.
End methods.

Definition do_send_nb (sid : nat) (msg : T) (priority : Priority) :
    M (UChan T A) (TrySendError T) unit :=
  h ← u_handle sid;
  if (h : bool) then
    o ← u_inc_num_messages;
    match o with
    | Some _ => u_queue_push_and_signal msg priority
    | None => throw (mkTrySendError (mkSendError Disconnected) msg)
    end
  else throw (mkTrySendError (mkSendError Disconnected) msg).

Definition u_start_send (sid : nat) (msg : T) : M (UChan T A) SendError unit :=
  map_err err (do_send_nb sid msg Normal).

Definition u_start_quick_send (sid : nat) (msg : T) : M (UChan T A) SendError unit :=
  map_err err (do_send_nb sid msg High).

Definition unbounded_send (sid : nat) (msg : T) : M (UChan T A) (TrySendError T) unit :=
  do_send_nb sid msg Normal.

Definition unbounded_quick_send (sid : nat) (msg : T) : M (UChan T A) (TrySendError T) unit :=
  do_send_nb sid msg High.

(** One poll of the futures of [async_send] and [async_quick_send]. *)
Definition u_async_send_poll {E} (sid : nat) (msg : option T) :
    M (UChan T A) E (option T * Poll (Res SendError unit)) :=
  match msg with
  | None => panic
  | Some item =>
      p ← u_poll_ready sid;
      match p with
      | Ready (Ok _) => r ← try_catch (u_start_send sid item); mret (None, Ready r)
      | Ready r => mret (None, Ready r)
      | Pending => mret (Some item, Pending)
      end
  end.

Definition u_async_quick_send_poll {E} (sid : nat) (msg : option T) :
    M (UChan T A) E (option T * Poll (Res SendError unit)) :=
  match msg with
  | None => panic
  | Some item =>
      p ← u_poll_ready sid;
      match p with
      | Ready (Ok _) => r ← try_catch (u_start_quick_send sid item); mret (None, Ready r)
      | Ready r => mret (None, Ready r)
      | Pending => mret (Some item, Pending)
      end
  end.

(** ** [UnboundedReceiver] *)

Section receiver.
Context {E : Type}.

Definition u_close : M (UChan T A) E unit :=
  rx ← gets u_receiver;
  when rx u_set_closed.

(** [pop_spin] on the two queues. *)
Definition u_pop_quick : M (UChan T A) E (option T) :=
  q ← gets (λ c, u_quick_message_queue (u_inner c));
  match q with
  | [] => mret None
  | t :: q => modify (u_with_inner (u_set_quick_message_queue q));; mret (Some t)
  end.
Definition u_pop_normal : M (UChan T A) E (option T) :=
  q ← gets (λ c, u_message_queue (u_inner c));
  match q with
  | [] => mret None
  | t :: q => modify (u_with_inner (u_set_message_queue q));; mret (Some t)
  end.

Definition u_dec_num_messages : M (UChan T A) E unit :=
  rx ← gets u_receiver;
  when rx (modify (u_with_inner (λ i, u_set_state (state_fetch_sub_1 (u_state i)) i))).

Definition u_next_message : M (UChan T A) E (Poll (option (Priority * T))) :=
  rx ← gets u_receiver;
  if negb rx then panic
  else
    q ← u_pop_quick;
    match q with
    | Some msg => u_dec_num_messages;; mret (Ready (Some (High, msg)))
    | None =>
        m ← u_pop_normal;
        match m with
        | Some msg => u_dec_num_messages;; mret (Ready (Some (Normal, msg)))
        | None =>
            st ← gets u_state_of;
            if State_is_closed st then
              modify (u_with_receiver false);; mret (Ready None)
            else mret Pending
        end
    end.

Definition u_is_terminated : M (UChan T A) E bool := rx ← gets u_receiver; mret (negb rx).

Definition u_poll_next (cx : Waker) : M (UChan T A) E (Poll (option (Priority * T))) :=
  p ← u_next_message;
  match p with
  | Ready None => modify (u_with_receiver false);; mret (Ready None)
  | Ready msg => mret (Ready msg)
  | Pending =>
      modify (u_with_inner (λ i, u_set_recv_task (aw_register cx (u_recv_task i)) i));;
      u_next_message
  end.

(** The loop of [Drop for UnboundedReceiver], giving up ([None]) after [fuel]
    rounds. *)
Fixpoint u_drop_loop (fuel : nat) : M (UChan T A) E (option unit) :=
  match fuel with
  | O => mret None
  | S fuel =>
      p ← u_next_message;
      match p with
      | Ready (Some _) => u_drop_loop fuel
      | Ready None => mret (Some ())
      | Pending =>
          st ← gets u_state_of;
          if State_is_closed st then mret (Some ()) else u_drop_loop fuel
      end
  end.

Definition u_receiver_drop (fuel : nat) : M (UChan T A) E (option unit) :=
  u_close;;
  rx ← gets u_receiver;
  if (rx : bool) then u_drop_loop fuel else mret (Some ()).
End receiver.

Definition u_try_next : M (UChan T A) TryRecvError (option (Priority * T)) :=
  p ← u_next_message;
  match p with
  | Ready msg => mret msg
  | Pending => throw mkTryRecvError
  end.
End unbound.

(** ** The abstract priority queue *)

Record PQ (T : Type) := mkPQ {
  hi : list T; lo : list T; opened : bool; handles : gset nat; alive : bool;
  sleeping : option Waker; pq_woken : list Waker }.
Arguments mkPQ {T}.
Arguments hi {T}.
Arguments lo {T}.
Arguments opened {T}.
Arguments handles {T}.
Arguments alive {T}.
Arguments sleeping {T}.
Arguments pq_woken {T}.

(** The operations of the three handles, and what they answer. *)
Inductive UOp (T : Type) :=
| USend (sid : nat) (msg : T) (p : Priority)
| UPollReady (sid : nat)
| UIsClosed (sid : nat)
| ULen (sid : nat)
| UClone (sid : nat)
| UDisconnect (sid : nat)
| UCloseChannel (sid : nat)
| UClose
| UTryNext
| UPollNext (cx : Waker).
Arguments USend {T}.
Arguments UPollReady {T}.
Arguments UIsClosed {T}.
Arguments ULen {T}.
Arguments UClone {T}.
Arguments UDisconnect {T}.
Arguments UCloseChannel {T}.
Arguments UClose {T}.
Arguments UTryNext {T}.
Arguments UPollNext {T}.

Inductive UOut (T : Type) :=
| OSend (r : Res (TrySendError T) unit)
| OReady (p : Poll (Res SendError unit))
| OBool (b : bool)
| OLen (o : option Z)
| OClone (o : option nat)
| OUnit
| ORecv (r : Res TryRecvError (option (Priority * T)))
| ONext (p : Poll (option (Priority * T)))
| OPanic.
Arguments OSend {T}.
Arguments OReady {T}.
Arguments OBool {T}.
Arguments OLen {T}.
Arguments OClone {T}.
Arguments OUnit {T}.
Arguments ORecv {T}.
Arguments ONext {T}.
Arguments OPanic {T}.

Section refinement.
Context {T A : Type} `{!AtomicWaker A, !AtomicWakerLaws A}.
Implicit Types (a : PQ T) (c : UChan T A).

Definition pq_len a : nat := length (hi a) + length (lo a).
Definition pq_init : PQ T := mkPQ [] [] true {[0%nat]} true None [].

(** A sleeping receiver is woken. *)
Definition pq_wake a : PQ T :=
  mkPQ (hi a) (lo a) (opened a) (handles a) (alive a) None (pq_woken a ++ option_list (sleeping a)).

Definition pq_shut a : PQ T :=
  mkPQ (hi a) (lo a) false (handles a) (alive a) (sleeping a) (pq_woken a).

Definition pq_push (msg : T) (p : Priority) a : PQ T :=
  match p with
  | High => mkPQ (hi a ++ [msg]) (lo a) (opened a) (handles a) (alive a) (sleeping a) (pq_woken a)
  | Normal => mkPQ (hi a) (lo a ++ [msg]) (opened a) (handles a) (alive a) (sleeping a) (pq_woken a)
  end.

(** The next message: a high one if there is any; the end of the stream when
    closed and empty. *)
Definition pq_next a : Poll (option (Priority * T)) * PQ T :=
  match hi a, lo a with
  | m :: q, _ => (Ready (Some (High, m)),
                  mkPQ q (lo a) (opened a) (handles a) (alive a) (sleeping a) (pq_woken a))
  | [], m :: q => (Ready (Some (Normal, m)),
                   mkPQ [] q (opened a) (handles a) (alive a) (sleeping a) (pq_woken a))
  | [], [] =>
      if opened a then (Pending, a)
      else (Ready None, mkPQ [] [] false (handles a) false (sleeping a) (pq_woken a))
  end.

Definition pq_op (o : UOp T) a : UOut T * PQ T :=
  match o with
  | USend sid msg p =>
      if bool_decide (sid ∈ handles a) && opened a then (OSend (Ok ()), pq_wake (pq_push msg p a))
      else (OSend (Err (mkTrySendError (mkSendError Disconnected) msg)), a)
  | UPollReady sid =>
      (OReady (Ready (if bool_decide (sid ∈ handles a) && opened a then Ok ()
                      else Err (mkSendError Disconnected))), a)
  | UIsClosed sid => (OBool (negb (bool_decide (sid ∈ handles a) && opened a)), a)
  | ULen sid =>
      (OLen (if bool_decide (sid ∈ handles a) && opened a then Some (Z.of_nat (pq_len a)) else None), a)
  | UClone sid =>
      if bool_decide (sid ∈ handles a) then
        let new := fresh (handles a) in
        (OClone (Some new), mkPQ (hi a) (lo a) (opened a) ({[new]} ∪ handles a) (alive a)
                              (sleeping a) (pq_woken a))
      else (OClone None, a)
  | UDisconnect sid =>
      if bool_decide (sid ∈ handles a) then
        let rest := handles a ∖ {[sid]} in
        let a' := mkPQ (hi a) (lo a) (opened a) rest (alive a) (sleeping a) (pq_woken a) in
        (OUnit, if bool_decide (rest = ∅) then pq_wake (pq_shut a') else a')
      else (OUnit, a)
  | UCloseChannel sid =>
      (OUnit, if bool_decide (sid ∈ handles a) then pq_wake (pq_shut a) else a)
  | UClose => (OUnit, if alive a then pq_shut a else a)
  | UTryNext =>
      if alive a then
        let '(p, a') := pq_next a in
        (ORecv (match p with Ready m => Ok m | Pending => Err mkTryRecvError end), a')
      else (OPanic, a)
  | UPollNext cx =>
      if alive a then
        let '(p, a') := pq_next a in
        (ONext p, match p with
                  | Pending => mkPQ (hi a) (lo a) (opened a) (handles a) (alive a) (Some cx) (pq_woken a)
                  | _ => a'
                  end)
      else (OPanic, a)
  end.

Definition out {B} (f : B → UOut T) (m : M (UChan T A) Empty_set B) c : UOut T * UChan T A :=
  match m c with (Ok b, c') => (f b, c') | (_, c') => (OPanic, c') end.

Definition run_uop (o : UOp T) c : UOut T * UChan T A :=
  match o with
  | USend sid msg High =>
      match unbounded_quick_send sid msg c with (Panic, c') => (OPanic, c') | (r, c') => (OSend r, c') end
  | USend sid msg Normal =>
      match unbounded_send sid msg c with (Panic, c') => (OPanic, c') | (r, c') => (OSend r, c') end
  | UPollReady sid => out OReady (u_poll_ready sid) c
  | UIsClosed sid => out OBool (u_is_closed sid) c
  | ULen sid => out OLen (len sid) c
  | UClone sid => out OClone (u_clone sid) c
  | UDisconnect sid => out (λ _, OUnit) (u_disconnect sid) c
  | UCloseChannel sid => out (λ _, OUnit) (u_close_channel sid) c
  | UClose => out (λ _, OUnit) u_close c
  | UTryNext => match u_try_next c with (Panic, c') => (OPanic, c') | (r, c') => (ORecv r, c') end
  | UPollNext cx => out ONext (u_poll_next cx) c
  end.

Fixpoint run_all {S} (f : UOp T → S → UOut T * S) (os : list (UOp T)) (s : S) : list (UOut T) * S :=
  match os with
  | [] => ([], s)
  | o :: os => let '(r, s) := f o s in let '(rs, s) := run_all f os s in (r :: rs, s)
  end.

(** The concrete channel that holds the abstract queue [a]. *)
Definition conc (a : PQ T) (rt : A) : UChan T A :=
  mkUChan (mkUInner (encode_state (mkState (opened a) (pq_len a))) (lo a) (hi a)
             (size (handles a)) rt) (handles a) (alive a) (pq_woken a).

Definition refines c a : Prop := ∃ rt, c = conc a rt ∧ aw_registered rt = sleeping a.

(** Far from the limits of the counters. *)
Definition small a (n : nat) : Prop :=
  pq_len a + n < MAX_BUFFER ∧ size (handles a) + n < MAX_BUFFER.

#[local] Opaque decode_state encode_state.

Lemma u_recv_wake_refines {E} a rt :
  aw_registered rt = sleeping a →
  ∃ rt', u_recv_wake (E:=E) (conc a rt) = (Ok (), conc (pq_wake a) rt') ∧ aw_registered rt' = None.
Proof.
  intros Hrt. rw /u_recv_wake /modify /=. pose proof (aw_wake_spec rt) as [H1 H2].
  destruct (aw_wake rt) as [w rt']; simpl in *. exists rt'. split; [|done]. by subst; rw Hrt.
Qed.

Lemma u_set_closed_refines {E} a rt :
  pq_len a < 2 ^ 63 → u_set_closed (E:=E) (conc a rt) = (Ok (), conc (pq_shut a) rt).
Proof.
  intros Hn. rw /u_set_closed /mbind /M_bind /gets /=. rw state_decode_encode; [|simpl; lia]. simpl.
  destruct (opened a) eqn:Ho; simpl.
  - rw /modify /u_with_inner /u_set_state /=. rw clear_open_encode; [done|simpl; lia].
  - rw /conc /= Ho. done.
Qed.

Lemma u_next_refines {E} a rt :
  pq_len a < 2 ^ 63 → alive a = true →
  u_next_message (E:=E) (conc a rt) = (Ok (pq_next a).1, conc (pq_next a).2 rt).
Proof.
  intros Hn Ha. destruct a as [h l o hs al sl wk]; simpl in *. subst al.
  rw /u_next_message /mbind /M_bind /gets /= /u_pop_quick /u_pop_normal /mbind /M_bind /gets /=.
  rw /pq_len /pq_next /= in Hn *. destruct h as [|m h].
  - destruct l as [|m l]; simpl in *.
    + rw /u_state_of /= state_decode_encode; [|rw /pq_len /=; lia]. by destruct o.
    + rw /u_dec_num_messages /mbind /M_bind /gets /= /u_with_inner /u_set_state /=.
      rw fetch_sub_encode; [|rw /pq_len /=; lia]. rw /conc /pq_len /=. repeat f_equal. lia.
  - simpl. rw /u_dec_num_messages /mbind /M_bind /gets /= /u_with_inner /u_set_state /=.
    rw fetch_sub_encode; [|rw /pq_len /=; simpl in *; lia]. rw /conc /pq_len /=. repeat f_equal. lia.
Qed.

Lemma u_state_of_conc a rt :
  pq_len a < 2 ^ 63 → u_state_of (conc a rt) = mkState (opened a) (pq_len a).
Proof. intros Hn. rw /u_state_of /= state_decode_encode //=. lia. Qed.

(** A successful send: count, push and signal. *)
Lemma do_send_refines sid msg p a rt :
  pq_len a < MAX_BUFFER → aw_registered rt = sleeping a →
  ∃ rt', do_send_nb sid msg p (conc a rt) =
    (if bool_decide (sid ∈ handles a) && opened a then
       (Ok (), conc (pq_wake (pq_push msg p a)) rt')
     else (Err (mkTrySendError (mkSendError Disconnected) msg), conc a rt')) ∧
    aw_registered rt' = (if bool_decide (sid ∈ handles a) && opened a then None else sleeping a).
Proof.
  assert (MAX_BUFFER = 2 ^ 62 - 1) as HM by done. intros Hn Hrt.
  rw /do_send_nb /u_handle /mbind /M_bind /gets /=.
  destruct (bool_decide (sid ∈ handles a)); simpl; [|by exists rt].
  rw /u_inc_num_messages /mbind /M_bind /gets /=. rw state_decode_encode; [|simpl; lia]. simpl.
  destruct (opened a) eqn:Ho; simpl; [|by exists rt].
  case: Z.ltb_spec => Hlt; simpl; [|by rw (_ : MAX_CAPACITY = 2 ^ 63 - 1) // in Hlt; lia].
  destruct (u_recv_wake_refines (E:=TrySendError T) (pq_push msg p a) rt) as (rt' & Hw & Hr'); [by destruct p|].
  exists rt'. split; [|done]. rw -Hw. rw /u_queue_push_and_signal /mbind /M_bind /=. f_equal.
  assert (Z.of_nat (pq_len (pq_push msg p a)) = pq_len a + 1) as Hlen
    by (destruct p; rw /pq_len /= length_app /=; lia).
  rw /conc Hlen. destruct p; by rw /u_with_inner /u_set_state /= Ho.
Qed.

Lemma disconnect_refines {E} sid a rt :
  size (handles a) < MAX_BUFFER → pq_len a < 2 ^ 63 → aw_registered rt = sleeping a →
  ∃ rt', u_disconnect (E:=E) sid (conc a rt) = (Ok (), conc (pq_op (UDisconnect sid) a).2 rt') ∧
    aw_registered rt' = sleeping (pq_op (UDisconnect sid) a).2.
Proof.
  assert (MAX_BUFFER = 2 ^ 62 - 1) as HM by done. intros Hsz Hn Hrt.
  rw /u_disconnect /u_handle /mbind /M_bind /gets /=.
  case: bool_decide_reflect => Hin; simpl; [|by exists rt].
  set (rest := handles a ∖ {[sid]}).
  assert (size (handles a) = S (size rest)) as Hs.
  { pose proof (size_difference (handles a) {[sid]} ltac:(set_solver)) as Hd.
    rw size_singleton -/rest in Hd.
    assert (size (handles a) ≠ 0%nat) by (apply size_non_empty_iff; set_solver). lia. }
  set (a1 := mkPQ (hi a) (lo a) (opened a) rest (alive a) (sleeping a) (pq_woken a)).
  rw /u_sender_drop /mbind /M_bind /gets /= Hs. rewrite -> wrap_small by lia.
  assert (u_with_inner (u_set_num_senders (Z.of_nat (S (size rest)) - 1))
    (u_with_senders (λ s, s ∖ {[sid]}) (conc a rt)) = conc a1 rt) as Hc.
  { rw /conc /u_with_inner /u_set_num_senders /=. do 2 f_equal. lia. }
  rw Hc. assert ((Z.of_nat (S (size rest)) =? 1) = bool_decide (rest = ∅)) as ->.
  { case: Z.eqb_spec => Hz; case: bool_decide_reflect => Hr; try done; exfalso.
    - apply Hr, leibniz_equiv, size_empty_iff. lia.
    - apply Hz. rw Hr size_empty. done. }
  destruct (bool_decide (rest = ∅)); simpl; [|by exists rt].
  rw /u_sender_close_channel /mbind /M_bind u_set_closed_refines //.
  destruct (u_recv_wake_refines (E:=E) (pq_shut a1) rt Hrt) as (rt' & -> & Hrt'). by exists rt'.
Qed.

Lemma op_refines o a c :
  small a 1 → refines c a →
  (run_uop o c).1 = (pq_op o a).1 ∧ refines (run_uop o c).2 (pq_op o a).2.
Proof.
  assert (MAX_BUFFER = 2 ^ 62 - 1) as HM by done.
  intros [Hn Hh] (rt & -> & Hrt). assert (pq_len a < 2 ^ 63) as Hn' by lia.
  destruct o as [sid msg p|sid|sid|sid|sid|sid|sid| | |cx]; simpl.
  - destruct (do_send_refines sid msg p a rt) as (rt' & Hs & Hr'); [lia|done|].
    rw /unbounded_send /unbounded_quick_send. destruct p; rw Hs;
      destruct (bool_decide (sid ∈ handles a) && opened a); simpl; split; try done; by exists rt'.
  - rw /out /u_poll_ready /u_handle /mbind /M_bind /gets /=.
    destruct (bool_decide _); [|split; [done|by exists rt]].
    rw /poll_ready_nb /mbind /M_bind /gets u_state_of_conc //=.
    destruct (opened a); (split; [done|by exists rt]).
  - rw /out /u_is_closed /u_handle /mbind /M_bind /gets /=.
    destruct (bool_decide _); [|split; [done|by exists rt]].
    rw /u_sender_is_closed /mbind /M_bind /gets u_state_of_conc //=. split; [done|by exists rt].
  - rw /out /len /u_handle /mbind /M_bind /gets /=.
    destruct (bool_decide _); [|split; [done|by exists rt]].
    rw u_state_of_conc //=. destruct (opened a); (split; [done|by exists rt]).
  - rw /out /u_clone /u_handle /mbind /M_bind /gets /=.
    destruct (bool_decide _); simpl; [|split; try done; by exists rt].
    rw /u_sender_clone /mbind /M_bind /gets /=. case: Z.eqb_spec => Hz; [lia|]. simpl.
    split; [done|]. exists rt. split; [|done]. rw /conc /u_with_inner /u_with_senders /u_set_num_senders /=.
    do 2 f_equal. rewrite -> size_union, size_singleton; [lia|]. apply disjoint_singleton_l, is_fresh.
  - destruct (disconnect_refines (E:=Empty_set) sid a rt) as (rt' & Hs & Hr'); [lia|done..|].
    rw /out Hs. simpl in Hr'. simpl. split; [by destruct (bool_decide _)|].
    exists rt'. by destruct (bool_decide (sid ∈ handles a)).
  - rw /out /u_close_channel /u_handle /mbind /M_bind /gets /=.
    destruct (bool_decide _); simpl; [|split; try done; by exists rt].
    rw /u_sender_close_channel /mbind /M_bind u_set_closed_refines //.
    destruct (u_recv_wake_refines (E:=Empty_set) (pq_shut a) rt Hrt) as (rt' & -> & Hrt').
    split; [done|by exists rt'].
  - rw /out /u_close /mbind /M_bind /gets /=. destruct (alive a); simpl; [|split; try done; by exists rt].
    rw u_set_closed_refines //. split; [done|by exists rt].
  - rw /u_try_next /mbind /M_bind. destruct (alive a) eqn:Ha; last first.
    { rw /u_next_message /mbind /M_bind /gets /= Ha /=. split; [done|by exists rt]. }
    rw u_next_refines //. rw /pq_next. destruct (hi a), (lo a); simpl; try (split; [done|by exists rt]).
    destruct (opened a); split; try done; by exists rt.
  - rw /out /u_poll_next /mbind /M_bind. destruct (alive a) eqn:Ha; last first.
    { rw /u_next_message /mbind /M_bind /gets /= Ha /=. split; [done|by exists rt]. }
    rw u_next_refines //. destruct (hi a) eqn:Hhi, (lo a) eqn:Hlo;
      rw /pq_next Hhi Hlo; simpl; try (split; [done|by exists rt]).
    destruct (opened a) eqn:Ho; simpl; [|split; [done|by exists rt]].
    set (a1 := mkPQ (hi a) (lo a) (opened a) (handles a) (alive a) (Some cx) (pq_woken a)).
    change (u_with_inner _ (conc a rt)) with (conc a1 (aw_register cx rt)).
    rw u_next_refines //. rw /pq_next /a1 /= Hhi Hlo Ho. split; [done|].
    exists (aw_register cx rt). split; [by rw /= Ha|]. apply aw_registered_register.
Qed.

Lemma small_op o a n : small a (S n) → small (pq_op o a).2 n.
Proof.
  rw /small. intros [H1 H2].
  assert (∀ p msg, pq_len (pq_push msg p a) = S (pq_len a)) as Hpush
    by (intros [] ?; rw /pq_len /= length_app /=; lia).
  assert (∀ sid, size (handles a ∖ {[sid]}) ≤ size (handles a))%nat as Hdel
    by (intros; apply subseteq_size; set_solver).
  assert (pq_len (pq_next a).2 ≤ pq_len a ∧ handles (pq_next a).2 = handles a)%nat as [Hn Hh].
  { rw /pq_next /pq_len. destruct (hi a) eqn:E1, (lo a) eqn:E2; simpl; try (split; [lia|done]).
    destruct (opened a); simpl; rw ?E1 ?E2 /=; split; try done; lia. }
  destruct o as [sid msg p|sid|sid|sid|sid|sid|sid| | |cx]; simpl.
  - destruct (_ && _); simpl; [|lia]. specialize (Hpush p msg).
    split; [unfold pq_len in *; simpl; lia|by destruct p; simpl; lia].
  - lia.
  - lia.
  - lia.
  - destruct (bool_decide _); simpl; [|lia]. split; [unfold pq_len in *; simpl; lia|].
    rewrite -> size_union, size_singleton; [lia|]. apply disjoint_singleton_l, is_fresh.
  - destruct (bool_decide (sid ∈ _)); simpl; [|lia]. specialize (Hdel sid).
    destruct (bool_decide _); simpl; unfold pq_len in *; simpl; lia.
  - destruct (bool_decide _); simpl; unfold pq_len in *; simpl; lia.
  - destruct (alive a); simpl; unfold pq_len in *; simpl; lia.
  - destruct (alive a); [|simpl; lia]. destruct (pq_next a) as [r a']; simpl in *. rw Hh. lia.
  - destruct (alive a); [|simpl; lia]. destruct (pq_next a) as [[m|] a']; simpl in *; [rw Hh|]; unfold pq_len in *; simpl; lia.
Qed.

Lemma run_all_refines os a c :
  small a (length os) → refines c a →
  (run_all run_uop os c).1 = (run_all pq_op os a).1 ∧
  refines (run_all run_uop os c).2 (run_all pq_op os a).2.
Proof.
  revert a c. induction os as [|o os IH]; intros a c Hs Hr; [done|]. simpl in Hs.
  destruct (op_refines o a c) as [Hout Hr']; [by destruct Hs; split; lia|done|].
  pose proof (small_op o _ _ Hs) as Hs'. simpl.
  destruct (run_uop o c) as [r c1], (pq_op o a) as [r' a1]; simpl in *. subst r'.
  destruct (IH a1 c1 Hs' Hr') as [Ho2 Hr2].
  destruct (run_all run_uop os c1), (run_all pq_op os a1); simpl in *. by subst.
Qed.

Lemma unbounded_refines : refines unbounded pq_init.
Proof.
  exists aw_new. split; [|apply aw_registered_new]. rw /unbounded /conc.
  rewrite <- (state_encode_decode INIT_STATE) by (split; done). by rw decode_INIT_STATE.
Qed.

(** C33. The unbounded channel implements the abstract priority queue: any
    sequence of less than [2^62 - 2] calls on its handles gives exactly the
    answers of the abstract queue, wake-ups of the receiver included, and
    leaves a channel that represents the abstract state. *)
Theorem unbounded_implements_priority_queue (os : list (UOp T)) :
  length os + 1 < MAX_BUFFER →
  (run_all run_uop os unbounded).1 = (run_all pq_op os pq_init).1 ∧
  u_woken (run_all run_uop os unbounded).2 = pq_woken (run_all pq_op os pq_init).2 ∧
  refines (run_all run_uop os unbounded).2 (run_all pq_op os pq_init).2.
Proof.
  intros Hlen. destruct (run_all_refines os pq_init unbounded) as [H1 H2].
  - change (0 + length os < MAX_BUFFER ∧ 1 + length os < MAX_BUFFER). lia.
  - apply unbounded_refines.
  - split; [done|]. split; [|done]. by destruct H2 as (rt & -> & _).
Qed.
End refinement.

Definition demo_ops : list (UOp nat) :=
  [UPollNext 5; USend 0 1%nat Normal; USend 0 2%nat High; UTryNext; UDisconnect 0; UTryNext; UTryNext].

Lemma unbounded_implements_priority_queue_witness :
  (run_all (run_uop (A:=option Waker)) demo_ops unbounded).1 =
    [ONext Pending; OSend (Ok ()); OSend (Ok ()); ORecv (Ok (Some (High, 2%nat))); OUnit;
     ORecv (Ok (Some (Normal, 1%nat))); ORecv (Ok None)] ∧
  u_woken (run_all (run_uop (A:=option Waker)) demo_ops unbounded).2 = [5%nat].
Proof.
  destruct (unbounded_implements_priority_queue (A:=option Waker) demo_ops) as (H1 & H2 & _); [done|].
  split; [exact H1|exact H2].
Defined.
