(* ===== verification/ChannelSink.v ===== *)
(** * The channels as sinks

    [tentacle/src/channel/sink_impl.rs]: the [Sink] and [QuickSinkExt]
    implementations of the senders as records of operations, and the
    [QuickSend] future over any of them. The theorem gives what a poll of
    [QuickSend] does on a bounded sender: the message is sent at most once,
    and the future stays pending until the sender has capacity again. *)
From S2P Require Import Prelude Channel ChannelBound ChannelBoundFacts ChannelUnbound.

Record QuickSink (S T : Type) := mkQuickSink {
  sk_poll_ready : Waker → M S Empty_set (Poll (Res SendError unit));
  sk_start_send : T → M S SendError unit;
  sk_poll_flush : Waker → M S Empty_set (Poll (Res SendError unit));
  sk_poll_close : M S Empty_set (Poll (Res SendError unit));
  sk_start_quick_send : T → M S SendError unit;
}.
Arguments mkQuickSink {S T}.
Arguments sk_poll_ready {S T}.
Arguments sk_start_send {S T}.
Arguments sk_poll_flush {S T}.
Arguments sk_poll_close {S T}.
Arguments sk_start_quick_send {S T}.

Section sinks.
Context {T A : Type} `{!AtomicWaker A}.

(** [Sink for Sender]: a receiver that is gone counts as flushed. *)
Definition sender_poll_flush (sid : nat) (cx : Waker) :
    M (Chan T A) Empty_set (Poll (Res SendError unit)) :=
  p ← poll_ready sid cx;
  mret (match p with
        | Ready (Err e) => if is_disconnected e then Ready (Ok ()) else p
        | _ => p
        end).

Definition sender_poll_close (sid : nat) : M (Chan T A) Empty_set (Poll (Res SendError unit)) :=
  disconnect sid;; mret (Ready (Ok ())).

Definition sender_sink (sid : nat) : QuickSink (Chan T A) T :=
  mkQuickSink (poll_ready sid) (start_send sid) (sender_poll_flush sid) (sender_poll_close sid)
    (start_quick_send sid).

(** [Sink for UnboundedSender]. *)
Definition unbounded_sender_poll_close (sid : nat) :
    M (UChan T A) Empty_set (Poll (Res SendError unit)) :=
  u_disconnect sid;; mret (Ready (Ok ())).

Definition unbounded_sender_sink (sid : nat) : QuickSink (UChan T A) T :=
  mkQuickSink (λ _, u_poll_ready sid) (u_start_send sid) (λ _, mret (Ready (Ok ())))
    (unbounded_sender_poll_close sid) (u_start_quick_send sid).

(** [Sink for &UnboundedSender]: closing closes the channel. *)
Definition unbounded_ref_poll_close (sid : nat) :
    M (UChan T A) Empty_set (Poll (Res SendError unit)) :=
  u_close_channel sid;; mret (Ready (Ok ())).

Definition unbounded_ref_sink (sid : nat) : QuickSink (UChan T A) T :=
  mkQuickSink (λ _, u_poll_ready sid) (λ msg, map_err into_send_error (unbounded_send sid msg))
    (λ _, mret (Ready (Ok ()))) (unbounded_ref_poll_close sid)
    (λ msg, map_err into_send_error (unbounded_quick_send sid msg)).

(** [QuickSend::poll]; the argument is the [item] slot, whose new value is
    returned with the result. *)
Definition quick_send_poll {S} (sink : QuickSink S T) (item : option T) (cx : Waker) :
    M S Empty_set (option T * Poll (Res SendError unit)) :=
  let flush := p ← sk_poll_flush sink cx; mret (None, p) in
  match item with
  | Some it =>
      p ← sk_poll_ready sink cx;
      match p with
      | Ready (Ok _) =>
          r ← try_catch (sk_start_quick_send sink it);
          match r with
          | Ok _ => flush
          | r => mret (None, Ready r)
          end
      | Ready r => mret (None, Ready r)
      | Pending => mret (Some it, Pending)
      end
  | None => flush
  end.

Context `{!AtomicWakerLaws A}.
Implicit Types c : Chan T A.
#[local] Opaque decode_state encode_state.

Lemma poll_ready_eq {E} sid cx c snd tk :
  senders c !! sid = Some snd → tasks c !! sender_task snd = Some tk →
  poll_ready (E:=E) sid cx c =
  if is_open (state_of c) then
    if maybe_parked snd then
      if is_parked tk then (Ok Pending, with_tasks <[sender_task snd := mkSenderTask (Some cx) true]> c)
      else (Ok (Ready (Ok ())), with_senders (alter (λ x, mkSenderInner (sender_task x) false) sid) c)
    else (Ok (Ready (Ok ())), c)
  else (Ok (Ready (Err (mkSendError Disconnected))), c).
Proof.
  intros Hs Ht. rw /poll_ready /sender_poll_ready /mbind /M_bind /gets Hs.
  destruct (is_open (state_of c)); [|done]. rw /= (poll_unparked_eq _ _ _ snd tk) //.
  destruct (maybe_parked snd); [|done]. by destruct (is_parked tk).
Qed.

(** An unparked sender on an open channel. *)
Lemma try_quick_send_ok sid msg c t :
  is_u64 (state (inner c)) → senders c !! sid = Some (mkSenderInner t false) →
  is_Some (tasks c !! t) → is_open (state_of c) = true → num_messages (state_of c) < MAX_CAPACITY →
  ∃ c', start_quick_send sid msg c = (Ok (), c') ∧ sent_ok c c' sid t msg High.
Proof.
  intros Hu Hs [tk Ht] Ho Hn. destruct (do_send_b_ok sid msg High c t Hu Hs Ho Hn) as (c' & Hd & Hok).
  exists c'. split; [|done].
  rw /start_quick_send /map_err /try_quick_send /sender_try_send /mbind /M_bind /gets Hs.
  by rw (poll_unparked_eq _ _ _ (mkSenderInner t false) tk) //= Hd.
Qed.

Lemma queue_of_inner p c c' : inner c' = inner c → queue_of p c' = queue_of p c.
Proof. by destruct p; simpl; intros ->. Qed.

(** Polling without an item only flushes. *)
Lemma quick_send_poll_none sid cx c :
  inner (quick_send_poll (sender_sink sid) None cx c).2 = inner c.
Proof.
  rw /quick_send_poll /= /sender_poll_flush /poll_ready /sender_poll_ready /mbind /M_bind /gets.
  destruct (senders c !! sid); [|done]. destruct (is_open (state_of c)); [|done]. simpl.
  rw /poll_unparked /self /mbind /M_bind /gets /=.
  destruct (senders c !! sid) as [snd|]; simpl; [|done].
  destruct (maybe_parked snd); simpl; [|done].
  destruct (tasks c !! sender_task snd) as [tk|]; simpl; [|done]. by destruct (is_parked tk).
Qed.

(** A poll of [QuickSend] on a bounded sender. On a closed channel it
    fails with [Disconnected] and changes nothing; a parked sender keeps the
    message, stays pending and leaves its waker with its task; otherwise the
    message is appended once to the quick queue, the slot is emptied, and the
    future is ready unless the send exceeded the buffer, when it waits for the
    receiver. With an empty slot a poll never changes the queues. *)
Theorem quick_send_poll_behaviour (c c2 : Chan T A) (sid : nat) snd tk (msg : T) (cx : Waker) :
  is_u64 (state (inner c)) → senders c !! sid = Some snd → tasks c !! sender_task snd = Some tk →
  num_messages (state_of c) < MAX_CAPACITY →
  (let '(r, c') := quick_send_poll (sender_sink sid) (Some msg) cx c in
   if negb (is_open (state_of c)) then
     r = Ok (None, Ready (Err (mkSendError Disconnected))) ∧ c' = c
   else if maybe_parked snd && is_parked tk then
     r = Ok (Some msg, Pending) ∧ inner c' = inner c ∧
     tasks c' !! sender_task snd = Some (mkSenderTask (Some cx) true)
   else
     r = Ok (None, if buffer (inner c) <? num_messages (state_of c) + 1 then Pending else Ready (Ok ())) ∧
     ∀ p, queue_of p c' = queue_of p c ++ (if decide (p = High) then [msg] else [])) ∧
  inner (quick_send_poll (sender_sink sid) None cx c2).2 = inner c2.
Proof.
  intros Hu Hs Ht Hn. split; [|apply quick_send_poll_none].
  rw /quick_send_poll /mbind /M_bind /= (poll_ready_eq _ _ _ snd tk) //.
  destruct (is_open (state_of c)) eqn:Ho; simpl; [|done].
  assert (∃ c1, (if maybe_parked snd then
      if is_parked tk then (Ok Pending, with_tasks <[sender_task snd := mkSenderTask (Some cx) true]> c)
      else (Ok (Ready (Ok ())), with_senders (alter (λ x, mkSenderInner (sender_task x) false) sid) c)
    else (Ok (Ready (Ok ())), c)) =
    ((if maybe_parked snd && is_parked tk then Ok Pending else Ok (Ready (Ok ()))) : Res Empty_set _, c1) ∧
    inner c1 = inner c ∧
    (if maybe_parked snd && is_parked tk then
       tasks c1 !! sender_task snd = Some (mkSenderTask (Some cx) true)
     else tasks c1 = tasks c ∧ senders c1 !! sid = Some (mkSenderInner (sender_task snd) false)))
    as (c1 & -> & Hin & H1).
  { destruct (maybe_parked snd) eqn:Hm; [destruct (is_parked tk)|]; eexists; split_and!; try done.
    - by rw lookup_insert_eq.
    - by rw /= lookup_alter_eq Hs.
    - rw Hs. by destruct snd; simpl in *; subst. }
  destruct (maybe_parked snd && is_parked tk); [done|]. destruct H1 as [Htk Hs1].
  assert (state_of c1 = state_of c) as Hst by (by rw /state_of Hin).
  destruct (try_quick_send_ok sid msg c1 (sender_task snd)) as (c' & Hsend & Hok);
    [by rw Hin|done|by rw Htk; eauto|by rw Hst|by rw Hst|].
  rw /try_catch Hsend. destruct Hok as (Hst' & Hqs & _ & Hpark). rw Hin Hst in Hpark, Hst'.
  assert (∀ p, queue_of p c' = queue_of p c ++ (if decide (p = High) then [msg] else [])) as Hq
    by (intros p; rw Hqs (queue_of_inner _ c c1) //).
  rw /sender_poll_flush /mbind /M_bind.
  destruct (buffer (inner c) <? num_messages (state_of c) + 1).
  - destruct Hpark as (_ & Ht' & Hs'). rw (poll_ready_eq _ _ _ _ _ Hs' Ht') Hst' /=.
    split; [done|]. intros p. rw -Hq. by destruct p.
  - destruct Hpark as (_ & Ht' & Hs'). rw Htk in Ht'.
    rw (poll_ready_eq _ _ _ _ tk Hs') ?Ht' // Hst' /=. done.
Qed.
End sinks.

Lemma quick_send_poll_behaviour_witness :
  (let '(r, c') := quick_send_poll (sender_sink 0) (Some 4%nat) 8 (demo_chan 0) in
   r = Ok (None, Pending) ∧
   ∀ p, queue_of p c' = queue_of p (demo_chan 0) ++ (if decide (p = High) then [4%nat] else [])) ∧
  inner (quick_send_poll (sender_sink 0) None 8 (demo_chan 0)).2 = inner (demo_chan 0).
Proof.
  assert (is_u64 (state (inner (demo_chan 0)))) as Hu by (split; done).
  exact (quick_send_poll_behaviour (demo_chan 0) (demo_chan 0) 0 (mkSenderInner 0 false) SenderTask_new
           4%nat 8 Hu eq_refl eq_refl eq_refl).
Defined.
