(* ===== verification/Buffer.v ===== *)
(** * Buffers in front of a channel

    [tentacle/src/buffer.rs]: [PriorityBuffer], in front of the priority
    channel's sender, and [Buffer], in front of a plain bounded one. The sender
    is an interface ([MsgSender]); the priority channel's [Sender] implements
    it. Shrinking of capacities is not modelled. *)
From S2P Require Import Prelude Channel ChannelBound ChannelBoundFacts.

Inductive SendResult := SOk | SPending | SDisconnect.

(** ** What a buffer needs of its sender *)

Class MsgSender (C T : Type) := {
  ms_poll_ready : Waker → M C (TrySendError T) (Poll (Res SendError unit));
  (** [try_send] and [try_quick_send]. *)
  ms_try_send : Priority → T → M C (TrySendError T) unit;
  (** The messages of a priority that the channel holds. *)
  ms_queue : Priority → C → list T;
  (** The counter of the channel can take so many more messages. *)
  ms_room : nat → C → Prop;
}.

Class MsgSenderLaws (C T : Type) `{MsgSender C T} : Prop := {
  ms_poll_ready_queue cx c p : ms_queue p (ms_poll_ready cx c).2 = ms_queue p c;
  ms_poll_ready_room cx n c : ms_room n c → ∃ r, (ms_poll_ready cx c).1 = Ok r ∧ ms_room n (ms_poll_ready cx c).2;
  ms_try_send_room p m n c :
    ms_room (S n) c → match ms_try_send p m c with
                      | (Ok _, c') => ms_room n c'
                      | (Err _, c') => ms_room (S n) c'
                      | (Panic, _) => False
                      end;
  ms_room_less n c : ms_room (S n) c → ms_room n c;
  ms_try_send_Ok p m c c' :
    ms_try_send p m c = (Ok (), c') → ∀ p', ms_queue p' c' = ms_queue p' c ++ (if decide (p' = p) then [m] else []);
  ms_try_send_Err p m c e c' :
    ms_try_send p m c = (Err e, c') → into_inner e = m ∧ ∀ p', ms_queue p' c' = ms_queue p' c;
}.

(** ** [PriorityBuffer] *)

Record PriorityBuffer (C T : Type) := mkPriorityBuffer {
  sender : C; high_buffer : list T; normal_buffer : list T }.
Arguments mkPriorityBuffer {C T}.
Arguments sender {C T}.
Arguments high_buffer {C T}.
Arguments normal_buffer {C T}.

Section buffer.
Context {C T : Type} `{!MsgSender C T}.
Implicit Types b : PriorityBuffer C T.

Definition buffer_new (c : C) : PriorityBuffer C T := mkPriorityBuffer c [] [].
Definition push_high (item : T) b : PriorityBuffer C T :=
  mkPriorityBuffer (sender b) (high_buffer b ++ [item]) (normal_buffer b).
Definition push_normal (item : T) b : PriorityBuffer C T :=
  mkPriorityBuffer (sender b) (high_buffer b) (normal_buffer b ++ [item]).
Definition buffer_len b : nat := length (high_buffer b) + length (normal_buffer b).
Definition buffer_is_empty b : bool :=
  bool_decide (high_buffer b = []) && bool_decide (normal_buffer b = []).
Definition buffer_clear b : PriorityBuffer C T := mkPriorityBuffer (sender b) [] [].

(** A [while let Some(event) = buffer.pop_front()] loop of [try_send]: what it
    returns early, if it does, and what is left of the buffer. *)
Fixpoint drain (cx : Waker) (p : Priority) (buf : list T) : M C (TrySendError T) (option SendResult * list T) :=
  match buf with
  | [] => mret (None, [])
  | event :: buf =>
      r ← ms_poll_ready cx;
      match r with
      | Ready (Ok _) =>
          s ← try_catch (ms_try_send p event);
          match s with
          | Err e =>
              if try_is_full e then mret (Some SPending, into_inner e :: buf)
              else mret (Some SDisconnect, buf)
          | _ => drain cx p buf
          end
      | Pending => mret (Some SPending, event :: buf)
      | Ready _ => mret (Some SDisconnect, buf)
      end
  end.

(** [try_send]; the sender's methods act on the [sender] field. *)
Definition on_sender {A} (m : M C (TrySendError T) A) : M (PriorityBuffer C T) (TrySendError T) A := λ b,
  let '(r, c) := m (sender b) in (r, mkPriorityBuffer c (high_buffer b) (normal_buffer b)).

Definition buffer_try_send (cx : Waker) : M (PriorityBuffer C T) (TrySendError T) SendResult :=
  b ← get;
  h ← on_sender (drain cx High (high_buffer b));
  modify (λ b, mkPriorityBuffer (sender b) (h.2) (normal_buffer b));;
  match h.1 with
  | Some SDisconnect => modify buffer_clear;; mret SDisconnect
  | Some r => mret r
  | None =>
      n ← on_sender (drain cx Normal (normal_buffer b));
      modify (λ b, mkPriorityBuffer (sender b) (high_buffer b) (n.2));;
      match n.1 with
      | Some SDisconnect => modify buffer_clear;; mret SDisconnect
      | Some r => mret r
      | None => mret SOk
      end
  end.
End buffer.

(** ** [Buffer]: a single queue, sent with [try_send] *)

Record Buffer (C T : Type) := mkBuffer { b_sender : C; b_buffer : list T }.
Arguments mkBuffer {C T}.
Arguments b_sender {C T}.
Arguments b_buffer {C T}.

Section plain.
Context {C T : Type} `{!MsgSender C T}.
Implicit Types b : Buffer C T.

Definition plain_new (c : C) : Buffer C T := mkBuffer c [].
Definition plain_push (item : T) b : Buffer C T := mkBuffer (b_sender b) (b_buffer b ++ [item]).
Definition plain_len b : nat := length (b_buffer b).
Definition plain_is_empty b : bool := bool_decide (b_buffer b = []).
Definition plain_clear b : Buffer C T := mkBuffer (b_sender b) [].
Definition plain_take b : list T * Buffer C T := (b_buffer b, mkBuffer (b_sender b) []).

Definition plain_try_send (cx : Waker) : M (Buffer C T) (TrySendError T) SendResult := λ b,
  match drain cx Normal (b_buffer b) (b_sender b) with
  | (Ok (Some SDisconnect, _), c) => (Ok SDisconnect, mkBuffer c [])
  | (Ok (Some r, rest), c) => (Ok r, mkBuffer c rest)
  | (Ok (None, rest), c) => (Ok SOk, mkBuffer c rest)
  | (Err e, c) => (Err e, mkBuffer c (b_buffer b))
  | (Panic, c) => (Panic, mkBuffer c (b_buffer b))
  end.
End plain.

(** ** Facts *)

Section facts.
Context {C T : Type} {MS : MsgSender C T} {ML : MsgSenderLaws C T}.

(** From [c] to [c'] the messages [ms] of priority [p] entered the channel, and
    no others. *)
Definition entered (p : Priority) (ms : list T) (c c' : C) : Prop :=
  ∀ p', ms_queue p' c' = ms_queue p' c ++ (if decide (p' = p) then ms else []).

Lemma entered_nil p c c' : (∀ p', ms_queue p' c' = ms_queue p' c) → entered p [] c c'.
Proof. intros H p'. rw H. case_decide; by rw app_nil_r. Qed.

Lemma entered_app p ms ms' c c' c'' : entered p ms c c' → entered p ms' c' c'' → entered p (ms ++ ms') c c''.
Proof. intros H1 H2 p'. rw H2 H1 -app_assoc. by case_decide. Qed.

Lemma drain_sends cx p buf (c c' : C) r rest :
  drain cx p buf c = (Ok (r, rest), c') →
  ∃ ms lost, buf = ms ++ lost ++ rest ∧ entered p ms c c' ∧
    match r with
    | None => rest = [] ∧ lost = []
    | Some SOk => False
    | Some SPending => lost = [] ∧ rest ≠ []
    | Some SDisconnect => True
    end.
Proof.
  revert c. induction buf as [|x buf IH]; intros c; cbn [drain].
  { intros [= <- <- <-]. exists [], []. split; [done|]. split; [by apply entered_nil|done]. }
  intros (q & c1 & Hq & H)%M_bind_inv.
  assert (∀ p', ms_queue p' c1 = ms_queue p' c) as Hc1 by (intros p'; rw -(ms_poll_ready_queue cx c p') Hq //).
  destruct q as [[u|e|]|]; [|injection H as <- <- <-..].
  - apply M_bind_inv in H as (s & c2 & Hs & H). revert Hs. rw /try_catch.
    destruct (ms_try_send p x c1) as [[[]|e|] c3] eqn:Ht; [| |done]; intros [= <- <-].
    + pose proof (ms_try_send_Ok _ _ _ _ Ht) as Hent. destruct (IH _ H) as (ms & lost & -> & Hms & Hr).
      exists (x :: ms), lost. split; [done|]. split; [|done].
      apply (entered_app p [x] ms c c3 c'); [|done]. intros p'. by rw (Hent p') Hc1.
    + destruct (ms_try_send_Err _ _ _ _ _ Ht) as [He Hq']. destruct (try_is_full e); injection H as <- <- <-.
      * exists [], []. split; [by rw He|]. split; [|done]. apply entered_nil. intros p'. by rw Hq' Hc1.
      * exists [], [x]. split; [done|]. split; [|done]. apply entered_nil. intros p'. by rw Hq' Hc1.
  - exists [], [x]. split; [done|]. split; [by apply entered_nil|done].
  - exists [], [x]. split; [done|]. split; [by apply entered_nil|done].
  - exists [], []. split; [done|]. split; [by apply entered_nil|done].
Qed.

Lemma drain_room cx p buf n (c : C) :
  ms_room (length buf + n) c → ∃ r c', drain cx p buf c = (Ok r, c') ∧ ms_room (length r.2 + n) c'.
Proof.
  revert c. induction buf as [|x buf IH]; intros c Hc; [by eexists _, c|]. cbn [drain length] in *. rw /mbind /M_bind.
  destruct (ms_poll_ready_room cx _ c Hc) as (q & Hq & Hc1). destruct (ms_poll_ready cx c) as [r c1]. simpl in Hq, Hc1. rw Hq.
  pose proof (ms_room_less _ c1 Hc1) as Hc1'. destruct q as [[u|e'|]|]; try by eexists _, c1. rw /try_catch.
  pose proof (ms_try_send_room p x _ c1 Hc1) as Hp. destruct (ms_try_send p x c1) as [[u'|e'|] c2]; [by apply IH| |done].
  pose proof (ms_room_less _ c2 Hp). by case_match; eexists _, c2.
Qed.

(** What flushing a priority buffer does, with the room that is left. *)
Definition flushed_to (b : PriorityBuffer C T) (r : SendResult) (b' : PriorityBuffer C T) : Prop :=
  ∃ h n lh ln,
    high_buffer b = h ++ lh ++ high_buffer b' ∧ normal_buffer b = n ++ ln ++ normal_buffer b' ∧
    ms_queue High (sender b') = ms_queue High (sender b) ++ h ∧
    ms_queue Normal (sender b') = ms_queue Normal (sender b) ++ n ∧
    (n ≠ [] → h = high_buffer b) ∧
    match r with
    | SOk => buffer_is_empty b' = true ∧ lh = [] ∧ ln = []
    | SPending => buffer_is_empty b' = false ∧ lh = [] ∧ ln = []
    | SDisconnect => buffer_is_empty b' = true
    end.

Lemma ms_room_drop n k (c : C) : ms_room (k + n) c → ms_room n c.
Proof. induction k as [|k IH]; [done|]. intros H. by apply IH, ms_room_less. Qed.

Lemma buffer_flush_spec (cx : Waker) (m : nat) (b : PriorityBuffer C T) :
  ms_room (buffer_len b + m) (sender b) →
  ∃ r b', buffer_try_send cx b = (Ok r, b') ∧ ms_room (buffer_len b' + m) (sender b') ∧ flushed_to b r b'.
Proof.
  destruct b as [c hb nb]. rw /buffer_len. cbn [high_buffer normal_buffer sender]. rewrite <-Nat.add_assoc. intros Hroom.
  rw /buffer_try_send {1}/mbind {1}/M_bind {1}/get. cbn [high_buffer normal_buffer].
  rw {1}/mbind {1}/M_bind {1}/on_sender. cbn [sender high_buffer normal_buffer].
  destruct (drain_room cx High hb _ c Hroom) as ([r rest] & c1 & Hh & Hc1). rw Hh. cbn [snd] in Hc1.
  destruct (drain_sends _ _ _ _ _ _ _ Hh) as (ms & lost & -> & Hent & Hr).
  pose proof (Hent High) as Hq1. pose proof (Hent Normal) as Hq2. simpl in Hq1, Hq2. rewrite -> app_nil_r in Hq2.
  rw {1}/mbind {1}/M_bind {1}/modify. cbn [fst snd sender high_buffer normal_buffer].
  destruct r as [[]|]; [done|..].
  - eexists _, _. split; [reflexivity|]. split; [by rewrite <-Nat.add_assoc|]. destruct Hr as [-> Hr].
    exists ms, [], [], []. simpl. rw Hq1 Hq2 app_nil_r. split_and!; try done. rw /buffer_is_empty /=. by destruct rest.
  - eexists _, _. split; [reflexivity|]. split; [by apply (ms_room_drop m (length nb)), (ms_room_drop _ (length rest))|].
    exists ms, [], (lost ++ rest), nb. simpl. rw Hq1 Hq2 !app_nil_r. split_and!; done.
  - destruct Hr as [-> ->]. rw !app_nil_r in Hh |- *. rw {1}/mbind {1}/M_bind {1}/on_sender. cbn [sender high_buffer normal_buffer].
    destruct (drain_room cx Normal nb m c1 Hc1) as ([r rest] & c2 & Hn & Hc2). rw Hn. cbn [snd] in Hc2.
    destruct (drain_sends _ _ _ _ _ _ _ Hn) as (ns & lost & -> & Hent' & Hr).
    pose proof (Hent' High) as Hq3. pose proof (Hent' Normal) as Hq4. simpl in Hq3, Hq4. rewrite -> app_nil_r in Hq3.
    rw {1}/mbind {1}/M_bind {1}/modify. cbn [fst snd sender high_buffer normal_buffer].
    destruct r as [[]|]; [done|..]; (eexists _, _; split; [reflexivity|]).
    + destruct Hr as [-> Hr]. split; [done|]. exists ms, ns, [], []. simpl. rw Hq3 Hq4 Hq1 Hq2 app_nil_r. split_and!; try done.
      rw /buffer_is_empty /=. by destruct rest.
    + split; [by apply (ms_room_drop m (length rest))|]. exists ms, ns, [], (lost ++ rest). simpl. rw Hq3 Hq4 Hq1 Hq2 !app_nil_r. done.
    + destruct Hr as [-> ->]. split; [done|]. exists ms, ns, [], []. simpl. rw Hq3 Hq4 Hq1 Hq2 !app_nil_r. done.
Qed.

(** Flushing a priority buffer hands the channel a prefix of each queue, in
    order, the normal one only after the whole high one. [SOk] means that
    everything is in the channel; [SPending] that the rest, which is not empty,
    is still in the buffer; [SDisconnect] that the buffer was emptied. It always
    ends in one of these, if the channel can count the buffered messages. *)
Theorem priority_buffer_flush (cx : Waker) (b : PriorityBuffer C T) :
  ms_room (buffer_len b) (sender b) →
  match buffer_try_send cx b with
  | (Ok r, b') =>
      ∃ h n lh ln,
        high_buffer b = h ++ lh ++ high_buffer b' ∧ normal_buffer b = n ++ ln ++ normal_buffer b' ∧
        ms_queue High (sender b') = ms_queue High (sender b) ++ h ∧
        ms_queue Normal (sender b') = ms_queue Normal (sender b) ++ n ∧
        (n ≠ [] → h = high_buffer b) ∧
        match r with
        | SOk => buffer_is_empty b' = true ∧ lh = [] ∧ ln = []
        | SPending => buffer_is_empty b' = false ∧ lh = [] ∧ ln = []
        | SDisconnect => buffer_is_empty b' = true
        end
  | _ => False
  end.
Proof.
  rewrite <-(Nat.add_0_r (buffer_len b)). intros Hroom.
  by destruct (buffer_flush_spec cx 0 b Hroom) as (r & b' & -> & _ & Hf).
Qed.

Lemma plain_buffer_flush (cx : Waker) (n : nat) (b : Buffer C T) :
  ms_room (plain_len b + n) (b_sender b) →
  match plain_try_send cx b with
  | (Ok r, b') =>
      ms_room (plain_len b' + n) (b_sender b') ∧
      ∃ ms lost, b_buffer b = ms ++ lost ++ b_buffer b' ∧ entered Normal ms (b_sender b) (b_sender b') ∧
        match r with
        | SOk => b_buffer b' = [] ∧ lost = []
        | SPending => b_buffer b' ≠ [] ∧ lost = []
        | SDisconnect => b_buffer b' = []
        end
  | _ => False
  end.
Proof.
  rw /plain_try_send /plain_len. intros Hr.
  destruct (drain_room cx Normal (b_buffer b) n (b_sender b) Hr) as ([r rest] & c & Hd & Hroom). clear Hr. rw Hd.
  assert (∀ k, ms_room (k + n) c → ms_room n c) as Hless.
  { induction k as [|k IH]; [done|]. intros H. by apply IH, ms_room_less. }
  destruct (drain_sends _ _ _ _ _ _ _ Hd) as (ms & lost & -> & Hent & Hr).
  destruct r as [[]|]; [done|split; [try done; by apply (Hless (length rest))|]..].
  - exists ms, []. destruct Hr as [-> Hr]. done.
  - exists ms, (lost ++ rest). by rw app_nil_r.
  - exists ms, []. destruct Hr as [-> ->]. done.
Qed.
End facts.

(** ** The priority channel's sender *)

Section channel.
Context {T A : Type} `{!AtomicWaker A}.

(** The cell of the sender's task exists, and so many messages can still be counted. *)
Definition chan_room (sid : nat) (n : nat) (c : Chan T A) : Prop :=
  (∀ s, senders c !! sid = Some s → is_Some (tasks c !! sender_task s)) ∧
  0 ≤ num_messages (state_of c) ∧ num_messages (state_of c) + n ≤ MAX_CAPACITY.

Definition chan_sender (sid : nat) : MsgSender (Chan T A) T := {|
  ms_poll_ready cx := poll_ready sid cx;
  ms_try_send p m := match p with High => try_quick_send sid m | Normal => try_send sid m end;
  ms_queue := queue_of;
  ms_room := chan_room sid;
|}.

Definition queues (q : Priority → list T) (c : Chan T A) : Prop := ∀ p, queue_of p c = q p.

Lemma poll_unparked_queues {E} q sid cx : preserves (queues q) (poll_unparked (E:=E) sid cx).
Proof. rw /poll_unparked /self /set_maybe_parked. preserves; by apply preserves_modify. Qed.

Lemma park_queues {E} q sid : preserves (queues q) (park (E:=E) sid).
Proof. rw /park /self /park_lock /park_push /park_check /set_maybe_parked. preserves; apply preserves_modify; intros c Hc p; specialize (Hc p); by destruct p. Qed.

Lemma inc_num_messages_queues {E} q : preserves (queues q) (inc_num_messages (E:=E)).
Proof. rw /inc_num_messages. preserves; apply preserves_modify; intros c Hc p; specialize (Hc p); by destruct p. Qed.

#[local] Hint Resolve poll_unparked_queues park_queues inc_num_messages_queues : preserves.

(** A send either queues its message, or gives it back and queues nothing. *)
Lemma sender_try_send_queues q sid m p (c : Chan T A) :
  queues q c →
  match sender_try_send sid m p c with
  | (Ok _, c') => queues (λ p', q p' ++ (if decide (p' = p) then [m] else [])) c'
  | (Err e, c') => into_inner e = m ∧ queues q c'
  | (Panic, _) => True
  end.
Proof.
  intros Hc. rw /sender_try_send {1}/mbind {1}/M_bind.
  pose proof (poll_unparked_queues (E:=TrySendError T) q sid None c Hc) as H1.
  assert (∀ e, (poll_unparked (E:=TrySendError T) sid None c).1 ≠ Err e) as Hne.
  { rw /poll_unparked /self /mbind /M_bind /gets /set_maybe_parked. intros e. destruct (senders c !! sid); [|done]. simpl.
    case_match; [|done]. destruct (tasks c !! _); [|done]. by case_match. }
  destruct (poll_unparked sid None c) as [[w|e|] c1]; [|by destruct (Hne e)|done]. simpl in H1.
  destruct (is_ready w); simpl; [|done]. rw /do_send_b {1}/mbind {1}/M_bind.
  pose proof (inc_num_messages_queues (E:=TrySendError T) q c1 H1) as H2.
  assert (∀ e, (inc_num_messages (E:=TrySendError T) c1).1 ≠ Err e) as Hne2.
  { rw /inc_num_messages /mbind /M_bind /gets. intros e. by repeat case_match. }
  destruct (inc_num_messages c1) as [[[n|]|e|] c2]; [|done|by destruct (Hne2 e)|done]. simpl in H2.
  rw {1}/mbind {1}/M_bind {1}/gets {1}/mbind {1}/M_bind.
  assert (preserves (queues q) (when (buffer (inner c2) <? n) (park (E:=TrySendError T) sid))) as Hw by preserves.
  specialize (Hw c2 H2).
  assert (∀ e, (when (buffer (inner c2) <? n) (park (E:=TrySendError T) sid) c2).1 ≠ Err e) as Hne3.
  { rw /when /park /self /mbind /M_bind /gets. intros e. case_match; [|done]. by destruct (senders c2 !! sid). }
  destruct (when _ _ c2) as [[u|e|] c3]; [|by destruct (Hne3 e)|done]. simpl in Hw.
  rw /queue_push_and_signal /queue_push /recv_wake /mbind /M_bind /modify. intros p'. specialize (Hw p').
  destruct (aw_wake _) as [ow a], p, p'; simpl in *; rw Hw ?app_nil_r //.
Qed.

(** The same, with the sender present. *)
Definition live_room (sid n : nat) (c : Chan T A) : Prop := chan_room sid n c ∧ is_Some (senders c !! sid).

(** [c'] has the counter, the sender and at least the cells of [c]. *)
Lemma live_room_mono sid n (c c' : Chan T A) :
  state_of c' = state_of c → senders c' !! sid = senders c !! sid → dom (tasks c) ⊆ dom (tasks c') →
  live_room sid n c → live_room sid n c'.
Proof.
  intros Hst Hse Ht ((Hc & H0) & Hs). rw /live_room /chan_room Hst Hse. split; [|done]. split; [|done].
  intros s Hs'. apply elem_of_dom, Ht, elem_of_dom, (Hc _ Hs').
Qed.

Lemma maybe_parked_room {E} sid n b : ok_on (live_room sid n) (set_maybe_parked (E:=E) sid b).
Proof.
  apply ok_modify. intros c ((Hc & H0) & [s Hs]). split; [split; [|done]|]; simpl.
  - intros s'. rw lookup_alter_eq Hs. simpl. intros [= <-]. exact (Hc s Hs).
  - rw lookup_alter_eq Hs. by eexists.
Qed.

Lemma task_room {E} sid n t tk : ok_on (live_room sid n) (modify (with_tasks <[t := tk]>) : M (Chan T A) E unit).
Proof. apply ok_modify. intros c. apply live_room_mono; [done..|]. simpl. rw dom_insert. set_solver. Qed.

Lemma poll_unparked_room {E} sid cx n : ok_on (live_room sid n) (poll_unparked (E:=E) sid cx).
Proof.
  intros c Hc. destruct (Hc) as ((Ht & _) & [s Hs]). destruct (Ht _ Hs) as [tk Htk]. rw /poll_unparked.
  erewrite M_bind_Ok by by rw /self /mbind /M_bind /gets Hs. cbv beta. destruct (maybe_parked s); [|by apply ok_ret].
  erewrite M_bind_Ok by done. cbv beta. rw Htk. destruct (negb _); (apply ok_bind; [|intros; apply ok_ret|exact Hc]).
  - apply maybe_parked_room.
  - apply task_room.
Qed.

Lemma park_room {E} sid n : ok_on (live_room sid n) (park (E:=E) sid).
Proof.
  intros c Hc. destruct (Hc) as (_ & [s Hs]). rw /park. erewrite M_bind_Ok by by rw /self /mbind /M_bind /gets Hs.
  apply (ok_bind (live_room sid n)); [apply task_room| |exact Hc]. intros _. apply ok_bind.
  { apply ok_modify. intros c'. by apply live_room_mono. }
  intros _. apply ok_bind; [apply ok_gets|]. intros st. apply maybe_parked_room.
Qed.

Lemma queue_push_room {E} sid n m p : ok_on (live_room sid n) (queue_push_and_signal (E:=E) m p).
Proof.
  apply ok_bind; [|intros _]; apply ok_modify; intros c'.
  - by apply live_room_mono; destruct p.
  - destruct (aw_wake _) as [w a]. by apply live_room_mono.
Qed.

(** Counting a message takes one from the room. *)
Lemma inc_room {E} sid n (c : Chan T A) :
  live_room sid (S n) c →
  ∃ o c', inc_num_messages (E:=E) c = (Ok o, c') ∧ live_room sid (if o is Some _ then n else S n) c'.
Proof.
  intros ((Ht & H0 & Hn) & Hs). rw /inc_num_messages. erewrite M_bind_Ok by done. cbv beta.
  change (decode_state (state (inner c))) with (state_of c). destruct (is_open (state_of c)); cbn [negb]; last first.
  { eexists _, c. split; [done|]. split; [|done]. split; [done|lia]. }
  rewrite -> (proj2 (Z.ltb_lt _ _)) by lia. cbn [negb]. eexists _, _. split; [done|]. split; [|done]. split; [done|].
  assert (MAX_CAPACITY = 2 ^ 63 - 1) as HM by done. unfold state_of in *. cbn [with_inner inner set_state state].
  rewrite -> state_decode_encode by (cbn [num_messages]; lia). cbn [num_messages]. lia.
Qed.

Lemma sender_try_send_room sid m p n (c : Chan T A) :
  live_room sid (S n) c →
  match sender_try_send sid m p c with
  | (Ok _, c') => chan_room sid n c'
  | (Err _, c') => chan_room sid (S n) c'
  | (Panic, _) => False
  end.
Proof.
  intros Hc.
  destruct (poll_unparked_room (E:=TrySendError T) sid None _ c Hc) as (w & c1 & H1 & Hc1).
  rw /sender_try_send (M_bind_Ok _ _ _ _ _ H1). destruct (is_ready w); simpl; [|by destruct Hc1].
  destruct (inc_room (E:=TrySendError T) sid n c1 Hc1) as (o & c2 & H2 & Hc2). rw /do_send_b (M_bind_Ok _ _ _ _ _ H2).
  destruct o as [k|]; [|by destruct Hc2].
  assert (ok_on (live_room sid n) (buf ← gets (λ c, buffer (inner c));
    when (buf <? k) (park sid);; queue_push_and_signal m p : M (Chan T A) (TrySendError T) unit)) as Hok.
  { apply ok_bind; [apply ok_gets|]. intros buf. apply ok_bind; [apply ok_when, park_room|]. intros _. apply queue_push_room. }
  destruct (Hok c2 Hc2) as (u & c3 & -> & [Hc3 _]). done.
Qed.

Lemma chan_sender_laws (sid : nat) : @MsgSenderLaws (Chan T A) T (chan_sender sid).
Proof.
  assert (∀ E cx q, preserves (queues q) (poll_ready (E:=E) sid cx)) as Hp.
  { intros E cx q. rw /poll_ready /sender_poll_ready. preserves. }
  assert (∀ p m c, let '(r, c') := ms_try_send (MsgSender:=chan_sender sid) p m c in
    match r with
    | Ok _ => queues (λ p', queue_of p' c ++ (if decide (p' = p) then [m] else [])) c'
    | Err e => into_inner e = m ∧ queues (λ p', queue_of p' c) c'
    | Panic => True
    end) as Hs.
  { intros p m c. pose proof (sender_try_send_queues (λ p', queue_of p' c) sid m p c (λ _, eq_refl)) as H.
    destruct p; simpl; rw /try_quick_send /try_send /mbind /M_bind /gets.
    all: destruct (senders c !! sid); [by destruct (sender_try_send _ _ _ _) as [[] ?]|done]. }
  split; simpl.
  - intros cx c p. apply (Hp _ cx (λ p, queue_of p c) c). done.
  - intros cx n c Hc. rw /poll_ready {1 2}/mbind {1 2}/M_bind {1 2}/gets.
    destruct (senders c !! sid) eqn:Hl; [|by eexists]. assert (live_room sid n c) as Hlive by by split; [|eexists].
    assert (ok_on (live_room sid n) (sender_poll_ready (E:=TrySendError T) sid cx)) as Hok.
    { apply ok_bind; [apply ok_gets|]. intros st. case_match; [apply ok_ret|].
      apply ok_bind; [apply poll_unparked_room|]. intros q. case_match; apply ok_ret. }
    destruct (Hok c Hlive) as (r & c' & -> & [Hc' _]). by exists r.
  - intros p m n c Hc. destruct p; rw /try_quick_send /try_send {1}/mbind {1}/M_bind {1}/gets.
    all: by destruct (senders c !! sid) eqn:Hl; [apply sender_try_send_room; split; [|eexists]|].
  - intros n c (? & ? & ?). split; [done|]. lia.
  - intros p m c c' H. specialize (Hs p m c). simpl in Hs. rw H in Hs. apply Hs.
  - intros p m c e c' H. specialize (Hs p m c). simpl in Hs. rw H in Hs. apply Hs.
Qed.
End channel.

(** ** A buffer in front of a channel with room for one message and one sender *)

Definition demo_buffer : PriorityBuffer (Chan nat (option Waker)) nat :=
  push_normal 3%nat (push_high 2%nat (push_high 1%nat (buffer_new (demo_chan 0)))).

Lemma priority_buffer_flush_witness :
  ∃ b', @buffer_try_send _ _ (chan_sender 0) 7%nat demo_buffer = (Ok SPending, b') ∧
    high_buffer b' = [2%nat] ∧ normal_buffer b' = [3%nat] ∧ queue_of High (sender b') = [1%nat].
Proof.
  assert (chan_room 0 (buffer_len demo_buffer) (sender demo_buffer)) as Hroom.
  { split; [intros s; vm_compute; intros [= <-]; by eexists|]. split; vm_compute; congruence. }
  pose proof (@priority_buffer_flush _ _ (chan_sender 0) (chan_sender_laws 0) 7%nat demo_buffer Hroom) as H.
  destruct (@buffer_try_send _ _ (chan_sender 0) 7%nat demo_buffer) as [r b'] eqn:Hr.
  vm_compute in Hr. injection Hr as <- <-. eexists. split; [reflexivity|].
  destruct H as (h & n & lh & ln & Hh & Hn & Hqh & Hqn & _ & _ & -> & ->).
  split_and!; reflexivity.
Defined.

(** ** A channel without a bound *)

Record ListChan (T : Type) := mkListChan { lc_items : list (Priority * T) }.
Arguments mkListChan {T}.
Arguments lc_items {T}.

#[global] Instance ListChan_sender T : MsgSender (ListChan T) T := {|
  ms_poll_ready cx := mret (Ready (Ok ()));
  ms_try_send p m := modify (λ c, mkListChan (lc_items c ++ [(p, m)]));
  ms_queue p c := omap (λ x, if decide (x.1 = p) then Some x.2 else None) (lc_items c);
  ms_room _ _ := True;
|}.

#[global] Instance ListChan_laws T : MsgSenderLaws (ListChan T) T.
Proof.
  split; try done.
  - intros cx n c _. by eexists.
  - intros p m c c' [= <-] p'. simpl. rw omap_app. simpl. repeat case_decide; simplify_eq; done.
Qed.
