(* ===== verification/Text.v ===== *)
(** * Text: the string and number functions of the standard library

    Strings are their UTF-8 bytes. This file models what the address code uses
    of [str] and of number formatting ([split], [trim_end_matches],
    [from_utf8], [to_digit], unsigned [FromStr] and [Display]) with the lemmas
    the round trips of [StdNet], [ProxyProtocol] and [Multiaddr] share. *)
From S2P Require Import Prelude.

(** A literal as bytes. *)
Definition str (s : string) : bytes := String.list_byte_of_string s.

Abbreviation chr := Z_byte.

(** ** [str::split(char)] and [trim_end_matches(char)] *)

(** Pieces between the separators; always at least one. *)
Fixpoint split (sep : byte) (s : bytes) : list bytes :=
  match s with
  | [] => [[]]
  | c :: s' =>
      if decide (c = sep) then [] :: split sep s'
      else match split sep s' with
           | p :: ps => (c :: p) :: ps
           | [] => [[c]]
           end
  end.

Fixpoint join (sep : byte) (ps : list bytes) : bytes :=
  match ps with
  | [] => []
  | [p] => p
  | p :: ps => p ++ sep :: join sep ps
  end.

(** Drops the trailing occurrences of [c]. *)
Fixpoint trim_end_matches (c : byte) (s : bytes) : bytes :=
  match s with
  | [] => []
  | x :: s' =>
      match trim_end_matches c s' with
      | [] => if decide (x = c) then [] else [x]
      | s'' => x :: s''
      end
  end.

(** ** Numbers *)

(** [char::to_digit(radix)]. *)
Definition to_digit (radix : Z) (c : byte) : option Z :=
  let z := byte_Z c in
  let d := if (48 <=? z) && (z <=? 57) then z - 48
           else if (97 <=? z) && (z <=? 122) then z - 87
           else if (65 <=? z) && (z <=? 90) then z - 55
           else 255 in
  if d <? radix then Some d else None.

(** The character of a digit, as [Display] and [LowerHex] write it. *)
Definition digit_char (d : Z) : byte := if d <? 10 then Z_byte (48 + d) else Z_byte (87 + d).

(** The digits of [n], most significant first. *)
Fixpoint digits (fuel : nat) (base n : Z) : list Z :=
  match fuel with
  | O => []
  | S fuel => if n <? base then [n] else digits fuel base (n / base) ++ [n mod base]
  end.

Definition undigits (base : Z) (ds : list Z) : Z := foldl (λ acc d, acc * base + d) 0 ds.

(** [Display] and [LowerHex] of an unsigned integer of at most 64 bits. *)
Definition show_radix (base n : Z) : bytes := digit_char <$> digits 64 base n.
Definition show_dec (n : Z) : bytes := show_radix 10 n.
Definition show_hex (n : Z) : bytes := show_radix 16 n.

(** The digit loop of [FromStr] for unsigned integers, with its overflow
    checks. *)
Fixpoint parse_digits (max acc : Z) (s : bytes) : option Z :=
  match s with
  | [] => Some acc
  | c :: s =>
      d ← to_digit 10 c;
      let acc := acc * 10 + d in
      if acc <=? max then parse_digits max acc s else None
  end.

(** [str::parse::<uN>()]: an optional plus sign and decimal digits. *)
Definition parse_uint (max : Z) (s : bytes) : option Z :=
  match s with
  | [] => None
  | c :: s' =>
      if decide (c = chr 43) then
        match s' with [] => None | _ => parse_digits max 0 s' end
      else parse_digits max 0 s
  end.
Definition parse_u16 : bytes → option Z := parse_uint u16_max.
Definition parse_u64 : bytes → option Z := parse_uint u64_max.

(** ** [str::from_utf8] *)

Definition byte_in (lo hi : Z) (b : byte) : bool := (lo <=? byte_Z b) && (byte_Z b <=? hi).

(** Well-formed UTF-8 byte sequences (Unicode, table 3-7). *)
Fixpoint utf8_valid (s : bytes) : bool :=
  match s with
  | [] => true
  | a :: s =>
      if byte_in 0 127 a then utf8_valid s
      else match s with
      | b :: s =>
          if byte_in 194 223 a then byte_in 128 191 b && utf8_valid s
          else match s with
          | c :: s =>
              if byte_in 224 239 a then
                byte_in (if byte_Z a =? 224 then 160 else 128)
                        (if byte_Z a =? 237 then 159 else 191) b &&
                byte_in 128 191 c && utf8_valid s
              else match s with
              | d :: s =>
                  byte_in 240 244 a &&
                  byte_in (if byte_Z a =? 240 then 144 else 128)
                          (if byte_Z a =? 244 then 143 else 191) b &&
                  byte_in 128 191 c && byte_in 128 191 d && utf8_valid s
              | [] => false
              end
          | [] => false
          end
      | [] => false
      end
  end.

(** ASCII case mapping: what [to_uppercase] and [to_lowercase] do to ASCII. *)
Definition is_ascii (s : bytes) : bool := forallb (byte_in 0 127) s.
Definition ascii_upper (c : byte) : byte := if byte_in 97 122 c then Z_byte (byte_Z c - 32) else c.
Definition ascii_lower (c : byte) : byte := if byte_in 65 90 c then Z_byte (byte_Z c + 32) else c.

(** ** Lemmas: splitting *)

Lemma split_no_sep sep s : sep ∉ s → split sep s = [s].
Proof.
  induction s as [|c s IH]; [done|]. intros [Hc Hs]%not_elem_of_cons. simpl.
  rewrite -> decide_False by done. by rw IH.
Qed.

Lemma split_app_sep sep p s : sep ∉ p → split sep (p ++ sep :: s) = p :: split sep s.
Proof.
  induction p as [|c p IH]; simpl; intros Hp.
  - by rw decide_True.
  - apply not_elem_of_cons in Hp as [Hc Hp]. rewrite -> decide_False by done. by rw IH.
Qed.

Lemma split_join sep ps :
  ps ≠ [] → Forall (λ p, sep ∉ p) ps → split sep (join sep ps) = ps.
Proof.
  induction ps as [|p ps IH]; [done|]. intros _ [Hp Hps]%Forall_cons.
  destruct ps as [|p' ps]; [by apply split_no_sep|].
  change (join sep (p :: p' :: ps)) with (p ++ sep :: join sep (p' :: ps)).
  rw split_app_sep //. by rw IH.
Qed.

Lemma join_split sep s : join sep (split sep s) = s.
Proof.
  induction s as [|c s IH]; [done|]. simpl. case_decide as Hc.
  - subst. destruct (split sep s) eqn:E; [by destruct s; simpl in E; repeat case_match|]. simpl. by f_equal.
  - destruct (split sep s) as [|p [|p' ps]] eqn:E; simpl in *; by rw -IH.
Qed.

Lemma trim_end_app c s x : x ≠ c → trim_end_matches c (s ++ [x]) = s ++ [x].
Proof.
  intros Hx. induction s as [|y s IH]; simpl; [by rw decide_False|].
  rw IH. by destruct (s ++ [x]) eqn:E; [destruct s|].
Qed.

Lemma trim_end_snoc c s : trim_end_matches c (s ++ [c]) = trim_end_matches c s.
Proof.
  induction s as [|y s IH]; simpl; [by rw decide_True|]. by rw IH.
Qed.

Lemma trim_end_not_in c s : c ∉ s → trim_end_matches c s = s.
Proof.
  induction s as [|x s IH]; [done|]. intros [Hx Hs]%not_elem_of_cons. simpl. rw IH //.
  destruct s; [|done]. by rw decide_False.
Qed.

Lemma join_not_in sep c ps : c ≠ sep → Forall (λ p, c ∉ p) ps → c ∉ join sep ps.
Proof.
  intros Hc. induction 1 as [|p ps Hp Hps IH]; [set_solver|]. destruct ps as [|p' ps]; [done|].
  change (join sep (p :: p' :: ps)) with (p ++ sep :: join sep (p' :: ps)).
  rw not_elem_of_app not_elem_of_cons. done.
Qed.

(** ** Lemmas: digits *)

Lemma undigits_acc base ds acc :
  foldl (λ acc d, acc * base + d) acc ds = acc * base ^ length ds + undigits base ds.
Proof.
  rw /undigits. revert acc. induction ds as [|d ds IH]; intros acc; cbn [foldl length].
  - rw Z.pow_0_r. lia.
  - rw IH (IH (0 * base + d)) Nat2Z.inj_succ. rewrite -> Z.pow_succ_r by lia. lia.
Qed.

Lemma undigits_snoc base ds d : undigits base (ds ++ [d]) = undigits base ds * base + d.
Proof. by rw /undigits foldl_app. Qed.

Section digits_lemmas.
Context (base : Z) (Hbase : 2 ≤ base).

Lemma digits_value (fuel : nat) n : 0 ≤ n < base ^ fuel → undigits base (digits fuel base n) = n.
Proof.
  revert n. induction fuel as [|fuel IH]; intros n Hn; [rw Z.pow_0_r in Hn; rw /undigits /=; lia|].
  rw Nat2Z.inj_succ in Hn. rewrite -> Z.pow_succ_r in Hn by lia. simpl. case: Z.ltb_spec => Hlt.
  - rw /undigits /=. lia.
  - rw undigits_snoc IH; [rw Z.mul_comm; symmetry; apply Z.div_mod; lia|].
    split; [apply Z.div_pos; lia|apply Z.div_lt_upper_bound; lia].
Qed.

Lemma digits_range (fuel : nat) n : 0 ≤ n → Forall (λ d, 0 ≤ d < base) (digits fuel base n).
Proof.
  revert n. induction fuel as [|fuel IH]; intros n Hn; simpl; [done|]. case: Z.ltb_spec => Hlt.
  - by apply Forall_singleton.
  - apply Forall_app. split; [apply IH, Z.div_pos; lia|].
    apply Forall_singleton, Z.mod_pos_bound. lia.
Qed.

Lemma digits_length (fuel k : nat) n :
  0 ≤ n < base ^ k → (0 < k ≤ fuel)%nat → (1 ≤ length (digits fuel base n) ≤ k)%nat.
Proof.
  revert k n. induction fuel as [|fuel IH]; intros k n Hn Hk; [lia|]. simpl.
  case: Z.ltb_spec => Hlt; simpl; [lia|]. rw length_app /=.
  destruct k as [|[|k]]; [lia|rw Z.pow_1_r in Hn; lia|].
  rw (Nat2Z.inj_succ (S k)) in Hn. rewrite -> Z.pow_succ_r in Hn by lia.
  assert (0 ≤ n / base < base ^ S k).
  { split; [apply Z.div_pos; lia|apply Z.div_lt_upper_bound; lia]. }
  specialize (IH (S k) (n / base) H). lia.
Qed.

(** No leading zero. *)
Lemma digits_head (fuel : nat) n d ds :
  0 ≤ n < base ^ fuel → digits fuel base n = d :: ds → ds ≠ [] → d ≠ 0.
Proof.
  revert n ds. induction fuel as [|fuel IH]; intros n ds Hn; simpl; [done|].
  rw Nat2Z.inj_succ in Hn. rewrite -> Z.pow_succ_r in Hn by lia.
  case: Z.ltb_spec => Hlt; [by intros [= <- <-]|].
  assert (0 ≤ n / base < base ^ fuel) as Hq.
  { split; [apply Z.div_pos; lia|apply Z.div_lt_upper_bound; lia]. }
  destruct (digits fuel base (n / base)) as [|d' ds'] eqn:E.
  - assert (fuel = O) as ->.
    { destruct fuel as [|fuel]; [done|]. exfalso. simpl in E. case_match; [done|].
      by destruct (digits fuel base (n / base / base)). }
    rw Z.pow_0_r in Hq. assert (1 ≤ n / base) by (apply Z.div_le_lower_bound; lia). lia.
  - simpl. intros [= <- <-] _. destruct ds' as [|d'' ds']; [|by eapply IH].
    pose proof (digits_value fuel (n / base) Hq) as Hv. rw E /undigits /= in Hv.
    assert (1 ≤ n / base) by (apply Z.div_le_lower_bound; lia). lia.
Qed.
End digits_lemmas.

Lemma byte_Z_digit_char d : 0 ≤ d < 36 →
  byte_Z (digit_char d) = if d <? 10 then 48 + d else 87 + d.
Proof. intros Hd. rw /digit_char. case: Z.ltb_spec => ?; rw byte_Z_Z_byte Z.mod_small //; lia. Qed.

Lemma to_digit_char base d : 0 ≤ d < base → base ≤ 36 → to_digit base (digit_char d) = Some d.
Proof.
  intros Hd Hb. rw /to_digit byte_Z_digit_char; [|lia].
  repeat (case: Z.ltb_spec || case: Z.leb_spec || simpl); intros; try lia; f_equal; lia.
Qed.

(** ** Lemmas: printing and parsing numbers *)

Lemma foldl_digits_nonneg base acc ds :
  0 ≤ base → 0 ≤ acc → Forall (λ d, 0 ≤ d) ds → 0 ≤ foldl (λ acc d, acc * base + d) acc ds.
Proof.
  intros Hb Hacc Hds. revert acc Hacc. induction Hds as [|d ds Hd _ IH]; intros acc Hacc; [done|].
  simpl. apply IH. nia.
Qed.

Lemma parse_digits_chars max acc ds :
  Forall (λ d, 0 ≤ d < 10) ds → 0 ≤ acc →
  foldl (λ acc d, acc * 10 + d) acc ds ≤ max →
  parse_digits max acc (digit_char <$> ds) = Some (foldl (λ acc d, acc * 10 + d) acc ds).
Proof.
  intros Hds. revert acc. induction Hds as [|d ds Hd Hds IH]; intros acc Hacc Hmax; [done|].
  cbn [fmap list_fmap parse_digits foldl] in *. rw (to_digit_char 10) //. simpl.
  assert (acc * 10 + d ≤ foldl (λ acc d, acc * 10 + d) (acc * 10 + d) ds) as Hle.
  { rw undigits_acc. pose proof (undigits_acc 10 ds 0) as H0.
    assert (0 ≤ undigits 10 ds).
    { apply foldl_digits_nonneg; [lia..|]. eapply Forall_impl; [done|]. simpl. lia. }
    assert (1 ≤ 10 ^ length ds) by (apply (Z.pow_le_mono_r 10 0); lia). nia. }
  case: Z.leb_spec; [|lia]. intros _. apply IH; [lia|done].
Qed.

(** The characters of a number. *)
Lemma show_radix_chars base n c :
  2 ≤ base → 0 ≤ n → c ∈ show_radix base n → ∃ d, 0 ≤ d < base ∧ c = digit_char d.
Proof.
  intros Hb Hn (d & -> & Hd)%list_elem_of_fmap. exists d. split; [|done].
  pose proof (digits_range base Hb 64 n Hn) as Hr. rw Forall_forall in Hr. by apply Hr.
Qed.

Lemma show_radix_not_in base n c :
  2 ≤ base ≤ 16 → 0 ≤ n → byte_Z c < 48 ∨ 57 < byte_Z c < 97 ∨ 102 < byte_Z c →
  c ∉ show_radix base n.
Proof.
  intros Hb Hn Hc Hin. apply show_radix_chars in Hin as (d & Hd & ->); [|lia..].
  rw byte_Z_digit_char in Hc; [|lia]. revert Hc. case: Z.ltb_spec; lia.
Qed.

Lemma show_dec_cons n :
  0 ≤ n < 10 ^ 64 → ∃ d ds, 0 ≤ d < 10 ∧ show_dec n = digit_char d :: ds.
Proof.
  intros Hn. pose proof (digits_length 10 ltac:(lia) 64 64 n Hn ltac:(lia)) as Hl.
  pose proof (digits_range 10 ltac:(lia) 64 n ltac:(lia)) as Hr. rw /show_dec /show_radix.
  destruct (digits 64 10 n) as [|d ds]; [simpl in Hl; lia|].
  apply Forall_cons in Hr as [Hd _]. eexists _, _. done.
Qed.

Lemma parse_uint_show_dec max n :
  0 ≤ n ≤ max → max < 10 ^ 64 → parse_uint max (show_dec n) = Some n.
Proof.
  intros Hn Hmax. destruct (show_dec_cons n) as (d & ds & Hd & Hs); [lia|].
  rw /parse_uint Hs. rewrite -> decide_False; last first.
  { intros Heq. apply (f_equal byte_Z) in Heq. rw byte_Z_digit_char in Heq; [|lia].
    revert Heq. rw byte_Z_Z_byte. case: Z.ltb_spec; [|lia]. intros _.
    change (43 mod 256) with 43. lia. }
  rw -Hs /show_dec /show_radix. pose proof (digits_value 10 ltac:(lia) 64 n ltac:(lia)) as Hv.
  rw /undigits in Hv. rw parse_digits_chars ?Hv //; [|lia..]. apply digits_range; lia.
Qed.

Lemma to_digit_range radix c d : to_digit radix c = Some d → 0 ≤ d < radix.
Proof.
  rw /to_digit. pose proof (byte_Z_range c).
  destruct ((48 <=? byte_Z c) && _) eqn:E1; [|destruct ((97 <=? byte_Z c) && _) eqn:E2;
    [|destruct ((65 <=? byte_Z c) && _) eqn:E3]]; case: Z.ltb_spec; intros Hlt; try done; intros [= <-];
    repeat match goal with H : _ && _ = true |- _ => apply andb_true_iff in H as [?%Z.leb_le ?%Z.leb_le] end;
    lia.
Qed.

Lemma parse_digits_range max acc s n : 0 ≤ acc ≤ max → parse_digits max acc s = Some n → 0 ≤ n ≤ max.
Proof.
  revert acc. induction s as [|c s IH]; intros acc Ha; simpl; [by intros [= <-]|].
  intros (d & Hd & H)%bind_Some. revert H. case: Z.leb_spec; [|done]. intros Hle. apply IH.
  apply to_digit_range in Hd. lia.
Qed.

Lemma parse_uint_range max s n : 0 ≤ max → parse_uint max s = Some n → 0 ≤ n ≤ max.
Proof.
  intros Hm. rw /parse_uint. destruct s as [|c s]; [done|]. case_decide.
  - destruct s; [done|]. by apply parse_digits_range.
  - by apply parse_digits_range.
Qed.

Lemma parse_u16_show n : is_u16 n → parse_u16 (show_dec n) = Some n.
Proof. unfold_int. intros. apply parse_uint_show_dec; unfold_int; lia. Qed.

Lemma parse_u64_show n : is_u64 n → parse_u64 (show_dec n) = Some n.
Proof. unfold_int. intros. apply parse_uint_show_dec; unfold_int; lia. Qed.

(** ASCII text without upper-case letters survives the change of case. *)
Lemma ascii_upper_lower c : byte_in 97 122 c = false → ascii_upper (ascii_lower c) = c.
Proof.
  rw /ascii_upper /ascii_lower. intros Hc. destruct (byte_in 65 90 c) eqn:Hu; [|by rw Hc].
  rw /byte_in in Hu. apply andb_true_iff in Hu as [?%Z.leb_le ?%Z.leb_le].
  rw /byte_in byte_Z_Z_byte Z.mod_small; [|lia].
  rewrite -> (proj2 (Z.leb_le 97 _)), (proj2 (Z.leb_le _ 122)) by lia. simpl.
  rw Z.add_simpl_r. apply Z_byte_byte_Z.
Qed.

Lemma is_ascii_not_in s : (∀ c, 127 < byte_Z c → c ∉ s) → is_ascii s = true.
Proof.
  intros H. apply forallb_forall. intros c Hc%list_elem_of_In. rw /byte_in.
  pose proof (byte_Z_range c). apply andb_true_iff. split; apply Z.leb_le; [lia|].
  destruct (decide (127 < byte_Z c)) as [Hlt|]; [|lia]. by destruct (H c Hlt).
Qed.

Lemma is_ascii_byte s c : is_ascii s = true → c ∈ s → byte_Z c ≤ 127.
Proof.
  rw /is_ascii forallb_forall. intros H Hc. apply list_elem_of_In in Hc. specialize (H c Hc).
  rw /byte_in in H. apply andb_true_iff in H as [_ H%Z.leb_le]. done.
Qed.

Lemma utf8_valid_ascii s : is_ascii s = true → utf8_valid s = true.
Proof.
  induction s as [|c s IH]; [done|]. rw /is_ascii. cbn [forallb]. intros [Hc Hs]%andb_true_iff.
  cbn [utf8_valid]. rw Hc. by apply IH.
Qed.

Lemma show_radix_eq base n : show_radix base n = digit_char <$> digits 64 base n.
Proof. done. Qed.

(** ** UTF-8 and splitting *)

Lemma byte_in_spec lo hi b : byte_in lo hi b = true ↔ lo ≤ byte_Z b ≤ hi.
Proof. rw /byte_in andb_true_iff !Z.leb_le. lia. Qed.

Lemma utf8_valid_app_ascii c p s :
  byte_Z c ≤ 127 → utf8_valid (p ++ c :: s) = true → utf8_valid p = true ∧ utf8_valid s = true.
Proof.
  intros Hc. pose proof (byte_Z_range c).
  assert (∀ lo hi, 128 ≤ lo → byte_in lo hi c = false) as Hno.
  { intros lo hi Hlo. apply not_true_is_false. rw byte_in_spec. lia. }
  assert (∀ (b : bool) lo lo' hi, 128 ≤ lo → 128 ≤ lo' → byte_in (if b then lo else lo') hi c = false) as Hno'.
  { intros []; auto. }
  induction p as [p IH] using (induction_ltof1 _ length). rw /ltof in IH.
  destruct p as [|x1 p]; cbn [app utf8_valid].
  { assert (byte_in 0 127 c = true) as -> by (rw byte_in_spec; lia). auto. }
  destruct (byte_in 0 127 x1); [apply IH; simpl; lia|].
  destruct p as [|x2 p]; cbn [app].
  { destruct (byte_in 194 223 x1); [by rw Hno|]. destruct s as [|y1 s]; [done|].
    destruct (byte_in 224 239 x1); [by rw Hno'|]. destruct s as [|y2 s]; [done|].
    by rw Hno' // andb_false_r. }
  destruct (byte_in 194 223 x1).
  { intros [-> Hv]%andb_true_iff. simpl. apply IH; [simpl; lia|done]. }
  destruct p as [|x3 p]; cbn [app].
  { destruct (byte_in 224 239 x1); [by rw (Hno 128) // andb_false_r|].
    destruct s as [|y1 s]; [done|]. by rw (Hno 128) // andb_false_r. }
  destruct (byte_in 224 239 x1).
  { intros [Hb Hv]%andb_true_iff. rw Hb. simpl. apply IH; [simpl; lia|done]. }
  destruct p as [|x4 p]; cbn [app].
  { by rw (Hno 128) // andb_false_r. }
  intros [Hb Hv]%andb_true_iff. rw Hb. simpl. apply IH; [simpl; lia|done].
Qed.

Lemma utf8_valid_split c s :
  byte_Z c ≤ 127 → utf8_valid s = true → Forall (λ p, utf8_valid p = true) (split c s).
Proof.
  intros Hc. induction s as [s IH] using (induction_ltof1 _ length). rw /ltof in IH. intros Hv.
  destruct (decide (c ∈ s)) as [Hin|Hin]; [|rw split_no_sep //; by repeat constructor].
  apply list_elem_of_split_l in Hin as (p & s' & -> & Hp).
  apply utf8_valid_app_ascii in Hv as [Hvp Hvs]; [|done]. rw split_app_sep //. constructor; [done|].
  apply IH; [rw length_app /=; lia|done].
Qed.

Lemma split_length c s : Forall (λ p, (length p ≤ length s)%nat) (split c s).
Proof.
  induction s as [s IH] using (induction_ltof1 _ length). rw /ltof in IH.
  destruct (decide (c ∈ s)) as [Hin|Hin]; [|rw split_no_sep //; by repeat constructor].
  apply list_elem_of_split_l in Hin as (p & s' & -> & Hp). rw split_app_sep //.
  constructor; [rw length_app; lia|]. eapply Forall_impl; [apply IH; rw length_app /=; lia|].
  intros q Hq. rw length_app /=. simpl in Hq. lia.
Qed.

#[global] Opaque show_radix digits.
#[global] Arguments parse_uint : simpl never.
#[global] Arguments split : simpl never.

(** ** Order *)

(** [Ord::cmp] of byte slices. *)
Fixpoint bytes_cmp (a b : bytes) : comparison :=
  match a, b with
  | [], [] => Eq
  | [], _ => Lt
  | _, [] => Gt
  | x :: a, y :: b => match byte_Z x ?= byte_Z y with Eq => bytes_cmp a b | c => c end
  end.

Lemma bytes_cmp_opp a b : bytes_cmp b a = CompOpp (bytes_cmp a b).
Proof.
  revert b. induction a as [|x a IH]; intros [|y b]; try done. simpl. rw Z.compare_antisym.
  destruct (byte_Z x ?= byte_Z y); simpl; [apply IH|done..].
Qed.

Lemma bytes_cmp_eq a b : bytes_cmp a b = Eq ↔ a = b.
Proof.
  revert b. induction a as [|x a IH]; intros [|y b]; try done. simpl. case: Z.compare_spec => Hc.
  - rw IH. split; [intros ->|by intros [= _ ->]]. by rw (byte_Z_inj x y Hc).
  - split; [done|]. intros [= -> ->]. lia.
  - split; [done|]. intros [= -> ->]. lia.
Qed.

Lemma bytes_cmp_trans a b c : bytes_cmp a b = Lt → bytes_cmp b c = Lt → bytes_cmp a c = Lt.
Proof.
  revert b c. induction a as [|x a IH]; intros [|y b] [|z c]; try done. simpl.
  case: (Z.compare_spec (byte_Z x) (byte_Z y)) => H1; [|intros _|done];
    (case: (Z.compare_spec (byte_Z y) (byte_Z z)) => H2; [|intros _|done]).
  - rw H1 H2 Z.compare_refl. apply IH.
  - by rewrite -> (proj2 (Z.compare_lt_iff _ _)) by lia.
  - by rewrite -> (proj2 (Z.compare_lt_iff _ _)) by lia.
  - by rewrite -> (proj2 (Z.compare_lt_iff _ _)) by lia.
Qed.
