(* ===== verification/StdNet.v ===== *)
(** * IP addresses: [std::net]

    The parsers and printers of [Ipv4Addr], [Ipv6Addr] and [IpAddr] that the
    multiaddr and PROXY-protocol code calls, as the standard library defines
    them, with their round trips. Octets and segments are integers. *)
From S2P Require Import Prelude Text.

Record Ipv4Addr := mkIp4 { oct_a : Z; oct_b : Z; oct_c : Z; oct_d : Z }.

Definition octets (a : Ipv4Addr) : list Z := [oct_a a; oct_b a; oct_c a; oct_d a].

(** Eight 16-bit segments. *)
Record Ipv6Addr := mkIp6 { segments : list Z }.

Inductive IpAddr := V4 (a : Ipv4Addr) | V6 (a : Ipv6Addr).

Record SocketAddr := mkSocketAddr { ip : IpAddr; port : Z }.

Definition ip4_wf (a : Ipv4Addr) : Prop := Forall is_u8 (octets a).
Definition ip6_wf (a : Ipv6Addr) : Prop := length (segments a) = 8%nat ∧ Forall is_u16 (segments a).
Definition ip_wf (a : IpAddr) : Prop :=
  match a with V4 a => ip4_wf a | V6 a => ip6_wf a end.

#[global] Instance Ipv4Addr_eq_dec : EqDecision Ipv4Addr.
Proof. solve_decision. Defined.
#[global] Instance Ipv6Addr_eq_dec : EqDecision Ipv6Addr.
Proof. solve_decision. Defined.
#[global] Instance IpAddr_eq_dec : EqDecision IpAddr.
Proof. solve_decision. Defined.
#[global] Instance SocketAddr_eq_dec : EqDecision SocketAddr.
Proof. solve_decision. Defined.

(** ** Parsing *)

Abbreviation colon := (chr 58).
Abbreviation dot := (chr 46).

Definition read_given_char (c : byte) (s : bytes) : option (unit * bytes) :=
  match s with
  | x :: s => if decide (x = c) then Some ((), s) else None
  | [] => None
  end.

(** The longest prefix of digits. *)
Fixpoint span_digits (radix : Z) (s : bytes) : list Z * bytes :=
  match s with
  | [] => ([], [])
  | c :: s' =>
      match to_digit radix c with
      | Some d => let '(ds, r) := span_digits radix s' in (d :: ds, r)
      | None => ([], s)
      end
  end.

Definition read_number (radix : Z) (max_digits : nat) (allow_zero_prefix : bool) (max : Z)
    (s : bytes) : option (Z * bytes) :=
  let '(ds, rest) := span_digits radix s in
  let n := undigits radix ds in
  if bool_decide (length ds = 0%nat) || bool_decide (max_digits < length ds)%nat then None
  else if negb allow_zero_prefix && bool_decide (head ds = Some 0) && bool_decide (1 < length ds)%nat
  then None
  else if n <=? max then Some (n, rest) else None.

Definition read_separator {A} (sep : byte) (index : nat) (inner : bytes → option (A * bytes))
    (s : bytes) : option (A * bytes) :=
  match index with
  | O => inner s
  | S _ => '(_, s) ← read_given_char sep s; inner s
  end.

Definition read_octet (index : nat) : bytes → option (Z * bytes) :=
  read_separator dot index (read_number 10 3 false u8_max).

Definition read_ipv4 (s : bytes) : option (Ipv4Addr * bytes) :=
  '(a, s) ← read_octet 0 s;
  '(b, s) ← read_octet 1 s;
  '(c, s) ← read_octet 2 s;
  '(d, s) ← read_octet 3 s;
  Some (mkIp4 a b c d, s).

(** [read_groups] for the [slots] groups from index [index] on. *)
Fixpoint read_groups (slots index : nat) (s : bytes) : list Z * bool * bytes :=
  match slots with
  | O => ([], false, s)
  | S slots' =>
      match (if bool_decide (slots' = 0%nat) then None else read_separator colon index read_ipv4 s) with
      | Some (a, s') => ([oct_a a * 256 + oct_b a; oct_c a * 256 + oct_d a], true, s')
      | None =>
          match read_separator colon index (read_number 16 4 true u16_max) s with
          | Some (g, s') => let '(gs, v4, s'') := read_groups slots' (S index) s' in (g :: gs, v4, s'')
          | None => ([], false, s)
          end
      end
  end.

Definition read_ipv6 (s : bytes) : option (Ipv6Addr * bytes) :=
  let '(hd, v4, s) := read_groups 8 0 s in
  if bool_decide (length hd = 8%nat) then Some (mkIp6 hd, s)
  else if (v4 : bool) then None
  else
    '(_, s) ← read_given_char colon s;
    '(_, s) ← read_given_char colon s;
    let limit := (8 - (length hd + 1))%nat in
    let '(tl, _, s) := read_groups limit 0 s in
    Some (mkIp6 (hd ++ replicate (8 - length tl - length hd) 0 ++ tl), s).

(** [parse_with]: the whole input must be consumed. *)
Definition parse_with {A} (inner : bytes → option (A * bytes)) (s : bytes) : option A :=
  match inner s with Some (a, []) => Some a | _ => None end.

(** [Ipv4Addr::from_str], [Ipv6Addr::from_str], [IpAddr::from_str]. *)
Definition parse_ip4 (s : bytes) : option Ipv4Addr :=
  if bool_decide (15 < length s)%nat then None else parse_with read_ipv4 s.
Definition parse_ip6 (s : bytes) : option Ipv6Addr := parse_with read_ipv6 s.
Definition parse_ip (s : bytes) : option IpAddr :=
  parse_with (λ s, match read_ipv4 s with
                   | Some (a, s) => Some (V4 a, s)
                   | None => '(a, s) ← read_ipv6 s; Some (V6 a, s)
                   end) s.

(** ** Printing *)

Definition show_ip4 (a : Ipv4Addr) : bytes := join dot (show_dec <$> octets a).

(** The groups separated by colons, with a colon first unless [first]. *)
Fixpoint show_groups (first : bool) (gs : list Z) : bytes :=
  match gs with
  | [] => []
  | g :: gs => (if first then [] else [colon]) ++ show_hex g ++ show_groups false gs
  end.

(** The first longest run of zero segments: [(start, length)]. *)
Record ZeroRun := mkRun { run_start : nat; run_len : nat }.
Fixpoint longest_zeros (i : nat) (cur best : ZeroRun) (segs : list Z) : ZeroRun :=
  match segs with
  | [] => best
  | s :: segs =>
      if s =? 0 then
        let cur := mkRun (if bool_decide (run_len cur = 0%nat) then i else run_start cur) (S (run_len cur)) in
        longest_zeros (S i) cur (if bool_decide (run_len best < run_len cur)%nat then cur else best) segs
      else longest_zeros (S i) (mkRun 0 0) best segs
  end.

Definition to_ipv4_mapped (a : Ipv6Addr) : option Ipv4Addr :=
  match segments a with
  | [a; b; c; d; e; f; g; h] =>
      if bool_decide ([a; b; c; d; e; f] = [0; 0; 0; 0; 0; 65535]) then
        Some (mkIp4 (g / 256) (g mod 256) (h / 256) (h mod 256))
      else None
  | _ => None
  end.

Definition show_ip6 (a : Ipv6Addr) : bytes :=
  match to_ipv4_mapped a with
  | Some v4 => str "::ffff:" ++ show_ip4 v4
  | None =>
      let z := longest_zeros 0 (mkRun 0 0) (mkRun 0 0) (segments a) in
      if bool_decide (1 < run_len z)%nat then
        show_groups true (take (run_start z) (segments a)) ++ [colon; colon] ++
        show_groups true (drop (run_start z + run_len z) (segments a))
      else show_groups true (segments a)
  end.

(** ** Reading back a number *)

(** What may follow a number without being read as a part of it. *)
Definition ends_number (radix : Z) (rest : bytes) : Prop :=
  match rest with [] => True | c :: _ => to_digit radix c = None end.

Lemma span_digits_chars radix ds rest :
  radix ≤ 36 → Forall (λ d, 0 ≤ d < radix) ds → ends_number radix rest →
  span_digits radix ((digit_char <$> ds) ++ rest) = (ds, rest).
Proof.
  intros Hr Hds Hend. induction Hds as [|d ds Hd _ IH].
  - destruct rest as [|c rest]; [done|]. simpl in *. by rw Hend.
  - cbn [fmap list_fmap app span_digits]. rw to_digit_char //. by rw IH.
Qed.

Lemma read_number_show (radix : Z) (k : nat) (zp : bool) max n rest :
  2 ≤ radix ≤ 16 → (0 < k ≤ 64)%nat → 0 ≤ n < radix ^ k → n ≤ max → ends_number radix rest →
  read_number radix k zp max (show_radix radix n ++ rest) = Some (n, rest).
Proof.
  intros Hr Hk Hn Hmax Hend.
  assert (0 ≤ n < radix ^ 64%nat) as Hn64.
  { split; [lia|]. eapply Z.lt_le_trans; [apply Hn|]. apply Z.pow_le_mono_r; lia. }
  pose proof (digits_length radix ltac:(lia) 64 k n Hn Hk) as Hl.
  pose proof (digits_range radix ltac:(lia) 64 n ltac:(lia)) as Hds.
  pose proof (digits_value radix ltac:(lia) 64 n Hn64) as Hv.
  pose proof (λ d ds, digits_head radix ltac:(lia) 64 n d ds Hn64) as Hh.
  rw /read_number show_radix_eq. remember (digits 64 radix n) as ds eqn:Eds. clear Eds.
  rw span_digits_chars //; [|lia]. rw Hv. rewrite -> !bool_decide_eq_false_2 by lia. simpl.
  rewrite -> (proj2 (Z.leb_le n max)) by done.
  destruct (negb zp && _ && bool_decide (1 < _)%nat) eqn:E; [|done]. exfalso.
  apply andb_true_iff in E as [[_ Hz%bool_decide_eq_true]%andb_true_iff H1%bool_decide_eq_true].
  destruct ds as [|d ds]; [done|]. injection Hz as ->.
  eapply (Hh 0 ds); [done|by destruct ds; [simpl in H1; lia|]|done].
Qed.

Lemma read_octet_first n rest :
  is_u8 n → ends_number 10 rest → read_octet 0 (show_dec n ++ rest) = Some (n, rest).
Proof. unfold_int. intros Hn Hend. apply read_number_show; unfold_int; try done; lia. Qed.

Lemma read_octet_next i n rest :
  is_u8 n → ends_number 10 rest → read_octet (S i) (dot :: show_dec n ++ rest) = Some (n, rest).
Proof. apply read_octet_first. Qed.

Lemma read_group_show n rest :
  is_u16 n → ends_number 16 rest →
  read_number 16 4 true u16_max (show_hex n ++ rest) = Some (n, rest).
Proof. unfold_int. intros Hn Hend. apply read_number_show; unfold_int; try done; lia. Qed.

Lemma show_ip4_text a b c d rest :
  show_ip4 (mkIp4 a b c d) ++ rest =
  show_dec a ++ dot :: show_dec b ++ dot :: show_dec c ++ dot :: show_dec d ++ rest.
Proof. rw /show_ip4 /=. by rw -!app_assoc /= -!app_assoc /= -!app_assoc. Qed.

Lemma read_ipv4_show a rest :
  ip4_wf a → ends_number 10 rest → read_ipv4 (show_ip4 a ++ rest) = Some (a, rest).
Proof.
  destruct a as [a b c d]. rw /ip4_wf show_ip4_text. intros Hwf Hend.
  apply Forall_cons in Hwf as [Ha Hwf]. apply Forall_cons in Hwf as [Hb Hwf].
  apply Forall_cons in Hwf as [Hc Hwf]. apply Forall_cons in Hwf as [Hd _].
  rw /read_ipv4.
  rewrite -> (read_octet_first a) by done. cbn [mbind option_bind].
  rewrite -> (read_octet_next _ b) by done. cbn [mbind option_bind].
  rewrite -> (read_octet_next _ c) by done. cbn [mbind option_bind].
  by rewrite -> (read_octet_next _ d) by done.
Qed.

Lemma span_digits_prefix radix s ds r :
  span_digits radix s = (ds, r) → ∃ p, s = p ++ r ∧ Forall (λ c, is_Some (to_digit radix c)) p.
Proof.
  revert ds. induction s as [|c s IH]; simpl; intros ds H; [injection H as <- <-; by exists []|].
  destruct (to_digit radix c) as [d|] eqn:Hd.
  - destruct (span_digits radix s) as [ds' r'] eqn:E. injection H as <- <-.
    destruct (IH _ eq_refl) as (p & -> & Hp). exists (c :: p). split; [done|].
    apply Forall_cons. split; [by rw Hd; eauto|done].
  - injection H as <- <-. by exists [].
Qed.

Lemma read_number_prefix radix k zp max s n r :
  read_number radix k zp max s = Some (n, r) →
  ∃ p, s = p ++ r ∧ Forall (λ c, is_Some (to_digit radix c)) p.
Proof.
  rw /read_number. destruct (span_digits radix s) as [ds r'] eqn:E.
  repeat case_match; try done. intros [= _ <-]. by eapply span_digits_prefix.
Qed.

(** An IPv4 text has a dot after its first digits. *)
Lemma read_ipv4_dot s x :
  read_ipv4 s = Some x → ∃ p r, s = p ++ dot :: r ∧ Forall (λ c, is_Some (to_digit 10 c)) p.
Proof.
  rw /read_ipv4 /read_octet /=. intros ([n r] & Hn & H)%bind_Some.
  apply read_number_prefix in Hn as (p & -> & Hp).
  apply bind_Some in H as ([m r'] & Hm & _). apply bind_Some in Hm as ([[] r''] & Hc & _).
  rw /read_given_char in Hc. destruct r as [|c r]; [done|]. case_decide; [|done]. subst.
  by exists p, r.
Qed.

Lemma ipv4_not_group g rest :
  is_u16 g → (rest = [] ∨ ∃ r, rest = colon :: r) → read_ipv4 (show_hex g ++ rest) = None.
Proof.
  intros Hg Hrest. destruct (read_ipv4 (show_hex g ++ rest)) as [x|] eqn:E; [|done]. exfalso.
  apply read_ipv4_dot in E as (p & r & Heq & Hp).
  assert (∀ c, c ∈ p → c ≠ colon) as Hcol.
  { intros c Hc ->. rw Forall_forall in Hp. specialize (Hp _ Hc). by vm_compute in Hp; destruct Hp. }
  assert (dot ∉ show_hex g) as Hdot.
  { apply show_radix_not_in; [lia|unfold_int; lia|]. left. done. }
  apply app_eq_inv in Heq as [(k & Hk & Hr)|(k & Hk & Hr)].
  - destruct k as [|c k]; simpl in Hr.
    + by destruct Hrest as [->|[? ->]].
    + injection Hr as <- _. apply Hdot. rw Hk. set_solver.
  - destruct k as [|c k]; simpl in Hr.
    + by destruct Hrest as [->|[? ->]].
    + destruct Hrest as [->|[? ->]]; [done|]. injection Hr as <- _. apply (Hcol colon); [|done].
      rw Hk. set_solver.
Qed.

(** Text after which [read_groups] stops. *)
Definition stops (rest : bytes) : Prop := rest = [] ∨ ∃ r, rest = colon :: colon :: r.

Lemma read_sep_stops {A} (inner : bytes → option (A * bytes)) i rest :
  (∀ r, inner (colon :: r) = None) → inner [] = None → stops rest →
  read_separator colon i inner rest = None.
Proof.
  intros H1 H2 [->|[r ->]]; destruct i; simpl; try done.
Qed.

Lemma read_sep_group {A} (inner : bytes → option (A * bytes)) i text :
  read_separator colon i inner ((if bool_decide (i = 0%nat) then [] else [colon]) ++ text) = inner text.
Proof. by destruct i. Qed.

Lemma show_groups_after gs rest :
  stops rest → let t := show_groups false gs ++ rest in t = [] ∨ ∃ r, t = colon :: r.
Proof.
  intros Hs. destruct gs as [|g gs]; simpl; [|right; eauto].
  destruct Hs as [->|[r ->]]; eauto.
Qed.

Lemma ends_number_colon t : t = [] ∨ (∃ r, t = colon :: r) → ends_number 16 t.
Proof. by intros [->|[r ->]]. Qed.

Lemma read_groups_show slots i gs rest :
  Forall is_u16 gs → (length gs ≤ slots)%nat → stops rest →
  read_groups slots i (show_groups (bool_decide (i = 0%nat)) gs ++ rest) = (gs, false, rest).
Proof.
  intros Hgs. revert slots i. induction Hgs as [|g gs Hg Hgs IH]; intros slots i Hlen Hs; simpl.
  - destruct slots as [|slots]; [done|]. simpl.
    rw (read_sep_stops read_ipv4) // (read_sep_stops (read_number 16 4 true u16_max)) //.
    by destruct (bool_decide (slots = 0%nat)).
  - destruct slots as [|slots]; simpl in Hlen; [lia|]. cbn [read_groups].
    pose proof (show_groups_after gs rest Hs) as Hafter. simpl in Hafter.
    rw -!app_assoc !read_sep_group ipv4_not_group //.
    rw (read_group_show _ _ Hg); [|by apply ends_number_colon].
    rw (_ : (if bool_decide (slots = 0%nat) then None else None) = None :> option (Ipv4Addr * bytes)); [|by destruct (bool_decide (slots = 0%nat))].
    pose proof (IH slots (S i) ltac:(lia) Hs) as IH'. simpl in IH'. by rw IH'.
Qed.

(** ** The longest run of zeros *)

(** The run lies inside the first [i] segments and holds only zeros. *)
Definition zero_run (segs : list Z) (i : nat) (z : ZeroRun) : Prop :=
  (run_start z + run_len z ≤ i)%nat ∧
  ∀ j, (run_start z ≤ j < run_start z + run_len z)%nat → segs !! j = Some 0.

Lemma longest_zeros_run pre segs cur best :
  zero_run (pre ++ segs) (length pre) best → zero_run (pre ++ segs) (length pre) cur →
  (run_len cur ≠ 0%nat → (run_start cur + run_len cur = length pre)%nat) →
  zero_run (pre ++ segs) (length (pre ++ segs)) (longest_zeros (length pre) cur best segs).
Proof.
  revert pre cur best. induction segs as [|s segs IH]; intros pre cur best Hb Hc He; simpl.
  - by rw app_nil_r in Hb *.
  - rw (cons_middle s pre segs) app_assoc in Hb, Hc *.
    assert (length (pre ++ [s]) = S (length pre)) as Hl by (rw length_app /=; lia).
    rw -Hl. case: Z.eqb_spec => Hs.
    + assert (zero_run ((pre ++ [s]) ++ segs) (length (pre ++ [s]))
        (mkRun (if bool_decide (run_len cur = 0%nat) then length pre else run_start cur) (S (run_len cur)))) as Hcur.
      { destruct Hc as [Hc1 Hc2]. split; simpl.
        - rw Hl. case_bool_decide; [lia|]. specialize (He ltac:(done)). lia.
        - intros j Hj. destruct (decide (j = length pre)) as [->|Hne].
          + rw lookup_app_l; [|lia]. rw lookup_app_r // Nat.sub_diag /=. by subst.
          + apply Hc2. revert Hj. case_bool_decide; [lia|]. specialize (He ltac:(done)). lia. }
      apply IH; [|done|].
      * destruct (bool_decide (run_len best < _)%nat); [done|]. destruct Hb as [Hb1 Hb2]. split; [lia|done].
      * simpl. rw Hl. case_bool_decide as H0; [lia|]. specialize (He H0). lia.
    + apply IH; [|by split; simpl; [lia|intros; lia]|done]. destruct Hb as [Hb1 Hb2]. split; [lia|done].
Qed.

Lemma longest_zeros_spec segs :
  let z := longest_zeros 0 (mkRun 0 0) (mkRun 0 0) segs in
  (run_start z + run_len z ≤ length segs)%nat ∧
  segs = take (run_start z) segs ++ replicate (run_len z) 0 ++ drop (run_start z + run_len z) segs.
Proof.
  intros z. destruct (longest_zeros_run [] segs (mkRun 0 0) (mkRun 0 0)) as [H1 H2]; simpl;
    [split; simpl; [lia|intros; lia]..|done|].
  change (longest_zeros (length []) _ _ segs) with z in *. simpl in H1, H2. split; [done|].
  apply list_eq. intros j. destruct (decide (j < run_start z)%nat).
  - rw lookup_app_l; [|rw length_take; lia]. by rw lookup_take_lt.
  - rw lookup_app_r; [|rw length_take; lia]. rw length_take Nat.min_l; [|lia].
    destruct (decide (j < run_start z + run_len z)%nat).
    + rw lookup_app_l; [|rw length_replicate; lia]. rw lookup_replicate_2; [|lia]. apply H2. lia.
    + rw lookup_app_r; [|rw length_replicate; lia]. rw length_replicate lookup_drop. f_equal. lia.
Qed.

(** ** Round trips *)

Lemma parse_ip4_show a : ip4_wf a → parse_ip4 (show_ip4 a) = Some a.
Proof.
  intros Hwf. pose proof (read_ipv4_show a [] Hwf I) as Hr. rw app_nil_r in Hr.
  assert (length (show_ip4 a) ≤ 15)%nat as Hlen.
  { destruct a as [a b c d]. rw -(app_nil_r (show_ip4 _)) show_ip4_text app_nil_r.
    assert (∀ n, n ∈ [a; b; c; d] → (length (show_dec n) ≤ 3)%nat) as Hn.
    { intros n Hin. rw /ip4_wf Forall_forall in Hwf. specialize (Hwf n Hin). unfold_int.
      rw /show_dec show_radix_eq length_fmap.
      pose proof (digits_length 10 ltac:(lia) 64 3 n ltac:(lia) ltac:(lia)). lia. }
    pose proof (Hn a ltac:(set_solver)). pose proof (Hn b ltac:(set_solver)).
    pose proof (Hn c ltac:(set_solver)). pose proof (Hn d ltac:(set_solver)).
    repeat (rewrite -> length_app || cbn [length]). lia. }
  rw /parse_ip4. rewrite -> bool_decide_eq_false_2 by lia. by rw /parse_with Hr.
Qed.

Lemma mapped_spec a v4 :
  ip6_wf a → to_ipv4_mapped a = Some v4 →
  ip4_wf v4 ∧ segments a = [0; 0; 0; 0; 0; 65535; oct_a v4 * 256 + oct_b v4; oct_c v4 * 256 + oct_d v4].
Proof.
  destruct a as [segs]. rw /to_ipv4_mapped /ip6_wf /=. intros [Hlen Hwf].
  do 8 (destruct segs as [|? segs]; [done|]). destruct segs; [|done]. case_bool_decide as Hz; [|done].
  intros [= <-]. injection Hz as -> -> -> -> -> ->.
  do 6 apply Forall_cons in Hwf as [_ Hwf]. apply Forall_cons in Hwf as [Hg Hwf].
  apply Forall_cons in Hwf as [Hh _]. unfold_int. split.
  - rw /ip4_wf /octets /=. repeat (apply Forall_cons; split); [..|done]; unfold_int;
      try (pose proof (Z.mod_pos_bound z5 256); pose proof (Z.mod_pos_bound z6 256); lia);
      (split; [apply Z.div_pos; lia|apply Z.lt_succ_r, Z.div_lt_upper_bound; lia]).
  - simpl. rw !(Z.mul_comm _ 256) -!Z.div_mod; [done|lia..].
Qed.

Lemma read_given_colon s : read_given_char colon (colon :: s) = Some ((), s).
Proof. done. Qed.

Lemma read_groups_mapped v4 :
  ip4_wf v4 →
  read_groups 7 0 (str "ffff:" ++ show_ip4 v4) =
  ([65535; oct_a v4 * 256 + oct_b v4; oct_c v4 * 256 + oct_d v4], true, []).
Proof.
  intros Hwf. assert (str "ffff:" = show_hex 65535 ++ [colon]) as -> by (vm_compute; done).
  rw -app_assoc. cbn [read_groups read_separator bool_decide]. rw ipv4_not_group //; [|by right; eexists].
  rewrite -> (read_group_show 65535) by done.
  rw -(app_nil_r (show_ip4 v4)). pose proof (read_ipv4_show v4 [] Hwf I) as Hr.
  cbn [read_groups read_separator app]. rw read_given_colon. cbn [mbind option_bind]. by rw Hr.
Qed.

Lemma stops_double_colon r : stops (colon :: colon :: r).
Proof. right. eauto. Qed.

Lemma read_ipv6_show a : ip6_wf a → read_ipv6 (show_ip6 a) = Some (a, []).
Proof.
  intros Hwf. rw /show_ip6. destruct (to_ipv4_mapped a) as [v4|] eqn:Hm.
  - destruct (mapped_spec a v4 Hwf Hm) as [H4 Hsegs].
    assert (str "::ffff:" = colon :: colon :: str "ffff:") as -> by done.
    pose proof (read_groups_show 8 0 [] (colon :: colon :: str "ffff:" ++ show_ip4 v4)
      ltac:(constructor) ltac:(simpl; lia) (stops_double_colon _)) as Hh. cbn [show_groups app] in Hh.
    rw /read_ipv6. cbn [app]. rw Hh. cbn [length bool_decide]. rewrite -> bool_decide_eq_false_2 by done.
    do 2 (rw read_given_colon; cbn [mbind option_bind length]).
    change (8 - (0 + 1))%nat with 7%nat. rw (read_groups_mapped v4 H4). destruct a as [segs]; simpl in *. by subst.
  - destruct (longest_zeros_spec (segments a)) as [Hb Hs].
    set (z := longest_zeros _ _ _ _) in *. destruct a as [segs]; simpl in *. destruct Hwf as [Hlen Hwf]; simpl in *.
    case_bool_decide as Hz.
    + assert (Forall is_u16 (take (run_start z) segs)) as Hf1 by (by apply Forall_take).
      assert (Forall is_u16 (drop (run_start z + run_len z) segs)) as Hf2 by (by apply Forall_drop).
      set (tl := drop (run_start z + run_len z) segs) in *. set (hd := take (run_start z) segs) in *.
      assert (length hd = run_start z) as Hhl by (rw length_take; lia).
      assert (length tl = 8 - (run_start z + run_len z))%nat as Htl by (rw length_drop; lia).
      pose proof (read_groups_show 8 0 hd (colon :: colon :: show_groups true tl) Hf1 ltac:(lia)
        (stops_double_colon _)) as Hh.
      pose proof (read_groups_show (8 - (length hd + 1)) 0 tl [] Hf2 ltac:(lia) (or_introl eq_refl)) as Ht.
      rw app_nil_r in Ht. rewrite -> (bool_decide_eq_true_2 (0%nat = 0%nat)) in Hh, Ht by done.
      rw /read_ipv6. simpl app in *. rw Hh. rewrite -> bool_decide_eq_false_2 by lia.
      do 2 (rw read_given_colon; cbn [mbind option_bind]). rw Ht.
      replace (8 - length tl - length hd)%nat with (run_len z) by lia. by rw -Hs.
    + pose proof (read_groups_show 8 0 segs [] Hwf ltac:(lia) (or_introl eq_refl)) as Hh.
      rw app_nil_r in Hh. rewrite -> (bool_decide_eq_true_2 (0%nat = 0%nat)) in Hh by done.
      rw /read_ipv6 Hh. by rw bool_decide_eq_true_2.
Qed.

Lemma parse_ip6_show a : ip6_wf a → parse_ip6 (show_ip6 a) = Some a.
Proof. intros Hwf. by rw /parse_ip6 /parse_with read_ipv6_show. Qed.

Lemma read_ipv4_groups gs rest :
  Forall is_u16 gs → (rest = [] ∨ ∃ r, rest = colon :: r) →
  read_ipv4 (show_groups true gs ++ rest) = None.
Proof.
  intros Hgs Hr. destruct Hgs as [|g gs Hg _]; simpl.
  - by destruct Hr as [->|[r ->]].
  - rw -app_assoc. apply ipv4_not_group; [done|]. destruct gs; simpl; [done|right; eauto].
Qed.

Lemma read_ipv4_show_ip6 a : ip6_wf a → read_ipv4 (show_ip6 a) = None.
Proof.
  intros [_ Hwf]. rw /show_ip6. destruct (to_ipv4_mapped a); [done|]. case_bool_decide.
  - apply read_ipv4_groups; [by apply Forall_take|right; eauto].
  - rw -(app_nil_r (show_groups _ _)). apply read_ipv4_groups; [done|by left].
Qed.

(** [Display for IpAddr]. *)
Definition show_ip (a : IpAddr) : bytes :=
  match a with V4 a => show_ip4 a | V6 a => show_ip6 a end.

Lemma parse_ip_show a : ip_wf a → parse_ip (show_ip a) = Some a.
Proof.
  destruct a as [a|a]; simpl; intros Hwf; rw /parse_ip /parse_with.
  - pose proof (read_ipv4_show a [] Hwf I) as Hr. rw app_nil_r in Hr. by rw Hr.
  - by rw read_ipv4_show_ip6 // read_ipv6_show.
Qed.

(** The text of an address has only hexadecimal digits, colons and dots. *)
Lemma show_dec_not_in n c :
  0 ≤ n → byte_Z c < 48 ∨ 57 < byte_Z c < 97 ∨ 102 < byte_Z c → c ∉ show_dec n.
Proof. intros. apply show_radix_not_in; [lia|done..]. Qed.

Lemma show_dec_bytes n c : 0 ≤ n → c ∈ show_dec n → 48 ≤ byte_Z c ≤ 57.
Proof.
  intros Hn Hc. apply show_radix_chars in Hc as (d & Hd & ->); [|lia..].
  rw byte_Z_digit_char; [|lia]. case: Z.ltb_spec; lia.
Qed.

Lemma show_ip4_not_in a c :
  ip4_wf a → c ≠ dot → byte_Z c < 48 ∨ 57 < byte_Z c < 97 ∨ 102 < byte_Z c → c ∉ show_ip4 a.
Proof.
  intros Hwf Hc Hz. rw -(app_nil_r (show_ip4 a)). destruct a as [o1 o2 o3 o4]. rw show_ip4_text app_nil_r.
  rw /ip4_wf /octets Forall_forall in Hwf. simpl in Hwf.
  assert (∀ n, n ∈ [o1; o2; o3; o4] → c ∉ show_dec n) as Hn.
  { intros n Hin. apply show_dec_not_in; [|done]. specialize (Hwf n Hin). unfold_int. lia. }
  pose proof (Hn o1 ltac:(set_solver)). pose proof (Hn o2 ltac:(set_solver)).
  pose proof (Hn o3 ltac:(set_solver)). pose proof (Hn o4 ltac:(set_solver)).
  rw !not_elem_of_app !not_elem_of_cons !not_elem_of_app. repeat (rewrite -> not_elem_of_app || rewrite -> not_elem_of_cons). by split_and!.
Qed.

Lemma show_groups_not_in first gs c :
  Forall is_u16 gs → c ≠ colon → byte_Z c < 48 ∨ 57 < byte_Z c < 97 ∨ 102 < byte_Z c →
  c ∉ show_groups first gs.
Proof.
  intros Hgs Hc Hz. revert first. induction Hgs as [|g gs Hg _ IH]; intros first; simpl; [set_solver|].
  rw !not_elem_of_app. split_and!; [destruct first; set_solver| |done].
  apply show_radix_not_in; [lia|unfold_int; lia|done].
Qed.

Lemma show_ip6_not_in a c :
  ip6_wf a → c ≠ colon → c ≠ dot → byte_Z c < 48 ∨ 57 < byte_Z c < 97 ∨ 102 < byte_Z c →
  c ∉ show_ip6 a.
Proof.
  intros Hwf Hc Hd Hz. rw /show_ip6. destruct (to_ipv4_mapped a) as [v4|] eqn:Hm.
  - destruct (mapped_spec a v4 Hwf Hm) as [H4 _]. apply not_elem_of_app. split; [|by apply show_ip4_not_in].
    change (str "::ffff:") with ([colon; colon] ++ replicate 4 (chr 102) ++ [colon]).
    rw !not_elem_of_app. split_and!; [set_solver| |set_solver].
    intros Hin. assert (c = chr 102) as -> by set_solver. change (byte_Z (chr 102)) with 102 in Hz. lia.
  - destruct Hwf as [_ Hwf]. case_bool_decide.
    + rw !not_elem_of_app. split_and!; [|set_solver|]; apply show_groups_not_in; auto using Forall_take, Forall_drop.
    + by apply show_groups_not_in.
Qed.

(** ** Parsed addresses are well formed *)

Lemma span_digits_range radix s ds r :
  span_digits radix s = (ds, r) → Forall (λ d, 0 ≤ d) ds.
Proof.
  revert ds. induction s as [|c s IH]; simpl; intros ds H; [by injection H as <- <-|].
  destruct (to_digit radix c) as [d|] eqn:Hd; [|by injection H as <- <-].
  destruct (span_digits radix s) as [ds' r'] eqn:E. injection H as <- <-.
  apply Forall_cons. split; [apply (to_digit_range _ _ _ Hd)|]. by apply IH.
Qed.

Lemma read_number_range radix k zp max s n r :
  0 ≤ radix → read_number radix k zp max s = Some (n, r) → 0 ≤ n ≤ max.
Proof.
  intros Hr. rw /read_number. destruct (span_digits radix s) as [ds r'] eqn:E.
  do 2 (case_match; [done|]). case: Z.leb_spec; [|done]. intros Hle [= <- _].
  split; [|done]. apply foldl_digits_nonneg; [done..|]. by eapply span_digits_range.
Qed.

Lemma read_separator_Some {A} sep i (inner : bytes → option (A * bytes)) s x :
  read_separator sep i inner s = Some x → ∃ s', inner s' = Some x.
Proof.
  destruct i; simpl; [eauto|]. intros ([[] s'] & _ & H)%bind_Some. eauto.
Qed.

Lemma read_octet_range i s n r : read_octet i s = Some (n, r) → is_u8 n.
Proof.
  intros (s' & Hn)%read_separator_Some. apply read_number_range in Hn; [done|lia].
Qed.

Lemma read_ipv4_wf s a r : read_ipv4 s = Some (a, r) → ip4_wf a.
Proof.
  rw /read_ipv4. intros ([n1 r1] & H1 & H)%bind_Some. apply bind_Some in H as ([n2 r2] & H2 & H).
  apply bind_Some in H as ([n3 r3] & H3 & H). apply bind_Some in H as ([n4 r4] & H4 & H).
  injection H as <- _. repeat (apply Forall_cons; split); [by eapply read_octet_range..|done].
Qed.

Lemma read_groups_wf slots i s gs v4 r :
  read_groups slots i s = (gs, v4, r) → (length gs ≤ slots)%nat ∧ Forall is_u16 gs.
Proof.
  revert i s gs v4 r. induction slots as [|slots IH]; intros i s gs v4 r; cbn [read_groups];
    [by intros [= <- _ _]|].
  destruct (if bool_decide (slots = 0%nat) then None else _) as [[a s']|] eqn:E4.
  - intros [= <- _ _]. case_bool_decide; [done|]. simpl. split; [lia|].
    apply read_separator_Some in E4 as (s'' & H4). apply read_ipv4_wf in H4.
    rw /ip4_wf /octets !Forall_cons in H4. unfold_int. destruct H4 as (? & ? & ? & ? & _).
    repeat (apply Forall_cons; split); [unfold_int; lia..|done].
  - destruct (read_separator colon i (read_number _ _ _ _) s) as [[g s']|] eqn:Eg; last first.
    { intros [= <- _ _]. split; [simpl; lia|done]. }
    destruct (read_groups slots (S i) s') as [[gs' v4'] s''] eqn:E. intros [= <- _ _].
    destruct (IH _ _ _ _ _ E) as [Hl Hf]. split; [simpl; lia|]. apply Forall_cons. split; [|done].
    apply read_separator_Some in Eg as (s3 & Hg). apply read_number_range in Hg; [done|lia].
Qed.

Lemma read_ipv6_wf s a r : read_ipv6 s = Some (a, r) → ip6_wf a.
Proof.
  rw /read_ipv6. destruct (read_groups 8 0 s) as [[hd v4] s1] eqn:Eh.
  destruct (read_groups_wf _ _ _ _ _ _ Eh) as [Hl Hf]. case_bool_decide as H8.
  { intros [= <- _]. done. }
  destruct v4; [done|]. intros ([[] s2] & _ & H)%bind_Some. apply bind_Some in H as ([[] s3] & _ & H).
  destruct (read_groups _ 0 s3) as [[tl v4'] s4] eqn:Et. injection H as <- _.
  destruct (read_groups_wf _ _ _ _ _ _ Et) as [Hl' Hf']. rw /ip6_wf /=. split.
  - rw !length_app length_replicate. lia.
  - apply Forall_app. split; [done|]. apply Forall_app. split; [|done].
    apply Forall_replicate. done.
Qed.

Lemma parse_ip_wf s a : parse_ip s = Some a → ip_wf a.
Proof.
  rw /parse_ip /parse_with. destruct (read_ipv4 s) as [[a4 r]|] eqn:E4.
  - destruct r; [|done]. intros [= <-]. by eapply read_ipv4_wf.
  - destruct (read_ipv6 s) as [[a6 r]|] eqn:E6; simpl; [|done]. destruct r; [|done].
    intros [= <-]. by eapply read_ipv6_wf.
Qed.

Lemma parse_ip4_wf s a : parse_ip4 s = Some a → ip4_wf a.
Proof.
  rw /parse_ip4 /parse_with. case_match; [done|]. destruct (read_ipv4 s) as [[a4 [|]]|] eqn:E; try done.
  intros [= <-]. by eapply read_ipv4_wf.
Qed.

Lemma parse_ip6_wf s a : parse_ip6 s = Some a → ip6_wf a.
Proof.
  rw /parse_ip6 /parse_with. destruct (read_ipv6 s) as [[a6 [|]]|] eqn:E; try done.
  intros [= <-]. by eapply read_ipv6_wf.
Qed.
