(* ===== verification/ProxyProtocol.v ===== *)
(** * The PROXY protocol parser

    [tentacle/src/transports/proxy_protocol.rs]: detection of a PROXY header
    on a fresh connection and its version 1 (text) and version 2 (binary)
    parsers. The TCP stream is a parameter: its [ts_content] is what the peer
    sent and the connection will still deliver. The theorems show that both
    header formats yield the source address and leave exactly the data after
    the header, and bound what a parse can consume. *)
From S2P Require Import Prelude Text StdNet.

(** [tokio::net::TcpStream], as far as the parser uses it. *)
Class TcpStream (S : Type) := {
  ts_peek : nat → S → (bytes + io.ErrorKind) * S;
  ts_read_exact : nat → S → (bytes + io.ErrorKind) * S;
  ts_content : S → bytes;
}.

Class TcpStreamLaws (S : Type) `{TcpStream S} : Prop := {
  ts_peek_ok n s b s' : ts_peek n s = (inl b, s') →
    ts_content s' = ts_content s ∧ b `prefix_of` ts_content s ∧ (length b ≤ n)%nat;
  ts_read_ok n s b s' : ts_read_exact n s = (inl b, s') →
    length b = n ∧ ts_content s = b ++ ts_content s';
  ts_read_live n s : (n ≤ length (ts_content s))%nat → ∃ b s', ts_read_exact n s = (inl b, s');
}.

Definition PROXY_V2_SIGNATURE : bytes := [x0d; x0a; x0d; x0a; x00; x0d; x0a; x51; x55; x49; x54; x0a].
Definition PROXY_V1_MAX_LENGTH : nat := 108.
Definition PROXY_V2_HEADER_SIZE : nat := 16.
Definition PROXY_V2_MAX_ADDR_LEN : Z := 512.

(** The messages of [ProxyProtocolResult::Error]. *)
Inductive ProxyError :=
| PeekFailed (k : io.ErrorKind)
| InvalidV1Header | V1TooShort | V1Parts (n : nat) | InvalidSrcIp (s : bytes)
| InvalidSrcPort (s : bytes) | UnsupportedV1 (proto : bytes)
| V1TooLong | V1Closed | V1ReadFailed (k : io.ErrorKind) | V1InvalidUtf8
| V2HeaderFailed (k : io.ErrorKind) | V2AddrTooLong (n : Z) | V2AddrFailed (k : io.ErrorKind)
| V2InvalidSignature | V2Version (v : Z) | V2Command (c : Z) | V2Ip4TooShort | V2Ip6TooShort.

Inductive ProxyProtocolResult :=
| Success (a : SocketAddr)
| NotProxyProtocol
| Error (e : ProxyError).

(** [parts[i]]; out of range (a panic) does not happen behind the checks. *)
Definition part (ps : list bytes) (i : nat) : bytes := default [] (ps !! i).

Abbreviation CR := (chr 13).
Abbreviation LF := (chr 10).
Abbreviation space := (chr 32).

Definition parse_proxy_v1_line (line : bytes) : ProxyProtocolResult :=
  let line := trim_end_matches CR (trim_end_matches LF line) in
  let parts := split space line in
  if bool_decide (parts = []) || negb (bool_decide (part parts 0 = str "PROXY")) then
    Error InvalidV1Header
  else if bool_decide (length parts < 2)%nat then Error V1TooShort
  else if bool_decide (part parts 1 = str "UNKNOWN") then NotProxyProtocol
  else if bool_decide (part parts 1 = str "TCP4") || bool_decide (part parts 1 = str "TCP6") then
    if negb (bool_decide (length parts = 6%nat)) then Error (V1Parts (length parts))
    else match parse_ip (part parts 2) with
    | None => Error (InvalidSrcIp (part parts 2))
    | Some src_ip =>
        match parse_u16 (part parts 4) with
        | None => Error (InvalidSrcPort (part parts 4))
        | Some src_port => Success (mkSocketAddr src_ip src_port)
        end
    end
  else Error (UnsupportedV1 (part parts 1)).

(** The byte of [addr_data] or [header] at [i], read after a length check. *)
Definition at_byte (b : bytes) (i : nat) : Z := byte_Z (default x00 (b !! i)).

(** [u16::from_be_bytes] of the two bytes at [i]. *)
Definition be16_at (b : bytes) (i : nat) : Z := at_byte b i * 256 + at_byte b (S i).

(** [Ipv6Addr::from([u8; 16])]. *)
Fixpoint be_pairs (b : bytes) : list Z :=
  match b with
  | x :: y :: b => (byte_Z x * 256 + byte_Z y) :: be_pairs b
  | _ => []
  end.

Definition parse_proxy_v2_address (family : Z) (addr_data : bytes) : ProxyProtocolResult :=
  if family =? 0 then NotProxyProtocol
  else if family =? 1 then
    if bool_decide (length addr_data < 12)%nat then Error V2Ip4TooShort
    else
      let src_ip := mkIp4 (at_byte addr_data 0) (at_byte addr_data 1)
                          (at_byte addr_data 2) (at_byte addr_data 3) in
      Success (mkSocketAddr (V4 src_ip) (be16_at addr_data 8))
  else if family =? 2 then
    if bool_decide (length addr_data < 36)%nat then Error V2Ip6TooShort
    else
      let src_ip := mkIp6 (be_pairs (take 16 addr_data)) in
      Success (mkSocketAddr (V6 src_ip) (be16_at addr_data 32))
  else if family =? 3 then NotProxyProtocol
  else NotProxyProtocol.

Definition parse_proxy_v2_bytes (header addr_data : bytes) : ProxyProtocolResult :=
  if negb (bool_decide (take 12 header = PROXY_V2_SIGNATURE)) then Error V2InvalidSignature
  else
    let ver_cmd := at_byte header 12 in
    let version := Z.shiftr (Z.land ver_cmd 240) 4 in
    let command := Z.land ver_cmd 15 in
    if negb (version =? 2) then Error (V2Version version)
    else
      let family := Z.shiftr (Z.land (at_byte header 13) 240) 4 in
      if command =? 0 then NotProxyProtocol
      else if command =? 1 then parse_proxy_v2_address family addr_data
      else Error (V2Command command).

Section parser.
Context {S : Type} `{TcpStream S}.

(** The read loop of [parse_proxy_protocol_v1]; [room] is
    [PROXY_V1_MAX_LENGTH - pos] and [buf] the [pos] bytes read so far. *)
Fixpoint v1_loop (room : nat) (buf : bytes) (s : S) : (bytes + ProxyError) * S :=
  match room with
  | O => (inr V1TooLong, s)
  | Datatypes.S room =>
      match ts_read_exact 1 s with
      | (inl b, s) =>
          let buf := buf ++ b in
          if bool_decide (2 ≤ length buf)%nat &&
             bool_decide (drop (length buf - 2) buf = [CR; LF])
          then (inl buf, s)
          else v1_loop room buf s
      | (inr k, s) => (inr (if bool_decide (k = io.UnexpectedEof) then V1Closed else V1ReadFailed k), s)
      end
  end.

Definition parse_proxy_protocol_v1 (s : S) : ProxyProtocolResult * S :=
  match v1_loop PROXY_V1_MAX_LENGTH [] s with
  | (inl buf, s) => (if utf8_valid buf then parse_proxy_v1_line buf else Error V1InvalidUtf8, s)
  | (inr e, s) => (Error e, s)
  end.

Definition parse_proxy_protocol_v2 (s : S) : ProxyProtocolResult * S :=
  match ts_read_exact PROXY_V2_HEADER_SIZE s with
  | (inl header, s) =>
      let addr_len := be16_at header 14 in
      if PROXY_V2_MAX_ADDR_LEN <? addr_len then (Error (V2AddrTooLong addr_len), s)
      else if 0 <? addr_len then
        match ts_read_exact (Z.to_nat addr_len) s with
        | (inl addr_data, s) => (parse_proxy_v2_bytes header addr_data, s)
        | (inr k, s) => (Error (V2AddrFailed k), s)
          end
      else (parse_proxy_v2_bytes header [], s)
  | (inr k, s) => (Error (V2HeaderFailed k), s)
  end.

(** What the peeked bytes announce: version 2, version 1 or no header. *)
Inductive Detected := IsV2 | IsV1 | NoHeader.
Definition detect (peeked : bytes) : Detected :=
  if bool_decide (5 ≤ length peeked)%nat then
    if bool_decide (13 ≤ length peeked)%nat && bool_decide (take 12 peeked = PROXY_V2_SIGNATURE) &&
       (Z.land (at_byte peeked 12) 240 =? 32)
    then IsV2
    else if bool_decide (take 5 peeked = str "PROXY") then IsV1 else NoHeader
  else NoHeader.

Definition parse_proxy_protocol (s : S) : ProxyProtocolResult * S :=
  match ts_peek PROXY_V2_HEADER_SIZE s with
  | (inl peeked, s) =>
      match detect peeked with
      | IsV2 => parse_proxy_protocol_v2 s
      | IsV1 => parse_proxy_protocol_v1 s
      | NoHeader => (NotProxyProtocol, s)
      end
  | (inr k, s) => (Error (PeekFailed k), s)
  end.
End parser.

(** ** What a proxy sends *)

(** A header field of version 1. *)
Definition clean (t : bytes) : Prop := is_ascii t = true ∧ (space ∉ t) ∧ (CR ∉ t) ∧ (LF ∉ t).

(** ["PROXY <proto> <src> <dst> <sport> <dport>"] without the line end. *)
Definition v1_text (proto : bytes) (src : SocketAddr) (dst dport : bytes) : bytes :=
  join space [str "PROXY"; proto; show_ip (ip src); dst; show_dec (port src); dport].

(** The bytes of an address, most significant first. *)
Definition ip_bytes (a : IpAddr) : bytes :=
  match a with
  | V4 a => Z_byte <$> octets a
  | V6 a => concat (put_u16 <$> segments a)
  end.

(** A version 2 header with the command PROXY over a stream connection. *)
Definition v2_data (src dst : SocketAddr) (tlvs : bytes) : bytes :=
  ip_bytes (ip src) ++ ip_bytes (ip dst) ++ put_u16 (port src) ++ put_u16 (port dst) ++ tlvs.
Definition v2_header (a : IpAddr) (len : Z) : bytes :=
  PROXY_V2_SIGNATURE ++ [x21; match a with V4 _ => x11 | V6 _ => x21 end] ++ put_u16 len.
Definition v2_message (src dst : SocketAddr) (tlvs : bytes) : bytes :=
  v2_header (ip src) (length (v2_data src dst tlvs)) ++ v2_data src dst tlvs.
Definition same_family (a b : IpAddr) : Prop :=
  match a, b with V4 _, V4 _ | V6 _, V6 _ => True | _, _ => False end.

Lemma clean_intro t :
  (∀ c, c ≠ colon → c ≠ dot → byte_Z c < 48 ∨ 57 < byte_Z c < 97 ∨ 102 < byte_Z c → c ∉ t) → clean t.
Proof.
  intros H. split_and!; [|apply H; [done..|left; done]..]. apply is_ascii_not_in. intros c Hc.
  apply H; [intros ->; vm_compute in Hc; done..|right; right; lia].
Qed.

Lemma clean_show_ip a : ip_wf a → clean (show_ip a).
Proof.
  intros Hwf. apply clean_intro. intros c Hc Hd Hz. destruct a; simpl.
  - by apply show_ip4_not_in.
  - by apply show_ip6_not_in.
Qed.

Lemma clean_show_dec n : 0 ≤ n → clean (show_dec n).
Proof. intros Hn. apply clean_intro. intros c _ _ Hz. by apply show_dec_not_in. Qed.

Lemma v1_text_prefix proto src dst dport :
  ∃ k, v1_text proto src dst dport = str "PROXY" ++ k.
Proof.
  exists (space :: join space [proto; show_ip (ip src); dst; show_dec (port src); dport]). reflexivity.
Qed.

Lemma v1_fields_clean proto src dst dport :
  ip_wf (ip src) → is_u16 (port src) → clean proto → clean dst → clean dport →
  Forall clean [str "PROXY"; proto; show_ip (ip src); dst; show_dec (port src); dport].
Proof.
  intros Hip Hport Hp Hd Hdp. unfold_int.
  repeat (apply Forall_cons; split); try done.
  - split_and!; [done|..]; vm_compute; set_solver.
  - by apply clean_show_ip.
  - apply clean_show_dec. lia.
Qed.

Lemma v1_text_clean proto src dst dport :
  Forall clean [str "PROXY"; proto; show_ip (ip src); dst; show_dec (port src); dport] →
  (CR ∉ v1_text proto src dst dport) ∧ (LF ∉ v1_text proto src dst dport) ∧
  is_ascii (v1_text proto src dst dport) = true.
Proof.
  intros Hf. split_and!.
  - apply join_not_in; [done|]. eapply Forall_impl; [done|]. by intros t (_ & _ & ? & _).
  - apply join_not_in; [done|]. eapply Forall_impl; [done|]. by intros t (_ & _ & _ & ?).
  - apply is_ascii_not_in. intros c Hc. apply join_not_in; [intros ->; by vm_compute in Hc|].
    eapply Forall_impl; [done|]. intros t (Ht & _) Hin. pose proof (is_ascii_byte t c Ht Hin). lia.
Qed.

Lemma parse_v1_text proto src dst dport :
  ip_wf (ip src) → is_u16 (port src) → proto = str "TCP4" ∨ proto = str "TCP6" →
  Forall clean [str "PROXY"; proto; show_ip (ip src); dst; show_dec (port src); dport] →
  parse_proxy_v1_line (v1_text proto src dst dport ++ [CR; LF]) = Success src.
Proof.
  intros Hip Hport Hproto Hf. destruct (v1_text_clean proto src dst dport Hf) as (Hcr & _ & _).
  rw /parse_proxy_v1_line. rw (_ : _ ++ [CR; LF] = (v1_text proto src dst dport ++ [CR]) ++ [LF]); [|by rw -app_assoc].
  rw trim_end_snoc trim_end_app // trim_end_snoc trim_end_not_in //.
  rw /v1_text split_join //; [|eapply Forall_impl; [done|]; by intros t (_ & ? & _)].
  rw /part. cbn [lookup list_lookup default from_option id length].
  rewrite -> bool_decide_eq_false_2, bool_decide_eq_true_2 by done. 
  change (false || negb true) with false. cbv iota.
  rewrite -> bool_decide_eq_false_2 by lia.
  rw (bool_decide_eq_false_2 (proto = str "UNKNOWN")); [|by destruct Hproto as [->| ->]].
  assert (bool_decide (proto = str "TCP4") || bool_decide (proto = str "TCP6") = true) as ->
    by (by destruct Hproto as [->| ->]).
  rewrite -> bool_decide_eq_true_2 by done. simpl negb. cbv iota.
  rw parse_ip_show // parse_u16_show //. by destruct src.
Qed.

(** ** Version 2 fields *)

Lemma put_u16_eq n : put_u16 n = [Z_byte (Z.shiftr n 8); Z_byte n].
Proof. rw /put_u16. change (be_bytes 2 n) with [Z_byte (Z.shiftr n 8); Z_byte (Z.shiftr n 0)]. by rw Z.shiftr_0_r. Qed.

Lemma be16_put n : is_u16 n → byte_Z (Z_byte (Z.shiftr n 8)) * 256 + byte_Z (Z_byte n) = n.
Proof.
  unfold_int. intros Hn. rw !byte_Z_Z_byte. rewrite -> Z.shiftr_div_pow2 by lia.
  change (2 ^ 8) with 256. rewrite -> (Z.mod_small (n / 256)).
  - pose proof (Z.div_mod n 256). lia.
  - split; [apply Z.div_pos; lia|apply Z.div_lt_upper_bound; lia].
Qed.

Lemma at_byte_app pre post i : at_byte (pre ++ post) (length pre + i) = at_byte post i.
Proof. by rw /at_byte lookup_app_r; [|lia]; rw Nat.add_comm Nat.add_sub. Qed.

Lemma be16_at_put pre n post :
  is_u16 n → be16_at (pre ++ put_u16 n ++ post) (length pre) = n.
Proof.
  intros Hn. rw /be16_at. rw -{1}(Nat.add_0_r (length pre)) -(Nat.add_1_r (length pre)).
  rw !at_byte_app put_u16_eq /at_byte /=. by apply be16_put.
Qed.

Lemma be_pairs_put segs : Forall is_u16 segs → be_pairs (concat (put_u16 <$> segs)) = segs.
Proof.
  induction 1 as [|n segs Hn _ IH]; [done|]. cbn [fmap list_fmap concat]. rw put_u16_eq /=.
  by rw be16_put // IH.
Qed.

Lemma parse_v2_data src dst tlvs :
  ip_wf (ip src) → ip_wf (ip dst) → same_family (ip src) (ip dst) → is_u16 (port src) →
  parse_proxy_v2_address (match ip src with V4 _ => 1 | V6 _ => 2 end) (v2_data src dst tlvs) =
  Success src.
Proof.
  destruct src as [[[a b c d]|[segs]] p], dst as [[[a' b' c' d']|[segs']] p']; simpl; try done;
    intros Hs Hd _ Hp; rw /parse_proxy_v2_address; cbn [ip port Z.eqb Pos.eqb].
  - rewrite -> bool_decide_eq_false_2 by (rw /v2_data !length_app !put_u16_eq /=; lia).
    do 2 f_equal.
    + rw /ip4_wf /octets /= in Hs. rw /at_byte /= !byte_Z_Z_byte.
      apply Forall_cons in Hs as [Ha Hs]. apply Forall_cons in Hs as [Hb Hs].
      apply Forall_cons in Hs as [Hc Hs]. apply Forall_cons in Hs as [He _]. unfold_int. simpl in *.
      by rewrite -> !Z.mod_small by lia.
    + apply (be16_at_put [Z_byte a; Z_byte b; Z_byte c; Z_byte d; Z_byte a'; Z_byte b'; Z_byte c'; Z_byte d'] p); done.
  - destruct Hs as [Hl Hs], Hd as [Hl' Hd]; simpl in *.
    assert (length (concat (put_u16 <$> segs)) = 16%nat) as H1 by (rw length_concat_put Hl //).
    assert (length (concat (put_u16 <$> segs')) = 16%nat) as H2 by (rw length_concat_put Hl' //).
    rewrite -> bool_decide_eq_false_2 by (rw /v2_data !length_app !put_u16_eq /= H1 H2; lia).
    do 2 f_equal.
    + rw /v2_data /=. by rw take_app_length' // be_pairs_put.
    + pose proof (be16_at_put (concat (put_u16 <$> segs) ++ concat (put_u16 <$> segs')) p
        (put_u16 p' ++ tlvs) Hp) as Hb. rw length_app H1 H2 -app_assoc in Hb. exact Hb.
Qed.

Lemma v2_header_length a n : length (v2_header a n) = PROXY_V2_HEADER_SIZE.
Proof. rw /v2_header put_u16_eq. by destruct a. Qed.

Lemma parse_v2_header a n data :
  parse_proxy_v2_bytes (v2_header a n) data =
  parse_proxy_v2_address (match a with V4 _ => 1 | V6 _ => 2 end) data.
Proof. rw /v2_header put_u16_eq. by destruct a. Qed.

(** ** Reading from the stream *)

Section facts.
Context {S : Type} `{!TcpStream S, !TcpStreamLaws S}.
Implicit Types s : S.

Lemma read_exact_app s b rest :
  ts_content s = b ++ rest →
  ∃ s', ts_read_exact (length b) s = (inl b, s') ∧ ts_content s' = rest.
Proof.
  intros Hc. destruct (ts_read_live (length b) s) as (b' & s' & Hr); [rw Hc length_app; lia|].
  destruct (ts_read_ok _ _ _ _ Hr) as [Hl Hc']. rw Hc in Hc'.
  apply app_inj_1 in Hc' as [<- Heq]; [|done]. exists s'. by rw Heq.
Qed.

(** The buffer ends with the bytes that were just read. *)
Lemma last_two_snoc (buf : bytes) x y : drop (length (buf ++ [x; y]) - 2) (buf ++ [x; y]) = [x; y].
Proof. rw length_app /= Nat.add_sub drop_app_length //. Qed.

Lemma crlf_last_two (buf : bytes) :
  (2 ≤ length buf)%nat → drop (length buf - 2) buf = [CR; LF] → CR ∈ buf.
Proof.
  intros Hl Hd. rw -(take_drop (length buf - 2) buf) Hd. set_solver.
Qed.

(** The loop reads up to the first CR LF. *)
Lemma v1_loop_line room buf line s rest :
  CR ∉ buf → CR ∉ line → ts_content s = line ++ CR :: LF :: rest → (length line + 2 ≤ room)%nat →
  ∃ s', v1_loop room buf s = (inl (buf ++ line ++ [CR; LF]), s') ∧ ts_content s' = rest.
Proof.
  revert room buf s. induction line as [|c line IH]; intros room buf s Hb Hline Hc Hroom.
  - destruct room as [|[|room]]; simpl in Hroom; [lia..|].
    destruct (read_exact_app s [CR] (LF :: rest) Hc) as (s1 & Hr1 & Hc1).
    destruct (read_exact_app s1 [LF] rest Hc1) as (s2 & Hr2 & Hc2).
    simpl in Hr1, Hr2. cbn [v1_loop]. rw Hr1.
    assert (bool_decide (2 ≤ length (buf ++ [CR]))%nat &&
      bool_decide (drop (length (buf ++ [CR]) - 2) (buf ++ [CR]) = [CR; LF]) = false) as ->.
    { apply andb_false_iff. right. apply bool_decide_eq_false. intros Hd.
      destruct buf as [|x buf _] using rev_ind; [done|]. rw -app_assoc last_two_snoc in Hd. done. }
    rw Hr2. rewrite -> bool_decide_eq_true_2 by (rw !length_app /=; lia).
    rw -app_assoc /=. rewrite -> bool_decide_eq_true_2 by apply last_two_snoc. eauto.
  - destruct room as [|room]; simpl in Hroom; [lia|].
    destruct (read_exact_app s [c] (line ++ CR :: LF :: rest) Hc) as (s1 & Hr1 & Hc1).
    apply not_elem_of_cons in Hline as [Hcc Hline].
    simpl in Hr1. cbn [v1_loop]. rw Hr1.
    assert (CR ∉ buf ++ [c]) as Hb' by set_solver.
    assert (bool_decide (2 ≤ length (buf ++ [c]))%nat &&
      bool_decide (drop (length (buf ++ [c]) - 2) (buf ++ [c]) = [CR; LF]) = false) as ->.
    { apply not_true_iff_false. intros [Hl%bool_decide_eq_true Hd%bool_decide_eq_true]%andb_true_iff.
      by apply Hb', crlf_last_two. }
    destruct (IH room (buf ++ [c]) s1 Hb' Hline Hc1 ltac:(lia)) as (s' & Hl & Hs').
    exists s'. split; [|done]. rw Hl -app_assoc. done.
Qed.

Lemma peek_prefix n s peeked s1 b :
  ts_peek n s = (inl peeked, s1) → b `prefix_of` ts_content s → (length b ≤ length peeked)%nat →
  take (length b) peeked = b ∧ ts_content s1 = ts_content s.
Proof.
  intros Hp [r Hb] Hl. destruct (ts_peek_ok _ _ _ _ Hp) as (Hc & [r' Hr] & _). split; [|done].
  rw Hr in Hb. apply (f_equal (take (length b))) in Hb.
  rw take_app_le // in Hb. by rw take_app_length in Hb.
Qed.

Lemma detect_v1 s s1 peeked text rest :
  (∃ k, text = str "PROXY" ++ k) → ts_content s = text ++ rest →
  ts_peek PROXY_V2_HEADER_SIZE s = (inl peeked, s1) → (5 ≤ length peeked)%nat →
  detect peeked = IsV1 ∧ ts_content s1 = text ++ rest.
Proof.
  intros [k ->] Hc Hpeek Hn.
  destruct (peek_prefix _ _ _ _ (str "PROXY") Hpeek) as [Htake Hc1].
  - rw Hc -app_assoc. eexists. reflexivity.
  - exact Hn.
  - split; [|by rw Hc1]. change (length (str "PROXY")) with 5%nat in Htake.
    rw /detect Htake. rewrite -> bool_decide_eq_true_2 by done.
    rw (bool_decide_eq_false_2 (take 12 peeked = _)); [by rw andb_false_r|].
    intros Ht. apply (f_equal (take 5)) in Ht. rw take_take Htake in Ht. done.
Qed.

Lemma is_ascii_app t t' : is_ascii t = true → is_ascii t' = true → is_ascii (t ++ t') = true.
Proof. rw /is_ascii forallb_app. by intros -> ->. Qed.

Lemma parse_v1_stream s text rest :
  CR ∉ text → is_ascii text = true → ts_content s = text ++ CR :: LF :: rest →
  (length text + 2 ≤ PROXY_V1_MAX_LENGTH)%nat →
  ∃ s', parse_proxy_protocol_v1 s = (parse_proxy_v1_line (text ++ [CR; LF]), s') ∧ ts_content s' = rest.
Proof.
  intros Hcr Hascii Hc Hlen.
  destruct (v1_loop_line PROXY_V1_MAX_LENGTH [] text s rest ltac:(set_solver) Hcr Hc Hlen)
    as (s' & Hl & Hs').
  exists s'. split; [|done]. rw /parse_proxy_protocol_v1 Hl app_nil_l. rewrite -> utf8_valid_ascii; [done|].
  by apply is_ascii_app.
Qed.

(** ** Properties *)

(** A version 1 header for any source address, of at most 108 bytes and
    announced as TCP4 or TCP6, is parsed to that address and port, and the
    stream continues with exactly the bytes after the header, provided the
    first five bytes had arrived when the parser peeked. *)
Theorem proxy_v1_roundtrip (s s1 : S) (peeked proto dst dport rest : bytes) (src : SocketAddr) :
  ip_wf (ip src) → is_u16 (port src) → proto = str "TCP4" ∨ proto = str "TCP6" →
  clean dst → clean dport →
  ts_content s = v1_text proto src dst dport ++ CR :: LF :: rest →
  (length (v1_text proto src dst dport) + 2 ≤ PROXY_V1_MAX_LENGTH)%nat →
  ts_peek PROXY_V2_HEADER_SIZE s = (inl peeked, s1) → (5 ≤ length peeked)%nat →
  ∃ s', parse_proxy_protocol s = (Success src, s') ∧ ts_content s' = rest.
Proof.
  intros Hip Hport Hproto Hdst Hdport Hc Hlen Hpeek Hn.
  assert (clean proto) as Hpc by (destruct Hproto as [->| ->]; split_and!; [done|..]; vm_compute; set_solver).
  pose proof (v1_fields_clean proto src dst dport Hip Hport Hpc Hdst Hdport) as Hf.
  destruct (v1_text_clean proto src dst dport Hf) as (Hcr & _ & Hascii).
  destruct (detect_v1 _ _ _ _ _ (v1_text_prefix proto src dst dport) Hc Hpeek Hn) as [Hdet Hc1].
  destruct (parse_v1_stream s1 _ rest Hcr Hascii Hc1 Hlen) as (s' & Hp & Hs').
  exists s'. split; [|done]. by rw /parse_proxy_protocol Hpeek Hdet Hp parse_v1_text.
Qed.

Lemma detect_v2 s s1 peeked rest :
  ts_content s = PROXY_V2_SIGNATURE ++ [x21] ++ rest →
  ts_peek PROXY_V2_HEADER_SIZE s = (inl peeked, s1) → (13 ≤ length peeked)%nat →
  detect peeked = IsV2 ∧ ts_content s1 = ts_content s.
Proof.
  intros Hc Hpeek Hn.
  destruct (peek_prefix _ _ _ _ (PROXY_V2_SIGNATURE ++ [x21]) Hpeek) as [Htake Hc1].
  - rw Hc. eexists. by rw -app_assoc.
  - exact Hn.
  - split; [|done]. change (length (PROXY_V2_SIGNATURE ++ [x21])) with 13%nat in Htake.
    assert (peeked = PROXY_V2_SIGNATURE ++ [x21] ++ drop 13 peeked) as Hp
      by (rewrite <- (take_drop 13 peeked) at 1; by rw Htake).
    rw /detect. rewrite -> bool_decide_eq_true_2, bool_decide_eq_true_2 by lia.
    by rw Hp.
Qed.

(** A version 2 header with the command PROXY, built for any source and
    destination of one family with extensions up to the length limit, is
    parsed to the source address and port, and the stream continues with
    exactly the bytes after the header. *)
Theorem proxy_v2_roundtrip (s s1 : S) (peeked tlvs rest : bytes) (src dst : SocketAddr) :
  ip_wf (ip src) → ip_wf (ip dst) → same_family (ip src) (ip dst) → is_u16 (port src) →
  length (v2_data src dst tlvs) ≤ PROXY_V2_MAX_ADDR_LEN →
  ts_content s = v2_message src dst tlvs ++ rest →
  ts_peek PROXY_V2_HEADER_SIZE s = (inl peeked, s1) → (13 ≤ length peeked)%nat →
  ∃ s', parse_proxy_protocol s = (Success src, s') ∧ ts_content s' = rest.
Proof.
  rw /PROXY_V2_MAX_ADDR_LEN. intros Hs Hd Hsf Hp Hlen Hc Hpeek Hn. set (data := v2_data src dst tlvs) in *.
  rw /v2_message -/data -app_assoc in Hc.
  destruct (detect_v2 s s1 peeked ([match ip src with V4 _ => x11 | V6 _ => x21 end] ++
    put_u16 (length data) ++ data ++ rest)) as [Hdet Hc1]; [|done..|].
  { rw Hc /v2_header. by rw -!app_assoc. }
  rw Hc in Hc1. destruct (read_exact_app s1 _ _ Hc1) as (s2 & Hr2 & Hc2).
  destruct (read_exact_app s2 _ _ Hc2) as (s3 & Hr3 & Hc3). rw v2_header_length in Hr2.
  exists s3. split; [|done]. rw /parse_proxy_protocol Hpeek Hdet /parse_proxy_protocol_v2 Hr2.
  assert (be16_at (v2_header (ip src) (length data)) 14 = length data) as ->.
  { pose proof (be16_at_put (PROXY_V2_SIGNATURE ++ [x21; match ip src with V4 _ => x11 | V6 _ => x21 end])
      (length data) []) as Hb. rw app_nil_r in Hb. apply Hb. unfold_int. lia. }
  rewrite -> (proj2 (Z.ltb_ge _ _)) by (rw /PROXY_V2_MAX_ADDR_LEN; lia).
  rewrite -> (proj2 (Z.ltb_lt 0 _)) by (rw /data /v2_data !length_app !put_u16_eq /=; lia).
  rw Nat2Z.id Hr3 parse_v2_header. by rw parse_v2_data.
Qed.

Lemma v1_loop_consumes room buf s buf' s' :
  v1_loop room buf s = (inl buf', s') →
  ∃ h, ts_content s = h ++ ts_content s' ∧ (length h ≤ room)%nat.
Proof.
  revert buf s. induction room as [|room IH]; intros buf s; cbn [v1_loop]; [done|].
  destruct (ts_read_exact 1 s) as [[b|k] s1] eqn:Hr; [|done].
  destruct (ts_read_ok _ _ _ _ Hr) as [Hl Hc]. case_match.
  - intros [= _ <-]. exists b. split; [done|lia].
  - intros (h & Hh & Hlen)%IH. exists (b ++ h). rw Hc Hh app_assoc length_app. split; [done|lia].
Qed.

Lemma at_byte_range b i : is_u8 (at_byte b i).
Proof. unfold_int. rw /at_byte. pose proof (byte_Z_range (default x00 (b !! i))). lia. Qed.

Lemma be16_at_range b i : is_u16 (be16_at b i).
Proof.
  rw /be16_at. pose proof (at_byte_range b i). pose proof (at_byte_range b (Datatypes.S i)). unfold_int. lia.
Qed.

Lemma be_pairs_wf k b :
  length b = (2 * k)%nat → length (be_pairs b) = k ∧ Forall is_u16 (be_pairs b).
Proof.
  revert b. induction k as [|k IH]; intros b Hb; [by destruct b|].
  destruct b as [|x [|y b]]; simpl in Hb; [lia..|]. destruct (IH b) as [Hl Hf]; [lia|].
  split; [by simpl; f_equal|]. apply Forall_cons. split; [|done].
  pose proof (byte_Z_range x). pose proof (byte_Z_range y). unfold_int. lia.
Qed.

Definition result_wf (r : ProxyProtocolResult) : Prop :=
  match r with Success a => ip_wf (ip a) ∧ is_u16 (port a) | _ => True end.

Lemma v2_bytes_wf header data : result_wf (parse_proxy_v2_bytes header data).
Proof.
  rw /parse_proxy_v2_bytes. repeat (case_match; [done|]). case_match; [|done].
  rw /parse_proxy_v2_address. case_match; [done|]. case_match.
  { case_match; [done|]. simpl. split; [|apply be16_at_range].
    repeat (apply Forall_cons; split); [apply at_byte_range..|done]. }
  case_match; [|by case_match]. case: (bool_decide_reflect (length data < 36)%nat) => Hlen; [done|]. simpl. split; [|apply be16_at_range].
  apply (be_pairs_wf 8). rw length_take. lia.
Qed.

Lemma v1_line_wf line : result_wf (parse_proxy_v1_line line).
Proof.
  rw /parse_proxy_v1_line. do 3 (case_match; [done|]). case_match; [|done]. case_match; [done|].
  case_match eqn:Hip; [|done]. case_match eqn:Hport; [|done]. split; simpl.
  - by eapply parse_ip_wf.
  - apply parse_uint_range in Hport; [done|by unfold_int].
Qed.

(** On every stream: a reported address is a well-formed IP address with a
    16-bit port; when the parser does not fail, the bytes it took from the
    stream are a prefix of at most 528 bytes (16 header and 512 address
    bytes), and none at all unless the peeked bytes announced a header. *)
Theorem proxy_parse_bounded (s : S) :
  let '(r, s') := parse_proxy_protocol s in
  result_wf r ∧
  match r with
  | Error _ => True
  | _ => ∃ h, ts_content s = h ++ ts_content s' ∧ (length h ≤ 528)%nat ∧
         (h = [] ∨ str "PROXY" `prefix_of` ts_content s ∨ PROXY_V2_SIGNATURE `prefix_of` ts_content s)
  end.
Proof.
  rw /parse_proxy_protocol. destruct (ts_peek PROXY_V2_HEADER_SIZE s) as [[peeked|k] s1] eqn:Hp; [|done].
  destruct (ts_peek_ok _ _ _ _ Hp) as (Hc & Hpre & _).
  assert (∀ n, take n peeked `prefix_of` ts_content s) as Htake.
  { intros n. etrans; [|done]. apply prefix_take. }
  rw -Hc. rw -Hc in Htake. destruct (detect peeked) eqn:Hdet; rw /detect in Hdet.
  - assert (PROXY_V2_SIGNATURE `prefix_of` ts_content s1) as Hsig.
    { case_match; [|done]. case_match eqn:E; [|by case_match].
      apply andb_true_iff in E as [[_ E%bool_decide_eq_true]%andb_true_iff _]. rw -E. apply Htake. }
    rw /parse_proxy_protocol_v2.
    destruct (ts_read_exact PROXY_V2_HEADER_SIZE s1) as [[header|k] s2] eqn:Hr; [|done].
    destruct (ts_read_ok _ _ _ _ Hr) as [Hl Hc2]. rw /PROXY_V2_HEADER_SIZE in Hl.
    case: Z.ltb_spec => Hlen; [done|]. rw /PROXY_V2_MAX_ADDR_LEN in Hlen. case: Z.ltb_spec => Hpos.
    + destruct (ts_read_exact _ s2) as [[data|k] s3] eqn:Hr3; [|done].
      destruct (ts_read_ok _ _ _ _ Hr3) as [Hl3 Hc3]. split; [apply v2_bytes_wf|].
      assert (∃ h, ts_content s1 = h ++ ts_content s3 ∧ (length h ≤ 528)%nat ∧
        (h = [] ∨ str "PROXY" `prefix_of` ts_content s1 ∨ PROXY_V2_SIGNATURE `prefix_of` ts_content s1)).
      { exists (header ++ data). rw -app_assoc -Hc3 length_app. split_and!; [done|lia|auto]. }
      by destruct (parse_proxy_v2_bytes header data).
    + split; [apply v2_bytes_wf|].
      assert (∃ h, ts_content s1 = h ++ ts_content s2 ∧ (length h ≤ 528)%nat ∧
        (h = [] ∨ str "PROXY" `prefix_of` ts_content s1 ∨ PROXY_V2_SIGNATURE `prefix_of` ts_content s1)).
      { exists header. split_and!; [done|lia|auto]. }
      by destruct (parse_proxy_v2_bytes header []).
  - assert (str "PROXY" `prefix_of` ts_content s1) as Hsig.
    { case_match; [|done]. case_match; [done|]. case_bool_decide as E; [|done]. rw -E. apply Htake. }
    rw /parse_proxy_protocol_v1. destruct (v1_loop _ [] s1) as [[buf|e] s2] eqn:Hl; [|done].
    apply v1_loop_consumes in Hl as (h & Hh & Hlen).
    assert (length h ≤ 528)%nat by (rw /PROXY_V1_MAX_LENGTH in Hlen; lia).
    destruct (utf8_valid buf); [|done]. split; [apply v1_line_wf|].
    destruct (parse_proxy_v1_line buf); [exists h; auto..|done].
  - split; [done|]. exists []. split_and!; [done|simpl; lia|auto].
Qed.
End facts.

(** ** A stream that delivers a list of bytes *)

#[global] Instance ListStream : TcpStream bytes := {|
  ts_peek n s := (inl (take n s), s);
  ts_read_exact n s := if bool_decide (n ≤ length s)%nat then (inl (take n s), drop n s)
                       else (inr io.UnexpectedEof, []);
  ts_content s := s;
|}.

#[global] Instance ListStreamLaws : TcpStreamLaws bytes.
Proof.
  split; simpl.
  - intros n s b s' [= <- <-]. split_and!; [done|apply prefix_take|rw length_take; lia].
  - intros n s b s'. case_bool_decide; [|done]. intros [= <- <-]. rw length_take take_drop. split; [lia|done].
  - intros n s Hn. rw bool_decide_eq_true_2 //. eauto.
Qed.

Definition demo_src : SocketAddr := mkSocketAddr (V6 (mkIp6 [8193; 3512; 0; 0; 0; 0; 0; 1])) 56324.
Definition demo_dst : SocketAddr := mkSocketAddr (V6 (mkIp6 [0; 0; 0; 0; 0; 0; 0; 1])) 443.

Lemma proxy_v1_roundtrip_witness :
  ∃ s', parse_proxy_protocol (v1_text (str "TCP6") demo_src (str "::1") (str "443") ++ CR :: LF :: str "hi") =
          (Success demo_src, s') ∧ ts_content s' = str "hi".
Proof.
  eapply (proxy_v1_roundtrip _ _ _ (str "TCP6") (str "::1") (str "443") (str "hi") demo_src);
    [split; [done|by repeat constructor]|by split|by right|split_and!; [done|..]; vm_compute; set_solver..|
     reflexivity|vm_compute; lia|reflexivity|vm_compute; lia].
Defined.

Lemma proxy_v2_roundtrip_witness :
  ∃ s', parse_proxy_protocol (v2_message demo_src demo_dst (str "tlv") ++ str "hi") =
          (Success demo_src, s') ∧ ts_content s' = str "hi".
Proof.
  eapply (proxy_v2_roundtrip _ _ _ (str "tlv") (str "hi") demo_src demo_dst);
    [split; [done|by repeat constructor]..|done|by split|vm_compute; done|reflexivity|reflexivity|vm_compute; lia].
Defined.

Lemma proxy_parse_bounded_witness :
  ∃ s', parse_proxy_protocol (v2_message demo_src demo_dst [] ++ str "hi") = (Success demo_src, s') ∧
    ∃ h, v2_message demo_src demo_dst [] ++ str "hi" = h ++ s' ∧ (length h ≤ 528)%nat.
Proof.
  pose proof (proxy_parse_bounded (v2_message demo_src demo_dst [] ++ str "hi")) as H.
  assert (parse_proxy_protocol (v2_message demo_src demo_dst [] ++ str "hi") = (Success demo_src, str "hi")) as E
    by (vm_compute; reflexivity).
  exists (str "hi"). split; [exact E|]. rw E in H. destruct H as [_ (h & Hh & Hl & _)].
  exists h. split; [exact Hh|exact Hl].
Defined.
