(* ===== verification/Multiaddr.v ===== *)
(** * Multiaddresses

    [multiaddr/src/{protocol,lib,onion_addr,error}.rs]: the address components
    with their binary and text formats, and [Multiaddr], a byte string that
    holds a sequence of components. The varint, base-58 and base-32 crates and
    the Unicode case mapping are parameters ([AddrCodecs]). Lifetimes and
    copy-on-write are dropped ([acquire] is the identity), and so is the
    payload of [ParsingError]. A [usize] has 64 bits. Loops take fuel and
    return [None] when it runs out; the facts show that it never does. *)
From S2P Require Import Prelude Text StdNet.

(** [unsigned_varint::decode::Error]. *)
Inductive VarintError := Insufficient | Overflow | NotMinimal.

Class AddrCodecs := {
  (** [unsigned_varint]: one format for all widths; the decoders check it. *)
  uv_encode : Z → bytes;
  uv_decode : Z → bytes → (Z * bytes) + VarintError;
  bs58_encode : bytes → bytes;
  bs58_decode : bytes → option bytes;
  (** [data_encoding::BASE32]. *)
  b32_encode : bytes → bytes;
  b32_decode_len : nat → option nat;
  b32_decode : bytes → option bytes;
  (** [str::to_uppercase], [str::to_lowercase]. *)
  to_uppercase : bytes → bytes;
  to_lowercase : bytes → bytes;
}.

(** The characters of base 32 are upper-case letters and the digits 2 to 7. *)
Definition b32_char (c : byte) : bool := byte_in 65 90 c || byte_in 50 55 c.

Class AddrCodecsLaws `{AddrCodecs} : Prop := {
  uv_decode_encode w n rest :
    w = 32 ∨ w = 64 → 0 ≤ n < 2 ^ w → uv_decode w (uv_encode n ++ rest) = inl (n, rest);
  (** A decoder reads a non-empty prefix of at most ten bytes and returns what
      follows it. Nothing is assumed of that prefix being the only encoding of
      the number. *)
  uv_decode_prefix w b n rest :
    w = 32 ∨ w = 64 → uv_decode w b = inl (n, rest) →
    0 ≤ n < 2 ^ w ∧
    ∃ hdr, (0 < length hdr ≤ 10)%nat ∧ b = hdr ++ rest ∧ ∀ rest', uv_decode w (hdr ++ rest') = inl (n, rest');
  uv_encode_nonempty n : uv_encode n ≠ [];
  bs58_decode_encode b : bs58_decode (bs58_encode b) = Some b;
  bs58_no_slash b : chr 47 ∉ bs58_encode b;
  b32_len_56 : b32_decode_len 56 = Some 35%nat;
  b32_encode_length h : length h = 35%nat → length (b32_encode h) = 56%nat;
  b32_decode_encode h : length h = 35%nat → b32_decode (b32_encode h) = Some h;
  b32_decode_length s h : length s = 56%nat → b32_decode s = Some h → length h = 35%nat;
  b32_encode_chars h : length h = 35%nat → forallb b32_char (b32_encode h) = true;
  to_uppercase_ascii s : is_ascii s = true → to_uppercase s = ascii_upper <$> s;
  to_lowercase_ascii s : is_ascii s = true → to_lowercase s = ascii_lower <$> s;
}.

Inductive Error :=
| DataLessThanLen
| InvalidMultiaddr
| InvalidOnion3Addr
| InvalidProtocolString
| InvalidUvar (e : VarintError)
| ParsingError
| UnknownHash
| UnknownProtocolId (id : Z)
| UnknownProtocolString.

Definition DNS4 : Z := 0x36.
Definition DNS6 : Z := 0x37.
Definition IP4 : Z := 0x04.
Definition IP6 : Z := 0x29.
Definition P2P_ID : Z := 0x01a5.
Definition TCP : Z := 0x06.
Definition TLS : Z := 0x01c0.
Definition WS : Z := 0x01dd.
Definition WSS : Z := 0x01de.
Definition MEMORY : Z := 0x0309.
Definition ONION3 : Z := 0x01bd.
Definition QUICV1 : Z := 0x01cd.
Definition UDP : Z := 0x0111.
Definition SHA256_CODE : Z := 0x12.
Definition SHA256_SIZE : Z := 32.

(** [Onion3Addr]: 35 bytes and a port. *)
Record Onion3Addr := mkOnion3 { hash : bytes; onion_port : Z }.

Inductive Protocol :=
| Dns4 (s : bytes)
| Dns6 (s : bytes)
| Ip4 (a : Ipv4Addr)
| Ip6 (a : Ipv6Addr)
| P2P (b : bytes)
| Tcp (port : Z)
| Tls (s : bytes)
| Ws
| Wss
| Memory (port : Z)
| Onion3 (a : Onion3Addr)
| Udp (port : Z)
| QuicV1.

Abbreviation slash := (chr 47).

Section multiaddr.
Context `{!AddrCodecs}.

(** A parse: value and the rest of the input, or an error. *)
Definition PR (A B : Type) : Type := Res Error (A * B).

Definition rbind {A B C} (r : PR A B) (k : A → B → Res Error C) : Res Error C :=
  match r with Ok (a, b) => k a b | Err e => Err e | Panic => Panic end.

(** [ok_or(e)?]. *)
Definition ok_or {A B} (e : Error) (o : option A) (k : A → Res Error B) : Res Error B :=
  match o with Some a => k a | None => Err e end.

(** [decode::uN(input)?]. *)
Definition decode_uv (w : Z) (input : bytes) : PR Z bytes :=
  match uv_decode w input with inl r => Ok r | inr e => Err (InvalidUvar e) end.

Definition split_header (n : Z) (input : bytes) : PR bytes bytes :=
  if Z.of_nat (length input) <? n then Err DataLessThanLen
  else Ok (take (Z.to_nat n) input, drop (Z.to_nat n) input).

Definition check_p2p (data : bytes) : Res Error unit :=
  rbind (decode_uv 64 data) (λ code bs,
    if negb (code =? SHA256_CODE) then Err UnknownHash
    else if negb (Z.of_nat (length bs) =? SHA256_SIZE + 1) then Err UnknownHash
    else match bs with
    | b :: _ => if negb (byte_Z b =? SHA256_SIZE) then Err UnknownHash else Ok ()
    | [] => Panic
    end).

(** Reads [k] big-endian 16-bit numbers. *)
Fixpoint get_u16s (k : nat) (data : bytes) : list Z :=
  match k with
  | O => []
  | S k => be_Z (take 2 data) :: get_u16s k (drop 2 data)
  end.

(** A length-prefixed UTF-8 text. *)
Definition text_from_bytes (mk : bytes → Protocol) (input : bytes) : PR Protocol bytes :=
  rbind (decode_uv 64 input) (λ n input,
  rbind (split_header n input) (λ data rest,
  if utf8_valid data then Ok (mk data, rest) else Err ParsingError)).

Definition from_bytes (input : bytes) : PR Protocol bytes :=
  rbind (decode_uv 32 input) (λ id input,
  if id =? DNS4 then text_from_bytes Dns4 input
  else if id =? DNS6 then text_from_bytes Dns6 input
  else if id =? IP4 then
    rbind (split_header 4 input) (λ data rest,
    match byte_Z <$> data with
    | [a; b; c; d] => Ok (Ip4 (mkIp4 a b c d), rest)
    | _ => Panic
    end)
  else if id =? IP6 then
    rbind (split_header 16 input) (λ data rest, Ok (Ip6 (mkIp6 (get_u16s 8 data)), rest))
  else if id =? TLS then text_from_bytes Tls input
  else if id =? P2P_ID then
    rbind (decode_uv 64 input) (λ n input,
    rbind (split_header n input) (λ data rest,
    match check_p2p data with Ok _ => Ok (P2P data, rest) | Err e => Err e | Panic => Panic end))
  else if id =? TCP then
    rbind (split_header 2 input) (λ data rest, Ok (Tcp (be_Z data), rest))
  else if id =? WS then Ok (Ws, input)
  else if id =? WSS then Ok (Wss, input)
  else if id =? MEMORY then
    rbind (split_header 8 input) (λ data rest, Ok (Memory (be_Z data), rest))
  else if id =? ONION3 then
    rbind (split_header 37 input) (λ data rest,
    Ok (Onion3 (mkOnion3 (take 35 data) (be_Z (drop 35 data))), rest))
  else if id =? UDP then
    rbind (split_header 2 input) (λ data rest, Ok (Udp (be_Z data), rest))
  else if id =? QUICV1 then Ok (QuicV1, input)
  else Err (UnknownProtocolId id)).

Definition text_to_bytes (id : Z) (s : bytes) : bytes :=
  uv_encode id ++ uv_encode (length s) ++ s.

(** [write_to_bytes]: the bytes it appends. *)
Definition write_to_bytes (p : Protocol) : bytes :=
  match p with
  | Dns4 s => text_to_bytes DNS4 s
  | Dns6 s => text_to_bytes DNS6 s
  | Ip4 a => uv_encode IP4 ++ (Z_byte <$> octets a)
  | Ip6 a => uv_encode IP6 ++ concat (put_u16 <$> segments a)
  | Tcp port => uv_encode TCP ++ put_u16 port
  | Tls s => text_to_bytes TLS s
  | P2P b => text_to_bytes P2P_ID b
  | Ws => uv_encode WS
  | Wss => uv_encode WSS
  | Memory port => uv_encode MEMORY ++ put_u64 port
  | Onion3 a => uv_encode ONION3 ++ hash a ++ put_u16 (onion_port a)
  | Udp port => uv_encode UDP ++ put_u16 port
  | QuicV1 => uv_encode QUICV1
  end.

(** [hash_string]. *)
Definition hash_string (a : Onion3Addr) : bytes := to_lowercase (b32_encode (hash a)).

(** [Display for Protocol]: name and, if any, value, each after a slash. *)
Definition show_fields (p : Protocol) : list bytes :=
  match p with
  | Dns4 s => [str "dns4"; s]
  | Dns6 s => [str "dns6"; s]
  | Ip4 a => [str "ip4"; show_ip4 a]
  | Ip6 a => [str "ip6"; show_ip6 a]
  | P2P b => [str "p2p"; bs58_encode b]
  | Tcp port => [str "tcp"; show_dec port]
  | Tls s => [str "tls"; s]
  | Ws => [str "ws"]
  | Wss => [str "wss"]
  | Memory port => [str "memory"; show_dec port]
  | Onion3 a => [str "onion3"; hash_string a ++ [colon] ++ show_dec (onion_port a)]
  | Udp port => [str "udp"; show_dec port]
  | QuicV1 => [str "quic-v1"]
  end.
Definition show_protocol (p : Protocol) : bytes := concat ((λ f, slash :: f) <$> show_fields p).

(** [read_onion3]: 35 bytes, 56 base-32 characters. *)
Definition read_onion3 (s : bytes) : Res Error Onion3Addr :=
  match split colon s with
  | [] => Err InvalidMultiaddr
  | b32 :: parts =>
      if negb (bool_decide (length b32 = 56%nat)) then Err InvalidMultiaddr
      else match parts with
      | [] => Err InvalidMultiaddr
      | p :: parts =>
          ok_or ParsingError (parse_u16 p) (λ port,
          if port =? 0 then Err InvalidMultiaddr
          else match parts with
          | _ :: _ => Err InvalidMultiaddr
          | [] =>
              match b32_decode_len (length b32) with
              | None => Err InvalidMultiaddr
              | Some n =>
                  if negb (bool_decide (n = 35%nat)) then Err InvalidMultiaddr
                  else ok_or InvalidMultiaddr (b32_decode b32) (λ h, Ok (mkOnion3 h port))
              end
          end)
      end
  end.

(** [from_str_peek] on the remaining pieces of the text. *)
Definition from_str_peek (iter : list bytes) : PR Protocol (list bytes) :=
  match iter with
  | [] => Err InvalidProtocolString
  | name :: iter =>
      (* The value of a protocol that has one. *)
      let value (k : bytes → Res Error Protocol) : PR Protocol (list bytes) :=
        match iter with
        | [] => Err InvalidProtocolString
        | s :: rest => match k s with Ok p => Ok (p, rest) | Err e => Err e | Panic => Panic end
        end in
      if bool_decide (name = str "dns4") then value (λ s, Ok (Dns4 s))
      else if bool_decide (name = str "dns6") then value (λ s, Ok (Dns6 s))
      else if bool_decide (name = str "ip4") then
        value (λ s, ok_or ParsingError (parse_ip4 s) (λ a, Ok (Ip4 a)))
      else if bool_decide (name = str "ip6") then
        value (λ s, ok_or ParsingError (parse_ip6 s) (λ a, Ok (Ip6 a)))
      else if bool_decide (name = str "tls") then value (λ s, Ok (Tls s))
      else if bool_decide (name = str "p2p") then
        value (λ s, ok_or ParsingError (bs58_decode s) (λ decoded,
          match check_p2p decoded with Ok _ => Ok (P2P decoded) | Err e => Err e | Panic => Panic end))
      else if bool_decide (name = str "tcp") then
        value (λ s, ok_or ParsingError (parse_u16 s) (λ p, Ok (Tcp p)))
      else if bool_decide (name = str "ws") then Ok (Ws, iter)
      else if bool_decide (name = str "wss") then Ok (Wss, iter)
      else if bool_decide (name = str "memory") then
        value (λ s, ok_or ParsingError (parse_u64 s) (λ p, Ok (Memory p)))
      else if bool_decide (name = str "onion3") then
        value (λ s, match read_onion3 (to_uppercase s) with
                    | Ok a => Ok (Onion3 a) | Err e => Err e | Panic => Panic end)
      else if bool_decide (name = str "udp") then
        value (λ s, ok_or ParsingError (parse_u16 s) (λ p, Ok (Udp p)))
      else if bool_decide (name = str "quic-v1") then Ok (QuicV1, iter)
      else Err UnknownProtocolString
  end.

(** ** [Multiaddr] *)

Record Multiaddr := mkMultiaddr { ma_bytes : bytes }.

Definition is_empty (m : Multiaddr) : bool := bool_decide (ma_bytes m = []).
Definition ma_len (m : Multiaddr) : nat := length (ma_bytes m).

Definition push (m : Multiaddr) (p : Protocol) : Multiaddr := mkMultiaddr (ma_bytes m ++ write_to_bytes p).

(** The loop of [pop]: the last component and the slice that starts with it. *)
Fixpoint pop_loop (fuel : nat) (slice : bytes) : option (Res Error (Protocol * bytes)) :=
  match fuel with
  | O => None
  | S fuel =>
      match from_bytes slice with
      | Ok (p, s) => if bool_decide (s = []) then Some (Ok (p, slice)) else pop_loop fuel s
      | _ => Some Panic
      end
  end.

Definition pop (m : Multiaddr) : option (Res Error (option Protocol) * Multiaddr) :=
  let slice := ma_bytes m in
  if bool_decide (slice = []) then Some (Ok None, m)
  else match pop_loop (S (length slice)) slice with
  | Some (Ok (protocol, slice)) =>
      let remaining_len := (ma_len m - length slice)%nat in
      Some (Ok (Some protocol), mkMultiaddr (take remaining_len (ma_bytes m)))
  | Some _ => Some (Panic, m)
  | None => None
  end.

(** [Iter::next]. *)
Definition iter_next (s : bytes) : Res Error (option (Protocol * bytes)) :=
  if bool_decide (s = []) then Ok None
  else match from_bytes s with
  | Ok (p, next_data) => Ok (Some (p, next_data))
  | _ => Panic
  end.

(** [iter().collect()]. *)
Fixpoint iter_loop (fuel : nat) (s : bytes) : option (Res Error (list Protocol)) :=
  match fuel with
  | O => None
  | S fuel =>
      match iter_next s with
      | Ok None => Some (Ok [])
      | Ok (Some (p, s)) =>
          match iter_loop fuel s with
          | Some (Ok ps) => Some (Ok (p :: ps))
          | r => r
          end
      | _ => Some Panic
      end
  end.
Definition iter (m : Multiaddr) : option (Res Error (list Protocol)) :=
  iter_loop (S (ma_len m)) (ma_bytes m).

(** [replace]: the loop over the components, [i] the index of the next one. *)
Fixpoint replace_loop (fuel : nat) (at_ : nat) (by_ : Protocol → option Protocol) (i : nat) (s : bytes)
    (address : bytes) (replaced : bool) : option (Res Error (option Multiaddr)) :=
  match fuel with
  | O => None
  | S fuel =>
      match iter_next s with
      | Ok None => Some (Ok (if replaced then Some (mkMultiaddr address) else None))
      | Ok (Some (p, s)) =>
          if bool_decide (i = at_) then
            match by_ p with
            | Some q => replace_loop fuel at_ by_ (S i) s (address ++ write_to_bytes q) true
            | None => Some (Ok None)
            end
          else replace_loop fuel at_ by_ (S i) s (address ++ write_to_bytes p) replaced
      | _ => Some Panic
      end
  end.
Definition replace (m : Multiaddr) (at_ : nat) (by_ : Protocol → option Protocol)
    : option (Res Error (option Multiaddr)) :=
  replace_loop (S (ma_len m)) at_ by_ 0 (ma_bytes m) [] false.

(** [Display for Multiaddr]. *)
Definition to_string (m : Multiaddr) : option (Res Error bytes) :=
  match iter m with
  | Some (Ok ps) => Some (Ok (concat (show_protocol <$> ps)))
  | Some _ => Some Panic
  | None => None
  end.

Definition from_iter (ps : list Protocol) : Multiaddr := mkMultiaddr (concat (write_to_bytes <$> ps)).

Fixpoint from_str_loop (fuel : nat) (parts : list bytes) (writer : bytes) : option (Res Error bytes) :=
  match parts with
  | [] => Some (Ok writer)
  | _ :: _ =>
      match fuel with
      | O => None
      | S fuel =>
          match from_str_peek parts with
          | Ok (p, parts) => from_str_loop fuel parts (writer ++ write_to_bytes p)
          | Err e => Some (Err e)
          | Panic => Some Panic
          end
      end
  end.
Definition from_str (input : bytes) : option (Res Error Multiaddr) :=
  match split slash input with
  | [] :: parts =>
      match from_str_loop (length parts) parts [] with
      | Some (Ok writer) =>
          Some (if bool_decide (writer = []) then Err InvalidMultiaddr else Ok (mkMultiaddr writer))
      | Some (Err e) => Some (Err e)
      | Some Panic => Some Panic
      | None => None
      end
  | _ => Some (Err InvalidMultiaddr)
  end.

Fixpoint try_from_loop (fuel : nat) (slice : bytes) : option (Res Error unit) :=
  if bool_decide (slice = []) then Some (Ok ())
  else match fuel with
  | O => None
  | S fuel =>
      match from_bytes slice with
      | Ok (_, s) => try_from_loop fuel s
      | Err e => Some (Err e)
      | Panic => Some Panic
      end
  end.
Definition try_from (v : bytes) : option (Res Error Multiaddr) :=
  match try_from_loop (length v) v with
  | Some (Ok _) => Some (Ok (mkMultiaddr v))
  | Some (Err e) => Some (Err e)
  | Some Panic => Some Panic
  | None => None
  end.

(** [From<Protocol>], [From<IpAddr>]. *)
Definition from_protocol (p : Protocol) : Multiaddr := mkMultiaddr (write_to_bytes p).
Definition protocol_from_ip (a : IpAddr) : Protocol :=
  match a with V4 a => Ip4 a | V6 a => Ip6 a end.
Definition from_ip (a : IpAddr) : Multiaddr := from_protocol (protocol_from_ip a).

(** [Serialize] and [Deserialize]: the text in a human-readable format, the
    bytes otherwise. *)
Definition serialize (human_readable : bool) (m : Multiaddr) : option (Res Error bytes) :=
  if human_readable then to_string m else Some (Ok (ma_bytes m)).
Definition deserialize (human_readable : bool) (v : bytes) : option (Res Error Multiaddr) :=
  if human_readable then from_str v else try_from v.
End multiaddr.
