(* ===== verification/MultiaddrFacts.v ===== *)
(** * Multiaddresses: facts

    The byte and text formats of the components round-trip, and the byte
    string of a [Multiaddr] implements the list of its components. *)
From S2P Require Import Prelude Text StdNet Multiaddr.

#[local] Opaque show_dec show_ip4 show_ip6.

(** ** Parsers that look at a prefix only *)

Definition local_parser {A} (f : bytes → PR A bytes) : Prop :=
  ∀ b a rest, f b = Ok (a, rest) →
  ∃ hdr, b = hdr ++ rest ∧ ∀ rest', f (hdr ++ rest') = Ok (a, rest').

Section facts.
Context {AC : AddrCodecs} {AL : AddrCodecsLaws}.

Lemma local_ret {A} (a : A) : local_parser (λ b, Ok (a, b)).
Proof. intros b ? rest [= <- <-]. by exists []. Qed.

Lemma local_fail {A} (e : Error) : local_parser (λ _, Err e : PR A bytes).
Proof. by intros b a rest. Qed.

Lemma local_panic {A} : local_parser (λ _, Panic : PR A bytes).
Proof. by intros b a rest. Qed.

Lemma local_bind {A B} (f : bytes → PR A bytes) (g : A → bytes → PR B bytes) :
  local_parser f → (∀ a, local_parser (g a)) → local_parser (λ b, rbind (f b) g).
Proof.
  intros Hf Hg b x rest. rw /rbind. destruct (f b) as [[a b1]|e|] eqn:E; [|done..]. intros Hx.
  apply Hf in E as (h1 & -> & H1). apply Hg in Hx as (h2 & -> & H2).
  exists (h1 ++ h2). split; [by rw app_assoc|]. intros rest'. by rw -app_assoc H1.
Qed.

Lemma local_if {A} (c : bool) (f g : bytes → PR A bytes) :
  local_parser f → local_parser g → local_parser (λ b, if c then f b else g b).
Proof. by destruct c. Qed.

Lemma local_decode_uv w : w = 32 ∨ w = 64 → local_parser (decode_uv w).
Proof.
  intros Hw b n rest. rw /decode_uv. destruct (uv_decode w b) as [[n' r]|] eqn:E; [|done].
  intros [= -> ->]. destruct (uv_decode_prefix _ _ _ _ Hw E) as (_ & hdr & _ & -> & H).
  exists hdr. split; [done|]. intros rest'. by rw H.
Qed.

Lemma local_split_header n : local_parser (split_header n).
Proof.
  intros b d rest. rw /split_header. case: Z.ltb_spec => Hn; [done|]. intros [= <- <-].
  exists (take (Z.to_nat n) b). split; [by rw take_drop|]. intros rest'.
  assert (length (take (Z.to_nat n) b) = Z.to_nat n) as Hl by (rw length_take; lia).
  rewrite -> (proj2 (Z.ltb_ge _ _)) by (rw length_app Hl; lia).
  rewrite -> take_app_length', drop_app_length' by done. done.
Qed.

Lemma local_text mk : local_parser (text_from_bytes mk).
Proof.
  apply local_bind; [apply local_decode_uv; by right|]. intros n. apply local_bind; [apply local_split_header|].
  intros d. apply local_if; [apply local_ret|apply local_fail].
Qed.

Lemma local_fields {A} n (k : bytes → bytes → PR A bytes) :
  (∀ d, local_parser (k d)) → local_parser (λ b, rbind (split_header n b) k).
Proof. apply local_bind, local_split_header. Qed.

Lemma local_from_bytes : local_parser from_bytes.
Proof.
  apply local_bind; [apply local_decode_uv; by left|]. intros id.
  repeat apply local_if; try apply local_text; try apply local_ret; try apply local_fail;
    try (apply local_fields; intros d; apply local_ret).
  - apply local_fields. intros d. destruct (byte_Z <$> d) as [|? [|? [|? [|? [|]]]]];
      first [apply local_ret|apply local_panic].
  - apply local_bind; [apply local_decode_uv; by right|]. intros n. apply local_fields. intros d.
    destruct (check_p2p d); [apply local_ret|apply local_fail|apply local_panic].
Qed.

(** ** Well-formed components *)

Definition text_wf (s : bytes) : Prop := utf8_valid s = true ∧ Z.of_nat (length s) < 2 ^ 64.

Definition proto_wf (p : Protocol) : Prop :=
  match p with
  | Dns4 s | Dns6 s | Tls s => text_wf s
  | Ip4 a => ip4_wf a
  | Ip6 a => ip6_wf a
  | P2P b => check_p2p b = Ok ()
  | Tcp port | Udp port => is_u16 port
  | Memory port => is_u64 port
  | Onion3 a => length (hash a) = 35%nat ∧ is_u16 (onion_port a)
  | Ws | Wss | QuicV1 => True
  end.

Lemma split_header_Ok n b d rest :
  0 ≤ n → split_header n b = Ok (d, rest) → Z.of_nat (length d) = n ∧ b = d ++ rest.
Proof.
  rw /split_header. case: Z.ltb_spec => Hn H0; [done|]. intros [= <- <-]. rw length_take take_drop. split; [lia|done].
Qed.

Lemma split_header_app n (d rest : bytes) :
  Z.of_nat (length d) = n → split_header n (d ++ rest) = Ok (d, rest).
Proof.
  intros <-. rw /split_header. rewrite -> (proj2 (Z.ltb_ge _ _)) by (rw length_app; lia).
  rw Nat2Z.id take_app_length drop_app_length //.
Qed.

Lemma decode_uv_Ok w b n rest : w = 32 ∨ w = 64 → decode_uv w b = Ok (n, rest) → 0 ≤ n < 2 ^ w.
Proof.
  intros Hw. rw /decode_uv. destruct (uv_decode w b) as [[n' r]|] eqn:E; [|done].
  intros [= -> ->]. by destruct (uv_decode_prefix _ _ _ _ Hw E).
Qed.

Lemma decode_uv_encode w n rest :
  w = 32 ∨ w = 64 → 0 ≤ n < 2 ^ w → decode_uv w (uv_encode n ++ rest) = Ok (n, rest).
Proof. intros Hw Hn. rw /decode_uv uv_decode_encode //. Qed.

(** A multihash that passes the check has at most 43 bytes. *)
Lemma check_p2p_length b : check_p2p b = Ok () → (length b ≤ 43)%nat.
Proof.
  rw /check_p2p /rbind /decode_uv. destruct (uv_decode 64 b) as [[n r]|] eqn:E; [|done].
  destruct (uv_decode_prefix _ _ _ _ (or_intror eq_refl) E) as (_ & hdr & Hh & -> & _).
  case: (negb (n =? SHA256_CODE)); [done|]. case: Z.eqb_spec => Hl; [|done]. intros _.
  rw /SHA256_SIZE in Hl. rw length_app. lia.
Qed.

Lemma get_u16s_wf k d : length d = (2 * k)%nat → length (get_u16s k d) = k ∧ Forall is_u16 (get_u16s k d).
Proof.
  revert d. induction k as [|k IH]; intros d Hd; simpl; [done|].
  destruct (IH (drop 2 d)) as [IH1 IH2]; [rw length_drop; lia|]. split; [lia|]. constructor; [|done].
  pose proof (be_Z_range (take 2 d)) as Hr. rw length_take in Hr.
  replace (2 `min` length d)%nat with 2%nat in Hr by lia. unfold_int. simpl in Hr. lia.
Qed.

Lemma get_u16s_put segs rest :
  Forall is_u16 segs → get_u16s (length segs) (concat (put_u16 <$> segs) ++ rest) = segs.
Proof.
  induction 1 as [|x segs Hx _ IH]; [done|]. cbn [fmap list_fmap concat length get_u16s].
  rw -app_assoc. rewrite -> take_app_length', drop_app_length' by (rw /put_u16 length_be_bytes //). rw IH.
  f_equal. apply be_Z_put. unfold_int. simpl. lia.
Qed.

Lemma be_Z_u16 d : length d = 2%nat → is_u16 (be_Z d).
Proof. intros Hd. pose proof (be_Z_range d) as Hr. rw Hd in Hr. change (256 ^ 2%nat) with 65536 in Hr. unfold_int. lia. Qed.

Lemma be_Z_u64 d : length d = 8%nat → is_u64 (be_Z d).
Proof.
  intros Hd. pose proof (be_Z_range d) as Hr. rw Hd in Hr.
  change (256 ^ 8%nat) with (2 ^ 64) in Hr. unfold_int. lia.
Qed.

Lemma text_from_bytes_Ok mk b p rest :
  text_from_bytes mk b = Ok (p, rest) → ∃ s, p = mk s ∧ text_wf s.
Proof.
  rw /text_from_bytes /rbind. destruct (decode_uv 64 b) as [[n b1]|?|] eqn:En; [|done..].
  destruct (split_header n b1) as [[d r]|?|] eqn:Ed; [|done..].
  destruct (utf8_valid d) eqn:Eu; [|done]. intros [= <- <-]. exists d. split; [done|].
  apply decode_uv_Ok in En; [|by right]. apply split_header_Ok in Ed as [? _]; [|lia]. split; [done|lia].
Qed.

Lemma fields_Ok {A} n b (k : bytes → bytes → Res Error A) x :
  0 ≤ n → rbind (split_header n b) k = Ok x →
  ∃ d r, length d = Z.to_nat n ∧ k d r = Ok x.
Proof.
  intros Hn. rw /rbind. destruct (split_header n b) as [[d r]|?|] eqn:E; [|done..].
  apply split_header_Ok in E as [? _]; [|done]. intros. exists d, r. split; [lia|done].
Qed.

Lemma from_bytes_wf b p rest : from_bytes b = Ok (p, rest) → proto_wf p.
Proof.
  rw /from_bytes {1}/rbind. destruct (decode_uv 32 b) as [[id b1]|?|]; [|done..].
  repeat (case: (_ =? _); [try (intros (s & -> & Hs)%text_from_bytes_Ok; exact Hs)|]); try done.
  all: try (intros (d & r & Hd & [= <- <-])%fields_Ok; [|lia]; first [by apply be_Z_u16|by apply be_Z_u64]).
  all: try by intros [= <- <-].
  - intros (d & r & Hd & Hk)%fields_Ok; [|lia]. 
    do 4 (destruct d as [|? d]; [done|]). destruct d; [|done]. injection Hk as <- <-.
    repeat constructor; simpl; match goal with |- context [byte_Z ?x] => pose proof (byte_Z_range x) end;
      unfold_int; lia.
  - intros (d & r & Hd & [= <- <-])%fields_Ok; [|lia]. exact (get_u16s_wf 8 d Hd).
  - rw {1}/rbind. destruct (decode_uv 64 b1) as [[n b2]|?|] eqn:En; [|done..].
    apply decode_uv_Ok in En; [|by right]. intros (d & r & Hd & Hk)%fields_Ok; [|lia].
    destruct (check_p2p d) as [[]|?|] eqn:Ec; [|done..]. by injection Hk as <- <-.
  - intros (d & r & Hd & Hk)%fields_Ok; [|lia].
    assert (p = Onion3 (mkOnion3 (take 35 d) (be_Z (drop 35 d)))) as -> by congruence.
    split; cbn [hash onion_port]; [rw length_take; lia|].
    apply be_Z_u16. rw length_drop. lia.
Qed.

(** ** Encoding and decoding a component *)

Lemma text_from_write mk s rest :
  text_wf s → text_from_bytes mk (uv_encode (length s) ++ s ++ rest) = Ok (mk s, rest).
Proof.
  intros [Hu Hl]. rw /text_from_bytes decode_uv_encode; [|by right|lia]. simpl.
  rw split_header_app //=. by rw Hu.
Qed.

Lemma fields_app {A} n d rest (k : bytes → bytes → Res Error A) :
  Z.of_nat (length d) = n → rbind (split_header n (d ++ rest)) k = k d rest.
Proof. intros Hn. by rw split_header_app. Qed.

Lemma be_Z_put_u16 n : is_u16 n → be_Z (put_u16 n) = n.
Proof. intros Hn. apply be_Z_put. change (256 ^ 2%nat) with 65536. unfold_int. lia. Qed.

Lemma be_Z_put_u64 n : is_u64 n → be_Z (put_u64 n) = n.
Proof. intros Hn. apply be_Z_put. change (256 ^ 8%nat) with (2 ^ 64). unfold_int. lia. Qed.

Lemma bytes_of_u8s zs : Forall is_u8 zs → byte_Z <$> (Z_byte <$> zs) = zs.
Proof.
  induction 1 as [|z zs Hz _ IH]; [done|]. cbn [fmap list_fmap]. f_equal; [|exact IH].
  rw byte_Z_Z_byte Z.mod_small //. unfold_int. lia.
Qed.

Lemma from_bytes_write p rest : proto_wf p → from_bytes (write_to_bytes p ++ rest) = Ok (p, rest).
Proof.
  intros Hwf. rw /from_bytes.
  destruct p as [s|s|a|a|b|port|s| | |port|a|port|]; cbn [write_to_bytes]; rw /text_to_bytes -?app_assoc;
    (rw decode_uv_encode; [|by left|done]); cbn [rbind Z.eqb Pos.eqb DNS4 DNS6 IP4 IP6 TLS P2P_ID TCP WS WSS MEMORY ONION3 UDP QUICV1].
  all: try done; try (by apply text_from_write).
  all: try (rw fields_app; [|done]; by rw ?be_Z_put_u16 ?be_Z_put_u64).
  - rw fields_app // bytes_of_u8s //. by destruct a.
  - destruct Hwf as [Hl Hs]. rw fields_app; [|rw length_concat_put Hl //].
    rw -(app_nil_r (concat _)). rw -{1}Hl get_u16s_put //. by destruct a.
  - simpl in Hwf. rw decode_uv_encode; [|by right|apply check_p2p_length in Hwf; lia].
    cbn [rbind]. rw fields_app //. by rw Hwf.
  - destruct Hwf as [Hl Hp]. rw app_assoc fields_app; [|rw length_app Hl //].
    rewrite -> take_app_length', drop_app_length' by done. rw be_Z_put_u16 //. by destruct a.
Qed.

Lemma write_nonempty p : write_to_bytes p ≠ [].
Proof.
  intros H. assert (∃ id, uv_encode id = []) as [id Hid].
  { destruct p; cbn [write_to_bytes] in H; rw ?/text_to_bytes in H; try (apply app_eq_nil in H as [H _]);
      by eexists. }
  by apply uv_encode_nonempty in Hid.
Qed.

Lemma from_bytes_prefix b p rest :
  from_bytes b = Ok (p, rest) →
  ∃ hdr, hdr ≠ [] ∧ b = hdr ++ rest ∧ ∀ rest', from_bytes (hdr ++ rest') = Ok (p, rest').
Proof.
  intros Hb. destruct (local_from_bytes _ _ _ Hb) as (hdr & -> & Hl). exists hdr. split; [|done].
  intros ->. specialize (Hl []). rw /from_bytes in Hl. cbn [app] in Hl.
  destruct (decode_uv 32 []) as [[n r]|?|] eqn:E; [|done..]. rw /decode_uv in E.
  destruct (uv_decode 32 []) as [[n' r']|] eqn:E'; [|done].
  destruct (uv_decode_prefix _ _ _ _ (or_introl eq_refl) E') as (_ & h & Hh & Heq & _).
  destruct h; [simpl in Hh; lia|done].
Qed.

Lemma check_p2p_no_panic b : check_p2p b ≠ Panic.
Proof.
  rw /check_p2p /rbind. destruct (decode_uv 64 b) as [[n r]|?|] eqn:E; [|done|].
  - repeat case_match; try done.
  - rw /decode_uv in E. by destruct (uv_decode 64 b).
Qed.

Lemma from_bytes_no_panic b : from_bytes b ≠ Panic.
Proof.
  assert (∀ w b, decode_uv w b ≠ Panic) as Hd by (intros; rw /decode_uv; by case_match).
  assert (∀ n b, split_header n b ≠ Panic) as Hs by (intros; rw /split_header; by case_match).
  assert (∀ mk b, text_from_bytes mk b ≠ Panic) as Ht.
  { intros mk b'. rw /text_from_bytes /rbind. specialize (Hd 64 b'). destruct (decode_uv 64 b') as [[n r]|?|]; [|done..].
    specialize (Hs n r). destruct (split_header n r) as [[d r']|?|]; [|done..]. by case_match. }
  rw /from_bytes {1}/rbind. specialize (Hd 32 b) as H32. destruct (decode_uv 32 b) as [[id b1]|?|]; [|done..].
  repeat (case: (_ =? _); [try done; try apply Ht|]); try done.
  all: rw {1}/rbind; try (match goal with |- context [split_header ?n ?b] =>
         specialize (Hs n b) as Hn; destruct (split_header n b) as [[d r]|?|] eqn:Ed; [|done..] end).
  all: try done.
  - apply split_header_Ok in Ed as [Hl _]; [|lia]. assert (length d = 4%nat) as Hd4 by lia.
    do 4 (destruct d as [|? d]; [done|]). by destruct d.
  - specialize (Hd 64 b1). destruct (decode_uv 64 b1) as [[n r]|?|]; [|done..]. rw /rbind.
    specialize (Hs n r). destruct (split_header n r) as [[d r']|?|]; [|done..].
    pose proof (check_p2p_no_panic d). by destruct (check_p2p d).
Qed.

(** ** The components of a byte string *)

Inductive Comps : bytes → list Protocol → Prop :=
| Comps_nil : Comps [] []
| Comps_cons b p rest ps : from_bytes b = Ok (p, rest) → Comps rest ps → Comps b (p :: ps).

Lemma Comps_app b ps b' ps' : Comps b ps → Comps b' ps' → Comps (b ++ b') (ps ++ ps').
Proof.
  intros Hb Hb'. induction Hb as [|b p rest ps Hp _ IH]; [done|].
  destruct (from_bytes_prefix _ _ _ Hp) as (hdr & _ & -> & Hl). rw -app_assoc. simpl.
  econstructor; [apply Hl|done].
Qed.

Lemma Comps_write p : proto_wf p → Comps (write_to_bytes p) [p].
Proof.
  intros Hwf. econstructor; [|constructor]. rw -{1}(app_nil_r (write_to_bytes p)). by apply from_bytes_write.
Qed.

Lemma Comps_concat ps : Forall proto_wf ps → Comps (concat (write_to_bytes <$> ps)) ps.
Proof.
  induction 1 as [|p ps Hp _ IH]; [constructor|]. cbn [fmap list_fmap concat].
  apply (Comps_app _ [p] _ ps); [by apply Comps_write|done].
Qed.

Lemma Comps_wf b ps : Comps b ps → Forall proto_wf ps.
Proof. induction 1; constructor; [by eapply from_bytes_wf|done]. Qed.

Lemma Comps_length b ps : Comps b ps → (length ps ≤ length b)%nat.
Proof.
  induction 1 as [|b p rest ps Hp _ IH]; [done|].
  destruct (from_bytes_prefix _ _ _ Hp) as ([|x hdr] & ? & -> & _); [done|]. simpl. rw length_app. lia.
Qed.

Lemma Comps_det b ps ps' : Comps b ps → Comps b ps' → ps = ps'.
Proof.
  intros Hb. revert ps'. induction Hb as [|b p rest ps Hp _ IH]; intros ps' Hb'; inversion Hb'; subst; try done.
  - by destruct (from_bytes_prefix _ _ _ H) as ([|? ?] & ? & ? & _).
  - by destruct (from_bytes_prefix _ _ _ Hp) as ([|? ?] & ? & ? & _).
  - rw H in Hp. injection Hp as -> ->. f_equal. by apply IH.
Qed.

(** ** The loops *)

Lemma iter_next_cons b p rest : from_bytes b = Ok (p, rest) → iter_next b = Ok (Some (p, rest)).
Proof.
  intros Hp. rw /iter_next Hp. destruct (from_bytes_prefix _ _ _ Hp) as ([|? ?] & ? & -> & _); [done|].
  by rw bool_decide_eq_false_2.
Qed.

Lemma iter_loop_Comps b ps fuel : Comps b ps → (length ps < fuel)%nat → iter_loop fuel b = Some (Ok ps).
Proof.
  intros Hb. revert fuel. induction Hb as [|b p rest ps Hp _ IH]; intros [|fuel] Hf; simpl in *; try lia; [done|].
  rw (iter_next_cons _ _ _ Hp) IH //. lia.
Qed.

Lemma iter_Comps m ps : Comps (ma_bytes m) ps → iter m = Some (Ok ps).
Proof. intros H. apply iter_loop_Comps; [done|]. apply Comps_length in H. rw /ma_len. lia. Qed.

Lemma iter_loop_inv fuel b ps : iter_loop fuel b = Some (Ok ps) → Comps b ps.
Proof.
  revert b ps. induction fuel as [|fuel IH]; intros b ps; simpl; [done|]. rw /iter_next.
  case_bool_decide as Hb; [intros [= <-]; subst; constructor|].
  destruct (from_bytes b) as [[p rest]|?|] eqn:Ef; [|done..].
  destruct (iter_loop fuel rest) as [[qs|?|]|] eqn:E; try done. intros [= <-].
  econstructor; [done|]. by apply IH.
Qed.

Lemma pop_loop_Comps b ps p fuel :
  Comps b (ps ++ [p]) → (length ps < fuel)%nat →
  ∃ pre last, b = pre ++ last ∧ pop_loop fuel b = Some (Ok (p, last)) ∧ Comps pre ps.
Proof.
  revert b fuel. induction ps as [|q ps IH]; intros b [|fuel] Hb Hf; simpl in *; try lia;
    inversion Hb as [|? ? rest ? Hp Hr]; subst; rw Hp.
  - inversion Hr; subst. exists [], b. split_and!; [done..|constructor].
  - destruct (IH rest fuel Hr ltac:(lia)) as (pre & last & -> & Hl & Hc).
    destruct (from_bytes_prefix _ _ _ Hp) as (hdr & _ & -> & Hh). exists (hdr ++ pre), last.
    rw bool_decide_eq_false_2.
    { split_and!; [by rw app_assoc|done|]. econstructor; [apply Hh|done]. }
    intros Hn. rw Hn in Hr. inversion Hr as [|? ? ? ? He]; [by destruct ps|].
    by destruct (from_bytes_prefix _ _ _ He) as ([|? ?] & ? & ? & _).
Qed.

Lemma replace_loop_Comps b ps at_ by_ fuel i addr qs replaced :
  Comps b ps → (length ps < fuel)%nat → Comps addr qs → (∀ p q, by_ p = Some q → proto_wf q) →
  match ps !! (at_ - i)%nat with
  | Some p => (i ≤ at_)%nat →
      match by_ p with
      | Some q => ∃ a, replace_loop fuel at_ by_ i b addr replaced = Some (Ok (Some (mkMultiaddr a))) ∧
                       Comps a (qs ++ <[(at_ - i)%nat := q]> ps)
      | None => replace_loop fuel at_ by_ i b addr replaced = Some (Ok None)
      end
  | None => (i ≤ at_)%nat → replaced = false →
      replace_loop fuel at_ by_ i b addr replaced = Some (Ok None)
  end ∧
  ((at_ < i)%nat → ∃ a, Comps a (qs ++ ps) ∧
    replace_loop fuel at_ by_ i b addr replaced =
    Some (Ok (if replaced then Some (mkMultiaddr a) else None))).
Proof.
  intros Hb. revert fuel i addr qs replaced. induction Hb as [|b p rest ps Hp Hr IH];
    intros [|fuel] i addr qs replaced Hf Ha Hby; simpl in Hf; try lia; cbn [replace_loop].
  { rw lookup_nil /=. split; [by intros _ ->|]. intros _. exists addr. by rw app_nil_r. }
  rw (iter_next_cons _ _ _ Hp).
  assert (proto_wf p) as Hwp by by eapply from_bytes_wf.
  destruct (decide (i = at_)) as [->|Hne].
  - rw bool_decide_eq_true_2 // Nat.sub_diag /=. split; [|lia]. intros _.
    destruct (by_ p) as [q|] eqn:Hq; [|done].
    destruct (IH fuel (S at_) (addr ++ write_to_bytes q) (qs ++ [q]) true) as [_ Hgt]; [lia| |done|].
    { apply Comps_app; [done|]. apply Comps_write. by eapply Hby. }
    destruct (Hgt ltac:(lia)) as (a & Hc & ->). exists a. split; [done|]. by rw -app_assoc in Hc.
  - rw bool_decide_eq_false_2 //.
    destruct (IH fuel (S i) (addr ++ write_to_bytes p) (qs ++ [p]) replaced) as [Hle Hgt]; [lia| |done|].
    { apply Comps_app; [done|]. by apply Comps_write. }
    split.
    + destruct (decide (i ≤ at_)%nat) as [Hi|]; [|by destruct ((p :: ps) !! (at_ - i)%nat); intros; exfalso].
      replace (at_ - i)%nat with (S (at_ - S i)) by lia. cbn [lookup list_lookup].
      change (list_lookup (at_ - S i)%nat ps) with (ps !! (at_ - S i)%nat).
      destruct (ps !! (at_ - S i)%nat) as [p'|]; [|intros _; apply Hle; lia]. intros _.
      specialize (Hle ltac:(lia)). destruct (by_ p') as [q|]; [|done].
      destruct Hle as (a & Ha' & Hc). exists a. split; [done|]. by rw -app_assoc in Hc.
    + intros Hlt. destruct (Hgt ltac:(lia)) as (a & Hc & Heq). exists a. by rw -app_assoc in Hc.
Qed.

Lemma pop_Comps m ps :
  Comps (ma_bytes m) ps →
  ∃ m', pop m = Some (Ok (last ps), m') ∧ iter m' = Some (Ok (removelast ps)).
Proof.
  intros Hc. rw /pop. destruct ps as [|q ps _] using rev_ind.
  { assert (ma_bytes m = []) as Hb by by inversion Hc. rw Hb. exists m. split; [done|].
    by apply iter_Comps. }
  pose proof (Comps_length _ _ Hc) as Hl. rw length_app /= in Hl.
  rw bool_decide_eq_false_2; [|intros Hb; rw Hb /= in Hl; lia].
  destruct (pop_loop_Comps _ ps q (S (length (ma_bytes m))) Hc ltac:(lia)) as (pre & lst & Hb & -> & Hp).
  eexists. split; [by rw last_snoc|]. rw removelast_last. apply iter_Comps. cbn [ma_bytes].
  rw /ma_len Hb length_app. replace (length pre + length lst - length lst)%nat with (length pre) by lia.
  by rw take_app_length.
Qed.

Lemma replace_Comps m ps at_ by_ :
  Comps (ma_bytes m) ps → (∀ x q, by_ x = Some q → proto_wf q) →
  match ps !! at_ ≫= by_ with
  | Some q => ∃ m', replace m at_ by_ = Some (Ok (Some m')) ∧ iter m' = Some (Ok (<[at_ := q]> ps))
  | None => replace m at_ by_ = Some (Ok None)
  end.
Proof.
  intros Hc Hby. pose proof (Comps_length _ _ Hc) as Hl.
  destruct (replace_loop_Comps _ ps at_ by_ (S (ma_len m)) 0 [] [] false Hc
    ltac:(rw /ma_len; lia) Comps_nil Hby) as [H _]. rw Nat.sub_0_r in H. rw /replace.
  destruct (ps !! at_) as [x|]; simpl; [|apply H; [lia|done]].
  specialize (H ltac:(lia)). destruct (by_ x) as [q|]; [|done].
  destruct H as (a & Heq & Ha). exists (mkMultiaddr a). split; [done|]. by apply iter_Comps.
Qed.

Lemma try_from_loop_total b fuel :
  (length b ≤ fuel)%nat →
  (∃ ps, Comps b ps ∧ try_from_loop fuel b = Some (Ok ())) ∨
  (∃ e, try_from_loop fuel b = Some (Err e) ∧ ∀ ps, ¬ Comps b ps).
Proof.
  revert b. induction fuel as [|fuel IH]; intros b Hf; cbn [try_from_loop]; case_bool_decide as Hb.
  1,3: subst; left; exists []; split; [constructor|done].
  { destruct b; [done|simpl in Hf; lia]. }
  destruct (from_bytes b) as [[p rest]|e|] eqn:E; [|right; exists e; split; [done|]|by destruct (from_bytes_no_panic b)].
  - destruct (from_bytes_prefix _ _ _ E) as ([|x hdr] & ? & -> & _); [done|]. simpl in Hf. rw length_app in Hf.
    destruct (IH rest) as [(ps & Hps & ->)|(e & -> & Hn)]; [lia|left; exists (p :: ps)|right; exists e].
    + split; [by econstructor|done].
    + split; [done|]. intros ps Hps. inversion Hps; subst. rw H0 in E. simplify_eq. by eapply Hn.
  - intros ps Hps. inversion Hps; subst; [done|]. by rw H in E.
Qed.

(** ** Text *)

(** What the text format can carry: names without a slash, and no onion port
    0, which the text parser refuses. *)
Definition printable (p : Protocol) : Prop :=
  match p with
  | Dns4 s | Dns6 s | Tls s => slash ∉ s
  | Onion3 a => onion_port a ≠ 0
  | _ => True
  end.

Lemma b32_char_upper c : b32_char c = true → ascii_upper (ascii_lower c) = c.
Proof.
  intros Hc. apply ascii_upper_lower. rw /b32_char /byte_in in Hc |- *.
  apply andb_false_iff. rw !Z.leb_gt. apply orb_true_iff in Hc as [Hc|Hc]; apply andb_true_iff in Hc as [H1 H2];
    apply Z.leb_le in H1, H2; lia.
Qed.

Lemma upper_id c : byte_Z c < 97 → ascii_upper c = c.
Proof. intros Hc. rw /ascii_upper /byte_in. rewrite -> (proj2 (Z.leb_gt _ _)) by lia. done. Qed.

Lemma b32_bytes h c : length h = 35%nat → c ∈ b32_encode h → b32_char c = true ∧ (50 ≤ byte_Z c ≤ 90).
Proof.
  intros Hh Hc. pose proof (b32_encode_chars h Hh) as Hf.
  apply (proj1 (forallb_forall _ _)) with (x := c) in Hf; [|by apply list_elem_of_In]. split; [done|].
  rw /b32_char /byte_in in Hf. apply orb_true_iff in Hf as [Hf|Hf]; apply andb_true_iff in Hf as [H1 H2];
    apply Z.leb_le in H1, H2; lia.
Qed.

Lemma is_ascii_le s : (∀ c, c ∈ s → byte_Z c ≤ 127) → is_ascii s = true.
Proof. intros H. apply is_ascii_not_in. intros c Hc Hin. apply H in Hin. lia. Qed.

Lemma hash_string_eq a : length (hash a) = 35%nat → hash_string a = ascii_lower <$> b32_encode (hash a).
Proof.
  intros Hh. apply to_lowercase_ascii, is_ascii_le. intros c Hc. apply b32_bytes in Hc; [lia|done].
Qed.

Lemma ascii_lower_le c : byte_Z c ≤ 90 → byte_Z (ascii_lower c) ≤ 122.
Proof.
  rw /ascii_lower /byte_in. intros Hc. case_match eqn:E; [|lia].
  apply andb_true_iff in E as [H1 H2]. apply Z.leb_le in H1, H2. rw byte_Z_Z_byte Z.mod_small; lia.
Qed.

Lemma map_fixed (f : byte → byte) (s : bytes) : (∀ c, c ∈ s → f c = c) → f <$> s = s.
Proof.
  intros H. induction s as [|c s IH]; [done|]. cbn [fmap list_fmap]. f_equal; [apply H; set_solver|].
  apply IH. set_solver.
Qed.

Lemma onion_text_upper a :
  length (hash a) = 35%nat → 0 ≤ onion_port a →
  to_uppercase (hash_string a ++ [colon] ++ show_dec (onion_port a)) =
  b32_encode (hash a) ++ [colon] ++ show_dec (onion_port a).
Proof.
  intros Hh Hp. rw hash_string_eq // to_uppercase_ascii.
  - rw !fmap_app -list_fmap_compose (map_fixed (ascii_upper ∘ ascii_lower) (b32_encode (hash a))).
    + rw (map_fixed ascii_upper (show_dec (onion_port a))) //. intros c Hc. apply upper_id.
      destruct (show_dec_bytes _ c Hp Hc). lia.
    + intros c Hc. apply b32_char_upper. by destruct (b32_bytes _ _ Hh Hc).
  - apply is_ascii_le. intros c Hc. rw !elem_of_app in Hc. destruct Hc as [Hc|[Hc|Hc]].
    + apply list_elem_of_fmap in Hc as (c' & -> & Hc'). apply b32_bytes in Hc' as [_ Hr]; [|done].
      assert (byte_Z c' ≤ 90) as Hle by lia. apply ascii_lower_le in Hle. lia.
    + apply list_elem_of_singleton in Hc as ->. by vm_compute.
    + apply show_dec_bytes in Hc; [lia|done].
Qed.

Lemma read_onion3_text a :
  length (hash a) = 35%nat → is_u16 (onion_port a) → onion_port a ≠ 0 →
  read_onion3 (b32_encode (hash a) ++ [colon] ++ show_dec (onion_port a)) = Ok a.
Proof.
  intros Hh Hp Hp0. rw /read_onion3 split_app_sep.
  - rw split_no_sep; [|apply show_dec_not_in; [unfold_int; lia|]; right; left; by vm_compute].
    rw b32_encode_length // bool_decide_eq_true_2 //= parse_u16_show //=.
    rw (proj2 (Z.eqb_neq _ _)) // b32_len_56 /= b32_decode_encode //=. by destruct a.
  - intros Hc. apply b32_bytes in Hc as [Hc _]; [|done]. by vm_compute in Hc.
Qed.

Lemma from_str_peek_show p rest :
  proto_wf p → printable p → from_str_peek (show_fields p ++ rest) = Ok (p, rest).
Proof.
  intros Hwf Hpr. destruct p; cbn [show_fields app from_str_peek]; simpl in Hwf, Hpr;
    repeat (rewrite -> bool_decide_eq_false_2 by done); rw ?bool_decide_eq_true_2 //.
  - by rw parse_ip4_show.
  - by rw parse_ip6_show.
  - by rw bs58_decode_encode /= Hwf.
  - by rw parse_u16_show.
  - by rw parse_u64_show.
  - destruct Hwf as [Hh Hp]. rw onion_text_upper //; [|unfold_int; lia]. by rw read_onion3_text.
  - by rw parse_u16_show.
Qed.

Lemma show_fields_no_slash p : proto_wf p → printable p → Forall (λ f, slash ∉ f) (show_fields p).
Proof.
  assert (byte_Z slash = 47) as Hs by by vm_compute.
  intros Hwf Hpr. destruct p; cbn [show_fields]; simpl in Hwf, Hpr; repeat (apply Forall_cons; split);
    try done; try match goal with |- _ ∉ str _ => apply (bool_decide_unpack _); by vm_compute end.
  - apply show_ip4_not_in; [done|by vm_compute|lia].
  - apply show_ip6_not_in; [done|by vm_compute..|lia].
  - apply bs58_no_slash.
  - apply show_dec_not_in; [unfold_int; lia|lia].
  - apply show_dec_not_in; [unfold_int; lia|lia].
  - destruct Hwf as [Hh Hp]. rw hash_string_eq // !not_elem_of_app. split_and!.
    + intros (c & Hc & Hin)%list_elem_of_fmap. destruct (b32_bytes _ _ Hh Hin) as [_ Hr].
      assert (byte_Z (ascii_lower c) = 47) as H47 by by rw -Hc.
      rw /ascii_lower in H47. case_match; [rw byte_Z_Z_byte Z.mod_small in H47; lia|lia].
    + apply (bool_decide_unpack _). by vm_compute.
    + apply show_dec_not_in; [unfold_int; lia|lia].
  - apply show_dec_not_in; [unfold_int; lia|lia].
Qed.

Lemma join_slash (fs : list bytes) : join slash ([] :: fs) = concat ((λ f, slash :: f) <$> fs).
Proof.
  induction fs as [|f fs IH]; [done|]. change (join slash ([] :: f :: fs)) with (slash :: join slash (f :: fs)).
  cbn [fmap list_fmap concat app]. f_equal. destruct fs as [|f' fs]; [by rw /= app_nil_r|].
  change (join slash (f :: f' :: fs)) with (f ++ slash :: join slash (f' :: fs)).
  rw -IH. by destruct fs.
Qed.

Lemma show_all ps : concat (show_protocol <$> ps) = join slash ([] :: concat (show_fields <$> ps)).
Proof.
  rw join_slash. induction ps as [|p ps IH]; [done|]. cbn [fmap list_fmap concat].
  rw fmap_app concat_app IH. done.
Qed.

Lemma from_str_loop_show ps fuel writer :
  Forall (λ p, proto_wf p ∧ printable p) ps → (length (concat (show_fields <$> ps)) ≤ fuel)%nat →
  from_str_loop fuel (concat (show_fields <$> ps)) writer =
  Some (Ok (writer ++ concat (write_to_bytes <$> ps))).
Proof.
  intros Hps. revert fuel writer. induction Hps as [|p ps [Hw Hp] _ IH]; intros fuel writer Hf.
  { destruct fuel; by rw /= app_nil_r. }
  cbn [fmap list_fmap concat] in *. rw length_app in Hf.
  assert (0 < length (show_fields p))%nat as Hpos by (destruct p; simpl; lia).
  destruct (show_fields p ++ concat (show_fields <$> ps)) as [|f fs] eqn:E.
  { apply app_eq_nil in E as [E _]. rw E /= in Hpos. lia. }
  destruct fuel as [|fuel]; [lia|]. cbn [from_str_loop]. rw -E from_str_peek_show // IH; [|lia].
  by rw -app_assoc.
Qed.

(** ** The text parser yields well-formed components *)

Lemma read_onion3_wf s :
  match read_onion3 s with
  | Ok a => length (hash a) = 35%nat ∧ is_u16 (onion_port a)
  | Err _ => True
  | Panic => False
  end.
Proof.
  rw /read_onion3 /ok_or. destruct (split colon s) as [|b32 [|q parts]]; [done|by destruct (bool_decide _)|].
  case: (bool_decide_reflect (length b32 = 56%nat)) => Hl; [|done]. cbn [negb].
  destruct (parse_u16 q) as [port|] eqn:Hp; [|done]. destruct (port =? 0); [done|].
  destruct parts; [|done]. destruct (b32_decode_len (length b32)) as [n|]; [|done].
  destruct (bool_decide (n = 35%nat)); [|done]. cbn [negb].
  destruct (b32_decode b32) as [h|] eqn:Hh; [|done]. simpl. split; [by eapply b32_decode_length|].
  by eapply parse_uint_range in Hp.
Qed.

Lemma from_str_peek_wf parts :
  Forall text_wf parts →
  match from_str_peek parts with
  | Ok (p, rest) => proto_wf p ∧ Forall text_wf rest ∧ (length rest < length parts)%nat
  | Err _ => True
  | Panic => False
  end.
Proof.
  intros Hf. destruct parts as [|name [|s rest]]; [done|cbn [from_str_peek]..].
  { repeat case_match; simplify_eq; try done; simpl; auto. }
  apply Forall_cons in Hf as [Hn Hf]. pose proof Hf as [Hs Hr]%Forall_cons.
  repeat (case_bool_decide; [|]); try done.
  all: try (split_and!; simpl; [done..|lia]).
  all: rw ?/ok_or.
  - destruct (parse_ip4 s) eqn:E; [|done]. split_and!; [by eapply parse_ip4_wf|done|simpl; lia].
  - destruct (parse_ip6 s) eqn:E; [|done]. split_and!; [by eapply parse_ip6_wf|done|simpl; lia].
  - destruct (bs58_decode s) as [d|]; [|done]. pose proof (check_p2p_no_panic d).
    destruct (check_p2p d) as [[]|?|] eqn:E; [|done..]. split_and!; [done..|simpl; lia].
  - destruct (parse_u16 s) eqn:E; [|done]. split_and!; [by eapply parse_uint_range in E|done|simpl; lia].
  - destruct (parse_u64 s) eqn:E; [|done]. split_and!; [by eapply parse_uint_range in E|done|simpl; lia].
  - pose proof (read_onion3_wf (to_uppercase s)). destruct (read_onion3 _); [|done..]. split_and!; [done..|simpl; lia].
  - destruct (parse_u16 s) eqn:E; [|done]. split_and!; [by eapply parse_uint_range in E|done|simpl; lia].
Qed.

Lemma from_str_loop_wf fuel parts writer qs :
  Forall text_wf parts → (length parts ≤ fuel)%nat → Comps writer qs →
  match from_str_loop fuel parts writer with
  | Some (Ok b) => ∃ ps, Comps b ps
  | Some (Err _) => True
  | _ => False
  end.
Proof.
  revert parts writer qs. induction fuel as [|fuel IH]; intros [|f parts] writer qs Hf Hl Hw;
    cbn [from_str_loop]; simpl in Hl; [by eexists|lia|by eexists|].
  pose proof (from_str_peek_wf _ Hf) as Hp. destruct (from_str_peek _) as [[p rest]|?|]; [|done..].
  destruct Hp as (Hwf & Hrest & Hlt). simpl in Hlt. eapply IH; [done|lia|].
  apply Comps_app; [done|]. by apply Comps_write.
Qed.

Lemma split_text_wf s :
  utf8_valid s = true → Z.of_nat (length s) < 2 ^ 64 → Forall text_wf (split slash s).
Proof.
  intros Hu Hl. pose proof (utf8_valid_split slash s ltac:(by vm_compute) Hu) as H1.
  pose proof (split_length slash s) as H2. apply Forall_forall. intros q Hq.
  rw Forall_forall in H1. rw Forall_forall in H2. specialize (H1 q Hq). specialize (H2 q Hq).
  split; [done|]. simpl in H2. lia.
Qed.

(** ** Properties *)

(** A sequence of well-formed components survives its byte encoding: the
    bytes of [from_iter ps] are accepted by [try_from] and iterate as [ps]. *)
Theorem multiaddr_bytes_roundtrip (ps : list Protocol) :
  Forall proto_wf ps →
  iter (from_iter ps) = Some (Ok ps) ∧
  try_from (ma_bytes (from_iter ps)) = Some (Ok (from_iter ps)).
Proof.
  intros Hps. pose proof (Comps_concat ps Hps) as Hc. split; [by apply iter_Comps|].
  rw /try_from. destruct (try_from_loop_total (ma_bytes (from_iter ps)) _ (le_n _))
    as [(? & _ & ->)|(e & _ & Hn)]; [done|]. by destruct (Hn ps).
Qed.

(** C29. [try_from] decides validity on every byte string, and terminates: it
    accepts exactly the strings that are a sequence of components, which are
    then all well formed and what [iter] yields; so no accepted address makes
    an [expect] of [iter] fail. *)
Theorem try_from_checks (v : bytes) :
  (∃ ps, try_from v = Some (Ok (mkMultiaddr v)) ∧ iter (mkMultiaddr v) = Some (Ok ps) ∧
         Forall proto_wf ps) ∨
  (∃ e, try_from v = Some (Err e) ∧ ∀ ps, iter (mkMultiaddr v) ≠ Some (Ok ps)).
Proof.
  rw /try_from. destruct (try_from_loop_total v _ (le_n _)) as [(ps & Hps & ->)|(e & -> & Hn)].
  - left. exists ps. split_and!; [done|by apply iter_Comps|by eapply Comps_wf].
  - right. exists e. split; [done|]. intros ps Hi. apply (Hn ps). by eapply iter_loop_inv.
Qed.

(** C14. The byte string implements the list of components: on an address that
    iterates as [ps], [push] appends, [pop] takes the last component off,
    [replace] updates the component at an index and is [None] out of range or
    when the function declines; the results iterate accordingly. *)
Theorem multiaddr_implements_list (m : Multiaddr) (ps : list Protocol) (p : Protocol)
    (at_ : nat) (by_ : Protocol → option Protocol) :
  iter m = Some (Ok ps) → proto_wf p → (∀ x q, by_ x = Some q → proto_wf q) →
  iter (push m p) = Some (Ok (ps ++ [p])) ∧
  (∃ m', pop m = Some (Ok (last ps), m') ∧ iter m' = Some (Ok (removelast ps))) ∧
  match ps !! at_ ≫= by_ with
  | Some q => ∃ m', replace m at_ by_ = Some (Ok (Some m')) ∧ iter m' = Some (Ok (<[at_ := q]> ps))
  | None => replace m at_ by_ = Some (Ok None)
  end.
Proof.
  intros Hm Hp Hby. pose proof (iter_loop_inv _ _ _ Hm) as Hc. pose proof (Comps_length _ _ Hc) as Hl.
  split_and!.
  - apply iter_Comps, Comps_app; [done|by apply Comps_write].
  - by apply pop_Comps.
  - by apply replace_Comps.
Qed.

(** C28. A non-empty sequence of well-formed components whose names have no
    slash and whose onion ports are not 0 survives the text format. *)
Theorem multiaddr_text_roundtrip (ps : list Protocol) :
  ps ≠ [] → Forall (λ p, proto_wf p ∧ printable p) ps →
  ∃ text, to_string (from_iter ps) = Some (Ok text) ∧ from_str text = Some (Ok (from_iter ps)).
Proof.
  intros Hne Hps. exists (concat (show_protocol <$> ps)).
  assert (Forall proto_wf ps) as Hw by (eapply Forall_impl; [done|by intros ? []]).
  split; [by rw /to_string (iter_Comps (from_iter ps) ps (Comps_concat ps Hw))|].
  rw show_all /from_str split_join //.
  - rw from_str_loop_show // bool_decide_eq_false_2 //. destruct ps as [|p ps]; [done|].
    cbn [fmap list_fmap concat app]. intros [H _]%app_eq_nil. by apply write_nonempty in H.
  - constructor; [set_solver|]. apply Forall_concat, Forall_fmap, Forall_forall. intros p Hin.
    rw Forall_forall in Hps. destruct (Hps p Hin). by apply show_fields_no_slash.
Qed.

(** Parsing a text always ends, without a panic: in an error, or in an
    address whose components [iter] yields, all of them well formed. *)
Theorem from_str_total (s : bytes) :
  utf8_valid s = true → Z.of_nat (length s) < 2 ^ 64 →
  (∃ e, from_str s = Some (Err e)) ∨
  (∃ m ps, from_str s = Some (Ok m) ∧ iter m = Some (Ok ps) ∧ Forall proto_wf ps).
Proof.
  intros Hu Hl. pose proof (split_text_wf s Hu Hl) as Hf. rw /from_str.
  destruct (split slash s) as [|[|] parts]; [left; by eexists| |left; by eexists].
  apply Forall_cons in Hf as [_ Hf].
  pose proof (from_str_loop_wf _ parts [] [] Hf (le_n _) Comps_nil) as Hw.
  destruct (from_str_loop _ parts []) as [[b|e|]|]; [|left; by eexists|done..].
  destruct Hw as [ps Hps]. case_bool_decide; [left; by eexists|]. right. exists (mkMultiaddr b), ps.
  split_and!; [done|by apply iter_Comps|by eapply Comps_wf].
Qed.
End facts.

(** ** Concrete codecs

    LEB128 as the varint crate reads it (bits beyond the width are shifted
    out), 56 base-32 digits for 35 bytes, and two hexadecimal digits per byte
    in place of base 58. *)

Fixpoint leb_encode (fuel : nat) (n : Z) : bytes :=
  match fuel with
  | O => []
  | S fuel => if n <? 128 then [Z_byte n] else Z_byte (128 + n mod 128) :: leb_encode fuel (n / 128)
  end.

Fixpoint leb_decode (max i : nat) (b : bytes) : (Z * bytes) + VarintError :=
  match b with
  | [] => inr Insufficient
  | x :: b =>
      if byte_Z x <? 128 then
        if (byte_Z x =? 0) && bool_decide (0 < i)%nat then inr NotMinimal else inl (byte_Z x, b)
      else if bool_decide (i = max) then inr Overflow
      else match leb_decode max (S i) b with
      | inl (n, rest) => inl (byte_Z x - 128 + 128 * n, rest)
      | inr e => inr e
      end
  end.

Definition leb_decode_w (w : Z) (b : bytes) : (Z * bytes) + VarintError :=
  match leb_decode (if w =? 32 then 4%nat else 9%nat) 0 b with
  | inl (n, rest) => inl (n mod 2 ^ w, rest)
  | inr e => inr e
  end.

Lemma leb_roundtrip (k fuel : nat) n i max rest :
  0 ≤ n < 128 ^ k → (0 < k ≤ fuel)%nat → (i + k = S max)%nat → (i = 0%nat ∨ 0 < n) →
  leb_decode max i (leb_encode fuel n ++ rest) = inl (n, rest).
Proof.
  revert fuel n i. induction k as [|k IH]; intros [|fuel] n i Hn Hf Hi H0; [lia..|].
  cbn [leb_encode]. case: Z.ltb_spec => Hlt; cbn [app leb_decode].
  - rw byte_Z_Z_byte Z.mod_small; [|lia]. rewrite -> (proj2 (Z.ltb_lt _ _)) by lia.
    destruct H0 as [->|H0]; [by rw andb_false_r|]. by rewrite -> (proj2 (Z.eqb_neq _ _)) by lia.
  - pose proof (Z.mod_pos_bound n 128 ltac:(lia)). rw byte_Z_Z_byte Z.mod_small; [|lia].
    rewrite -> (proj2 (Z.ltb_ge _ _)) by lia.
    assert (128 ^ S k = 128 * 128 ^ k) as Hpow by (rw Nat2Z.inj_succ Z.pow_succ_r; lia).
    destruct k as [|k]; [simpl in Hpow, Hn; lia|]. rw bool_decide_eq_false_2; [|lia].
    rw IH; [| |lia|lia|].
    + do 2 f_equal. pose proof (Z.div_mod n 128 ltac:(lia)). lia.
    + split; [apply Z.div_pos; lia|]. apply Z.div_lt_upper_bound; lia.
    + right. apply Z.div_str_pos. lia.
Qed.

Lemma leb_prefix max i b n rest :
  leb_decode max i b = inl (n, rest) → (i ≤ max)%nat →
  0 ≤ n ∧ ∃ hdr, (0 < length hdr ≤ S max - i)%nat ∧ b = hdr ++ rest ∧
    ∀ rest', leb_decode max i (hdr ++ rest') = inl (n, rest').
Proof.
  revert i n. induction b as [|x b IH]; intros i n; cbn [leb_decode]; [done|].
  pose proof (byte_Z_range x) as Hx. destruct (byte_Z x <? 128) eqn:Hlt.
  - case_match eqn:Hz; [done|]. intros [= <- <-] Hi. split; [lia|]. exists [x]. split_and!; simpl; [lia..|done|].
    intros rest'. by rw Hlt Hz.
  - case_bool_decide as Hm; [done|]. destruct (leb_decode max (S i) b) as [[n' r]|] eqn:E; [|done].
    intros [= <- <-] Hi. apply IH in E as (Hn & hdr & Hl & -> & Hh); [|lia]. apply Z.ltb_ge in Hlt as Hge.
    split; [lia|]. exists (x :: hdr). split_and!; simpl; [lia..|done|]. intros rest'.
    by rw Hlt bool_decide_eq_false_2 // Hh.
Qed.

(** The [k] lowest base-32 digits, highest first. *)
Fixpoint base32_digits (k : nat) (z : Z) : list Z :=
  match k with O => [] | S k => base32_digits k (z / 32) ++ [z mod 32] end.
Definition base32_char (d : Z) : byte := if d <? 26 then Z_byte (65 + d) else Z_byte (24 + d).
Definition base32_value (c : byte) : option Z :=
  if byte_in 65 90 c then Some (byte_Z c - 65)
  else if byte_in 50 55 c then Some (byte_Z c - 24) else None.

Fixpoint hex_decode (s : bytes) : option bytes :=
  match s with
  | [] => Some []
  | x :: y :: s =>
      d ← to_digit 16 x; e ← to_digit 16 y; b ← hex_decode s; Some (Z_byte (16 * d + e) :: b)
  | _ => None
  end.

#[global] Instance DemoCodecs : AddrCodecs := {|
  uv_encode := leb_encode 10;
  uv_decode := leb_decode_w;
  bs58_encode b := concat ((λ x, [digit_char (byte_Z x / 16); digit_char (byte_Z x mod 16)]) <$> b);
  bs58_decode := hex_decode;
  b32_encode h := base32_char <$> base32_digits 56 (be_Z h);
  b32_decode_len n := if bool_decide (n = 56%nat) then Some 35%nat else None;
  b32_decode s := if bool_decide (length s = 56%nat) then be_bytes 35 ∘ undigits 32 <$> mapM base32_value s else None;
  to_uppercase s := ascii_upper <$> s;
  to_lowercase s := ascii_lower <$> s;
|}.

Lemma base32_digits_range k z : Forall (λ d, 0 ≤ d < 32) (base32_digits k z).
Proof.
  revert z. induction k as [|k IH]; intros z; simpl; [constructor|].
  apply Forall_app. split; [done|]. constructor; [|constructor]. apply Z.mod_pos_bound. lia.
Qed.

Lemma base32_digits_length k z : length (base32_digits k z) = k.
Proof. revert z. induction k as [|k IH]; intros z; simpl; [done|]. rw length_app IH /=. lia. Qed.

Lemma base32_digits_value (k : nat) z : 0 ≤ z < 32 ^ k → undigits 32 (base32_digits k z) = z.
Proof.
  revert z. induction k as [|k IH]; intros z Hz; cbn [base32_digits]; [simpl in Hz; by replace z with 0 by lia|].
  rw Nat2Z.inj_succ Z.pow_succ_r in Hz; [|lia]. rw undigits_snoc IH.
  - pose proof (Z.div_mod z 32 ltac:(lia)). lia.
  - split; [apply Z.div_pos; lia|]. apply Z.div_lt_upper_bound; lia.
Qed.

Lemma base32_char_spec d : 0 ≤ d < 32 → base32_value (base32_char d) = Some d ∧ b32_char (base32_char d) = true.
Proof.
  intros Hd. rw /base32_value /b32_char /base32_char. case: Z.ltb_spec => Hlt.
  - assert (byte_in 65 90 (Z_byte (65 + d)) = true) as ->.
    { apply byte_in_spec. rw byte_Z_Z_byte Z.mod_small; lia. }
    rw byte_Z_Z_byte Z.mod_small; [|lia]. split; [f_equal; lia|done].
  - assert (byte_in 65 90 (Z_byte (24 + d)) = false) as ->.
    { apply not_true_is_false. rw byte_in_spec byte_Z_Z_byte Z.mod_small; lia. }
    assert (byte_in 50 55 (Z_byte (24 + d)) = true) as ->.
    { apply byte_in_spec. rw byte_Z_Z_byte Z.mod_small; lia. }
    rw byte_Z_Z_byte Z.mod_small; [|lia]. split; [f_equal; lia|done].
Qed.

Lemma mapM_base32 ds : Forall (λ d, 0 ≤ d < 32) ds → mapM base32_value (base32_char <$> ds) = Some ds.
Proof.
  induction 1 as [|d ds Hd _ IH]; [done|]. cbn [fmap list_fmap mapM].
  destruct (base32_char_spec d Hd) as [-> _]. simpl. by rw IH.
Qed.

Lemma hex_roundtrip b :
  hex_decode (concat ((λ x, [digit_char (byte_Z x / 16); digit_char (byte_Z x mod 16)]) <$> b)) = Some b.
Proof.
  induction b as [|x b IH]; [done|]. cbn [fmap list_fmap concat app hex_decode].
  pose proof (byte_Z_range x). pose proof (Z.mod_pos_bound (byte_Z x) 16 ltac:(lia)).
  pose proof (Z.div_mod (byte_Z x) 16 ltac:(lia)) as Hx.
  rw !to_digit_char; [|lia..]. simpl. rw IH /=. do 2 f_equal. by rw -Hx Z_byte_byte_Z.
Qed.

Lemma hex_no_slash b :
  slash ∉ concat ((λ x, [digit_char (byte_Z x / 16); digit_char (byte_Z x mod 16)]) <$> b).
Proof.
  assert (∀ d, 0 ≤ d < 16 → slash ≠ digit_char d) as Hd.
  { intros d Hd Hs%(f_equal byte_Z). rw byte_Z_digit_char in Hs; [|lia].
    change (byte_Z slash) with 47 in Hs. case_match; lia. }
  induction b as [|x b IH]; [set_solver|]. cbn [fmap list_fmap concat app].
  pose proof (byte_Z_range x). pose proof (Z.mod_pos_bound (byte_Z x) 16 ltac:(lia)).
  pose proof (Z.div_mod (byte_Z x) 16 ltac:(lia)).
  rw !not_elem_of_cons. split_and!; [apply Hd; lia..|done].
Qed.

Lemma leb_decode_w_encode w n rest :
  w = 32 ∨ w = 64 → 0 ≤ n < 2 ^ w → leb_decode_w w (leb_encode 10 n ++ rest) = inl (n, rest).
Proof.
  intros Hw Hn. rw /leb_decode_w. destruct Hw as [->| ->]; cbn [Z.eqb Pos.eqb].
  - rw (leb_roundtrip 5 10) ?Z.mod_small //; [|lia|by left].
    change (128 ^ 5%nat) with (8 * 2 ^ 32). lia.
  - rw (leb_roundtrip 10 10) ?Z.mod_small //; [|lia|by left].
    change (128 ^ 10%nat) with (64 * 2 ^ 64). lia.
Qed.

Lemma leb_decode_w_prefix w b n rest :
  w = 32 ∨ w = 64 → leb_decode_w w b = inl (n, rest) →
  0 ≤ n < 2 ^ w ∧
  ∃ hdr, (0 < length hdr ≤ 10)%nat ∧ b = hdr ++ rest ∧ ∀ rest', leb_decode_w w (hdr ++ rest') = inl (n, rest').
Proof.
  intros Hw. rw /leb_decode_w. set (k := if w =? 32 then 4%nat else 9%nat).
  assert (k ≤ 9)%nat as Hk by (rw /k; case_match; lia).
  destruct (leb_decode k 0 b) as [[n' r]|] eqn:E; [|done]. intros [= <- <-].
  split; [apply Z.mod_pos_bound; by destruct Hw as [->| ->]|].
  apply leb_prefix in E as (_ & hdr & Hl & -> & Hh); [|lia].
  exists hdr. split_and!; [lia..|done|]. intros rest'. by rw Hh.
Qed.

#[global] Instance DemoCodecsLaws : AddrCodecsLaws.
Proof.
  split; cbn [uv_encode uv_decode bs58_encode bs58_decode b32_encode b32_decode_len b32_decode
    to_uppercase to_lowercase DemoCodecs].
  - apply leb_decode_w_encode.
  - apply leb_decode_w_prefix.
  - intros n. cbn [leb_encode]. by case_match.
  - apply hex_roundtrip.
  - apply hex_no_slash.
  - done.
  - intros h _. by rw length_fmap base32_digits_length.
  - intros h Hh. rw length_fmap base32_digits_length bool_decide_eq_true_2 //.
    rw mapM_base32; [|apply base32_digits_range].
    change (Some (be_bytes 35 (undigits 32 (base32_digits 56 (be_Z h)))) = Some h). f_equal.
    pose proof (be_Z_range h) as Hr. rw Hh in Hr. rw base32_digits_value; [by apply be_bytes_be_Z'|].
    change (256 ^ 35%nat) with (32 ^ 56%nat) in Hr. done.
  - intros s h Hs. rw bool_decide_eq_true_2 //. destruct (mapM base32_value s); [|done].
    intros [= <-]. apply (length_be_bytes 35).
  - intros h _. apply forallb_forall. intros c Hc%list_elem_of_In.
    apply list_elem_of_fmap in Hc as (d & -> & Hd).
    pose proof (base32_digits_range 56 (be_Z h)) as Hf. rw Forall_forall in Hf. by apply base32_char_spec, Hf.
  - done.
  - done.
Qed.

(** An address with a name, a peer id and an onion service. *)
Definition demo_peer : bytes := Z_byte 18 :: Z_byte 32 :: replicate 32 (Z_byte 7).
Definition demo_protocols : list Protocol :=
  [Dns4 (str "nervos.org"); Tcp 443; P2P demo_peer; Onion3 (mkOnion3 (replicate 35 (Z_byte 9)) 8115)].

Lemma demo_protocols_ok : Forall (λ p, proto_wf p ∧ printable p) demo_protocols.
Proof.
  repeat (apply Forall_cons; split); [..|done]; split; try (by vm_compute); try done.
  - apply (bool_decide_unpack _). by vm_compute.
Qed.

Lemma demo_protocols_wf : Forall proto_wf demo_protocols.
Proof. eapply Forall_impl; [apply demo_protocols_ok|]. by intros p []. Qed.

Lemma multiaddr_bytes_roundtrip_witness :
  iter (from_iter demo_protocols) = Some (Ok demo_protocols) ∧
  try_from (ma_bytes (from_iter demo_protocols)) = Some (Ok (from_iter demo_protocols)).
Proof. apply (multiaddr_bytes_roundtrip demo_protocols). apply demo_protocols_wf. Defined.

(** A byte string that is accepted though [write_to_bytes] never writes it:
    with these codecs, the identifier of [Ws] with a bit beyond its width. *)
Lemma try_from_checks_witness :
  let v := Z_byte <$> [0xdd; 0x83; 0x80; 0x80; 0x10] in
  (∃ ps, try_from v = Some (Ok (mkMultiaddr v)) ∧ iter (mkMultiaddr v) = Some (Ok ps) ∧ Forall proto_wf ps) ∧
  iter (mkMultiaddr v) = Some (Ok [Ws]).
Proof.
  intros v. split; [|vm_compute; reflexivity].
  destruct (try_from_checks v) as [H|(e & _ & H)]; [exact H|]. exfalso. apply (H [Ws]). vm_compute. reflexivity.
Defined.

Lemma multiaddr_implements_list_witness :
  iter (push (from_iter demo_protocols) Ws) = Some (Ok (demo_protocols ++ [Ws])) ∧
  (∃ m', pop (from_iter demo_protocols) = Some (Ok (last demo_protocols), m') ∧
         iter m' = Some (Ok (removelast demo_protocols))) ∧
  (∃ m', replace (from_iter demo_protocols) 1 (λ _, Some (Udp 53)) = Some (Ok (Some m')) ∧
         iter m' = Some (Ok (<[1%nat := Udp 53]> demo_protocols))).
Proof.
  apply (multiaddr_implements_list (from_iter demo_protocols) demo_protocols Ws 1 (λ _, Some (Udp 53))).
  - vm_compute. reflexivity.
  - exact I.
  - intros x q [= <-]. split; vm_compute; discriminate.
Defined.

Lemma multiaddr_text_roundtrip_witness :
  ∃ text, to_string (from_iter demo_protocols) = Some (Ok text) ∧
          from_str text = Some (Ok (from_iter demo_protocols)).
Proof. apply (multiaddr_text_roundtrip demo_protocols); [discriminate|apply demo_protocols_ok]. Defined.

Lemma from_str_total_witness :
  ∃ m ps, from_str (str "/ip4/127.0.0.1/tcp/80") = Some (Ok m) ∧ iter m = Some (Ok ps) ∧ Forall proto_wf ps.
Proof.
  destruct (from_str_total (str "/ip4/127.0.0.1/tcp/80")) as [[e He]|H];
    [vm_compute; reflexivity|vm_compute; reflexivity|vm_compute in He; discriminate|exact H].
Defined.

(** The binary parser accepts the onion port 0 that the text parser refuses:
    such an address prints as a text that does not parse. *)
Example onion_port_zero_not_reparsed :
  let m := from_iter [Onion3 (mkOnion3 (replicate 35 (Z_byte 9)) 0)] in
  try_from (ma_bytes m) = Some (Ok m) ∧
  ∃ text, to_string m = Some (Ok text) ∧ from_str text = Some (Err InvalidMultiaddr).
Proof.
  split; [vm_compute; reflexivity|].
  exists (str "/onion3/beeqscijbeeqscijbeeqscijbeeqscijbeeqscijbeeqscijbeeqscij:0").
  split; vm_compute; reflexivity.
Qed.
