(* ===== verification/Molecule.v ===== *)
(** * The molecule serialization of the wire messages

    The generated readers and builders of [handshake_mol.rs] and
    [protocol_select_mol.rs]: byte vectors, tables, dynamic vectors and
    unions, with their verification and their accessors. The generated code
    repeats one scheme per schema type; the scheme is defined once, over the
    list of the fields' verifiers, and the message files instantiate it. The
    crate's number format is a parameter ([MolNumber]). A slice index out of
    range is a panic; the facts show that no input reaches one. *)
From S2P Require Import Prelude.

Definition NUMBER_SIZE : Z := 4.

(** [molecule::pack_number] and [molecule::unpack_number]. *)
Class MolNumber := {
  pack_number : Z → bytes;
  unpack_number : bytes → Z;
}.

Class MolNumberLaws `{MolNumber} : Prop := {
  pack_number_length n : length (pack_number n) = 4%nat;
  unpack_pack_number n rest : 0 ≤ n < 2 ^ 32 → unpack_number (pack_number n ++ rest) = n;
  unpack_number_range s : 0 ≤ unpack_number s < 2 ^ 32;
  unpack_number_take s : (4 ≤ length s)%nat → unpack_number (take 4 s) = unpack_number s;
}.

(** [molecule::error::VerificationError]; the sizes it carries are dropped. *)
Inductive VerificationError :=
| TotalSizeNotMatch
| HeaderIsBroken
| UnknownItem
| OffsetsNotMatch
| FieldCountNotMatch.

Abbreviation VR := (Res VerificationError).

(** [&s[a..b]]. *)
Definition slice_range (s : bytes) (a b : Z) : VR bytes :=
  if (0 <=? a) && (a <=? b) && (b <=? length s)
  then Ok (take (Z.to_nat (b - a)) (drop (Z.to_nat a) s)) else Panic.

(** [to_le_bytes] of a number of [w] bytes, and [from_le] of the [w] bytes behind a
    pointer. *)
Definition le_bytes (w : nat) (n : Z) : bytes := rev (be_bytes w n).
Definition from_le (w : nat) (raw_data : bytes) : Z := be_Z (rev (take w raw_data)).

Section molecule.
Context `{!MolNumber}.

(** [molecule::unpack_number(&s[i..])], which reads four bytes. *)
Definition unpack_at (i : Z) (s : bytes) : VR Z :=
  if length s <? i + NUMBER_SIZE then Panic else Ok (unpack_number (drop (Z.to_nat i) s)).

(** A verifier: the slice and the [compatible] flag. *)
Definition Verifier : Type := bytes → bool → VR unit.

(** ** Byte vectors ([Bytes], [String], [Secp256k1]) *)

Definition fixvec_verify : Verifier := λ slice _,
  let slice_len := Z.of_nat (length slice) in
  if slice_len <? NUMBER_SIZE then Err HeaderIsBroken
  else
    item_count ← unpack_at 0 slice;
    if item_count =? 0 then
      if negb (slice_len =? NUMBER_SIZE) then Err TotalSizeNotMatch else Ok ()
    else
      let total_size := NUMBER_SIZE + item_count in
      if negb (slice_len =? total_size) then Err TotalSizeNotMatch else Ok ().

Definition fixvec_write (data : bytes) : bytes := pack_number (length data) ++ data.

Definition fixvec_raw_data (slice : bytes) : VR bytes := slice_range slice NUMBER_SIZE (length slice).

(** ** Offsets *)

(** [chunks_exact(NUMBER_SIZE).map(unpack_number)]. *)
Fixpoint read_offsets (k : nat) (s : bytes) : list Z :=
  match k with
  | O => []
  | S k => unpack_number (take 4 s) :: read_offsets k (drop 4 s)
  end.

(** [!windows(2).any(|i| i[0] > i[1])]. *)
Fixpoint non_decreasing (os : list Z) : bool :=
  match os with
  | a :: ((b :: _) as os') => (a <=? b) && non_decreasing os'
  | _ => true
  end.

(** The checks shared by tables and non-empty vectors, from the first offset on:
    the offsets with the total size at their end. *)
Definition verify_offsets (slice : bytes) (total_size : Z) : VR (list Z) :=
  offset_first ← unpack_at NUMBER_SIZE slice;
  if negb (offset_first mod NUMBER_SIZE =? 0) || (offset_first <? NUMBER_SIZE * 2) then Err OffsetsNotMatch
  else if length slice <? offset_first then Err HeaderIsBroken
  else
    header ← slice_range slice NUMBER_SIZE offset_first;
    Ok (read_offsets (length header / 4) header ++ [total_size]).

(** ** Tables *)

(** [verify(&slice[offsets[i]..offsets[i + 1]], compatible)?] for each field. *)
Fixpoint verify_fields (fields : list Verifier) (slice : bytes) (compatible : bool) (offsets : list Z)
    : VR unit :=
  match fields with
  | [] => Ok ()
  | verify :: fields =>
      match offsets with
      | a :: ((b :: _) as offsets) =>
          inner ← slice_range slice a b;
          _ ← verify inner compatible;
          verify_fields fields slice compatible offsets
      | _ => Panic
      end
  end.

Definition table_verify (fields : list Verifier) : Verifier := λ slice compatible,
  let slice_len := Z.of_nat (length slice) in
  let FIELD_COUNT := length fields in
  if slice_len <? NUMBER_SIZE then Err HeaderIsBroken
  else
    total_size ← unpack_at 0 slice;
    if negb (slice_len =? total_size) then Err TotalSizeNotMatch
    else if slice_len <? NUMBER_SIZE * 2 then Err HeaderIsBroken
    else
      offsets ← verify_offsets slice total_size;
      let field_count := (length offsets - 1)%nat in
      if bool_decide (field_count < FIELD_COUNT)%nat then Err FieldCountNotMatch
      else if negb compatible && bool_decide (FIELD_COUNT < field_count)%nat then Err FieldCountNotMatch
      else if negb (non_decreasing offsets) then Err OffsetsNotMatch
      else verify_fields fields slice compatible offsets.

(** The same in the readers of the protocols' messages, which an older version of
    the generator made: the number of fields is checked before the header, and
    the offsets are [chunks(NUMBER_SIZE).take(field_count)]. *)
Definition old_table_verify (fields : list Verifier) : Verifier := λ slice compatible,
  let slice_len := Z.of_nat (length slice) in
  let FIELD_COUNT := Z.of_nat (length fields) in
  if slice_len <? NUMBER_SIZE then Err HeaderIsBroken
  else
    total_size ← unpack_at 0 slice;
    if negb (slice_len =? total_size) then Err TotalSizeNotMatch
    else if (slice_len =? NUMBER_SIZE) && (FIELD_COUNT =? 0) then Ok ()
    else if slice_len <? NUMBER_SIZE * 2 then Err HeaderIsBroken
    else
      offset_first ← unpack_at NUMBER_SIZE slice;
      if negb (offset_first mod 4 =? 0) || (offset_first <? NUMBER_SIZE * 2) then Err OffsetsNotMatch
      else
        let field_count := offset_first / 4 - 1 in
        if field_count <? FIELD_COUNT then Err FieldCountNotMatch
        else if negb compatible && (FIELD_COUNT <? field_count) then Err FieldCountNotMatch
        else
          let header_size := NUMBER_SIZE * (field_count + 1) in
          if slice_len <? header_size then Err HeaderIsBroken
          else
            let offsets := read_offsets (Z.to_nat field_count) (drop (Z.to_nat NUMBER_SIZE) slice) ++ [total_size] in
            if negb (non_decreasing offsets) then Err OffsetsNotMatch
            else verify_fields fields slice compatible offsets.

(** The offsets of items that start at [start]. *)
Fixpoint mol_offsets (start : Z) (items : list bytes) : list Z :=
  match items with
  | [] => []
  | x :: items => start :: mol_offsets (start + length x) items
  end.

Definition table_write (items : list bytes) : bytes :=
  let start := NUMBER_SIZE * (length items + 1) in
  pack_number (start + length (concat items)) ++
  concat (pack_number <$> mol_offsets start items) ++ concat items.

Definition field_count (slice : bytes) : VR Z :=
  total_size ← unpack_at 0 slice;
  if total_size =? NUMBER_SIZE then Ok 0
  else first ← unpack_at NUMBER_SIZE slice;
       if first / 4 <? 1 then Panic else Ok (first / 4 - 1).

(** The accessor of field [i] of a table of [n] fields. *)
Definition table_field (n i : nat) (slice : bytes) : VR bytes :=
  start ← unpack_at (4 * (i + 1)) slice;
  if bool_decide (S i = n) then
    count ← field_count slice;
    if negb (count =? n) then
      end_ ← unpack_at (4 * (i + 2)) slice;
      slice_range slice start end_
    else slice_range slice start (length slice)
  else
    end_ ← unpack_at (4 * (i + 2)) slice;
    slice_range slice start end_.

(** ** Dynamic vectors ([StringVec]) *)

Fixpoint verify_items (verify : Verifier) (slice : bytes) (compatible : bool) (offsets : list Z) : VR unit :=
  match offsets with
  | a :: ((b :: _) as offsets) =>
      inner ← slice_range slice a b;
      _ ← verify inner compatible;
      verify_items verify slice compatible offsets
  | _ => Ok ()
  end.

Definition dynvec_verify (item : Verifier) : Verifier := λ slice compatible,
  let slice_len := Z.of_nat (length slice) in
  if slice_len <? NUMBER_SIZE then Err HeaderIsBroken
  else
    total_size ← unpack_at 0 slice;
    if negb (slice_len =? total_size) then Err TotalSizeNotMatch
    else if slice_len =? NUMBER_SIZE then Ok ()
    else if slice_len <? NUMBER_SIZE * 2 then Err TotalSizeNotMatch
    else
      offsets ← verify_offsets slice total_size;
      if negb (non_decreasing offsets) then Err OffsetsNotMatch
      else verify_items item slice compatible offsets.

Definition dynvec_write (items : list bytes) : bytes :=
  match items with
  | [] => pack_number NUMBER_SIZE
  | _ => table_write items
  end.

(** [get_unchecked]. *)
Definition dynvec_get (len idx : Z) (slice : bytes) : VR bytes :=
  let start_idx := NUMBER_SIZE * (1 + idx) in
  start ← unpack_at start_idx slice;
  if idx =? len - 1 then slice_range slice start (length slice)
  else
    end_ ← unpack_at (start_idx + NUMBER_SIZE) slice;
    slice_range slice start end_.

(** [iter()]: the items from [idx] on, [k] of them. *)
Fixpoint dynvec_from (k : nat) (len idx : Z) (slice : bytes) : VR (list bytes) :=
  match k with
  | O => Ok []
  | S k =>
      x ← dynvec_get len idx slice;
      xs ← dynvec_from k len (idx + 1) slice;
      Ok (x :: xs)
  end.
Definition dynvec_items (slice : bytes) : VR (list bytes) :=
  len ← field_count slice;
  dynvec_from (Z.to_nat len) len 0 slice.

(** ** Unions: the number of the item, and the item *)

Definition union_verify (items : list Verifier) : Verifier := λ slice compatible,
  if length slice <? NUMBER_SIZE then Err HeaderIsBroken
  else
    item_id ← unpack_at 0 slice;
    inner_slice ← slice_range slice NUMBER_SIZE (length slice);
    match items !! Z.to_nat item_id with
    | Some item => item inner_slice compatible
    | None => Err UnknownItem
    end.

Definition union_write (item_id : nat) (item : bytes) : bytes := pack_number item_id ++ item.

(** [to_enum] of a union of [count] items. *)
Definition union_to_enum (count : nat) (slice : bytes) : VR (nat * bytes) :=
  inner ← slice_range slice NUMBER_SIZE (length slice);
  item_id ← unpack_at 0 slice;
  if item_id <? count then Ok (Z.to_nat item_id, inner) else Panic.

(** ** Arrays of [n] bytes, and options *)

Definition array_verify (n : nat) : Verifier := λ slice _,
  if negb (bool_decide (length slice = n)) then Err TotalSizeNotMatch else Ok ().

Definition option_verify (item : Verifier) : Verifier := λ slice compatible,
  if negb (bool_decide (slice = [])) then item slice compatible else Ok ().

Definition option_write (item : option bytes) : bytes := default [] item.

Definition option_to_opt (slice : bytes) : option bytes :=
  if bool_decide (slice = []) then None else Some slice.
End molecule.
