(* ===== verification/MoleculeFacts.v ===== *)
(** * The molecule serialization: facts

    What a builder writes is verified and read back by the accessors; and on
    any input that passes verification the accessors return the verified
    slices, so reading a message never panics. *)
From S2P Require Import Prelude Molecule.

Section facts.
Context {MN : MolNumber} {ML : MolNumberLaws}.

(** ** Slices and numbers *)

Lemma slice_range_Ok s a b :
  0 ≤ a ≤ b → b ≤ length s → slice_range s a b = Ok (take (Z.to_nat (b - a)) (drop (Z.to_nat a) s)).
Proof.
  intros Ha Hb. rw /slice_range. rewrite -> !(proj2 (Z.leb_le _ _)) by lia. done.
Qed.

Lemma slice_range_mid (pre x post : bytes) (a b : Z) :
  a = length pre → b = a + length x → slice_range (pre ++ x ++ post) a b = Ok x.
Proof.
  intros -> ->. rw slice_range_Ok; [|lia|rw !length_app; lia].
  rw Nat2Z.id drop_app_length. replace (Z.to_nat _) with (length x) by lia. by rw take_app_length.
Qed.

Lemma unpack_at_Ok i s :
  i + 4 ≤ length s → unpack_at i s = Ok (unpack_number (drop (Z.to_nat i) s)).
Proof. intros Hi. rw /unpack_at /NUMBER_SIZE. by rewrite -> (proj2 (Z.ltb_ge _ _)) by lia. Qed.

Lemma unpack_at_pack pre n post (i : Z) :
  i = length pre → 0 ≤ n < 2 ^ 32 → unpack_at i (pre ++ pack_number n ++ post) = Ok n.
Proof.
  intros -> Hn. rw unpack_at_Ok; [|rw !length_app pack_number_length; lia].
  by rw Nat2Z.id drop_app_length unpack_pack_number.
Qed.

(** ** Byte vectors *)

Lemma fixvec_verify_write data c :
  length data < 2 ^ 32 → fixvec_verify (fixvec_write data) c = Ok ().
Proof.
  intros Hl. rw /fixvec_verify /fixvec_write length_app pack_number_length /NUMBER_SIZE.
  rewrite -> (proj2 (Z.ltb_ge _ _)) by lia.
  rw (unpack_at_pack [] _ data 0); [|done|lia]. cbn [mbind Res_bind]. case: Z.eqb_spec => H0.
  - by rewrite -> (proj2 (Z.eqb_eq _ _)) by lia.
  - by rewrite -> (proj2 (Z.eqb_eq _ _)) by lia.
Qed.

Lemma fixvec_read_write data : fixvec_raw_data (fixvec_write data) = Ok data.
Proof.
  rw /fixvec_raw_data /fixvec_write.
  pose proof (slice_range_mid (pack_number (length data)) data [] NUMBER_SIZE (NUMBER_SIZE + length data)) as H.
  rw app_nil_r in H. rw length_app pack_number_length. replace (Z.of_nat (4 + length data)) with (NUMBER_SIZE + length data).
  - apply H; [by rw pack_number_length|done].
  - rw /NUMBER_SIZE. lia.
Qed.

Lemma fixvec_verified s c : fixvec_verify s c = Ok () → ∃ d, fixvec_raw_data s = Ok d.
Proof.
  rw /fixvec_verify /fixvec_raw_data. case: Z.ltb_spec => Hl; [done|]. intros _.
  rw slice_range_Ok; [by eexists|rw /NUMBER_SIZE in Hl |- *; lia..].
Qed.

Lemma fixvec_no_panic s c : fixvec_verify s c ≠ Panic.
Proof.
  rw /fixvec_verify. case: Z.ltb_spec => Hl; [done|]. rw unpack_at_Ok; [|rw /NUMBER_SIZE in Hl; lia].
  simpl. by repeat case_match.
Qed.

(** ** Offsets *)

Lemma read_offsets_lookup (k i : nat) s :
  (i < k)%nat → (4 * k ≤ length s)%nat → read_offsets k s !! i = Some (unpack_number (drop (4 * i) s)).
Proof.
  revert i s. induction k as [|k IH]; intros [|i] s Hi Hl; try lia; cbn [read_offsets lookup list_lookup].
  - rw unpack_number_take; [done|lia].
  - change (list_lookup i (read_offsets k (drop 4 s))) with (read_offsets k (drop 4 s) !! i).
    rw IH; [|lia|rw length_drop; lia]. rw drop_drop. do 3 f_equal. lia.
Qed.

Lemma read_offsets_length k s : length (read_offsets k s) = k.
Proof. revert s. induction k as [|k IH]; intros s; simpl; [done|]. by rw IH. Qed.

Lemma read_offsets_pack os rest :
  Forall (λ o, 0 ≤ o < 2 ^ 32) os →
  read_offsets (length os) (concat (pack_number <$> os) ++ rest) = os.
Proof.
  induction 1 as [|o os Ho _ IH]; [done|]. cbn [fmap list_fmap concat length read_offsets].
  rw -app_assoc. rewrite -> take_app_length', drop_app_length' by by rw pack_number_length.
  rw IH. f_equal. rw -(app_nil_r (pack_number o)). by apply unpack_pack_number.
Qed.

Lemma length_concat_pack os : length (concat (pack_number <$> os)) = (4 * length os)%nat.
Proof.
  induction os as [|o os IH]; [done|]. cbn [fmap list_fmap concat length].
  rw length_app IH pack_number_length. lia.
Qed.

Lemma non_decreasing_lookup os i a b :
  non_decreasing os = true → os !! i = Some a → os !! S i = Some b → a ≤ b.
Proof.
  revert i. induction os as [|o os IH]; intros i; [done|]. destruct os as [|o' os]; [by destruct i|].
  cbn [non_decreasing]. intros [H1 H2]%andb_true_iff. apply Z.leb_le in H1.
  destruct i as [|i]; [intros [= ->] [= ->]; done|]. apply IH. done.
Qed.

Lemma non_decreasing_last os i a t :
  non_decreasing os = true → os !! i = Some a → last os = Some t → a ≤ t.
Proof.
  revert i a. induction os as [|o os IH]; intros i a Hn Hi Ht; [done|]. destruct os as [|o' os].
  - destruct i; [|done]. injection Hi as ->. injection Ht as ->. lia.
  - cbn [non_decreasing] in Hn. apply andb_true_iff in Hn as [H1 H2]. apply Z.leb_le in H1.
    change (last (o' :: os) = Some t) in Ht. destruct i as [|i]; [|by apply (IH i)].
    injection Hi as <-. specialize (IH 0%nat o' H2 eq_refl Ht). lia.
Qed.

Lemma mol_offsets_length start items : length (mol_offsets start items) = length items.
Proof. revert start. induction items as [|x items IH]; intros; simpl; [done|]. by rw IH. Qed.

Lemma mol_offsets_sorted start items t :
  t = start + length (concat items) → non_decreasing (mol_offsets start items ++ [t]) = true.
Proof.
  intros ->. revert start. induction items as [|x items IH]; intros start; [done|].
  specialize (IH (start + length x)). cbn [mol_offsets concat app] in *. rw length_app.
  replace (start + (length x + length (concat items))%nat) with (start + length x + length (concat items)) by lia.
  destruct items as [|y items]; cbn [mol_offsets app non_decreasing concat] in *.
  - rw /= Z.add_0_r. apply andb_true_iff. split; [apply Z.leb_le; lia|done].
  - apply andb_true_iff. split; [apply Z.leb_le; lia|done].
Qed.

Lemma mol_offsets_range start items t :
  0 ≤ start → start + length (concat items) = t → Forall (λ o, 0 ≤ o ≤ t) (mol_offsets start items).
Proof.
  intros H0 <-. revert start H0. induction items as [|x items IH]; intros start H0; cbn [mol_offsets concat]; [done|].
  rw length_app. constructor; [lia|]. eapply Forall_impl; [apply IH; lia|]. simpl. intros o Ho. lia.
Qed.

(** ** Verified offsets *)

(** The offsets that [verify_offsets] returns: entry [i] is the number at
    position [4 * (i + 1)], and the total size comes last. *)
Lemma verify_offsets_Ok slice (t : Z) os :
  8 ≤ length slice → t = length slice → verify_offsets slice t = Ok os →
  ∃ k : nat, (0 < k)%nat ∧ 4 * (k + 1) ≤ length slice ∧ length os = S k ∧ last os = Some t ∧
    os !! k = Some t ∧ unpack_at 4 slice = Ok (4 * (k + 1)) ∧ os !! 0%nat = Some (4 * (k + 1)) ∧
    ∀ i : nat, (i < k)%nat → ∃ o, os !! i = Some o ∧ unpack_at (4 * (i + 1)) slice = Ok o ∧ 0 ≤ o.
Proof.
  intros Hl Ht. rw /verify_offsets /NUMBER_SIZE unpack_at_Ok; [|lia]. cbn [mbind Res_bind].
  set (f := unpack_number (drop (Z.to_nat 4) slice)).
  destruct (f mod 4 =? 0) eqn:Hm; [|done]. apply Z.eqb_eq in Hm. cbn [negb orb].
  case: Z.ltb_spec => H8; [done|]. case: Z.ltb_spec => Hfl; [done|].
  rw slice_range_Ok; [|lia..]. cbn [mbind Res_bind]. intros [= <-].
  pose proof (Z.div_mod f 4 ltac:(lia)) as Hd. rw Hm in Hd.
  set (h := take (Z.to_nat (f - 4)) (drop (Z.to_nat 4) slice)).
  assert (length h = (4 * Z.to_nat (f / 4 - 1))%nat) as Hh by (rw /h length_take length_drop; lia).
  exists (Z.to_nat (f / 4 - 1)). set (k := Z.to_nat (f / 4 - 1)) in *.
  change (Nat.divmod (length h) 3 0 3).1 with (length h / 4)%nat.
  assert (length h / 4 = k)%nat as -> by (rw Hh Nat.mul_comm Nat.div_mul //).
  assert (∀ i : nat, (i < k)%nat → read_offsets k h !! i = Some (unpack_number (drop (4 * (i + 1)) slice))) as Hi.
  { intros i Hi. rw read_offsets_lookup; [|done|lia]. f_equal. rw /h skipn_firstn_comm.
    rw drop_drop -(unpack_number_take (take _ _)); [|rw length_take length_drop; lia].
    rw take_take -(unpack_number_take (drop (4 * (i + 1)) slice)); [|rw length_drop; lia].
    do 2 f_equal; [lia|f_equal; lia]. }
  split_and!; [lia..| | | | | |].
  - rw length_app read_offsets_length /=. lia.
  - by rw last_snoc.
  - rw lookup_app_r; rw read_offsets_length ?Nat.sub_diag //.
  - f_equal. lia.
  - rw lookup_app_l; [|rw read_offsets_length; lia]. rw Hi; [|lia].
    f_equal. change (drop (4 * (0 + 1)) slice) with (drop (Z.to_nat 4) slice). fold f. lia.
  - intros i Hik. eexists. rw lookup_app_l; [|rw read_offsets_length; lia]. split; [by apply Hi|].
    rw unpack_at_Ok; [|lia]. replace (Z.to_nat (4 * (i + 1))) with (4 * (i + 1))%nat by lia.
    split; [done|]. apply unpack_number_range.
Qed.

Lemma verify_offsets_no_panic slice t : 8 ≤ length slice → verify_offsets slice t ≠ Panic.
Proof.
  intros Hl. rw /verify_offsets /NUMBER_SIZE unpack_at_Ok; [|lia]. cbn [mbind Res_bind].
  destruct (negb _); cbn [orb]; [done|]. case: Z.ltb_spec => H8; [done|]. case: Z.ltb_spec => Hfl; [done|].
  rw slice_range_Ok; [|lia..]. done.
Qed.

(** ** Tables *)

(** A slice with verified offsets [os]: what the accessors rely on. *)
Definition offsets_of (s : bytes) (os : list Z) : Prop :=
  8 ≤ length s ∧ unpack_at 0 s = Ok (Z.of_nat (length s)) ∧
  verify_offsets s (length s) = Ok os ∧ non_decreasing os = true.

Lemma offsets_field_count s os : offsets_of s os → field_count s = Ok (length os - 1).
Proof.
  intros (Hl & Ht & Hv & _). destruct (verify_offsets_Ok _ _ _ Hl eq_refl Hv) as (k & Hk & _ & -> & _ & _ & Hf & _).
  rw /field_count Ht /NUMBER_SIZE. cbn [mbind Res_bind]. rewrite -> (proj2 (Z.eqb_neq _ _)) by lia. rw Hf.
  cbn [mbind Res_bind]. rw Z.mul_comm Z.div_mul //. rewrite -> (proj2 (Z.ltb_ge _ _)) by lia. f_equal. lia.
Qed.

(** The slice between two consecutive offsets exists. *)
Lemma offsets_slice s os (i : nat) :
  offsets_of s os → (S i < length os)%nat →
  ∃ a b x, os !! i = Some a ∧ os !! S i = Some b ∧ slice_range s a b = Ok x ∧
    unpack_at (4 * (i + 1)) s = Ok a ∧
    ((S (S i) < length os)%nat → unpack_at (4 * (i + 2)) s = Ok b) ∧
    (S (S i) = length os → b = length s).
Proof.
  intros (Hl & _ & Hv & Hn) Hi.
  destruct (verify_offsets_Ok _ _ _ Hl eq_refl Hv) as (k & Hk & _ & Hlen & Hlast & Hkt & _ & _ & Ho).
  destruct (Ho i) as (a & Ha & Hua & H0); [lia|].
  destruct (lookup_lt_is_Some_2 os (S i)) as [b Hb]; [lia|].
  pose proof (non_decreasing_lookup _ _ _ _ Hn Ha Hb). pose proof (non_decreasing_last _ _ _ _ Hn Hb Hlast).
  exists a, b, (take (Z.to_nat (b - a)) (drop (Z.to_nat a) s)).
  rw slice_range_Ok; [|lia..]. split_and!; try done.
  - intros Hi'. destruct (Ho (S i)) as (b' & Hb' & Hub & _); [lia|]. rw Hb in Hb'. injection Hb' as <-.
    rw -Hub. f_equal. lia.
  - intros Hi'. replace (S i) with k in Hb by lia. rw Hkt in Hb. by injection Hb as <-.
Qed.

Lemma table_field_offsets s os (n i : nat) :
  offsets_of s os → (n < length os)%nat → (i < n)%nat →
  ∃ a b, os !! i = Some a ∧ os !! S i = Some b ∧ table_field n i s = slice_range s a b.
Proof.
  intros Hof Hn Hi. destruct (offsets_slice s os i Hof ltac:(lia)) as (a & b & x & Ha & Hb & _ & Hua & Hub & Hend).
  exists a, b. split_and!; try done. rw /table_field Hua. cbn [mbind Res_bind].
  case: (bool_decide_reflect (S i = n)) => Hlast; [|by rw Hub; [|lia]].
  rw (offsets_field_count _ _ Hof). cbn [mbind Res_bind]. case: Z.eqb_spec => Hc; cbn [negb].
  - by rw -Hend; [|lia].
  - by rw Hub; [|lia].
Qed.

Lemma verify_fields_lookup fields s c os (i : nat) f :
  verify_fields fields s c os = Ok () → fields !! i = Some f →
  ∃ a b x, os !! i = Some a ∧ os !! S i = Some b ∧ slice_range s a b = Ok x ∧ f x c = Ok ().
Proof.
  revert os i. induction fields as [|g fields IH]; intros os i; [done|]. cbn [verify_fields].
  destruct os as [|a [|b os]]; [done..|]. intros (x & Hx & H)%Res_bind_Ok. apply Res_bind_Ok in H as ([] & Hg & H).
  destruct i as [|i]; [|exact (IH (b :: os) i H)]. intros [= <-]. by exists a, b, x.
Qed.

Lemma table_verify_Ok fields s c :
  table_verify fields s c = Ok () →
  ∃ os, offsets_of s os ∧ (length fields < length os)%nat ∧ verify_fields fields s c os = Ok ().
Proof.
  rw /table_verify. case: Z.ltb_spec => H4; [done|]. intros (t & Ht & H)%Res_bind_Ok.
  destruct (Z.eqb_spec (length s) t) as [<-|]; [|done]. cbn [negb] in H.
  destruct (Z.ltb_spec (length s) (NUMBER_SIZE * 2)) as [|H8]; [done|]. rw /NUMBER_SIZE in H8.
  apply Res_bind_Ok in H as (os & Hv & H). exists os.
  destruct (verify_offsets_Ok _ _ _ H8 eq_refl Hv) as (k & Hk & _ & Hlen & _).
  rw Hlen in H. case_bool_decide as Hc; [done|].
  destruct (negb c && _); [done|]. destruct (non_decreasing os) eqn:Hn; [|done].
  split_and!; [done|lia|done].
Qed.

(** Reading a verified table: every accessor returns a verified field. *)
Lemma table_verified fields s c (i : nat) f :
  table_verify fields s c = Ok () → fields !! i = Some f →
  ∃ x, table_field (length fields) i s = Ok x ∧ f x c = Ok ().
Proof.
  intros (os & Hof & Hlen & Hv)%table_verify_Ok Hf.
  destruct (verify_fields_lookup _ _ _ _ _ _ Hv Hf) as (a & b & x & Ha & Hb & Hx & Hfx).
  pose proof (lookup_lt_Some _ _ _ Hf) as Hi.
  destruct (table_field_offsets s os (length fields) i Hof Hlen Hi) as (a' & b' & Ha' & Hb' & ->).
  simplify_eq. by exists x.
Qed.

Lemma verify_fields_no_panic fields s c (os : list Z) :
  (length fields < length os)%nat →
  (∀ i a b, os !! i = Some a → os !! S i = Some b → ∃ x, slice_range s a b = Ok x) →
  (∀ f x, f ∈ fields → f x c ≠ Panic) → verify_fields fields s c os ≠ Panic.
Proof.
  revert os. induction fields as [|f fields IH]; intros os Hl Hs Hf; [done|]. cbn [verify_fields].
  destruct os as [|a [|b os]]; simpl in Hl; [lia..|]. destruct (Hs 0%nat a b eq_refl eq_refl) as [x ->].
  cbn [mbind Res_bind]. pose proof (Hf f x ltac:(set_solver)). destruct (f x c); [|done..]. cbn [mbind Res_bind].
  apply IH; [simpl; lia|intros i; apply (Hs (S i))|set_solver].
Qed.

Lemma offsets_slices s os i a b :
  offsets_of s os → os !! i = Some a → os !! S i = Some b → ∃ x, slice_range s a b = Ok x.
Proof.
  intros Hof Ha Hb. pose proof (lookup_lt_Some _ _ _ Hb).
  destruct (offsets_slice s os i Hof ltac:(lia)) as (a' & b' & x & Ha' & Hb' & Hx & _). simplify_eq. by exists x.
Qed.

Lemma table_no_panic fields s c :
  (∀ f x, f ∈ fields → f x c ≠ Panic) → table_verify fields s c ≠ Panic.
Proof.
  intros Hf. rw /table_verify /NUMBER_SIZE. case: Z.ltb_spec => H4; [done|].
  destruct (unpack_at 0 s) as [t|?|] eqn:Ht; [|done|by rw unpack_at_Ok in Ht; [|lia]]. cbn [mbind Res_bind].
  destruct (Z.eqb_spec (length s) t) as [<-|]; [|done]. cbn [negb].
  destruct (Z.ltb_spec (length s) (4 * 2)) as [|H8]; [done|].
  pose proof (verify_offsets_no_panic s (length s) H8).
  destruct (verify_offsets s (length s)) as [os|?|] eqn:Hv; [|done..]. cbn [mbind Res_bind].
  destruct (verify_offsets_Ok _ _ _ H8 eq_refl Hv) as (k & Hk & _ & Hlen & _). rw Hlen.
  case_bool_decide as Hc; [done|]. destruct (negb c && _); [done|].
  destruct (non_decreasing os) eqn:Hn; [|done]. apply verify_fields_no_panic; [lia| |done].
  intros i a b. by apply offsets_slices.
Qed.

(** *** The older readers *)

Lemma read_offsets_take k s : read_offsets k (take (4 * k) s) = read_offsets k s.
Proof.
  revert s. induction k as [|k IH]; intros s; [done|]. cbn [read_offsets].
  rw take_take skipn_firstn_comm -(IH (drop 4 s)). f_equal; [do 2 f_equal; lia|].
  do 2 f_equal. lia.
Qed.

(** They accept what the newer ones accept; at most the error is another. *)
Lemma old_table_verify_same (fields : list Verifier) s c :
  fields ≠ [] →
  old_table_verify fields s c = table_verify fields s c ∨
  ∃ e e', old_table_verify fields s c = Err e ∧ table_verify fields s c = Err e'.
Proof.
  intros Hne. rw /old_table_verify /table_verify /verify_offsets /NUMBER_SIZE. case: Z.ltb_spec => H4; [by left|].
  destruct (unpack_at 0 s) as [t|?|]; [|by left..]. cbn [mbind Res_bind].
  destruct (Z.eqb_spec (length s) t) as [<-|]; [|by left]. cbn [negb].
  assert (length fields ≠ 0)%nat by (intros H; by apply nil_length_inv in H).
  rewrite -> (proj2 (Z.eqb_neq (length fields) 0)) by lia. rw andb_false_r.
  destruct (Z.ltb_spec (length s) (4 * 2)) as [|H8]; [by left|].
  rw unpack_at_Ok; [|lia]. cbn [mbind Res_bind]. set (f := unpack_number (drop (Z.to_nat 4) s)).
  destruct (f mod 4 =? 0) eqn:Hm; cbn [negb orb]; [|by left]. apply Z.eqb_eq in Hm.
  case: (Z.ltb_spec f (4 * 2)) => Hf8; [by left|]. pose proof (Z.div_mod f 4 ltac:(lia)) as Hd. rw Hm in Hd.
  replace (4 * (f / 4 - 1 + 1)) with f by lia.
  case: (Z.ltb_spec (length s) f) => Hfl.
  { right. repeat (case_match; [by eauto|]). by eauto. }
  rw slice_range_Ok; [|lia..]. cbn [mbind Res_bind]. set (k := Z.to_nat (f / 4 - 1)).
  assert (Z.to_nat (f - 4) = 4 * k)%nat as -> by lia.
  assert (length (take (4 * k) (drop (Z.to_nat 4) s)) / 4 = k)%nat as ->.
  { rw length_take length_drop Nat.min_l; [|lia]. by rw Nat.mul_comm Nat.div_mul. }
  rw read_offsets_take. left. rw length_app read_offsets_length. cbn [length]. rw Nat.add_sub.
  assert (∀ a b : bool, (a = true ↔ b = true) → a = b) as Hb by (intros [] []; intuition congruence).
  rewrite -> (Hb (f / 4 - 1 <? length fields) (bool_decide (k < length fields)%nat)),
    (Hb (length fields <? f / 4 - 1) (bool_decide (length fields < k)%nat)); [done|..].
  all: rw Z.ltb_lt bool_decide_eq_true; lia.
Qed.

Lemma old_table_Ok (fields : list Verifier) s c :
  fields ≠ [] → old_table_verify fields s c = Ok () ↔ table_verify fields s c = Ok ().
Proof. intros Hne. by destruct (old_table_verify_same fields s c Hne) as [-> | (? & ? & -> & ->)]. Qed.

Lemma old_table_no_panic (fields : list Verifier) s c :
  fields ≠ [] → (∀ f x, f ∈ fields → f x c ≠ Panic) → old_table_verify fields s c ≠ Panic.
Proof.
  intros Hne Hf. pose proof (table_no_panic fields s c Hf).
  by destruct (old_table_verify_same fields s c Hne) as [-> | (? & ? & -> & _)].
Qed.

(** ** What a builder writes *)

Lemma table_write_length items :
  length (table_write items) = (4 * (length items + 1) + length (concat items))%nat.
Proof.
  rw /table_write /NUMBER_SIZE !length_app length_concat_pack mol_offsets_length pack_number_length. lia.
Qed.

Lemma table_write_offsets items :
  items ≠ [] → length (table_write items) < 2 ^ 32 →
  offsets_of (table_write items)
    (mol_offsets (4 * (length items + 1)) items ++ [Z.of_nat (length (table_write items))]).
Proof.
  intros Hne Hl. pose proof (table_write_length items) as Hlen.
  set (start := 4 * (length items + 1)). set (s := table_write items) in *.
  assert (Z.of_nat (length s) = start + length (concat items)) as Ht by (rw Hlen /start; lia).
  assert (s = pack_number (length s) ++ concat (pack_number <$> mol_offsets start items) ++ concat items) as Hs
    by by rw Ht.
  assert (0 < length items)%nat as Hpos by (destruct items; simpl; [done|lia]).
  assert (Forall (λ o, 0 ≤ o < 2 ^ 32) (mol_offsets start items)) as Hr.
  { eapply Forall_impl; [apply (mol_offsets_range start items (length s)); [lia|done]|]. simpl. intros o Ho. lia. }
  split_and!; [rw Hlen; lia| | |by apply mol_offsets_sorted].
  - rw {1}Hs. apply (unpack_at_pack []); [done|lia].
  - rw /verify_offsets /NUMBER_SIZE.
    assert (unpack_at 4 s = Ok start) as ->.
    { rw Hs. destruct items as [|x items]; [done|]. cbn [mol_offsets fmap list_fmap concat]. rw -app_assoc.
      apply unpack_at_pack; [by rw pack_number_length|]. by apply Forall_cons in Hr as [? _]. }
    cbn [mbind Res_bind]. rw {1}/start Z.mul_comm Z.mod_mul // Z.eqb_refl. cbn [negb orb].
    rewrite -> (proj2 (Z.ltb_ge start _)), (proj2 (Z.ltb_ge _ start)) by (rw /start; lia).
    rw {1}Hs (slice_range_mid _ (concat (pack_number <$> mol_offsets start items)) (concat items));
      [|by rw pack_number_length|rw length_concat_pack mol_offsets_length /start; lia].
    cbn [mbind Res_bind]. rw length_concat_pack Nat.mul_comm Nat.div_mul //.
    pose proof (read_offsets_pack (mol_offsets start items) [] Hr) as Hro. rw app_nil_r in Hro. by rw Hro -Hs.
Qed.

(** Between consecutive offsets lies the item. *)
Lemma mol_offsets_slice (pre : bytes) items (i : nat) x a b :
  items !! i = Some x →
  (mol_offsets (length pre) items ++ [Z.of_nat (length (pre ++ concat items))]) !! i = Some a →
  (mol_offsets (length pre) items ++ [Z.of_nat (length (pre ++ concat items))]) !! S i = Some b →
  slice_range (pre ++ concat items) a b = Ok x.
Proof.
  revert pre i. induction items as [|y items IH]; intros pre i; [done|].
  assert (pre ++ concat (y :: items) = (pre ++ y) ++ concat items) as Hc by by rw /= app_assoc.
  destruct i as [|i].
  - intros [= ->]. intros [= <-]. cbn [concat]. intros Hb.
    apply slice_range_mid; [done|]. destruct items as [|z items].
    + cbn [mol_offsets app lookup list_lookup concat] in Hb. injection Hb as <-. rw app_nil_r length_app. lia.
    + cbn [mol_offsets app lookup list_lookup] in Hb. by injection Hb as <-.
  - intros Hx Ha Hb. rw Hc. apply (IH (pre ++ y) i); [done|..].
    + rw -Hc length_app Nat2Z.inj_add. exact Ha.
    + rw -Hc length_app Nat2Z.inj_add. exact Hb.
Qed.

Lemma table_write_slice items (i : nat) x a b :
  let os := mol_offsets (4 * (length items + 1)) items ++ [Z.of_nat (length (table_write items))] in
  items !! i = Some x → os !! i = Some a → os !! S i = Some b → slice_range (table_write items) a b = Ok x.
Proof.
  intros os Hx Ha Hb. rw /table_write app_assoc. set (pre := pack_number _ ++ concat _).
  assert (length pre = (4 * (length items + 1))%nat) as Hpre.
  { rw /pre length_app length_concat_pack mol_offsets_length pack_number_length. lia. }
  apply (mol_offsets_slice pre items i); [done|..]; rw Hpre length_app Hpre.
  - rw -Ha /os table_write_length. do 3 f_equal; lia.
  - rw -Hb /os table_write_length. do 3 f_equal; lia.
Qed.

Lemma table_read_write items (i : nat) x :
  length (table_write items) < 2 ^ 32 → items !! i = Some x →
  table_field (length items) i (table_write items) = Ok x.
Proof.
  intros Hl Hx. assert (items ≠ []) as Hne by by intros ->. pose proof (table_write_offsets _ Hne Hl) as Hof.
  pose proof (lookup_lt_Some _ _ _ Hx).
  destruct (table_field_offsets _ _ (length items) i Hof) as (a & b & Ha & Hb & ->);
    [rw length_app mol_offsets_length /=; lia|done|]. by eapply table_write_slice.
Qed.

Lemma verify_fields_slices fields items s c (os : list Z) :
  Forall2 (λ (f : Verifier) x, f x c = Ok ()) fields items → (length items < length os)%nat →
  (∀ i x a b, items !! i = Some x → os !! i = Some a → os !! S i = Some b → slice_range s a b = Ok x) →
  verify_fields fields s c os = Ok ().
Proof.
  intros HF. revert os. induction HF as [|f x fields items Hf _ IH]; intros os Hl Hs; [done|].
  cbn [verify_fields]. destruct os as [|a [|b os]]; simpl in Hl; [lia..|].
  rw (Hs 0%nat x a b) //. cbn [mbind Res_bind]. rw Hf. cbn [mbind Res_bind].
  apply IH; [simpl; lia|]. intros i. apply (Hs (S i)).
Qed.

Lemma table_verify_write fields items c :
  items ≠ [] → length (table_write items) < 2 ^ 32 →
  Forall2 (λ (f : Verifier) x, f x c = Ok ()) fields items → table_verify fields (table_write items) c = Ok ().
Proof.
  intros Hne Hl HF. pose proof (table_write_offsets _ Hne Hl) as (H8 & Ht & Hv & Hn).
  pose proof (Forall2_length _ _ _ HF) as Hlen.
  rw /table_verify /NUMBER_SIZE. rewrite -> (proj2 (Z.ltb_ge _ _)) by lia. rw Ht. cbn [mbind Res_bind].
  rw Z.eqb_refl. cbn [negb]. rewrite -> (proj2 (Z.ltb_ge _ _)) by lia. rw Hv. cbn [mbind Res_bind].
  rw length_app mol_offsets_length /= Nat.add_sub. rewrite -> !bool_decide_eq_false_2 by lia.
  rw andb_false_r Hn. cbn [negb].
  eapply verify_fields_slices; [done|rw length_app mol_offsets_length /=; lia|].
  intros i x a b. apply table_write_slice.
Qed.

(** ** Dynamic vectors *)

(** [items] are the slices between the offsets [os]. *)
Definition slices_of (s : bytes) (os : list Z) (items : list bytes) : Prop :=
  length os = S (length items) ∧
  ∀ i x a b, items !! i = Some x → os !! i = Some a → os !! S i = Some b → slice_range s a b = Ok x.

Lemma offsets_items s os : offsets_of s os → ∃ items, slices_of s os items.
Proof.
  intros Hof. assert (∀ n : nat, (n < length os)%nat → ∃ items, length items = n ∧
    ∀ i x a b, items !! i = Some x → os !! i = Some a → os !! S i = Some b → slice_range s a b = Ok x) as H.
  { induction n as [|n IH]; intros Hn; [by exists []|]. destruct IH as (items & Hl & Hi); [lia|].
    destruct (offsets_slice s os n Hof Hn) as (a & b & x & Ha & Hb & Hx & _).
    exists (items ++ [x]). split; [rw length_app /=; lia|]. intros i y a' b' Hy Ha' Hb'.
    apply lookup_app_Some in Hy as [Hy|[Hge Hy]]; [by eapply Hi|].
    assert (i = n) as -> by (apply lookup_lt_Some in Hy; simpl in Hy; lia).
    rw Hl Nat.sub_diag in Hy. by simplify_eq/=. }
  destruct Hof as (H8 & _ & Hv & _). destruct (verify_offsets_Ok _ _ _ H8 eq_refl Hv) as (k & _ & _ & Hlen & _).
  destruct (H k) as (items & Hl & Hi); [lia|]. exists items. split; [lia|done].
Qed.

Lemma dynvec_from_items s os items (k j : nat) :
  offsets_of s os → slices_of s os items → (j + k = length items)%nat →
  dynvec_from k (length items) j s = Ok (drop j items).
Proof.
  intros Hof [Hl Hs]. revert j. induction k as [|k IH]; intros j Hj; cbn [dynvec_from].
  { rw drop_ge //. lia. }
  destruct (offsets_slice s os j Hof ltac:(lia)) as (a & b & x & Ha & Hb & Hx & Hua & Hub & Hend).
  destruct (lookup_lt_is_Some_2 items j) as [y Hy]; [lia|]. pose proof (Hs j y a b Hy Ha Hb) as Hxy.
  assert (dynvec_get (length items) j s = Ok y) as ->.
  { rw /dynvec_get /NUMBER_SIZE. replace (4 * (1 + j)) with (4 * (j + 1)) by lia. rw Hua. cbn [mbind Res_bind].
    case: Z.eqb_spec => Hc; [by rw -Hend; [|lia]|].
    replace (4 * (j + 1) + 4) with (4 * (j + 2)) by lia. by rw Hub; [|lia]. }
  cbn [mbind Res_bind]. replace (j + 1) with (Z.of_nat (S j)) by lia. rw IH; [|lia]. cbn [mbind Res_bind].
  by rw (drop_S _ _ _ Hy).
Qed.

Lemma dynvec_items_slices s os items :
  offsets_of s os → slices_of s os items → dynvec_items s = Ok items.
Proof.
  intros Hof Hs. rw /dynvec_items (offsets_field_count _ _ Hof). cbn [mbind Res_bind].
  destruct Hs as [Hl Hs]. replace (Z.of_nat (length os) - 1) with (Z.of_nat (length items)) by lia.
  rw Nat2Z.id. by apply (dynvec_from_items s os items (length items) 0).
Qed.

Lemma verify_items_slices item s c os items :
  slices_of s os items → (verify_items item s c os = Ok () ↔ Forall (λ x, item x c = Ok ()) items).
Proof.
  intros [Hl Hs]. revert os Hl Hs. induction items as [|x items IH]; intros os Hl Hs.
  - destruct os as [|a [|]]; simpl in *; done.
  - destruct os as [|a [|b os]]; simpl in Hl; [lia..|]. cbn [verify_items].
    rw (Hs 0%nat x a b) //. cbn [mbind Res_bind]. rw Forall_cons -(IH (b :: os)).
    + destruct (item x c) as [[]|?|]; cbn [mbind Res_bind]; naive_solver.
    + simpl. lia.
    + intros i. apply (Hs (S i)).
Qed.

Lemma dynvec_empty s c item :
  length s = 4%nat → unpack_at 0 s = Ok 4 → dynvec_verify item s c = Ok () ∧ dynvec_items s = Ok [].
Proof.
  intros Hl Hu. rw /dynvec_verify /dynvec_items /field_count Hl Hu. done.
Qed.

Lemma dynvec_verified item s c :
  dynvec_verify item s c = Ok () →
  ∃ xs, dynvec_items s = Ok xs ∧ Forall (λ x, item x c = Ok ()) xs.
Proof.
  intros H. pose proof H as H'. rw /dynvec_verify /NUMBER_SIZE in H'. destruct (Z.ltb_spec (length s) 4) as [|H4]; [done|].
  apply Res_bind_Ok in H' as (t & Ht & H'). destruct (Z.eqb_spec (length s) t) as [<-|]; [|done]. cbn [negb] in H'.
  destruct (Z.eqb_spec (length s) 4) as [He|He].
  { exists []. split; [|done]. apply (dynvec_empty s c item); [lia|by rw Ht He]. }
  destruct (Z.ltb_spec (length s) (4 * 2)) as [|H8]; [done|]. apply Res_bind_Ok in H' as (os & Hv & H').
  destruct (non_decreasing os) eqn:Hn; [|done]. cbn [negb] in H'.
  assert (offsets_of s os) as Hof by done. destruct (offsets_items s os Hof) as [items Hs].
  exists items. split; [by eapply dynvec_items_slices|]. by eapply verify_items_slices.
Qed.

Lemma verify_items_no_panic item s c os :
  (∀ i a b, os !! i = Some a → os !! S i = Some b → ∃ x, slice_range s a b = Ok x) →
  (∀ x, item x c ≠ Panic) → verify_items item s c os ≠ Panic.
Proof.
  intros Hs Hi. induction os as [|a os IH]; [done|]. destruct os as [|b os]; [done|]. cbn [verify_items].
  destruct (Hs 0%nat a b eq_refl eq_refl) as [x ->]. cbn [mbind Res_bind]. pose proof (Hi x).
  destruct (item x c); [|done..]. cbn [mbind Res_bind]. apply IH. intros i. apply (Hs (S i)).
Qed.

Lemma dynvec_no_panic item s c : (∀ x, item x c ≠ Panic) → dynvec_verify item s c ≠ Panic.
Proof.
  intros Hi. rw /dynvec_verify /NUMBER_SIZE. case: Z.ltb_spec => H4; [done|].
  destruct (unpack_at 0 s) as [t|?|] eqn:Ht; [|done|by rw unpack_at_Ok in Ht; [|lia]]. cbn [mbind Res_bind].
  destruct (Z.eqb_spec (length s) t) as [<-|]; [|done]. cbn [negb].
  case: (length s =? 4); [done|]. destruct (Z.ltb_spec (length s) (4 * 2)) as [|H8]; [done|].
  pose proof (verify_offsets_no_panic s (length s) H8).
  destruct (verify_offsets s (length s)) as [os|?|] eqn:Hv; [|done..]. cbn [mbind Res_bind].
  destruct (non_decreasing os) eqn:Hn; [|done]. cbn [negb].
  apply verify_items_no_panic; [|done]. intros i a b. by apply offsets_slices.
Qed.

Lemma dynvec_write_nonempty items : items ≠ [] → dynvec_write items = table_write items.
Proof. by destruct items. Qed.

Lemma dynvec_roundtrip item items c :
  length (dynvec_write items) < 2 ^ 32 → Forall (λ x, item x c = Ok ()) items →
  dynvec_verify item (dynvec_write items) c = Ok () ∧ dynvec_items (dynvec_write items) = Ok items.
Proof.
  intros Hl Hi. destruct (decide (items = [])) as [->|Hne].
  { apply dynvec_empty; [apply pack_number_length|].
    rw /dynvec_write -(app_nil_r (pack_number _)). by apply (unpack_at_pack []). }
  rw dynvec_write_nonempty // in Hl |- *. pose proof (table_write_offsets _ Hne Hl) as Hof.
  assert (slices_of (table_write items) (mol_offsets (4 * (length items + 1)) items ++
    [Z.of_nat (length (table_write items))]) items) as Hs.
  { split; [rw length_app mol_offsets_length /=; lia|]. intros i x a b. apply table_write_slice. }
  split; [|by eapply dynvec_items_slices]. destruct Hof as (H8 & Ht & Hv & Hn).
  rw /dynvec_verify /NUMBER_SIZE. rewrite -> (proj2 (Z.ltb_ge _ _)) by lia. rw Ht. cbn [mbind Res_bind].
  rw Z.eqb_refl. cbn [negb]. rewrite -> (proj2 (Z.eqb_neq _ _)), (proj2 (Z.ltb_ge _ _)) by lia.
  rw Hv. cbn [mbind Res_bind]. rw Hn. cbn [negb]. by apply (verify_items_slices _ _ _ _ _ Hs).
Qed.

(** The parts of a table that fits also fit. *)
Lemma table_parts (xs : list bytes) :
  length (table_write xs) < 2 ^ 32 → Forall (λ x, length x < 2 ^ 32) xs.
Proof.
  rw table_write_length. intros H. assert (Z.of_nat (length (concat xs)) < 2 ^ 32) as H' by lia. clear H.
  induction xs as [|x xs IH]; [done|]. cbn [concat] in H'. rewrite -> length_app in H'. constructor; [lia|]. apply IH. lia.
Qed.

Lemma dynvec_parts (xs : list bytes) :
  length (dynvec_write xs) < 2 ^ 32 → Forall (λ x, length x < 2 ^ 32) xs.
Proof. destruct (decide (xs = [])) as [->|Hne]; [done|]. rw dynvec_write_nonempty //. apply table_parts. Qed.

(** A table of one field of the older readers. *)
Lemma old_table_1 (f : Verifier) x c :
  length x < 2 ^ 31 → f x c = Ok () →
  old_table_verify [f] (table_write [x]) c = Ok () ∧ table_field 1 0 (table_write [x]) = Ok x.
Proof.
  intros Hl Hf. assert (length (table_write [x]) < 2 ^ 32) as Ht by (rw table_write_length /= app_nil_r; lia). split.
  - apply old_table_Ok; [done|]. by apply table_verify_write; [| |repeat constructor].
  - by apply (table_read_write [x] 0).
Qed.

Lemma old_table_1_verified (f : Verifier) s c :
  old_table_verify [f] s c = Ok () → ∃ x, table_field 1 0 s = Ok x ∧ f x c = Ok ().
Proof. intros H%old_table_Ok; [|done]. by apply (table_verified [f] s c 0). Qed.

Lemma le_bytes_length (w : nat) n : length (le_bytes w n) = w.
Proof. by rw /le_bytes length_rev length_be_bytes. Qed.

Lemma from_le_bytes (w : nat) n : 0 ≤ n < 256 ^ w → from_le w (le_bytes w n) = n.
Proof.
  intros Hn. rw /from_le take_ge; [|by rw le_bytes_length]. rw /le_bytes rev_involutive. by apply be_Z_put.
Qed.

Lemma from_le_range (w : nat) s : 0 ≤ from_le w s < 256 ^ w.
Proof.
  rw /from_le. pose proof (be_Z_range (rev (take w s))) as H. revert H. rw length_rev. intros [? H]. split; [done|].
  eapply Z.lt_le_trans; [exact H|]. apply Z.pow_le_mono_r; [lia|]. rw length_take. lia.
Qed.

(** A decoder that ends with a result in [P]. *)
Definition yields {A} (P : option A → Prop) (r : VR (option A)) : Prop := ∃ o, r = Ok o ∧ P o.

(** ** Unions, arrays and options *)

Lemma union_roundtrip (items : list Verifier) (id : nat) item x c :
  items !! id = Some item → length items < 2 ^ 32 →
  union_verify items (union_write id x) c = item x c ∧
  union_to_enum (length items) (union_write id x) = Ok (id, x).
Proof.
  intros Hid Hl. assert (id < length items)%nat as Hlt by by eapply lookup_lt_Some.
  pose proof (slice_range_mid (pack_number id) x [] 4 (length (union_write id x))) as Hs. rw app_nil_r in Hs.
  specialize (Hs ltac:(by rw pack_number_length) ltac:(rw /union_write length_app pack_number_length; lia)).
  assert (unpack_at 0 (union_write id x) = Ok (Z.of_nat id)) as Hu.
  { apply (unpack_at_pack []); [done|lia]. }
  rw /union_verify /union_to_enum /NUMBER_SIZE Hs Hu. cbn [mbind Res_bind]. rw Nat2Z.id Hid.
  rewrite -> (proj2 (Z.ltb_ge _ _)) by (rw /union_write length_app pack_number_length; lia).
  by rewrite -> (proj2 (Z.ltb_lt _ _)) by lia.
Qed.

Lemma union_verified (items : list Verifier) s c :
  union_verify items s c = Ok () →
  ∃ id item x, items !! id = Some item ∧ union_to_enum (length items) s = Ok (id, x) ∧ item x c = Ok ().
Proof.
  rw /union_verify /union_to_enum. case: Z.ltb_spec => H4; [done|]. intros (n & Hn & H)%Res_bind_Ok.
  apply Res_bind_Ok in H as (x & Hx & H). destruct (items !! Z.to_nat n) as [item|] eqn:E; [|done].
  exists (Z.to_nat n), item, x. rw Hx. cbn [mbind Res_bind]. rw Hn. cbn [mbind Res_bind].
  assert (Z.to_nat n < length items)%nat by by eapply lookup_lt_Some.
  rewrite -> (proj2 (Z.ltb_lt _ _)) by lia. done.
Qed.

Lemma union_no_panic (items : list Verifier) s c : (∀ item x, item ∈ items → item x c ≠ Panic) → union_verify items s c ≠ Panic.
Proof.
  intros Hi. rw /union_verify /NUMBER_SIZE. case: Z.ltb_spec => H4; [done|].
  rw unpack_at_Ok; [|lia]. cbn [mbind Res_bind]. rw slice_range_Ok; [|lia..]. cbn [mbind Res_bind].
  destruct (items !! _) as [item|] eqn:E; [|done]. apply Hi. by eapply list_elem_of_lookup_2.
Qed.

Lemma array_verified n s c : array_verify n s c = Ok () ↔ length s = n.
Proof. rw /array_verify. case_bool_decide; by split. Qed.

Lemma array_no_panic n s c : array_verify n s c ≠ Panic.
Proof. rw /array_verify. by case_match. Qed.

Lemma option_verified item s c :
  option_verify item s c = Ok () → s = [] ∧ option_to_opt s = None ∨ option_to_opt s = Some s ∧ item s c = Ok ().
Proof. rw /option_verify /option_to_opt. case_bool_decide; [by left|by right]. Qed.

Lemma option_no_panic item s c : item s c ≠ Panic → option_verify item s c ≠ Panic.
Proof. rw /option_verify. by case_bool_decide. Qed.
End facts.

(** ** Little-endian numbers *)

#[global] Instance LeNumber : MolNumber := {|
  pack_number n := rev (be_bytes 4 n);
  unpack_number s := be_Z (rev (take 4 s));
|}.

#[global] Instance LeNumberLaws : MolNumberLaws.
Proof.
  split; cbn [pack_number unpack_number LeNumber].
  - intros n. by rw length_rev length_be_bytes.
  - intros n rest Hn. rewrite -> take_app_length' by by rw length_rev length_be_bytes.
    rw rev_involutive. by apply be_Z_put.
  - intros s. pose proof (be_Z_range (rev (take 4 s))) as Hr. rw length_rev length_take in Hr.
    split; [lia|]. eapply Z.lt_le_trans; [apply Hr|]. change (2 ^ 32) with (256 ^ 4). apply Z.pow_le_mono_r; lia.
  - intros s Hs. rw take_take. do 3 f_equal.
Qed.
