(* ===== verification/Framed.v ===== *)
(** * Framed connections

    tokio's [Framed] with a length-delimited codec, as the handshakes and the
    encrypted stream use it: a class of poll functions with what the code
    relies on, awaiting them, and a concrete instance, which refuses frames longer
    than the limit set on its codec, in both directions. *)
From S2P Require Import Prelude.

Class Framed (S : Type) := {
  (** The codec is rebuilt with another [max_frame_length]. *)
  fr_limit : Z → S → S;
  fr_poll_next : S → Poll (option (bytes + io.ErrorKind)) * S;
  fr_poll_ready : S → Poll (unit + io.ErrorKind) * S;
  fr_start_send : bytes → S → (unit + io.ErrorKind) * S;
  fr_poll_flush : S → Poll (unit + io.ErrorKind) * S;
  fr_poll_close : S → Poll (unit + io.ErrorKind) * S;
  (** [get_mut().poll_shutdown]: what is buffered is not flushed. *)
  fr_poll_shutdown : S → Poll (unit + io.ErrorKind) * S;
  (** The frames the peer sent that are not yet delivered, and the frames
      accepted for sending. *)
  fr_incoming : S → list bytes;
  fr_sent : S → list bytes;
}.

Class FramedLaws (S : Type) `{Framed S} : Prop := {
  fr_limit_same m s : fr_incoming (fr_limit m s) = fr_incoming s ∧ fr_sent (fr_limit m s) = fr_sent s;
  fr_next_frame s f s' :
    fr_poll_next s = (Ready (Some (inl f)), s') → fr_incoming s = f :: fr_incoming s' ∧ fr_sent s' = fr_sent s;
  fr_next_other s p s' :
    fr_poll_next s = (p, s') → (∀ f, p ≠ Ready (Some (inl f))) →
    fr_incoming s' = fr_incoming s ∧ fr_sent s' = fr_sent s;
  fr_ready_same s : fr_incoming (fr_poll_ready s).2 = fr_incoming s ∧ fr_sent (fr_poll_ready s).2 = fr_sent s;
  fr_flush_same s : fr_incoming (fr_poll_flush s).2 = fr_incoming s ∧ fr_sent (fr_poll_flush s).2 = fr_sent s;
  fr_send_frame f s s' :
    fr_start_send f s = (inl (), s') → fr_sent s' = fr_sent s ++ [f] ∧ fr_incoming s' = fr_incoming s;
  fr_send_fail f s e s' :
    fr_start_send f s = (inr e, s') → fr_sent s' = fr_sent s ∧ fr_incoming s' = fr_incoming s;
  fr_close_same s : fr_incoming (fr_poll_close s).2 = fr_incoming s ∧ fr_sent (fr_poll_close s).2 = fr_sent s;
  fr_shutdown_same s :
    fr_incoming (fr_poll_shutdown s).2 = fr_incoming s ∧ fr_sent (fr_poll_shutdown s).2 = fr_sent s;
}.

(** ** Awaiting *)

(** Why an [async] function has no result: it still waits (or the fuel of a
    loop is used up), or it failed. *)
Inductive Stop (E : Type) := Running | Failed (e : E).
Arguments Running {E}.
Arguments Failed {E}.

(** The limit of [LengthDelimitedCodec::new()]: 8 MiB. *)
Definition default_max_frame_length : Z := 8 * 1024 * 1024.

(** [.await] on a poll function, within [fuel] polls. *)
Fixpoint await {S E A} (fuel : nat) (poll : S → Poll A * S) : M S (Stop E) A :=
  match fuel with
  | O => throw Running
  | Datatypes.S fuel => λ s,
      match poll s with
      | (Ready a, s) => (Ok a, s)
      | (Pending, s) => await fuel poll s
      end
  end.

Section socket.
Context {S : Type} `{!Framed S}.

Definition io_result {A} (r : A + io.ErrorKind) : M S (Stop io.ErrorKind) A :=
  match r with inl a => mret a | inr k => throw (Failed k) end.

(** [socket.send(frame).await]. *)
Definition frame_send (fuel : nat) (frame : bytes) : M S (Stop io.ErrorKind) unit :=
  r ← await fuel fr_poll_ready;
  io_result r;;
  r ← (λ s, let '(r, s) := fr_start_send frame s in (Ok r, s)) : M S (Stop io.ErrorKind) _;
  io_result r;;
  r ← await fuel fr_poll_flush;
  io_result r.

(** [socket.next().await.transpose()]. *)
Definition frame_next (fuel : nat) : M S (Stop io.ErrorKind) (option bytes) :=
  p ← await fuel fr_poll_next;
  match p with
  | Some r => frame ← io_result r; mret (Some frame)
  | None => mret None
  end.
End socket.

(** ** Facts *)

Section facts.
Context {S : Type} {FR : Framed S} {FL : FramedLaws S}.
Implicit Types s : S.

Lemma io_result_inv {A} (r : A + io.ErrorKind) s a s' : io_result r s = (Ok a, s') → r = inl a ∧ s' = s.
Proof. by destruct r; [intros [= -> ->]|]. Qed.

Lemma await_incoming {E A} fuel (poll : S → Poll A * S) s a s' :
  (∀ s, fr_incoming (poll s).2 = fr_incoming s) → await (E:=E) fuel poll s = (Ok a, s') →
  fr_incoming s' = fr_incoming s.
Proof.
  intros Hp. revert s. induction fuel as [|fuel IH]; intros s; [done|]. cbn [await]. specialize (Hp s).
  destruct (poll s) as [[b|] s1]; simpl in Hp; [by intros [= <- <-]|]. intros H. by rw (IH _ H).
Qed.

Lemma frame_next_no_panic fuel s : (frame_next fuel s).1 ≠ Panic.
Proof.
  rw /frame_next /mbind /M_bind.
  assert (∀ s, (await (E:=io.ErrorKind) fuel fr_poll_next s).1 ≠ Panic) as Ha.
  { induction fuel as [|fuel IH]; intros s1; [done|]. cbn [await]. destruct (fr_poll_next s1) as [[] s2]; [done|apply IH]. }
  specialize (Ha s). by destruct (await fuel fr_poll_next s) as [[[[]|]| |] s1].
Qed.

Lemma frame_send_incoming fuel f s u s' : frame_send fuel f s = (Ok u, s') → fr_incoming s' = fr_incoming s.
Proof.
  rw /frame_send. intros (r1 & s1 & H1 & H)%M_bind_inv. apply M_bind_inv in H as (u1 & s2 & [_ ->]%io_result_inv & H).
  apply M_bind_inv in H as (r2 & s3 & H2 & H). apply M_bind_inv in H as (u2 & s4 & [-> ->]%io_result_inv & H).
  apply M_bind_inv in H as (r3 & s5 & H3 & [_ ->]%io_result_inv).
  apply await_incoming in H1, H3; [|intros; apply fr_flush_same|intros; apply fr_ready_same].
  destruct (fr_start_send f s1) as [r s3'] eqn:Hs. injection H2 as -> ->. destruct u2.
  apply fr_send_frame in Hs as [_ Hs]. congruence.
Qed.

Lemma frame_next_incoming fuel f s s' :
  frame_next fuel s = (Ok (Some f), s') → fr_incoming s = f :: fr_incoming s'.
Proof.
  rw /frame_next. intros (p & s1 & H1 & H)%M_bind_inv.
  assert (p = Some (inl f) ∧ s' = s1) as [-> ->] by (by destruct p as [[]|]; [injection H as -> ->|..]). clear H.
  revert s H1. induction fuel as [|fuel IH]; intros s; [done|]. cbn [await].
  destruct (fr_poll_next s) as [[q|] s2] eqn:Hn.
  - intros [= -> ->]. by apply fr_next_frame in Hn as [? _].
  - apply fr_next_other in Hn as [<- _]; [apply IH|done].
Qed.
End facts.

(** ** A socket that delivers a list of frames and keeps what is sent

    Frames above the limit of the codec are refused, in both directions. *)

Record ListSocket := mkListSocket { ls_max : Z; ls_in : list bytes; ls_out : list bytes }.

Definition within (max : Z) (f : bytes) : bool := length f <=? max.

#[global] Instance ListFramed : Framed ListSocket := {|
  fr_limit m s := mkListSocket m (ls_in s) (ls_out s);
  fr_poll_next s :=
    match ls_in s with
    | f :: fs =>
        if within (ls_max s) f then (Ready (Some (inl f)), mkListSocket (ls_max s) fs (ls_out s))
        else (Ready (Some (inr io.InvalidData)), s)
    | [] => (Pending, s)
    end;
  fr_poll_ready s := (Ready (inl ()), s);
  fr_start_send f s :=
    if within (ls_max s) f then (inl (), mkListSocket (ls_max s) (ls_in s) (ls_out s ++ [f]))
    else (inr io.InvalidInput, s);
  fr_poll_flush s := (Ready (inl ()), s);
  fr_poll_close s := (Ready (inl ()), s);
  fr_poll_shutdown s := (Ready (inl ()), s);
  fr_incoming := ls_in;
  fr_sent := ls_out;
|}.

#[global] Instance ListFramedLaws : FramedLaws ListSocket.
Proof.
  split; try done.
  - intros [m [|f fs] out] f' s'; simpl; [done|]. case_match; [|done]. by intros [= <- <-].
  - intros [m [|f fs] out] p s'; simpl; [by intros [= <- <-]|]. case_match; intros [= <- <-] Hp; [by destruct (Hp f)|done].
  - intros f [] s'. simpl. case_match; [|done]. by intros [= <-].
  - intros f [] e s'. simpl. case_match; [done|]. by intros [= _ <-].
Qed.

(** The two ends of a link, before a codec is configured. *)
Definition wire (fs : list bytes) : ListSocket := mkListSocket default_max_frame_length fs [].

(** Every wait on it takes one poll. *)
Lemma frame_send_list fuel f (s : ListSocket) :
  (0 < fuel)%nat → within (ls_max s) f = true →
  frame_send fuel f s = (Ok (), mkListSocket (ls_max s) (ls_in s) (ls_out s ++ [f])).
Proof.
  intros Hf Hw. destruct fuel; [lia|]. rw /frame_send. erewrite M_bind_Ok by done. erewrite M_bind_Ok by done.
  erewrite M_bind_Ok by (by cbn [fr_start_send ListFramed]; rw Hw). done.
Qed.

Lemma frame_next_list fuel m f fs out :
  (0 < fuel)%nat → within m f = true →
  frame_next fuel (mkListSocket m (f :: fs) out) = (Ok (Some f), mkListSocket m fs out).
Proof.
  intros Hf Hw. destruct fuel; [lia|]. rw /frame_next. erewrite M_bind_Ok; [|cbn; by rw Hw]. done.
Qed.
