(* ===== verification/SecioSupport.v ===== *)
(** * Secio: algorithms and their negotiation

    [secio/src/support.rs], [crypto/cipher.rs] and the algorithm types of
    [dh_compat/mod.rs] and [lib.rs] (native build): how a set of algorithms is
    written as a proposition and how two propositions select an algorithm. *)
From S2P Require Import Prelude Text.

Inductive KeyAgreement := EcdhP256 | EcdhP384 | X25519.
Inductive CipherType := Aes128Gcm | Aes256Gcm | ChaCha20Poly1305.
Inductive Digest := Sha256 | Sha512.

#[global] Instance KeyAgreement_eq_dec : EqDecision KeyAgreement.
Proof. solve_decision. Defined.
#[global] Instance CipherType_eq_dec : EqDecision CipherType.
Proof. solve_decision. Defined.
#[global] Instance Digest_eq_dec : EqDecision Digest.
Proof. solve_decision. Defined.

Definition key_size (t : CipherType) : nat :=
  match t with Aes128Gcm => 16 | Aes256Gcm => 32 | ChaCha20Poly1305 => 2 * 16 end.
Definition iv_size (t : CipherType) : nat :=
  match t with Aes128Gcm => 96 / 8 | Aes256Gcm => 96 / 8 | ChaCha20Poly1305 => 96 / 8 end.
Definition tag_size (t : CipherType) : nat :=
  match t with Aes128Gcm => 16 | Aes256Gcm => 16 | ChaCha20Poly1305 => 16 end.

(** [SecioError]; the payloads of foreign errors are dropped. *)
Inductive SecioError :=
| IoError (k : io.ErrorKind)
| Openssl
| CryptoError
| NotSupportKeyProvider
| EphemeralKeyGenerationFailed
| SecretGenerationFailed
| NoSupportIntersection
| NonceVerificationFailed
| FrameTooShort
| ConnectSelf
| HandshakeParsingFailure
| SignatureVerificationFailed
| InvalidMessage
| InvalidProposition (msg : bytes).

(** ** Names *)

Abbreviation comma := (chr 44).

Definition agreement_name (x : KeyAgreement) : bytes :=
  match x with EcdhP256 => str "P-256" | EcdhP384 => str "P-384" | X25519 => str "X25519" end.
Definition cipher_name (x : CipherType) : bytes :=
  match x with
  | Aes128Gcm => str "AES-128-GCM"
  | Aes256Gcm => str "AES-256-GCM"
  | ChaCha20Poly1305 => str "CHACHA20_POLY1305"
  end.
Definition digest_name (x : Digest) : bytes :=
  match x with Sha256 => str "SHA256" | Sha512 => str "SHA512" end.

Definition DEFAULT_AGREEMENTS_PROPOSITION : bytes := str "P-256,P-384,X25519".
Definition DEFAULT_CIPHERS_PROPOSITION : bytes := str "AES-128-GCM,AES-256-GCM,CHACHA20_POLY1305".
Definition DEFAULT_DIGESTS_PROPOSITION : bytes := str "SHA256,SHA512".

(** ** Propositions: each name and a comma, then [s.pop()] *)

Definition key_agreements_proposition (xs : list KeyAgreement) : bytes :=
  removelast (foldl (λ s x, (s ++ agreement_name x) ++ [comma]) [] xs).
Definition ciphers_proposition (xs : list CipherType) : bytes :=
  removelast (foldl (λ s x, (s ++ cipher_name x) ++ [comma]) [] xs).
Definition digests_proposition (xs : list Digest) : bytes :=
  removelast (foldl (λ s x, (s ++ digest_name x) ++ [comma]) [] xs).

(** ** Selection *)

(** The preferred proposition and the other one. *)
Definition preferred {A} (r : comparison) (ours theirs : A) : A * A :=
  match r with Lt | Eq => (theirs, ours) | Gt => (ours, theirs) end.

(** The loop over the preferred names; [known] is the match on the name. *)
Fixpoint select_loop {A} (known : bytes → option A) (xs : list bytes) (b : bytes) : Res SecioError A :=
  match xs with
  | [] => Err NoSupportIntersection
  | x :: xs =>
      if existsb (λ y, bool_decide (x = y)) (split comma b) then
        match known x with
        | Some a => Ok a
        | None => select_loop known xs b
        end
      else select_loop known xs b
  end.

Definition known_agreement (x : bytes) : option KeyAgreement :=
  if bool_decide (x = str "P-256") then Some EcdhP256
  else if bool_decide (x = str "P-384") then Some EcdhP384
  else if bool_decide (x = str "X25519") then Some X25519 else None.
Definition known_cipher (x : bytes) : option CipherType :=
  if bool_decide (x = str "AES-128-GCM") then Some Aes128Gcm
  else if bool_decide (x = str "AES-256-GCM") then Some Aes256Gcm
  else if bool_decide (x = str "CHACHA20_POLY1305") then Some ChaCha20Poly1305 else None.
Definition known_digest (x : bytes) : option Digest :=
  if bool_decide (x = str "SHA256") then Some Sha256
  else if bool_decide (x = str "SHA512") then Some Sha512 else None.

Definition select_agreement (r : comparison) (ours theirs : bytes) : Res SecioError KeyAgreement :=
  let '(a, b) := preferred r ours theirs in select_loop known_agreement (split comma a) b.
Definition select_cipher (r : comparison) (ours theirs : bytes) : Res SecioError CipherType :=
  let '(a, b) := preferred r ours theirs in select_loop known_cipher (split comma a) b.
Definition select_digest (r : comparison) (ours theirs : bytes) : Res SecioError Digest :=
  let '(a, b) := preferred r ours theirs in select_loop known_digest (split comma a) b.

(** ** Facts *)

Lemma proposition_join {A} (name : A → bytes) xs :
  removelast (foldl (λ s x, (s ++ name x) ++ [comma]) [] xs) = join comma (name <$> xs).
Proof.
  assert (∀ acc, foldl (λ s x, (s ++ name x) ++ [comma]) acc xs =
    acc ++ concat ((λ x, name x ++ [comma]) <$> xs)) as Hf.
  { induction xs as [|x xs IH]; intros acc; simpl; [by rw app_nil_r|]. by rw IH -!app_assoc. }
  rw Hf /=. clear Hf. induction xs as [|x xs IH]; [done|]. cbn [fmap list_fmap concat].
  destruct xs as [|y xs]; [by rw app_nil_r removelast_last|].
  change (join comma (name x :: (name <$> y :: xs))) with (name x ++ comma :: join comma (name <$> y :: xs)).
  rw -IH removelast_app; [by rw -app_assoc|]. intros [[_ H]%app_eq_nil _]%app_eq_nil. done.
Qed.

Section select.
Context {A : Type} `{!EqDecision A} (name : A → bytes) (known : bytes → option A).
Hypothesis known_name : ∀ x, known (name x) = Some x.
Hypothesis name_plain : ∀ x, comma ∉ name x.
Hypothesis known_empty : known [] = None.

(** The first of [xs] that is among [ys]. *)
Definition first_common (xs ys : list A) : Res SecioError A :=
  match filter (λ x, x ∈ ys) xs with
  | x :: _ => Ok x
  | [] => Err NoSupportIntersection
  end.

Lemma name_inj x y : name x = name y → x = y.
Proof. intros H. pose proof (known_name x) as Hx. rw H known_name in Hx. by injection Hx. Qed.

Lemma split_proposition xs :
  split comma (join comma (name <$> xs)) = match xs with [] => [[]] | _ => name <$> xs end.
Proof.
  destruct xs as [|x xs]; [done|]. apply split_join; [done|]. apply Forall_fmap, Forall_forall. eauto.
Qed.

Lemma in_proposition x ys :
  existsb (λ y, bool_decide (name x = y)) (split comma (join comma (name <$> ys))) = bool_decide (x ∈ ys).
Proof.
  apply eq_bool_prop_intro. rw Is_true_true existsb_exists bool_decide_spec. split.
  - intros (y & Hin & Hy). apply bool_decide_eq_true in Hy as <-. rw split_proposition in Hin.
    destruct ys as [|y ys].
    + destruct Hin as [H|[]]. pose proof (known_name x) as Hx. by rw -H known_empty in Hx.
    + apply list_elem_of_In, list_elem_of_fmap in Hin as (z & Hz & Hin). by apply name_inj in Hz as ->.
  - intros Hin. exists (name x). split; [|by apply bool_decide_eq_true].
    rw split_proposition. destruct ys as [|y ys]; [set_solver|]. by apply list_elem_of_In, list_elem_of_fmap_2.
Qed.

Lemma select_loop_first xs ys :
  select_loop known (split comma (join comma (name <$> xs))) (join comma (name <$> ys)) = first_common xs ys.
Proof.
  rw split_proposition. rw /first_common. destruct xs as [|x0 xs0].
  { cbn [select_loop filter list_filter]. by destruct (existsb _ _); rw ?known_empty. }
  generalize (x0 :: xs0) as xs. induction xs as [|x xs IH]; [done|].
  cbn [fmap list_fmap select_loop filter list_filter]. rw in_proposition.
  case_bool_decide as Hin; [by rw decide_True // known_name|]. by rw decide_False.
Qed.
End select.

Lemma known_agreement_name x : known_agreement (agreement_name x) = Some x.
Proof. by destruct x; vm_compute. Qed.
Lemma known_cipher_name x : known_cipher (cipher_name x) = Some x.
Proof. by destruct x; vm_compute. Qed.
Lemma known_digest_name x : known_digest (digest_name x) = Some x.
Proof. by destruct x; vm_compute. Qed.

Lemma agreement_name_plain x : comma ∉ agreement_name x.
Proof. destruct x; apply (bool_decide_unpack _); by vm_compute. Qed.
Lemma cipher_name_plain x : comma ∉ cipher_name x.
Proof. destruct x; apply (bool_decide_unpack _); by vm_compute. Qed.
Lemma digest_name_plain x : comma ∉ digest_name x.
Proof. destruct x; apply (bool_decide_unpack _); by vm_compute. Qed.

(** Negotiation over the propositions of two sets of algorithms selects,
    for key agreements, ciphers and digests alike, the first algorithm of the
    preferred side that the other side has, and fails exactly when there is
    none; the two sides, with opposite orderings, select the same. *)
Theorem negotiation_selects_first_common (r : comparison) (ka ka' : list KeyAgreement)
    (ci ci' : list CipherType) (di di' : list Digest) :
  select_agreement r (key_agreements_proposition ka) (key_agreements_proposition ka') =
    (let '(a, b) := preferred r ka ka' in first_common a b) ∧
  select_cipher r (ciphers_proposition ci) (ciphers_proposition ci') =
    (let '(a, b) := preferred r ci ci' in first_common a b) ∧
  select_digest r (digests_proposition di) (digests_proposition di') =
    (let '(a, b) := preferred r di di' in first_common a b) ∧
  (r ≠ Eq → ∀ ours theirs,
    select_agreement r ours theirs = select_agreement (CompOpp r) theirs ours ∧
    select_cipher r ours theirs = select_cipher (CompOpp r) theirs ours ∧
    select_digest r ours theirs = select_digest (CompOpp r) theirs ours).
Proof.
  rw /key_agreements_proposition /ciphers_proposition /digests_proposition !proposition_join.
  rw /select_agreement /select_cipher /select_digest. split_and!.
  - destruct r; apply (select_loop_first _ _ known_agreement_name agreement_name_plain eq_refl).
  - destruct r; apply (select_loop_first _ _ known_cipher_name cipher_name_plain eq_refl).
  - destruct r; apply (select_loop_first _ _ known_digest_name digest_name_plain eq_refl).
  - by destruct r.
Qed.
