(* ===== verification/SecioCrypto.v ===== *)
(** * Secio: the stream ciphers

    [secio/src/crypto/{mod,openssl_impl,ring_impl,wasm_compat}.rs]: the three
    implementations of [StreamCipher] and the choice between them. The AEAD
    algorithms of the crypto crates are a parameter ([Aead]). *)
From S2P Require Import Prelude Text SecioSupport.

(** The standard AEAD algorithms, with empty additional data. *)
Class Aead := {
  aead_seal : CipherType → bytes → bytes → bytes → option (bytes * bytes);
  aead_open : CipherType → bytes → bytes → bytes → bytes → option bytes;
}.

Class AeadLaws `{Aead} : Prop := {
  (** Keys and nonces of the right size seal messages below 4 GiB. *)
  aead_seal_Some t k n m :
    length k = key_size t → length n = iv_size t → length m < 2 ^ 32 → is_Some (aead_seal t k n m);
  aead_seal_length t k n m ct tag :
    length k = key_size t → length n = iv_size t → aead_seal t k n m = Some (ct, tag) → length ct = length m ∧ length tag = tag_size t;
  aead_open_seal t k n m ct tag :
    aead_seal t k n m = Some (ct, tag) → aead_open t k n ct tag = Some m;
}.

Definition nonce_advance : bytes → bytes :=
  fix go nonce :=
    match nonce with
    | [] => []
    | i :: nonce =>
        if byte_Z i =? u8_max then Z_byte 0 :: go nonce
        else Z_byte (byte_Z i + 1) :: nonce
    end.

Inductive CryptoMode := Encrypt | Decrypt.

(** [input.len().checked_sub(tag_size)]. *)
Definition checked_sub_tag (input : bytes) (t : CipherType) : option nat :=
  if (length input <? tag_size t)%nat then None else Some (length input - tag_size t)%nat.

Section ciphers.
Context `{!Aead}.

(** ** OpenSSL *)

Record OpenSsLCrypt := mkOpenSsL { ossl_type : CipherType; ossl_key : bytes; ossl_iv : bytes }.

Definition OpenSsLCrypt_new (ossl110 : bool) (t : CipherType) (key : bytes) : Res SecioError OpenSsLCrypt :=
  match t with
  | ChaCha20Poly1305 =>
      if ossl110 then Ok (mkOpenSsL t key (replicate (iv_size t) (Z_byte 0))) else Panic
  | _ => Ok (mkOpenSsL t key (replicate (iv_size t) (Z_byte 0)))
  end.

Definition ossl_advance (c : OpenSsLCrypt) : OpenSsLCrypt :=
  mkOpenSsL (ossl_type c) (ossl_key c) (nonce_advance (ossl_iv c)).

Definition ossl_encrypt (input : bytes) : M OpenSsLCrypt SecioError bytes :=
  modify ossl_advance;;
  c ← get;
  match aead_seal (ossl_type c) (ossl_key c) (ossl_iv c) input with
  | Some (output, tag) => mret (output ++ tag)
  | None => throw Openssl
  end.

Definition ossl_decrypt (input : bytes) : M OpenSsLCrypt SecioError bytes :=
  modify ossl_advance;;
  c ← get;
  match checked_sub_tag input (ossl_type c) with
  | None => throw FrameTooShort
  | Some crypt_data_len =>
      match aead_open (ossl_type c) (ossl_key c) (ossl_iv c)
              (take crypt_data_len input) (drop crypt_data_len input) with
      | Some output => mret output
      | None => throw Openssl
      end
  end.

(** ** ring *)

(** [RingAeadCryptoVariant::Seal] for [Encrypt], [Open] for [Decrypt]; the
    key's [RingNonce] is advanced by each operation on it. *)
Record RingAeadCipher := mkRing {
  ring_mode : CryptoMode; ring_type : CipherType; ring_key : bytes; ring_nonce : bytes }.

(** [UnboundKey::new] refuses a key of the wrong size, and is unwrapped. *)
Definition RingAeadCipher_new (t : CipherType) (key : bytes) (mode : CryptoMode) : Res SecioError RingAeadCipher :=
  if bool_decide (length key = key_size t)
  then Ok (mkRing mode t key (replicate (iv_size t) (Z_byte 0))) else Panic.

Definition ring_advance (c : RingAeadCipher) : RingAeadCipher :=
  mkRing (ring_mode c) (ring_type c) (ring_key c) (nonce_advance (ring_nonce c)).

Definition ring_encrypt (input : bytes) : M RingAeadCipher SecioError bytes :=
  mode ← gets ring_mode;
  match mode with
  | Encrypt =>
      modify ring_advance;;
      c ← get;
      match aead_seal (ring_type c) (ring_key c) (ring_nonce c) input with
      | Some (output, tag) => mret (output ++ tag)
      | None => throw CryptoError
      end
  | Decrypt => panic
  end.

(** [open_in_place], then [truncate(output_len)]. *)
Definition ring_open (input : bytes) : M RingAeadCipher SecioError bytes :=
  t ← gets ring_type;
  match checked_sub_tag input t with
  | None => throw FrameTooShort
  | Some output_len =>
      mode ← gets ring_mode;
      match mode with
      | Decrypt =>
          modify ring_advance;;
          c ← get;
          match aead_open t (ring_key c) (ring_nonce c) (take output_len input) (drop output_len input) with
          | Some output => mret (take output_len output)
          | None => throw CryptoError
          end
      | Encrypt => panic
      end
  end.
(** [decrypt] works on a copy, [decrypt_in_place] on the input itself. *)
Definition ring_decrypt : bytes → M RingAeadCipher SecioError bytes := ring_open.
Definition ring_decrypt_in_place : bytes → M RingAeadCipher SecioError bytes := ring_open.

(** ** The chacha20poly1305 crate *)

Record WasmCrypt := mkWasm { wasm_type : CipherType; wasm_key : bytes; wasm_iv : bytes }.

(** [Key::from_slice] asserts the size of the key. *)
Definition WasmCrypt_new (t : CipherType) (key : bytes) : Res SecioError WasmCrypt :=
  match t with
  | ChaCha20Poly1305 =>
      if bool_decide (length key = key_size t)
      then Ok (mkWasm t key (replicate (iv_size t) (Z_byte 0))) else Panic
  | _ => Panic
  end.

Definition wasm_advance (c : WasmCrypt) : WasmCrypt :=
  mkWasm (wasm_type c) (wasm_key c) (nonce_advance (wasm_iv c)).

Definition wasm_encrypt (input : bytes) : M WasmCrypt SecioError bytes :=
  modify wasm_advance;;
  c ← get;
  match aead_seal ChaCha20Poly1305 (wasm_key c) (wasm_iv c) input with
  | Some (output, tag) => mret (output ++ tag)
  | None => throw CryptoError
  end.

Definition wasm_decrypt (input : bytes) : M WasmCrypt SecioError bytes :=
  modify wasm_advance;;
  c ← get;
  match checked_sub_tag input ChaCha20Poly1305 with
  | None => throw CryptoError
  | Some n =>
      match aead_open ChaCha20Poly1305 (wasm_key c) (wasm_iv c) (take n input) (drop n input) with
      | Some output => mret output
      | None => throw CryptoError
      end
  end.
Definition wasm_decrypt_in_place : bytes → M WasmCrypt SecioError bytes := wasm_decrypt.

(** ** [Box<dyn StreamCipher>] *)

Inductive BoxStreamCipher :=
| COpenSsL (c : OpenSsLCrypt)
| CRing (c : RingAeadCipher)
| CWasm (c : WasmCrypt).

(** Runs a method of the boxed cipher. *)
Definition in_box {C A} (mk : C → BoxStreamCipher) (m : M C SecioError A) (c : C)
    : Res SecioError A * BoxStreamCipher :=
  let '(r, c) := m c in (r, mk c).

Definition encrypt (input : bytes) : M BoxStreamCipher SecioError bytes := λ b,
  match b with
  | COpenSsL c => in_box COpenSsL (ossl_encrypt input) c
  | CRing c => in_box CRing (ring_encrypt input) c
  | CWasm c => in_box CWasm (wasm_encrypt input) c
  end.

Definition decrypt (input : bytes) : M BoxStreamCipher SecioError bytes := λ b,
  match b with
  | COpenSsL c => in_box COpenSsL (ossl_decrypt input) c
  | CRing c => in_box CRing (ring_decrypt input) c
  | CWasm c => in_box CWasm (wasm_decrypt input) c
  end.

Definition is_in_place (b : BoxStreamCipher) : bool :=
  match b with COpenSsL _ => false | CRing _ => true | CWasm _ => true end.

(** The result is what the buffer holds afterwards. *)
Definition decrypt_in_place (input : bytes) : M BoxStreamCipher SecioError bytes := λ b,
  match b with
  | COpenSsL _ => (Err (InvalidProposition (str "don't support in place decrypted")), b)
  | CRing c => in_box CRing (ring_decrypt_in_place input) c
  | CWasm c => in_box CWasm (wasm_decrypt_in_place input) c
  end.

(** The build configurations that [new_stream] distinguishes. *)
Inductive Build := UnixOssl110 | UnixOldOssl | NonUnix | WasmTarget.

Definition res_map {A B} (f : A → B) (r : Res SecioError A) : Res SecioError B := r ≫= λ a, Ok (f a).

Definition new_stream (b : Build) (t : CipherType) (key : bytes) (mode : CryptoMode)
    : Res SecioError BoxStreamCipher :=
  match b with
  | UnixOssl110 => res_map COpenSsL (OpenSsLCrypt_new true t key)
  | UnixOldOssl =>
      match t with
      | Aes128Gcm | Aes256Gcm => res_map COpenSsL (OpenSsLCrypt_new false t key)
      | ChaCha20Poly1305 => res_map CRing (RingAeadCipher_new t key mode)
      end
  | NonUnix => res_map CRing (RingAeadCipher_new t key mode)
  | WasmTarget => res_map CWasm (WasmCrypt_new t key)
  end.
End ciphers.

(** ** Facts *)

(** Little-endian value. *)
Definition le_Z (n : bytes) : Z := be_Z (rev n).

Lemma le_Z_cons x n : le_Z (x :: n) = byte_Z x + 256 * le_Z n.
Proof.
  rw /le_Z /be_Z. cbn [rev]. rw foldl_app /=. lia.
Qed.

Lemma nonce_advance_length n : length (nonce_advance n) = length n.
Proof. induction n as [|x n IH]; [done|]. cbn [nonce_advance]. case_match; simpl; [by rw IH|done]. Qed.

Lemma nonce_advance_value n : le_Z (nonce_advance n) = (le_Z n + 1) mod 256 ^ length n.
Proof.
  induction n as [|x n IH]; [done|]. pose proof (byte_Z_range x) as Hx.
  assert (0 ≤ le_Z n < 256 ^ length n) as Hn.
  { rw /le_Z. pose proof (be_Z_range (rev n)) as Hr. by rw length_rev in Hr. }
  cbn [nonce_advance length]. rw pow256_succ (le_Z_cons x). case: Z.eqb_spec => Hm; rw le_Z_cons byte_Z_Z_byte.
  - rw /u8_max in Hm. rw Hm IH. replace (2 ^ 8 - 1 + 256 * le_Z n + 1) with (256 * (le_Z n + 1)) by lia.
    rewrite -> Z.mul_mod_distr_l by lia. rewrite -> Z.mod_0_l by done. lia.
  - rw /u8_max in Hm. rw !Z.mod_small; lia.
Qed.

(** The nonce of the [i]-th message. *)
Definition nonce_at (size : nat) (i : nat) : bytes := Nat.iter i nonce_advance (replicate size (Z_byte 0)).

Lemma nonce_at_length size i : length (nonce_at size i) = size.
Proof. induction i as [|i IH]; [apply length_replicate|]. by rw /nonce_at /= nonce_advance_length. Qed.

Lemma nonce_at_value size i : le_Z (nonce_at size i) = i mod 256 ^ size.
Proof.
  assert (0 < 256 ^ size) as Hp by (apply Z.pow_pos_nonneg; lia).
  induction i as [|i IH].
  - rw Z.mod_0_l; [|lia]. rw /nonce_at /=. induction size as [|size IHs]; [done|].
    cbn [replicate]. rw le_Z_cons IHs; [done|]. apply Z.pow_pos_nonneg; lia.
  - change (nonce_at size (S i)) with (nonce_advance (nonce_at size i)).
    rw nonce_advance_value nonce_at_length IH Zplus_mod_idemp_l. f_equal. lia.
Qed.

Lemma nonce_at_inj (t : CipherType) (i j : nat) :
  i < 2 ^ 96 → j < 2 ^ 96 → nonce_at (iv_size t) i = nonce_at (iv_size t) j → i = j.
Proof.
  intros Hi Hj H. apply (f_equal le_Z) in H. rw !nonce_at_value in H.
  assert (256 ^ iv_size t = 2 ^ 96) as Hs by (by destruct t). rw Hs !Z.mod_small in H; lia.
Qed.

(** The nonces of [n] messages sent by a cipher that has sent [j] before. *)
Definition nonces_from (t : CipherType) (j n : nat) : list bytes :=
  (λ i, nonce_at (iv_size t) (S i)) <$> seq j n.

Lemma nonces_from_NoDup t (n : nat) : n < 2 ^ 96 → NoDup (nonces_from t 0 n).
Proof.
  intros Hn. apply NoDup_fmap_2_strong; [|apply NoDup_seq].
  intros i j Hi%elem_of_seq Hj%elem_of_seq H. apply nonce_at_inj in H; lia.
Qed.

Section facts.
Context {AE : Aead} {AL : AeadLaws}.

(** Algorithm, key and nonce of a cipher, whatever implements it. *)
Definition cipher_view (b : BoxStreamCipher) : CipherType * bytes * bytes :=
  match b with
  | COpenSsL c => (ossl_type c, ossl_key c, ossl_iv c)
  | CRing c => (ring_type c, ring_key c, ring_nonce c)
  | CWasm c => (ChaCha20Poly1305, wasm_key c, wasm_iv c)
  end.

(** ring's keys work in one direction. *)
Definition mode_ok (mode : CryptoMode) (b : BoxStreamCipher) : Prop :=
  match b with CRing c => ring_mode c = mode | _ => True end.

Lemma new_stream_view bu t key mode b :
  new_stream bu t key mode = Ok b →
  cipher_view b = (t, key, replicate (iv_size t) (Z_byte 0)) ∧ mode_ok mode b.
Proof.
  destruct bu, t; rw /= /res_map /RingAeadCipher_new; try case_bool_decide; try done; by intros [= <-].
Qed.

Lemma encrypt_view t k n m ct tag b :
  cipher_view b = (t, k, n) → mode_ok Encrypt b → aead_seal t k (nonce_advance n) m = Some (ct, tag) →
  ∃ b', encrypt m b = (Ok (ct ++ tag), b') ∧ cipher_view b' = (t, k, nonce_advance n) ∧ mode_ok Encrypt b'.
Proof.
  destruct b as [[]|[]|[]]; simpl; intros [= <- <- <-] Hm Hs; subst; rw /encrypt /in_box.
  - rw /ossl_encrypt /mbind /M_bind /= Hs. by eexists.
  - rw /ring_encrypt /mbind /M_bind /= Hs. by eexists.
  - rw /wasm_encrypt /mbind /M_bind /= Hs. by eexists.
Qed.

Lemma checked_sub_app (ct tag : bytes) t : length tag = tag_size t → checked_sub_tag (ct ++ tag) t = Some (length ct).
Proof.
  intros Ht. rw /checked_sub_tag length_app Ht. rewrite -> (proj2 (Nat.ltb_ge _ _)) by lia. f_equal. lia.
Qed.

Lemma decrypt_view t k n m ct tag b :
  length k = key_size t → length n = iv_size t → cipher_view b = (t, k, n) → mode_ok Decrypt b → aead_seal t k (nonce_advance n) m = Some (ct, tag) →
  ∃ b', decrypt (ct ++ tag) b = (Ok m, b') ∧ (is_in_place b = true → decrypt_in_place (ct ++ tag) b = (Ok m, b')) ∧
    cipher_view b' = (t, k, nonce_advance n) ∧ mode_ok Decrypt b' ∧ is_in_place b' = is_in_place b.
Proof.
  intros Hk Hn Hv Hm Hs.
  destruct (aead_seal_length _ _ _ _ _ _ Hk (eq_trans (nonce_advance_length n) Hn) Hs) as [Hct Htag].
  pose proof (aead_open_seal _ _ _ _ _ _ Hs) as Ho. pose proof (checked_sub_app ct tag t Htag) as Hc.
  destruct b as [[]|[]|[]]; simpl in Hv, Hm; injection Hv as <- <- <-; subst; rw /decrypt /decrypt_in_place /in_box.
  - rw /ossl_decrypt /mbind /M_bind /modify /get /= Hc take_app_length drop_app_length Ho. by eexists.
  - rw /ring_decrypt /ring_decrypt_in_place /ring_open /mbind /M_bind /gets /modify /get /= Hc /=.
    rw take_app_length drop_app_length Ho take_ge; [by eexists|lia].
  - rw /wasm_decrypt_in_place /wasm_decrypt /mbind /M_bind /modify /get /= Hc take_app_length drop_app_length Ho.
    by eexists.
Qed.

Lemma mapM_cons_M {S E A B} (f : A → M S E B) x xs s b s1 bs s2 :
  f x s = (Ok b, s1) → mapM f xs s1 = (Ok bs, s2) → mapM f (x :: xs) s = (Ok (b :: bs), s2).
Proof. intros H1 H2. rw /= /mbind /M_bind H1 H2. done. Qed.

Lemma interoperate_view t k ms n enc dec :
  length k = key_size t → length n = iv_size t → Forall (λ m, length m < 2 ^ 32) ms →
  cipher_view enc = (t, k, n) → mode_ok Encrypt enc → cipher_view dec = (t, k, n) → mode_ok Decrypt dec →
  ∃ fs enc' dec', mapM encrypt ms enc = (Ok fs, enc') ∧ mapM decrypt fs dec = (Ok ms, dec') ∧
    (is_in_place dec = true → mapM decrypt_in_place fs dec = (Ok ms, dec')) ∧
    Forall2 (λ m f, length f = (length m + tag_size t)%nat) ms fs.
Proof.
  intros Hk. revert n enc dec. induction ms as [|m ms IH]; intros n enc dec Hn Hms Hev Hem Hdv Hdm.
  { by exists [], enc, dec. }
  apply Forall_cons in Hms as [Hm Hms].
  destruct (aead_seal_Some t k (nonce_advance n) m) as [[ct tag] Hs]; [done|by rw nonce_advance_length|done|].
  destruct (aead_seal_length _ _ _ _ _ _ Hk (eq_trans (nonce_advance_length n) Hn) Hs) as [Hct Htag].
  destruct (encrypt_view _ _ _ _ _ _ _ Hev Hem Hs) as (enc1 & He & Hev1 & Hem1).
  destruct (decrypt_view _ _ _ _ _ _ _ Hk Hn Hdv Hdm Hs) as (dec1 & Hd & Hdp & Hdv1 & Hdm1 & Hip).
  destruct (IH (nonce_advance n) enc1 dec1) as (fs & enc' & dec' & H1 & H2 & H3 & H4); try done.
  { by rw nonce_advance_length. }
  exists ((ct ++ tag) :: fs), enc', dec'. split_and!.
  - by eapply mapM_cons_M.
  - by eapply mapM_cons_M.
  - intros Hi. eapply mapM_cons_M; [by apply Hdp|]. apply H3. by rw Hip.
  - constructor; [rw length_app; lia|done].
Qed.

(** Any two builds understand each other: with the same key, what one
    side's cipher encrypts message by message the other side's cipher decrypts,
    in a copy or in place, to the same messages; every frame is one tag longer
    than its message. *)
Theorem ciphers_interoperate (b1 b2 : Build) (t : CipherType) (key : bytes) (ms : list bytes) enc dec :
  length key = key_size t → Forall (λ m, length m < 2 ^ 32) ms →
  new_stream b1 t key Encrypt = Ok enc → new_stream b2 t key Decrypt = Ok dec →
  ∃ fs enc' dec', mapM encrypt ms enc = (Ok fs, enc') ∧ mapM decrypt fs dec = (Ok ms, dec') ∧
    (is_in_place dec = true → mapM decrypt_in_place fs dec = (Ok ms, dec')) ∧
    Forall2 (λ m f, length f = (length m + tag_size t)%nat) ms fs.
Proof.
  intros Hk Hms [Hev Hem]%new_stream_view [Hdv Hdm]%new_stream_view.
  eapply interoperate_view; [done| |done..]. apply length_replicate.
Qed.
Lemma encrypts_view t k ms j b :
  length k = key_size t → Forall (λ m, length m < 2 ^ 32) ms →
  cipher_view b = (t, k, nonce_at (iv_size t) j) → mode_ok Encrypt b →
  ∃ fs b', mapM encrypt ms b = (Ok fs, b') ∧
    Forall3 (λ n m f, ∃ ct tag, aead_seal t k n m = Some (ct, tag) ∧ f = ct ++ tag)
      (nonces_from t j (length ms)) ms fs.
Proof.
  intros Hk. revert j b. induction ms as [|m ms IH]; intros j b Hms Hv Hm.
  { exists [], b. split; [done|constructor]. }
  apply Forall_cons in Hms as [Hl Hms].
  destruct (aead_seal_Some t k (nonce_at (iv_size t) (S j)) m) as [[ct tag] Hs]; [done|apply nonce_at_length|done|].
  destruct (encrypt_view _ _ _ _ _ _ _ Hv Hm Hs) as (b1 & He & Hv1 & Hm1).
  destruct (IH (S j) b1) as (fs & b' & H1 & H2); [done..|].
  exists ((ct ++ tag) :: fs), b'. split; [by eapply mapM_cons_M|].
  constructor; [by exists ct, tag|done].
Qed.

(** C39. One cipher never uses a nonce twice: [n] messages encrypted one after
    the other by a cipher just created, of any build, with [n] below [2^96],
    each shorter than [2^32], all succeed; the [i]-th frame is the sealing of
    the [i]-th message under the [i]-th advance of the zero nonce, and these
    nonces are pairwise different. *)
Theorem nonces_never_repeat (bu : Build) (t : CipherType) (key : bytes) (ms : list bytes) enc :
  length key = key_size t → Forall (λ m, length m < 2 ^ 32) ms → length ms < 2 ^ 96 →
  new_stream bu t key Encrypt = Ok enc →
  ∃ fs enc', mapM encrypt ms enc = (Ok fs, enc') ∧
    NoDup (nonces_from t 0 (length ms)) ∧
    Forall3 (λ n m f, ∃ ct tag, aead_seal t key n m = Some (ct, tag) ∧ f = ct ++ tag)
      (nonces_from t 0 (length ms)) ms fs.
Proof.
  intros Hk Hms Hn [Hv Hm]%new_stream_view.
  destruct (encrypts_view t key ms 0 enc) as (fs & enc' & He & Hf); [done..|].
  exists fs, enc'. split_and!; [done|by apply nonces_from_NoDup|done].
Qed.
End facts.

(** ** A concrete AEAD: the text in clear, tagged with its nonce *)

#[global] Instance DemoAead : Aead := {|
  aead_seal t k n m := Some (m, take 16 (n ++ k));
  aead_open t k n ct tag := if bool_decide (tag = take 16 (n ++ k)) then Some ct else None;
|}.

#[global] Instance DemoAeadLaws : AeadLaws.
Proof.
  split; cbn [aead_seal aead_open DemoAead].
  - by eexists.
  - intros t k n m ct tag Hk Hn [= <- <-]. split; [done|]. rw length_take length_app Hk Hn. by destruct t.
  - intros t k n m ct tag [= <- <-]. by rw bool_decide_eq_true_2.
Qed.

Definition demo_key : bytes := replicate 32 (Z_byte 5).

Lemma ciphers_interoperate_witness :
  ∃ enc dec, new_stream UnixOssl110 ChaCha20Poly1305 demo_key Encrypt = Ok enc ∧
    new_stream WasmTarget ChaCha20Poly1305 demo_key Decrypt = Ok dec ∧
    ∃ fs enc' dec', mapM encrypt [str "ping"; str "pong"] enc = (Ok fs, enc') ∧
      mapM decrypt fs dec = (Ok [str "ping"; str "pong"], dec') ∧
      (is_in_place dec = true → mapM decrypt_in_place fs dec = (Ok [str "ping"; str "pong"], dec')) ∧
      Forall2 (λ m f, length f = (length m + tag_size ChaCha20Poly1305)%nat) [str "ping"; str "pong"] fs.
Proof.
  eexists _, _. split; [reflexivity|]. split; [reflexivity|].
  apply (ciphers_interoperate UnixOssl110 WasmTarget ChaCha20Poly1305 demo_key);
    [reflexivity|repeat constructor|reflexivity|reflexivity].
Defined.

Lemma nonces_never_repeat_witness :
  ∃ enc, new_stream NonUnix Aes128Gcm (replicate 16 (Z_byte 5)) Encrypt = Ok enc ∧
  ∃ fs enc', mapM encrypt [str "ping"; str "ping"] enc = (Ok fs, enc') ∧
    NoDup (nonces_from Aes128Gcm 0 2) ∧
    Forall3 (λ n m f, ∃ ct tag, aead_seal Aes128Gcm (replicate 16 (Z_byte 5)) n m = Some (ct, tag) ∧ f = ct ++ tag)
      (nonces_from Aes128Gcm 0 2) [str "ping"; str "ping"] fs.
Proof.
  eexists. split; [reflexivity|].
  apply (nonces_never_repeat NonUnix Aes128Gcm (replicate 16 (Z_byte 5)) [str "ping"; str "ping"]);
    [reflexivity|repeat constructor|reflexivity|reflexivity].
Defined.
