(* ===== verification/SecureStream.v ===== *)
(** * Secio: the encrypted stream

    [secio/src/codec/secure_stream.rs]: [SecureStream] over a framed socket
    and two ciphers. The framed socket (tokio's [Framed] with the
    length-delimited codec) is a parameter ([Framed]); wakers are not modelled,
    since the stream keeps none. The theorems show that what one end writes
    the other end reads, in order and without loss. *)
From S2P Require Import Prelude Text Framed SecioSupport SecioCrypto.

(** [RecvBuf]: a vector, or the frame decrypted in place. *)
Inductive RecvBuf := RVec (b : bytes) | RByte (b : bytes).

Definition buf_bytes (r : RecvBuf) : bytes := match r with RVec b => b | RByte b => b end.
Definition buf_len (r : RecvBuf) : nat := length (buf_bytes r).
Definition buf_is_empty (r : RecvBuf) : bool := bool_decide (buf_len r = 0%nat).

(** [drain_to]: what goes to the reader and what stays; a size beyond the
    buffer panics. *)
Definition drain_to {E} (r : RecvBuf) (size : nat) : Res E (bytes * RecvBuf) :=
  if (buf_len r <? size)%nat then Panic
  else match r with
  | RVec b => Ok (take size b, RVec (drop size b))
  | RByte b => Ok (take size b, RByte (drop size b))
  end.

Record SecureStream (S : Type) := mkSecure {
  socket : S;
  decode_cipher : BoxStreamCipher;
  encode_cipher : BoxStreamCipher;
  nonce : bytes;
  recv_buf : RecvBuf;
}.
Arguments mkSecure {S}.
Arguments socket {S}.
Arguments decode_cipher {S}.
Arguments encode_cipher {S}.
Arguments nonce {S}.
Arguments recv_buf {S}.

(** [From<SecioError> for io::Error]. *)
Definition to_io (e : SecioError) : io.ErrorKind :=
  match e with IoError k => k | _ => io.BrokenPipe end.

Section stream.
Context {S : Type} `{!Framed S} `{!Aead}.
Abbreviation St := (SecureStream S).

Definition secure_new (socket : S) (decode_cipher encode_cipher : BoxStreamCipher) (nonce : bytes) : St :=
  let recv_buf := if is_in_place decode_cipher then RByte [] else RVec [] in
  mkSecure socket decode_cipher encode_cipher nonce recv_buf.

Definition set_socket (s : S) (st : St) : St :=
  mkSecure s (decode_cipher st) (encode_cipher st) (nonce st) (recv_buf st).
Definition set_decode (c : BoxStreamCipher) (st : St) : St :=
  mkSecure (socket st) c (encode_cipher st) (nonce st) (recv_buf st).
Definition set_encode (c : BoxStreamCipher) (st : St) : St :=
  mkSecure (socket st) (decode_cipher st) c (nonce st) (recv_buf st).
Definition set_nonce (n : bytes) (st : St) : St :=
  mkSecure (socket st) (decode_cipher st) (encode_cipher st) n (recv_buf st).
Definition set_recv_buf (b : RecvBuf) (st : St) : St :=
  mkSecure (socket st) (decode_cipher st) (encode_cipher st) (nonce st) b.

(** An operation of the socket. *)
Definition on_socket {E A} (f : S → A * S) : M St E A := λ st,
  let '(a, s) := f (socket st) in (Ok a, set_socket s st).

(** An operation of the decoding cipher. *)
Definition on_decode {A} (m : M BoxStreamCipher SecioError A) : M St SecioError A := λ st,
  let '(r, c) := m (decode_cipher st) in (r, set_decode c st).

Definition decode_buffer (frame : bytes) : M St SecioError RecvBuf :=
  c ← gets decode_cipher;
  if is_in_place c then
    frame ← on_decode (decrypt_in_place frame);
    mret (RByte frame)
  else
    v ← on_decode (decrypt frame);
    mret (RVec v).

(** [drain] into a buffer with room for [remaining] bytes: what it copied. *)
Definition drain_ {E} (remaining : nat) : M St E bytes :=
  b ← gets recv_buf;
  if buf_is_empty b then mret []
  else
    let n := Nat.min remaining (buf_len b) in
    r ← lift_res (drain_to b n);
    modify (set_recv_buf (r.2));;
    mret (r.1).

(** [encode_buffer] unwraps the cipher's result. *)
Definition encode_buffer {E} (buf : bytes) : M St E bytes := λ st,
  match encrypt buf (encode_cipher st) with
  | (Ok out, c) => (Ok out, set_encode c st)
  | (_, c) => (Panic, set_encode c st)
  end.

(** [poll_read] into a buffer with room for [remaining] bytes: the bytes it
    put there. *)
Definition poll_read (remaining : nat) : M St io.ErrorKind (Poll bytes) :=
  copied ← drain_ remaining;
  if bool_decide (0 < length copied)%nat then mret (Ready copied)
  else
    p ← on_socket fr_poll_next;
    match p with
    | Ready (Some (inl t)) =>
        decoded ← map_err to_io (decode_buffer t);
        let n := buf_len decoded in
        if bool_decide (n ≤ remaining)%nat then mret (Ready (buf_bytes decoded))
        else
          modify (set_recv_buf decoded);;
          copied ← drain_ remaining;
          mret (Ready copied)
    | Ready (Some (inr err)) => throw err
    | Ready None => throw io.BrokenPipe
    | Pending => mret Pending
    end.

(** [poll_write]; [poll_flush_unpin(cx)?] only reports errors. *)
Definition poll_write (buf : bytes) : M St io.ErrorKind (Poll nat) :=
  p ← on_socket fr_poll_ready;
  match p with
  | Ready (inl _) =>
      frame ← encode_buffer buf;
      r ← on_socket (fr_start_send frame);
      match r with
      | inr e => throw e
      | inl _ =>
          q ← on_socket fr_poll_flush;
          match q with
          | Ready (inr e) => throw e
          | _ => mret (Ready (length buf))
          end
      end
  | Pending => mret Pending
  | Ready (inr e) => throw e
  end.

(** The result of a socket operation that the stream forwards. *)
Definition forward (p : Poll (unit + io.ErrorKind)) : M St io.ErrorKind (Poll unit) :=
  match p with
  | Ready (inl _) => mret (Ready ())
  | Ready (inr e) => throw e
  | Pending => mret Pending
  end.
Definition poll_flush : M St io.ErrorKind (Poll unit) := p ← on_socket fr_poll_flush; forward p.
Definition poll_shutdown : M St io.ErrorKind (Poll unit) := p ← on_socket fr_poll_close; forward p.

(** tokio's [read_exact] of [n] bytes within [fuel] polls; [None] when it is
    still waiting. *)
Fixpoint read_exact (fuel n : nat) : M St io.ErrorKind (option bytes) :=
  match n with
  | O => mret (Some [])
  | _ =>
      match fuel with
      | O => mret None
      | Datatypes.S fuel =>
          p ← poll_read n;
          match p with
          | Pending => read_exact fuel n
          | Ready [] => throw io.UnexpectedEof
          | Ready got =>
              rest ← read_exact fuel (n - length got);
              mret ((app got) <$> rest)
          end
      end
  end.

(** [verify_nonce] within [fuel] polls of the stream. *)
Definition verify_nonce (fuel : nat) : M St SecioError (option unit) :=
  mine ← gets nonce;
  if bool_decide (mine = []) then mret (Some ())
  else
    got ← map_err IoError (read_exact fuel (length mine));
    match got with
    | None => mret None
    | Some nonce =>
        let n := Nat.min (length nonce) (length mine) in
        if bool_decide (take n nonce = take n mine) then
          modify (set_nonce (drop n mine));;
          mret (Some ())
        else throw NonceVerificationFailed
    end.
End stream.

(** ** Facts *)

Section facts.
Context {S : Type} {FR : Framed S} {FL : FramedLaws S} {AE : Aead} {AL : AeadLaws}.
Abbreviation St := (SecureStream S).

(** The frames [fs] carry the messages [ms], sealed from nonce [n] on. *)
Inductive sealed (t : CipherType) (k : bytes) : bytes → list bytes → list bytes → bytes → Prop :=
| sealed_nil n : sealed t k n [] [] n
| sealed_cons n m ct tag ms fs n' :
    aead_seal t k (nonce_advance n) m = Some (ct, tag) → sealed t k (nonce_advance n) ms fs n' →
    sealed t k n (m :: ms) ((ct ++ tag) :: fs) n'.

Lemma sealed_snoc t k n ms fs n' m ct tag :
  sealed t k n ms fs n' → aead_seal t k (nonce_advance n') m = Some (ct, tag) →
  sealed t k n (ms ++ [m]) (fs ++ [ct ++ tag]) (nonce_advance n').
Proof.
  induction 1 as [|n m0 ct0 tag0 ms fs n' H0 _ IH]; intros Hs; simpl.
  - econstructor; [done|constructor].
  - econstructor; [done|by apply IH].
Qed.

(** The ciphers are ready and the socket will deliver the messages [ms]. *)
Definition reading (t : CipherType) (k : bytes) (ms : list bytes) (st : St) : Prop :=
  length k = key_size t ∧
  ∃ n n', length n = iv_size t ∧ cipher_view (decode_cipher st) = (t, k, n) ∧
    mode_ok Decrypt (decode_cipher st) ∧ sealed t k n ms (fr_incoming (socket st)) n'.

(** What the reader has still to get. *)
Definition unread (ms : list bytes) (st : St) : bytes := buf_bytes (recv_buf st) ++ concat ms.

Lemma drain_spec {E} r (st : St) :
  ∃ b, drain_ (E:=E) r st = (Ok (take r (buf_bytes (recv_buf st))), set_recv_buf b st) ∧
       buf_bytes b = drop r (buf_bytes (recv_buf st)).
Proof.
  destruct st as [so dc ec nc rb]. rw /drain_ /mbind /M_bind /gets /=. rw /buf_is_empty /buf_len.
  case_bool_decide as Hb.
  - exists rb. apply nil_length_inv in Hb. rw Hb take_nil drop_nil. done.
  - rw /drain_to /lift_res /buf_len. rewrite -> (proj2 (Nat.ltb_ge _ _)) by lia.
    assert (∀ b : bytes, take (r `min` length b) b = take r b ∧ drop (r `min` length b) b = drop r b) as Hm.
    { intros b. destruct (decide (r ≤ length b)%nat).
      - by rewrite -> Nat.min_l by lia.
      - rewrite -> Nat.min_r by lia. rw firstn_all drop_all take_ge ?drop_ge //; lia. }
    destruct rb as [b|b]; simpl in *; destruct (Hm b) as [-> ->]; by eexists.
Qed.

Lemma decode_buffer_spec t k n m ct tag (st : St) :
  length k = key_size t → length n = iv_size t → cipher_view (decode_cipher st) = (t, k, n) →
  mode_ok Decrypt (decode_cipher st) → aead_seal t k (nonce_advance n) m = Some (ct, tag) →
  ∃ b c, decode_buffer (ct ++ tag) st = (Ok b, set_decode c st) ∧ buf_bytes b = m ∧
    cipher_view c = (t, k, nonce_advance n) ∧ mode_ok Decrypt c.
Proof.
  intros Hk Hn Hv Hm Hs. destruct (decrypt_view _ _ _ _ _ _ _ Hk Hn Hv Hm Hs) as (c & Hd & Hp & Hcv & Hcm & _).
  rw /decode_buffer /mbind /M_bind /gets. destruct (is_in_place (decode_cipher st)) eqn:Hi.
  - rw /on_decode Hp //. exists (RByte m), c. done.
  - rw /on_decode Hd. exists (RVec m), c. done.
Qed.

(** One read with room for at least a byte. *)
Lemma poll_read_step t k ms r (st : St) :
  reading t k ms st → (0 < r)%nat →
  match poll_read r st with
  | (Ok (Ready d), st') =>
      ∃ ms', reading t k ms' st' ∧ d ++ unread ms' st' = unread ms st ∧
             ms' `suffix_of` ms ∧ (d = [] → ms = [] :: ms')
  | (Ok Pending, st') => reading t k ms st' ∧ unread ms st' = unread ms st ∧
      (fr_poll_next (socket st)).1 = Pending ∧ buf_bytes (recv_buf st) = []
  | (Err e, _) => buf_bytes (recv_buf st) = [] ∧
      ((fr_poll_next (socket st)).1 = Ready (Some (inr e)) ∨
       (fr_poll_next (socket st)).1 = Ready None ∧ e = io.BrokenPipe)
  | (Panic, _) => False
  end.
Proof.
  intros (Hk & n & n' & Hn & Hv & Hm & Hs) Hr.
  rw /poll_read {1}/mbind {1}/M_bind. destruct (drain_spec (E:=io.ErrorKind) r st) as (b & -> & Hb).
  case: (bool_decide_reflect (0 < length (take r (buf_bytes (recv_buf st))))%nat) => Hc.
  { exists ms. split_and!; [by split; [|eexists n, n']|by rw /unread /= Hb app_assoc take_drop|done|].
    intros H. rw H /= in Hc. lia. }
  rw length_take in Hc. assert (buf_bytes (recv_buf st) = []) as He by (apply nil_length_inv; lia).
  rw He drop_nil in Hb. rw {1}/mbind {1}/M_bind /on_socket /=. destruct (fr_poll_next (socket st)) as [p so] eqn:Hp.
  destruct p as [[[f|e]|]|].
  - destruct (fr_next_frame _ _ _ Hp) as [Hin _]. rw Hin in Hs.
    inversion Hs as [|? m ct tag ms1 fs1 ? Hseal Hs1]; subst; clear Hs.
    rw {1}/mbind {1}/M_bind /map_err.
    destruct (decode_buffer_spec t k n m ct tag (set_socket so (set_recv_buf b st)) Hk Hn Hv Hm Hseal)
      as (d & c & -> & Hd & Hcv & Hcm).
    assert (∀ rb, reading t k ms1 (set_recv_buf rb (set_decode c (set_socket so (set_recv_buf b st))))) as Hrd.
    { intros rb. split; [done|]. exists (nonce_advance n), n'. by rw nonce_advance_length. }
    case_bool_decide as Hle.
    + exists ms1. split_and!; [apply (Hrd b)|by rw /unread /= Hb He Hd|by apply suffix_cons_r|].
      rw Hd. by intros ->.
    + rw {1}/mbind {1}/M_bind /modify.
      rw {1}/mbind {1}/M_bind. destruct (drain_spec (E:=io.ErrorKind) r
        (set_recv_buf d (set_decode c (set_socket so (set_recv_buf b st))))) as (b' & -> & Hb').
      exists ms1. split_and!; [apply (Hrd b')| |by apply suffix_cons_r|].
      * rw /unread /= Hb' /= Hd He app_assoc take_drop. done.
      * simpl. intros H. rw /buf_len Hd in Hle. simpl in H. rw Hd in H. apply (f_equal length) in H.
        rw length_take /= in H. lia.
  - split; [done|]. left. done.
  - split; [done|]. by right.
  - destruct (fr_next_other _ _ _ Hp) as [Hin _]; [done|]. split_and!; [|by rw /unread /= Hb He|done..].
    split; [done|]. exists n, n'. by rw /= Hin.
Qed.

(** The bytes of a sequence of reads. *)
Definition got (rs : list (Poll bytes)) : bytes :=
  concat ((λ p, match p with Ready d => d | Pending => [] end) <$> rs).

Lemma mapM_cons_inv {E A B} (f : A → M St E B) x xs st r st' :
  mapM f (x :: xs) st = (Ok r, st') →
  ∃ b st1 bs, f x st = (Ok b, st1) ∧ mapM f xs st1 = (Ok bs, st') ∧ r = b :: bs.
Proof.
  rw /= /mbind /M_bind. destruct (f x st) as [[b|e|] st1]; [|done..].
  destruct (mapM f xs st1) as [[bs|e|] st2] eqn:E2; [|done..].
  intros [= <- <-]. by exists b, st1, bs.
Qed.

Lemma reads_deliver t k caps ms (st st' : St) rs :
  reading t k ms st → Forall (λ r, 0 < r)%nat caps → mapM poll_read caps st = (Ok rs, st') →
  ∃ ms', reading t k ms' st' ∧ got rs ++ unread ms' st' = unread ms st.
Proof.
  revert ms st rs. induction caps as [|r caps IH]; intros ms st rs Hrd Hc.
  { intros [= <- <-]. by exists ms. }
  apply Forall_cons in Hc as [Hr Hc]. intros (p & st1 & ps & H1 & H2 & ->)%mapM_cons_inv.
  pose proof (poll_read_step t k ms r st Hrd Hr) as Hstep. rw H1 in Hstep. destruct p as [d|].
  - destruct Hstep as (ms1 & Hrd1 & Hu & _). destruct (IH ms1 st1 ps Hrd1 Hc H2) as (ms' & Hrd' & Hu').
    exists ms'. split; [done|]. by rw /got /= -app_assoc -/(got ps) Hu' Hu.
  - destruct Hstep as (Hrd1 & Hu & _). destruct (IH ms st1 ps Hrd1 Hc H2) as (ms' & Hrd' & Hu').
    exists ms'. split; [done|]. by rw /got /= -/(got ps) Hu' Hu.
Qed.

(** ** Writing *)

Definition writing (t : CipherType) (k n : bytes) (st : St) : Prop :=
  length k = key_size t ∧ length n = iv_size t ∧ cipher_view (encode_cipher st) = (t, k, n) ∧
  mode_ok Encrypt (encode_cipher st).

Lemma poll_write_step t k n buf (st st' : St) p :
  writing t k n st → length buf < 2 ^ 32 → poll_write buf st = (p, st') →
  match p with
  | Ok (Ready len) => len = length buf ∧ ∃ ct tag, aead_seal t k (nonce_advance n) buf = Some (ct, tag) ∧
      fr_sent (socket st') = fr_sent (socket st) ++ [ct ++ tag] ∧ writing t k (nonce_advance n) st'
  | Ok Pending => fr_sent (socket st') = fr_sent (socket st) ∧ writing t k n st'
  | Err _ => True
  | Panic => False
  end.
Proof.
  intros (Hk & Hn & Hv & Hm) Hb. rw /poll_write {1}/mbind {1}/M_bind {1}/on_socket.
  destruct (fr_ready_same (socket st)) as [_ Hsr]. destruct (fr_poll_ready (socket st)) as [q so] eqn:Hq.
  destruct q as [[[]|e]|]; [|intros [= <- <-]; done|intros [= <- <-]; split; [done|by split_and!]].
  destruct (aead_seal_Some t k (nonce_advance n) buf) as [[ct tag] Hs]; [done|by rw nonce_advance_length|done|].
  destruct (encrypt_view _ _ _ _ _ _ _ Hv Hm Hs) as (c & He & Hcv & Hcm).
  rw {1}/mbind {1}/M_bind {1}/encode_buffer /= He. rw {1}/mbind {1}/M_bind {1}/on_socket /=.
  destruct (fr_start_send (ct ++ tag) so) as [[[]|e] so1] eqn:Hsend; [|intros [= <- <-]; done].
  destruct (fr_send_frame _ _ _ Hsend) as [Hsent _].
  rw {1}/mbind {1}/M_bind {1}/on_socket /=. destruct (fr_flush_same so1) as [_ Hsf].
  destruct (fr_poll_flush so1) as [q so2] eqn:Hq2. simpl in *.
  assert (∃ ct tag, aead_seal t k (nonce_advance n) buf = Some (ct, tag) ∧
    fr_sent so2 = fr_sent (socket st) ++ [ct ++ tag] ∧
    writing t k (nonce_advance n) (set_socket so2 (set_socket so1 (set_encode c (set_socket so st))))) as Hfin.
  { exists ct, tag. split_and!; [done|by rw Hsf Hsent Hsr|]. rw /writing nonce_advance_length. done. }
  destruct q as [[[]|e]|].
  - by intros [= <- <-].
  - by intros [= <- <-].
  - by intros [= <- <-].
Qed.

(** The buffers that were accepted. *)
Definition accepted (ws : list bytes) (ps : list (Poll nat)) : list bytes :=
  (zip ws ps) ≫= λ x, match x.2 with Ready _ => [x.1] | Pending => [] end.

Lemma writes_sealed t k n ws (st st' : St) ps :
  writing t k n st → Forall (λ w, length w < 2 ^ 32) ws → mapM poll_write ws st = (Ok ps, st') →
  ∃ fs n', fr_sent (socket st') = fr_sent (socket st) ++ fs ∧ sealed t k n (accepted ws ps) fs n'.
Proof.
  revert n st ps. induction ws as [|w ws IH]; intros n st ps Hw Hl.
  { intros [= <- <-]. exists [], n. split; [by rw app_nil_r|constructor]. }
  apply Forall_cons in Hl as [Hlw Hl]. intros (p & st1 & ps1 & H1 & H2 & ->)%mapM_cons_inv.
  pose proof (poll_write_step _ _ _ _ _ _ _ Hw Hlw H1) as Hstep. destruct p as [len|].
  - destruct Hstep as (_ & ct & tag & Hs & Hsent & Hw1).
    destruct (IH _ _ _ Hw1 Hl H2) as (fs & n' & Hf & Hse). exists ((ct ++ tag) :: fs), n'.
    split; [by rw Hf Hsent -app_assoc|]. by econstructor.
  - destruct Hstep as (Hsent & Hw1). destruct (IH _ _ _ Hw1 Hl H2) as (fs & n' & Hf & Hse).
    exists fs, n'. by rw Hf Hsent.
Qed.

(** C8. End to end: a writer and a reader hold the two ends of one direction
    (the same key and nonce), and the reader's socket delivers the frames that
    the writer's socket accepted. Then any sequence of reads with room for at
    least a byte yields, in order and without loss, a prefix of the bytes of
    the accepted writes; what is missing is in the receive buffer and in the
    messages [ms] still to be delivered. *)
Theorem secure_stream_end_to_end (t : CipherType) (k n : bytes) (w w' r r' : St)
    (ws : list bytes) (ps : list (Poll nat)) (caps : list nat) (rs : list (Poll bytes)) :
  writing t k n w → cipher_view (decode_cipher r) = (t, k, n) → mode_ok Decrypt (decode_cipher r) →
  buf_bytes (recv_buf r) = [] → Forall (λ b, length b < 2 ^ 32) ws → Forall (λ c, 0 < c)%nat caps →
  mapM poll_write ws w = (Ok ps, w') →
  fr_sent (socket w') = fr_sent (socket w) ++ fr_incoming (socket r) →
  mapM poll_read caps r = (Ok rs, r') →
  ∃ ms, concat (accepted ws ps) = got rs ++ buf_bytes (recv_buf r') ++ concat ms ∧
        length ms = length (fr_incoming (socket r')).
Proof.
  intros Hw Hv Hm Hb Hws Hcaps H1 Hin H2. destruct (writes_sealed _ _ _ _ _ _ _ Hw Hws H1) as (fs & n' & Hf & Hse).
  rw Hin in Hf. apply app_inv_head in Hf. destruct Hw as (Hk & Hn & _).
  assert (reading t k (accepted ws ps) r) as Hrd by (split; [done|]; exists n, n'; by rw Hf).
  destruct (reads_deliver _ _ _ _ _ _ _ Hrd Hcaps H2) as (ms & (_ & n1 & n2 & _ & _ & _ & Hs) & Hu).
  exists ms. rw /unread Hb /= in Hu. split; [done|]. clear -Hs. by induction Hs; simpl; [|f_equal].
Qed.

(** A read with room for at least a byte on a stream whose peer seals its
    frames properly never fails decryption and never panics: it yields bytes,
    waits exactly when the socket does, or reports the socket's own error or
    end; and it yields no bytes only for an empty message. *)
Theorem secure_read_behaviour (t : CipherType) (k : bytes) (ms : list bytes) (r : nat) (st : St) :
  reading t k ms st → (0 < r)%nat →
  match poll_read r st with
  | (Ok (Ready d), st') =>
      ∃ ms', reading t k ms' st' ∧ d ++ unread ms' st' = unread ms st ∧
             ms' `suffix_of` ms ∧ (d = [] → ms = [] :: ms')
  | (Ok Pending, st') => reading t k ms st' ∧ unread ms st' = unread ms st ∧
      (fr_poll_next (socket st)).1 = Pending ∧ buf_bytes (recv_buf st) = []
  | (Err e, _) => buf_bytes (recv_buf st) = [] ∧
      ((fr_poll_next (socket st)).1 = Ready (Some (inr e)) ∨
       (fr_poll_next (socket st)).1 = Ready None ∧ e = io.BrokenPipe)
  | (Panic, _) => False
  end.
Proof. apply poll_read_step. Qed.
End facts.

(** ** Concrete streams *)

Definition demo_cipher (mode : CryptoMode) : BoxStreamCipher :=
  CRing (mkRing mode Aes256Gcm demo_key (replicate 12 (Z_byte 0))).
Definition demo_end (frames : list bytes) : SecureStream ListSocket :=
  secure_new (wire frames) (demo_cipher Decrypt) (demo_cipher Encrypt) [].

(** The frames that carry "hello" and "world". *)
Definition demo_frames : list bytes :=
  ls_out (socket (mapM poll_write [str "hello"; str "world"] (demo_end [])).2).

Definition demo_reader : SecureStream ListSocket := (mapM poll_read [3; 3; 3]%nat (demo_end demo_frames)).2.

Lemma secure_stream_end_to_end_witness :
  buf_bytes (recv_buf demo_reader) = str "ld" ∧
  ∃ ms, concat (accepted [str "hello"; str "world"] [Ready 5%nat; Ready 5%nat]) =
        got [Ready (str "hel"); Ready (str "lo"); Ready (str "wor")] ++ buf_bytes (recv_buf demo_reader) ++ concat ms ∧
        length ms = length (fr_incoming (socket demo_reader)).
Proof.
  split; [vm_compute; reflexivity|].
  apply (secure_stream_end_to_end Aes256Gcm demo_key (replicate 12 (Z_byte 0)) (demo_end [])
    (mapM poll_write [str "hello"; str "world"] (demo_end [])).2 (demo_end demo_frames)
    demo_reader [str "hello"; str "world"] [Ready 5%nat; Ready 5%nat]
    [3; 3; 3]%nat [Ready (str "hel"); Ready (str "lo"); Ready (str "wor")]).
  - repeat split; reflexivity.
  - reflexivity.
  - reflexivity.
  - reflexivity.
  - repeat constructor.
  - repeat constructor.
  - vm_compute; reflexivity.
  - vm_compute; reflexivity.
  - vm_compute; reflexivity.
Defined.

Lemma secure_read_behaviour_witness :
  ∃ ms', reading Aes256Gcm demo_key ms' (poll_read 3 (demo_end demo_frames)).2 ∧
    str "hel" ++ unread ms' (poll_read 3 (demo_end demo_frames)).2 = str "helloworld".
Proof.
  assert (reading Aes256Gcm demo_key [str "hello"; str "world"] (demo_end demo_frames)) as Hr.
  { split; [reflexivity|]. eexists (replicate 12 (Z_byte 0)), _. split_and!; [reflexivity..|].
    eapply sealed_cons; [vm_compute; reflexivity|]. eapply sealed_cons; [vm_compute; reflexivity|]. constructor. }
  pose proof (secure_read_behaviour Aes256Gcm demo_key _ 3 _ Hr ltac:(lia)) as H.
  assert ((poll_read 3 (demo_end demo_frames)).1 = Ok (Ready (str "hel"))) as E by (vm_compute; reflexivity).
  destruct (poll_read 3 (demo_end demo_frames)) as [p st']. simpl in *. rw E in H.
  destruct H as (ms' & Hr' & Hu & _). exists ms'. split; [exact Hr'|exact Hu].
Defined.

(** A read without room loses data: after "hel" of "hello" was read, a read of
    zero bytes replaces the buffered "lo" by the next message. *)
Example empty_read_loses_data :
  (mapM poll_read [3; 0; 5; 5]%nat (demo_end demo_frames)).1 =
  Ok [Ready (str "hel"); Ready []; Ready (str "world"); Pending].
Proof. vm_compute. reflexivity. Qed.
