(* ===== verification/SecioMessages.v ===== *)
(** * Secio: the handshake messages

    [secio/src/handshake/handshake_struct.rs] with the generated readers and
    builders of [handshake_mol.rs]: [Propose], [Exchange] and [PublicKey], their
    encoding and decoding. *)
From S2P Require Import Prelude Text Molecule MoleculeFacts.

Record Propose := mkPropose {
  pr_rand : bytes; pr_pubkey : bytes; pr_exchange : bytes; pr_ciphers : bytes; pr_hashes : bytes }.
Record Exchange := mkExchange { epubkey : bytes; signature : bytes }.
Record PublicKey := mkPublicKey { key : bytes }.

#[global] Instance PublicKey_eq_dec : EqDecision PublicKey.
Proof. solve_decision. Defined.

Section messages.
Context `{!MolNumber}.

(** ** The readers' verification *)

Definition bytes_reader_verify : Verifier := fixvec_verify.
Definition string_reader_verify : Verifier := fixvec_verify.
Definition secp256k1_reader_verify : Verifier := fixvec_verify.
Definition public_key_reader_verify : Verifier := union_verify [secp256k1_reader_verify].
Definition propose_reader_verify : Verifier :=
  table_verify [bytes_reader_verify; bytes_reader_verify; string_reader_verify; string_reader_verify;
    string_reader_verify].
Definition exchange_reader_verify : Verifier := table_verify [bytes_reader_verify; bytes_reader_verify].

(** [from_compatible_slice(data).ok()?], then [k] on the slice. *)
Definition decode_with {A} (verify : Verifier) (data : bytes) (k : bytes → VR (option A)) : VR (option A) :=
  match verify data true with
  | Ok _ => k data
  | Err _ => Ok None
  | Panic => Panic
  end.

(** [String::from_utf8(s).ok()?]. *)
Definition utf8_or_none {A} (s : bytes) (k : bytes → VR (option A)) : VR (option A) :=
  if utf8_valid s then k s else Ok None.

(** The contents of field [i] of a table of [n] byte vectors. *)
Definition field_data (n i : nat) (slice : bytes) : VR bytes := table_field n i slice ≫= fixvec_raw_data.

(** ** [Propose] *)

Definition propose_encode (p : Propose) : bytes :=
  table_write [fixvec_write (pr_rand p); fixvec_write (pr_pubkey p); fixvec_write (pr_exchange p);
    fixvec_write (pr_ciphers p); fixvec_write (pr_hashes p)].

Definition propose_decode (data : bytes) : VR (option Propose) :=
  decode_with propose_reader_verify data (λ reader,
    rand ← field_data 5 0 reader;
    pubkey ← field_data 5 1 reader;
    exchange ← field_data 5 2 reader;
    utf8_or_none exchange (λ exchange,
    ciphers ← field_data 5 3 reader;
    utf8_or_none ciphers (λ ciphers,
    hashes ← field_data 5 4 reader;
    utf8_or_none hashes (λ hashes,
    Ok (Some (mkPropose rand pubkey exchange ciphers hashes)))))).

(** ** [Exchange] *)

Definition exchange_encode (e : Exchange) : bytes :=
  table_write [fixvec_write (epubkey e); fixvec_write (signature e)].

Definition exchange_decode (data : bytes) : VR (option Exchange) :=
  decode_with exchange_reader_verify data (λ reader,
    e ← field_data 2 0 reader;
    s ← field_data 2 1 reader;
    Ok (Some (mkExchange e s))).

(** ** [PublicKey] *)

Definition public_key_encode (k : PublicKey) : bytes := union_write 0 (fixvec_write (key k)).

Definition public_key_decode (data : bytes) : VR (option PublicKey) :=
  decode_with public_key_reader_verify data (λ reader,
    inner ← union_to_enum 1 reader;
    k ← fixvec_raw_data inner.2;
    Ok (Some (mkPublicKey k))).
End messages.

(** ** Facts *)

Section facts.
Context {MN : MolNumber} {ML : MolNumberLaws}.

(** The sizes fit the format, and the texts are texts. *)
Definition propose_wf (p : Propose) : Prop :=
  length (propose_encode p) < 2 ^ 32 ∧ utf8_valid (pr_exchange p) = true ∧
  utf8_valid (pr_ciphers p) = true ∧ utf8_valid (pr_hashes p) = true.
Definition exchange_wf (e : Exchange) : Prop := length (exchange_encode e) < 2 ^ 32.
Definition public_key_wf (k : PublicKey) : Prop := length (public_key_encode k) < 2 ^ 32.

(** The vectors of a table that fits also fit. *)
Lemma table_items_fit (ds : list bytes) :
  length (table_write (fixvec_write <$> ds)) < 2 ^ 32 → Forall (λ d, length d < 2 ^ 32) ds.
Proof.
  rw table_write_length length_fmap /NUMBER_SIZE. intros H. assert (Z.of_nat (length (concat (fixvec_write <$> ds))) < 2 ^ 32) as H' by lia.
  clear H. induction ds as [|d ds IH]; [done|]. cbn [fmap list_fmap concat] in H'.
  rewrite -> length_app in H'. constructor; [|apply IH; lia].
  assert (length (fixvec_write d) = (4 + length d)%nat) as Hd by by rw /fixvec_write length_app pack_number_length.
  lia.
Qed.

Lemma table_of_vectors (ds : list bytes) c :
  ds ≠ [] → length (table_write (fixvec_write <$> ds)) < 2 ^ 32 →
  table_verify (replicate (length ds) fixvec_verify) (table_write (fixvec_write <$> ds)) c = Ok () ∧
  ∀ (i : nat) d, ds !! i = Some d →
    field_data (length ds) i (table_write (fixvec_write <$> ds)) = Ok d.
Proof.
  intros Hne Hl. pose proof (table_items_fit _ Hl) as Hf. split.
  - apply table_verify_write; [by destruct ds|done|]. clear Hl Hne.
    induction Hf as [|d ds Hd _ IH]; [constructor|]. constructor; [by apply fixvec_verify_write|done].
  - intros i d Hd. rw /field_data. pose proof (table_read_write (fixvec_write <$> ds) i (fixvec_write d) Hl) as Hr.
    rw length_fmap in Hr. rw Hr; [apply fixvec_read_write|]. by rw list_lookup_fmap Hd.
Qed.

Lemma field_data_verified (n i : nat) s c :
  table_verify (replicate n fixvec_verify) s c = Ok () → (i < n)%nat → ∃ d, field_data n i s = Ok d.
Proof.
  intros Hv Hi. destruct (table_verified _ _ _ i fixvec_verify Hv) as (x & Hx & Hfx); [by apply lookup_replicate_2|].
  rw length_replicate in Hx. destruct (fixvec_verified _ _ Hfx) as [d Hd]. exists d. by rw /field_data Hx.
Qed.

Lemma decode_with_total {A} verify data (k : bytes → VR (option A)) :
  verify data true ≠ Panic → (verify data true = Ok () → ∃ o, k data = Ok o) → ∃ o, decode_with verify data k = Ok o.
Proof. rw /decode_with. destruct (verify data true) as [[]|?|]; eauto. done. Qed.

Lemma vectors_no_panic (n : nat) s c : table_verify (replicate n fixvec_verify) s c ≠ Panic.
Proof. apply table_no_panic. intros f x [-> _]%elem_of_replicate. apply fixvec_no_panic. Qed.

Lemma propose_roundtrip p : propose_wf p → propose_decode (propose_encode p) = Ok (Some p).
Proof.
  intros (Hl & H1 & H2 & H3). destruct p as [a b x y z]; simpl in *. rw /propose_decode /decode_with.
  destruct (table_of_vectors [a; b; x; y; z] true) as [Hv Hf]; [done..|].
  change (propose_encode (mkPropose a b x y z)) with (table_write (fixvec_write <$> [a; b; x; y; z])).
  change propose_reader_verify with (table_verify (replicate 5 fixvec_verify)). rw Hv.
  rw (Hf 0%nat a) // (Hf 1%nat b) // (Hf 2%nat x) // /utf8_or_none. cbn [mbind Res_bind]. rw H1 (Hf 3%nat y) //.
  cbn [mbind Res_bind]. rw H2 (Hf 4%nat z) //. cbn [mbind Res_bind]. by rw H3.
Qed.

Lemma exchange_roundtrip e : exchange_wf e → exchange_decode (exchange_encode e) = Ok (Some e).
Proof.
  intros Hl. destruct e as [a b]. rw /exchange_decode /decode_with.
  destruct (table_of_vectors [a; b] true) as [Hv Hf]; [done..|].
  change (exchange_encode (mkExchange a b)) with (table_write (fixvec_write <$> [a; b])).
  change exchange_reader_verify with (table_verify (replicate 2 fixvec_verify)). rw Hv.
  by rw (Hf 0%nat a) // (Hf 1%nat b).
Qed.

Lemma public_key_roundtrip k : public_key_wf k → public_key_decode (public_key_encode k) = Ok (Some k).
Proof.
  intros Hl. destruct k as [k]. rw /public_key_decode /decode_with /public_key_encode /public_key_reader_verify.
  cbn [key].
  destruct (union_roundtrip [secp256k1_reader_verify] 0 secp256k1_reader_verify (fixvec_write k) true)
    as [-> He]; [done..|]. change (length [secp256k1_reader_verify]) with 1%nat in He. rw He.
  rw /secp256k1_reader_verify fixvec_verify_write.
  - cbn [mbind Res_bind]. by rw fixvec_read_write.
  - rw /public_key_wf /public_key_encode /union_write /fixvec_write /= !length_app in Hl. lia.
Qed.

Lemma propose_decode_total data : ∃ o, propose_decode data = Ok o.
Proof.
  apply decode_with_total; [apply (vectors_no_panic 5)|]. intros Hv.
  assert (∀ i, (i < 5)%nat → ∃ d, field_data 5 i data = Ok d) as Hf by (intros i; by apply (field_data_verified 5 i data true)).
  destruct (Hf 0%nat) as [? H0], (Hf 1%nat) as [? H1], (Hf 2%nat) as [? H2], (Hf 3%nat) as [? H3],
    (Hf 4%nat) as [? H4]; [lia..|]. cbn beta. rw H0 H1 H2 /utf8_or_none. cbn [mbind Res_bind].
  case_match; [|eauto]. rw H3. cbn [mbind Res_bind]. case_match; [|eauto]. rw H4. cbn [mbind Res_bind].
  case_match; eauto.
Qed.

Lemma exchange_decode_total data : ∃ o, exchange_decode data = Ok o.
Proof.
  apply decode_with_total; [apply (vectors_no_panic 2)|]. intros Hv.
  assert (∀ i, (i < 2)%nat → ∃ d, field_data 2 i data = Ok d) as Hf by (intros i; by apply (field_data_verified 2 i data true)).
  destruct (Hf 0%nat) as [? H0], (Hf 1%nat) as [? H1]; [lia..|]. cbn beta. rw H0 H1. cbn [mbind Res_bind]. eauto.
Qed.

Lemma public_key_decode_total data : ∃ o, public_key_decode data = Ok o.
Proof.
  apply decode_with_total; [apply union_no_panic; intros item x ->%list_elem_of_singleton; apply fixvec_no_panic|].
  intros (id & item & x & Hid & He & Hx)%union_verified. destruct id; [|done]. injection Hid as <-.
  change (length [secp256k1_reader_verify]) with 1%nat in He. rw He.
  apply fixvec_verified in Hx as [d Hd]. cbn [mbind Res_bind snd]. rw Hd. cbn [mbind Res_bind]. eauto.
Qed.

(** The handshake messages survive their encoding, as long as they fit the
    format's 32-bit sizes and their texts are UTF-8. *)
Theorem handshake_messages_roundtrip (p : Propose) (e : Exchange) (k : PublicKey) :
  propose_wf p → exchange_wf e → public_key_wf k →
  propose_decode (propose_encode p) = Ok (Some p) ∧
  exchange_decode (exchange_encode e) = Ok (Some e) ∧
  public_key_decode (public_key_encode k) = Ok (Some k).
Proof.
  intros. split_and!; [by apply propose_roundtrip|by apply exchange_roundtrip|by apply public_key_roundtrip].
Qed.

(** Decoding bytes from the network always ends with a message or with
    [None], whatever the bytes are: no index out of range and no panic. *)
Theorem handshake_messages_total (data : bytes) :
  (∃ p, propose_decode data = Ok p) ∧ (∃ e, exchange_decode data = Ok e) ∧ (∃ k, public_key_decode data = Ok k).
Proof.
  split_and!; [apply propose_decode_total|apply exchange_decode_total|apply public_key_decode_total].
Qed.
End facts.

Definition demo_propose : Propose :=
  mkPropose (replicate 16 (Z_byte 3)) (str "key") (str "P-256") (str "AES-128-GCM") (str "SHA256").

Lemma handshake_messages_roundtrip_witness :
  propose_decode (propose_encode demo_propose) = Ok (Some demo_propose) ∧
  exchange_decode (exchange_encode (mkExchange (str "e") (str "s"))) = Ok (Some (mkExchange (str "e") (str "s"))) ∧
  public_key_decode (public_key_encode (mkPublicKey (str "k"))) = Ok (Some (mkPublicKey (str "k"))).
Proof.
  apply (handshake_messages_roundtrip demo_propose (mkExchange (str "e") (str "s")) (mkPublicKey (str "k")));
    [split_and!|..]; vm_compute; reflexivity.
Defined.

(** A truncated message is refused, not a panic. *)
Lemma handshake_messages_total_witness :
  propose_decode (take 20 (propose_encode demo_propose)) = Ok None ∧
  ∃ p, propose_decode (take 20 (propose_encode demo_propose)) = Ok p.
Proof.
  split; [vm_compute; reflexivity|].
  exact (proj1 (handshake_messages_total (take 20 (propose_encode demo_propose)))).
Defined.
