(* ===== verification/SecioHandshake.v ===== *)
(** * Secio: the handshake

    [secio/src/handshake/handshake_context.rs], [handshake/procedure.rs] and
    [handshake/mod.rs] ([Config]). The hash functions, the Diffie-Hellman
    agreement ([sha256_compat], [hmac_compat] and [dh_compat], which only
    forward to foreign crates) and the key provider are parameters; the framed
    socket is the one of the encrypted stream. *)
From S2P Require Import Prelude Text SecioSupport SecioCrypto Framed SecureStream Molecule SecioMessages.

(** ** What the handshake uses *)

Class HandshakeCrypto := {
  sha256 : bytes → bytes;
  (** [Hmac::from_key(digest, key)], then [update]s with the data in turn and [sign]. *)
  hmac : Digest → bytes → bytes → bytes;
  EphemeralPrivateKey : Type;
  (** The randomness of the key generation. *)
  Seed : Type;
  generate_agreement : KeyAgreement → Seed → Res SecioError (EphemeralPrivateKey * bytes);
  agree : KeyAgreement → EphemeralPrivateKey → bytes → Res SecioError bytes;
}.

(** The trait [KeyProvider]; the error type is converted where it is used. *)
Class KeyProvider (K : Type) := {
  sign_ecdsa : K → bytes → Res SecioError bytes;
  pubkey : K → bytes;
  verify_ecdsa : K → bytes → bytes → bytes → bool;
}.

Class HandshakeCryptoLaws `{HandshakeCrypto} : Prop := {
  hmac_nonempty d k m : hmac d k m ≠ [];
  (** Diffie-Hellman: both sides get the same secret. *)
  agree_sym a s1 s2 k1 p1 k2 p2 :
    generate_agreement a s1 = Ok (k1, p1) → generate_agreement a s2 = Ok (k2, p2) →
    ∃ m, agree a k1 p2 = Ok m ∧ agree a k2 p1 = Ok m;
}.

Class KeyProviderLaws (K : Type) `{KeyProvider K} : Prop := {
  verify_sign k k' msg s : sign_ecdsa k msg = Ok s → verify_ecdsa k' (pubkey k) msg s = true;
}.

(** ** [Config] *)

Definition MAX_FRAME_SIZE : Z := 1024 * 1024 * 8.

Record Config (K : Type) := mkConfig {
  key_provider : K;
  agreements_proposal : option bytes;
  ciphers_proposal : option bytes;
  digests_proposal : option bytes;
  max_frame_length : Z;
}.
Arguments mkConfig {K}.
Arguments key_provider {K}.
Arguments agreements_proposal {K}.
Arguments ciphers_proposal {K}.
Arguments digests_proposal {K}.
Arguments max_frame_length {K}.

Section config.
Context {K : Type}.
Implicit Types c : Config K.

Definition config_new (k : K) : Config K := mkConfig k None None None MAX_FRAME_SIZE.
Definition config_max_frame_length (size : Z) c : Config K :=
  mkConfig (key_provider c) (agreements_proposal c) (ciphers_proposal c) (digests_proposal c) size.
Definition config_key_agreements (xs : list KeyAgreement) c : Config K :=
  mkConfig (key_provider c) (Some (key_agreements_proposition xs)) (ciphers_proposal c) (digests_proposal c)
    (max_frame_length c).
Definition config_ciphers (xs : list CipherType) c : Config K :=
  mkConfig (key_provider c) (agreements_proposal c) (Some (ciphers_proposition xs)) (digests_proposal c)
    (max_frame_length c).
Definition config_digests (xs : list Digest) c : Config K :=
  mkConfig (key_provider c) (agreements_proposal c) (ciphers_proposal c) (Some (digests_proposition xs))
    (max_frame_length c).

(** What a configuration proposes. *)
Definition agreements_of c : bytes := default DEFAULT_AGREEMENTS_PROPOSITION (agreements_proposal c).
Definition ciphers_of c : bytes := default DEFAULT_CIPHERS_PROPOSITION (ciphers_proposal c).
Definition digests_of c : bytes := default DEFAULT_DIGESTS_PROPOSITION (digests_proposal c).
End config.

(** ** The contexts *)

Record HandshakeContext (K T : Type) := mkContext { config : Config K; state : T }.
Arguments mkContext {K T}.
Arguments config {K T}.
Arguments state {K T}.

Record Local := mkLocal { l_nonce : bytes; l_public_key : PublicKey; l_proposition_bytes : bytes }.

Record Remote := mkRemote {
  local : Local;
  r_proposition_bytes : bytes;
  r_public_key : PublicKey;
  r_nonce : bytes;
  hashes_ordering : comparison;
  chosen_exchange : KeyAgreement;
  chosen_cipher : CipherType;
  chosen_hash : Digest;
}.

(** [match decode(..) { Some(x) => x, None => return Err(HandshakeParsingFailure) }]. *)
Definition decoded {A} (r : VR (option A)) : Res SecioError A :=
  match r with
  | Ok (Some a) => Ok a
  | Ok None => Err HandshakeParsingFailure
  | Err _ | Panic => Panic
  end.

Section contexts.
Context {K : Type} `{!KeyProvider K} `{!HandshakeCrypto} `{!MolNumber}.

Record Ephemeral := mkEphemeral {
  e_remote : Remote; local_tmp_priv_key : EphemeralPrivateKey; local_tmp_pub_key : bytes }.
Record PubEphemeral := mkPubEphemeral { p_remote : Remote; p_local_tmp_pub_key : bytes }.

Definition context_new (c : Config K) : HandshakeContext K unit := mkContext c ().

(** [with_local]; [nonce] are the random bytes it draws. *)
Definition with_local (nonce : bytes) (ctx : HandshakeContext K unit) : HandshakeContext K Local :=
  let public_key := mkPublicKey (pubkey (key_provider (config ctx))) in
  let proposition := mkPropose nonce (public_key_encode public_key)
    (agreements_of (config ctx)) (ciphers_of (config ctx)) (digests_of (config ctx)) in
  mkContext (config ctx) (mkLocal nonce public_key (propose_encode proposition)).

Definition with_remote (remote_bytes : bytes) (ctx : HandshakeContext K Local)
    : Res SecioError (HandshakeContext K Remote) :=
  propose ← decoded (propose_decode remote_bytes);
  let nonce := pr_rand propose in
  public_key ← decoded (public_key_decode (pr_pubkey propose));
  if bool_decide (public_key = l_public_key (state ctx)) then Err ConnectSelf
  else
    let oh1 := sha256 (key public_key ++ l_nonce (state ctx)) in
    let oh2 := sha256 (key (l_public_key (state ctx)) ++ nonce) in
    let hashes_ordering := bytes_cmp oh1 oh2 in
    chosen_exchange ← select_agreement hashes_ordering (agreements_of (config ctx)) (pr_exchange propose);
    chosen_cipher ← select_cipher hashes_ordering (ciphers_of (config ctx)) (pr_ciphers propose);
    chosen_hash ← select_digest hashes_ordering (digests_of (config ctx)) (pr_hashes propose);
    Ok (mkContext (config ctx) (mkRemote (state ctx) remote_bytes public_key nonce hashes_ordering
      chosen_exchange chosen_cipher chosen_hash)).

Definition with_ephemeral (sk : EphemeralPrivateKey) (pk : bytes) (ctx : HandshakeContext K Remote)
    : HandshakeContext K Ephemeral :=
  mkContext (config ctx) (mkEphemeral (state ctx) sk pk).

Definition take_private_key (ctx : HandshakeContext K Ephemeral)
    : HandshakeContext K PubEphemeral * EphemeralPrivateKey :=
  (mkContext (config ctx) (mkPubEphemeral (e_remote (state ctx)) (local_tmp_pub_key (state ctx))),
   local_tmp_priv_key (state ctx)).
End contexts.

(** ** Key material *)

Definition KEY_EXPANSION : bytes := str "key expansion".

(** The loop of [stretch_key]: [need] bytes are still to be filled; [None]
    when the fuel does not suffice. *)
Fixpoint stretch_loop (fuel : nat) (mac : bytes → bytes) (a : bytes) (need : nat) : option bytes :=
  match need with
  | O => Some []
  | _ =>
      match fuel with
      | O => None
      | S fuel =>
          let b := mac (a ++ KEY_EXPANSION) in
          let todo := Nat.min (length b) need in
          rest ← stretch_loop fuel mac (mac a) (need - todo);
          Some (take todo b ++ rest)
      end
  end.

(** [stretch_key] over a result of [len] bytes. *)
Definition stretch_key (mac : bytes → bytes) (len : nat) : option bytes :=
  stretch_loop len mac (mac KEY_EXPANSION) len.

(** [slice.split_at(n)]. *)
Definition split_at {E} (n : nat) (b : bytes) : Res E (bytes * bytes) :=
  if bool_decide (n ≤ length b)%nat then Ok (take n b, drop n b) else Panic.

Definition generate_stream_cipher_and_hmac (bu : Build) (t : CipherType) (mode : CryptoMode) (info : bytes)
    (key_size iv_size : nat) : Res SecioError BoxStreamCipher :=
  iv_rest ← split_at iv_size info;
  cipher_mac ← split_at key_size iv_rest.2;
  new_stream bu t cipher_mac.1 mode.

(** ** The procedure *)

(** Errors of the socket are [SecioError::IoError]. *)
Definition from_io (e : Stop io.ErrorKind) : Stop SecioError :=
  match e with Running => Running | Failed k => Failed (IoError k) end.

(** [r?] in the procedure. *)
Definition try {S A} (r : Res SecioError A) : M S (Stop SecioError) A :=
  lift_res (match r with Ok a => Ok a | Err e => Err (Failed e) | Panic => Panic end).

Section socket.
Context {S : Type} `{!Framed S} `{!Aead}.
Abbreviation St := (SecureStream S).

(** [socket.send(frame).await?]. *)
Definition send_frame (fuel : nat) (frame : bytes) : M S (Stop SecioError) unit :=
  map_err from_io (frame_send fuel frame).

(** [match socket.next().await { Some(p) => p?, None => return Err(eof) }]. *)
Definition next_frame (fuel : nat) : M S (Stop SecioError) bytes :=
  p ← map_err from_io (frame_next fuel);
  match p with
  | Some frame => mret frame
  | None => throw (Failed (IoError io.UnexpectedEof))
  end.

(** tokio's [write_all] on the encrypted stream. *)
Fixpoint write_all (fuel : nat) (buf : bytes) : M St (Stop SecioError) unit :=
  match buf with
  | [] => mret ()
  | _ =>
      match fuel with
      | O => throw Running
      | Datatypes.S fuel =>
          p ← map_err (λ k, Failed (IoError k)) (poll_write buf);
          match p with
          | Pending => write_all fuel buf
          | Ready O => throw (Failed (IoError io.WriteZero))
          | Ready n => write_all fuel (drop n buf)
          end
      end
  end.

(** [flush] on the encrypted stream. *)
Fixpoint flush_all (fuel : nat) : M St (Stop SecioError) unit :=
  match fuel with
  | O => throw Running
  | Datatypes.S fuel =>
      p ← map_err (λ k, Failed (IoError k)) poll_flush;
      match p with Pending => flush_all fuel | Ready _ => mret () end
  end.

(** [verify_nonce().await?]. *)
Definition verify_nonce_all (fuel : nat) : M St (Stop SecioError) unit :=
  r ← map_err Failed (verify_nonce fuel);
  match r with Some _ => mret () | None => throw Running end.

(** From here on the socket belongs to the encrypted stream [st]. *)
Definition into_stream {A} (st : S → St) (m : M St (Stop SecioError) A) : M S (Stop SecioError) (St * A) := λ s,
  match m (st s) with
  | (Ok a, st') => (Ok (st', a), socket st')
  | (Err e, st') => (Err e, socket st')
  | (Panic, st') => (Panic, socket st')
  end.
End socket.

Section procedure.
Context {S K : Type} `{!Framed S} `{!Aead} `{!KeyProvider K} `{!HandshakeCrypto} `{!MolNumber}.
Abbreviation St := (SecureStream S).

(** Our [Exchange], signed. *)
Definition local_exchange (ctx : HandshakeContext K Ephemeral) : Res SecioError Exchange :=
  let e := state ctx in
  let data_to_sign := sha256 (l_proposition_bytes (local (e_remote e)) ++
    r_proposition_bytes (e_remote e) ++ local_tmp_pub_key e) in
  signature ← sign_ecdsa (key_provider (config ctx)) data_to_sign;
  Ok (mkExchange (local_tmp_pub_key e) signature).

(** The check of the remote's [Exchange]. *)
Definition check_exchange (ctx : HandshakeContext K Ephemeral) (x : Exchange) : Res SecioError unit :=
  let e := state ctx in
  let data_to_verify := sha256 (r_proposition_bytes (e_remote e) ++
    l_proposition_bytes (local (e_remote e)) ++ epubkey x) in
  if verify_ecdsa (key_provider (config ctx)) (key (r_public_key (e_remote e))) data_to_verify (signature x)
  then Ok () else Err SignatureVerificationFailed.

(** The two halves of the stretched key: ours and the remote's. *)
Definition split_infos (ordering : comparison) (longer_key : bytes) : Res SecioError (bytes * bytes) :=
  halves ← split_at (length longer_key / 2) longer_key;
  match ordering with
  | Eq => Err (InvalidProposition (str "equal digest of public key and nonce for local and remote"))
  | Lt => Ok (halves.2, halves.1)
  | Gt => Ok halves
  end.

(** [handshake] on a framed socket; [nonce] and [seed] are the randomness, [bu]
    is the build, and each wait takes at most [fuel] polls. *)
Definition handshake (fuel : nat) (bu : Build) (nonce : bytes) (seed : Seed) (cfg : Config K)
    : M S (Stop SecioError) (St * PublicKey * bytes) :=
  modify (fr_limit (max_frame_length cfg));;
  let local_context := with_local nonce (context_new cfg) in
  send_frame fuel (l_proposition_bytes (state local_context));;
  p ← next_frame fuel;
  remote_context ← try (with_remote p local_context);
  tmp ← try (generate_agreement (chosen_exchange (state remote_context)) seed);
  let ephemeral_context := with_ephemeral tmp.1 tmp.2 remote_context in
  exchanges ← try (local_exchange ephemeral_context);
  send_frame fuel (exchange_encode exchanges);;
  raw_exchanges ← next_frame fuel;
  remote_exchanges ← try (decoded (exchange_decode raw_exchanges));
  try (check_exchange ephemeral_context remote_exchanges);;
  let '(pub_ephemeral_context, local_priv_key) := take_private_key ephemeral_context in
  let remote := p_remote (state pub_ephemeral_context) in
  key_material ← try (agree (chosen_exchange remote) local_priv_key (epubkey remote_exchanges));
  let cipher := chosen_cipher remote in
  let cipher_key_size := key_size cipher in
  let iv_size := iv_size cipher in
  longer_key ← (match stretch_key (hmac (chosen_hash remote) key_material)
      (2 * (iv_size + cipher_key_size + 20)) with
    | Some k => mret k
    | None => throw Running
    end : M S (Stop SecioError) bytes);
  infos ← try (split_infos (hashes_ordering remote) longer_key);
  encode_cipher ← try (generate_stream_cipher_and_hmac bu cipher Encrypt infos.1 cipher_key_size iv_size);
  decode_cipher ← try (generate_stream_cipher_and_hmac bu cipher Decrypt infos.2 cipher_key_size iv_size);
  secure_stream ← into_stream
    (λ socket, secure_new socket decode_cipher encode_cipher (l_nonce (local remote)))
    (write_all fuel (r_nonce remote);; flush_all fuel;; verify_nonce_all fuel);
  mret (secure_stream.1, r_public_key remote, p_local_tmp_pub_key (state pub_ephemeral_context)).
End procedure.
