(* ===== verification/SecioHandshakeFacts.v ===== *)
(** * Secio: what the handshake guarantees

    Two honest parties over a reliable channel finish the handshake with the
    same algorithms and matching keys, and a handshake that succeeds on any
    socket has authenticated its peer. *)
From S2P Require Import Prelude Text SecioSupport SecioCrypto Framed SecureStream Molecule MoleculeFacts SecioMessages SecioHandshake.

(** ** Key stretching *)

Lemma stretch_loop_total mac fuel a need :
  (∀ m, mac m ≠ []) → (need ≤ fuel)%nat →
  ∃ r, stretch_loop fuel mac a need = Some r ∧ length r = need.
Proof.
  intros Hmac. revert a need. induction fuel as [|fuel IH]; intros a need Hf.
  { assert (need = 0%nat) as -> by lia. by exists []. }
  destruct need as [|need]; [by exists []|]. cbn [stretch_loop].
  set (b := mac (a ++ KEY_EXPANSION)). set (todo := Nat.min (length b) (S need)).
  assert (length b ≠ 0)%nat as Hb by (intros H; by apply nil_length_inv, Hmac in H).
  destruct (IH (mac a) (S need - todo)%nat) as (r & -> & Hr); [lia|].
  eexists. split; [done|]. rw length_app length_take Hr. lia.
Qed.

Lemma stretch_key_total mac len :
  (∀ m, mac m ≠ []) → ∃ r, stretch_key mac len = Some r ∧ length r = len.
Proof. intros H. by apply stretch_loop_total. Qed.

(** [stretch_key] terminates and fills the whole result, for every length,
    as long as the MAC is not empty; a shorter key is a prefix of a longer one. *)
Theorem stretch_key_fills (mac : bytes → bytes) (n m : nat) :
  (∀ x, mac x ≠ []) → (n ≤ m)%nat →
  ∃ kn km, stretch_key mac n = Some kn ∧ stretch_key mac m = Some km ∧
    length kn = n ∧ length km = m ∧ kn = take n km.
Proof.
  intros Hmac Hnm. destruct (stretch_key_total mac n Hmac) as (kn & Hn & Ln), (stretch_key_total mac m Hmac) as (km & Hm & Lm).
  exists kn, km. split_and!; try done. rw /stretch_key in Hn Hm. clear Ln Lm.
  revert Hn Hm. assert (∀ f g a i j ki kj, (i ≤ j)%nat → stretch_loop f mac a i = Some ki →
    stretch_loop g mac a j = Some kj → ki = take i kj) as Hgen; [|by apply Hgen].
  clear. induction f as [|f IH]; intros g a i j ki kj Hij.
  { by destruct i; [intros [= <-]|]. }
  destruct i as [|i]; [by intros [= <-]|]. destruct j as [|j]; [lia|]. destruct g as [|g]; [done|].
  cbn [stretch_loop]. set (b := mac (a ++ KEY_EXPANSION)).
  destruct (stretch_loop f _ _ _) as [ri|] eqn:Hi; [|done]. destruct (stretch_loop g _ _ _) as [rj|] eqn:Hj; [|done].
  cbn [mbind option_bind]. intros [= <-] [= <-]. rw take_app take_take length_take.
  destruct (decide (length b ≤ i)%nat).
  - rewrite -> (Nat.min_l (length b) (S i)), (Nat.min_l (length b) (S j)) in * by lia.
    rewrite -> Nat.min_r, !Nat.min_l by lia. f_equal. eapply (IH _ _ _ _ _ _ _ Hi Hj).
  - rewrite -> (Nat.min_r (length b) (S i)) in * by lia. rewrite -> Nat.sub_diag in Hi.
    destruct f; injection Hi as <-; rw app_nil_r; rewrite -> Nat.min_l by lia;
      replace (S i - _)%nat with 0%nat by lia; by rw take_0 app_nil_r.
  Unshelve. lia.
Qed.

(** ** A reliable channel *)

Lemma send_frame_list fuel f (s : ListSocket) :
  (0 < fuel)%nat → within (ls_max s) f = true →
  send_frame fuel f s = (Ok (), mkListSocket (ls_max s) (ls_in s) (ls_out s ++ [f])).
Proof. intros H Hw. by rw /send_frame /map_err frame_send_list. Qed.

Lemma next_frame_list fuel m f fs out :
  (0 < fuel)%nat → within m f = true →
  next_frame fuel (mkListSocket m (f :: fs) out) = (Ok f, mkListSocket m fs out).
Proof. intros H Hw. rw /next_frame. by erewrite M_bind_Ok by (by rw /map_err frame_next_list). Qed.

(** ** Two honest parties *)

Section honest.
Context {K : Type} {KP : KeyProvider K} {KL : KeyProviderLaws K}.
Context {HC : HandshakeCrypto} {HL : HandshakeCryptoLaws} {AE : Aead} {AL : AeadLaws}.
Context {MN : MolNumber} {ML : MolNumberLaws}.

(** A party: its configuration, its build and its randomness. *)
Record Party := mkParty { cfg : Config K; build : Build; rnd : bytes; seed : Seed }.

Definition identity (x : Party) : PublicKey := mkPublicKey (pubkey (key_provider (cfg x))).
Definition proposal (x : Party) : Propose :=
  mkPropose (rnd x) (public_key_encode (identity x)) (agreements_of (cfg x)) (ciphers_of (cfg x))
    (digests_of (cfg x)).
Definition proposition (x : Party) : bytes := propose_encode (proposal x).
Definition ordering (x y : Party) : comparison :=
  bytes_cmp (sha256 (key (identity y) ++ rnd x)) (sha256 (key (identity x) ++ rnd y)).

(** Sizes and texts that the format carries; a nonce of 16 bytes. *)
Definition party_ok (x : Party) : Prop :=
  length (rnd x) = 16%nat ∧ public_key_wf (identity x) ∧ propose_wf (proposal x).

(** The cipher exists in the build. *)
Definition supports (bu : Build) (t : CipherType) : Prop :=
  match bu with WasmTarget => t = ChaCha20Poly1305 | _ => True end.

(** What [x] contributes towards [y] for the algorithms [ka] and [c]: its
    ephemeral key and its signed [Exchange]. *)
Record contribution (ka : KeyAgreement) (c : CipherType) (x y : Party)
    (sk : EphemeralPrivateKey) (ex : Exchange) : Prop := {
  co_key : generate_agreement ka (seed x) = Ok (sk, epubkey ex);
  co_sign : sign_ecdsa (key_provider (cfg x)) (sha256 (proposition x ++ proposition y ++ epubkey ex)) = Ok (signature ex);
  co_wf : exchange_wf ex;
  co_cipher : supports (build x) c;
}.

(** The algorithms that [x] selects when it hears from [y]. *)
Definition selects (x y : Party) (ka : KeyAgreement) (c : CipherType) (d : Digest) : Prop :=
  select_agreement (ordering x y) (agreements_of (cfg x)) (agreements_of (cfg y)) = Ok ka ∧
  select_cipher (ordering x y) (ciphers_of (cfg x)) (ciphers_of (cfg y)) = Ok c ∧
  select_digest (ordering x y) (digests_of (cfg x)) (digests_of (cfg y)) = Ok d.

Lemma ordering_opp x y : ordering y x = CompOpp (ordering x y).
Proof. apply bytes_cmp_opp. Qed.

Lemma selects_sym x y ka c d : ordering x y ≠ Eq → selects x y ka c d → selects y x ka c d.
Proof.
  rw /selects (ordering_opp x y) /select_agreement /select_cipher /select_digest /preferred.
  intros Ho (H1 & H2 & H3). by destruct (ordering x y).
Qed.

(** Both sides' contexts after the propositions. *)
Definition remote_of (x y : Party) ka c d : Remote :=
  mkRemote (mkLocal (rnd x) (identity x) (proposition x)) (proposition y) (identity y) (rnd y)
    (ordering x y) ka c d.

Lemma with_remote_honest x y ka c d :
  party_ok y → identity y ≠ identity x → selects x y ka c d →
  with_remote (proposition y) (with_local (rnd x) (context_new (cfg x))) =
  Ok (mkContext (cfg x) (remote_of x y ka c d)).
Proof.
  intros (_ & Hpk & Hpr) Hne (Ha & Hc & Hd). rw /with_remote (propose_roundtrip _ Hpr). cbn [decoded mbind Res_bind].
  cbn [pr_pubkey proposal]. rw (public_key_roundtrip _ Hpk). cbn [decoded mbind Res_bind].
  rw bool_decide_eq_false_2 //.
  cbn [pr_rand pr_exchange pr_ciphers pr_hashes proposal with_local context_new state config l_public_key l_nonce].
  rw -/(identity x) -/(ordering x y) Ha. cbn [mbind Res_bind]. rw Hc. cbn [mbind Res_bind]. by rw Hd.
Qed.

Lemma local_exchange_honest x y ka c d sk ex :
  contribution ka c x y sk ex →
  local_exchange (with_ephemeral sk (epubkey ex) (mkContext (cfg x) (remote_of x y ka c d))) = Ok ex.
Proof. intros [_ Hs _ _]. rw /local_exchange /= Hs. by destruct ex. Qed.

Lemma check_exchange_honest x y ka c d sk pk sk' ex :
  contribution ka c y x sk' ex →
  check_exchange (with_ephemeral sk pk (mkContext (cfg x) (remote_of x y ka c d))) ex = Ok ().
Proof. intros [_ Hs _ _]. rw /check_exchange /=. by rw (verify_sign _ _ _ _ Hs). Qed.

(** *** Keys *)

Definition key_bytes (c : CipherType) : nat := iv_size c + key_size c + 20.

(** The cipher key in a half of the stretched key. *)
Definition cipher_key (c : CipherType) (info : bytes) : bytes := take (key_size c) (drop (iv_size c) info).

(** The half that [x] uses to send. *)
Definition half (o : comparison) (c : CipherType) (long : bytes) : bytes :=
  match o with Lt => drop (key_bytes c) long | _ => take (key_bytes c) long end.

Lemma half_length o c long : length long = (2 * key_bytes c)%nat → length (half o c long) = key_bytes c.
Proof. intros Hl. destruct o; rw /half ?length_take ?length_drop; lia. Qed.

Lemma split_infos_honest o c long :
  o ≠ Eq → length long = (2 * key_bytes c)%nat →
  split_infos o long = Ok (half o c long, half (CompOpp o) c long).
Proof.
  intros Ho Hl. rw /split_infos /split_at Hl Nat.mul_comm Nat.div_mul //.
  rw bool_decide_eq_true_2; [|lia]. by destruct o.
Qed.

Lemma cipher_key_length c info : length info = key_bytes c → length (cipher_key c info) = key_size c.
Proof. intros Hl. rw /cipher_key length_take length_drop Hl /key_bytes. lia. Qed.

Lemma new_stream_supported bu t k mode :
  supports bu t → length k = key_size t → ∃ b, new_stream bu t k mode = Ok b.
Proof.
  intros Hs Hk. destruct bu, t; simpl in *; try done; rw /res_map /RingAeadCipher_new /WasmCrypt_new ?Hk;
    try (rw bool_decide_eq_true_2; [|done]); by eexists.
Qed.

Lemma generate_stream_honest bu c mode info :
  supports bu c → length info = key_bytes c →
  ∃ b, generate_stream_cipher_and_hmac bu c mode info (key_size c) (iv_size c) = Ok b ∧
    cipher_view b = (c, cipher_key c info, replicate (iv_size c) (Z_byte 0)) ∧ mode_ok mode b.
Proof.
  intros Hs Hl. destruct (new_stream_supported bu c (cipher_key c info) mode Hs (cipher_key_length _ _ Hl)) as [b Hb].
  exists b. split; [|by apply new_stream_view in Hb].
  rw /generate_stream_cipher_and_hmac /split_at. rw bool_decide_eq_true_2; [|rw Hl /key_bytes; lia].
  cbn [mbind Res_bind]. rw bool_decide_eq_true_2; [done|]. simpl. rw length_drop Hl /key_bytes. lia.
Qed.

(** *** The nonces through the encrypted stream *)

Abbreviation zero_nonce c := (replicate (iv_size c) (Z_byte 0)).

(** The frame with which [nonce] is sent back under a half. *)
Definition nonce_frame (c : CipherType) (info nonce frame : bytes) : Prop :=
  ∃ ct tag, aead_seal c (cipher_key c info) (nonce_advance (zero_nonce c)) nonce = Some (ct, tag) ∧
    frame = ct ++ tag.

Lemma nonce_frame_exists c info nonce :
  length info = key_bytes c → length nonce = 16%nat → ∃ f, nonce_frame c info nonce f.
Proof.
  intros Hi Hn. destruct (aead_seal_Some c (cipher_key c info) (nonce_advance (zero_nonce c)) nonce) as [[ct tag] Hs].
  - by apply cipher_key_length.
  - by rw nonce_advance_length length_replicate.
  - lia.
  - by exists (ct ++ tag), ct, tag.
Qed.

Lemma nonce_frame_within c info nonce f m :
  length info = key_bytes c → length nonce = 16%nat → nonce_frame c info nonce f → 32 ≤ m → within m f = true.
Proof.
  intros Hi Hn (ct & tag & Hs & ->) Hm.
  apply aead_seal_length in Hs as [Hc Ht]; [|by apply cipher_key_length|by rw nonce_advance_length length_replicate].
  rw /within length_app. apply Z.leb_le. assert (tag_size c = 16%nat) by (by destruct c). lia.
Qed.

(** A stream after the handshake: nothing buffered, and one message has gone
    each way. *)
Definition established (c : CipherType) (out inc : bytes) (st : SecureStream ListSocket) : Prop :=
  writing c (cipher_key c out) (nonce_advance (zero_nonce c)) st ∧
  cipher_view (decode_cipher st) = (c, cipher_key c inc, nonce_advance (zero_nonce c)) ∧
  mode_ok Decrypt (decode_cipher st) ∧ buf_bytes (recv_buf st) = [] ∧ nonce st = [].

Lemma poll_write_list t k n buf ct tag (st : SecureStream ListSocket) :
  writing t k n st → aead_seal t k (nonce_advance n) buf = Some (ct, tag) →
  within (ls_max (socket st)) (ct ++ tag) = true →
  ∃ enc, poll_write buf st =
      (Ok (Ready (length buf)),
       mkSecure (mkListSocket (ls_max (socket st)) (ls_in (socket st)) (ls_out (socket st) ++ [ct ++ tag]))
         (decode_cipher st) enc (nonce st) (recv_buf st)) ∧
    cipher_view enc = (t, k, nonce_advance n) ∧ mode_ok Encrypt enc.
Proof.
  intros (Hk & Hn & Hv & Hm) Hs Hl. destruct (encrypt_view _ _ _ _ _ _ _ Hv Hm Hs) as (enc & He & Hev & Hem).
  exists enc. split; [|done]. rw /poll_write. erewrite M_bind_Ok by done. cbv beta iota.
  erewrite M_bind_Ok by (rw /encode_buffer /= He; done).
  erewrite M_bind_Ok by (rw /on_socket; cbn [fr_start_send ListFramed socket]; rw Hl; done). done.
Qed.

Lemma write_all_list t k n buf ct tag fuel (st : SecureStream ListSocket) :
  (0 < fuel)%nat → buf ≠ [] → writing t k n st → aead_seal t k (nonce_advance n) buf = Some (ct, tag) →
  within (ls_max (socket st)) (ct ++ tag) = true →
  ∃ enc, write_all fuel buf st =
      (Ok (), mkSecure (mkListSocket (ls_max (socket st)) (ls_in (socket st)) (ls_out (socket st) ++ [ct ++ tag]))
         (decode_cipher st) enc (nonce st) (recv_buf st)) ∧
    cipher_view enc = (t, k, nonce_advance n) ∧ mode_ok Encrypt enc.
Proof.
  intros Hf Hb Hw Hs Hl. destruct (poll_write_list _ _ _ _ _ _ _ Hw Hs Hl) as (enc & Hp & Hv). exists enc. split; [|done].
  destruct fuel as [|fuel]; [lia|]. destruct buf as [|x buf]; [done|]. cbn [write_all].
  erewrite M_bind_Ok by (by rw /map_err Hp). cbn [length drop]. rw drop_all. by destruct fuel.
Qed.

Lemma read_exact_list t k n m ct tag fuel (st : SecureStream ListSocket) :
  (0 < fuel)%nat → m ≠ [] → length k = key_size t → length n = iv_size t →
  cipher_view (decode_cipher st) = (t, k, n) → mode_ok Decrypt (decode_cipher st) → recv_buf st = RVec [] ∨ recv_buf st = RByte [] →
  aead_seal t k (nonce_advance n) m = Some (ct, tag) → ls_in (socket st) = [ct ++ tag] →
  within (ls_max (socket st)) (ct ++ tag) = true →
  ∃ dec, read_exact fuel (length m) st =
      (Ok (Some m), mkSecure (mkListSocket (ls_max (socket st)) [] (ls_out (socket st))) dec (encode_cipher st) (nonce st) (recv_buf st)) ∧
    cipher_view dec = (t, k, nonce_advance n) ∧ mode_ok Decrypt dec.
Proof.
  intros Hf Hne Hk Hn Hv Hm Hrb Hs Hin Hl. destruct st as [[mx i o] dc ec nc rb]; simpl in *. subst i.
  destruct (decode_buffer_spec t k n m ct tag (mkSecure (mkListSocket mx [] o) dc ec nc rb) Hk Hn Hv Hm Hs)
    as (b & dec & Hd & Hb & Hcv & Hcm). exists dec. split; [|done].
  destruct fuel as [|fuel]; [lia|]. destruct m as [|x m]; [done|]. cbn [read_exact length].
  erewrite (M_bind_Ok _ _ _ (Ready (x :: m))); last first.
  { rw /poll_read. erewrite (M_bind_Ok _ _ _ []) by (by destruct Hrb as [-> | ->]). simpl.
    erewrite M_bind_Ok by (rw /on_socket; cbn [fr_poll_next ListFramed socket ls_in ls_max ls_out]; rw Hl; done). cbv beta iota.
    erewrite M_bind_Ok by (rw /map_err; by rw Hd). cbv beta iota zeta. rw /buf_len Hb.
    by rw bool_decide_eq_true_2. }
  cbv beta iota. rw Nat.sub_diag. erewrite (M_bind_Ok _ _ _ (Some [])) by by destruct fuel. cbn [fmap option_fmap option_map].
  by rw app_nil_r.
Qed.

(** The last stage: their nonce goes back, ours is checked. *)
Lemma finish_honest fuel c out inc mine theirs fout fin enc dec (s : ListSocket) :
  (0 < fuel)%nat → length mine = 16%nat → length theirs = 16%nat →
  length out = key_bytes c → length inc = key_bytes c →
  cipher_view enc = (c, cipher_key c out, zero_nonce c) → mode_ok Encrypt enc →
  cipher_view dec = (c, cipher_key c inc, zero_nonce c) → mode_ok Decrypt dec →
  nonce_frame c out theirs fout → nonce_frame c inc mine fin → ls_in s = [fin] → 32 ≤ ls_max s →
  ∃ st, into_stream (λ so, secure_new so dec enc mine)
      (write_all fuel theirs;; flush_all fuel;; verify_nonce_all fuel) s = (Ok (st, ()), socket st) ∧
    socket st = mkListSocket (ls_max s) [] (ls_out s ++ [fout]) ∧ established c out inc st.
Proof.
  intros Hf Hm Ht Ho Hi Hev Hem Hdv Hdm Hfo Hfi Hin Hmax.
  pose proof (nonce_frame_within _ _ _ _ _ Ho Ht Hfo Hmax) as Hlo.
  pose proof (nonce_frame_within _ _ _ _ _ Hi Hm Hfi Hmax) as Hli.
  destruct Hfo as (ct & tag & Hs & ->), Hfi as (ct' & tag' & Hs' & ->).
  set (st0 := secure_new s dec enc mine).
  destruct (write_all_list c (cipher_key c out) (zero_nonce c) theirs ct tag fuel st0) as (enc' & Hw & Hev' & Hem');
    [done|by intros ->| |done|done|].
  { split_and!; [by apply cipher_key_length|apply length_replicate|done|done]. }
  set (st1 := mkSecure _ _ enc' _ _) in Hw.
  destruct (read_exact_list c (cipher_key c inc) (zero_nonce c) mine ct' tag' fuel st1) as (dec' & Hr & Hdv' & Hdm');
    [done|by intros ->|by apply cipher_key_length|apply length_replicate|done|done| |done|done|done|].
  { rw /st1 /st0 /secure_new /=. destruct (is_in_place dec); auto. }
  eexists. split; [|split].
  - rw /into_stream. erewrite M_bind_Ok by exact Hw. erewrite M_bind_Ok by by destruct fuel; [lia|].
    rw /verify_nonce_all. erewrite M_bind_Ok; last first.
    { rw /map_err /verify_nonce. erewrite M_bind_Ok by done. rw bool_decide_eq_false_2; [|intros H; change (mine = []) in H; by subst mine].
      change (set_socket (socket st1) st1) with st1. cbn [nonce].
      erewrite M_bind_Ok by (rw /map_err; rw Hr; done). cbv beta iota zeta. change (nonce st1) with mine.
      rewrite -> Nat.min_id, bool_decide_eq_true_2 by done. done. }
    done.
  - done.
  - split; [|split_and!; simpl; try done].
    + split_and!; try done; [by apply cipher_key_length|by rw nonce_advance_length length_replicate].
    + rw /st1 /st0 /secure_new /=. by destruct (is_in_place dec).
    + apply drop_ge. lia.
Qed.

Lemma try_Ok {S A} (r : Res SecioError A) a (s : S) : r = Ok a → try r s = (Ok a, s).
Proof. by intros ->. Qed.

(** The frames of the handshake fit a codec's limit: the propositions, the
    exchanges, and a nonce with its tag. *)
Definition frames_fit (x y : Party) (exx exy : Exchange) (max : Z) : bool :=
  forallb (within max) [proposition x; proposition y; exchange_encode exx; exchange_encode exy] && (32 <=? max).

(** One side of an honest run: [long] is the stretched key. *)
Lemma handshake_side fuel x y ka c d skx exx sky exy m long fx fy :
  (0 < fuel)%nat → party_ok x → party_ok y → identity x ≠ identity y → ordering x y ≠ Eq →
  selects x y ka c d → contribution ka c x y skx exx → contribution ka c y x sky exy →
  agree ka skx (epubkey exy) = Ok m →
  stretch_key (hmac d m) (2 * key_bytes c) = Some long →
  nonce_frame c (half (ordering x y) c long) (rnd y) fx →
  nonce_frame c (half (ordering y x) c long) (rnd x) fy →
  frames_fit x y exx exy (max_frame_length (cfg x)) = true →
  ∃ st, handshake fuel (build x) (rnd x) (seed x) (cfg x)
      (wire [proposition y; exchange_encode exy; fy]) =
      (Ok (st, identity y, epubkey exx), socket st) ∧
    socket st = mkListSocket (max_frame_length (cfg x)) [] [proposition x; exchange_encode exx; fx] ∧
    established c (half (ordering x y) c long) (half (ordering y x) c long) st.
Proof.
  intros Hf Hx Hy Hne Ho Hsel Hcx Hcy Hag Hlong Hfx Hfy [Hfit Hmax%Z.leb_le]%andb_true_iff.
  cbn [forallb] in Hfit. rw !andb_true_iff in Hfit. destruct Hfit as (Hpx & Hpy & Hxx & Hxy & _).
  assert (length long = (2 * key_bytes c)%nat) as Hl.
  { destruct (stretch_key_total (hmac d m) (2 * key_bytes c)) as (r & Hr & ?); [apply hmac_nonempty|].
    rw Hlong in Hr. by injection Hr as <-. }
  destruct (generate_stream_honest (build x) c Encrypt (half (ordering x y) c long)) as (enc & Henc & Hev & Hem);
    [apply Hcx|by apply half_length|].
  destruct (generate_stream_honest (build x) c Decrypt (half (ordering y x) c long)) as (dec & Hdec & Hdv & Hdm);
    [apply Hcx|by apply half_length|].
  destruct (finish_honest fuel c (half (ordering x y) c long) (half (ordering y x) c long) (rnd x) (rnd y) fx fy enc dec
    (mkListSocket (max_frame_length (cfg x)) [fy] [proposition x; exchange_encode exx])) as (st & Hfin & Hso & Hest);
    [done|apply Hx|apply Hy|by apply half_length|by apply half_length|done..|].
  exists st. split; [|done]. rw /handshake. erewrite M_bind_Ok by done.
  erewrite M_bind_Ok by by apply send_frame_list. erewrite M_bind_Ok by by apply next_frame_list.
  erewrite M_bind_Ok by (apply try_Ok, with_remote_honest; done).
  erewrite M_bind_Ok by (apply try_Ok, (co_key _ _ _ _ _ _ Hcx)).
  cbn [fst snd]. erewrite M_bind_Ok by (apply try_Ok, (local_exchange_honest x y ka c d _ _ Hcx)).
  erewrite M_bind_Ok by by apply send_frame_list. erewrite M_bind_Ok by by apply next_frame_list.
  erewrite M_bind_Ok by (apply try_Ok; rw (exchange_roundtrip _ (co_wf _ _ _ _ _ _ Hcy)); done).
  erewrite M_bind_Ok by (apply try_Ok, (check_exchange_honest x y ka c d _ _ _ _ Hcy)).
  cbn [take_private_key with_ephemeral config state e_remote local_tmp_pub_key local_tmp_priv_key p_remote
    remote_of chosen_exchange chosen_cipher chosen_hash hashes_ordering r_nonce l_nonce local r_public_key
    p_local_tmp_pub_key].
  erewrite M_bind_Ok by (apply try_Ok, Hag).
  change (2 * (iv_size c + key_size c + 20))%nat with (2 * key_bytes c)%nat. rw Hlong.
  erewrite M_bind_Ok by done.
  erewrite M_bind_Ok by (apply try_Ok, (split_infos_honest _ c); done).
  rw -(ordering_opp x y). cbn [fst snd]. erewrite M_bind_Ok by (apply try_Ok, Henc).
  erewrite M_bind_Ok by (apply try_Ok, Hdec). erewrite M_bind_Ok by exact Hfin. done.
Qed.

Lemma frames_fit_sym x y exx exy m : frames_fit y x exy exx m = frames_fit x y exx exy m.
Proof.
  rw /frames_fit /=. by destruct (within m (proposition x)), (within m (proposition y)),
    (within m (exchange_encode exx)), (within m (exchange_encode exy)).
Qed.

(** Both sides of a handshake between honest parties; the keys are the halves of the
    expanded secret, each side's first one the other's second one. *)
Lemma handshake_pair (fuel : nat) (x y : Party) ka c d skx exx sky exy :
  (0 < fuel)%nat → party_ok x → party_ok y → identity x ≠ identity y → ordering x y ≠ Eq →
  selects x y ka c d → contribution ka c x y skx exx → contribution ka c y x sky exy →
  frames_fit x y exx exy (max_frame_length (cfg x)) = true → frames_fit x y exx exy (max_frame_length (cfg y)) = true →
  ∃ long fx fy stx sty, length long = (2 * key_bytes c)%nat ∧
    handshake fuel (build x) (rnd x) (seed x) (cfg x)
      (wire [proposition y; exchange_encode exy; fy]) =
      (Ok (stx, identity y, epubkey exx), mkListSocket (max_frame_length (cfg x)) [] [proposition x; exchange_encode exx; fx]) ∧
    handshake fuel (build y) (rnd y) (seed y) (cfg y)
      (wire [proposition x; exchange_encode exx; fx]) =
      (Ok (sty, identity x, epubkey exy), mkListSocket (max_frame_length (cfg y)) [] [proposition y; exchange_encode exy; fy]) ∧
    established c (half (ordering x y) c long) (half (ordering y x) c long) stx ∧
    established c (half (ordering y x) c long) (half (ordering x y) c long) sty ∧
    ls_max (socket stx) = max_frame_length (cfg x) ∧ ls_max (socket sty) = max_frame_length (cfg y).
Proof.
  intros Hf Hx Hy Hne Ho Hsel Hcx Hcy Hlx Hly.
  destruct (agree_sym _ _ _ _ _ _ _ (co_key _ _ _ _ _ _ Hcx) (co_key _ _ _ _ _ _ Hcy)) as (m & Hmx & Hmy).
  destruct (stretch_key_total (hmac d m) (2 * key_bytes c)) as (long & Hlong & Hl); [apply hmac_nonempty|].
  destruct (nonce_frame_exists c (half (ordering x y) c long) (rnd y)) as [fx Hfx]; [by apply half_length|apply Hy|].
  destruct (nonce_frame_exists c (half (ordering y x) c long) (rnd x)) as [fy Hfy]; [by apply half_length|apply Hx|].
  assert (ordering y x ≠ Eq) as Ho' by (rw (ordering_opp x y); by destruct (ordering x y)).
  edestruct (handshake_side fuel x y) as (stx & Hrx & Hsx & Hex); [done..|].
  edestruct (handshake_side fuel y x) as (sty & Hry & Hsy & Hey); [done|done|done|by apply not_eq_sym|done|
    by apply selects_sym|done..|by rw frames_fit_sym|].
  exists long, fx, fy, stx, sty. by rw Hrx Hry Hsx Hsy.
Qed.

(** C1. Two honest parties with a common algorithm of each sort, on a channel
    that delivers every frame, whose limits on frames leave room for those of the
    handshake, both finish the handshake: each gets the other's public key, and the two streams are the two ends of a connection, with the
    same cipher and each side's sending key and nonce equal to the other's
    receiving ones. Every wait takes a single poll. *)
Theorem handshake_agreement (fuel : nat) (x y : Party) ka c d skx exx sky exy :
  (0 < fuel)%nat → party_ok x → party_ok y → identity x ≠ identity y → ordering x y ≠ Eq →
  selects x y ka c d → contribution ka c x y skx exx → contribution ka c y x sky exy →
  frames_fit x y exx exy (max_frame_length (cfg x)) = true → frames_fit x y exx exy (max_frame_length (cfg y)) = true →
  ∃ fx fy kx ky stx sty,
    handshake fuel (build x) (rnd x) (seed x) (cfg x)
      (wire [proposition y; exchange_encode exy; fy]) =
      (Ok (stx, identity y, epubkey exx), mkListSocket (max_frame_length (cfg x)) [] [proposition x; exchange_encode exx; fx]) ∧
    handshake fuel (build y) (rnd y) (seed y) (cfg y)
      (wire [proposition x; exchange_encode exx; fx]) =
      (Ok (sty, identity x, epubkey exy), mkListSocket (max_frame_length (cfg y)) [] [proposition y; exchange_encode exy; fy]) ∧
    established c kx ky stx ∧ established c ky kx sty.
Proof.
  intros Hf Hx Hy Hne Ho Hsel Hcx Hcy Hlx Hly.
  destruct (handshake_pair fuel x y ka c d skx exx sky exy Hf Hx Hy Hne Ho Hsel Hcx Hcy Hlx Hly)
    as (long & fx & fy & stx & sty & _ & Hhx & Hhy & Hex & Hey & _).
  by exists fx, fy, (half (ordering x y) c long), (half (ordering y x) c long), stx, sty.
Qed.
End honest.

(** ** A handshake that succeeds *)

Section authentication.
Context {S K : Type} {FR : Framed S} {FL : FramedLaws S} {KP : KeyProvider K}.
Context {HC : HandshakeCrypto} {AE : Aead} {MN : MolNumber}.
Implicit Types s : S.

Lemma try_inv {T A} (r : Res SecioError A) (s s' : T) a : try r s = (Ok a, s') → r = Ok a ∧ s' = s.
Proof. destruct r; [intros [= -> ->]|..]; done. Qed.

Lemma send_frame_incoming fuel f s u s' : send_frame fuel f s = (Ok u, s') → fr_incoming s' = fr_incoming s.
Proof.
  rw /send_frame /map_err. destruct (frame_send fuel f s) as [[v|e|] s1] eqn:H; [|done..].
  intros [= -> ->]. by apply frame_send_incoming in H.
Qed.

Lemma next_frame_incoming fuel f s s' :
  next_frame fuel s = (Ok f, s') → fr_incoming s = f :: fr_incoming s'.
Proof.
  rw /next_frame. intros (p & s1 & H & Hp)%M_bind_inv. destruct p as [p|]; [|done]. injection Hp as -> ->.
  revert H. rw /map_err. destruct (frame_next fuel s) as [[v|e|] s2] eqn:H; [|done..].
  intros [= -> ->]. by apply frame_next_incoming in H.
Qed.

(** A read yields at most what there is room for. *)
Lemma poll_read_bound r (st st' : SecureStream S) d : poll_read r st = (Ok (Ready d), st') → (length d ≤ r)%nat.
Proof.
  rw /poll_read. intros (a & st1 & H1 & H)%M_bind_inv.
  destruct (drain_spec (E:=io.ErrorKind) r st) as (b & Hd & _). rw Hd in H1. injection H1 as <- <-.
  case: (bool_decide_reflect (0 < length (take r (buf_bytes (recv_buf st))))%nat) H => Hc.
  { intros [= <- <-]. rw length_take. lia. }
  intros (p & st2 & _ & H)%M_bind_inv. destruct p as [[[f|e]|]|]; try done.
  apply M_bind_inv in H as (dec & st3 & _ & H).
  case: (bool_decide_reflect (buf_len dec ≤ r)%nat) H => Hle; [by intros [= <- <-]|].
  intros (u & st4 & _ & H)%M_bind_inv. apply M_bind_inv in H as (x & st5 & H2 & [= <- <-]).
  destruct (drain_spec (E:=io.ErrorKind) r st4) as (b' & Hd' & _). rw Hd' in H2. injection H2 as <- <-.
  rw length_take. lia.
Qed.

Lemma read_exact_length fuel n (st st' : SecureStream S) r :
  read_exact fuel n st = (Ok (Some r), st') → length r = n.
Proof.
  revert n st r. induction fuel as [|fuel IH]; intros n st r.
  { by destruct n; [intros [= <- <-]|]. }
  destruct n as [|n]; [by intros [= <- <-]|]. cbn [read_exact].
  intros (p & st1 & Hp & H)%M_bind_inv. destruct p as [[|x d]|]; [done| |by apply IH in H].
  apply M_bind_inv in H as (rest & st2 & Hr & [= H <-]). destruct rest as [rest|]; [|done].
  injection H as <-. apply IH in Hr. apply poll_read_bound in Hp. cbn [length] in *. rw length_app. lia.
Qed.

(** Decryption of one frame by the cipher of the stream. *)
Definition open_frame (f : bytes) : M BoxStreamCipher SecioError bytes := λ c,
  if is_in_place c then decrypt_in_place f c else decrypt f c.

(** Starting with the frames [rest] to come, the decoder [dec] and an empty
    buffer, the stream has handed out [got]: it took some frames, opened them
    one after the other, and what it has not handed out is in its buffer. *)
Definition took (rest : list bytes) (dec : BoxStreamCipher) (got : bytes) (st : SecureStream S) : Prop :=
  ∃ fs ms, rest = fs ++ fr_incoming (socket st) ∧ mapM open_frame fs dec = (Ok ms, decode_cipher st) ∧
    concat ms = got ++ buf_bytes (recv_buf st).

Lemma mapM_snoc_M {T E A B} (f : A → M T E B) xs x (t : T) bs t1 b t2 :
  mapM f xs t = (Ok bs, t1) → f x t1 = (Ok b, t2) → mapM f (xs ++ [x]) t = (Ok (bs ++ [b]), t2).
Proof.
  revert t bs. induction xs as [|y xs IH]; intros t bs.
  - intros [= <- <-] Hx. cbn [app mapM]. by erewrite M_bind_Ok by exact Hx.
  - cbn [app mapM]. intros (c & t3 & Hy & H)%M_bind_inv Hx. apply M_bind_inv in H as (cs & t4 & Hs & [= <- <-]).
    erewrite M_bind_Ok by exact Hy. by erewrite M_bind_Ok by (by apply IH).
Qed.

Lemma decode_buffer_inv f (st st' : SecureStream S) d :
  decode_buffer f st = (Ok d, st') → open_frame f (decode_cipher st) = (Ok (buf_bytes d), decode_cipher st') ∧
    st' = set_decode (decode_cipher st') st.
Proof.
  rw /decode_buffer /open_frame. intros (c & st1 & [= <- <-] & H)%M_bind_inv.
  destruct (is_in_place (decode_cipher st)); apply M_bind_inv in H as (v & st2 & H & [= <- <-]); revert H; rw /on_decode.
  - destruct (decrypt_in_place f (decode_cipher st)) as [[] ?]; by intros [= -> <-].
  - destruct (decrypt f (decode_cipher st)) as [[] ?]; by intros [= -> <-].
Qed.

Lemma took_frame rest dec got f d (st st1 st2 : SecureStream S) :
  took rest dec got st → buf_bytes (recv_buf st) = [] → fr_incoming (socket st) = f :: fr_incoming (socket st1) →
  decode_cipher st1 = decode_cipher st → decode_buffer f st1 = (Ok d, st2) →
  ∀ rem b, buf_bytes d = rem ++ buf_bytes b → took rest dec (got ++ rem) (set_recv_buf b st2).
Proof.
  intros (fs & ms & -> & Hm & Hc) Hb Hi Hd [Ho Hs]%decode_buffer_inv rem b Hr.
  exists (fs ++ [f]), (ms ++ [buf_bytes d]). split_and!.
  - rw Hs /= Hi -app_assoc. done.
  - eapply mapM_snoc_M; [exact Hm|]. by rw -Hd Ho.
  - rw concat_app Hc Hb /= !app_nil_r Hr app_assoc. done.
Qed.

Lemma poll_read_took rest dec got n (st st' : SecureStream S) p :
  poll_read n st = (Ok p, st') → (0 < n)%nat → took rest dec got st →
  took rest dec (got ++ match p with Ready d => d | Pending => [] end) st' ∧ nonce st' = nonce st.
Proof.
  rw /poll_read. intros (a & st1 & H1 & H)%M_bind_inv Hn Ht.
  destruct (drain_spec (E:=io.ErrorKind) n st) as (b & Hd & Hb). rw Hd in H1. injection H1 as <- <-.
  case: (bool_decide_reflect (0 < length (take n (buf_bytes (recv_buf st))))%nat) H => Hc.
  { intros [= <- <-]. split; [|done]. destruct Ht as (fs & ms & -> & Hm & Hcc). exists fs, ms. split_and!; [done..|].
    rw Hcc /= Hb -app_assoc. by rw take_drop. }
  assert (buf_bytes (recv_buf st) = []) as He by (apply nil_length_inv; rw length_take in Hc; lia).
  assert (buf_bytes b = []) as He' by (by rw Hb He drop_nil).
  intros (q & st2 & H2 & H)%M_bind_inv. revert H2. rw /on_socket.
  destruct (fr_poll_next (socket (set_recv_buf b st))) as [q' s2] eqn:Hq. intros [= -> <-].
  destruct q as [[[f|e]|]|]; try done.
  - apply fr_next_frame in Hq as [Hq _]. apply M_bind_inv in H as (d & st3 & H3 & H).
    revert H3. rw /map_err. destruct (decode_buffer f _) as [[] st4] eqn:H3; [intros [= -> ->]|done..].
    pose proof (took_frame rest dec got f d st (set_socket s2 (set_recv_buf b st)) st3 Ht He Hq eq_refl H3) as Htk. apply decode_buffer_inv in H3 as [_ H3].
    case: (bool_decide_reflect (buf_len d ≤ n)%nat) H => Hle.
    { intros [= <- <-]. split; [|by rw H3]. specialize (Htk (buf_bytes d) b). rw He' app_nil_r in Htk.
      specialize (Htk eq_refl). by rw H3 in Htk *. }
    intros (u & st5 & [= _ <-] & H)%M_bind_inv. apply M_bind_inv in H as (x & st6 & H4 & [= <- <-]).
    destruct (drain_spec (E:=io.ErrorKind) n (set_recv_buf d st3)) as (b' & Hd' & Hb'). rw Hd' in H4. injection H4 as <- <-.
    split; [|by rw H3]. apply (Htk _ b'). by rw Hb' take_drop.
  - injection H as <- <-. split; [|done]. rw app_nil_r. apply fr_next_other in Hq as [Hq _]; [|done].
    destruct Ht as (fs & ms & -> & Hm & Hcc). exists fs, ms. rw /= Hq. split_and!; [done..|]. by rw Hcc He He'.
Qed.

Lemma read_exact_took rest dec fuel n got (st st' : SecureStream S) r :
  read_exact fuel n st = (Ok (Some r), st') → took rest dec got st → took rest dec (got ++ r) st' ∧ nonce st' = nonce st.
Proof.
  revert n got st r. induction fuel as [|fuel IH]; intros n got st r.
  { destruct n; [|done]. intros [= <- <-]. by rw app_nil_r. }
  destruct n as [|n]; [intros [= <- <-]; by rw app_nil_r|]. cbn [read_exact].
  intros (p & st1 & Hp & H)%M_bind_inv Ht. apply (poll_read_took rest dec got) in Hp as [Hp Hn]; [|lia|done].
  destruct p as [[|x d]|]; [done| |rw app_nil_r in Hp; rw -Hn; by apply (IH (Datatypes.S n) got)].
  apply M_bind_inv in H as (more & st2 & Hr & [= H <-]). destruct more as [more|]; [|done].
  injection H as <-. destruct (IH _ _ _ _ Hr Hp) as [H1 H2]. rw -app_assoc in H1. by rw H2 Hn.
Qed.

Lemma verify_nonce_inv rest dec fuel (st st' : SecureStream S) u :
  verify_nonce_all fuel st = (Ok u, st') → nonce st ≠ [] → took rest dec [] st →
  took rest dec (nonce st) st' ∧ nonce st' = [].
Proof.
  rw /verify_nonce_all. intros (r & st1 & H & Hr)%M_bind_inv Hne Ht. destruct r; [|done]. injection Hr as _ <-.
  revert H. rw /map_err. destruct (verify_nonce fuel st) as [[v|e|] st2] eqn:Hv; [|done..].
  intros [= -> ->]. revert Hv. rw /verify_nonce. intros (m & st3 & [= <- <-] & H)%M_bind_inv.
  case: (bool_decide_reflect (nonce st = [])) H => Hm; [done|].
  intros (got & st4 & Hg & H)%M_bind_inv. destruct got as [got|]; [|done].
  revert Hg. rw /map_err. destruct (read_exact _ _ _) as [[g|e|] st5] eqn:Hx; [|done..]. intros [= -> ->].
  pose proof (read_exact_length _ _ _ _ _ Hx) as Hl. rw Hl Nat.min_id in H.
  rw take_ge in H; [|lia]. rw firstn_all in H. case: (bool_decide_reflect (got = nonce st)) H => Hq; [|done].
  intros (w & st6 & [= <- <-] & [= <- <-])%M_bind_inv. subst got.
  apply (read_exact_took rest dec _ _ []) in Hx as [Hx _]; [|done]. by rw drop_all.
Qed.

Lemma decoded_inv {A} (r : VR (option A)) a : decoded r = Ok a → r = Ok (Some a).
Proof. destruct r as [[]| |]; [intros [= ->]|..]; done. Qed.

Lemma with_remote_inv p (ctx : HandshakeContext K Local) rctx :
  with_remote p ctx = Ok rctx →
  ∃ prop, propose_decode p = Ok (Some prop) ∧
    public_key_decode (pr_pubkey prop) = Ok (Some (r_public_key (state rctx))) ∧
    r_public_key (state rctx) ≠ l_public_key (state ctx) ∧ config rctx = config ctx ∧
    local (state rctx) = state ctx ∧ r_proposition_bytes (state rctx) = p.
Proof.
  rw /with_remote. intros (prop & Hp%decoded_inv & H)%Res_bind_Ok.
  apply Res_bind_Ok in H as (pk & Hk%decoded_inv & H). revert H. case_bool_decide as Hne; [done|].
  intros (a & _ & H)%Res_bind_Ok. apply Res_bind_Ok in H as (c & _ & H). apply Res_bind_Ok in H as (d & _ & H).
  injection H as <-. exists prop. split_and!; done.
Qed.

(** Writing and flushing leave alone what has to do with reading. *)
Definition unread_by (rest : list bytes) (dec : BoxStreamCipher) (mine : bytes) (b : RecvBuf) (st : SecureStream S) : Prop :=
  fr_incoming (socket st) = rest ∧ decode_cipher st = dec ∧ nonce st = mine ∧ recv_buf st = b.

Lemma on_socket_unread {E A} rest dec mine b (f : S → A * S) :
  (∀ s, fr_incoming (f s).2 = fr_incoming s) →
  preserves (unread_by rest dec mine b) (on_socket f : M (SecureStream S) E A).
Proof.
  intros Hf st (H1 & H2 & H3 & H4). rw /on_socket. specialize (Hf (socket st)). destruct (f (socket st)) as [a s].
  split_and!; simpl in *; congruence.
Qed.

Lemma encode_buffer_unread {E} rest dec mine b buf :
  preserves (unread_by rest dec mine b) (encode_buffer buf : M (SecureStream S) E bytes).
Proof. intros st Hst. rw /encode_buffer. by destruct (encrypt buf (encode_cipher st)) as [[] ?]. Qed.

Lemma start_send_incoming f s : fr_incoming (fr_start_send f s).2 = fr_incoming s.
Proof.
  destruct (fr_start_send f s) as [[[]|e] s'] eqn:H; [by apply fr_send_frame in H as [_ ?]|by apply fr_send_fail in H as [_ ?]].
Qed.

Lemma on_ready_unread {E} rest dec mine b : preserves (unread_by rest dec mine b) (on_socket fr_poll_ready : M (SecureStream S) E _).
Proof. apply on_socket_unread. intros s. apply fr_ready_same. Qed.
Lemma on_flush_unread {E} rest dec mine b : preserves (unread_by rest dec mine b) (on_socket fr_poll_flush : M (SecureStream S) E _).
Proof. apply on_socket_unread. intros s. apply fr_flush_same. Qed.
Lemma on_send_unread {E} rest dec mine b f : preserves (unread_by rest dec mine b) (on_socket (fr_start_send f) : M (SecureStream S) E _).
Proof. apply on_socket_unread. apply start_send_incoming. Qed.

#[local] Hint Resolve on_ready_unread on_flush_unread on_send_unread encode_buffer_unread : preserves.

Lemma write_all_unread rest dec mine b fuel buf :
  preserves (unread_by rest dec mine b) (write_all fuel buf : M (SecureStream S) _ _).
Proof.
  revert buf. induction fuel as [|fuel IH]; intros [|x buf]; cbn [write_all]; rw /poll_write; preserves; apply IH.
Qed.

Lemma flush_all_unread rest dec mine b fuel :
  preserves (unread_by rest dec mine b) (flush_all fuel : M (SecureStream S) _ _).
Proof. induction fuel as [|fuel IH]; cbn [flush_all]; rw /poll_flush /forward; preserves; apply IH. Qed.

Lemma into_stream_inv (mk : S → SecureStream S) (m : M (SecureStream S) (Stop SecioError) unit) s st u s' :
  into_stream mk m s = (Ok (st, u), s') → m (mk s) = (Ok u, st) ∧ s' = socket st.
Proof. rw /into_stream. destruct (m (mk s)) as [[]?]; [intros [= -> -> ->]|..]; done. Qed.

Lemma finish_took fuel theirs mine s dec enc (st : SecureStream S) u :
  mine ≠ [] →
  (write_all fuel theirs;; flush_all fuel;; verify_nonce_all fuel) (secure_new s dec enc mine) = (Ok u, st) →
  took (fr_incoming s) dec mine st ∧ nonce st = [].
Proof.
  intros Hne (u1 & st1 & H1 & H)%M_bind_inv. apply M_bind_inv in H as (u2 & st2 & H2 & H3).
  set (b := recv_buf (secure_new s dec enc mine)).
  pose proof (write_all_unread (fr_incoming s) dec mine b fuel theirs (secure_new s dec enc mine)) as Hw.
  rw H1 /= in Hw. specialize (Hw (conj eq_refl (conj eq_refl (conj eq_refl eq_refl)))).
  pose proof (flush_all_unread (fr_incoming s) dec mine b fuel st1 Hw) as (Hi & Hd & Hn & Hb). rw H2 /= in Hi Hd Hn Hb.
  apply (verify_nonce_inv (fr_incoming s) dec) in H3; [by rw Hn in H3|by rw Hn|].
  exists [], []. rw Hi Hd Hb. split_and!; [done..|]. rw /b /=. by destruct (is_in_place dec).
Qed.

(** C2. Whatever the socket delivers, a handshake that succeeds has
    authenticated its peer. The first frame it received is a proposition with
    the public key it returns, which is not our own; the second is an exchange
    whose signature, under that key, covers both propositions and the ephemeral
    key; the agreement with that ephemeral key gave a secret. And the peer holds
    that secret's key: some of the frames that followed open, one after the
    other, under the decoder made from the peer's half of the stretched secret,
    and they begin with our nonce; what came after it is what the stream holds
    for its reader. *)
Theorem handshake_authenticates (fuel : nat) (bu : Build) (mine : bytes) (sd : Seed) (cf : Config K)
    (s s' : S) st pk epk :
  mine ≠ [] → handshake fuel bu mine sd cf s = (Ok (st, pk, epk), s') →
  ∃ p e fs prop ex sk rctx secret long infos dec ms,
    let r := state rctx in
    let c := chosen_cipher r in
    fr_incoming s = p :: e :: fs ++ fr_incoming s' ∧
    propose_decode p = Ok (Some prop) ∧ public_key_decode (pr_pubkey prop) = Ok (Some pk) ∧
    pk ≠ mkPublicKey (pubkey (key_provider cf)) ∧
    exchange_decode e = Ok (Some ex) ∧
    verify_ecdsa (key_provider cf) (key pk)
      (sha256 (p ++ l_proposition_bytes (state (with_local mine (context_new cf))) ++ epubkey ex))
      (signature ex) = true ∧
    with_remote p (with_local mine (context_new cf)) = Ok rctx ∧
    generate_agreement (chosen_exchange r) sd = Ok (sk, epk) ∧
    agree (chosen_exchange r) sk (epubkey ex) = Ok secret ∧
    stretch_key (hmac (chosen_hash r) secret) (2 * (iv_size c + key_size c + 20)) = Some long ∧
    split_infos (hashes_ordering r) long = Ok infos ∧
    generate_stream_cipher_and_hmac bu c Decrypt infos.2 (key_size c) (iv_size c) = Ok dec ∧
    mapM open_frame fs dec = (Ok ms, decode_cipher st) ∧
    concat ms = mine ++ buf_bytes (recv_buf st) ∧ nonce st = [].
Proof.
  intros Hne. rw /handshake. intros (u0 & s0 & [= _ <-] & H)%M_bind_inv.
  apply M_bind_inv in H as (u1 & s1 & H1%send_frame_incoming & H). rw (proj1 (fr_limit_same _ _)) in H1.
  apply M_bind_inv in H as (p & s2 & H2%next_frame_incoming & H).
  apply M_bind_inv in H as (rctx & s3 & [Hrem ->]%try_inv & H).
  apply M_bind_inv in H as ([sk ek] & s4 & [Hgen ->]%try_inv & H). cbn [fst snd] in H.
  apply M_bind_inv in H as (lex & s5 & [Hlex ->]%try_inv & H).
  apply M_bind_inv in H as (u2 & s6 & H3%send_frame_incoming & H).
  apply M_bind_inv in H as (e & s7 & H4%next_frame_incoming & H).
  apply M_bind_inv in H as (ex & s8 & [Hex%decoded_inv ->]%try_inv & H).
  apply M_bind_inv in H as (u3 & s9 & [Hchk ->]%try_inv & H). cbn [take_private_key with_ephemeral state config
    e_remote local_tmp_priv_key local_tmp_pub_key p_remote p_local_tmp_pub_key] in H.
  apply M_bind_inv in H as (secret & s10 & [Hag ->]%try_inv & H).
  apply M_bind_inv in H as (long & s11 & Hlong & H).
  destruct (stretch_key _ _) as [long'|] eqn:Hst; [injection Hlong as -> ->|done].
  apply M_bind_inv in H as (infos & s12 & [Hsp ->]%try_inv & H).
  apply M_bind_inv in H as (enc & s13 & [Henc ->]%try_inv & H). apply M_bind_inv in H as (dec & s14 & [Hdec ->]%try_inv & H).
  apply M_bind_inv in H as ([st1 u4] & s15 & Hfin & [= -> <- <- <-]).
  destruct (with_remote_inv _ _ _ Hrem) as (prop & Hp & Hpk & Hself & Hcf & Hloc & Hrp).
  rw Hloc in Hfin. apply into_stream_inv in Hfin as [Hfin ->].
  apply finish_took in Hfin as [(fs & ms & Hfs & Hms & Hcat) Hnonce]; [|done].
  revert Hchk. rw /check_exchange /= Hrp Hloc Hcf. destruct (verify_ecdsa _ _ _ _) eqn:Hver; [|done]. intros _.
  exists p, e, fs, prop, ex, sk, rctx, secret, long, infos, dec, ms. split_and!; try done.
  rw -H1 H2 -H3 H4. by do 2 f_equal.
Qed.
End authentication.

(** ** Concrete parties *)

#[local] Instance DemoCrypto : HandshakeCrypto := {|
  sha256 m := m;
  hmac d k m := replicate 32 (Z_byte (be_Z k + length m));
  EphemeralPrivateKey := bytes;
  Seed := bytes;
  generate_agreement a seed := Ok (seed, seed);
  agree a sk pk := Ok [Z_byte (be_Z sk + be_Z pk)];
|}.
#[local] Instance DemoCryptoLaws : HandshakeCryptoLaws.
Proof.
  split; [done|]. intros a s1 s2 k1 p1 k2 p2 [= -> ->] [= -> ->]. exists [Z_byte (be_Z p1 + be_Z p2)].
  split; [done|]. simpl. by rw Z.add_comm.
Qed.

#[local] Instance DemoProvider : KeyProvider bytes := {|
  sign_ecdsa k m := Ok (k ++ m);
  pubkey k := k;
  verify_ecdsa _ pk m s := bool_decide (s = pk ++ m);
|}.
#[local] Instance DemoProviderLaws : KeyProviderLaws bytes.
Proof. split. intros k k' m s [= <-]. by apply bool_decide_eq_true. Qed.

Definition alice : Party :=
  mkParty (config_new (str "alice")) UnixOssl110 (replicate 16 (Z_byte 1)) (str "a").
Definition bob : Party :=
  mkParty (config_ciphers [ChaCha20Poly1305] (config_new (str "bob"))) WasmTarget
    (replicate 16 (Z_byte 2)) (str "b").
Definition exchange_of (x y : Party) : Exchange :=
  mkExchange (seed x) (key_provider (cfg x) ++ (proposition x ++ proposition y ++ seed x)).

Lemma handshake_agreement_witness :
  ∃ fx fy kx ky stx sty,
    handshake 1 (build alice) (rnd alice) (seed alice) (cfg alice)
      (wire [proposition bob; exchange_encode (exchange_of bob alice); fy]) =
      (Ok (stx, identity bob, str "a"),
       mkListSocket (max_frame_length (cfg alice)) [] [proposition alice; exchange_encode (exchange_of alice bob); fx]) ∧
    handshake 1 (build bob) (rnd bob) (seed bob) (cfg bob)
      (wire [proposition alice; exchange_encode (exchange_of alice bob); fx]) =
      (Ok (sty, identity alice, str "b"),
       mkListSocket (max_frame_length (cfg bob)) [] [proposition bob; exchange_encode (exchange_of bob alice); fy]) ∧
    established ChaCha20Poly1305 kx ky stx ∧ established ChaCha20Poly1305 ky kx sty.
Proof.
  apply (handshake_agreement 1 alice bob EcdhP256 ChaCha20Poly1305 Sha256 (str "a") (exchange_of alice bob)
    (str "b") (exchange_of bob alice)).
  - lia.
  - split; [reflexivity|split; [vm_compute; reflexivity|split_and!; vm_compute; reflexivity]].
  - split; [reflexivity|split; [vm_compute; reflexivity|split_and!; vm_compute; reflexivity]].
  - vm_compute; congruence.
  - vm_compute; congruence.
  - split_and!; vm_compute; reflexivity.
  - split; vm_compute; reflexivity.
  - split; vm_compute; reflexivity.
  - vm_compute; reflexivity.
  - vm_compute; reflexivity.
Defined.

(** The frame in which [bob] sends [alice]'s nonce back. *)
Definition echo_frame : bytes :=
  rnd alice ++ take 16 (nonce_advance (replicate 12 (Z_byte 0)) ++
    take 32 (drop 12 (replicate 52 (Z_byte (be_Z [Z_byte (97 + 98)] + length (hmac Sha256 [] [] ++ KEY_EXPANSION)))))).
Definition alice_socket : ListSocket :=
  wire [proposition bob; exchange_encode (exchange_of bob alice); echo_frame].
Definition alice_run : Res (Stop SecioError) (SecureStream ListSocket * PublicKey * bytes) * ListSocket :=
  handshake 1 (build alice) (rnd alice) (seed alice) (cfg alice) alice_socket.
Definition alice_stream : SecureStream ListSocket :=
  match alice_run.1 with Ok (st, _, _) => st | _ => secure_new alice_socket (demo_cipher Decrypt) (demo_cipher Encrypt) [] end.

Lemma handshake_authenticates_witness :
  ∃ p e fs prop ex sk rctx secret long infos dec ms,
    let r := state rctx in
    let c := chosen_cipher r in
    fr_incoming alice_socket = p :: e :: fs ++ [] ∧
    propose_decode p = Ok (Some prop) ∧ public_key_decode (pr_pubkey prop) = Ok (Some (identity bob)) ∧
    identity bob ≠ mkPublicKey (pubkey (key_provider (cfg alice))) ∧
    exchange_decode e = Ok (Some ex) ∧
    verify_ecdsa (key_provider (cfg alice)) (key (identity bob))
      (sha256 (p ++ l_proposition_bytes (state (with_local (rnd alice) (context_new (cfg alice)))) ++ epubkey ex))
      (signature ex) = true ∧
    with_remote p (with_local (rnd alice) (context_new (cfg alice))) = Ok rctx ∧
    generate_agreement (chosen_exchange r) (seed alice) = Ok (sk, str "a") ∧
    agree (chosen_exchange r) sk (epubkey ex) = Ok secret ∧
    stretch_key (hmac (chosen_hash r) secret) (2 * (iv_size c + key_size c + 20)) = Some long ∧
    split_infos (hashes_ordering r) long = Ok infos ∧
    generate_stream_cipher_and_hmac (build alice) c Decrypt infos.2 (key_size c) (iv_size c) = Ok dec ∧
    mapM open_frame fs dec = (Ok ms, decode_cipher alice_stream) ∧
    concat ms = rnd alice ++ buf_bytes (recv_buf alice_stream) ∧ nonce alice_stream = [].
Proof.
  refine (handshake_authenticates 1 (build alice) (rnd alice) (seed alice) (cfg alice) alice_socket
    (mkListSocket MAX_FRAME_SIZE [] (ls_out alice_run.2)) alice_stream (identity bob) (str "a") _ _); [done|].
  vm_compute. reflexivity.
Defined.

Lemma stretch_key_fills_witness :
  ∃ kn km, stretch_key (hmac Sha256 (str "k")) 40 = Some kn ∧ stretch_key (hmac Sha256 (str "k")) 104 = Some km ∧
    length kn = 40%nat ∧ length km = 104%nat ∧ kn = take 40 km.
Proof. apply (stretch_key_fills (hmac Sha256 (str "k")) 40 104); [done|lia]. Defined.
