(* ===== verification/ProtocolSelect.v ===== *)
(** * Protocol selection on a fresh substream

    [tentacle/src/protocol_select/mod.rs] with the generated readers and
    builders of [protocol_select_mol.rs]: the [ProtocolInfo] message, the choice
    of a version, and the two sides' exchange over a framed substream. *)
From Stdlib Require Import Sorting.Sorted.
From stdpp Require Import sorting.
From S2P Require Import Prelude Text Framed Molecule MoleculeFacts SecioMessages.

Record ProtocolInfo := mkProtocolInfo { name : bytes; support_versions : list bytes }.

(** ** The message *)

Section message.
Context `{!MolNumber}.

Definition string_vec_reader_verify : Verifier := dynvec_verify string_reader_verify.
Definition protocol_info_reader_verify : Verifier := table_verify [string_reader_verify; string_vec_reader_verify].

Definition protocol_info_encode (p : ProtocolInfo) : bytes :=
  table_write [fixvec_write (name p); dynvec_write (fixvec_write <$> support_versions p)].

(** The loop over the versions: the texts so far are valid. *)
Fixpoint decode_versions {A} (items : list bytes) (k : list bytes → VR (option A)) : VR (option A) :=
  match items with
  | [] => k []
  | item :: items =>
      v ← fixvec_raw_data item;
      utf8_or_none v (λ v, decode_versions items (λ vs, k (v :: vs)))
  end.

Definition protocol_info_decode (data : bytes) : VR (option ProtocolInfo) :=
  decode_with protocol_info_reader_verify data (λ reader,
    versions ← table_field 2 1 reader;
    items ← dynvec_items versions;
    decode_versions items (λ supports,
    name ← field_data 2 0 reader;
    utf8_or_none name (λ name, Ok (Some (mkProtocolInfo name supports))))).
End message.

(** ** Choosing a version *)

Section version.
Context {T : Type} (cmp : T → T → comparison).

(** The loop of [select_version], on the reversed slices. *)
Fixpoint version_loop (local : list T) : list T → option T :=
  fix go (remote : list T) : option T :=
    match local, remote with
    | l :: local', r :: remote' =>
        match cmp l r with
        | Lt => go remote'
        | Gt => version_loop local' remote
        | Eq => Some l
        end
    | _, _ => None
    end.

Definition select_version (local remote : list T) : option T := version_loop (rev local) (rev remote).
End version.

(** [SelectFn<String>]. *)
Definition SelectFn : Type := list bytes → list bytes → option bytes.

(** ** The exchange *)

Section select.
Context {S : Type} `{!Framed S} `{!MolNumber}.

(** [match raw_remote_info.transpose()? { Some(info) => decode.., None => eof }]. *)
Definition recv_info (fuel : nat) : M S (Stop io.ErrorKind) ProtocolInfo :=
  raw ← frame_next fuel;
  match raw with
  | Some info =>
      match protocol_info_decode info with
      | Ok (Some p) => mret p
      | Ok None => throw (Failed io.InvalidData)
      | Err _ | Panic => panic
      end
  | None => throw (Failed io.UnexpectedEof)
  end.

Definition client_select (fuel : nat) (proto_info : ProtocolInfo) : M S (Stop io.ErrorKind) (bytes * option bytes) :=
  modify (fr_limit default_max_frame_length);;
  frame_send fuel (protocol_info_encode proto_info);;
  remote_info ← recv_info fuel;
  mret (name remote_info, last (support_versions remote_info)).

(** The version that the server chooses. *)
Definition server_version (proto_infos : gmap bytes (ProtocolInfo * option SelectFn)) (remote_info : ProtocolInfo)
    : option bytes :=
  x ← proto_infos !! name remote_info;
  let '(local_info, select) := x in
  match select with
  | Some f => f (support_versions local_info) (support_versions remote_info)
  | None => select_version bytes_cmp (support_versions local_info) (support_versions remote_info)
  end.

Definition server_select (fuel : nat) (proto_infos : gmap bytes (ProtocolInfo * option SelectFn))
    : M S (Stop io.ErrorKind) (bytes * option bytes) :=
  modify (fr_limit default_max_frame_length);;
  remote_info ← recv_info fuel;
  let version := server_version proto_infos remote_info in
  frame_send fuel (protocol_info_encode (mkProtocolInfo (name remote_info) (option_list version)));;
  mret (name remote_info, version).
End select.

(** ** Facts: the message *)

Section facts.
Context {MN : MolNumber} {ML : MolNumberLaws}.

Definition protocol_info_wf (p : ProtocolInfo) : Prop :=
  length (protocol_info_encode p) < 2 ^ 32 ∧ utf8_valid (name p) = true ∧
  Forall (λ v, utf8_valid v = true) (support_versions p).

Lemma decode_versions_write {A} vs (k : list bytes → VR (option A)) :
  Forall (λ v, utf8_valid v = true) vs → decode_versions (fixvec_write <$> vs) k = k vs.
Proof.
  intros H. revert k. induction H as [|v vs Hv _ IH]; intros k; [done|]. cbn [fmap list_fmap decode_versions].
  rw fixvec_read_write. cbn [mbind Res_bind]. by rw /utf8_or_none Hv IH.
Qed.

Lemma decode_versions_total {A} items (k : list bytes → VR (option A)) :
  Forall (λ x, fixvec_verify x true = Ok ()) items → (∀ vs, ∃ o, k vs = Ok o) → ∃ o, decode_versions items k = Ok o.
Proof.
  intros H. revert k. induction H as [|x items [v Hv]%fixvec_verified _ IH]; intros k Hk; [apply Hk|].
  cbn [decode_versions]. rw Hv. cbn [mbind Res_bind]. rw /utf8_or_none. case_match; [|eauto]. apply IH. eauto.
Qed.

(** The parts of a message that fits also fit. *)
Lemma protocol_info_parts p :
  length (protocol_info_encode p) < 2 ^ 32 →
  length (name p) < 2 ^ 32 ∧ length (dynvec_write (fixvec_write <$> support_versions p)) < 2 ^ 32 ∧
  Forall (λ v, length v < 2 ^ 32) (support_versions p).
Proof.
  rw /protocol_info_encode table_write_length /= app_nil_r length_app /fixvec_write length_app -/fixvec_write. intros Hl.
  assert (length (dynvec_write (fixvec_write <$> support_versions p)) < 2 ^ 32) as Hd by lia.
  split_and!; [lia|done|]. destruct (decide (support_versions p = [])) as [->|Hne]; [done|].
  apply table_items_fit. rw dynvec_write_nonempty // in Hd. by destruct (support_versions p).
Qed.

Lemma protocol_info_roundtrip p :
  protocol_info_wf p → protocol_info_decode (protocol_info_encode p) = Ok (Some p).
Proof.
  intros (Hl & Hn & Hv). destruct (protocol_info_parts p Hl) as (Hln & Hld & Hlv).
  destruct (dynvec_roundtrip string_reader_verify (fixvec_write <$> support_versions p) true) as [Hdv Hdi];
    [done|apply Forall_fmap; eapply Forall_impl; [exact Hlv|]; intros v Hlen; by apply fixvec_verify_write|].
  rw /protocol_info_decode /decode_with {1}/protocol_info_encode /protocol_info_reader_verify.
  rw table_verify_write //; [|repeat constructor; [by apply fixvec_verify_write|done]].
  rw /field_data /protocol_info_encode. rw (table_read_write [fixvec_write (name p); _] 1 _ Hl eq_refl).
  cbn [mbind Res_bind]. rw Hdi. cbn [mbind Res_bind]. rw decode_versions_write //.
  rw (table_read_write [fixvec_write (name p); _] 0 _ Hl eq_refl). cbn [mbind Res_bind].
  rw fixvec_read_write. cbn [mbind Res_bind]. rw /utf8_or_none Hn. by destruct p.
Qed.

Lemma protocol_info_decode_total data : ∃ o, protocol_info_decode data = Ok o.
Proof.
  apply decode_with_total.
  { apply table_no_panic. intros f x [-> | [-> | []%elem_of_nil]%elem_of_cons]%elem_of_cons;
      [apply fixvec_no_panic|]. apply dynvec_no_panic. intros y. apply fixvec_no_panic. }
  intros Hv. destruct (table_verified _ _ _ 0%nat _ Hv eq_refl) as (n & Hn & [d Hd]%fixvec_verified).
  destruct (table_verified _ _ _ 1%nat _ Hv eq_refl) as (v & Hvv & (items & Hi & Hall)%dynvec_verified).
  cbn beta. change (length [string_reader_verify; string_vec_reader_verify]) with 2%nat in *.
  rw Hvv. cbn [mbind Res_bind]. rw Hi. cbn [mbind Res_bind]. apply decode_versions_total; [done|].
  intros vs. rw /field_data Hn. cbn [mbind Res_bind]. rw Hd. cbn [mbind Res_bind]. rw /utf8_or_none. case_match; eauto.
Qed.
End facts.

(** ** Facts: the version *)

(** What [Ord] promises. *)
Class TotalOrder {T} (cmp : T → T → comparison) : Prop := {
  cmp_eq x y : cmp x y = Eq ↔ x = y;
  cmp_opp x y : cmp y x = CompOpp (cmp x y);
  cmp_trans x y z : cmp x y = Lt → cmp y z = Lt → cmp x z = Lt;
}.

#[global] Instance bytes_total_order : TotalOrder bytes_cmp.
Proof. split; [apply bytes_cmp_eq|intros; apply bytes_cmp_opp|apply bytes_cmp_trans]. Qed.

Section version_facts.
Context {T : Type} (cmp : T → T → comparison) `{!TotalOrder cmp}.

(** [v] is the highest element that the two have in common. *)
Definition highest_common (local remote : list T) (v : T) : Prop :=
  v ∈ local ∧ v ∈ remote ∧ ∀ w, w ∈ local → w ∈ remote → cmp w v ≠ Gt.

Definition descending (l : list T) : Prop := StronglySorted (λ a b, cmp b a ≠ Gt) l.

(** An element above the head of a descending list is not in it. *)
Lemma descending_above l x y : descending (x :: l) → cmp x y = Lt → y ∉ x :: l.
Proof.
  intros Hd Hxy [-> | Hin]%elem_of_cons.
  - assert (cmp x x = Eq) by by apply cmp_eq. congruence.
  - apply StronglySorted_inv in Hd as [_ Hf]. eapply Forall_forall in Hf; [|exact Hin].
    simpl in Hf. by rw (cmp_opp x y) Hxy in Hf.
Qed.

Lemma version_loop_spec l r :
  descending l → descending r →
  match version_loop cmp l r with
  | Some v => highest_common l r v
  | None => ∀ w, w ∈ l → w ∉ r
  end.
Proof.
  revert r. induction l as [|x l IHl]; intros r Hl; [by destruct r; intros _ w []%elem_of_nil|].
  induction r as [|y r IHr]; intros Hr; [by intros w _ []%elem_of_nil|].
  pose proof (StronglySorted_inv Hl) as [Hl' Hlx]. pose proof (StronglySorted_inv Hr) as [Hr' _].
  change (version_loop cmp (x :: l) (y :: r)) with
    (match cmp x y with Lt => version_loop cmp (x :: l) r | Gt => version_loop cmp l (y :: r) | Eq => Some x end).
  destruct (cmp x y) eqn:Hc.
  - apply cmp_eq in Hc as <-. split_and!; [by left..|]. intros w [-> | Hw]%elem_of_cons _.
    + by rw (proj2 (cmp_eq x x) eq_refl).
    + eapply Forall_forall in Hlx; [|exact Hw]. done.
  - pose proof (descending_above _ _ _ Hl Hc) as Hy. specialize (IHr Hr').
    destruct (version_loop cmp (x :: l) r) as [v|].
    + destruct IHr as (H1 & H2 & H3). split_and!; [done|by right|].
      intros w Hw [-> | Hw']%elem_of_cons; [done|by apply H3].
    + intros w Hw [-> | Hw']%elem_of_cons; [done|by eapply IHr].
  - assert (cmp y x = Lt) as Hc' by by rw (cmp_opp x y) Hc.
    pose proof (descending_above _ _ _ Hr Hc') as Hx. specialize (IHl (y :: r) Hl' Hr).
    destruct (version_loop cmp l (y :: r)) as [v|].
    + destruct IHl as (H1 & H2 & H3). split_and!; [by right|done|].
      intros w [-> | Hw]%elem_of_cons Hw'; [done|by apply H3].
    + intros w [-> | Hw]%elem_of_cons; [done|by apply IHl].
Qed.

(** Sorted as the code assumes: from the lowest version to the highest. *)
Definition ascending (l : list T) : Prop := StronglySorted (λ a b, cmp a b ≠ Gt) l.

Lemma ascending_rev l : ascending l → descending (rev l).
Proof.
  rw /descending. induction 1 as [|x l _ IH Hf]; [constructor|]. simpl. apply StronglySorted_app_2; [|done|].
  - intros a b Ha%list_elem_of_In%in_rev%list_elem_of_In Hb%list_elem_of_singleton. subst b.
    eapply Forall_forall in Hf; [|exact Ha]. done.
  - repeat constructor.
Qed.

Lemma select_version_spec local remote :
  ascending local → ascending remote →
  match select_version cmp local remote with
  | Some v => highest_common local remote v
  | None => ∀ w, w ∈ local → w ∉ remote
  end.
Proof.
  intros Hl%ascending_rev Hr%ascending_rev. pose proof (version_loop_spec _ _ Hl Hr) as H.
  rw /select_version. assert (∀ w (l : list T), w ∈ rev l ↔ w ∈ l) as Hrev.
  { intros w l. by rw !list_elem_of_In -in_rev. }
  destruct (version_loop _ _ _) as [v|].
  - destruct H as (H1 & H2 & H3). split_and!; [by apply Hrev..|].
    intros w Hw Hw'. apply H3; by apply Hrev.
  - intros w Hw Hw'. apply (H w); by apply Hrev.
Qed.
End version_facts.

(** ** Facts: the exchange *)

Section select_facts.
Context {MN : MolNumber} {ML : MolNumberLaws}.

(** The message fits the codec that the two sides use. *)
Definition info_fits (p : ProtocolInfo) : bool := within default_max_frame_length (protocol_info_encode p).

Lemma recv_info_list fuel p rest out :
  (0 < fuel)%nat → protocol_info_wf p → info_fits p = true →
  recv_info fuel (mkListSocket default_max_frame_length (protocol_info_encode p :: rest) out) =
    (Ok p, mkListSocket default_max_frame_length rest out).
Proof.
  intros Hf Hp Hl. rw /recv_info. erewrite M_bind_Ok by by apply frame_next_list. cbv beta iota. by rw protocol_info_roundtrip.
Qed.

(** The server's answer. *)
Definition reply (infos : gmap bytes (ProtocolInfo * option SelectFn)) (p : ProtocolInfo) : ProtocolInfo :=
  mkProtocolInfo (name p) (option_list (server_version infos p)).

(** C27. Over a channel that delivers every frame of up to 8 MiB, the codec's
    limit, the two sides agree if their messages are no longer: both end
    with the client's protocol and the same version. For a protocol the server
    does not know there is none; with the default choice and sorted versions it
    is the highest that both support, and there is none only if they have none
    in common. *)
Theorem protocol_select_agrees (fuel : nat) (p : ProtocolInfo) (infos : gmap bytes (ProtocolInfo * option SelectFn)) :
  (0 < fuel)%nat → protocol_info_wf p → protocol_info_wf (reply infos p) →
  info_fits p = true → info_fits (reply infos p) = true →
  client_select fuel p (wire [protocol_info_encode (reply infos p)]) =
    (Ok (name p, server_version infos p), mkListSocket default_max_frame_length [] [protocol_info_encode p]) ∧
  server_select fuel infos (wire [protocol_info_encode p]) =
    (Ok (name p, server_version infos p),
     mkListSocket default_max_frame_length [] [protocol_info_encode (reply infos p)]) ∧
  (infos !! name p = None → server_version infos p = None) ∧
  (∀ info, infos !! name p = Some (info, None) →
    ascending bytes_cmp (support_versions info) → ascending bytes_cmp (support_versions p) →
    match server_version infos p with
    | Some v => highest_common bytes_cmp (support_versions info) (support_versions p) v
    | None => ∀ w, w ∈ support_versions info → w ∉ support_versions p
    end).
Proof.
  intros Hf Hp Hr Hlp Hlr. split_and!.
  - rw /client_select. erewrite M_bind_Ok by done. erewrite M_bind_Ok by by apply frame_send_list. erewrite M_bind_Ok by by apply recv_info_list.
    rw /reply /mret /M_ret. cbn [name support_versions ls_in ls_out app]. by destruct (server_version infos p).
  - rw /server_select. erewrite M_bind_Ok by done. erewrite M_bind_Ok by by apply recv_info_list.
    by erewrite M_bind_Ok by by apply frame_send_list.
  - by rw /server_version => ->.
  - rw /server_version => info -> Hl Hr'. exact (select_version_spec bytes_cmp _ _ Hl Hr').
Qed.

(** Receiving the peer's message never panics, whatever the peer sends:
    bytes that are no message are the error [InvalidData], an ended stream is
    [UnexpectedEof], and the socket's own errors are passed on. *)
Theorem recv_info_total {S : Type} {FR : Framed S} (fuel : nat) (s : S) :
  ∃ r, recv_info fuel s = (r, (frame_next fuel s).2) ∧
  match (frame_next fuel s).1 with
  | Ok (Some data) => ∃ o, protocol_info_decode data = Ok o ∧
      r = match o with Some p => Ok p | None => Err (Failed io.InvalidData) end
  | Ok None => r = Err (Failed io.UnexpectedEof)
  | Err e => r = Err e
  | Panic => False
  end.
Proof.
  pose proof (frame_next_no_panic fuel s) as Hnp. rw /recv_info /mbind /M_bind.
  destruct (frame_next fuel s) as [[[data|]|e|] s1]; [|by eexists..|done]. simpl.
  destruct (protocol_info_decode_total data) as [o Ho]. rw Ho. destruct o as [p|]; by eauto 6.
Qed.
End select_facts.

(** ** A concrete exchange *)

Definition demo_client : ProtocolInfo := mkProtocolInfo (str "ping") [str "0.0.1"; str "0.0.2"].
Definition demo_server : gmap bytes (ProtocolInfo * option SelectFn) :=
  {[ str "ping" := (mkProtocolInfo (str "ping") [str "0.0.2"; str "0.0.3"], None) ]}.

Lemma protocol_select_agrees_witness :
  client_select 1 demo_client (wire [protocol_info_encode (reply demo_server demo_client)]) =
    (Ok (str "ping", Some (str "0.0.2")), mkListSocket default_max_frame_length [] [protocol_info_encode demo_client]).
Proof.
  destruct (protocol_select_agrees 1 demo_client demo_server) as (Hc & _).
  - lia.
  - split_and!; [vm_compute; reflexivity..|repeat constructor].
  - split_and!; [vm_compute; reflexivity..|repeat constructor].
  - reflexivity.
  - vm_compute. reflexivity.
  - rw Hc. vm_compute. reflexivity.
Defined.

Lemma recv_info_total_witness :
  ∃ r, recv_info 1 (wire [str "junk"]) = (r, wire []) ∧ r = Err (Failed io.InvalidData).
Proof.
  destruct (recv_info_total 1 (wire [str "junk"])) as (r & Hr & o & Ho & Hm).
  exists r. split; [exact Hr|]. rw Hm. vm_compute in Ho. by injection Ho as <-.
Defined.
