(* ===== verification/PeerId.v ===== *)
(** * Peer identities

    [secio/src/peer_id.rs]: building, checking and taking apart a [PeerId].
    SHA-256 and the varint and base-58 codecs are parameters. *)
From S2P Require Import Prelude Text StdNet Multiaddr MultiaddrFacts SecioMessages.

Record PeerId := mkPeerId { peer_inner : bytes }.

#[global] Instance PeerId_eq_dec : EqDecision PeerId.
Proof. solve_decision. Defined.

Inductive PeerIdError := InvalidData | WrongLength | NotSupportHashCode | Empty.

Section peer_id.
Context `{!AddrCodecs} (sha256 : bytes → bytes).

Definition PEER_SHA256_CODE : Z := 0x12.
Definition PEER_SHA256_SIZE : Z := 32.

Definition peer_from_bytes (data : bytes) : Res PeerIdError PeerId :=
  if bool_decide (data = []) then Err Empty
  else match uv_decode 64 data with
  | inr _ => Err InvalidData
  | inl (code, rest) =>
      if negb (code =? PEER_SHA256_CODE) then Err NotSupportHashCode
      else if negb (Z.of_nat (length rest) =? PEER_SHA256_SIZE + 1) then Err WrongLength
      else match rest with
      | [] => Panic
      | b :: _ => if negb (byte_Z b =? PEER_SHA256_SIZE) then Err InvalidData else Ok (mkPeerId data)
      end
  end.

(** The code, the size and the hash, copied into one buffer. *)
Definition from_seed (seed : bytes) : PeerId :=
  mkPeerId (uv_encode PEER_SHA256_CODE ++ [Z_byte PEER_SHA256_SIZE] ++ sha256 seed).

Definition from_public_key (k : PublicKey) : PeerId := from_seed (key k).

(** [digest]: [expect] on the code, then everything after the size byte. *)
Definition digest (id : PeerId) : Res PeerIdError bytes :=
  match uv_decode 16 (peer_inner id) with
  | inl (_, b :: rest) => Ok rest
  | _ => Panic
  end.

Definition is_public_key (id : PeerId) (k : PublicKey) : bool := bool_decide (from_public_key k = id).

Definition to_base58 (id : PeerId) : bytes := bs58_encode (peer_inner id).

Definition peer_from_str (s : bytes) : Res PeerIdError PeerId :=
  match bs58_decode s with
  | Some b => peer_from_bytes b
  | None => Err InvalidData
  end.
End peer_id.

(** ** Facts *)

Section facts.
Context {AC : AddrCodecs} {AL : AddrCodecsLaws} (sha256 : bytes → bytes).

(** What a peer id needs of SHA-256 and of the 16-bit varint decoder. *)
Class PeerHash : Prop := {
  sha256_length m : length (sha256 m) = 32%nat;
  uv_decode_16 n rest : 0 ≤ n < 2 ^ 16 → uv_decode 16 (uv_encode n ++ rest) = inl (n, rest);
}.
Context {PH : PeerHash}.

(** An id read from bytes keeps these bytes. *)
Lemma peer_from_bytes_inner data id : peer_from_bytes data = Ok id → peer_inner id = data.
Proof. rw /peer_from_bytes. repeat case_match; try done. by intros [= <-]. Qed.

Lemma peer_from_seed seed : peer_from_bytes (peer_inner (from_seed sha256 seed)) = Ok (from_seed sha256 seed).
Proof.
  rw /peer_from_bytes /from_seed. cbn [peer_inner]. rw bool_decide_eq_false_2; last first.
  { intros [H _]%app_eq_nil. by apply uv_encode_nonempty in H. }
  rw uv_decode_encode; [|by right|done]. cbn [negb Z.eqb app length]. rw sha256_length. done.
Qed.

(** The bytes that [peer_from_bytes] takes are those that an address accepts as
    its [p2p] component. *)
Lemma peer_from_bytes_check_p2p data : check_p2p data = Ok () ↔ ∃ id, peer_from_bytes data = Ok id.
Proof.
  rw /peer_from_bytes /check_p2p /rbind /decode_uv. case: (bool_decide_reflect (data = [])) => Hd.
  { subst. split; [|by intros []]. destruct (uv_decode 64 []) as [[n r]|] eqn:E; [|done].
    destruct (uv_decode_prefix _ _ _ _ (or_intror eq_refl) E) as (_ & hdr & Hh & H & _).
    symmetry in H. apply app_eq_nil in H as [-> _]. simpl in Hh. lia. }
  rw /PEER_SHA256_CODE /PEER_SHA256_SIZE /SHA256_CODE /SHA256_SIZE.
  assert (∀ e e', (Err e : Res Error unit) = Ok () ↔ ∃ id : PeerId, Err (e' : PeerIdError) = Ok id) as Hno
    by (intros e e'; split; [done|by intros []]).
  destruct (uv_decode 64 data) as [[n r]|]; [|apply Hno]. destruct (n =? 18); simpl; [|apply Hno].
  destruct (Z.of_nat (length r) =? 32 + 1); simpl; [|apply Hno].
  destruct r as [|b r]; [split; [done|by intros []]|].
  destruct (byte_Z b =? 32); simpl; [split; [by eexists|done]|apply Hno].
Qed.

(** The id of a public key is a valid id: its bytes and its base-58 text are
    read back to it, its digest is the hash of the key, and it is recognised as
    the id of exactly those keys that have the same hash. *)
Theorem peer_id_of_public_key (k k' : PublicKey) :
  peer_from_bytes (peer_inner (from_public_key sha256 k)) = Ok (from_public_key sha256 k) ∧
  peer_from_str (to_base58 (from_public_key sha256 k)) = Ok (from_public_key sha256 k) ∧
  digest (from_public_key sha256 k) = Ok (sha256 (key k)) ∧
  (is_public_key sha256 (from_public_key sha256 k) k' = true ↔ sha256 (key k) = sha256 (key k')).
Proof.
  split_and!.
  - apply peer_from_seed.
  - rw /peer_from_str /to_base58 bs58_decode_encode. apply peer_from_seed.
  - rw /digest /from_public_key /from_seed. cbn [peer_inner]. by rw uv_decode_16.
  - rw /is_public_key bool_decide_eq_true /from_public_key /from_seed. split.
    + intros [= H%app_inv_head]. by injection H as ->.
    + by intros ->.
Qed.

(** [PeerId::from_bytes] and the [p2p] component of an address agree on which
    bytes are an id, and an accepted id keeps its bytes. *)
Theorem peer_id_matches_multiaddr (data : bytes) :
  (check_p2p data = Ok () ↔ ∃ id, peer_from_bytes data = Ok id) ∧
  (∀ id, peer_from_bytes data = Ok id → peer_inner id = data) ∧ peer_from_bytes data ≠ Panic.
Proof.
  split_and!; [apply peer_from_bytes_check_p2p|apply peer_from_bytes_inner|].
  rw /peer_from_bytes. repeat case_match; try done.
Qed.
End facts.

(** ** A concrete id *)

Definition demo_hash (m : bytes) : bytes := take 32 (m ++ replicate 32 (Z_byte 0)).

#[global] Instance demo_peer_hash : PeerHash demo_hash.
Proof.
  split.
  - intros m. rw /demo_hash length_take length_app length_replicate. lia.
  - intros n rest Hn. cbn [uv_decode uv_encode DemoCodecs]. rw /leb_decode_w. cbn [Z.eqb Pos.eqb].
    rw (leb_roundtrip 10 10) ?Z.mod_small //; [|lia|by left]. change (128 ^ 10%nat) with (64 * 2 ^ 64). lia.
Qed.

Lemma peer_id_of_public_key_witness :
  digest (from_public_key demo_hash (mkPublicKey (str "key"))) = Ok (demo_hash (str "key")) ∧
  is_public_key demo_hash (from_public_key demo_hash (mkPublicKey (str "key"))) (mkPublicKey (str "other")) = false.
Proof.
  destruct (peer_id_of_public_key demo_hash (mkPublicKey (str "key")) (mkPublicKey (str "other")))
    as (_ & _ & Hd & _).
  split; [exact Hd|]. vm_compute. reflexivity.
Defined.

Lemma peer_id_matches_multiaddr_witness :
  check_p2p (peer_inner (from_seed demo_hash (str "key"))) = Ok () ∧
  ∃ id, peer_from_bytes (peer_inner (from_seed demo_hash (str "key"))) = Ok id.
Proof.
  split; [vm_compute; reflexivity|].
  apply (proj1 (peer_id_matches_multiaddr (peer_inner (from_seed demo_hash (str "key"))))).
  vm_compute. reflexivity.
Defined.
