(* ===== verification/AddrUtils.v ===== *)
(** * Address helpers

    [tentacle/src/utils.rs]: reachability of an IP address, conversion between
    socket addresses and multiaddrs, the peer id and the transport of a
    multiaddr. [redact_auth_from_url] only calls the [url] crate and is left
    out. *)
From S2P Require Import Prelude Text StdNet Multiaddr MultiaddrFacts SecioMessages PeerId.

(** ** Reachability *)

Definition is_private (a : Ipv4Addr) : bool :=
  (oct_a a =? 10) || ((oct_a a =? 172) && (16 <=? oct_b a) && (oct_b a <=? 31)) ||
  ((oct_a a =? 192) && (oct_b a =? 168)).
Definition is_loopback4 (a : Ipv4Addr) : bool := oct_a a =? 127.
Definition is_link_local (a : Ipv4Addr) : bool := (oct_a a =? 169) && (oct_b a =? 254).
Definition is_broadcast (a : Ipv4Addr) : bool := bool_decide (octets a = [255; 255; 255; 255]).
Definition is_documentation (a : Ipv4Addr) : bool :=
  ((oct_a a =? 192) && (oct_b a =? 0) && (oct_c a =? 2)) ||
  ((oct_a a =? 198) && (oct_b a =? 51) && (oct_c a =? 100)) ||
  ((oct_a a =? 203) && (oct_b a =? 0) && (oct_c a =? 113)).
Definition is_unspecified4 (a : Ipv4Addr) : bool := bool_decide (octets a = [0; 0; 0; 0]).

Definition segment (i : nat) (a : Ipv6Addr) : Z := default 0 (segments a !! i).
Definition is_multicast6 (a : Ipv6Addr) : bool := Z.land (segment 0 a) 0xff00 =? 0xff00.
Definition is_loopback6 (a : Ipv6Addr) : bool := bool_decide (segments a = [0; 0; 0; 0; 0; 0; 0; 1]).
Definition is_unspecified6 (a : Ipv6Addr) : bool := bool_decide (segments a = [0; 0; 0; 0; 0; 0; 0; 0]).

Definition is_reachable (ip : IpAddr) : bool :=
  match ip with
  | V4 ipv4 =>
      negb (is_private ipv4) && negb (is_loopback4 ipv4) && negb (is_link_local ipv4) &&
      negb (is_broadcast ipv4) && negb (is_documentation ipv4) && negb (is_unspecified4 ipv4)
  | V6 ipv6 =>
      let scope :=
        if is_multicast6 ipv6 then
          let s := Z.land (segment 0 ipv6) 0x000f in
          if (s =? 1) || (s =? 2) || (s =? 3) || (s =? 4) || (s =? 5) || (s =? 8) then Some false
          else if s =? 14 then Some true else None
        else None in
      match scope with
      | Some true => true
      | None =>
          negb (is_multicast6 ipv6 || is_loopback6 ipv6 ||
            (Z.land (segment 0 ipv6) 0xffc0 =? 0xfe80) || (Z.land (segment 0 ipv6) 0xffc0 =? 0xfec0) ||
            (Z.land (segment 0 ipv6) 0xfe00 =? 0xfc00) || is_unspecified6 ipv6 ||
            ((segment 0 ipv6 =? 0x2001) && (segment 1 ipv6 =? 0xdb8)))
      | Some false => false
      end
  end.

(** ** Multiaddrs *)

Section addr.
Context `{!AddrCodecs}.

(** [iter().find_map(f)]: components are read only as far as needed. *)
Fixpoint find_map_loop {A} (fuel : nat) (f : Protocol → option A) (s : bytes) : option (Res Error (option A)) :=
  match fuel with
  | O => None
  | S fuel =>
      match iter_next s with
      | Ok None => Some (Ok None)
      | Ok (Some (p, s)) =>
          match f p with
          | Some a => Some (Ok (Some a))
          | None => find_map_loop fuel f s
          end
      | _ => Some Panic
      end
  end.
Definition find_map {A} (f : Protocol → option A) (m : Multiaddr) : option (Res Error (option A)) :=
  find_map_loop (S (ma_len m)) f (ma_bytes m).

(** The loop of [multiaddr_to_socketaddr] on the peekable iterator. *)
Fixpoint socketaddr_loop (fuel : nat) (s : bytes) : option (Res Error (option SocketAddr)) :=
  match fuel with
  | O => None
  | S fuel =>
      match iter_next s with
      | Ok None => Some (Ok None)
      | Ok (Some (proto1, s)) =>
          match proto1 with
          | Ip4 _ | Ip6 _ =>
              match iter_next s with
              | Ok None => Some (Ok None)
              | Ok (Some (proto2, s)) =>
                  match proto1, proto2 with
                  | Ip4 ip, Tcp port => Some (Ok (Some (mkSocketAddr (V4 ip) port)))
                  | Ip6 ip, Tcp port => Some (Ok (Some (mkSocketAddr (V6 ip) port)))
                  | _, _ => socketaddr_loop fuel s
                  end
              | _ => Some Panic
              end
          | _ => socketaddr_loop fuel s
          end
      | _ => Some Panic
      end
  end.
Definition multiaddr_to_socketaddr (addr : Multiaddr) : option (Res Error (option SocketAddr)) :=
  socketaddr_loop (S (ma_len addr)) (ma_bytes addr).

Definition socketaddr_to_multiaddr (address : SocketAddr) : Multiaddr :=
  let proto := match ip address with V4 ip => Ip4 ip | V6 ip => Ip6 ip end in
  from_iter [proto; Tcp (port address)].

Definition extract_peer_id : Multiaddr → option (Res Error (option PeerId)) :=
  find_map (λ proto,
    match proto with
    | P2P raw_bytes => match peer_from_bytes raw_bytes with Ok id => Some id | _ => None end
    | _ => None
    end).

Inductive TransportType := TWs | TWss | TTcp | TTls | TMemory | TOnion.

(** The transport that a component stands for. *)
Definition transport_of (proto : Protocol) : option TransportType :=
  match proto with
  | Ws => Some TWs
  | Wss => Some TWss
  | Tls _ => Some TTls
  | Memory _ => Some TMemory
  | Onion3 _ => Some TOnion
  | _ => None
  end.

Definition find_type (addr : Multiaddr) : option (Res Error TransportType) :=
  match find_map transport_of addr with
  | Some (Ok o) => Some (Ok (default TTcp o))
  | Some _ => Some Panic
  | None => None
  end.
End addr.

(** ** Facts *)

Section facts.
Context {AC : AddrCodecs} {AL : AddrCodecsLaws}.

(** An address with well-formed components. *)
Definition addr_wf (m : Multiaddr) : Prop := ∃ ps, Comps (ma_bytes m) ps.

Lemma try_from_wf m : addr_wf m → try_from (ma_bytes m) = Some (Ok m).
Proof.
  intros [ps Hps]. rw /try_from.
  destruct (try_from_loop_total (ma_bytes m) _ (le_n _)) as [(ps' & _ & ->)|(e & _ & Hn)]; [by destruct m|by destruct (Hn ps)].
Qed.

Lemma try_from_total b : (∃ m, try_from b = Some (Ok m) ∧ addr_wf m) ∨ ∃ e, try_from b = Some (Err e).
Proof.
  rw /try_from. destruct (try_from_loop_total b _ (le_n _)) as [(ps & Hps & ->)|(e & -> & _)]; [left|by right; eauto].
  eexists. split; [done|]. by exists ps.
Qed.

(** The first result of [f] over a list. *)
Fixpoint first_some {A B} (f : A → option B) (l : list A) : option B :=
  match l with [] => None | x :: l => match f x with Some b => Some b | None => first_some f l end end.

(** The first IP component whose pair is a TCP port, pairs not overlapping. *)
Fixpoint first_socket (ps : list Protocol) : option SocketAddr :=
  match ps with
  | Ip4 ip :: Tcp port :: _ => Some (mkSocketAddr (V4 ip) port)
  | Ip6 ip :: Tcp port :: _ => Some (mkSocketAddr (V6 ip) port)
  | Ip4 _ :: _ :: ps => first_socket ps
  | Ip6 _ :: _ :: ps => first_socket ps
  | _ :: ps => first_socket ps
  | [] => None
  end.

Lemma find_map_loop_Comps {A} (f : Protocol → option A) b ps fuel :
  Comps b ps → (length ps < fuel)%nat → find_map_loop fuel f b = Some (Ok (first_some f ps)).
Proof.
  intros Hb. revert fuel. induction Hb as [|b p rest ps Hp _ IH]; intros [|fuel] Hf; simpl in *; try lia; [done|].
  rw (iter_next_cons _ _ _ Hp). destruct (f p); [done|]. apply IH. lia.
Qed.

Lemma find_map_Comps {A} (f : Protocol → option A) m ps :
  Comps (ma_bytes m) ps → find_map f m = Some (Ok (first_some f ps)).
Proof. intros H. apply find_map_loop_Comps; [done|]. apply Comps_length in H. rw /ma_len. lia. Qed.

Lemma socketaddr_loop_Comps b ps fuel :
  Comps b ps → (length ps < fuel)%nat → socketaddr_loop fuel b = Some (Ok (first_socket ps)).
Proof.
  revert b fuel. induction ps as [ps IH] using (induction_ltof1 _ length); rw /ltof in IH.
  intros b [|fuel] Hb Hf; [lia|]. inversion Hb as [|b' p rest ps' Hp Hr]; subst; [done|]. cbn [socketaddr_loop].
  rw (iter_next_cons _ _ _ Hp). simpl in Hf.
  assert (∀ qs r, Comps r qs → (length qs ≤ length ps')%nat → socketaddr_loop fuel r = Some (Ok (first_socket qs))) as IH'.
  { intros qs r Hq Hl. apply IH; [simpl; lia|done|lia]. }
  inversion Hr as [|b'' q rest' qs Hq Hr']; subst.
  - destruct p; try done; by apply (IH' [] []).
  - rw (iter_next_cons _ _ _ Hq).
    assert (socketaddr_loop fuel rest = Some (Ok (first_socket (q :: qs)))) as H1 by (by apply IH').
    assert (socketaddr_loop fuel rest' = Some (Ok (first_socket qs))) as H2 by (apply IH'; [done|simpl; lia]).
    by destruct p; try exact H1; destruct q.
Qed.

Lemma multiaddr_to_socketaddr_Comps m ps :
  Comps (ma_bytes m) ps → multiaddr_to_socketaddr m = Some (Ok (first_socket ps)).
Proof. intros H. apply socketaddr_loop_Comps; [done|]. apply Comps_length in H. rw /ma_len. lia. Qed.

Lemma extract_peer_id_Comps m ps :
  Comps (ma_bytes m) ps →
  extract_peer_id m = Some (Ok (first_some (λ p, match p with P2P b => Some (mkPeerId b) | _ => None end) ps)).
Proof.
  intros H. rw /extract_peer_id (find_map_Comps _ _ _ H). do 2 f_equal. apply Comps_wf in H.
  induction H as [|p ps Hp _ IH]; [done|]. cbn [first_some]. rw IH. destruct p; try done.
  destruct (proj1 (peer_from_bytes_check_p2p b) Hp) as [id Hid]. rw Hid.
  apply peer_from_bytes_inner in Hid as <-. by destruct id.
Qed.

Lemma first_some_app {A B} (f : A → option B) l k :
  first_some f (l ++ k) = match first_some f l with Some b => Some b | None => first_some f k end.
Proof. induction l as [|x l IH]; [done|]. simpl. rw IH. by destruct (f x). Qed.

(** On every well-formed address the helpers are total and read the
    components in order: the socket address is the first IP that is followed by
    its TCP port, the peer id is the first component that is one, and the
    transport is that of the first component that names one, TCP otherwise. *)
Theorem addr_helpers_spec (m : Multiaddr) (ps : list Protocol) :
  Comps (ma_bytes m) ps →
  multiaddr_to_socketaddr m = Some (Ok (first_socket ps)) ∧
  extract_peer_id m = Some (Ok (first_some (λ p, match p with P2P b => Some (mkPeerId b) | _ => None end) ps)) ∧
  find_type m = Some (Ok (default TTcp (first_some transport_of ps))).
Proof.
  intros H. split_and!.
  - by apply multiaddr_to_socketaddr_Comps.
  - by apply extract_peer_id_Comps.
  - by rw /find_type (find_map_Comps _ _ _ H).
Qed.

(** A socket address survives the conversion to a multiaddr and back, with
    any further components behind it. *)
Theorem socketaddr_roundtrip (a : SocketAddr) (m : Multiaddr) (ps : list Protocol) :
  ip_wf (ip a) → is_u16 (port a) → Comps (ma_bytes m) ps →
  multiaddr_to_socketaddr (mkMultiaddr (ma_bytes (socketaddr_to_multiaddr a) ++ ma_bytes m)) = Some (Ok (Some a)).
Proof.
  intros Hip Hport Hm.
  set (p := match ip a with V4 i => Ip4 i | V6 i => Ip6 i end).
  assert (Comps (ma_bytes (socketaddr_to_multiaddr a) ++ ma_bytes m) ([p; Tcp (port a)] ++ ps)) as Hc.
  { apply Comps_app; [|done]. apply Comps_concat. apply Forall_cons; split; [rw /p; by destruct (ip a)|by apply Forall_singleton]. }
  rw /multiaddr_to_socketaddr (socketaddr_loop_Comps _ _ _ Hc).
  - rw /p. by destruct a as [[] ?].
  - apply Comps_length in Hc. rw /ma_len. cbn [ma_bytes]. lia.
Qed.
End facts.

(** An address that is neither special nor documentation is reachable, and the
    ranges that are not are refused. *)
Lemma unreachable_ranges (a : Ipv4Addr) :
  oct_a a = 10 ∨ oct_a a = 127 ∨ (oct_a a = 192 ∧ oct_b a = 168) ∨ (oct_a a = 172 ∧ 16 ≤ oct_b a ≤ 31) ∨
  (oct_a a = 169 ∧ oct_b a = 254) →
  is_reachable (V4 a) = false.
Proof.
  rw /is_reachable /is_private /is_loopback4 /is_link_local.
  intros [->|[->|[[-> ->]|[[-> Hb]|[-> ->]]]]]; rw /= ?andb_false_r //.
  rewrite -> (proj2 (Z.leb_le _ _)), (proj2 (Z.leb_le _ _)) by lia. done.
Qed.

Definition demo_socket : SocketAddr := mkSocketAddr (V4 (mkIp4 1 2 3 4)) 8080.

Lemma addr_helpers_spec_witness :
  find_type (from_iter [Ip4 (mkIp4 1 2 3 4); Tcp 80; Ws]) = Some (Ok TWs) ∧
  multiaddr_to_socketaddr (from_iter [Ip4 (mkIp4 1 2 3 4); Tcp 80; Ws]) =
    Some (Ok (Some (mkSocketAddr (V4 (mkIp4 1 2 3 4)) 80))).
Proof.
  destruct (addr_helpers_spec (from_iter [Ip4 (mkIp4 1 2 3 4); Tcp 80; Ws]) [Ip4 (mkIp4 1 2 3 4); Tcp 80; Ws])
    as (Hs & _ & Ht).
  - apply Comps_concat. repeat constructor; unfold_int; simpl; lia.
  - split; [exact Ht|exact Hs].
Defined.

Lemma socketaddr_roundtrip_witness :
  multiaddr_to_socketaddr (mkMultiaddr (ma_bytes (socketaddr_to_multiaddr demo_socket) ++ ma_bytes (mkMultiaddr []))) =
  Some (Ok (Some demo_socket)).
Proof.
  apply (socketaddr_roundtrip demo_socket (mkMultiaddr []) []).
  - repeat constructor; unfold_int; simpl; lia.
  - unfold_int; simpl; lia.
  - constructor.
Defined.
