(* ===== verification/Ping.v ===== *)
(** * The ping protocol

    [protocols/ping/src/lib.rs] with the generated readers and builders of
    [protocol_mol.rs]: the messages and the handler [PingHandler]. What the
    handler does to the service and to its callback is an action; time is in
    nanoseconds and given with each event. The order in which a [HashMap] is
    iterated is that of stdpp's maps. *)
From S2P Require Import Prelude Text Molecule MoleculeFacts SecioMessages.

(** ** Messages *)

Inductive PingPayload := PPing (nonce : Z) | PPong (nonce : Z).

Section messages.
Context `{!MolNumber}.

Definition uint32_reader_verify : Verifier := array_verify 4.
Definition ping_reader_verify : Verifier := old_table_verify [uint32_reader_verify].
Definition pong_reader_verify : Verifier := old_table_verify [uint32_reader_verify].
Definition ping_payload_reader_verify : Verifier := union_verify [ping_reader_verify; pong_reader_verify].
Definition ping_message_reader_verify : Verifier := old_table_verify [ping_payload_reader_verify].

Definition build_ping (nonce : Z) : bytes :=
  table_write [union_write 0 (table_write [le_bytes 4 nonce])].
Definition build_pong (nonce : Z) : bytes :=
  table_write [union_write 1 (table_write [le_bytes 4 nonce])].

Definition ping_decode (data : bytes) : VR (option PingPayload) :=
  decode_with ping_message_reader_verify data (λ reader,
    payload ← table_field 1 0 reader;
    item ← union_to_enum 2 payload;
    nonce ← table_field 1 0 item.2;
    match item.1 with
    | O => Ok (Some (PPing (from_le 4 nonce)))
    | _ => Ok (Some (PPong (from_le 4 nonce)))
    end).
End messages.

(** ** The handler *)

Definition SEND_PING_TOKEN : Z := 0.
Definition CHECK_TIMEOUT_TOKEN : Z := 1.

Record PingStatus := mkPingStatus { processing : bool; last_ping : Z; ps_nonce : Z }.

Record PingHandler := mkPingHandler {
  interval : Z;
  timeout : Z;
  connected_session_ids : gmap nat PingStatus;
  unix_epoch : Z;
}.

(** Calls of the service's context and of the callback. *)
Inductive Action :=
| SetNotify (interval token : Z)
| Disconnect (session : nat)
| SendMessage (session : nat) (data : bytes)
| FilterBroadcast (sessions : list nat) (data : bytes)
| CbReceivedPing (session : nat)
| CbReceivedPong (session : nat) (time : Z)
| CbTimeout (session : nat)
| CbUnexpectedError (session : nat).

(** [PingHandler::new] at the instant [now], [since_epoch] after the Unix epoch;
    instants before zero cannot be represented. *)
Definition ping_new (interval timeout now since_epoch : Z) : PingHandler :=
  mkPingHandler interval timeout ∅ (if since_epoch <=? now then now - since_epoch else now).

Definition nonce_at_time (t unix_epoch : Z) : Z := wrap 32 (Z.max 0 (t - unix_epoch) / 10 ^ 9).

Definition elapsed (s : PingStatus) (now : Z) : Z := Z.max 0 (now - last_ping s).

Section handler.
Context `{!MolNumber}.
Implicit Types h : PingHandler.

Definition set_sessions (m : gmap nat PingStatus) h : PingHandler :=
  mkPingHandler (interval h) (timeout h) m (unix_epoch h).

Definition init h : PingHandler * list Action :=
  (h, [SetNotify (interval h) SEND_PING_TOKEN; SetNotify (timeout h) CHECK_TIMEOUT_TOKEN]).

Definition connected (session : nat) (remote_pubkey : bool) (now : Z) h : PingHandler * list Action :=
  if remote_pubkey then
    match connected_session_ids h !! session with
    | Some _ => (h, [])
    | None => (set_sessions (<[session := mkPingStatus false now 0]> (connected_session_ids h)) h, [])
    end
  else (h, [Disconnect session]).

Definition disconnected (session : nat) h : PingHandler * list Action :=
  (set_sessions (delete session (connected_session_ids h)) h, []).

Definition received (session : nat) (data : bytes) (now : Z) h : Res unit (PingHandler * list Action) :=
  match ping_decode data with
  | Err _ | Panic => Panic
  | Ok None => Ok (h, [CbUnexpectedError session])
  | Ok (Some (PPing nonce)) => Ok (h, [SendMessage session (build_pong nonce); CbReceivedPing session])
  | Ok (Some (PPong nonce)) =>
      match connected_session_ids h !! session with
      | Some status =>
          if bool_decide ((true, nonce) = (processing status, ps_nonce status)) then
            let status' := mkPingStatus false (last_ping status) (ps_nonce status) in
            Ok (set_sessions (<[session := status']> (connected_session_ids h)) h,
                [CbReceivedPong session (elapsed status' now)])
          else Ok (h, [Disconnect session])
      | None => Ok (h, [Disconnect session])
      end
  end.

(** The closure of [filter_map] over the sessions: the statuses, the peers to
    ping and the nonce; [t] is what [Instant::now()] returns. *)
Fixpoint ping_loop (t unix_epoch : Z) (l : list (nat * PingStatus)) (now : option Z) (send_nonce : Z)
    : list (nat * PingStatus) * list nat * Z :=
  match l with
  | [] => ([], [], send_nonce)
  | (id, ps) :: l =>
      if processing ps then
        let '(sts, peers, n) := ping_loop t unix_epoch l now send_nonce in ((id, ps) :: sts, peers, n)
      else
        let t' := default t now in
        let send_nonce := if send_nonce =? 0 then nonce_at_time t' unix_epoch else send_nonce in
        let '(sts, peers, n) := ping_loop t unix_epoch l (Some t') send_nonce in
        ((id, mkPingStatus (processing ps) t' send_nonce) :: sts, id :: peers, n)
  end.

Definition notify (token now : Z) h : Res unit (PingHandler * list Action) :=
  if token =? SEND_PING_TOKEN then
    let '(sts, peers, send_nonce) :=
      ping_loop now (unix_epoch h) (map_to_list (connected_session_ids h)) None 0 in
    Ok (set_sessions (list_to_map sts) h,
        if bool_decide (peers = []) then [] else [FilterBroadcast peers (build_ping send_nonce)])
  else if token =? CHECK_TIMEOUT_TOKEN then
    Ok (h, (λ x, CbTimeout x.1) <$>
      filter (λ x, processing x.2 = true ∧ timeout h ≤ elapsed x.2 now) (map_to_list (connected_session_ids h)))
  else Panic.

(** *** Events, as the service delivers them *)

Inductive Event :=
| EConnected (session : nat) (remote_pubkey : bool) (now : Z)
| EDisconnected (session : nat)
| EReceived (session : nat) (data : bytes) (now : Z)
| ESendPing (now : Z)
| ECheckTimeout (now : Z).

Definition on_event (e : Event) h : Res unit (PingHandler * list Action) :=
  match e with
  | EConnected session remote_pubkey now => Ok (connected session remote_pubkey now h)
  | EDisconnected session => Ok (disconnected session h)
  | EReceived session data now => received session data now h
  | ESendPing now => notify SEND_PING_TOKEN now h
  | ECheckTimeout now => notify CHECK_TIMEOUT_TOKEN now h
  end.

(** A handler and the actions so far. *)
Fixpoint ping_run (es : list Event) h : Res unit (PingHandler * list Action) :=
  match es with
  | [] => Ok (h, [])
  | e :: es =>
      x ← on_event e h;
      y ← ping_run es x.1;
      Ok (y.1, x.2 ++ y.2)
  end.
End handler.

(** ** Facts: messages *)

Section facts.
Context {MN : MolNumber} {ML : MolNumberLaws}.

(** The message around one of the two items. *)
Lemma ping_message_roundtrip (id : nat) (n : Z) :
  (id < 2)%nat → is_u32 n →
  ping_decode (table_write [union_write id (table_write [le_bytes 4 n])]) =
  Ok (Some (match id with O => PPing n | _ => PPong n end)).
Proof.
  intros Hid Hn. set (inner := table_write [le_bytes 4 n]).
  assert (length inner = 12%nat) as Hli.
  { rw /inner table_write_length. cbn [concat length]. by rw app_nil_r le_bytes_length. }
  destruct (old_table_1 uint32_reader_verify (le_bytes 4 n) true) as [Hv Hr]; [rw le_bytes_length; lia| |].
  { apply array_verified, le_bytes_length. }
  assert ([ping_reader_verify; pong_reader_verify] !! id = Some (old_table_verify [uint32_reader_verify])) as Hlk.
  { by destruct id as [|[|id]]; [..|lia]. }
  destruct (union_roundtrip _ id _ inner true Hlk) as [Huv Hur]; [done|]. rw Hv in Huv.
  change (length [ping_reader_verify; pong_reader_verify]) with 2%nat in Hur.
  destruct (old_table_1 ping_payload_reader_verify (union_write id inner) true) as [Hv' Hr']; [|done|].
  { rw /union_write length_app pack_number_length Hli. lia. }
  rw /ping_decode /decode_with /ping_message_reader_verify Hv' Hr'. cbn [mbind Res_bind]. rw Hur. cbn [mbind Res_bind fst snd]. rw Hr.
  cbn [mbind Res_bind]. rw from_le_bytes; [|change (256 ^ 4%nat) with (2 ^ 32); unfold_int; lia]. by destruct id.
Qed.

Lemma ping_decode_total data : ∃ o, ping_decode data = Ok o.
Proof.
  assert (∀ x c, old_table_verify [uint32_reader_verify] x c ≠ Panic) as Hi.
  { intros x c. apply old_table_no_panic; [done|]. intros f y ->%list_elem_of_singleton. apply array_no_panic. }
  apply decode_with_total.
  { apply old_table_no_panic; [done|]. intros f x ->%list_elem_of_singleton. apply union_no_panic.
    intros item y [-> | ->%list_elem_of_singleton]%elem_of_cons; apply Hi. }
  intros (x & Hx & (id & item & y & Hid & He & Hy)%union_verified)%old_table_1_verified. cbn beta. rw Hx.
  change (length [ping_reader_verify; pong_reader_verify]) with 2%nat in He. cbn [mbind Res_bind]. rw He.
  cbn [mbind Res_bind fst snd]. assert (item = old_table_verify [uint32_reader_verify]) as ->.
  { destruct id as [|[|id]]; [by injection Hid as <-..|done]. }
  apply old_table_1_verified in Hy as (z & Hz & _). rw Hz. cbn [mbind Res_bind]. destruct id; eauto.
Qed.

(** Ping messages survive their encoding, decoding never panics on any
    bytes, and a ping is answered by a pong with its nonce. *)
Theorem ping_messages (n : Z) (data : bytes) (session : nat) (now : Z) (h : PingHandler) :
  is_u32 n →
  ping_decode (build_ping n) = Ok (Some (PPing n)) ∧ ping_decode (build_pong n) = Ok (Some (PPong n)) ∧
  (∃ o, ping_decode data = Ok o) ∧
  received session (build_ping n) now h = Ok (h, [SendMessage session (build_pong n); CbReceivedPing session]).
Proof.
  intros Hn. split_and!.
  - by apply (ping_message_roundtrip 0); [lia|].
  - by apply (ping_message_roundtrip 1); [lia|].
  - apply ping_decode_total.
  - rw /received. pose proof (ping_message_roundtrip 0 n ltac:(lia) Hn) as H. rw /build_ping H //.
Qed.

(** ** Facts: the handler *)

(** No session waits for a pong. *)
Definition idle (h : PingHandler) : Prop := map_Forall (λ _ s, processing s = false) (connected_session_ids h).

Lemma ping_loop_idle t ep l now n :
  Forall (λ x : nat * PingStatus, processing x.2 = false) l →
  Forall (λ x : nat * PingStatus, processing x.2 = false) (ping_loop t ep l now n).1.1.
Proof.
  intros H. revert now n. induction H as [|[id ps] l Hp _ IH]; intros now n; [done|]. cbn [ping_loop]. simpl in Hp. rw Hp.
  set (n' := if n =? 0 then _ else _). specialize (IH (Some (default t now)) n').
  destruct (ping_loop t ep l _ _) as [[sts peers] m]. by constructor.
Qed.

Lemma list_to_map_Forall {A} (P : A → Prop) (l : list (nat * A)) :
  Forall (λ x, P x.2) l → map_Forall (λ _ a, P a) (list_to_map l : gmap nat A).
Proof.
  induction 1 as [|[k a] l Ha _ IH]; [apply map_Forall_empty|]. simpl. by apply map_Forall_insert_2.
Qed.

(** What a run never does: report a pong or a timeout. *)
Definition quiet (a : Action) : Prop :=
  match a with CbReceivedPong _ _ | CbTimeout _ => False | _ => True end.

Lemma on_event_idle e h : idle h → ∃ h' acts, on_event e h = Ok (h', acts) ∧ idle h' ∧ Forall quiet acts.
Proof.
  intros Hh. destruct e as [s k now|s|s data now|now|now]; cbn [on_event].
  - rw /connected. destruct k; [destruct (connected_session_ids h !! s)|]; eexists _, _; split; [done|by split|done| |done|].
    + split; [|done]. by apply map_Forall_insert_2.
    + split; [done|by constructor].
  - eexists _, _. split; [done|]. split; [|done]. by apply map_Forall_delete.
  - rw /received. destruct (ping_decode_total data) as [o ->].
    destruct o as [[n|n]|]; try (eexists _, _; split; [done|]; split; [done|by repeat constructor]).
    destruct (connected_session_ids h !! s) as [st|] eqn:E;
      [rw bool_decide_eq_false_2; [|by apply Hh in E; rw E]|]; eexists _, _; (split; [done|]; split; [done|by constructor]).
  - rw /notify. cbn [Z.eqb SEND_PING_TOKEN]. pose proof (ping_loop_idle now (unix_epoch h)
      (map_to_list (connected_session_ids h)) None 0) as Hl.
    destruct (ping_loop _ _ _ _ _) as [[sts peers] n]. eexists _, _. split; [done|]. split.
    + apply (list_to_map_Forall (λ s, processing s = false)), Hl, Forall_forall.
      intros [k st] Hx%elem_of_map_to_list. by apply Hh in Hx.
    + case_bool_decide; by repeat constructor.
  - rw /notify. cbn [Z.eqb SEND_PING_TOKEN CHECK_TIMEOUT_TOKEN Pos.eqb]. eexists _, _. split; [done|]. split; [done|].
    apply Forall_fmap, Forall_forall. intros x [[Hp _] Hx%elem_of_map_to_list']%list_elem_of_filter.
    simpl in Hp. apply Hh in Hx. congruence.
Qed.

Lemma ping_run_idle es h : idle h → ∃ h' acts, ping_run es h = Ok (h', acts) ∧ idle h' ∧ Forall quiet acts.
Proof.
  revert h. induction es as [|e es IH]; intros h Hh; cbn [ping_run]; [by eexists _, _|].
  destruct (on_event_idle e h Hh) as (h1 & a1 & -> & Hh1 & Ha1). cbn [mbind Res_bind fst snd].
  destruct (IH h1 Hh1) as (h2 & a2 & -> & Hh2 & Ha2). eexists _, _. split; [done|]. split; [done|]. by apply Forall_app.
Qed.

(** Any sequence of events is handled without a panic, but no session is ever
    marked as waiting for a pong. So the handler never reports a pong or a timeout
    to its callback, and it disconnects every peer that answers a ping, whatever
    the nonce. *)
Theorem every_pong_disconnects (i t now0 since : Z) (es : list Event) (session : nat) (n now : Z) :
  is_u32 n →
  ∃ h acts, ping_run es (ping_new i t now0 since) = Ok (h, acts) ∧ Forall quiet acts ∧ received session (build_pong n) now h = Ok (h, [Disconnect session]) ∧
  notify CHECK_TIMEOUT_TOKEN now h = Ok (h, []).
Proof.
  intros Hn. assert (idle (ping_new i t now0 since)) as H0 by apply map_Forall_empty.
  destruct (ping_run_idle es _ H0) as (h & acts & Hr & Hh & Ha). exists h, acts. split_and!; [done..|  |].
  - pose proof (ping_message_roundtrip 1 n ltac:(lia) Hn) as Hd. rw /received /build_pong Hd.
    destruct (connected_session_ids h !! session) as [st|] eqn:E; [|done].
    rw bool_decide_eq_false_2 //. apply Hh in E. by rw E.
  - rw /notify. cbn [Z.eqb SEND_PING_TOKEN CHECK_TIMEOUT_TOKEN Pos.eqb].
    destruct (filter _ _) as [|x l] eqn:E; [done|].
    assert (x ∈ filter (λ x, processing x.2 = true ∧ timeout h ≤ elapsed x.2 now) (map_to_list (connected_session_ids h)))
      as [[Hp _] Hx%elem_of_map_to_list']%list_elem_of_filter by (rw E; by left).
    apply Hh in Hx. congruence.
Qed.

Abbreviation idle_ones l := (filter (λ x : nat * PingStatus, processing x.2 = false) l).

(** What the loop computes: one time and one nonce for all sessions that do not
    wait for a pong. *)
Lemma ping_loop_spec t ep l now n :
  (∀ t', now = Some t' → t' = t) → n = 0 ∨ n = nonce_at_time t ep →
  ping_loop t ep l now n =
    (prod_map id (λ s, if processing s then s else mkPingStatus false t (nonce_at_time t ep)) <$> l,
     (idle_ones l).*1, if bool_decide (idle_ones l = []) then n else nonce_at_time t ep).
Proof.
  revert now n. induction l as [|[id ps] l IH]; intros now n Hnow Hn; [done|].
  cbn [ping_loop]. destruct (processing ps) eqn:Hp.
  - rw (IH now n Hnow Hn). rewrite -> filter_cons_False by (simpl; congruence).
    by rw fmap_cons /prod_map /= Hp.
  - assert (default t now = t) as -> by (destruct now as [t'|]; [by apply Hnow|done]).
    assert ((if n =? 0 then nonce_at_time t ep else n) = nonce_at_time t ep) as ->.
    { destruct Hn as [-> | ->]; [done|]. by destruct (nonce_at_time t ep =? 0). }
    rw (IH (Some t) (nonce_at_time t ep)); [|by intros t' [= <-]|by right].
    rewrite -> filter_cons_True by done. rw (bool_decide_eq_false_2 ((id, ps) :: idle_ones l = [])) //.
    rw fmap_cons /prod_map /= Hp. by case_bool_decide.
Qed.

(** Pinging gives every session that does not wait for a pong the current
    time and one common nonce, leaves the others alone, and sends one message
    with that nonce, to exactly these sessions, if there are any. *)
Theorem send_ping_behaviour (now : Z) (h : PingHandler) :
  let nonce := nonce_at_time now (unix_epoch h) in
  ∃ peers,
    (∀ id, id ∈ peers ↔ ∃ s, connected_session_ids h !! id = Some s ∧ processing s = false) ∧
    notify SEND_PING_TOKEN now h =
      Ok (set_sessions ((λ s, if processing s then s else mkPingStatus false now nonce) <$> connected_session_ids h) h,
          if bool_decide (peers = []) then [] else [FilterBroadcast peers (build_ping nonce)]).
Proof.
  exists (idle_ones (map_to_list (connected_session_ids h))).*1. split.
  - intros id. rw list_elem_of_fmap. split.
    + intros ([k s] & -> & [Hp Hx%elem_of_map_to_list]%list_elem_of_filter). by exists s.
    + intros (s & Hs & Hp). exists (id, s). split; [done|]. apply list_elem_of_filter. by rw elem_of_map_to_list.
  - rw /notify. cbn [Z.eqb SEND_PING_TOKEN]. rw ping_loop_spec; [|done|by left].
    rw list_to_map_fmap list_to_map_to_list. do 2 f_equal.
    case: (bool_decide_reflect ((idle_ones (map_to_list (connected_session_ids h))).*1 = [])) => He; [done|].
    rw bool_decide_eq_false_2 //. intros H. by rw H in He.
Qed.
End facts.

(** ** A session that answers its ping *)

Definition demo_handler : PingHandler := ping_new 15 30 0 0.
Definition demo_events : list Event := [EConnected 7 true 1; ESendPing 5000000000].

Lemma ping_messages_witness :
  ping_decode (build_pong 77) = Ok (Some (PPong 77)) ∧
  received 7 (build_ping 77) 0 demo_handler = Ok (demo_handler, [SendMessage 7 (build_pong 77); CbReceivedPing 7]).
Proof.
  destruct (ping_messages 77 [] 7 0 demo_handler) as (_ & H1 & _ & H2); [unfold_int; lia|]. by split.
Defined.

(** The pong with the nonce of the ping, 5, leads to a disconnect. *)
Lemma every_pong_disconnects_witness :
  ∃ h acts, ping_run demo_events demo_handler = Ok (h, acts) ∧
    acts = [FilterBroadcast [7%nat] (build_ping 5)] ∧
    received 7 (build_pong 5) 6000000000 h = Ok (h, [Disconnect 7]).
Proof.
  destruct (every_pong_disconnects 15 30 0 0 demo_events 7 5 6000000000) as (h & acts & Hr & _ & H & _); [unfold_int; lia|].
  exists h, acts. split; [exact Hr|]. split; [|exact H]. vm_compute in Hr. injection Hr as _ <-. vm_compute. reflexivity.
Defined.

Lemma send_ping_behaviour_witness :
  ∃ peers, (∀ id, id ∈ peers ↔ ∃ s, connected_session_ids demo_handler !! id = Some s ∧ processing s = false) ∧
    notify SEND_PING_TOKEN 9 demo_handler =
      Ok (set_sessions ((λ s, if processing s then s else mkPingStatus false 9 (nonce_at_time 9 0)) <$>
            connected_session_ids demo_handler) demo_handler,
          if bool_decide (peers = []) then [] else [FilterBroadcast peers (build_ping (nonce_at_time 9 0))]).
Proof. exact (send_ping_behaviour 9 demo_handler). Defined.
