(* ===== verification/Identify.v ===== *)
(** * The identify protocol

    [protocols/identify/src/protocol.rs] and [lib.rs] with the generated readers
    and builders of [protocol_mol.rs]: the message and the handler
    [IdentifyProtocol]. The callback is an interface ([IdCallback]); calls of the
    service's context are actions; time is in seconds and given with each
    event. *)
From S2P Require Import Prelude Text StdNet Multiaddr MultiaddrFacts Molecule MoleculeFacts SecioMessages PeerId AddrUtils.

(** ** The message *)

Record IdentifyMessage := mkIdentifyMessage {
  listen_addrs : list Multiaddr; observed_addr : Multiaddr; identify : bytes }.

Section message.
Context `{!MolNumber, !AddrCodecs}.

Definition address_reader_verify : Verifier := old_table_verify [fixvec_verify].
Definition address_vec_reader_verify : Verifier := dynvec_verify address_reader_verify.
Definition identify_message_reader_verify : Verifier :=
  old_table_verify [address_vec_reader_verify; address_reader_verify; fixvec_verify].

Definition address_write (addr : Multiaddr) : bytes := table_write [fixvec_write (ma_bytes addr)].

Definition identify_encode (m : IdentifyMessage) : bytes :=
  table_write [dynvec_write (address_write <$> listen_addrs m); address_write (observed_addr m);
    fixvec_write (identify m)].

(** [Multiaddr::try_from(addr.bytes().raw_data().to_vec()).ok()?]. *)
Definition decode_address {A} (addr : bytes) (k : Multiaddr → VR (option A)) : VR (option A) :=
  raw ← field_data 1 0 addr;
  match try_from raw with
  | Some (Ok m) => k m
  | Some (Err _) => Ok None
  | Some Panic | None => Panic
  end.

Fixpoint decode_addresses {A} (addrs : list bytes) (k : list Multiaddr → VR (option A)) : VR (option A) :=
  match addrs with
  | [] => k []
  | addr :: addrs => decode_address addr (λ m, decode_addresses addrs (λ ms, k (m :: ms)))
  end.

Definition identify_decode (data : bytes) : VR (option IdentifyMessage) :=
  decode_with identify_message_reader_verify data (λ reader,
    identify ← field_data 3 2 reader;
    observed ← table_field 3 1 reader;
    decode_address observed (λ observed_addr,
    listens ← table_field 3 0 reader;
    items ← dynvec_items listens;
    decode_addresses items (λ listen_addrs,
    Ok (Some (mkIdentifyMessage listen_addrs observed_addr identify))))).
End message.

(** ** The handler *)

Definition CHECK_TIMEOUT_INTERVAL : Z := 1.
Definition DEFAULT_TIMEOUT : Z := 8.
Definition ID_CHECK_TIMEOUT_TOKEN : Z := 100.
Definition MAX_ADDRS : nat := 10.

Inductive Misbehavior := DuplicateReceived | Timeout | InvalidIdentify | TooManyAddresses (n : nat).
Inductive MisbehaveResult := Continue | DisconnectPeer.

Definition is_disconnect (r : MisbehaveResult) : bool :=
  match r with DisconnectPeer => true | Continue => false end.

Inductive SessionType := Outbound | Inbound.

(** The fields of [SessionContext] that the handler uses. *)
Record SessionContext := mkSession {
  session_id : nat; address : Multiaddr; session_ty : SessionType; remote_pubkey : option PublicKey }.

(** The trait [Callback]. *)
Class IdCallback (C : Type) := {
  cb_received_identify : SessionContext → bytes → C → MisbehaveResult * C;
  cb_identify : C → bytes * C;
  cb_local_listen_addrs : C → list Multiaddr * C;
  cb_add_remote_listen_addrs : PeerId → list Multiaddr → C → C;
  cb_add_observed_addr : PeerId → Multiaddr → SessionType → C → MisbehaveResult * C;
  cb_misbehave : PeerId → Misbehavior → C → MisbehaveResult * C;
}.

Record RemoteInfo := mkRemoteInfo {
  ri_peer_id : PeerId;
  ri_session : SessionContext;
  connected_at : Z;
  ri_timeout : Z;
  has_received : bool;
}.

(** Calls of the service's context. *)
Inductive IdAction :=
| IdSetNotify (interval token : Z)
| IdDisconnect (session : nat)
| IdQuickSend (session : nat) (data : bytes).

(** [IdentifyProtocol], with the actions so far. *)
Record IdentifyProtocol (C : Type) := mkIdentifyProtocol {
  callback : C;
  remote_infos : gmap nat RemoteInfo;
  secio_enabled : bool;
  global_ip_only : bool;
  id_actions : list IdAction;
}.
Arguments mkIdentifyProtocol {C}.
Arguments callback {C}.
Arguments remote_infos {C}.
Arguments secio_enabled {C}.
Arguments global_ip_only {C}.
Arguments id_actions {C}.

Section handler.
Context `{!MolNumber, !AddrCodecs} (sha256 : bytes → bytes) {C : Type} `{!IdCallback C}.
Abbreviation St := (IdentifyProtocol C).
Abbreviation Id A := (M St Empty_set A).

Definition identify_new (callback : C) : St := mkIdentifyProtocol callback ∅ true true [].
Definition set_global_ip_only (b : bool) (h : St) : St :=
  mkIdentifyProtocol (callback h) (remote_infos h) (secio_enabled h) b (id_actions h).

Definition emit (a : IdAction) : Id unit :=
  modify (λ h, mkIdentifyProtocol (callback h) (remote_infos h) (secio_enabled h) (global_ip_only h) (id_actions h ++ [a])).
Definition set_infos (f : gmap nat RemoteInfo → gmap nat RemoteInfo) : Id unit :=
  modify (λ h, mkIdentifyProtocol (callback h) (f (remote_infos h)) (secio_enabled h) (global_ip_only h) (id_actions h)).
(** A call of the callback. *)
Definition cb {A} (f : C → A * C) : Id A := λ h,
  let '(a, c) := f (callback h) in
  (Ok a, mkIdentifyProtocol c (remote_infos h) (secio_enabled h) (global_ip_only h) (id_actions h)).

(** [expect("RemoteInfo must exists")]. *)
Definition info_of (session : nat) : Id RemoteInfo :=
  o ← gets (λ h, remote_infos h !! session);
  match o with Some i => mret i | None => panic end.

Definition remote_info_new (session : SessionContext) (timeout now : Z) : Id RemoteInfo :=
  match remote_pubkey session with
  | Some k => mret (mkRemoteInfo (from_public_key sha256 k) session now timeout false)
  | None => panic
  end.

(** The address that [multiaddr_to_socketaddr] finds. *)
Definition socketaddr_of (m : Multiaddr) : Id (option SocketAddr) :=
  match multiaddr_to_socketaddr m with
  | Some (Ok o) => mret o
  | _ => panic
  end.

(** The filter on addresses. *)
Definition addr_allowed (m : Multiaddr) : Id bool :=
  o ← socketaddr_of m;
  g ← gets global_ip_only;
  mret (match o with Some a => negb g || is_reachable (ip a) | None => false end).

Fixpoint filter_addrs (ms : list Multiaddr) : Id (list Multiaddr) :=
  match ms with
  | [] => mret []
  | m :: ms =>
      b ← addr_allowed m;
      rest ← filter_addrs ms;
      mret (if (b : bool) then m :: rest else rest)
  end.

(** [filter(..).take(n)]: the filter runs only until [n] addresses are found. *)
Fixpoint filter_take (n : nat) (ms : list Multiaddr) : Id (list Multiaddr) :=
  match n, ms with
  | S n', m :: ms =>
      b ← addr_allowed m;
      if (b : bool) then rest ← filter_take n' ms; mret (m :: rest) else filter_take n ms
  | _, _ => mret []
  end.

Definition check_duplicate (session : nat) : Id MisbehaveResult :=
  info ← info_of session;
  if has_received info then cb (cb_misbehave (ri_peer_id info) DuplicateReceived)
  else
    set_infos <[session := mkRemoteInfo (ri_peer_id info) (ri_session info) (connected_at info) (ri_timeout info) true]>;;
    mret Continue.

Definition process_listens (session : nat) (listens : list Multiaddr) : Id MisbehaveResult :=
  info ← info_of session;
  if bool_decide (MAX_ADDRS < length listens)%nat then
    cb (cb_misbehave (ri_peer_id info) (TooManyAddresses (length listens)))
  else
    reachable_addrs ← filter_addrs listens;
    cb (λ c, ((), cb_add_remote_listen_addrs (ri_peer_id info) reachable_addrs c));;
    mret Continue.

Definition process_observed (session : nat) (observed : Multiaddr) : Id MisbehaveResult :=
  info ← info_of session;
  b ← addr_allowed observed;
  if (b : bool) then
    r ← cb (cb_add_observed_addr (ri_peer_id info) observed (session_ty (ri_session info)));
    mret (if is_disconnect r then DisconnectPeer else Continue)
  else mret Continue.

Definition id_init : Id unit := emit (IdSetNotify CHECK_TIMEOUT_INTERVAL ID_CHECK_TIMEOUT_TOKEN).

Definition id_connected (session : SessionContext) (now : Z) : Id unit :=
  match remote_pubkey session with
  | None =>
      emit (IdDisconnect (session_id session));;
      modify (λ h, mkIdentifyProtocol (callback h) (remote_infos h) false (global_ip_only h) (id_actions h))
  | Some _ =>
      remote_info ← remote_info_new session DEFAULT_TIMEOUT now;
      set_infos <[session_id session := remote_info]>;;
      local ← cb cb_local_listen_addrs;
      listen_addrs ← filter_take MAX_ADDRS local;
      match iter (address session) with
      | Some (Ok ps) =>
          let observed_addr := from_iter (filter (λ p, match p with P2P _ => false | _ => true end = true) ps) in
          identify ← cb cb_identify;
          emit (IdQuickSend (session_id session) (identify_encode (mkIdentifyMessage listen_addrs observed_addr identify)))
      | _ => panic
      end
  end.

Definition id_disconnected (session : nat) : Id unit :=
  e ← gets secio_enabled;
  if (e : bool) then info ← info_of session; set_infos (delete session) else mret ().

(** The disjunction of the checks, left to right. *)
Definition id_received (session : SessionContext) (data : bytes) : Id unit :=
  e ← gets secio_enabled;
  if negb e then mret ()
  else
    match identify_decode data with
    | Err _ | Panic => panic
    | Ok (Some message) =>
        r1 ← check_duplicate (session_id session);
        if is_disconnect r1 then emit (IdDisconnect (session_id session))
        else
          r2 ← cb (cb_received_identify session (identify message));
          if is_disconnect r2 then emit (IdDisconnect (session_id session))
          else
            r3 ← process_listens (session_id session) (listen_addrs message);
            if is_disconnect r3 then emit (IdDisconnect (session_id session))
            else
              r4 ← process_observed (session_id session) (observed_addr message);
              when (is_disconnect r4) (emit (IdDisconnect (session_id session)))
    | Ok None =>
        info ← info_of (session_id session);
        r ← cb (cb_misbehave (ri_peer_id info) InvalidIdentify);
        when (is_disconnect r) (emit (IdDisconnect (session_id session)))
    end.

(** The loop of [notify] over the sessions. *)
Fixpoint notify_loop (now : Z) (l : list (nat * RemoteInfo)) : Id unit :=
  match l with
  | [] => mret ()
  | (id, info) :: l =>
      when (has_received info && (connected_at info + ri_timeout info <=? now))
        (r ← cb (cb_misbehave (ri_peer_id info) Timeout);
         when (is_disconnect r) (emit (IdDisconnect id)));;
      notify_loop now l
  end.

Definition id_notify (now : Z) : Id unit :=
  e ← gets secio_enabled;
  if negb e then mret ()
  else infos ← gets remote_infos; notify_loop now (map_to_list infos).
End handler.

(** ** Facts: the message *)

Section facts.
Context {MN : MolNumber} {ML : MolNumberLaws} {AC : AddrCodecs} {AL : AddrCodecsLaws}.

Definition identify_wf (m : IdentifyMessage) : Prop :=
  length (identify_encode m) < 2 ^ 32 ∧ addr_wf (observed_addr m) ∧ Forall addr_wf (listen_addrs m).

(** What an address is written as. *)
Lemma address_read {A} m (k : Multiaddr → VR (option A)) :
  addr_wf m → length (address_write m) < 2 ^ 32 → decode_address (address_write m) k = k m.
Proof.
  intros Hm Hl. rw /decode_address. destruct (table_of_vectors [ma_bytes m] true) as [_ Hf]; [done..|].
  rw (Hf 0%nat (ma_bytes m) eq_refl). cbn [mbind Res_bind]. by rw try_from_wf.
Qed.

Lemma address_verify m c : length (address_write m) < 2 ^ 32 → address_reader_verify (address_write m) c = Ok ().
Proof.
  intros Hl. apply old_table_Ok; [done|]. by destruct (table_of_vectors [ma_bytes m] c) as [H _].
Qed.

Lemma addresses_read {A} ms (k : list Multiaddr → VR (option A)) :
  Forall addr_wf ms → Forall (λ m, length (address_write m) < 2 ^ 32) ms →
  decode_addresses (address_write <$> ms) k = k ms.
Proof.
  intros H. revert k. induction H as [|m ms Hm _ IH]; intros k Hl; [done|]. apply Forall_cons in Hl as [Hl Hls].
  cbn [fmap list_fmap decode_addresses]. rw address_read //. by apply IH.
Qed.

Lemma decode_address_yields {A} P s (k : Multiaddr → VR (option A)) :
  address_reader_verify s true = Ok () → P None → (∀ m, addr_wf m → yields P (k m)) → yields P (decode_address s k).
Proof.
  intros Hv%old_table_Ok HP Hk; [|done]. destruct (field_data_verified 1 0 s true Hv) as [d Hd]; [lia|].
  rw /decode_address Hd. cbn [mbind Res_bind].
  destruct (try_from_total d) as [(m & -> & Hm)|[e ->]]; [by apply Hk|by exists None].
Qed.

Lemma decode_addresses_yields {A} P items (k : list Multiaddr → VR (option A)) :
  Forall (λ s, address_reader_verify s true = Ok ()) items → P None →
  (∀ ms, Forall addr_wf ms → yields P (k ms)) → yields P (decode_addresses items k).
Proof.
  intros H HP. revert k. induction H as [|s items Hs _ IH]; intros k Hk; [by apply Hk|]. cbn [decode_addresses].
  apply decode_address_yields; [done..|]. intros m Hm. apply IH. intros ms Hms. apply Hk. by constructor.
Qed.

Lemma identify_roundtrip m : identify_wf m → identify_decode (identify_encode m) = Ok (Some m).
Proof.
  intros (Hl & Ho & Hls). pose proof (table_parts _ Hl) as Hp. apply Forall_cons in Hp as [Hp1 Hp].
  apply Forall_cons in Hp as [Hp2 Hp]. apply Forall_cons in Hp as [Hp3 _].
  pose proof (dynvec_parts _ Hp1) as Hd. apply Forall_fmap in Hd.
  destruct (dynvec_roundtrip address_reader_verify (address_write <$> listen_addrs m) true) as [Hdv Hdi]; [done| |].
  { apply Forall_fmap. eapply Forall_impl; [exact Hd|]. intros a Ha. by apply address_verify. }
  set (xs := [dynvec_write (address_write <$> listen_addrs m); address_write (observed_addr m); fixvec_write (identify m)]).
  assert (identify_message_reader_verify (table_write xs) true = Ok ()) as Hv.
  { apply old_table_Ok; [done|]. apply table_verify_write; [done..|].
    constructor; [exact Hdv|]. constructor; [by apply address_verify|]. constructor; [|constructor].
    apply fixvec_verify_write. rw /fixvec_write length_app in Hp3. lia. }
  assert (∀ i x, xs !! i = Some x → table_field 3 i (table_write xs) = Ok x) as Hf by (intros i x; by apply (table_read_write xs)).
  rw /identify_decode /decode_with. change (identify_encode m) with (table_write xs). rw Hv.
  rw /field_data (Hf 2%nat _ eq_refl) (Hf 1%nat _ eq_refl). cbn [mbind Res_bind]. rw fixvec_read_write. cbn [mbind Res_bind].
  rw address_read // (Hf 0%nat _ eq_refl). cbn [mbind Res_bind]. rw Hdi. cbn [mbind Res_bind].
  rw addresses_read //. by destruct m.
Qed.

Lemma address_no_panic s c : address_reader_verify s c ≠ Panic.
Proof. apply old_table_no_panic; [done|]. intros f x ->%list_elem_of_singleton. apply fixvec_no_panic. Qed.

(** Decoded addresses are well formed. *)
Definition decoded_wf (o : option IdentifyMessage) : Prop :=
  match o with Some m => addr_wf (observed_addr m) ∧ Forall addr_wf (listen_addrs m) | None => True end.

Lemma identify_decode_yields data : yields decoded_wf (identify_decode data).
Proof.
  rw /identify_decode /decode_with. destruct (identify_message_reader_verify data true) as [[]|e|] eqn:Hv; last first.
  { exfalso. revert Hv. apply old_table_no_panic; [done|].
    intros f x [-> | [-> | ->%list_elem_of_singleton]%elem_of_cons]%elem_of_cons;
      [|apply address_no_panic|apply fixvec_no_panic].
    apply dynvec_no_panic. intros y. apply address_no_panic. }
  { by exists None. }
  apply old_table_Ok in Hv; [|done].
  destruct (table_verified _ _ _ 0%nat _ Hv eq_refl) as (l & Hl & (items & Hi & Hall)%dynvec_verified).
  destruct (table_verified _ _ _ 1%nat _ Hv eq_refl) as (o & Ho & Hov).
  destruct (table_verified _ _ _ 2%nat _ Hv eq_refl) as (b & Hb & [d Hd]%fixvec_verified).
  change (length [address_vec_reader_verify; address_reader_verify; fixvec_verify]) with 3%nat in *.
  rw /field_data Hb. cbn [mbind Res_bind]. rw Hd. cbn [mbind Res_bind]. rw Ho. cbn [mbind Res_bind].
  apply decode_address_yields; [done..|]. intros m Hm. rw Hl. cbn [mbind Res_bind]. rw Hi. cbn [mbind Res_bind].
  apply decode_addresses_yields; [done..|]. intros ms Hms. by eexists.
Qed.

(** ** Facts: the handler *)

Context (sha256 : bytes → bytes) {C : Type} {CB : IdCallback C}.
Abbreviation St := (IdentifyProtocol C).
Abbreviation Id A := (M St Empty_set A).

(** The filter as a function. *)
Definition allowed (g : bool) (m : Multiaddr) : bool :=
  match multiaddr_to_socketaddr m with
  | Some (Ok (Some a)) => negb g || is_reachable (ip a)
  | _ => false
  end.

Definition with_callback (c : C) (h : St) : St :=
  mkIdentifyProtocol c (remote_infos h) (secio_enabled h) (global_ip_only h) (id_actions h).

Lemma addr_allowed_eq m (h : St) : addr_wf m → addr_allowed m h = (Ok (allowed (global_ip_only h) m), h).
Proof.
  intros [ps Hps]. rw /addr_allowed /socketaddr_of /allowed (multiaddr_to_socketaddr_Comps _ _ Hps).
  by destruct (first_socket ps).
Qed.

Lemma filter_addrs_eq ms (h : St) :
  Forall addr_wf ms → filter_addrs ms h = (Ok (filter (λ m, allowed (global_ip_only h) m = true) ms), h).
Proof.
  induction 1 as [|m ms Hm _ IH]; [done|]. cbn [filter_addrs]. erewrite M_bind_Ok by by apply addr_allowed_eq.
  erewrite M_bind_Ok by exact IH. destruct (allowed _ m) eqn:E.
  - by rewrite -> filter_cons_True by done.
  - by rewrite -> filter_cons_False by congruence.
Qed.

Lemma filter_take_eq n ms (h : St) :
  Forall addr_wf ms → filter_take n ms h = (Ok (take n (filter (λ m, allowed (global_ip_only h) m = true) ms)), h).
Proof.
  intros H. revert n. induction H as [|m ms Hm _ IH]; intros [|n]; try done. cbn [filter_take].
  erewrite M_bind_Ok by by apply addr_allowed_eq. destruct (allowed _ m) eqn:E.
  - rewrite -> filter_cons_True by done. by erewrite M_bind_Ok by apply IH.
  - rewrite -> filter_cons_False by congruence. apply (IH (S n)).
Qed.

Lemma info_of_eq s info (h : St) : remote_infos h !! s = Some info → info_of s h = (Ok info, h).
Proof. intros H. rw /info_of. erewrite M_bind_Ok by done. by rw H. Qed.

(** *** No panic *)

(** The session [s] is known, the others are as in [infos], and [acts] were done. *)
Definition known (s : nat) (infos : gmap nat RemoteInfo) (acts : list IdAction) (h : St) : Prop :=
  secio_enabled h = true ∧ is_Some (remote_infos h !! s) ∧ id_actions h = acts ∧
  ∀ s', s' ≠ s → remote_infos h !! s' = infos !! s'.

Lemma cb_ok {A} s infos acts (f : C → A * C) : ok_on (known s infos acts) (cb f).
Proof. intros h Hh. rw /cb. destruct (f (callback h)) as [a c]. by eexists a, _. Qed.

Lemma info_of_ok s infos acts : ok_on (known s infos acts) (info_of s).
Proof. intros h (He & [i Hi] & H). exists i, h. by rw (info_of_eq _ _ _ Hi). Qed.

Lemma check_duplicate_ok s infos acts : ok_on (known s infos acts) (check_duplicate s).
Proof.
  rw /check_duplicate. apply ok_bind; [apply info_of_ok|]. intros info. case_match; [apply cb_ok|].
  apply ok_bind; [|intros; apply ok_ret]. intros h (He & Hi & Ha & Ho). eexists (), _. split; [done|].
  split_and!; [done|by rw /= lookup_insert_eq|done|]. intros s' Hs'. rw /= lookup_insert_ne //. by apply Ho.
Qed.

Lemma process_listens_ok s infos acts ms : Forall addr_wf ms → ok_on (known s infos acts) (process_listens s ms).
Proof.
  intros Hms. rw /process_listens. apply ok_bind; [apply info_of_ok|]. intros info. case_match; [apply cb_ok|].
  apply ok_bind; [|intros; apply ok_bind; [apply cb_ok|intros; apply ok_ret]].
  intros h Hh. eexists _, h. split; [by apply filter_addrs_eq|done].
Qed.

Lemma process_observed_ok s infos acts m : addr_wf m → ok_on (known s infos acts) (process_observed s m).
Proof.
  intros Hm. rw /process_observed. apply ok_bind; [apply info_of_ok|]. intros info.
  apply ok_bind; [intros h Hh; eexists _, h; split; [by apply addr_allowed_eq|done]|].
  intros b. destruct b; [|apply ok_ret]. apply ok_bind; [apply cb_ok|intros; apply ok_ret].
Qed.

(** The end of [received]: nothing, or a disconnect. *)
Definition answered (s : nat) (infos : gmap nat RemoteInfo) (acts : list IdAction) (h : St) : Prop :=
  known s infos acts h ∨ known s infos (acts ++ [IdDisconnect s]) h.

Lemma emit_answered s infos acts (h : St) :
  known s infos acts h → ∃ h', emit (IdDisconnect s) h = (Ok (), h') ∧ answered s infos acts h'.
Proof. intros (He & Hi & <- & Ho). eexists. split; [done|]. right. by split_and!. Qed.

(** A check, then a disconnect if it asks for one and [k] if not. *)
Lemma check_answered s infos acts (m : Id MisbehaveResult) (k : Id unit) h :
  ok_on (known s infos acts) m → known s infos acts h →
  (∀ h, known s infos acts h → ∃ h', k h = (Ok (), h') ∧ answered s infos acts h') →
  ∃ h', (r ← m; if is_disconnect r then emit (IdDisconnect s) else k) h = (Ok (), h') ∧ answered s infos acts h'.
Proof.
  intros Hm Hh Hk. destruct (Hm h Hh) as (r & h1 & H1 & Hh1). rw (M_bind_Ok _ _ _ _ _ H1).
  destruct (is_disconnect r); [by apply emit_answered|by apply Hk].
Qed.

Lemma id_received_answered session data infos acts h :
  known (session_id session) infos acts h →
  ∃ h', id_received session data h = (Ok (), h') ∧ answered (session_id session) infos acts h'.
Proof.
  intros Hh. rw /id_received. erewrite M_bind_Ok by done. destruct (Hh) as [-> _]. cbn [negb].
  assert (∀ h, known (session_id session) infos acts h →
    ∃ h', (mret () : Id unit) h = (Ok (), h') ∧ answered (session_id session) infos acts h') as Hend.
  { intros h1 Hh1. exists h1. split; [done|by left]. }
  destruct (identify_decode_yields data) as (o & -> & Ho). destruct o as [m|].
  - destruct Ho as [Hobs Hls].
    apply (check_answered _ _ _ _ _ _ (check_duplicate_ok _ _ _) Hh). clear h Hh. intros h Hh.
    apply (check_answered _ _ _ _ _ _ (cb_ok _ _ _ _) Hh). clear h Hh. intros h Hh.
    apply (check_answered _ _ _ _ _ _ (process_listens_ok _ _ _ _ Hls) Hh). clear h Hh. intros h Hh.
    apply (check_answered _ _ _ _ (mret ()) _ (process_observed_ok _ _ _ _ Hobs) Hh Hend).
  - destruct (info_of_ok _ _ _ h Hh) as (i & h1 & H1 & Hh1). rw (M_bind_Ok _ _ _ _ _ H1).
    apply (check_answered _ _ _ _ (mret ()) _ (cb_ok _ _ _ _) Hh1 Hend).
Qed.

(** Identify messages survive their encoding, and decoding any bytes ends
    without a panic, with a message whose addresses are all well formed or with
    [None]. *)
Theorem identify_messages (m : IdentifyMessage) (data : bytes) :
  identify_wf m → identify_decode (identify_encode m) = Ok (Some m) ∧ yields decoded_wf (identify_decode data).
Proof. intros Hm. split; [by apply identify_roundtrip|apply identify_decode_yields]. Qed.

(** Receiving any bytes on a known session never panics, touches no other
    session, and does at most one thing to the service: disconnect that very
    session. *)
Theorem identify_received_safe (session : SessionContext) (data : bytes) (h : St) :
  secio_enabled h = true → is_Some (remote_infos h !! session_id session) →
  ∃ h', id_received session data h = (Ok (), h') ∧
    answered (session_id session) (remote_infos h) (id_actions h) h'.
Proof. intros He Hi. by apply id_received_answered. Qed.

(** What reaches the callback: at most ten listen addresses, exactly those
    that the filter allows, in order; more are reported as misbehaviour. An
    observed address is reported only if the filter allows it. *)
Theorem identify_addresses_filtered (s : nat) (info : RemoteInfo) (ms : list Multiaddr) (m : Multiaddr) (h : St) :
  remote_infos h !! s = Some info → Forall addr_wf ms → addr_wf m →
  process_listens s ms h =
    (if bool_decide (length ms ≤ MAX_ADDRS)%nat then
       (Ok Continue, with_callback (cb_add_remote_listen_addrs (ri_peer_id info)
          (filter (λ a, allowed (global_ip_only h) a = true) ms) (callback h)) h)
     else
       let '(r, c) := cb_misbehave (ri_peer_id info) (TooManyAddresses (length ms)) (callback h) in
       (Ok r, with_callback c h)) ∧
  process_observed s m h =
    (if allowed (global_ip_only h) m then
       let '(r, c) := cb_add_observed_addr (ri_peer_id info) m (session_ty (ri_session info)) (callback h) in
       (Ok r, with_callback c h)
     else (Ok Continue, h)).
Proof.
  intros Hi Hms Hm. split.
  - rw /process_listens. erewrite M_bind_Ok by by apply info_of_eq.
    case: (bool_decide_reflect (MAX_ADDRS < length ms)%nat) => Hl.
    + rw bool_decide_eq_false_2; [|lia]. rw /cb. by destruct (cb_misbehave _ _ _).
    + rw bool_decide_eq_true_2; [|lia]. by erewrite M_bind_Ok by by apply filter_addrs_eq.
  - rw /process_observed. erewrite M_bind_Ok by by apply info_of_eq. erewrite M_bind_Ok by by apply addr_allowed_eq.
    destruct (allowed _ m); [|done]. rw /mbind /M_bind /cb.
    destruct (cb_add_observed_addr _ _ _ _) as [r c]. by destruct r.
Qed.

(** A report of a timeout: the callback is told, and the session disconnected if it
    says so. *)
Definition report_timeout (h : St) (x : nat * RemoteInfo) : St :=
  let '(r, c) := cb_misbehave (ri_peer_id x.2) Timeout (callback h) in
  mkIdentifyProtocol c (remote_infos h) (secio_enabled h) (global_ip_only h)
    (id_actions h ++ if is_disconnect r then [IdDisconnect x.1] else []).

(** The peers that a pass reports: they have sent their message, and their deadline
    has passed. *)
Definition reported (now : Z) (x : nat * RemoteInfo) : bool :=
  has_received x.2 && (connected_at x.2 + ri_timeout x.2 <=? now).

Lemma notify_loop_reports now l (h : St) :
  notify_loop now l h = (Ok (), foldl report_timeout h (List.filter (reported now) l)).
Proof.
  revert h. induction l as [|[s i] l IH]; intros h; [done|]. cbn [notify_loop List.filter]. rw /reported /=.
  destruct (has_received i && _); cbn [when]; [|by erewrite M_bind_Ok by done].
  cbn [foldl]. rw -IH /report_timeout /mbind /M_bind /cb /=.
  destruct (cb_misbehave _ _ _) as [[] c]; cbn [is_disconnect when]; rw ?app_nil_r; done.
Qed.

Lemma reports_actions l (h : St) a :
  a ∈ id_actions (foldl report_timeout h l) → a ∈ id_actions h ∨ ∃ s i, (s, i) ∈ l ∧ a = IdDisconnect s.
Proof.
  revert h. induction l as [|[s i] l IH]; intros h; [by left|]. cbn [foldl].
  intros [Ha | (s' & i' & Hin & ->)]%IH; [|right; exists s', i'; by split; [right|]].
  revert Ha. rw /report_timeout. destruct (cb_misbehave _ _ _) as [r c]. cbn [id_actions].
  intros [Ha | Ha]%elem_of_app; [by left|right]. destruct (is_disconnect r); [|by apply elem_of_nil in Ha].
  apply list_elem_of_singleton in Ha as ->. exists s, i. by split; [left|].
Qed.

(** C40. The timeout check, which runs only with encryption, looks at the wrong
    peers. In any state, a pass reports as
    timed out exactly the peers, each once, that have sent their identify message and
    whose deadline has passed; it disconnects no others, so a peer that has not sent
    its message is never reported nor disconnected, however much time has passed. *)
Theorem identify_timeout_inverted (now : Z) (h : St) :
  secio_enabled h = true →
  ∃ l, NoDup l.*1 ∧
    (∀ s i, (s, i) ∈ l ↔
      remote_infos h !! s = Some i ∧ has_received i = true ∧ connected_at i + ri_timeout i ≤ now) ∧
    id_notify now h = (Ok (), foldl report_timeout h l) ∧
    (∀ a, a ∈ id_actions (foldl report_timeout h l) →
      a ∈ id_actions h ∨ ∃ s i, (s, i) ∈ l ∧ a = IdDisconnect s).
Proof.
  intros He. exists (List.filter (reported now) (map_to_list (remote_infos h))). split_and!.
  - eapply sublist_NoDup; [apply (NoDup_fst_map_to_list (remote_infos h))|].
    induction (map_to_list (remote_infos h)) as [|x l IH]; [done|]. cbn [List.filter]. destruct (reported now x); by constructor.
  - intros s i. rw list_elem_of_In List.filter_In -list_elem_of_In elem_of_map_to_list /reported /= andb_true_iff Z.leb_le. done.
  - rw /id_notify. erewrite M_bind_Ok by done. rw He. cbn [negb]. erewrite M_bind_Ok by done. apply notify_loop_reports.
  - intros a. apply reports_actions.
Qed.
End facts.

(** ** A callback that records what it is told *)

Definition CbLog : Type := list (PeerId * Misbehavior) * list (PeerId * list Multiaddr).

#[local] Instance LogCallback : IdCallback CbLog := {|
  cb_received_identify _ _ c := (Continue, c);
  cb_identify c := (str "id", c);
  cb_local_listen_addrs c := ([], c);
  cb_add_remote_listen_addrs p ms c := (c.1, c.2 ++ [(p, ms)]);
  cb_add_observed_addr _ _ _ c := (Continue, c);
  cb_misbehave p k c := (DisconnectPeer, (c.1 ++ [(p, k)], c.2));
|}.

Definition demo_addr : Multiaddr := from_iter [Ip4 (mkIp4 8 8 8 8); Tcp 80].
Definition demo_local_addr : Multiaddr := from_iter [Ip4 (mkIp4 127 0 0 1); Tcp 80].
Definition demo_session : SessionContext := mkSession 3 demo_addr Inbound (Some (mkPublicKey (str "k"))).
Definition demo_message : IdentifyMessage := mkIdentifyMessage [demo_local_addr; demo_addr] demo_addr (str "id").
Definition demo_id : IdentifyProtocol CbLog :=
  (id_connected demo_hash demo_session 0 (identify_new ([], []))).2.
Definition demo_info : RemoteInfo :=
  mkRemoteInfo (from_public_key demo_hash (mkPublicKey (str "k"))) demo_session 0 DEFAULT_TIMEOUT true.
Definition demo_id_received : IdentifyProtocol CbLog :=
  (id_received demo_session (identify_encode demo_message) demo_id).2.

Lemma demo_addr_wf : addr_wf demo_addr.
Proof. eexists. apply Comps_concat. repeat constructor; unfold_int; simpl; lia. Qed.
Lemma demo_local_addr_wf : addr_wf demo_local_addr.
Proof. eexists. apply Comps_concat. repeat constructor; unfold_int; simpl; lia. Qed.

Lemma identify_messages_witness :
  identify_decode (identify_encode demo_message) = Ok (Some demo_message) ∧ yields decoded_wf (identify_decode (str "junk")).
Proof.
  apply (identify_messages demo_message (str "junk")). split_and!.
  - vm_compute. reflexivity.
  - exact demo_addr_wf.
  - repeat constructor; [exact demo_local_addr_wf|exact demo_addr_wf].
Defined.

Lemma identify_received_safe_witness :
  ∃ h', id_received demo_session (identify_encode demo_message) demo_id = (Ok (), h') ∧
    answered 3 (remote_infos demo_id) (id_actions demo_id) h' ∧ (callback h').2.*2 = [[demo_addr]].
Proof.
  destruct (identify_received_safe demo_session (identify_encode demo_message) demo_id) as (h' & Hr & Ha).
  - vm_compute. reflexivity.
  - vm_compute. by eexists.
  - exists h'. split; [exact Hr|]. split; [exact Ha|].
    assert (h' = (id_received demo_session (identify_encode demo_message) demo_id).2) as -> by by rw Hr.
    vm_compute. reflexivity.
Defined.

Lemma identify_addresses_filtered_witness :
  (process_listens 3 [demo_local_addr; demo_addr] demo_id_received).1 = Ok Continue ∧
  filter (λ a, allowed true a = true) [demo_local_addr; demo_addr] = [demo_addr].
Proof.
  destruct (identify_addresses_filtered 3 demo_info [demo_local_addr; demo_addr] demo_addr demo_id_received) as [H _].
  - vm_compute. reflexivity.
  - repeat constructor; [exact demo_local_addr_wf|exact demo_addr_wf].
  - exact demo_addr_wf.
  - split; [rw H; reflexivity|vm_compute; reflexivity].
Defined.

(** Of two peers, the one that identified itself in time is disconnected by the timer,
    and the silent one is not. *)
Definition demo_two : IdentifyProtocol CbLog :=
  mkIdentifyProtocol ([], []) {[ 3%nat := demo_info; 4%nat := mkRemoteInfo (ri_peer_id demo_info) demo_session 0 DEFAULT_TIMEOUT false ]}
    true true [].

Lemma identify_timeout_inverted_witness :
  ∃ l, id_notify 1000 demo_two = (Ok (), foldl report_timeout demo_two l) ∧ (3%nat, demo_info) ∈ l ∧
    id_actions (foldl report_timeout demo_two l) = [IdDisconnect 3].
Proof.
  destruct (identify_timeout_inverted 1000 demo_two) as (l & _ & Hl & Hn & _); [reflexivity|].
  exists l. split; [exact Hn|]. split.
  - apply Hl. split; [reflexivity|]. split; [reflexivity|vm_compute; congruence].
  - assert (foldl report_timeout demo_two l = (id_notify 1000 demo_two).2) as -> by by rw Hn. vm_compute. reflexivity.
Defined.
