(* ===== verification/DiscoveryMessages.v ===== *)
(** * The discovery protocol: messages

    [protocols/discovery/src/protocol.rs] with the generated readers and builders
    of [protocol_mol.rs]. tokio's length-delimited codec, which wraps a message
    for historical reasons, is a parameter. *)
From S2P Require Import Prelude Text StdNet Multiaddr MultiaddrFacts Molecule MoleculeFacts SecioMessages PeerId AddrUtils.

Record Node := mkNode { addresses : list Multiaddr }.
Record Nodes := mkNodes { announce : bool; items : list Node }.

Inductive DiscoveryMessage :=
| GetNodes (version count : Z) (listen_port : option Z)
| NodesMsg (nodes : Nodes).

(** The default limit of tokio's codec, 8 MB. *)
Definition MAX_DELIMITED : Z := 8 * 1024 * 1024.

(** [LengthDelimitedCodec]: encoding fails above its frame limit; decoding yields
    the first frame, if it is complete. *)
Class DelimCodec := {
  dl_encode : bytes → option bytes;
  dl_decode : bytes → option bytes;
}.
Class DelimCodecLaws `{DelimCodec} : Prop := {
  dl_decode_encode x y : dl_encode x = Some y → dl_decode y = Some x;
  dl_encode_fits x : is_Some (dl_encode x) ↔ length x ≤ MAX_DELIMITED;
}.

Section messages.
Context `{!MolNumber, !AddrCodecs}.

(** ** Readers *)

Definition disc_uint32_verify : Verifier := array_verify 4.
Definition disc_uint16_verify : Verifier := array_verify 2.
Definition bool_verify : Verifier := array_verify 1.
Definition bytes_vec_verify : Verifier := dynvec_verify fixvec_verify.
Definition node_verify : Verifier := old_table_verify [bytes_vec_verify].
Definition node_vec_verify : Verifier := dynvec_verify node_verify.
Definition port_opt_verify : Verifier := option_verify disc_uint16_verify.
Definition get_nodes_verify : Verifier :=
  old_table_verify [disc_uint32_verify; disc_uint32_verify; port_opt_verify].
Definition nodes_verify : Verifier := old_table_verify [bool_verify; node_vec_verify].
Definition discovery_payload_verify : Verifier := union_verify [get_nodes_verify; nodes_verify].
Definition discovery_message_verify : Verifier := old_table_verify [discovery_payload_verify].

(** ** Encoding *)

Definition get_nodes_write (version count : Z) (listen_port : option Z) : bytes :=
  table_write [le_bytes 4 version; le_bytes 4 count; option_write (le_bytes 2 <$> listen_port)].
Definition addr_write (addr : Multiaddr) : bytes := fixvec_write (ma_bytes addr).
Definition node_write (n : Node) : bytes := table_write [dynvec_write (addr_write <$> addresses n)].
Definition nodes_write (ns : Nodes) : bytes :=
  table_write [[Z_byte (if announce ns then 1 else 0)]; dynvec_write (node_write <$> items ns)].

Definition discovery_encode (m : DiscoveryMessage) : bytes :=
  table_write [
    match m with
    | GetNodes version count listen_port => union_write 0 (get_nodes_write version count listen_port)
    | NodesMsg ns => union_write 1 (nodes_write ns)
    end].

(** ** Decoding *)

Fixpoint decode_addrs {A} (addrs : list bytes) (k : list Multiaddr → VR (option A)) : VR (option A) :=
  match addrs with
  | [] => k []
  | addr :: addrs =>
      raw ← fixvec_raw_data addr;
      match try_from raw with
      | Some (Ok m) => decode_addrs addrs (λ ms, k (m :: ms))
      | Some (Err _) => Ok None
      | Some Panic | None => Panic
      end
  end.

Fixpoint decode_nodes {A} (nodes : list bytes) (k : list Node → VR (option A)) : VR (option A) :=
  match nodes with
  | [] => k []
  | node :: nodes =>
      vec ← table_field 1 0 node;
      addrs ← dynvec_items vec;
      decode_addrs addrs (λ ms, decode_nodes nodes (λ ns, k (mkNode ms :: ns)))
  end.

Definition decode_get_nodes (reader : bytes) : VR (option DiscoveryMessage) :=
  version ← table_field 3 0 reader;
  count ← table_field 3 1 reader;
  port ← table_field 3 2 reader;
  Ok (Some (GetNodes (from_le 4 version) (from_le 4 count) (from_le 2 <$> option_to_opt port))).

Definition decode_nodes_message (reader : bytes) : VR (option DiscoveryMessage) :=
  announce ← table_field 2 0 reader;
  match announce with
  | [] => Panic
  | b :: _ =>
      if (byte_Z b =? 0) || (byte_Z b =? 1) then
        vec ← table_field 2 1 reader;
        nodes ← dynvec_items vec;
        decode_nodes nodes (λ ns, Ok (Some (NodesMsg (mkNodes (byte_Z b =? 1) ns))))
      else Ok None
  end.

Definition discovery_decode (data : bytes) : VR (option DiscoveryMessage) :=
  decode_with discovery_message_verify data (λ reader,
    payload ← table_field 1 0 reader;
    item ← union_to_enum 2 payload;
    match item.1 with
    | O => decode_get_nodes item.2
    | _ => decode_nodes_message item.2
    end).

(** ** The delimited form *)

Context `{!DelimCodec}.

(** [encode]; [expect] on the codec. *)
Definition encode (m : DiscoveryMessage) : VR bytes :=
  match dl_encode (discovery_encode m) with Some b => Ok b | None => Panic end.

Definition decode (data : bytes) : VR (option DiscoveryMessage) :=
  match dl_decode data with
  | Some frame => discovery_decode frame
  | None => Ok None
  end.
End messages.

(** ** Facts *)

Section facts.
Context {MN : MolNumber} {ML : MolNumberLaws} {AC : AddrCodecs} {AL : AddrCodecsLaws}.

Definition node_wf (n : Node) : Prop := Forall addr_wf (addresses n).

(** Numbers in their ranges and well-formed addresses. *)
Definition message_wf (m : DiscoveryMessage) : Prop :=
  match m with
  | GetNodes version count listen_port => is_u32 version ∧ is_u32 count ∧ from_option is_u16 True listen_port
  | NodesMsg ns => Forall node_wf (items ns)
  end.

Lemma decode_addrs_write {A} ms (k : list Multiaddr → VR (option A)) :
  Forall addr_wf ms → Forall (λ m, length (addr_write m) < 2 ^ 32) ms →
  decode_addrs (addr_write <$> ms) k = k ms.
Proof.
  intros H. revert k. induction H as [|m ms Hm _ IH]; intros k Hl; [done|]. apply Forall_cons in Hl as [Hl Hls].
  cbn [fmap list_fmap decode_addrs]. rw /addr_write fixvec_read_write.
  cbn [mbind Res_bind]. rw try_from_wf //. by apply IH.
Qed.

Lemma decode_addrs_yields {A} P addrs (k : list Multiaddr → VR (option A)) :
  Forall (λ s, fixvec_verify s true = Ok ()) addrs → P None →
  (∀ ms, Forall addr_wf ms → yields P (k ms)) → yields P (decode_addrs addrs k).
Proof.
  intros H HP. revert k. induction H as [|s addrs Hs _ IH]; intros k Hk; [by apply Hk|].
  cbn [decode_addrs]. destruct (fixvec_verified _ _ Hs) as [d Hd]. rw Hd. cbn [mbind Res_bind].
  destruct (try_from_total d) as [(m & -> & Hm)|[e ->]]; [|by exists None].
  apply IH. intros ms Hms. apply Hk. by constructor.
Qed.

(** A written vector of written addresses. *)
Lemma addrs_roundtrip ms c :
  length (dynvec_write (addr_write <$> ms)) < 2 ^ 32 →
  bytes_vec_verify (dynvec_write (addr_write <$> ms)) c = Ok () ∧
  dynvec_items (dynvec_write (addr_write <$> ms)) = Ok (addr_write <$> ms).
Proof.
  intros Hl. apply dynvec_roundtrip; [done|]. pose proof (dynvec_parts _ Hl) as Hd. rewrite -> !Forall_fmap in *.
  eapply Forall_impl; [exact Hd|]. intros m Hm. apply fixvec_verify_write. cbn in Hm. rw /addr_write /fixvec_write length_app in Hm. lia.
Qed.

Lemma node_roundtrip {A} n ns (k : list Node → VR (option A)) c :
  node_wf n → length (node_write n) < 2 ^ 32 →
  node_verify (node_write n) c = Ok () ∧
  decode_nodes (node_write n :: ns) k = decode_nodes ns (λ ns, k (n :: ns)).
Proof.
  intros Hn Hl. pose proof (table_parts _ Hl) as Hp. apply Forall_cons in Hp as [Hp _].
  pose proof (dynvec_parts _ Hp) as Hd. apply Forall_fmap in Hd. destruct (addrs_roundtrip _ c Hp) as [Hv Hi].
  split.
  - apply old_table_Ok; [done|]. by apply table_verify_write; [| |repeat constructor].
  - cbn [decode_nodes]. rw /node_write (table_read_write [_] 0 _ Hl eq_refl). cbn [mbind Res_bind]. rw Hi. cbn [mbind Res_bind].
    rw decode_addrs_write //. by destruct n.
Qed.

Lemma decode_nodes_write {A} ns (k : list Node → VR (option A)) :
  Forall node_wf ns → Forall (λ n, length (node_write n) < 2 ^ 32) ns → decode_nodes (node_write <$> ns) k = k ns.
Proof.
  intros H. revert k. induction H as [|n ns Hn _ IH]; intros k Hl; [done|]. apply Forall_cons in Hl as [Hl Hls].
  cbn [fmap list_fmap]. destruct (node_roundtrip n (node_write <$> ns) k true Hn Hl) as [_ ->]. by apply IH.
Qed.

Lemma node_vec_roundtrip ns c :
  Forall node_wf ns → length (dynvec_write (node_write <$> ns)) < 2 ^ 32 →
  node_vec_verify (dynvec_write (node_write <$> ns)) c = Ok () ∧
  dynvec_items (dynvec_write (node_write <$> ns)) = Ok (node_write <$> ns).
Proof.
  intros Hwf Hl. apply dynvec_roundtrip; [done|]. pose proof (dynvec_parts _ Hl) as Hd. rewrite -> !Forall_fmap in *.
  eapply Forall_impl; [apply Forall_and; split; [exact Hwf|exact Hd]|]. intros n [Hn Hx].
  by destruct (node_roundtrip n [] (λ _, Ok (@None unit)) c Hn Hx).
Qed.

Lemma node_verified s c : node_verify s c = Ok () →
  ∃ vec addrs, table_field 1 0 s = Ok vec ∧ dynvec_items vec = Ok addrs ∧ Forall (λ a, fixvec_verify a c = Ok ()) addrs.
Proof.
  intros (vec & Hf & (addrs & Hi & Hall)%dynvec_verified)%old_table_1_verified. by exists vec, addrs.
Qed.

Lemma decode_nodes_yields {A} P nodes (k : list Node → VR (option A)) :
  Forall (λ s, node_verify s true = Ok ()) nodes → P None →
  (∀ ns, Forall node_wf ns → yields P (k ns)) → yields P (decode_nodes nodes k).
Proof.
  intros H HP. revert k. induction H as [|s nodes Hs _ IH]; intros k Hk; [by apply Hk|].
  destruct (node_verified _ _ Hs) as (vec & addrs & Hf & Hi & Hall). cbn [decode_nodes].
  rw Hf. cbn [mbind Res_bind]. rw Hi. cbn [mbind Res_bind]. apply decode_addrs_yields; [done..|].
  intros ms Hms. apply IH. intros ns Hns. apply Hk. by constructor.
Qed.

(** *** The two payloads *)

Lemma get_nodes_roundtrip v n p :
  message_wf (GetNodes v n p) →
  get_nodes_verify (get_nodes_write v n p) true = Ok () ∧
  decode_get_nodes (get_nodes_write v n p) = Ok (Some (GetNodes v n p)).
Proof.
  intros (Hv & Hn & Hp). set (xs := [le_bytes 4 v; le_bytes 4 n; option_write (le_bytes 2 <$> p)]).
  assert (length (option_write (le_bytes 2 <$> p)) ≤ 2)%nat as Hpl.
  { destruct p; cbn; [by rewrite -> le_bytes_length|lia]. }
  assert (length (table_write xs) < 2 ^ 32) as Hl.
  { rw /xs table_write_length. cbn [concat length]. rewrite -> !length_app. rw !le_bytes_length. cbn [length]. lia. }
  assert (option_to_opt (option_write (le_bytes 2 <$> p)) = le_bytes 2 <$> p ∧
    port_opt_verify (option_write (le_bytes 2 <$> p)) true = Ok ()) as [Ho Hov] by (by destruct p).
  split.
  - apply old_table_Ok; [done|]. apply table_verify_write; [done..|].
    constructor; [by apply array_verified, le_bytes_length|]. constructor; [by apply array_verified, le_bytes_length|].
    by repeat constructor.
  - assert (∀ i x, xs !! i = Some x → table_field 3 i (table_write xs) = Ok x) as Hf by (intros i x; by apply (table_read_write xs)).
    rw /decode_get_nodes. change (get_nodes_write v n p) with (table_write xs).
    rw (Hf 0%nat _ eq_refl) (Hf 1%nat _ eq_refl) (Hf 2%nat _ eq_refl). cbn [mbind Res_bind].
    rewrite -> Ho, !from_le_bytes by (unfold_int; lia). destruct p as [p|]; [|done].
    cbn [fmap option_fmap option_map]. rewrite -> from_le_bytes; [done|]. cbn in Hp. unfold_int. lia.
Qed.

Lemma nodes_roundtrip ns :
  message_wf (NodesMsg ns) → length (nodes_write ns) < 2 ^ 32 →
  nodes_verify (nodes_write ns) true = Ok () ∧ decode_nodes_message (nodes_write ns) = Ok (Some (NodesMsg ns)).
Proof.
  intros Hwf Hl. pose proof (table_parts _ Hl) as Hp. apply Forall_cons in Hp as [_ Hp]. apply Forall_cons in Hp as [Hp _].
  pose proof (dynvec_parts _ Hp) as Hd. apply Forall_fmap in Hd. destruct (node_vec_roundtrip _ true Hwf Hp) as [Hv Hi].
  split.
  - apply old_table_Ok; [done|]. by apply table_verify_write; [| |repeat constructor].
  - rw /decode_nodes_message. rw (table_read_write [_; _] 0 _ Hl eq_refl) (table_read_write [_; _] 1 _ Hl eq_refl).
    cbn [mbind Res_bind]. rw Hi. cbn [mbind Res_bind]. rw decode_nodes_write //. by destruct ns as [[] ?].
Qed.

Lemma get_nodes_yields s :
  get_nodes_verify s true = Ok () → yields (from_option message_wf True) (decode_get_nodes s).
Proof.
  intros H%old_table_Ok; [|done].
  destruct (table_verified _ _ _ 0%nat _ H eq_refl) as (v & Hv & Hvl%array_verified).
  destruct (table_verified _ _ _ 1%nat _ H eq_refl) as (n & Hn & Hnl%array_verified).
  destruct (table_verified _ _ _ 2%nat _ H eq_refl) as (p & Hp & Hpv).
  change (length [disc_uint32_verify; disc_uint32_verify; port_opt_verify]) with 3%nat in *.
  rw /decode_get_nodes Hv Hn Hp. cbn [mbind Res_bind]. eexists. split; [done|].
  pose proof (from_le_range 4 v). pose proof (from_le_range 4 n). pose proof (from_le_range 2 p).
  assert (from_option is_u16 True (from_le 2 <$> option_to_opt p)).
  { apply option_verified in Hpv as [[_ ->]|[-> _]]; [done|]. cbn. unfold_int. lia. }
  cbn [from_option message_wf]. unfold_int. split; [lia|]. by split; [lia|].
Qed.

Lemma nodes_yields s :
  nodes_verify s true = Ok () → yields (from_option message_wf True) (decode_nodes_message s).
Proof.
  intros H%old_table_Ok; [|done].
  destruct (table_verified _ _ _ 0%nat _ H eq_refl) as (b & Hb & Hbl%array_verified).
  destruct (table_verified _ _ _ 1%nat _ H eq_refl) as (l & Hl & (nodes & Hi & Hall)%dynvec_verified).
  change (length [bool_verify; node_vec_verify]) with 2%nat in *.
  rw /decode_nodes_message Hb. cbn [mbind Res_bind]. destruct b as [|b ?]; [done|].
  destruct (_ || _); [|by exists None]. rw Hl. cbn [mbind Res_bind]. rw Hi. cbn [mbind Res_bind].
  apply decode_nodes_yields; [done..|]. intros ns Hns. by eexists.
Qed.

(** *** The message *)

Lemma discovery_item_roundtrip (id : nat) x :
  (id < 2)%nat → length (table_write [union_write id x]) < 2 ^ 32 →
  match id with O => get_nodes_verify | _ => nodes_verify end x true = Ok () →
  discovery_decode (table_write [union_write id x]) = match id with O => decode_get_nodes x | _ => decode_nodes_message x end.
Proof.
  intros Hid Hl Hx. rw /discovery_decode /decode_with.
  destruct (union_roundtrip [get_nodes_verify; nodes_verify] id
    (match id with O => get_nodes_verify | _ => nodes_verify end) x true) as [Hv He];
    [by destruct id as [|[|]]; [| |lia]|done|].
  change (length [get_nodes_verify; nodes_verify]) with 2%nat in He.
  assert (discovery_message_verify (table_write [union_write id x]) true = Ok ()) as ->.
  { apply old_table_Ok; [done|]. apply table_verify_write; [done..|]. constructor; [|constructor]. by rw -Hx -Hv. }
  rw (table_read_write [_] 0 _ Hl eq_refl). cbn [mbind Res_bind]. rw He. cbn [mbind Res_bind fst snd]. by destruct id.
Qed.

Lemma discovery_roundtrip m :
  message_wf m → length (discovery_encode m) < 2 ^ 32 → discovery_decode (discovery_encode m) = Ok (Some m).
Proof.
  intros Hm Hl. destruct m as [v n p|ns].
  - destruct (get_nodes_roundtrip v n p Hm) as [Hv Hd]. rw -Hd. by apply (discovery_item_roundtrip 0); [lia|..].
  - pose proof (table_parts _ Hl) as Hp. apply Forall_cons in Hp as [Hp _]. rw /union_write length_app in Hp.
    destruct (nodes_roundtrip ns Hm) as [Hv Hd]; [lia|]. rw -Hd. by apply (discovery_item_roundtrip 1); [lia|..].
Qed.

Lemma port_opt_no_panic s c : port_opt_verify s c ≠ Panic.
Proof. apply option_no_panic, array_no_panic. Qed.

Lemma node_vec_no_panic s c : node_vec_verify s c ≠ Panic.
Proof.
  apply dynvec_no_panic. intros x. apply old_table_no_panic; [done|]. intros f y ->%list_elem_of_singleton.
  apply dynvec_no_panic. intros z. apply fixvec_no_panic.
Qed.

Lemma discovery_message_no_panic s c : discovery_message_verify s c ≠ Panic.
Proof.
  apply old_table_no_panic; [done|]. intros f x ->%list_elem_of_singleton. apply union_no_panic.
  intros g y [-> | ->%list_elem_of_singleton]%elem_of_cons; (apply old_table_no_panic; [done|]); intros h z Hh.
  - apply elem_of_cons in Hh as [->|Hh]; [apply array_no_panic|].
    apply elem_of_cons in Hh as [-> | ->%list_elem_of_singleton]; [apply array_no_panic|apply port_opt_no_panic].
  - apply elem_of_cons in Hh as [-> | ->%list_elem_of_singleton]; [apply array_no_panic|apply node_vec_no_panic].
Qed.

(** Every input is decoded, and to a well-formed message if to one. *)
Lemma discovery_decode_yields data : yields (from_option message_wf True) (discovery_decode data).
Proof.
  rw /discovery_decode /decode_with. destruct (discovery_message_verify data true) as [[]|e|] eqn:Hv; last first.
  { by apply discovery_message_no_panic in Hv. }
  { by exists None. }
  apply old_table_1_verified in Hv as (p & Hp & (id & item & x & Hid & He & Hx)%union_verified).
  change (length [get_nodes_verify; nodes_verify]) with 2%nat in He.
  rw Hp. cbn [mbind Res_bind]. rw He. cbn [mbind Res_bind fst snd].
  destruct id as [|[|]]; simplify_eq/=; [by apply get_nodes_yields|by apply nodes_yields].
Qed.

Context {DC : DelimCodec} {DL : DelimCodecLaws}.

(** A message that fits a frame. *)
Lemma encode_decode m :
  message_wf m → length (discovery_encode m) ≤ MAX_DELIMITED → ∃ b, encode m = Ok b ∧ decode b = Ok (Some m).
Proof.
  intros Hm Hl. rw /encode /decode. destruct (proj2 (dl_encode_fits (discovery_encode m)) Hl) as [y Hy].
  exists y. rw Hy (dl_decode_encode _ _ Hy). split; [done|]. apply discovery_roundtrip; [done|]. unfold MAX_DELIMITED in *. lia.
Qed.

Lemma decode_yields data : yields (from_option message_wf True) (decode data).
Proof. rw /decode. destruct (dl_decode data); [apply discovery_decode_yields|by exists None]. Qed.
End facts.

(** ** The codec, concretely *)

#[global] Instance BeDelim : DelimCodec := {|
  dl_encode x := if length x <=? MAX_DELIMITED then Some (be_bytes 4 (length x) ++ x) else None;
  dl_decode x :=
    let n := be_Z (take 4 x) in
    if (4 <=? length x) && (n <=? MAX_DELIMITED) && (4 + n <=? length x)
    then Some (take (Z.to_nat n) (drop 4 x)) else None;
|}.

#[global] Instance BeDelimLaws : DelimCodecLaws.
Proof.
  split; cbn [dl_encode dl_decode BeDelim].
  - intros x y. case: Z.leb_spec => Hl; [|done]. intros <-%(inj Some). cbv zeta.
    rw (take_app_length' (be_bytes 4 _)); [|by rw length_be_bytes]. rw be_Z_put; [|unfold MAX_DELIMITED in *; lia].
    rw drop_app_length'; [|by rw length_be_bytes]. rw length_app length_be_bytes Nat2Z.id take_ge //.
    by rewrite -> (proj2 (Z.leb_le 4 _)), (proj2 (Z.leb_le _ MAX_DELIMITED)), (proj2 (Z.leb_le (4 + _) _)) by lia.
  - intros x. case: Z.leb_spec => Hl; split; intros H; [done|by eexists|by destruct H|lia].
Qed.
