(* ===== verification/Discovery.v ===== *)
(** * The discovery protocol: the handler

    [protocols/discovery/src/state.rs], [addr.rs] and [lib.rs]. The address
    manager is an interface ([AddressManager], a trait of the crate), as are the
    Bloom filter of known addresses ([AddrKnown]) and the random choices
    ([Rng]); tokio's codec with its frame of 8 MiB is that of [DiscoveryMessages].
    Calls of the service's context are actions; time is in seconds
    and given with each event. The order in which a [HashMap] is iterated is that
    of stdpp's maps. *)
From S2P Require Import Prelude Text StdNet Multiaddr MultiaddrFacts Molecule MoleculeFacts SecioMessages PeerId AddrUtils DiscoveryMessages.

Definition VERSION : Z := 0.
Definition CHECK_INTERVAL : Z := 3.
Definition ANNOUNCE_THRESHOLD : nat := 10.
Definition MAX_ADDR_TO_SEND : nat := 1000.
Definition DISC_MAX_ADDRS : nat := 3.
Definition ANNOUNCE_INTERVAL : Z := 3600 * 24.

(** [addr.rs]. *)
Inductive Misbehavior :=
| DuplicateGetNodes
| DuplicateFirstNodes
| TooManyItems (announce : bool) (length : nat)
| TooManyAddresses (n : nat)
| InvalidData.
Inductive MisbehaveResult := Disconnect | Continue.

Definition is_disconnect (r : MisbehaveResult) : bool :=
  match r with Disconnect => true | Continue => false end.

(** The trait [AddressManager]. *)
Class AddressManager (C : Type) := {
  am_is_valid_addr : Multiaddr → C → bool;
  am_add_new_addr : nat → Multiaddr → C → C;
  am_add_new_addrs : nat → list Multiaddr → C → C;
  am_misbehave : nat → Misbehavior → C → MisbehaveResult * C;
  am_get_random : nat → C → list Multiaddr * C;
}.

(** [AddrKnown], a wrapper of a stable Bloom filter, which may forget. *)
Class AddrKnown (K : Type) := {
  ak_default : K;
  ak_insert : Multiaddr → K → K;
  ak_contains : Multiaddr → K → bool;
}.

(** [choose_multiple] and [shuffle] of the thread's generator. *)
Class Rng (R : Type) := {
  choose_multiple : nat → list Multiaddr → R → list Multiaddr * R;
  shuffle : list nat → R → list nat * R;
}.
Class RngLaws (R : Type) `{Rng R} : Prop := {
  choose_multiple_spec n l r l' r' :
    choose_multiple n l r = (l', r') → length l' = Nat.min n (length l) ∧ ∃ rest, l' ++ rest ≡ₚ l;
  shuffle_perm l r l' r' : shuffle l r = (l', r') → l' ≡ₚ l;
}.

Inductive RemoteAddress := RInit (addr : Multiaddr) | RListen (addr : Multiaddr).

Definition to_inner (r : RemoteAddress) : Multiaddr := match r with RInit a | RListen a => a end.

Record SessionState (K : Type) := mkSessionState {
  addr_known : K;
  remote_addr : RemoteAddress;
  last_announce : option Z;
  announce_multiaddrs : list Multiaddr;
  received_get_nodes : bool;
  received_nodes : bool;
}.
Arguments mkSessionState {K}.
Arguments addr_known {K}.
Arguments remote_addr {K}.
Arguments last_announce {K}.
Arguments announce_multiaddrs {K}.
Arguments received_get_nodes {K}.
Arguments received_nodes {K}.

(** Calls of the service's context. *)
Inductive DAction :=
| DSetNotify (interval token : Z)
| DDisconnect (session : nat)
| DSend (session : nat) (data : bytes).

(** [DiscoveryProtocol], with the thread's generator and the actions so far. *)
Record DiscoveryProtocol (C K R : Type) := mkDiscovery {
  sessions : gmap nat (SessionState K);
  dynamic_query_cycle : option Z;
  addr_mgr : C;
  check_interval : option Z;
  rng : R;
  d_actions : list DAction;
}.
Arguments mkDiscovery {C K R}.
Arguments sessions {C K R}.
Arguments dynamic_query_cycle {C K R}.
Arguments addr_mgr {C K R}.
Arguments check_interval {C K R}.
Arguments rng {C K R}.
Arguments d_actions {C K R}.

(** The fields of the session's context that the handler uses. *)
Record DSession := mkDSession { ds_id : nat; ds_address : Multiaddr; ds_outbound : bool }.

(** ** Checking a [Nodes] message *)

Definition verify_nodes_message (nodes : Nodes) : option Misbehavior :=
  let misbehavior :=
    if announce nodes then
      if bool_decide (ANNOUNCE_THRESHOLD < length (items nodes))%nat
      then Some (TooManyItems (announce nodes) (length (items nodes))) else None
    else if bool_decide (MAX_ADDR_TO_SEND < length (items nodes))%nat
      then Some (TooManyItems (announce nodes) (length (items nodes))) else None in
  match misbehavior with
  | Some m => Some m
  | None =>
      match list_find (λ item, (DISC_MAX_ADDRS < length (addresses item))%nat) (items nodes) with
      | Some (_, item) => Some (TooManyAddresses (length (addresses item)))
      | None => None
      end
  end.

Section handler.
Context `{!MolNumber, !AddrCodecs, !DelimCodec} {C K R : Type} `{!AddressManager C, !AddrKnown K, !Rng R}.
Abbreviation State := (SessionState K).
Abbreviation St := (DiscoveryProtocol C K R).
Abbreviation Disc A := (M St Empty_set A).

(** ** Accessors *)

Definition d_emit (a : DAction) : Disc unit :=
  modify (λ h, mkDiscovery (sessions h) (dynamic_query_cycle h) (addr_mgr h) (check_interval h) (rng h) (d_actions h ++ [a])).
Definition on_sessions (f : gmap nat State → gmap nat State) : Disc unit :=
  modify (λ h, mkDiscovery (f (sessions h)) (dynamic_query_cycle h) (addr_mgr h) (check_interval h) (rng h) (d_actions h)).
Definition put_state (id : nat) (s : State) : Disc unit := on_sessions <[id := s]>.
(** A call of the address manager. *)
Definition mgr {A} (f : C → A * C) : Disc A := λ h,
  let '(a, c) := f (addr_mgr h) in
  (Ok a, mkDiscovery (sessions h) (dynamic_query_cycle h) c (check_interval h) (rng h) (d_actions h)).
(** A random choice. *)
Definition random {A} (f : R → A * R) : Disc A := λ h,
  let '(a, r) := f (rng h) in
  (Ok a, mkDiscovery (sessions h) (dynamic_query_cycle h) (addr_mgr h) (check_interval h) r (d_actions h)).

(** [encode] and [send_message]. *)
Definition send (id : nat) (m : DiscoveryMessage) : Disc unit :=
  match encode m with
  | Ok msg => d_emit (DSend id msg)
  | _ => panic
  end.

Definition node_of (addr : Multiaddr) : Node := mkNode [addr].

Definition extend (addrs : list Multiaddr) (k : K) : K := foldl (λ k a, ak_insert a k) k addrs.

(** ** [state.rs] *)

(** The port of the first listen address that is a socket address. *)
Fixpoint first_port (listens : list Multiaddr) : Disc (option Z) :=
  match listens with
  | [] => mret None
  | address :: listens =>
      match multiaddr_to_socketaddr address with
      | Some (Ok (Some addr)) => mret (Some (port addr))
      | Some (Ok None) => first_port listens
      | _ => panic
      end
  end.

Definition session_state_new (session : DSession) (listens : list Multiaddr) : Disc State :=
  if ds_outbound session then
    port ← first_port listens;
    send (ds_id session) (GetNodes VERSION MAX_ADDR_TO_SEND port);;
    mret (mkSessionState (ak_insert (ds_address session) ak_default) (RListen (ds_address session)) None [] false false)
  else mret (mkSessionState ak_default (RInit (ds_address session)) None [] false false).

(** [now - time] is zero when [time] is later. *)
Definition check_timer (now interval : Z) (s : State) : option Multiaddr * State :=
  if match last_announce s with Some time => interval <? Z.max 0 (now - time) | None => true end then
    (match remote_addr s with RListen addr => Some addr | RInit _ => None end,
     mkSessionState (addr_known s) (remote_addr s) (Some now) (announce_multiaddrs s) (received_get_nodes s) (received_nodes s))
  else (None, s).

Definition send_messages (id : nat) (s : State) : Disc State :=
  match announce_multiaddrs s with
  | [] => mret s
  | addrs =>
      send id (NodesMsg (mkNodes true (node_of <$> addrs)));;
      mret (mkSessionState (addr_known s) (remote_addr s) (last_announce s) [] (received_get_nodes s) (received_nodes s))
  end.

Definition update_port (port : Z) (r : RemoteAddress) : Disc RemoteAddress :=
  match r with
  | RInit addr =>
      match iter addr with
      | Some (Ok ps) => mret (RListen (from_iter ((λ p, match p with Tcp _ => Tcp port | p => p end) <$> ps)))
      | _ => panic
      end
  | RListen _ => mret r
  end.

(** ** [lib.rs] *)

Definition discovery_new (addr_mgr : C) (query_cycle check_interval : option Z) (r : R) : St :=
  mkDiscovery ∅ query_cycle addr_mgr check_interval r [].

(** [init]; [set] is the result of [set_service_notify], which is expected. *)
Definition d_init (set : Res unit unit) : Disc unit :=
  i ← gets check_interval;
  d_emit (DSetNotify (default CHECK_INTERVAL i) 0);;
  match set with Ok _ => mret () | _ => panic end.

Definition d_connected (session : DSession) (listens : list Multiaddr) : Disc unit :=
  s ← session_state_new session listens;
  put_state (ds_id session) s.

Definition d_disconnected (id : nat) : Disc unit := on_sessions (delete id).

(** The closure [check]: whether the session is to be dropped. *)
Definition check (id : nat) (behavior : Misbehavior) : Disc bool :=
  r ← mgr (am_misbehave id behavior);
  when (is_disconnect r) (d_emit (DDisconnect id));;
  mret (is_disconnect r).

(** The listen port of a [GetNodes]: the new state, and the address for the manager. *)
Definition learn_port (id : nat) (listen_port : option Z) (s : State) : Disc State :=
  match listen_port with
  | None => mret s
  | Some port =>
      remote ← update_port port (remote_addr s);
      let s := mkSessionState (ak_insert (to_inner remote) (addr_known s)) remote (last_announce s)
        (announce_multiaddrs s) (received_get_nodes s) (received_nodes s) in
      match remote with
      | RListen addr => mgr (λ c, ((), am_add_new_addr id addr c))
      | RInit _ => mret ()
      end;;
      mret s
  end.

(** The branch of [received] for [GetNodes]. *)
Definition received_get (id : nat) (count : Z) (listen_port : option Z) : Disc unit :=
  o ← gets (λ h, sessions h !! id);
  match o with
  | None => mret ()
  | Some s =>
      stop ← (if received_get_nodes s then check id DuplicateGetNodes else mret false);
      if (stop : bool) then mret ()
      else
        let s := mkSessionState (addr_known s) (remote_addr s) (last_announce s) (announce_multiaddrs s) true (received_nodes s) in
        items ← mgr (am_get_random 2500);
        s ← learn_port id listen_port s;
        let max := Nat.max MAX_ADDR_TO_SEND (Z.to_nat count) in
        items ← (if bool_decide (max < length items)%nat then random (choose_multiple max items) else mret items);
        put_state id (mkSessionState (extend items (addr_known s)) (remote_addr s) (last_announce s)
          (announce_multiaddrs s) (received_get_nodes s) (received_nodes s));;
        send id (NodesMsg (mkNodes false (node_of <$> items)))
  end.

(** The branch of [received] for [Nodes]. *)
Definition received_nodes_msg (id : nat) (nodes : Nodes) : Disc unit :=
  stop ← match verify_nodes_message nodes with
         | Some misbehavior => check id misbehavior
         | None => mret false
         end;
  if (stop : bool) then mret ()
  else
    o ← gets (λ h, sessions h !! id);
    match o with
    | None => mret ()
    | Some s =>
        if negb (announce nodes) && received_nodes s then
          check id DuplicateFirstNodes;; mret ()
        else
          let addrs := items nodes ≫= addresses in
          put_state id (mkSessionState (extend addrs (addr_known s)) (remote_addr s) (last_announce s)
            (announce_multiaddrs s) (received_get_nodes s) (if negb (announce nodes) then true else received_nodes s));;
          mgr (λ c, ((), am_add_new_addrs id addrs c))
    end.

Definition d_received (id : nat) (data : bytes) : Disc unit :=
  match decode data with
  | Ok (Some (GetNodes _ count listen_port)) => received_get id count listen_port
  | Ok (Some (NodesMsg nodes)) => received_nodes_msg id nodes
  | Ok None => check id InvalidData;; mret ()
  | Err _ | Panic => panic
  end.

(** The loop over the sessions that gathers the addresses to announce. *)
Fixpoint announce_loop (now cycle : Z) (ids : list nat) : Disc (list Multiaddr) :=
  match ids with
  | [] => mret []
  | id :: ids =>
      o ← gets (λ h, sessions h !! id);
      match o with
      | None => announce_loop now cycle ids
      | Some s =>
          s ← send_messages id s;
          let '(o, s) := check_timer now cycle s in
          put_state id s;;
          c ← gets addr_mgr;
          rest ← announce_loop now cycle ids;
          mret (match o with Some addr => if am_is_valid_addr addr c then addr :: rest else rest | None => rest end)
      end
  end.

(** An address for one of the chosen sessions. *)
Definition announce_to (addr : Multiaddr) (key : nat) : Disc unit :=
  o ← gets (λ h, sessions h !! key);
  match o with
  | Some value =>
      when (bool_decide (length (announce_multiaddrs value) < 10)%nat && negb (ak_contains addr (addr_known value)))
        (put_state key (mkSessionState (ak_insert addr (addr_known value)) (remote_addr value) (last_announce value)
          (announce_multiaddrs value ++ [addr]) (received_get_nodes value) (received_nodes value)))
  | None => mret ()
  end.

Fixpoint for_each {A} (f : A → Disc unit) (l : list A) : Disc unit :=
  match l with
  | [] => mret ()
  | x :: l => f x;; for_each f l
  end.

(** The loop over the addresses; the keys are shuffled in place. *)
Fixpoint spread_loop (announce_list : list Multiaddr) (keys : list nat) : Disc unit :=
  match announce_list with
  | [] => mret ()
  | addr :: announce_list =>
      keys ← random (shuffle keys);
      for_each (announce_to addr) (take 3 keys);;
      spread_loop announce_list keys
  end.

Definition d_notify (now : Z) : Disc unit :=
  cycle ← gets (λ h, default ANNOUNCE_INTERVAL (dynamic_query_cycle h));
  keys ← gets (λ h, (map_to_list (sessions h)).*1);
  announce_list ← announce_loop now cycle keys;
  if bool_decide (announce_list = []) then mret ()
  else
    keys ← gets (λ h, (map_to_list (sessions h)).*1);
    spread_loop announce_list keys.

(** ** Events, as the service delivers them *)

Inductive DEvent :=
| DInit (set : Res unit unit)
| DConnected (session : DSession) (listens : list Multiaddr)
| DDisconnected (id : nat)
| DReceived (id : nat) (data : bytes)
| DNotify (now : Z).

Definition d_event (e : DEvent) : Disc unit :=
  match e with
  | DInit set => d_init set
  | DConnected session listens => d_connected session listens
  | DDisconnected id => d_disconnected id
  | DReceived id data => d_received id data
  | DNotify now => d_notify now
  end.

Definition d_run (es : list DEvent) : Disc unit := for_each d_event es.
End handler.

(** ** Facts *)

(** A bound on the size of an address; with it a reply with all of the 2500 nodes that
    the handler asks its manager for fits a frame of the codec. *)
Definition ADDR_BOUND : nat := 3000.

(** A well-formed address, it and its canonical form within the bound. *)
Definition addr_ok `{!AddrCodecs} (m : Multiaddr) : Prop :=
  ∃ ps, Comps (ma_bytes m) ps ∧ (length (ma_bytes m) ≤ ADDR_BOUND)%nat ∧ (length (ma_bytes (from_iter ps)) ≤ ADDR_BOUND)%nat.

(** A manager that yields no more addresses than it is asked for, all within the bound. *)
Definition bounded_manager (C : Type) `{!AddrCodecs, AddressManager C} : Prop :=
  ∀ n (c : C), Forall addr_ok (am_get_random n c).1 ∧ (length (am_get_random n c).1 ≤ n)%nat.

Section facts.
Context {MN : MolNumber} {ML : MolNumberLaws} {AC : AddrCodecs} {AL : AddrCodecsLaws}
  {DC : DelimCodec} {DL : DelimCodecLaws}
  {C K R : Type} {AM : AddressManager C} {AK : AddrKnown K} {RG : Rng R} {RL : RngLaws R}.
Abbreviation State := (SessionState K).
Abbreviation St := (DiscoveryProtocol C K R).
Abbreviation Disc A := (M St Empty_set A).

(** *** The check of [Nodes] messages *)

(** The limit on the number of nodes. *)
Definition items_limit (a : bool) : nat := if a then ANNOUNCE_THRESHOLD else MAX_ADDR_TO_SEND.

Lemma verify_nodes_None nodes :
  verify_nodes_message nodes = None ↔
  (length (items nodes) ≤ items_limit (announce nodes))%nat ∧
  Forall (λ n, length (addresses n) ≤ DISC_MAX_ADDRS)%nat (items nodes).
Proof.
  rw /verify_nodes_message /items_limit. set (o := list_find _ _).
  assert (o = None ↔ Forall (λ n, length (addresses n) ≤ DISC_MAX_ADDRS)%nat (items nodes)) as <-.
  { rw /o list_find_None. apply Forall_proper; [|done]. intros n. lia. }
  destruct (announce nodes); case_bool_decide; destruct o as [[]|]; (split; [|intros [? ?]]); try done; try lia; by split; [lia|].
Qed.

Lemma verify_nodes_too_many nodes :
  (items_limit (announce nodes) < length (items nodes))%nat →
  verify_nodes_message nodes = Some (TooManyItems (announce nodes) (length (items nodes))).
Proof. rw /verify_nodes_message /items_limit. intros H. destruct (announce nodes); by rw bool_decide_eq_true_2. Qed.

(** Nodes of one address each. *)
Lemma verify_node_of a addrs :
  (length addrs ≤ items_limit a)%nat → verify_nodes_message (mkNodes a (node_of <$> addrs)) = None.
Proof.
  intros H. apply verify_nodes_None. cbn [announce items]. rw length_fmap. split; [done|].
  apply Forall_fmap, Forall_true. intros m. cbn. unfold DISC_MAX_ADDRS. lia.
Qed.

(** *** Sizes *)

Lemma concat_length_le (xs : list bytes) (k : nat) :
  Forall (λ x, length x ≤ k)%nat xs → (length (concat xs) ≤ length xs * k)%nat.
Proof. induction 1 as [|x xs Hx _ IH]; [done|]. cbn [concat length]. rw length_app. lia. Qed.

Lemma dynvec_write_length_le (xs : list bytes) (k : nat) :
  Forall (λ x, length x ≤ k)%nat xs → (length (dynvec_write xs) ≤ 4 + length xs * (4 + k))%nat.
Proof.
  intros H. destruct (decide (xs = [])) as [->|Hne]; [by cbn; rewrite -> pack_number_length|].
  rw dynvec_write_nonempty // table_write_length. pose proof (concat_length_le _ _ H). lia.
Qed.

Lemma node_of_length m : length (node_write (node_of m)) = (20 + length (ma_bytes m))%nat.
Proof.
  rw /node_write /node_of table_write_length. cbn [addresses fmap list_fmap concat length].
  rewrite -> app_nil_r, dynvec_write_nonempty, table_write_length by done. cbn [concat length].
  rw app_nil_r /addr_write /fixvec_write length_app pack_number_length. lia.
Qed.

Lemma nodes_message_fits a addrs :
  Forall addr_ok addrs → (length addrs ≤ 2500)%nat →
  length (discovery_encode (NodesMsg (mkNodes a (node_of <$> addrs)))) ≤ MAX_DELIMITED.
Proof.
  intros Ha Hl. assert (Forall (λ x, length x ≤ 20 + ADDR_BOUND)%nat (node_write <$> (node_of <$> addrs))) as Hx.
  { rewrite -> !Forall_fmap. eapply Forall_impl; [exact Ha|]. intros m (ps & _ & Hm & _). cbn -[node_write node_of ADDR_BOUND].
    rw node_of_length. lia. }
  apply dynvec_write_length_le in Hx. revert Hx. rewrite -> !length_fmap. intros Hx.
  rw /discovery_encode /nodes_write /union_write !table_write_length.
  cbn [announce items concat length]. rewrite -> !app_nil_r, !length_app, pack_number_length, table_write_length.
  cbn [concat length]. rewrite -> !length_app. cbn [length].
  unfold ADDR_BOUND, MAX_DELIMITED in *. lia.
Qed.

Lemma get_nodes_fits v n p : length (discovery_encode (GetNodes v n p)) ≤ MAX_DELIMITED.
Proof.
  assert (length (option_write (le_bytes 2 <$> p)) ≤ 2)%nat as Hp.
  { destruct p; cbn; [by rewrite -> le_bytes_length|lia]. }
  rw /discovery_encode /get_nodes_write /union_write !table_write_length.
  cbn [concat length]. rewrite -> !app_nil_r, !length_app, pack_number_length, table_write_length.
  cbn [concat length]. rewrite -> !length_app. rewrite -> !le_bytes_length. cbn [length]. unfold MAX_DELIMITED. lia.
Qed.

Lemma addr_ok_wf m : addr_ok m → addr_wf m.
Proof. intros (ps & H & _). by exists ps. Qed.

Lemma node_of_wf addrs : Forall addr_ok addrs → Forall node_wf (node_of <$> addrs).
Proof.
  intros H. apply Forall_fmap. eapply Forall_impl; [exact H|]. intros m Hm. constructor; [by apply addr_ok_wf|constructor].
Qed.

(** *** The invariant *)

Definition state_ok (s : State) : Prop :=
  addr_ok (to_inner (remote_addr s)) ∧ Forall addr_ok (announce_multiaddrs s) ∧
  (length (announce_multiaddrs s) ≤ ANNOUNCE_THRESHOLD)%nat.

(** What a peer that runs the same handler does not object to. *)
Definition accepted (m : DiscoveryMessage) : Prop :=
  match m with
  | GetNodes _ count _ => count ≤ MAX_ADDR_TO_SEND
  | NodesMsg nodes => verify_nodes_message nodes = None
  end.

(** What was sent is a message; and, if [strict], one that the peer accepts. *)
Definition sent_ok (strict : bool) (a : DAction) : Prop :=
  match a with
  | DSend _ data => ∃ m, decode data = Ok (Some m) ∧ (strict = true → accepted m)
  | _ => True
  end.

(** The most nodes of a message. *)
Definition node_limit (strict a : bool) : nat := if strict then items_limit a else 2500%nat.

Lemma node_limit_le strict a : (node_limit strict a ≤ 2500)%nat.
Proof. destruct strict, a; cbn; unfold ANNOUNCE_THRESHOLD, MAX_ADDR_TO_SEND; lia. Qed.

(** An event of the service: well-formed addresses within the bound, and the notify
    request of [init] accepted. If [strict], peers ask for no more addresses than the
    handler itself does. *)
Definition event_ok (strict : bool) (e : DEvent) : Prop :=
  match e with
  | DInit set => set = Ok ()
  | DConnected session listens => addr_ok (ds_address session) ∧ Forall addr_ok listens
  | DReceived _ data =>
      strict = true → ∀ v count p, decode data = Ok (Some (GetNodes v count p)) → count ≤ MAX_ADDR_TO_SEND
  | _ => True
  end.

Section invariant.
Variable strict : bool.

Definition Inv (h : St) : Prop := map_Forall (λ _, state_ok) (sessions h) ∧ Forall (sent_ok strict) (d_actions h).

(** The same, where the state of session [id] may be anything. *)
Lemma Inv_lookup h id s : Inv h → sessions h !! id = Some s → state_ok s.
Proof. intros [H _] Hs. by apply H in Hs. Qed.

Lemma emit_ok a : sent_ok strict a → ok_on Inv (d_emit a : Disc unit).
Proof. intros Ha. apply ok_modify. intros h [Hs Hh]. split; [done|]. by apply Forall_app_2; [|repeat constructor]. Qed.

Lemma put_state_ok id s : state_ok s → ok_on Inv (put_state id s : Disc unit).
Proof. intros Hs. apply ok_modify. intros h [Hm Hh]. split; [|done]. by apply map_Forall_insert_2. Qed.

Lemma delete_ok id : ok_on Inv (d_disconnected id : Disc unit).
Proof. apply ok_modify. intros h [Hm Hh]. split; [|done]. by apply map_Forall_delete. Qed.

Lemma mgr_val {A} (f : C → A * C) (Q : A → Prop) : (∀ c, Q (f c).1) → ok_val Inv (mgr f : Disc A) Q.
Proof.
  intros HQ h Hh. rw /mgr. specialize (HQ (addr_mgr h)). destruct (f (addr_mgr h)) as [a c]. by eexists a, _.
Qed.

Lemma mgr_ok {A} (f : C → A * C) : ok_on Inv (mgr f : Disc A).
Proof. intros h Hh. destruct (mgr_val f (λ _, True) ltac:(done) h Hh) as (a & h' & ? & ? & _). by exists a, h'. Qed.

Lemma random_val {A} (f : R → A * R) (Q : A → Prop) : (∀ r, Q (f r).1) → ok_val Inv (random f : Disc A) Q.
Proof. intros HQ h Hh. rw /random. specialize (HQ (rng h)). destruct (f (rng h)) as [a r]. by eexists a, _. Qed.

Lemma ret_val {A} (a : A) (Q : A → Prop) : Q a → ok_val Inv (mret a : Disc A) Q.
Proof. intros Ha h Hh. by exists a, h. Qed.

Lemma send_ok id m :
  message_wf m → length (discovery_encode m) ≤ MAX_DELIMITED → (strict = true → accepted m) → ok_on Inv (send id m : Disc unit).
Proof.
  intros Hm Hl Ha. destruct (encode_decode m Hm Hl) as (b & Hb & Hd). rw /send Hb. apply emit_ok. by exists m.
Qed.

Lemma send_nodes_ok id a addrs :
  Forall addr_ok addrs → (length addrs ≤ node_limit strict a)%nat →
  ok_on Inv (send id (NodesMsg (mkNodes a (node_of <$> addrs))) : Disc unit).
Proof.
  intros Ha Hl. apply send_ok.
  - by apply node_of_wf.
  - apply nodes_message_fits; [done|]. pose proof (node_limit_le strict a). lia.
  - intros Hst. apply verify_node_of. by rw Hst in Hl.
Qed.

(** The session's state, if there is one. *)
Lemma with_state_ok {B} id (k : State → Disc B) (d : Disc B) :
  (∀ s, state_ok s → ok_on Inv (k s)) → ok_on Inv d →
  ok_on Inv (o ← gets (λ h : St, sessions h !! id); match o with Some s => k s | None => d end).
Proof.
  intros Hk Hd h Hh. erewrite M_bind_Ok by done. destruct (sessions h !! id) as [s|] eqn:E; [|by apply Hd].
  apply Hk; [|done]. by eapply Inv_lookup.
Qed.

(** *** The operations *)

Lemma first_socket_port ps a : Forall proto_wf ps → first_socket ps = Some a → is_u16 (port a).
Proof.
  induction ps as [ps IH] using (induction_ltof1 _ length); rw /ltof in IH. intros Hps Ha.
  destruct ps as [|p ps]; [done|]. apply Forall_cons in Hps as [Hp Hps].
  assert (first_socket ps = Some a → is_u16 (port a)) as H1 by (by apply IH; [simpl; lia|]).
  destruct ps as [|q qs]; [destruct p; by apply H1|]. apply Forall_cons in Hps as [Hq Hqs].
  assert (first_socket qs = Some a → is_u16 (port a)) as H2 by (by apply IH; [simpl; lia|]).
  destruct p; try exact (H1 Ha); destruct q; try exact (H2 Ha); cbn in Ha; by injection Ha as <-.
Qed.

Lemma first_port_val listens : Forall addr_ok listens → ok_val Inv (first_port listens : Disc (option Z)) (from_option is_u16 True).
Proof.
  induction 1 as [|m ms (ps & Hps & _) _ IH]; [by apply ret_val|]. cbn [first_port].
  rw (multiaddr_to_socketaddr_Comps _ _ Hps). destruct (first_socket ps) as [a|] eqn:E; [|done].
  apply ret_val. cbn. eapply first_socket_port; [|exact E]. by eapply Comps_wf.
Qed.

Lemma session_state_new_val session listens :
  addr_ok (ds_address session) → Forall addr_ok listens →
  ok_val Inv (session_state_new session listens : Disc State) state_ok.
Proof.
  intros Ha Hl h Hh. rw /session_state_new. destruct (ds_outbound session); last first.
  { eexists _, h. split; [done|]. split; [done|]. split; [done|]. split; [constructor|cbn; lia]. }
  destruct (first_port_val listens Hl h Hh) as (p & h1 & H1 & Hh1 & Hp). rw (M_bind_Ok _ _ _ _ _ H1).
  destruct (send_ok (ds_id session) (GetNodes VERSION MAX_ADDR_TO_SEND p)) with (s := h1) as ([] & h2 & H2 & Hh2).
  - split; [|split]; [unfold_int; unfold VERSION; lia|unfold_int; unfold MAX_ADDR_TO_SEND; lia|done].
  - apply get_nodes_fits.
  - intros _. cbn. lia.
  - done.
  - rw (M_bind_Ok _ _ _ _ _ H2). eexists _, h2. split; [done|]. split; [done|].
    split; [done|]. split; [constructor|cbn; lia].
Qed.

Lemma connected_ok session listens :
  addr_ok (ds_address session) → Forall addr_ok listens → ok_on Inv (d_connected session listens : Disc unit).
Proof.
  intros Ha Hl. eapply ok_bind_val; [by apply session_state_new_val|]. intros s Hs. by apply put_state_ok.
Qed.

Lemma check_ok id b : ok_on Inv (check id b : Disc bool).
Proof.
  apply ok_bind; [apply mgr_ok|]. intros r. apply ok_bind; [apply ok_when; by apply emit_ok|]. intros. apply ok_ret.
Qed.

Lemma write_tcp_length ps port :
  length (concat (write_to_bytes <$> ((λ p, match p with Tcp _ => Tcp port | p => p end) <$> ps))) =
  length (concat (write_to_bytes <$> ps)).
Proof.
  induction ps as [|p ps IH]; [done|]. cbn [fmap list_fmap concat]. rewrite -> !length_app. f_equal; [|exact IH].
  destruct p; try done. cbn [write_to_bytes]. rewrite -> !length_app. by rw !/put_u16 !length_be_bytes.
Qed.

Lemma update_port_val port r :
  is_u16 port → addr_ok (to_inner r) → ok_val Inv (update_port port r : Disc RemoteAddress) (λ r, addr_ok (to_inner r)).
Proof.
  intros Hport Hr. destruct r as [m|m]; [|by apply ret_val]. destruct Hr as (ps & Hps & Hl & Hl').
  rw /update_port. cbn [to_inner] in *. rw (iter_Comps _ _ Hps). apply ret_val. cbn [to_inner].
  set (qs := (λ p, match p with Tcp _ => Tcp port | p => p end) <$> ps).
  assert (Forall proto_wf qs) as Hq.
  { apply Forall_fmap. eapply Forall_impl; [by eapply Comps_wf|]. intros p Hp. by destruct p. }
  assert (length (ma_bytes (from_iter qs)) ≤ ADDR_BOUND)%nat as Hb by (cbn; by rw write_tcp_length).
  exists qs. split; [by apply Comps_concat|]. by split.
Qed.

Lemma learn_port_val id p s :
  from_option is_u16 True p → state_ok s → ok_val Inv (learn_port id p s : Disc State) state_ok.
Proof.
  intros Hp Hs. destruct p as [p|]; [|by apply ret_val]. intros h Hh. destruct (Hs) as (Hr & Ha & Hl). cbn [learn_port].
  destruct (update_port_val p _ Hp Hr h Hh) as (r & h1 & H1 & Hh1 & Hr1). rw (M_bind_Ok _ _ _ _ _ H1).
  destruct r as [m|m].
  - eexists _, h1. split; [done|]. by split_and!.
  - destruct (mgr_ok (λ c, ((), am_add_new_addr id m c)) h1 Hh1) as ([] & h2 & H2 & Hh2). rw (M_bind_Ok _ _ _ _ _ H2).
    eexists _, h2. split; [done|]. by split_and!.
Qed.

Lemma choose_val max l :
  Forall addr_ok l → (MAX_ADDR_TO_SEND ≤ max)%nat →
  ok_val Inv ((if bool_decide (max < length l)%nat then random (choose_multiple max l) else mret l) : Disc (list Multiaddr))
    (λ l', Forall addr_ok l' ∧ (length l' ≤ max)%nat ∧ (length l' ≤ length l)%nat).
Proof.
  intros Hl Hm. case_bool_decide; [|apply ret_val; split_and!; [done|lia..]]. apply random_val. intros r.
  destruct (choose_multiple max l r) as [l' r'] eqn:E. destruct (choose_multiple_spec _ _ _ _ _ E) as [Hlen [rest Hrest]].
  split; [|cbn; lia]. cbn. rewrite <-Hrest in Hl. by apply Forall_app in Hl as [Hl _].
Qed.

Lemma received_get_ok id count p :
  bounded_manager C → (strict = true → count ≤ MAX_ADDR_TO_SEND) → from_option is_u16 True p → ok_on Inv (received_get id count p : Disc unit).
Proof.
  intros Hmb Hc Hp. apply with_state_ok; [|apply ok_ret]. intros s (Hr & Ha & Hl).
  apply ok_bind; [case_match; [apply check_ok|apply ok_ret]|]. intros [|]; [apply ok_ret|].
  eapply ok_bind_val; [apply (mgr_val _ (λ l, Forall addr_ok l ∧ length l ≤ 2500)%nat); apply Hmb|]. intros items [Hi Hlen].
  eapply ok_bind_val; [by apply learn_port_val; [|split_and!]|]. intros s' (Hr' & Ha' & Hl').
  eapply ok_bind_val; [by apply choose_val; [|lia]|]. intros items' (Hi' & Hm & Hm').
  apply ok_bind; [by apply put_state_ok|]. intros _. apply send_nodes_ok; [done|]. rw /node_limit.
  destruct strict; [|lia]. specialize (Hc eq_refl). cbn. lia.
Qed.

Lemma received_nodes_ok id nodes : ok_on Inv (received_nodes_msg id nodes : Disc unit).
Proof.
  apply ok_bind; [case_match; [apply check_ok|apply ok_ret]|]. intros [|]; [apply ok_ret|].
  apply with_state_ok; [|apply ok_ret]. intros s Hs. case_match.
  - apply ok_bind; [apply check_ok|]. intros. apply ok_ret.
  - apply ok_bind; [by apply put_state_ok|]. intros _. apply mgr_ok.
Qed.

Lemma received_ok id data :
  bounded_manager C → (strict = true → ∀ v count p, decode data = Ok (Some (GetNodes v count p)) → count ≤ MAX_ADDR_TO_SEND) →
  ok_on Inv (d_received id data : Disc unit).
Proof.
  intros Hmb Hc. rw /d_received. destruct (decode_yields data) as (o & Ho & Hwf). rw Ho in Hc |- *. destruct o as [[v n p|nodes]|].
  - destruct Hwf as (_ & _ & Hp). apply received_get_ok; [done| |done]. intros Hst. by eapply Hc.
  - apply received_nodes_ok.
  - apply ok_bind; [apply check_ok|]. intros. apply ok_ret.
Qed.

Lemma send_messages_val id s : state_ok s → ok_val Inv (send_messages id s : Disc State) state_ok.
Proof.
  intros Hs h Hh. rw /send_messages. destruct (Hs) as (Hr & Ha & Hl). destruct (announce_multiaddrs s) as [|m ms] eqn:E.
  { by exists s, h. }
  assert (length (m :: ms) ≤ node_limit strict true)%nat as Hl'
    by (destruct strict; [done|]; unfold ANNOUNCE_THRESHOLD in Hl; cbn [node_limit]; lia).
  destruct (send_nodes_ok id true (m :: ms) Ha Hl' h Hh) as ([] & h1 & H1 & Hh1). rw (M_bind_Ok _ _ _ _ _ H1).
  eexists _, h1. split; [done|]. split; [done|]. split; [done|]. split; [constructor|cbn; lia].
Qed.

Lemma check_timer_spec now cycle s : state_ok s → state_ok (check_timer now cycle s).2 ∧ from_option addr_ok True (check_timer now cycle s).1.
Proof.
  intros Hs. rw /check_timer. case_match; [|done]. split; [done|]. cbn. destruct Hs as (Hr & _). by destruct (remote_addr s).
Qed.

Lemma announce_loop_val now cycle ids : ok_val Inv (announce_loop now cycle ids : Disc (list Multiaddr)) (Forall addr_ok).
Proof.
  induction ids as [|id ids IH]; [by apply ret_val|]. intros h Hh. cbn [announce_loop]. erewrite M_bind_Ok by done.
  destruct (sessions h !! id) as [s|] eqn:E; [|by apply IH].
  destruct (send_messages_val id s (Inv_lookup _ _ _ Hh E) h Hh) as (s1 & h1 & H1 & Hh1 & Hs1). rw (M_bind_Ok _ _ _ _ _ H1).
  destruct (check_timer_spec now cycle s1 Hs1) as [Hs2 Ho]. destruct (check_timer now cycle s1) as [o s2].
  destruct (put_state_ok id s2 Hs2 h1 Hh1) as ([] & h2 & H2 & Hh2). rw (M_bind_Ok _ _ _ _ _ H2).
  erewrite M_bind_Ok by done. destruct (IH h2 Hh2) as (rest & h3 & H3 & Hh3 & Hr). rw (M_bind_Ok _ _ _ _ _ H3).
  eexists _, h3. split; [done|]. split; [done|]. destruct o as [m|]; [|done]. by case_match; [constructor|].
Qed.

Lemma announce_to_ok m key : addr_ok m → ok_on Inv (announce_to m key : Disc unit).
Proof.
  intros Hm. apply with_state_ok; [|apply ok_ret]. intros s (Hr & Ha & Hl).
  destruct (_ && _) eqn:E; [|apply ok_ret]. apply andb_true_iff in E as [E%bool_decide_eq_true _].
  apply put_state_ok. split; [done|]. split; [by apply Forall_app_2; [|repeat constructor]|].
  cbn. rewrite -> length_app. cbn. unfold ANNOUNCE_THRESHOLD. lia.
Qed.

Lemma for_each_ok {A} (f : A → Disc unit) l : (∀ x, x ∈ l → ok_on Inv (f x)) → ok_on Inv (for_each f l).
Proof.
  induction l as [|x l IH]; intros H; [apply ok_ret|]. cbn [for_each]. apply ok_bind; [apply H; set_solver|].
  intros _. apply IH. intros y Hy. apply H. set_solver.
Qed.

Lemma spread_loop_ok ms keys : Forall addr_ok ms → ok_on Inv (spread_loop ms keys : Disc unit).
Proof.
  intros H. revert keys. induction H as [|m ms Hm _ IH]; intros keys; [apply ok_ret|]. cbn [spread_loop].
  apply (ok_bind_val _ _ _ (λ _, True)); [by apply random_val|]. intros keys' _.
  apply ok_bind; [apply for_each_ok; intros; by apply announce_to_ok|]. intros _. apply IH.
Qed.

Lemma notify_ok now : ok_on Inv (d_notify now : Disc unit).
Proof.
  apply ok_bind; [apply ok_gets|]. intros cycle. apply ok_bind; [apply ok_gets|]. intros keys.
  eapply ok_bind_val; [apply announce_loop_val|]. intros ms Hms. case_bool_decide; [apply ok_ret|].
  apply ok_bind; [apply ok_gets|]. intros keys'. by apply spread_loop_ok.
Qed.

Lemma init_ok : ok_on Inv (d_init (Ok ()) : Disc unit).
Proof.
  apply ok_bind; [apply ok_gets|]. intros i. apply ok_bind; [by apply emit_ok|]. intros _. apply ok_ret.
Qed.

Lemma event_preserves e : bounded_manager C → event_ok strict e → ok_on Inv (d_event e : Disc unit).
Proof.
  intros Hmb. destruct e; cbn [event_ok d_event].
  - intros ->. apply init_ok.
  - intros [? ?]. by apply connected_ok.
  - intros _. apply delete_ok.
  - by apply received_ok.
  - intros _. apply notify_ok.
Qed.

Lemma run_preserves es c query_cycle interval r :
  bounded_manager C → Forall (event_ok strict) es →
  ∃ h : St, d_run es (discovery_new c query_cycle interval r) = (Ok (), h) ∧ Inv h.
Proof.
  intros Hmb Hes. destruct (for_each_ok d_event es) with (s := discovery_new (K := K) c query_cycle interval r) as ([] & h & Hr & Hi).
  - intros e He. apply event_preserves; [done|]. by eapply Forall_forall in Hes.
  - split; [apply map_Forall_empty|constructor].
  - by exists h.
Qed.
End invariant.

Lemma send_too_large (h : St) id m : MAX_DELIMITED < length (discovery_encode m) → send id m h = (Panic, h).
Proof.
  intros Hl. rw /send /encode. destruct (dl_encode _) eqn:E; [|done].
  assert (length (discovery_encode m) ≤ MAX_DELIMITED); [|lia]. apply dl_encode_fits. by eexists.
Qed.

(** *** Theorems *)

(** Discovery messages that fit a frame survive encoding with the delimiting
    codec, and decoding any bytes ends without a panic, with a well-formed message
    or with [None]. *)
Theorem discovery_messages (m : DiscoveryMessage) (data : bytes) :
  message_wf m → length (discovery_encode m) ≤ MAX_DELIMITED →
  (∃ b, encode m = Ok b ∧ decode b = Ok (Some m)) ∧ yields (from_option message_wf True) (decode data).
Proof. intros Hm Hl. split; [by apply encode_decode|apply decode_yields]. Qed.

(** C30. With addresses of at most 3000 bytes, those of the sessions and those that the
    address manager yields, of which it yields no more than asked for, and when the
    service accepts the notify request of [init], the handler never panics, whatever
    bytes the peers send and whatever else happens, and everything it sends is a
    message. If moreover the peers ask for at most a thousand addresses, everything
    it sends is accepted by a peer running the same code: announcements of at most ten
    nodes, replies of at most a thousand, and requests for a thousand. The bound is
    needed: a message beyond the codec's frame is expected to be encoded, and panics. *)
Theorem discovery_sends_accepted (es : list DEvent) (c : C) (query_cycle interval : option Z) (r : R) :
  bounded_manager C → Forall (event_ok false) es →
  (∃ h : St, d_run es (discovery_new c query_cycle interval r) = (Ok (), h) ∧
    Forall (sent_ok false) (d_actions h) ∧ map_Forall (λ _, state_ok) (sessions h) ∧
    (Forall (event_ok true) es → Forall (sent_ok true) (d_actions h))) ∧
  (∀ (h : St) id m, MAX_DELIMITED < length (discovery_encode m) → send id m h = (Panic, h)).
Proof.
  intros Hmb Hes. split.
  - destruct (run_preserves false es c query_cycle interval r Hmb Hes) as (h & Hr & Hs & Ha).
    exists h. split_and!; [done..|]. intros Hes'.
    destruct (run_preserves true es c query_cycle interval r Hmb Hes') as (h' & Hr' & _ & Ha'). rw Hr in Hr'. by injection Hr' as <-.
  - apply send_too_large.
Qed.

(** A request panics the handler when the addresses that the manager yields do not fit
    a frame of the codec: their sizes are never checked. *)
Theorem discovery_oversized_reply (h : St) (id : nat) (s : State) (count : Z) (addrs : list Multiaddr) (c : C) :
  sessions h !! id = Some s → received_get_nodes s = false → am_get_random 2500 (addr_mgr h) = (addrs, c) →
  (length addrs ≤ MAX_ADDR_TO_SEND)%nat →
  MAX_DELIMITED < length (discovery_encode (NodesMsg (mkNodes false (node_of <$> addrs)))) →
  (received_get id count None h).1 = Panic.
Proof.
  intros Hs Hf Hr Hl Hbig. rw /received_get. erewrite M_bind_Ok by done. cbv beta. rw Hs Hf. erewrite M_bind_Ok by done.
  cbv beta iota zeta. erewrite M_bind_Ok by by rw /mgr Hr. cbv beta. cbn [learn_port]. erewrite M_bind_Ok by done. cbv beta.
  rw bool_decide_eq_false_2; [|lia]. erewrite M_bind_Ok by done. erewrite M_bind_Ok by done. by rw send_too_large.
Qed.

(** A peer that asks for more than a thousand addresses is sent more: the larger,
    not the smaller, of the limit and the count bounds the reply. The reply to a
    first request is then one that the same handler reports as misbehaviour. *)
Theorem discovery_large_request (h : St) (id : nat) (s : State) (count : Z) (addrs : list Multiaddr) (c : C) :
  sessions h !! id = Some s → received_get_nodes s = false →
  am_get_random 2500 (addr_mgr h) = (addrs, c) → Forall addr_ok addrs →
  (MAX_ADDR_TO_SEND < length addrs ≤ 2000)%nat → length addrs ≤ count →
  ∃ h' data nodes, received_get id count None h = (Ok (), h') ∧ d_actions h' = d_actions h ++ [DSend id data] ∧
    decode data = Ok (Some (NodesMsg nodes)) ∧
    verify_nodes_message nodes = Some (TooManyItems false (length addrs)).
Proof.
  intros Hs Hf Hr Ha Hl Hc. set (nodes := mkNodes false (node_of <$> addrs)).
  destruct (encode_decode (NodesMsg nodes)) as (data & He & Hd).
  { by apply node_of_wf. }
  { apply nodes_message_fits; [done|lia]. }
  eexists _, data, nodes. split_and!; [| |exact Hd|].
  - rw /received_get. erewrite M_bind_Ok by done. cbv beta. rw Hs Hf. erewrite M_bind_Ok by done. cbv beta iota zeta.
    erewrite M_bind_Ok by by rw /mgr Hr. cbv beta. cbn [learn_port]. erewrite M_bind_Ok by done. cbv beta.
    rw bool_decide_eq_false_2; [|lia]. erewrite M_bind_Ok by done. erewrite M_bind_Ok by done. by rw /send He.
  - done.
  - rw verify_nodes_too_many; cbn [nodes announce items]; rewrite -> length_fmap; [done|]. cbn. lia.
Qed.
End facts.

(** ** A manager, a filter and a generator *)

Definition disc_addr : Multiaddr := from_iter [Ip4 (mkIp4 8 8 8 8); Tcp 80].

Lemma disc_addr_ok : addr_ok disc_addr.
Proof.
  exists [Ip4 (mkIp4 8 8 8 8); Tcp 80]. split; [apply Comps_concat; repeat constructor; unfold_int; simpl; lia|].
  unfold ADDR_BOUND. split; (apply Nat.leb_le; vm_compute; reflexivity).
Qed.

(** A manager that knows so many addresses. *)
#[local] Instance CountManager : AddressManager nat := {|
  am_is_valid_addr _ _ := true;
  am_add_new_addr _ _ c := S c;
  am_add_new_addrs _ l c := (length l + c)%nat;
  am_misbehave _ _ c := (Disconnect, c);
  am_get_random n c := (replicate (Nat.min n c) disc_addr, c);
|}.
Lemma count_manager_bounded : bounded_manager nat.
Proof. intros n c. cbn. split; [apply Forall_replicate, disc_addr_ok|]. rewrite -> length_replicate. lia. Qed.

#[local] Instance ListKnown : AddrKnown (list Multiaddr) := {|
  ak_default := [];
  ak_insert a k := a :: k;
  ak_contains a k := bool_decide (ma_bytes a ∈ ma_bytes <$> k);
|}.

#[local] Instance UnitRng : Rng unit := {|
  choose_multiple n l r := (take n l, r);
  shuffle l r := (rev l, r);
|}.
#[local] Instance UnitRngLaws : RngLaws unit.
Proof.
  split.
  - intros n l r l' r' [= <- _]. split; [apply length_take|]. exists (drop n l). by rw take_drop.
  - intros l r l' r' [= <- _]. symmetry. apply Permutation_rev.
Qed.

Definition disc_request (count : Z) : bytes :=
  match encode (GetNodes VERSION count (Some 8114)) with Ok b => b | _ => [] end.

(** An outbound and an inbound session; the inbound peer asks, and later its listen
    address is announced to the other. *)
Definition disc_events : list DEvent :=
  [DInit (Ok ()); DConnected (mkDSession 1 disc_addr true) [disc_addr]; DConnected (mkDSession 2 disc_addr false) [];
   DReceived 2 (disc_request 1000); DNotify 0; DNotify 10].

Lemma disc_events_ok strict : Forall (event_ok strict) disc_events.
Proof.
  repeat constructor; try exact disc_addr_ok. intros _ v n p H.
  assert (decode (disc_request 1000) = Ok (Some (GetNodes VERSION 1000 (Some 8114)))) as Hd by (vm_compute; reflexivity).
  rw Hd in H. by injection H as <- <- <-.
Qed.

Lemma discovery_messages_witness :
  (∃ b, encode (NodesMsg (mkNodes true [node_of disc_addr])) = Ok b ∧
    decode b = Ok (Some (NodesMsg (mkNodes true [node_of disc_addr])))) ∧
  yields (from_option message_wf True) (decode (str "junk")).
Proof.
  apply (discovery_messages (NodesMsg (mkNodes true [node_of disc_addr])) (str "junk")).
  - repeat constructor. apply addr_ok_wf, disc_addr_ok.
  - vm_compute. congruence.
Defined.

(** The notify request, a request, a reply and one announcement, all accepted. *)
Lemma discovery_sends_accepted_witness :
  ∃ h : DiscoveryProtocol nat (list Multiaddr) unit,
    d_run disc_events (discovery_new 5%nat None None ()) = (Ok (), h) ∧ Forall (sent_ok true) (d_actions h) ∧
    length (d_actions h) = 4%nat.
Proof.
  destruct (discovery_sends_accepted (K := list Multiaddr) disc_events 5%nat None None () count_manager_bounded
    (disc_events_ok false)) as [(h & Hr & _ & _ & Ha) _].
  exists h. split; [exact Hr|]. split; [exact (Ha (disc_events_ok true))|].
  assert (h = (d_run disc_events (discovery_new 5%nat None None ())).2) as -> by by rw Hr.
  vm_compute. reflexivity.
Defined.

Definition disc_state : SessionState (list Multiaddr) := mkSessionState [] (RInit disc_addr) None [] false false.
Definition disc_large : DiscoveryProtocol nat (list Multiaddr) unit := mkDiscovery {[ 2%nat := disc_state ]} None 1200%nat None () [].

Lemma discovery_large_request_witness :
  ∃ h' data nodes, received_get 2 2500 None disc_large = (Ok (), h') ∧ d_actions h' = [DSend 2 data] ∧
    decode data = Ok (Some (NodesMsg nodes)) ∧ verify_nodes_message nodes = Some (TooManyItems false 1200).
Proof.
  apply (discovery_large_request disc_large 2 disc_state 2500 (replicate 1200 disc_addr) 1200%nat).
  - reflexivity.
  - reflexivity.
  - reflexivity.
  - apply Forall_replicate, disc_addr_ok.
  - rewrite -> length_replicate. unfold MAX_ADDR_TO_SEND. lia.
  - rewrite -> length_replicate. lia.
Defined.
