(* ===== verification/Events.v ===== *)
(** * What sessions, protocol streams and handles exchange

    The enumerations of [tentacle/src/substream.rs], [session.rs] and
    [protocol_handle_stream.rs], the part of [SessionContext] that is shared
    between tasks ([context.rs]), the session's configuration
    ([service/config.rs]) and the cooperative budget ([runtime/budget.rs]). *)
From S2P Require Import Prelude Multiaddr SecioMessages.

(** [service/event.rs] has the direction of a session. *)
Inductive SessionType := Outbound | Inbound.

(** ** [SessionContext] *)

(** The atomics [closed] and [pending_data_size] are shared; the rest never changes. *)
Record SessionContext := mkSessionContext {
  ctx_id : nat;
  ctx_address : Multiaddr;
  ctx_ty : SessionType;
  ctx_remote_pubkey : option PublicKey;
  ctx_closed : bool;
  ctx_pending_data_size : Z;
}.

(** [fetch_add] and [fetch_sub] wrap. *)
Definition set_pending_data_size (n : Z) (c : SessionContext) : SessionContext :=
  mkSessionContext (ctx_id c) (ctx_address c) (ctx_ty c) (ctx_remote_pubkey c) (ctx_closed c) n.
Definition incr_pending_data_size (data_size : Z) (c : SessionContext) : SessionContext :=
  set_pending_data_size (wrap 64 (ctx_pending_data_size c + data_size)) c.
Definition decr_pending_data_size (data_size : Z) (c : SessionContext) : SessionContext :=
  set_pending_data_size (wrap 64 (ctx_pending_data_size c - data_size)) c.
Definition store_closed (c : SessionContext) : SessionContext :=
  mkSessionContext (ctx_id c) (ctx_address c) (ctx_ty c) (ctx_remote_pubkey c) true (ctx_pending_data_size c).

(** ** [SessionConfig] *)

Definition MAX_BUF_SIZE : Z := 24 * 1024 * 1024.

Record SessionConfig := mkSessionConfig {
  (** [yamux_config.max_stream_window_size] *)
  cfg_max_stream_window_size : Z;
  send_buffer_size : Z;
  recv_buffer_size : Z;
  channel_size : Z;
}.

Definition session_config_default (window : Z) : SessionConfig := mkSessionConfig window MAX_BUF_SIZE MAX_BUF_SIZE 128.

(** The division panics on zero; the sum is a [usize]. *)
Definition recv_event_size {E} (c : SessionConfig) : Res E Z :=
  if cfg_max_stream_window_size c =? 0 then Panic else Ok (wrap 64 (recv_buffer_size c `div` cfg_max_stream_window_size c + 1)).
Definition send_event_size {E} (c : SessionConfig) : Res E Z :=
  if cfg_max_stream_window_size c =? 0 then Panic else Ok (wrap 64 (send_buffer_size c `div` cfg_max_stream_window_size c + 1)).

(** ** Events *)

(** [H] is the type of a substream whose protocol was negotiated. *)
Inductive ProtocolEvent (H : Type) :=
| PvOpen (proto_name : bytes) (substream : H) (version : bytes)
| PvClose (id proto_id : nat)
| PvMessage (data : bytes)
| PvSelectError (proto_name : option bytes)
| PvError (proto_id : nat) (error : io.ErrorKind)
| PvTimeoutCheck.
Arguments PvOpen {H}.
Arguments PvClose {H}.
Arguments PvMessage {H}.
Arguments PvSelectError {H}.
Arguments PvError {H}.
Arguments PvTimeoutCheck {H}.

(** Sessions are named by their context's id. *)
Inductive ServiceProtocolEvent :=
| SvInit
| SvConnected (session : nat) (version : bytes)
| SvDisconnected (id : nat)
| SvReceived (id : nat) (data : bytes)
| SvSetNotify (interval token : Z)
| SvRemoveNotify (token : Z)
| SvNotify (token : Z)
| SvUpdate (listen_addrs : list Multiaddr).

Inductive SessionProtocolEvent :=
| SsOpened (version : bytes)
| SsClosed
| SsDisconnected
| SsReceived (data : bytes)
| SsNotify (token : Z)
| SsSetNotify (interval token : Z)
| SsRemoveNotify (token : Z)
| SsUpdate (listen_addrs : list Multiaddr).

(** ** The budget *)

(** [poll_proceed] on the thread's counter, a [u8]: whether it wakes the task. *)
Definition BUDGET : Z := 128.
Definition poll_proceed (budget : Z) : Poll unit * Z :=
  let budget := wrap 8 (budget - 1) in
  if negb (budget =? 0) then (Ready (), budget) else (Pending, BUDGET).

Fixpoint proceed_times (n : nat) (budget : Z) : list bool * Z :=
  match n with
  | O => ([], budget)
  | S n =>
      let '(p, b) := poll_proceed budget in
      let '(ps, b) := proceed_times n b in
      (is_ready p :: ps, b)
  end.

Lemma proceed_times_app n m b :
  proceed_times (n + m) b =
    (let '(ps, b') := proceed_times n b in let '(qs, b'') := proceed_times m b' in (ps ++ qs, b'')).
Proof.
  revert b. induction n as [|n IH]; intros b; cbn [proceed_times Nat.add]; [by destruct (proceed_times m b)|].
  destruct (poll_proceed b) as [p b']. rw IH. destruct (proceed_times n b') as [ps b'']. by destruct (proceed_times m b'').
Qed.

Lemma proceed_times_ready (n : nat) b : n < b ≤ BUDGET → proceed_times n b = (replicate n true, b - n).
Proof.
  revert b. induction n as [|n IH]; intros b Hb; [by rw /= Z.sub_0_r|]. cbn [proceed_times].
  rw /poll_proceed wrap_small; [|unfold BUDGET in *; lia]. rewrite -> (proj2 (Z.eqb_neq _ _)) by lia. cbn [negb].
  rw IH; [|unfold BUDGET in *; lia]. cbn [replicate is_ready]. f_equal. lia.
Qed.

(** The counter of a thread never underflows, and of any [BUDGET] polls in a row
    exactly one yields. *)
Lemma budget_yields_once (b : nat) :
  1 ≤ b ≤ BUDGET → ∃ i j : nat, i + 1 + j = BUDGET ∧
    proceed_times (Z.to_nat BUDGET) b = (replicate i true ++ false :: replicate j true, Z.of_nat b).
Proof.
  intros Hb. exists (b - 1)%nat, (Z.to_nat BUDGET - b)%nat. split; [unfold BUDGET in *; lia|].
  replace (Z.to_nat BUDGET) with ((b - 1) + S (Z.to_nat BUDGET - b))%nat at 1 by (unfold BUDGET in *; lia).
  rw proceed_times_app proceed_times_ready; [|lia]. cbn [proceed_times].
  replace (b - (b - 1)%nat) with 1 by lia. cbn [poll_proceed]. change (poll_proceed 1) with (Pending (A:=unit), BUDGET).
  cbv beta iota. rw proceed_times_ready; [|unfold BUDGET in *; lia]. f_equal. unfold BUDGET in *. lia.
Qed.
