(* ===== verification/Substream.v ===== *)
(** * Protocol streams

    [tentacle/src/substream.rs]: the task of one protocol stream of a session
    ([Substream]), and the two parts it is split into for protocols that read
    their stream themselves ([SubstreamWritePart], [SubstreamReadPart]). Both
    have the fields and the methods of the write part; the source repeats them.

    The stream below is tokio's [Framed] ([Framed.v]), the channels to the
    session and to the handles are buffers ([Buffer.v]), the channel from the
    session is an interface ([EventReceiver]). A spawned task that sends a list
    of events is recorded in [spawned]. The session's flag [closed] and its
    counter are part of the state; within one poll nobody else changes them. *)
From S2P Require Import Prelude Multiaddr SecioMessages Channel ChannelBound ChannelBoundFacts Buffer Framed Events.

(** The receiving half of a priority channel. *)
Class EventReceiver (R T : Type) := {
  rx_poll_next : R → Poll (option (Priority * T)) * R;
  rx_close : R → R;
  (** The events received so far. *)
  rx_log : R → list (Priority * T);
}.

Class EventReceiverLaws (R T : Type) `{EventReceiver R T} : Prop := {
  rx_poll_next_log r :
    rx_log (rx_poll_next r).2 = rx_log r ++ match (rx_poll_next r).1 with Ready (Some x) => [x] | _ => [] end;
  rx_close_log r : rx_log (rx_close r) = rx_log r;
}.

(** The tasks that a stream spawns when it closes. *)
Inductive Spawned (H : Type) :=
| ToService (events : list ServiceProtocolEvent)
| ToSession (events : list SessionProtocolEvent)
| ToParent (events : list (ProtocolEvent H)).
Arguments ToService {H}.
Arguments ToSession {H}.
Arguments ToParent {H}.

(** [SubstreamWritePart], with the tasks spawned so far. *)
Record WritePart (S C R H : Type) := mkWritePart {
  substream : S;
  sub_id : nat;
  sub_proto_id : nat;
  dead : bool;
  sub_config : SessionConfig;
  high_write_buf : list bytes;
  write_buf : list bytes;
  event_sender : Buffer C (ProtocolEvent H);
  event_receiver : R;
  context : SessionContext;
  spawned : list (Spawned H);
}.
Arguments mkWritePart {S C R H}.
Arguments substream {S C R H}.
Arguments sub_id {S C R H}.
Arguments sub_proto_id {S C R H}.
Arguments dead {S C R H}.
Arguments sub_config {S C R H}.
Arguments high_write_buf {S C R H}.
Arguments write_buf {S C R H}.
Arguments event_sender {S C R H}.
Arguments event_receiver {S C R H}.
Arguments context {S C R H}.
Arguments spawned {S C R H}.

(** [Substream]. *)
Record Substream (S C C1 C2 R H : Type) := mkSubstream {
  part : WritePart S C R H;
  keep_buffer : bool;
  service_proto_sender : option (Buffer C1 ServiceProtocolEvent);
  session_proto_sender : option (Buffer C2 SessionProtocolEvent);
  before_receive : option (bytes → bytes + io.ErrorKind);
}.
Arguments mkSubstream {S C C1 C2 R H}.
Arguments part {S C C1 C2 R H}.
Arguments keep_buffer {S C C1 C2 R H}.
Arguments service_proto_sender {S C C1 C2 R H}.
Arguments session_proto_sender {S C C1 C2 R H}.
Arguments before_receive {S C C1 C2 R H}.

Section write_part.
Context {S C R H : Type} `{!Framed S, !MsgSender C (ProtocolEvent H), !EventReceiver R (ProtocolEvent H)}.
Abbreviation St := (WritePart S C R H).
Implicit Types w : St.

Definition set_substream (x : S) w : St :=
  mkWritePart x (sub_id w) (sub_proto_id w) (dead w) (sub_config w) (high_write_buf w) (write_buf w)
    (event_sender w) (event_receiver w) (context w) (spawned w).
Definition set_dead (x : bool) w : St :=
  mkWritePart (substream w) (sub_id w) (sub_proto_id w) x (sub_config w) (high_write_buf w) (write_buf w)
    (event_sender w) (event_receiver w) (context w) (spawned w).
Definition set_buf (p : Priority) (x : list bytes) w : St :=
  mkWritePart (substream w) (sub_id w) (sub_proto_id w) (dead w) (sub_config w)
    (match p with High => x | Normal => high_write_buf w end) (match p with High => write_buf w | Normal => x end)
    (event_sender w) (event_receiver w) (context w) (spawned w).
Definition set_event_sender (x : Buffer C (ProtocolEvent H)) w : St :=
  mkWritePart (substream w) (sub_id w) (sub_proto_id w) (dead w) (sub_config w) (high_write_buf w) (write_buf w)
    x (event_receiver w) (context w) (spawned w).
Definition set_event_receiver (x : R) w : St :=
  mkWritePart (substream w) (sub_id w) (sub_proto_id w) (dead w) (sub_config w) (high_write_buf w) (write_buf w)
    (event_sender w) x (context w) (spawned w).
Definition set_context (x : SessionContext) w : St :=
  mkWritePart (substream w) (sub_id w) (sub_proto_id w) (dead w) (sub_config w) (high_write_buf w) (write_buf w)
    (event_sender w) (event_receiver w) x (spawned w).
Definition add_spawned (x : Spawned H) w : St :=
  mkWritePart (substream w) (sub_id w) (sub_proto_id w) (dead w) (sub_config w) (high_write_buf w) (write_buf w)
    (event_sender w) (event_receiver w) (context w) (spawned w ++ [x]).
Definition buf_of (p : Priority) w : list bytes := match p with High => high_write_buf w | Normal => write_buf w end.

(** A poll function of the framed stream. *)
Definition on_substream {E A} (f : S → A * S) : M St E A := λ w,
  let '(a, x) := f (substream w) in (Ok a, set_substream x w).

(** [?] on an I/O result. *)
Definition ok_io {A} (r : A + io.ErrorKind) : M St io.ErrorKind A :=
  match r with inl a => mret a | inr e => throw e end.

Definition w_push_front (p : Priority) (frame : bytes) : M St io.ErrorKind unit :=
  modify (λ w, set_buf p (frame :: buf_of p w) w).
Definition w_push_back {E} (p : Priority) (frame : bytes) : M St E unit :=
  modify (λ w, set_buf p (buf_of p w ++ [frame]) w).

Definition w_poll_complete : M St io.ErrorKind bool :=
  p ← on_substream fr_poll_flush;
  match p with
  | Pending => mret true
  | Ready res => ok_io res;; mret false
  end.

Definition w_send_inner (frame : bytes) (p : Priority) : M St io.ErrorKind bool :=
  let data_size := Z.of_nat (length frame) in
  q ← on_substream fr_poll_ready;
  match q with
  | Ready r =>
      ok_io r;;
      r ← on_substream (fr_start_send frame);
      ok_io r;;
      modify (λ w, set_context (decr_pending_data_size data_size (context w)) w);;
      mret false
  | Pending =>
      w_push_front p frame;;
      w_poll_complete;;
      mret true
  end.

(** [while let Some(frame) = buf.pop_front()]: whether the sink was not ready. *)
Fixpoint w_send_loop (p : Priority) (buf : list bytes) : M St io.ErrorKind bool :=
  match buf with
  | [] => mret false
  | frame :: buf =>
      modify (set_buf p buf);;
      stop ← w_send_inner frame p;
      if (stop : bool) then mret true else w_send_loop p buf
  end.

Definition w_send_data : M St io.ErrorKind unit :=
  high ← gets high_write_buf;
  stop ← w_send_loop High high;
  if (stop : bool) then mret ()
  else
    normal ← gets write_buf;
    stop ← w_send_loop Normal normal;
    if (stop : bool) then mret ()
    else w_poll_complete;; mret ().

(** [Buffer::try_send]; it returns no error of its own. *)
Definition event_try_send {E} (cx : Waker) : M St E SendResult := λ w,
  match plain_try_send cx (event_sender w) with
  | (Ok r, b) => (Ok r, set_event_sender b w)
  | (_, b) => (Panic, set_event_sender b w)
  end.

Definition w_output {E} (cx : Waker) : M St E unit :=
  r ← event_try_send cx;
  match r with
  | SDisconnect => modify (set_dead true)
  | _ => mret ()
  end.

Definition push_event {E} (event : ProtocolEvent H) : M St E unit :=
  modify (λ w, set_event_sender (plain_push event (event_sender w)) w).

Definition w_output_event {E} (cx : Waker) (event : ProtocolEvent H) : M St E unit :=
  push_event event;; w_output cx.

Definition w_flush (cx : Waker) : M St io.ErrorKind unit :=
  w_poll_complete;;
  w ← get;
  if negb (plain_is_empty (event_sender w)) || negb (bool_decide (write_buf w = [])) ||
     negb (bool_decide (high_write_buf w = []))
  then w_output cx;; w_send_data
  else mret ().

Definition w_handle_proto_event {E} (cx : Waker) (event : ProtocolEvent H) (p : Priority) : M St E unit :=
  match event with
  | PvMessage data =>
      w_push_back p data;;
      r ← try_catch w_send_data;
      match r with
      | Err err =>
          proto_id ← gets sub_proto_id;
          w_output_event cx (PvError proto_id err);;
          modify (set_dead true)
      | _ => mret ()
      end
  | PvClose _ _ =>
      modify (set_buf Normal []);;
      modify (set_dead true)
  | _ => mret ()
  end.

(** [recv_event]; the two structs close the stream differently when the session
    is gone. *)
Definition recv_event_with {E} (shut : S → Poll (unit + io.ErrorKind) * S) (cx : Waker) : M St E (Poll (option unit)) :=
  d ← gets dead;
  if (d : bool) then mret (Ready None)
  else
    w ← get;
    size ← lift_res (send_event_size (sub_config w));
    if size <? Z.of_nat (length (write_buf w)) then mret Pending
    else
      let '(p, rx) := rx_poll_next (event_receiver w) in
      modify (set_event_receiver rx);;
      match p with
      | Ready (Some (priority, event)) =>
          w_handle_proto_event cx event priority;; mret (Ready (Some ()))
      | Ready None =>
          modify (set_dead true);;
          on_substream shut;;
          mret (Ready None)
      | Pending => mret Pending
      end.

Definition w_recv_event {E} (cx : Waker) : M St E (Poll (option unit)) := recv_event_with fr_poll_close cx.

(** The end of [close_proto_stream]: telling the session. *)
Definition close_to_parent {E} (cx : Waker) : M St E unit :=
  w ← get;
  if negb (ctx_closed (context w)) then
    let '(events, sender) := plain_take (event_sender w) in
    modify (set_event_sender sender);;
    modify (add_spawned (ToParent (events ++ [PvClose (sub_id w) (sub_proto_id w)])))
  else w_output cx.

Definition w_close_proto_stream {E} (cx : Waker) : M St E unit :=
  modify (λ w, set_event_receiver (rx_close (event_receiver w)) w);;
  on_substream fr_poll_close;;
  close_to_parent cx.

(** The kinds of a connection that is gone. *)
Definition connection_gone (error : io.ErrorKind) : bool :=
  match error with
  | io.BrokenPipe | io.ConnectionAborted | io.ConnectionReset | io.NotConnected | io.UnexpectedEof => true
  | _ => false
  end.

Definition w_error_close {E} (cx : Waker) (error : io.ErrorKind) : M St E unit :=
  modify (set_dead true);;
  if connection_gone error then mret ()
  else
    proto_id ← gets sub_proto_id;
    push_event (PvError proto_id error);;
    w_close_proto_stream cx.

(** [proceed] is what [poll_proceed] says. *)
Definition w_poll_next {E} (proceed : bool) (cx : Waker) : M St E (Poll (option unit)) :=
  w ← get;
  if dead w || ctx_closed (context w) then w_close_proto_stream cx;; mret (Ready None)
  else
    r ← try_catch (w_flush cx);
    match r with
    | Err err => w_error_close cx err;; mret (Ready None)
    | _ =>
        if negb proceed then mret Pending
        else
          p ← w_recv_event cx;
          mret (if is_pending p then Pending else Ready (Some ()))
    end.

(** [SubstreamWritePartBuilder::build]. *)
Definition write_part_build (x : S) (id proto_id : nat) (config : SessionConfig) (sender : C) (receiver : R)
    (ctx : SessionContext) : St :=
  mkWritePart x id proto_id false config [] [] (plain_new sender) receiver ctx [].
End write_part.

(** ** [Substream] *)

Section substream.
Context {S C C1 C2 R H : Type} `{!Framed S, !MsgSender C (ProtocolEvent H), !MsgSender C1 ServiceProtocolEvent,
  !MsgSender C2 SessionProtocolEvent, !EventReceiver R (ProtocolEvent H)}.
Abbreviation St := (Substream S C C1 C2 R H).
Implicit Types s : St.

(** A method of the write part; the source has it in both structs. *)
Definition on_part {E A} (m : M (WritePart S C R H) E A) : M St E A := λ s,
  let '(r, w) := m (part s) in
  (r, mkSubstream w (keep_buffer s) (service_proto_sender s) (session_proto_sender s) (before_receive s)).

Definition set_service_proto_sender (b : option (Buffer C1 ServiceProtocolEvent)) s : St :=
  mkSubstream (part s) (keep_buffer s) b (session_proto_sender s) (before_receive s).
Definition set_session_proto_sender (b : option (Buffer C2 SessionProtocolEvent)) s : St :=
  mkSubstream (part s) (keep_buffer s) (service_proto_sender s) b (before_receive s).

Definition push_service {E} (event : ServiceProtocolEvent) : M St E unit :=
  modify (λ s, set_service_proto_sender (plain_push event <$> service_proto_sender s) s).
Definition push_session {E} (event : SessionProtocolEvent) : M St E unit :=
  modify (λ s, set_session_proto_sender (plain_push event <$> session_proto_sender s) s).

Definition proto_open {E} (version : bytes) : M St E unit :=
  s ← get;
  push_service (SvConnected (ctx_id (context (part s))) version);;
  push_session (SsOpened version).

Definition poll_complete : M St io.ErrorKind bool := on_part w_poll_complete.
Definition send_data : M St io.ErrorKind unit := on_part w_send_data.
Definition output {E} (cx : Waker) : M St E unit := on_part (w_output cx).

(** The two buffers of the handles; a disconnected one kills the stream. *)
Definition service_try_send {E} (cx : Waker) : M St E unit := λ s,
  match service_proto_sender s with
  | None => (Ok (), s)
  | Some buffer =>
      match plain_try_send cx buffer with
      | (Ok SDisconnect, b) => on_part (modify (set_dead true)) (set_service_proto_sender (Some b) s)
      | (Ok _, b) => (Ok (), set_service_proto_sender (Some b) s)
      | (_, b) => (Panic, set_service_proto_sender (Some b) s)
      end
  end.
Definition session_try_send {E} (cx : Waker) : M St E unit := λ s,
  match session_proto_sender s with
  | None => (Ok (), s)
  | Some buffer =>
      match plain_try_send cx buffer with
      | (Ok SDisconnect, b) => on_part (modify (set_dead true)) (set_session_proto_sender (Some b) s)
      | (Ok _, b) => (Ok (), set_session_proto_sender (Some b) s)
      | (_, b) => (Panic, set_session_proto_sender (Some b) s)
      end
  end.

Definition distribute_to_user_level {E} (cx : Waker) : M St E unit :=
  service_try_send cx;;
  session_try_send cx;;
  d ← gets (λ s, dead (part s));
  when d (output cx).

(** Telling the handles in [close_proto_stream]. *)
Definition close_to_service {E} : M St E unit :=
  s ← get;
  match service_proto_sender s with
  | None => mret ()
  | Some buffer =>
      let '(events, b) := plain_take buffer in
      modify (set_service_proto_sender (Some b));;
      on_part (modify (add_spawned (ToService (events ++ [SvDisconnected (ctx_id (context (part s)))]))))
  end.
Definition close_to_session {E} : M St E unit :=
  s ← get;
  match session_proto_sender s with
  | None => mret ()
  | Some buffer =>
      let '(events, b) := plain_take buffer in
      modify (set_session_proto_sender (Some b));;
      on_part (modify (add_spawned (ToSession (events ++ [SsClosed] ++
        (if ctx_closed (context (part s)) then [SsDisconnected] else [])))))
  end.

Definition close_proto_stream {E} (cx : Waker) : M St E unit :=
  on_part (modify (λ w, set_event_receiver (rx_close (event_receiver w)) w));;
  on_part (on_substream fr_poll_shutdown);;
  s ← get;
  when (negb (keep_buffer s)) (on_part (modify (λ w, set_event_sender (plain_clear (event_sender w)) w)));;
  close_to_service;;
  close_to_session;;
  on_part (close_to_parent cx).

Definition error_close {E} (cx : Waker) (error : io.ErrorKind) : M St E unit :=
  on_part (modify (set_dead true));;
  if connection_gone error then mret ()
  else
    s ← get;
    on_part (push_event (PvError (sub_proto_id (part s)) error));;
    close_proto_stream cx.

Definition recv_event {E} (cx : Waker) : M St E (Poll (option unit)) := on_part (recv_event_with fr_poll_shutdown cx).

Definition opt_len {C' T} (b : option (Buffer C' T)) : Z := from_option (λ b, Z.of_nat (plain_len b)) 0 b.

Definition recv_frame {E} (cx : Waker) : M St E (Poll (option unit)) :=
  s ← get;
  if dead (part s) then mret (Ready None)
  else
    size ← lift_res (recv_event_size (sub_config (part s)));
    if (size <? opt_len (service_proto_sender s)) || (size <? opt_len (session_proto_sender s)) then mret Pending
    else
      p ← on_part (on_substream fr_poll_next);
      match p with
      | Ready (Some (inl data)) =>
          match match before_receive s with Some function => function data | None => inl data end with
          | inr err => error_close cx err;; mret (Ready None)
          | inl data =>
              push_session (SsReceived data);;
              push_service (SvReceived (ctx_id (context (part s))) data);;
              distribute_to_user_level cx;;
              mret (Ready (Some ()))
          end
      | Ready None => on_part (modify (set_dead true));; mret (Ready None)
      | Ready (Some (inr err)) => error_close cx err;; mret (Ready None)
      | Pending => mret Pending
      end.

Definition opt_is_empty {C' T} (b : option (Buffer C' T)) : bool := from_option plain_is_empty true b.

Definition flush (cx : Waker) : M St io.ErrorKind unit :=
  poll_complete;;
  s ← get;
  when (negb (opt_is_empty (service_proto_sender s)) || negb (opt_is_empty (session_proto_sender s)))
    (distribute_to_user_level cx);;
  s ← get;
  if negb (plain_is_empty (event_sender (part s))) || negb (bool_decide (write_buf (part s) = [])) ||
     negb (bool_decide (high_write_buf (part s) = []))
  then output cx;; send_data
  else mret ().

Definition poll_next {E} (proceed : bool) (cx : Waker) : M St E (Poll (option unit)) :=
  s ← get;
  if dead (part s) || ctx_closed (context (part s)) then close_proto_stream cx;; mret (Ready None)
  else
    r ← try_catch (flush cx);
    match r with
    | Err err => error_close cx err;; mret (Ready None)
    | _ =>
        if negb proceed then mret Pending
        else
          p1 ← recv_frame cx;
          p2 ← recv_event cx;
          mret (if is_pending p1 && is_pending p2 then Pending else Ready (Some ()))
    end.

(** [SubstreamBuilder::build]. *)
Definition substream_build (x : S) (id proto_id : nat) (config : SessionConfig) (keep : bool) (sender : C) (receiver : R)
    (ctx : SessionContext) (service : option (Buffer C1 ServiceProtocolEvent))
    (session : option (Buffer C2 SessionProtocolEvent)) (before : option (bytes → bytes + io.ErrorKind)) : St :=
  mkSubstream (write_part_build x id proto_id config sender receiver ctx) keep service session before.
End substream.

(** ** [SubstreamReadPart] *)

Record SubstreamReadPart (S : Type) := mkReadPart {
  rp_substream : S;
  rp_before_receive : option (bytes → bytes + io.ErrorKind);
  rp_proto_id : nat;
  rp_stream_id : nat;
  rp_version : bytes;
}.
Arguments mkReadPart {S}.
Arguments rp_substream {S}.
Arguments rp_before_receive {S}.
Arguments rp_proto_id {S}.
Arguments rp_stream_id {S}.
Arguments rp_version {S}.

Section read_part.
Context {S H : Type} `{!Framed S}.

Definition read_part_poll_next (proceed : bool) (r : SubstreamReadPart S)
    : Poll (option (bytes + io.ErrorKind)) * SubstreamReadPart S :=
  if negb proceed then (Pending, r)
  else
    let '(p, x) := fr_poll_next (rp_substream r) in
    let r := mkReadPart x (rp_before_receive r) (rp_proto_id r) (rp_stream_id r) (rp_version r) in
    match p with
    | Ready (Some (inl data)) =>
        (Ready (Some (match rp_before_receive r with Some function => function data | None => inl data end)), r)
    | p => (p, r)
    end.

(** The event that dropping the read part sends to the write part. *)
Definition read_part_drop (r : SubstreamReadPart S) : ProtocolEvent H := PvClose (rp_stream_id r) (rp_proto_id r).
End read_part.

(** ** A receiver that delivers a list of events *)

Record ListRx (T : Type) := mkListRx { lr_items : list (Priority * T); lr_log : list (Priority * T) }.
Arguments mkListRx {T}.
Arguments lr_items {T}.
Arguments lr_log {T}.

#[global] Instance ListRx_receiver T : EventReceiver (ListRx T) T := {|
  rx_poll_next r :=
    match lr_items r with
    | x :: xs => (Ready (Some x), mkListRx xs (lr_log r ++ [x]))
    | [] => (Pending, r)
    end;
  rx_close r := r;
  rx_log := lr_log;
|}.

#[global] Instance ListRx_laws T : EventReceiverLaws (ListRx T) T.
Proof. split; [|done]. intros [[|x xs] log]; simpl; [by rw app_nil_r|done]. Qed.
