(* ===== verification/SubstreamFacts.v ===== *)
(** * What a protocol stream does with frames and events

    The effect of one poll of a protocol stream ([Substream.v]): the frames it
    took from the peer, the frames that left its write buffers, the events that
    left the buffers to the handles, the tasks it spawned. Effects compose; a run
    of the stream is a sequence of polls with arbitrary changes of its
    surroundings in between. *)
From S2P Require Import Prelude Multiaddr SecioMessages Channel ChannelBound ChannelBoundFacts Buffer Framed Events Substream.

(** What became of an item that left a buffer: accepted below, lost with the
    connection, or handed to a closing task. *)
Inductive Fate := Sent | Lost | Handed.

#[global] Instance Fate_eq_dec : EqDecision Fate.
Proof. solve_decision. Defined.

Definition of_fate {A} (t : Fate) (out : list (Fate * A)) : list A :=
  omap (λ x, if decide (x.1 = t) then Some x.2 else None) out.
Definition of_prio {A} (p : Priority) (out : list (Priority * A)) : list A :=
  omap (λ x, if decide (x.1 = p) then Some x.2 else None) out.
Definition is_lost {A} (out : list (Fate * A)) : Prop := of_fate Lost out ≠ [].

(** The messages of a priority among the session's events. *)
Definition messages {H} (p : Priority) (got : list (Priority * ProtocolEvent H)) : list bytes :=
  omap (λ e, match e with PvMessage data => Some data | _ => None end) (of_prio p got).

Definition sizes (fs : list (Priority * bytes)) : Z := foldr (λ x n, Z.of_nat (length x.2) + n) 0 fs.

Section lists.
Context {A : Type}.
Implicit Types xs : list A.

Lemma of_fate_app t (l k : list (Fate * A)) : of_fate t (l ++ k) = of_fate t l ++ of_fate t k.
Proof. apply omap_app. Qed.
Lemma frames_of_prio_app p (l k : list (Priority * A)) : of_prio p (l ++ k) = of_prio p l ++ of_prio p k.
Proof. apply omap_app. Qed.
Lemma of_fate_pair t t' xs : of_fate t (pair t' <$> xs) = if decide (t' = t) then xs else [].
Proof. induction xs as [|x xs IH]; [by case_decide|]. rw /of_fate in IH |- *. csimpl. rw IH. by case_decide. Qed.
Lemma of_prio_pair p p' xs : of_prio p (pair p' <$> xs) = if decide (p' = p) then xs else [].
Proof. induction xs as [|x xs IH]; [by case_decide|]. rw /of_prio in IH |- *. csimpl. rw IH. by case_decide. Qed.
Lemma snd_pair {B} (b : B) xs : (pair b <$> xs).*2 = xs.
Proof. induction xs as [|x xs IH]; csimpl; congruence. Qed.
Lemma is_lost_app (l k : list (Fate * A)) : is_lost (l ++ k) → is_lost l ∨ is_lost k.
Proof. rw /is_lost of_fate_app. destruct (of_fate Lost l); [by right|by left]. Qed.
Lemma not_lost_nil : ¬ is_lost ([] : list (Fate * A)).
Proof. rw /is_lost. by intros []. Qed.
Lemma not_lost_pair t xs : t ≠ Lost → ¬ is_lost (pair t <$> xs).
Proof. intros Ht. rw /is_lost of_fate_pair. by case_decide; intros []. Qed.
End lists.

Lemma messages_app {H} p (l k : list (Priority * ProtocolEvent H)) : messages p (l ++ k) = messages p l ++ messages p k.
Proof. by rw /messages frames_of_prio_app omap_app. Qed.
Lemma sizes_app l k : sizes (l ++ k) = sizes l + sizes k.
Proof. induction l as [|x l IH]; [done|]. cbn [sizes app foldr] in *. rw /sizes /= in IH |- *. lia. Qed.

#[global] Hint Resolve not_lost_nil : core.

(** ** The write part *)

(** What a step took from the peer, the frames that left a write buffer, the
    events it received from the session, and the tasks it spawned. *)
Record WEff (H : Type) := mkWEff {
  we_taken : list bytes;
  we_out : list (Fate * (Priority * bytes));
  we_got : list (Priority * ProtocolEvent H);
  we_spawned : list (Spawned H);
}.
Arguments mkWEff {H}.
Arguments we_taken {H}.
Arguments we_out {H}.
Arguments we_got {H}.
Arguments we_spawned {H}.

Definition we_nil {H} : WEff H := mkWEff [] [] [] [].
Definition we_app {H} (e f : WEff H) : WEff H :=
  mkWEff (we_taken e ++ we_taken f) (we_out e ++ we_out f) (we_got e ++ we_got f) (we_spawned e ++ we_spawned f).
Definition we_of_out {H} (out : list (Fate * (Priority * bytes))) : WEff H := mkWEff [] out [] [].

Section write_part.
Context {S C R H : Type} {FR : Framed S} {FL : FramedLaws S} {MS : MsgSender C (ProtocolEvent H)}
  {ML : MsgSenderLaws C (ProtocolEvent H)} {RX : EventReceiver R (ProtocolEvent H)} {RL : EventReceiverLaws R (ProtocolEvent H)}.
Abbreviation St := (WritePart S C R H).
Implicit Types w : St.

Record weff w (e : WEff H) w' : Prop := mk_weff {
  wf_in : fr_incoming (substream w) = we_taken e ++ fr_incoming (substream w');
  wf_out : fr_sent (substream w') = fr_sent (substream w) ++ (of_fate Sent (we_out e)).*2;
  wf_log : rx_log (event_receiver w') = rx_log (event_receiver w) ++ we_got e;
  wf_buf p : of_prio p (we_out e).*2 ++ buf_of p w' = buf_of p w ++ messages p (we_got e);
  wf_context : ∃ n, context w' = set_pending_data_size n (context w) ∧
    wrap 64 n = wrap 64 (ctx_pending_data_size (context w) - sizes (of_fate Sent (we_out e)));
  wf_spawned : spawned w' = spawned w ++ we_spawned e;
  wf_static : sub_id w' = sub_id w ∧ sub_proto_id w' = sub_proto_id w ∧ sub_config w' = sub_config w;
  wf_dead : dead w = true → dead w' = true;
}.

Lemma weff_context w e w' : weff w e w' →
  ctx_id (context w') = ctx_id (context w) ∧ ctx_closed (context w') = ctx_closed (context w).
Proof. intros []. by destruct wf_context0 as (n & -> & _). Qed.

Lemma weff_app w1 w2 w3 e f : weff w1 e w2 → weff w2 f w3 → weff w1 (we_app e f) w3.
Proof.
  intros [] []. split; simpl.
  - rw wf_in0 wf_in1. by rewrite <-app_assoc.
  - rw wf_out1 wf_out0 of_fate_app fmap_app. by rewrite <-app_assoc.
  - rw wf_log1 wf_log0. by rewrite <-app_assoc.
  - intros p. rw fmap_app frames_of_prio_app messages_app -app_assoc wf_buf1 app_assoc wf_buf0. by rewrite <-app_assoc.
  - destruct wf_context0 as (n & Hc & Hn), wf_context1 as (m & Hd & Hm). rw Hc in Hd Hm. exists m. split; [done|].
    simpl in Hm. rw Hm of_fate_app sizes_app. unfold wrap in *.
    rewrite -> Zminus_mod, Hn, <-Zminus_mod. f_equal. lia.
  - rw wf_spawned1 wf_spawned0. by rewrite <-app_assoc.
  - naive_solver congruence.
  - auto.
Qed.

(** A step that touches neither the frames nor the session's events. *)
Lemma weff_same w w' e :
  e = mkWEff [] [] [] (we_spawned e) →
  fr_incoming (substream w') = fr_incoming (substream w) → fr_sent (substream w') = fr_sent (substream w) →
  rx_log (event_receiver w') = rx_log (event_receiver w) → (∀ p, buf_of p w' = buf_of p w) → context w' = context w →
  spawned w' = spawned w ++ we_spawned e →
  sub_id w' = sub_id w → sub_proto_id w' = sub_proto_id w → sub_config w' = sub_config w →
  (dead w = true → dead w' = true) → weff w e w'.
Proof.
  intros -> Hi Ho Hl Hb Hc Hs ? ? ? ?. split; simpl; rw ?app_nil_r; try done.
  - intros p. by rw app_nil_r.
  - exists (ctx_pending_data_size (context w)). rw Hc Z.sub_0_r. split; [by destruct (context w)|done].
Qed.

Lemma weff_refl w : weff w we_nil w.
Proof. apply weff_same; try done. by rw app_nil_r. Qed.

(** The channel to the session can count so many more events than are buffered. *)
Definition room (n : nat) w : Prop := ms_room (plain_len (event_sender w) + n) (b_sender (event_sender w)).

Lemma room_push n w ev : room (Datatypes.S n) w → room n (set_event_sender (plain_push ev (event_sender w)) w).
Proof. rw /room /plain_len /= length_app /=. by replace (length (b_buffer (event_sender w)) + 1 + n)%nat with (length (b_buffer (event_sender w)) + Datatypes.S n)%nat by lia. Qed.

Lemma room_less n m w : (m ≤ n)%nat → room n w → room m w.
Proof.
  rw /room. intros Hnm. replace (plain_len (event_sender w) + n)%nat with (n - m + (plain_len (event_sender w) + m))%nat by lia.
  induction (n - m)%nat as [|k IH]; [done|]. intros Hr. by apply IH, ms_room_less.
Qed.

Lemma room_clear n w : room n w → room n (set_event_sender (plain_clear (event_sender w)) w).
Proof.
  rw /room /plain_len /=. induction (b_buffer (event_sender w)) as [|x l IH]; [done|]. intros Hr. by apply IH, ms_room_less.
Qed.

(** Fields that sending does not touch. *)
Definition same_ctl w w' : Prop :=
  dead w' = dead w ∧ event_sender w' = event_sender w ∧ event_receiver w' = event_receiver w ∧ spawned w' = spawned w.

Lemma same_ctl_refl w : same_ctl w w.
Proof. done. Qed.
Lemma same_ctl_trans w1 w2 w3 : same_ctl w1 w2 → same_ctl w2 w3 → same_ctl w1 w3.
Proof. rw /same_ctl. naive_solver congruence. Qed.

(** A poll function of the stream that neither takes nor sends a frame. *)
Lemma on_substream_same {E A} (f : S → A * S) w :
  (∀ x, fr_incoming (f x).2 = fr_incoming x ∧ fr_sent (f x).2 = fr_sent x) →
  wp (on_substream (E:=E) f) (λ r w', (∃ x, r = Ok (f (substream w)).1 ∧ w' = set_substream x w) ∧
    weff w we_nil w' ∧ same_ctl w w' ∧ ∀ p, buf_of p w' = buf_of p w) w.
Proof.
  intros Hf. rw /wp /on_substream. destruct (f (substream w)) as [a x] eqn:Hx. simpl.
  destruct (Hf (substream w)) as [Hi Ho]. rw Hx in Hi Ho. split_and!; try done; [by exists x|].
  apply weff_same; try done. by rw app_nil_r.
Qed.

Lemma w_poll_complete_spec w :
  wp w_poll_complete (λ r w', r ≠ Panic ∧ weff w we_nil w' ∧ same_ctl w w' ∧ ∀ p, buf_of p w' = buf_of p w) w.
Proof.
  rw /w_poll_complete. wp_step. wp_apply (on_substream_same fr_poll_flush w); [apply fr_flush_same|].
  intros r w' [[x [-> ->]] Hw]. destruct (fr_poll_flush (substream w)).1 as [[u|e]|]; done.
Qed.

(** One frame leaves its buffer. *)
Lemma weff_left t p frame rest w x :
  buf_of p w = frame :: rest → fr_incoming x = fr_incoming (substream w) →
  fr_sent x = fr_sent (substream w) ++ (if decide (t = Sent) then [frame] else []) →
  weff w (we_of_out [(t, (p, frame))]) (set_context
    (if decide (t = Sent) then decr_pending_data_size (Z.of_nat (length frame)) (context w) else context w)
    (set_substream x (set_buf p rest w))).
Proof.
  intros Hb Hi Ho. split; simpl; try done; try by rw ?app_nil_r.
  - rw Ho. by destruct t.
  - intros q. destruct p, q; simpl in *; by rw ?Hb ?app_nil_r.
  - destruct t; simpl.
    + eexists. split; [done|]. rw /wrap Zmod_mod. f_equal. lia.
    + exists (ctx_pending_data_size (context w)). rw Z.sub_0_r. by destruct (context w).
    + exists (ctx_pending_data_size (context w)). rw Z.sub_0_r. by destruct (context w).
Qed.

(** Sending one frame, popped from its buffer. *)
Lemma send_inner_spec p frame rest w :
  buf_of p w = frame :: rest →
  wp (w_send_inner frame p) (λ r w', ∃ out, weff w (we_of_out out) w' ∧ same_ctl w w' ∧
    (∀ q, q ≠ p → buf_of q w' = buf_of q w) ∧
    match r with
    | Ok false => out = [(Sent, (p, frame))] ∧ buf_of p w' = rest
    | Ok true => out = [] ∧ buf_of p w' = frame :: rest
    | Err _ => out = [] ∨ out = [(Lost, (p, frame))]
    | Panic => False
    end) (set_buf p rest w).
Proof.
  intros Hb. rw /w_send_inner. cbv zeta. wp_step.
  rw {1}/on_substream {1}/wp. destruct (fr_ready_same (substream w)) as [Hi Ho]. cbn [substream set_buf].
  destruct (fr_poll_ready (substream w)) as [q x1]. simpl in Hi, Ho. cbn [fst snd].
  assert (weff w (we_of_out [(Lost, (p, frame))]) (set_substream x1 (set_buf p rest w))) as Hlost.
  { apply (weff_left Lost p frame rest w x1); [done..|]. by rw Ho app_nil_r. }
  assert (∀ q, q ≠ p → buf_of q (set_substream x1 (set_buf p rest w)) = buf_of q w) as Hbq by by intros []; destruct p.
  destruct q as [[u|e]|]; cbn [ok_io]; wp_steps.
  - rw {1}/on_substream /wp. cbn [substream set_substream].
    destruct (fr_start_send frame x1) as [[[]|e] x2] eqn:Hs; cbn [ok_io fst snd].
    + apply fr_send_frame in Hs as [Hs Hi2]. exists [(Sent, (p, frame))]. split; [|by destruct p].
      apply (weff_left Sent p frame rest w x2); [done|congruence|by rw Hs Ho].
    + apply fr_send_fail in Hs as [Hs Hi2]. exists [(Lost, (p, frame))].
      split; [|split; [done|split; [exact Hbq|by right]]].
      apply (weff_left Lost p frame rest w x2); [done|congruence|]. by rw Hs Ho app_nil_r.
  - exists [(Lost, (p, frame))]. split; [done|]. split; [done|]. split; [done|by right].
  - rw /w_push_front. wp_steps. set (w1 := set_buf p _ _).
    assert (∀ q, buf_of q w1 = buf_of q w) as Hw1 by by intros []; destruct p.
    assert (weff w we_nil w1) as H1.
    { apply weff_same; try done. by rw app_nil_r. }
    wp_apply (w_poll_complete_spec w1). intros r w2 (Hr & He2 & Hc2 & Hb2).
    destruct r as [b|e|]; [| |done]; wp_steps.
    all: exists []; pose proof (weff_app _ _ _ _ _ H1 He2) as H2; split; [exact H2|].
    all: split; [by apply (same_ctl_trans _ w1)|]; split; [|by rw ?Hb2 ?Hw1; auto].
    all: intros; by rw Hb2 Hw1.
Qed.
(** Frames of one priority: the ones sent, and the ones lost. *)
Definition left_out (p : Priority) (fs lost : list bytes) : list (Fate * (Priority * bytes)) :=
  (pair Sent <$> (pair p <$> fs)) ++ (pair Lost <$> (pair p <$> lost)).

Lemma w_send_loop_spec p buf w :
  buf_of p w = buf →
  wp (w_send_loop p buf) (λ r w', ∃ fs lost, weff w (we_of_out (left_out p fs lost)) w' ∧ same_ctl w w' ∧
    (∀ q, q ≠ p → buf_of q w' = buf_of q w) ∧
    match r with Ok true => lost = [] | Ok false => lost = [] ∧ buf_of p w' = [] | Err _ => True | Panic => False end) w.
Proof.
  revert w. induction buf as [|frame buf IH]; intros w Hb; cbn [w_send_loop]; wp_steps.
  { exists [], []. split; [apply weff_refl|done]. }
  wp_apply (send_inner_spec p frame buf w Hb). intros r w1 (out & He & Hc & Hq & Hr).
  destruct r as [[]|e|]; [..|done].
  - destruct Hr as [-> Hr]. wp_steps. by exists [], [].
  - destruct Hr as [-> Hr]. wp_apply (IH w1 Hr). intros r w2 (fs & lost & He2 & Hc2 & Hq2 & Hr2).
    exists (frame :: fs), lost. split; [exact (weff_app _ _ _ _ _ He He2)|]. split; [by apply (same_ctl_trans _ w1)|].
    split; [|done]. intros q ?. by rw Hq2 ?Hq.
  - exists []. destruct Hr as [-> | ->]; [by exists []|by exists [frame]].
Qed.

Lemma send_data_spec w :
  wp w_send_data (λ r w', ∃ hs ns ls,
    weff w (we_of_out ((pair Sent <$> (pair High <$> hs) ++ (pair Normal <$> ns)) ++ (pair Lost <$> ls))) w' ∧
    same_ctl w w' ∧ (ns ≠ [] → buf_of High w' = []) ∧ r ≠ Panic ∧ (r = Ok () → ls = [])) w.
Proof.
  rw /w_send_data. wp_steps. wp_apply (w_send_loop_spec High _ w eq_refl). intros r w1 (hs & lh & He & Hc & Hq & Hr).
  destruct r as [[]|e|]; [..|done]; wp_steps.
  - exists hs, [], []. subst lh. rw /left_out !app_nil_r in He |- *. done.
  - destruct Hr as [-> Hr]. wp_apply (w_send_loop_spec Normal _ w1 eq_refl). intros r w2 (ns & ln & He2 & Hc2 & Hq2 & Hr2).
    assert (weff w (we_of_out ((pair Sent <$> (pair High <$> hs) ++ (pair Normal <$> ns)) ++
      (pair Lost <$> (pair Normal <$> ln)))) w2) as H2.
    { pose proof (weff_app _ _ _ _ _ He He2) as H2. rw /left_out /= app_nil_r in H2. rw fmap_app -app_assoc. exact H2. }
    assert (buf_of High w2 = []) as Hh by by rw Hq2.
    assert (same_ctl w w2) as Hc3 by by apply (same_ctl_trans _ w1).
    destruct r as [[]|e|]; [..|done]; wp_steps.
    + exists hs, ns, []. subst ln. done.
    + destruct Hr2 as [-> Hr2]. wp_apply (w_poll_complete_spec w2). intros r w3 (Hp & He3 & Hc4 & Hb3).
      assert (∃ hs ns ls, weff w (we_of_out ((pair Sent <$> (pair High <$> hs) ++ (pair Normal <$> ns)) ++ (pair Lost <$> ls))) w3 ∧
        same_ctl w w3 ∧ (ns ≠ [] → buf_of High w3 = []) ∧ ls = []) as (hs' & ns' & ls' & ? & ? & ? & ?).
      { exists hs, ns, []. pose proof (weff_app _ _ _ _ _ H2 He3) as H3. rw /we_app /= !app_nil_r in H3. split; [by rw app_nil_r|].
        split; [by apply (same_ctl_trans _ w2)|]. split; [|done]. intros _. by rw Hb3. }
      destruct r as [b|e|]; [..|done]; wp_steps; by exists hs', ns', ls'.
    + by exists hs, ns, (pair Normal <$> ln).
  - exists hs, [], (pair High <$> lh). rw /left_out in He. by rw app_nil_r.
Qed.

(** ** Events to the session *)

(** Fields that the buffer of events does not touch. *)
Definition same_data w w' : Prop :=
  substream w' = substream w ∧ event_receiver w' = event_receiver w ∧ (∀ p, buf_of p w' = buf_of p w).

Lemma w_output_spec {E} cx n w :
  room n w →
  wp (w_output (E:=E) cx) (λ r w', r = Ok () ∧ weff w we_nil w' ∧ same_data w w' ∧ spawned w' = spawned w ∧ room n w') w.
Proof.
  intros Hroom. rw /w_output. wp_step. rw {1}/wp /event_try_send. pose proof (plain_buffer_flush cx n _ Hroom) as Hf.
  destruct (plain_try_send cx (event_sender w)) as [[r|e|] b]; [|done..]. destruct Hf as [Hr _]. cbn [fst snd].
  assert (weff w we_nil (set_event_sender b w)) as He by (apply weff_same; try done; by rw app_nil_r).
  destruct r; wp_steps; try by split_and!.
  split_and!; try done. apply weff_same; try done. by rw app_nil_r.
Qed.
(** An event taken from the session's channel. *)
Lemma weff_got ev p rx w w' out :
  rx_log rx = rx_log (event_receiver w) ++ [(p, ev)] →
  substream w' = substream w → event_receiver w' = rx → context w' = context w → spawned w' = spawned w →
  sub_id w' = sub_id w → sub_proto_id w' = sub_proto_id w → sub_config w' = sub_config w →
  (dead w = true → dead w' = true) → of_fate Sent out = [] →
  (∀ q, of_prio q out.*2 ++ buf_of q w' = buf_of q w ++ messages q [(p, ev)]) →
  weff w (mkWEff [] out [(p, ev)] []) w'.
Proof.
  intros Hl Hs Hr Hc Hsp ? ? ? ? Ho Hb. split; simpl; rw ?Hs ?Hr ?app_nil_r ?Ho ?app_nil_r //.
  exists (ctx_pending_data_size (context w)). rw Hc Z.sub_0_r. split; [by destruct (context w)|done].
Qed.

(** The outcome of a step on the session's events: nothing taken from the peer,
    nothing spawned, and frames are lost only with the stream. *)
Definition ev_step n w w' : Prop :=
  ∃ e, weff w e w' ∧ we_taken e = [] ∧ we_spawned e = [] ∧ (is_lost (we_out e) → dead w' = true) ∧ room n w'.

Lemma not_lost_sent {A} (l : list A) (k : list A) : is_lost ((pair Sent <$> l) ++ (pair Lost <$> k)) → k ≠ [].
Proof. rw /is_lost of_fate_app !of_fate_pair. by case_decide. Qed.

Lemma handle_proto_event_spec {E} cx ev p rx n w :
  room (Datatypes.S n) w → rx_log rx = rx_log (event_receiver w) ++ [(p, ev)] →
  wp (w_handle_proto_event (E:=E) cx ev p) (λ r w', r = Ok () ∧ ev_step n w w') (set_event_receiver rx w).
Proof.
  intros Hroom Hlog. assert (room n w) as Hroom0 by (eapply room_less; [|done]; lia).
  assert (messages p [(p, ev)] = match ev with PvMessage d => [d] | _ => [] end) as Hm.
  { rw /messages /of_prio /=. destruct (decide (p = p)); [|done]. by destruct ev. }
  assert (∀ q, q ≠ p → messages q [(p, ev)] = []) as Hm'.
  { intros q Hq. rw /messages /of_prio /=. by destruct (decide (p = q)); [congruence|]. }
  assert ((∀ d, ev ≠ PvMessage d) → ∀ q, messages q [(p, ev)] = []) as Hm0.
  { intros Hne q. destruct (decide (q = p)) as [->|]; [|auto]. rw Hm. destruct ev; try done. by destruct (Hne data). }
  assert ((∀ d, ev ≠ PvMessage d) → ev_step n w (set_event_receiver rx w)) as Hother.
  { intros Hne. exists (mkWEff [] [] [(p, ev)] []). split_and!; try done.
    apply (weff_got _ _ rx); try done. intros q. by rw Hm0 ?app_nil_r. }
  destruct ev; cbn [w_handle_proto_event]; wp_steps; try (by split; [|apply Hother]).
  - split; [done|]. exists (mkWEff [] (pair Lost <$> (pair Normal <$> write_buf w)) [(p, PvClose id proto_id)] []).
    split_and!; try done. apply (weff_got _ _ rx); try done.
    { by rw of_fate_pair. }
    intros q. rw snd_pair of_prio_pair Hm0 ?app_nil_r //. by destruct q; simpl; rw ?app_nil_r.
  - rw /w_push_back. wp_steps. set (w1 := set_buf p _ _).
    assert (weff w (mkWEff [] [] [(p, PvMessage data)] []) w1) as H1.
    { apply (weff_got _ _ rx); try done. intros q. destruct (decide (q = p)) as [->|Hq].
      - rw Hm. by destruct p.
      - rw Hm' ?app_nil_r //. by destruct q, p. }
    wp_apply (send_data_spec w1). intros r w2 (hs & ns & ls & He & Hc & _ & Hnp & Hok).
    pose proof (weff_app _ _ _ _ _ H1 He) as H2. destruct Hc as (Hd & Hs & _ & _).
    assert (room (Datatypes.S n) w2) as Hroom2 by by rw /room Hs.
    destruct r as [[]|e|]; [..|done]; wp_steps.
    + split; [done|]. eexists. split; [exact H2|]. split_and!; try done.
      * rw (Hok eq_refl) /= app_nil_r. intros Hl. by apply not_lost_pair in Hl.
      * eapply room_less; [|done]. lia.
    + rw /w_output_event /push_event. wp_steps. wp_apply (w_output_spec cx n); [by apply room_push|].
      intros r w3 (-> & He3 & _ & Hsp & Hroom3). wp_steps. split; [done|].
      assert (weff w2 we_nil (set_dead true w3)) as H3.
      { eapply (weff_app _ w3 _ we_nil we_nil); [|apply weff_same; try done; by rw app_nil_r].
        eapply (weff_app _ _ _ we_nil we_nil); [|exact He3]. apply weff_same; try done. by rw app_nil_r. }
      eexists. split; [exact (weff_app _ _ _ _ _ H2 H3)|]. by split_and!.
Qed.

Lemma ev_step_refl n w : room n w → ev_step n w w.
Proof. intros Hr. exists we_nil. split; [apply weff_refl|]. split_and!; [done..| |done]. by intros []. Qed.

Lemma recv_event_spec {E} (shut : S → Poll (unit + io.ErrorKind) * S) cx n w :
  (∀ x, fr_incoming (shut x).2 = fr_incoming x ∧ fr_sent (shut x).2 = fr_sent x) →
  room (Datatypes.S n) w → cfg_max_stream_window_size (sub_config w) ≠ 0 →
  wp (recv_event_with (E:=E) shut cx) (λ r w', (∃ p, r = Ok p) ∧ ev_step n w w') w.
Proof.
  intros Hsh Hroom Hcfg. assert (room n w) as Hroom0 by (eapply room_less; [|done]; lia).
  assert (ev_step n w w) as Hsame by by apply ev_step_refl.
  rw /recv_event_with. wp_step. wp_step. destruct (dead w) eqn:Hd; [by split; [eexists|]|].
  wp_step. wp_step. wp_step. wp_step. rw /send_event_size (proj2 (Z.eqb_neq _ _) Hcfg).
  destruct (_ <? _); [by split; [eexists|]|].
  pose proof (rx_poll_next_log (event_receiver w)) as Hlog. destruct (rx_poll_next (event_receiver w)) as [p rx]. cbn [fst snd] in Hlog.
  assert (rx_log rx = rx_log (event_receiver w) → ev_step n w (set_event_receiver rx w)) as Hrx.
  { intros Hl. exists we_nil. split_and!; try done. apply weff_same; try done. by rw app_nil_r. }
  destruct p as [[[priority ev]|]|]; wp_steps.
  - wp_apply (handle_proto_event_spec cx ev priority rx n w Hroom Hlog). intros r w' [-> Hs]. wp_steps. by split; [eexists|].
  - wp_apply (on_substream_same shut); [done|]. intros r w' ([x [-> ->]] & He & _). wp_steps. split; [by eexists|].
    exists we_nil. split_and!; try done. eapply (weff_app _ _ _ we_nil we_nil); [|exact He].
    apply weff_same; try done; simpl; by rw ?Hlog ?app_nil_r.
  - split; [by eexists|]. apply Hrx. by rw Hlog app_nil_r.
Qed.
(** ** A poll of the write part *)

(** The outcome of a poll: as a step on the session's events, except that the
    closing task may be spawned. *)
Definition w_polled w (p : Poll (option unit)) w' : Prop :=
  ∃ e, weff w e w' ∧ we_taken e = [] ∧ (is_lost (we_out e) → dead w' = true) ∧
    (we_spawned e = [] ∨ dead w' = true ∨ ctx_closed (context w) = true) ∧
    (dead w = true ∨ ctx_closed (context w) = true → p = Ready None ∧ we_out e = [] ∧ we_spawned e =
      if ctx_closed (context w) then []
      else [ToParent (b_buffer (event_sender w) ++ [PvClose (sub_id w) (sub_proto_id w)])]).

Lemma w_close_spec {E} cx n w :
  room n w →
  wp (w_close_proto_stream (E:=E) cx) (λ r w', r = Ok () ∧ room n w' ∧ weff w (mkWEff [] [] []
    (if ctx_closed (context w) then [] else [ToParent (b_buffer (event_sender w) ++ [PvClose (sub_id w) (sub_proto_id w)])])) w') w.
Proof.
  intros Hn. rw /w_close_proto_stream. do 3 wp_step. wp_apply (on_substream_same fr_poll_close); [apply fr_close_same|].
  intros r w1 ([x [-> ->]] & [Hi Ho _ _ _ _ _ _] & _). rw /close_to_parent. do 2 wp_step. cbn [context set_substream set_event_receiver].
  simpl in Hi, Ho. rewrite -> app_nil_r in Ho. destruct (ctx_closed (context w)); cbn [negb].
  - wp_apply (w_output_spec cx n); [done|]. intros r w' (-> & Hw & _ & _ & Hr). split; [done|]. split; [done|].
    refine (weff_app _ _ _ we_nil we_nil _ Hw). apply weff_same; try done; [apply rx_close_log|by rw app_nil_r].
  - wp_steps. injection Heqp as <- <-. split; [done|]. split; [exact (room_clear n w Hn)|].
    apply weff_same; try done. apply rx_close_log.
Qed.

Lemma w_flush_spec cx n w :
  room n w →
  wp (w_flush cx) (λ r w', ∃ e, weff w e w' ∧ we_taken e = [] ∧ we_spawned e = [] ∧ room n w' ∧
    r ≠ Panic ∧ (r = Ok () → ¬ is_lost (we_out e))) w.
Proof.
  intros Hn. rw /w_flush. wp_step. wp_apply (w_poll_complete_spec w). intros r w1 (Hp & H1 & (_ & Hs & _) & _).
  assert (room n w1) as Hn1 by by rw /room Hs.
  destruct r as [b|e|]; [do 2 wp_step|by exists we_nil|done]. case_match; [|by wp_step; exists we_nil]. wp_step.
  wp_apply (w_output_spec cx n); [done|]. intros r w2 (-> & H2 & _ & _ & Hn2).
  wp_apply (send_data_spec w2). intros r w3 (hs & ns & ls & H3 & (_ & Hs3 & _) & _ & Hp3 & Hok).
  eexists. split; [exact (weff_app _ _ _ _ _ H1 (weff_app _ _ _ _ _ H2 H3))|]. split_and!; try done; [by rw /room Hs3|].
  intros ->. rw (Hok eq_refl) /= app_nil_r. by apply not_lost_pair.
Qed.

Lemma w_error_close_spec {E} cx error n w :
  room (Datatypes.S n) w →
  wp (w_error_close (E:=E) cx error) (λ r w', r = Ok () ∧ dead w' = true ∧
    ∃ ts, weff w (mkWEff [] [] [] ts) w') w.
Proof.
  intros Hn. rw /w_error_close. do 2 wp_step. case_match; wp_steps.
  - split; [done|]. split; [done|]. exists []. apply weff_same; try done. by rw app_nil_r.
  - rw /push_event. wp_step. set (w1 := set_event_sender _ _).
    wp_apply (w_close_spec cx n w1); [by apply (room_push n (set_dead true w))|]. intros r w' (-> & _ & Hw). split; [done|].
    split; [by apply (wf_dead _ _ _ Hw)|]. eexists. refine (weff_app _ _ _ we_nil _ _ Hw).
    apply weff_same; try done. by rw app_nil_r.
Qed.

(** A poll of the write part: the frames leave in order, and a dead part or one
    of a closed session tells the session and ends. *)
Theorem write_part_poll proceed cx w :
  room 2 w → cfg_max_stream_window_size (sub_config w) ≠ 0 →
  ∃ p w', w_poll_next (E:=Empty_set) proceed cx w = (Ok p, w') ∧ w_polled w p w'.
Proof.
  intros Hn Hcfg. assert (wp (w_poll_next (E:=Empty_set) proceed cx) (λ r w', ∃ p, r = Ok p ∧ w_polled w p w') w) as (p & Hr & Hw);
    last by (exists p, (w_poll_next (E:=Empty_set) proceed cx w).2; rw -Hr; destruct (w_poll_next _ _ _)).
  rw /w_poll_next. do 2 wp_step. destruct (dead w || ctx_closed (context w)) eqn:Hd.
  { wp_step. wp_apply (w_close_spec cx 2 w Hn). intros r w' (-> & _ & Hw). wp_step. exists (Ready None). split; [done|].
    eexists. split; [exact Hw|]. split_and!; try done. simpl.
    destruct (ctx_closed (context w)); [by left|right; left]. apply (wf_dead _ _ _ Hw). by destruct (dead w). }
  apply orb_false_iff in Hd as [Hd Hc].
  assert (∀ p e w', weff w e w' → we_taken e = [] → (is_lost (we_out e) → dead w' = true) →
    (we_spawned e = [] ∨ dead w' = true) → w_polled w p w') as Hdone.
  { intros p e w' Hw Ht Hl Hs. exists e. rw Hd Hc. split_and!; try done; [by destruct Hs; auto|by intros []]. }
  wp_step. apply wp_try. wp_apply (w_flush_spec cx 2 w Hn). intros r w1 (e1 & H1 & Ht1 & Hs1 & Hn1 & Hp & Hok).
  destruct r as [[]|err|]; [|wp_step|done].
  - specialize (Hok eq_refl). destruct proceed; cbn [negb]; [|by wp_step; exists Pending; split; [|eapply Hdone; eauto]].
    destruct (wf_static _ _ _ H1) as (_ & _ & Hcf). wp_step.
    wp_apply (recv_event_spec fr_poll_close cx 1 w1); [apply fr_close_same|done|by rw Hcf|].
    intros r w2 [[p ->] (e2 & H2 & Ht2 & Hs2 & Hl2 & _)]. wp_step. eexists. split; [done|].
    eapply Hdone; [exact (weff_app _ _ _ _ _ H1 H2)|by rw /= Ht1 Ht2| |left; by rw /= Hs1 Hs2].
    by intros []%is_lost_app; [|apply Hl2].
  - wp_apply (w_error_close_spec cx err 1 w1 Hn1). intros r w2 (-> & Hd2 & ts & H2). wp_step. eexists. split; [done|].
    eapply Hdone; [exact (weff_app _ _ _ _ _ H1 H2)|by rw /= Ht1|done|by right].
Qed.
End write_part.

(** ** The whole stream *)

(** The frames a step took, as [before_receive] passes them on. *)
Definition apply_before (f : option (bytes → bytes + io.ErrorKind)) (data : bytes) : bytes + io.ErrorKind :=
  match f with Some function => function data | None => inl data end.
Definition decoded (f : option (bytes → bytes + io.ErrorKind)) (frames : list bytes) : list bytes :=
  omap (λ d, match apply_before f d with inl d => Some d | inr _ => None end) frames.

(** The effect on the write part, the events that left the buffers to the two
    handles, and the closes, with whether the session was closed. *)
Record Eff (H : Type) := mkEff {
  e_part : WEff H;
  e_service : list (Fate * ServiceProtocolEvent);
  e_session : list (Fate * SessionProtocolEvent);
  e_closes : list bool;
}.
Arguments mkEff {H}.
Arguments e_part {H}.
Arguments e_service {H}.
Arguments e_session {H}.
Arguments e_closes {H}.

Definition e_nil {H} : Eff H := mkEff we_nil [] [] [].
Definition e_app {H} (e f : Eff H) : Eff H :=
  mkEff (we_app (e_part e) (e_part f)) (e_service e ++ e_service f) (e_session e ++ e_session f) (e_closes e ++ e_closes f).

Definition e_lost {H} (e : Eff H) : Prop := is_lost (we_out (e_part e)) ∨ is_lost (e_service e) ∨ is_lost (e_session e).

Lemma e_lost_app {H} (e f : Eff H) : e_lost (e_app e f) → e_lost e ∨ e_lost f.
Proof. rw /e_lost /=. intros [[]%is_lost_app|[[]%is_lost_app|[]%is_lost_app]]; auto. Qed.

Lemma e_lost_nil {H} : ¬ e_lost (e_nil (H:=H)).
Proof. intros [Hl | [Hl | Hl]]; by apply not_lost_nil in Hl. Qed.

(** What the handles are told: the frames, and the closes. *)
Definition service_events (id : nat) f (frames : list bytes) (closes : list bool) : list ServiceProtocolEvent :=
  (SvReceived id <$> decoded f frames) ++ ((λ _, SvDisconnected id) <$> closes).
Definition closing (closed : bool) : list SessionProtocolEvent := SsClosed :: if closed then [SsDisconnected] else [].
Definition session_events f (frames : list bytes) (closes : list bool) : list SessionProtocolEvent :=
  (SsReceived <$> decoded f frames) ++ concat (closing <$> closes).

(** The events that closing tasks send. *)
Definition to_service {H} (ts : list (Spawned H)) : list ServiceProtocolEvent :=
  concat ((λ t, match t with ToService events => events | _ => [] end) <$> ts).
Definition to_session {H} (ts : list (Spawned H)) : list SessionProtocolEvent :=
  concat ((λ t, match t with ToSession events => events | _ => [] end) <$> ts).

Lemma to_service_app {H} (l k : list (Spawned H)) : to_service (l ++ k) = to_service l ++ to_service k.
Proof. by rw /to_service fmap_app concat_app. Qed.
Lemma to_session_app {H} (l k : list (Spawned H)) : to_session (l ++ k) = to_session l ++ to_session k.
Proof. by rw /to_session fmap_app concat_app. Qed.

Lemma decoded_app f l k : decoded f (l ++ k) = decoded f l ++ decoded f k.
Proof. apply omap_app. Qed.

(** A step that closes is followed by steps that take no frame. *)
Lemma service_events_app id f l k c d :
  c = [] ∨ k = [] → service_events id f (l ++ k) (c ++ d) = service_events id f l c ++ service_events id f k d.
Proof.
  rw /service_events decoded_app !fmap_app. intros [-> | ->]; simpl; rw ?app_nil_r; by rewrite <-?app_assoc.
Qed.
Lemma session_events_app f l k c d :
  c = [] ∨ k = [] → session_events f (l ++ k) (c ++ d) = session_events f l c ++ session_events f k d.
Proof.
  rw /session_events decoded_app !fmap_app concat_app. intros [-> | ->]; simpl; rw ?app_nil_r; by rewrite <-?app_assoc.
Qed.

Section handle.
Context {C T : Type} {MS : MsgSender C T} {ML : MsgSenderLaws C T}.

(** The buffer of a handle after [pushed] was pushed and [out] left it. *)
Definition heff (b b' : option (Buffer C T)) (out : list (Fate * T)) (pushed : list T) : Prop :=
  match b, b' with
  | Some b, Some b' =>
      entered Normal (of_fate Sent out) (b_sender b) (b_sender b') ∧ out.*2 ++ b_buffer b' = b_buffer b ++ pushed
  | None, None => out = []
  | _, _ => False
  end.

Lemma heff_app b1 b2 b3 o1 o2 p1 p2 : heff b1 b2 o1 p1 → heff b2 b3 o2 p2 → heff b1 b3 (o1 ++ o2) (p1 ++ p2).
Proof.
  destruct b1 as [b1|], b2 as [b2|], b3 as [b3|]; simpl; try done; [|by intros -> ->].
  intros [He1 Hb1] [He2 Hb2]. split.
  - rw of_fate_app. by eapply entered_app.
  - rw fmap_app -app_assoc Hb2 app_assoc Hb1. by rewrite <-app_assoc.
Qed.

Lemma heff_same b p : (p = [] ∨ b = None) → heff b b [] p.
Proof. destruct b; [|done]. intros [-> | ?]; [|done]. split; [by apply entered_nil|by rw app_nil_r]. Qed.

Definition hroom (n : nat) (b : option (Buffer C T)) : Prop :=
  match b with Some b => ms_room (plain_len b + n) (b_sender b) | None => True end.

Lemma heff_push b x : heff b (plain_push x <$> b) [] [x].
Proof. destruct b; [|done]. split; [by apply entered_nil|done]. Qed.

Lemma hroom_push n b x : hroom (S n) b → hroom n (plain_push x <$> b).
Proof.
  destruct b as [b|]; [|done]. rw /hroom /plain_len /= length_app /=.
  by replace (length (b_buffer b) + 1 + n)%nat with (length (b_buffer b) + S n)%nat by lia.
Qed.

Lemma hroom_less n b : hroom (S n) b → hroom n b.
Proof.
  destruct b as [b|]; [|done]. rw /hroom. replace (plain_len b + S n)%nat with (S (plain_len b + n)) by lia. apply ms_room_less.
Qed.

Lemma heff_try_send cx n (b : Buffer C T) :
  hroom n (Some b) → ∃ r b' out, plain_try_send cx b = (Ok r, b') ∧ heff (Some b) (Some b') out [] ∧ hroom n (Some b') ∧
    of_fate Handed out = [] ∧ (is_lost out → r = SDisconnect).
Proof.
  intros Hr. pose proof (plain_buffer_flush cx n b Hr) as Hf. destruct (plain_try_send cx b) as [[r|e|] b']; [|done..].
  destruct Hf as (Hr' & ms & lost & Hb & Hent & Hcase). exists r, b', ((pair Sent <$> ms) ++ (pair Lost <$> lost)).
  split; [done|]. rw /heff fmap_app !snd_pair !of_fate_app !of_fate_pair /= !app_nil_r -app_assoc -Hb.
  split; [done|]. split; [done|]. split; [done|]. intros Hl%not_lost_sent. by destruct r; destruct_and?.
Qed.
End handle.

Section substream.
Context {S C C1 C2 R H : Type} {FR : Framed S} {FL : FramedLaws S} {MS : MsgSender C (ProtocolEvent H)}
  {ML : MsgSenderLaws C (ProtocolEvent H)} {RX : EventReceiver R (ProtocolEvent H)} {RL : EventReceiverLaws R (ProtocolEvent H)}
  {MS1 : MsgSender C1 ServiceProtocolEvent} {ML1 : MsgSenderLaws C1 ServiceProtocolEvent}
  {MS2 : MsgSender C2 SessionProtocolEvent} {ML2 : MsgSenderLaws C2 SessionProtocolEvent}.
Abbreviation St := (Substream S C C1 C2 R H).
Implicit Types s : St.

Record eff s (e : Eff H) s' : Prop := mk_eff {
  ef_part : weff (part s) (e_part e) (part s');
  ef_service : heff (service_proto_sender s) (service_proto_sender s') (e_service e)
    (service_events (ctx_id (context (part s))) (before_receive s) (we_taken (e_part e)) (e_closes e));
  ef_session : heff (session_proto_sender s) (session_proto_sender s') (e_session e)
    (session_events (before_receive s) (we_taken (e_part e)) (e_closes e));
  ef_handed : of_fate Handed (e_service e) = to_service (we_spawned (e_part e)) ∧
    of_fate Handed (e_session e) = to_session (we_spawned (e_part e));
  ef_static : keep_buffer s' = keep_buffer s ∧ before_receive s' = before_receive s;
}.

Lemma eff_refl s : eff s e_nil s.
Proof. split; try done; [apply weff_refl|by apply heff_same; left..]. Qed.

Lemma eff_app s1 s2 s3 e f :
  e_closes e = [] ∨ we_taken (e_part f) = [] → eff s1 e s2 → eff s2 f s3 → eff s1 (e_app e f) s3.
Proof.
  intros Hord [He Hsv Hss [Hh1 Hh2] [Hk Hb]] [Hf Hsv' Hss' [Hh1' Hh2'] [Hk' Hb']].
  destruct (weff_context _ _ _ He) as [Hid _]. split; simpl.
  - by eapply weff_app.
  - rw service_events_app //. rw Hid Hb in Hsv'. by eapply heff_app.
  - rw session_events_app //. rw Hb in Hss'. by eapply heff_app.
  - by rw !of_fate_app to_service_app to_session_app Hh1 Hh1' Hh2 Hh2'.
  - by rw Hk' Hb' Hk Hb.
Qed.

Definition with_part (w : WritePart S C R H) s : St :=
  mkSubstream w (keep_buffer s) (service_proto_sender s) (session_proto_sender s) (before_receive s).

Lemma eff_part s w we :
  weff (part s) we w → we_taken we = [] → to_service (we_spawned we) = [] → to_session (we_spawned we) = [] →
  eff s (mkEff we [] [] []) (with_part w s).
Proof.
  intros Hw Ht H1 H2. split; simpl; rw ?Ht; try done; by apply heff_same; left.
Qed.

Lemma wp_on_part {E A} (m : M (WritePart S C R H) E A) Q s :
  wp m (λ r w, Q r (with_part w s)) (part s) → wp (on_part m) Q s.
Proof. rw /wp /on_part. by destruct (m (part s)). Qed.

(** The channels can count the buffered events and so many more. *)
Definition rooms (n m : nat) s : Prop :=
  room n (part s) ∧ hroom m (service_proto_sender s) ∧ hroom m (session_proto_sender s).

(** A step that takes no frame and does not close. *)
Definition plain_step s (e : Eff H) s' : Prop :=
  eff s e s' ∧ we_taken (e_part e) = [] ∧ e_closes e = [] ∧ we_spawned (e_part e) = [].

Lemma plain_step_app s1 s2 s3 e f : plain_step s1 e s2 → plain_step s2 f s3 → plain_step s1 (e_app e f) s3.
Proof.
  intros (He & Ht & Hc & Hs) (Hf & Ht' & Hc' & Hs'). split; [eapply eff_app; eauto|]. simpl. by rw Ht Ht' Hc Hc' Hs Hs'.
Qed.

Lemma plain_step_refl s : plain_step s e_nil s.
Proof. split; [apply eff_refl|done]. Qed.

(** A flush of the buffers: what is lost is lost with the stream. *)
Definition flushed (n m : nat) s s' : Prop :=
  ∃ e, plain_step s e s' ∧ (e_lost e → dead (part s') = true) ∧ rooms n m s'.

Lemma flushed_trans n m s1 s2 s3 : flushed n m s1 s2 → flushed n m s2 s3 → flushed n m s1 s3.
Proof.
  intros (e & He & Hl & Hr) (f & Hf & Hl' & Hr'). exists (e_app e f). split; [by eapply plain_step_app|]. split; [|done].
  intros [Hle | Hlf]%e_lost_app; [|auto]. destruct Hf as ([Hw _ _ _ _] & _). by apply (wf_dead _ _ _ Hw), Hl.
Qed.

Lemma flushed_refl n m s : rooms n m s → flushed n m s s.
Proof.
  intros Hr. exists e_nil. split; [apply plain_step_refl|]. split; [|done]. by intros []%e_lost_nil.
Qed.

(** ** Flushing *)

(** A step of the write part that spawns nothing and loses nothing. *)
Lemma flushed_part n m s w :
  weff (part s) we_nil w → room n w → rooms n m s → flushed n m s (with_part w s).
Proof.
  intros Hw Hn (_ & ? & ?). exists e_nil. split; [by split; [apply eff_part|]|]. split; [by intros []%e_lost_nil|done].
Qed.

Lemma service_try_send_spec {E} cx n m s :
  rooms n m s → wp (service_try_send (E:=E) cx) (λ r s', r = Ok () ∧ flushed n m s s') s.
Proof.
  intros Hr. rw /service_try_send /wp. destruct (service_proto_sender s) as [b|] eqn:Hb; [|by split; [|apply flushed_refl]].
  destruct (Hr) as (Hn & Hs1 & Hs2). rw Hb in Hs1.
  destruct (heff_try_send cx m b Hs1) as (r & b' & out & -> & Hh & Hroom & Hhd & Hlost).
  set (s1 := set_service_proto_sender (Some b') s).
  assert (∀ w, weff (part s) we_nil w → room n w → (is_lost out → dead w = true) → flushed n m s (with_part w s1)) as Hdone.
  { intros w Hw Hnw Hd. exists (mkEff we_nil out [] []). split; [split; [|done]|split; [|by split]].
    - split; simpl; try done; [by rw Hb|by apply heff_same; left].
    - intros [Hl | [Hl | Hl]]; [by apply not_lost_nil in Hl|by apply Hd|by apply not_lost_nil in Hl]. }
  assert (flushed n m s (with_part (set_dead true (part s)) s1)) as Hdead.
  { apply Hdone; [|done..]. apply weff_same; try done. by rw app_nil_r. }
  destruct r; simpl; [| |by split].
  all: split; [done|]; apply (Hdone (part s)); [apply weff_refl|done|by intros ?%Hlost].
Qed.

Lemma session_try_send_spec {E} cx n m s :
  rooms n m s → wp (session_try_send (E:=E) cx) (λ r s', r = Ok () ∧ flushed n m s s') s.
Proof.
  intros Hr. rw /session_try_send /wp. destruct (session_proto_sender s) as [b|] eqn:Hb; [|by split; [|apply flushed_refl]].
  destruct (Hr) as (Hn & Hs1 & Hs2). rw Hb in Hs2.
  destruct (heff_try_send cx m b Hs2) as (r & b' & out & -> & Hh & Hroom & Hhd & Hlost).
  set (s1 := set_session_proto_sender (Some b') s).
  assert (∀ w, weff (part s) we_nil w → room n w → (is_lost out → dead w = true) → flushed n m s (with_part w s1)) as Hdone.
  { intros w Hw Hnw Hd. exists (mkEff we_nil [] out []). split; [split; [|done]|split; [|by split]].
    - split; simpl; try done; [by apply heff_same; left|by rw Hb].
    - intros [Hl | [Hl | Hl]]; [by apply not_lost_nil in Hl..|by apply Hd]. }
  assert (flushed n m s (with_part (set_dead true (part s)) s1)) as Hdead.
  { apply Hdone; [|done..]. apply weff_same; try done. by rw app_nil_r. }
  destruct r; simpl; [| |by split].
  all: split; [done|]; apply (Hdone (part s)); [apply weff_refl|done|by intros ?%Hlost].
Qed.

Lemma output_spec {E} cx n m s :
  rooms n m s → wp (output (E:=E) cx) (λ r s', r = Ok () ∧ flushed n m s s') s.
Proof.
  intros Hr. apply wp_on_part. wp_apply (w_output_spec cx n); [apply Hr|]. intros r w (-> & Hw & _ & _ & Hn).
  split; [done|]. by apply flushed_part.
Qed.

Lemma flushed_rooms n m s s' : flushed n m s s' → rooms n m s'.
Proof. by intros (e & _ & _ & ?). Qed.

Lemma distribute_spec {E} cx n m s :
  rooms n m s → wp (distribute_to_user_level (E:=E) cx) (λ r s', r = Ok () ∧ flushed n m s s') s.
Proof.
  intros Hr. rw /distribute_to_user_level. wp_step. wp_apply (service_try_send_spec cx n m s Hr). intros r s1 [-> H1].
  wp_step. wp_apply (session_try_send_spec cx n m s1); [by eapply flushed_rooms|]. intros r s2 [-> H2].
  pose proof (flushed_trans _ _ _ _ _ H1 H2) as H12. wp_step. wp_step. wp_step; [|done].
  wp_apply (output_spec cx n m s2); [by eapply flushed_rooms|]. intros r s3 [-> H3]. split; [done|]. by eapply flushed_trans.
Qed.

(** Flushing fails only with an error of the stream, and then may lose a frame. *)
Definition flush_failed (n m : nat) s s' : Prop := ∃ e, plain_step s e s' ∧ rooms n m s'.

Lemma flush_failed_app n m s1 s2 s3 : flushed n m s1 s2 → flush_failed n m s2 s3 → flush_failed n m s1 s3.
Proof. intros (e & He & _) (f & Hf & Hr). exists (e_app e f). split; [by eapply plain_step_app|done]. Qed.

Lemma flushed_failed n m s s' : flushed n m s s' → flush_failed n m s s'.
Proof. intros (e & He & _ & Hr). by exists e. Qed.

Lemma send_data_flushes n m s :
  rooms n m s →
  wp send_data (λ r s', match r with Ok _ => flushed n m s s' | Err _ => flush_failed n m s s' | Panic => False end) s.
Proof.
  intros Hr. apply wp_on_part. wp_apply (send_data_spec (part s)). intros r w (hs & ns & ls & Hw & (Hd & Hs & _) & _ & Hp & Hok).
  assert (plain_step s (mkEff (we_of_out ((pair Sent <$> (pair High <$> hs) ++ (pair Normal <$> ns)) ++ (pair Lost <$> ls))) [] [] [])
    (with_part w s)) as Hst by by split; [apply eff_part|].
  assert (rooms n m (with_part w s)) as Hroom by (split; [rw /room /= Hs; apply Hr|apply Hr]).
  destruct r as [[]|e|]; [|by eexists|done]. eexists. split; [exact Hst|]. split; [|done].
  intros [Hl | [Hl | Hl]]; [|by apply not_lost_nil in Hl..]. simpl in Hl. apply not_lost_sent in Hl. by rw Hok in Hl.
Qed.

Lemma flush_spec cx n m s :
  rooms n m s →
  wp (flush cx) (λ r s', match r with Ok _ => flushed n m s s' | Err _ => flush_failed n m s s' | Panic => False end) s.
Proof.
  intros Hr. rw /flush. wp_step. rw /poll_complete. apply wp_on_part. wp_apply (w_poll_complete_spec (part s)).
  intros r w (Hp & Hw & (Hd & Hs & _) & _).
  assert (flushed n m s (with_part w s)) as H1 by (apply flushed_part; [done| |done]; rw /room Hs; apply Hr).
  destruct r as [b|e|]; [|by apply flushed_failed|done]. wp_step. wp_step. wp_step.
  set (s1 := with_part w s) in *. pose proof (flushed_rooms _ _ _ _ H1) as Hr1.
  eapply (wp_mono _ (λ r s', r = Ok () ∧ flushed n m s s')).
  { wp_step; [|done]. wp_apply (distribute_spec cx n m s1 Hr1). intros r s2 [-> H2]. split; [done|]. by eapply flushed_trans. }
  intros r s2 [-> H2]. wp_step. wp_step. case_match; wp_step; [|done].
  wp_apply (output_spec cx n m s2); [by eapply flushed_rooms|]. intros r s3 [-> H3].
  pose proof (flushed_trans _ _ _ _ _ H2 H3) as H13.
  wp_apply (send_data_flushes n m s3); [by eapply flushed_rooms|]. intros [u|e|] s4 H4; [|by eapply flush_failed_app|done].
  by eapply flushed_trans.
Qed.

(** ** Closing *)

(** The tasks that closing spawns: the buffered events and the closing ones. *)
Definition service_task s : list (Spawned H) :=
  match service_proto_sender s with
  | Some b => [ToService (b_buffer b ++ [SvDisconnected (ctx_id (context (part s)))])]
  | None => []
  end.
Definition session_task s : list (Spawned H) :=
  match session_proto_sender s with
  | Some b => [ToSession (b_buffer b ++ closing (ctx_closed (context (part s))))]
  | None => []
  end.
Definition parent_task s : list (Spawned H) :=
  if ctx_closed (context (part s)) then []
  else [ToParent ((if keep_buffer s then b_buffer (event_sender (part s)) else []) ++ [PvClose (sub_id (part s)) (sub_proto_id (part s))])].
Definition closing_tasks s : list (Spawned H) := service_task s ++ session_task s ++ parent_task s.

(** The effect of closing. *)
Definition close_eff s : Eff H :=
  mkEff (mkWEff [] [] [] (closing_tasks s))
    (from_option (λ b, pair Handed <$> b_buffer b ++ [SvDisconnected (ctx_id (context (part s)))]) [] (service_proto_sender s))
    (from_option (λ b, pair Handed <$> b_buffer b ++ closing (ctx_closed (context (part s)))) [] (session_proto_sender s))
    [ctx_closed (context (part s))].

Lemma close_eff_handed s :
  of_fate Handed (e_service (close_eff s)) = to_service (closing_tasks s) ∧
  of_fate Handed (e_session (close_eff s)) = to_session (closing_tasks s).
Proof.
  rw /close_eff /closing_tasks /service_task /session_task /parent_task. cbn [e_service e_session].
  destruct (service_proto_sender s), (session_proto_sender s), (ctx_closed _); cbn [from_option app];
    rw ?of_fate_pair ?decide_True // /to_service /to_session /= ?app_nil_r //.
Qed.

Lemma close_eff_lost s : ¬ e_lost (close_eff s).
Proof.
  rw /close_eff. intros [Hl | [Hl | Hl]]; simpl in Hl; [by apply not_lost_nil in Hl|..].
  - by destruct (service_proto_sender s); simpl in Hl; [apply not_lost_pair in Hl|apply not_lost_nil in Hl].
  - by destruct (session_proto_sender s); simpl in Hl; [apply not_lost_pair in Hl|apply not_lost_nil in Hl].
Qed.

(** The buffers after their events were taken. *)
Definition emptied {C' T} (b : option (Buffer C' T)) : option (Buffer C' T) := (λ b, mkBuffer (b_sender b) []) <$> b.

Definition spawn_more (ts : list (Spawned H)) (w : WritePart S C R H) : WritePart S C R H :=
  mkWritePart (substream w) (sub_id w) (sub_proto_id w) (dead w) (sub_config w) (high_write_buf w) (write_buf w)
    (event_sender w) (event_receiver w) (context w) (spawned w ++ ts).

Lemma spawn_more_app ts ts' w : spawn_more ts' (spawn_more ts w) = spawn_more (ts ++ ts') w.
Proof. rw /spawn_more /=. by rw app_assoc. Qed.

Lemma close_to_service_eq {E} s :
  close_to_service (E:=E) s = (Ok (), mkSubstream (spawn_more (service_task s) (part s)) (keep_buffer s)
    (emptied (service_proto_sender s)) (session_proto_sender s) (before_receive s)).
Proof.
  rw /close_to_service /service_task /spawn_more /mbind /M_bind /get /modify.
  destruct s as [[] ? [b1|] b2 ?]; simpl; [done|]. by rw app_nil_r.
Qed.

Lemma close_to_session_eq {E} s :
  close_to_session (E:=E) s = (Ok (), mkSubstream (spawn_more (session_task s) (part s)) (keep_buffer s)
    (service_proto_sender s) (emptied (session_proto_sender s)) (before_receive s)).
Proof.
  rw /close_to_session /session_task /spawn_more /mbind /M_bind /get /modify.
  destruct s as [[] ? b1 [b2|] ?]; simpl; [done|]. by rw app_nil_r.
Qed.

Lemma heff_emptied {C' T} `{!MsgSender C' T} (b : option (Buffer C' T)) (xs : list T) :
  heff b (emptied b) (from_option (λ b, pair Handed <$> b_buffer b ++ xs) [] b) xs.
Proof.
  destruct b as [b|]; [|done]. simpl. rw of_fate_pair snd_pair app_nil_r. split; [|done]. by apply entered_nil.
Qed.

Lemma hroom_emptied {C' T} `{MSL : MsgSenderLaws C' T} n (b : option (Buffer C' T)) : hroom n b → hroom n (emptied b).
Proof.
  destruct b as [b|]; [|done]. rw /hroom /plain_len /=. induction (b_buffer b) as [|x l IH]; [done|].
  intros Hr. by apply IH, ms_room_less.
Qed.

Lemma stream_close_spec {E} cx n m s :
  rooms n m s →
  wp (close_proto_stream (E:=E) cx) (λ r s', r = Ok () ∧ eff s (close_eff s) s' ∧ rooms n m s') s.
Proof.
  intros (Hn & H1 & H2). rw /close_proto_stream. wp_step. apply wp_on_part. wp_step. wp_step. apply wp_on_part.
  wp_apply (on_substream_same fr_poll_shutdown); [apply fr_shutdown_same|]. intros r w ([x [-> ->]] & Hw & _).
  wp_step. wp_step. wp_step. set (s1 := with_part _ (with_part _ _)). set (ev := event_sender (part s)).
  set (ev1 := if keep_buffer s then ev else plain_clear ev).
  assert (room n (set_event_sender ev1 (part s))) as Hn1.
  { rw /ev1. destruct (keep_buffer s); [done|]. by apply room_clear. }
  eapply (wp_mono _ (λ r s', r = Ok () ∧ s' = with_part (set_event_sender ev1 (part s1)) s1)).
  { change (keep_buffer s1) with (keep_buffer s). rw /ev1 /when. destruct (keep_buffer s); [done|].
    by apply wp_on_part. }
  intros r s2 [-> ->]. wp_step. set (s2 := with_part _ s1). rw {1}/wp close_to_service_eq. cbn [fst snd].
  wp_step. rw {1}/wp close_to_session_eq. cbn [fst snd part service_proto_sender keep_buffer before_receive].
  apply wp_on_part. cbn [part]. rw spawn_more_app. set (ts := service_task s2 ++ _).
  assert (∀ w, weff (part s) (mkWEff [] [] [] (closing_tasks s)) w → room n w →
    eff s (close_eff s) (mkSubstream w (keep_buffer s) (emptied (service_proto_sender s)) (emptied (session_proto_sender s))
      (before_receive s)) ∧ rooms n m (mkSubstream w (keep_buffer s) (emptied (service_proto_sender s))
      (emptied (session_proto_sender s)) (before_receive s))) as Hdone.
  { intros w Hw' Hroom. split; [split|split_and!]; try done; try by apply hroom_emptied.
    - apply heff_emptied.
    - rw /session_events /= app_nil_r. apply heff_emptied.
    - apply close_eff_handed. }
  assert (∀ ts' ev', weff (part s) (mkWEff [] [] [] ts') (set_event_sender ev' (spawn_more ts' (part s2)))) as Hpre.
  { destruct Hw as [Hi Ho _ _ _ _ _ _]. intros ts' ev'. apply weff_same; try done; simpl in *.
    - by rw Ho app_nil_r.
    - apply rx_close_log. }
  rw /close_to_parent. do 2 wp_step. change (ctx_closed (context (spawn_more ts (part s2)))) with (ctx_closed (context (part s))).
  rw /closing_tasks /parent_task in Hdone. destruct (ctx_closed (context (part s))) eqn:Hc; cbn [negb].
  - wp_apply (w_output_spec cx n); [done|]. intros r w (-> & Hw2 & _ & _ & Hr). split; [done|]. apply (Hdone w); [|done].
    pose proof (weff_app _ _ _ _ _ (Hpre ts ev1) Hw2) as Hw3. rw /we_app /= !app_nil_r in Hw3. by rw app_nil_r.
  - wp_steps. injection Heqp as <- <-. split; [done|]. apply Hdone; [|exact (room_clear n _ Hn1)].
    pose proof (Hpre (ts ++ [ToParent (b_buffer ev1 ++ [PvClose (sub_id (part s)) (sub_proto_id (part s))])])
      (mkBuffer (b_sender ev1) [])) as Hw3.
    rw -spawn_more_app in Hw3. rw /ts -app_assoc /ev1 in Hw3. rw /ev1. by destruct (keep_buffer s).
Qed.
(** ** A poll *)

(** What a step may do: losses and closes only with the stream. *)
Definition stepped (n m : nat) s (e : Eff H) s' : Prop :=
  eff s e s' ∧ (e_lost e → dead (part s') = true) ∧ (e_closes e ≠ [] → dead (part s') = true) ∧ rooms n m s'.

Lemma stepped_app n m n' m' s1 s2 s3 e f :
  stepped n m s1 e s2 → stepped n' m' s2 f s3 → e_closes e = [] ∨ we_taken (e_part f) = [] →
  stepped n' m' s1 (e_app e f) s3.
Proof.
  intros (He & Hl & Hc & _) (Hf & Hl' & Hc' & Hr) Hord. split; [by eapply eff_app|]. destruct Hf as [Hw _ _ _ _].
  pose proof (wf_dead _ _ _ Hw) as Hd. split; [|split; [|done]].
  - intros []%e_lost_app; auto.
  - simpl. intros Hne. destruct (e_closes e); [by apply Hc'|]. by apply Hd, Hc.
Qed.

Lemma flushed_stepped n m s s' : flushed n m s s' → ∃ e, stepped n m s e s' ∧ we_taken (e_part e) = [] ∧ e_closes e = [].
Proof. intros (e & (He & Ht & Hc & _) & Hl & Hr). exists e. split; [|done]. by rw /stepped Hc. Qed.

Lemma error_close_spec {E} cx error n m s :
  rooms (Datatypes.S n) m s →
  wp (error_close (E:=E) cx error) (λ r s', r = Ok () ∧ ∃ e, stepped n m s e s' ∧ dead (part s') = true ∧
    we_taken (e_part e) = [] ∧ (connection_gone error = true → we_spawned (e_part e) = []) ∧
    (e_closes e = [] ↔ connection_gone error = true)) s.
Proof.
  intros (Hn & H1 & H2). rw /error_close. wp_step. apply wp_on_part. wp_step. set (s1 := with_part _ s).
  assert (room n (part s1)) as Hn1 by (eapply room_less; [|exact Hn]; lia).
  assert (weff (part s) we_nil (part s1)) as Hw1 by (apply weff_same; try done; by rw app_nil_r).
  destruct (connection_gone error) eqn:Hg; wp_steps.
  - split; [done|]. exists e_nil. split; [|done]. split; [by apply eff_part|]. split; [done|]. by split; [|split].
  - apply wp_on_part. rw /push_event. wp_step. set (s2 := with_part _ s1).
    assert (rooms n m s2) as Hr2 by by split; [apply room_push|split].
    assert (weff (part s) we_nil (part s2)) as Hw2 by (apply weff_same; try done; by rw app_nil_r).
    wp_apply (stream_close_spec cx n m s2 Hr2). intros r s3 (-> & He & Hr3). split; [done|].
    exists (e_app e_nil (close_eff s2)). pose proof (wf_dead _ _ _ (ef_part _ _ _ He)) as Hd.
    split; [|split; [by apply Hd|split; [done|split; [by intros ?|by split]]]].
    split; [eapply eff_app; [by left| |exact He]; by apply (eff_part s (part s2))|].
    split; [by intros _; apply Hd|]. split; [by intros _; apply Hd|done].
Qed.

(** Taking one frame from the stream. *)
Lemma taken_eff s f x d :
  fr_incoming (substream (part s)) = f :: fr_incoming x → fr_sent x = fr_sent (substream (part s)) →
  decoded (before_receive s) [f] = d →
  eff s (mkEff (mkWEff [f] [] [] []) [] [] []) (mkSubstream (set_substream x (part s)) (keep_buffer s)
    (foldr (λ d b, plain_push (SvReceived (ctx_id (context (part s))) d) <$> b) (service_proto_sender s) d)
    (foldr (λ d b, plain_push (SsReceived d) <$> b) (session_proto_sender s) d) (before_receive s)).
Proof.
  intros Hi Ho Hd. assert (d = [] ∨ ∃ y, d = [y]) as Hd1.
  { rw /decoded /= in Hd. destruct (apply_before _ _); [right|left]; by eauto. }
  split; simpl; try done.
  - split; simpl; rw ?app_nil_r //.
    + intros p. by rw app_nil_r.
    + exists (ctx_pending_data_size (context (part s))). rw Z.sub_0_r. by destruct (context (part s)).
  - rw /service_events Hd app_nil_r. destruct Hd1 as [-> | [y ->]]; [by apply heff_same; left|apply heff_push].
  - rw /session_events Hd app_nil_r. destruct Hd1 as [-> | [y ->]]; [by apply heff_same; left|apply heff_push].
Qed.

Lemma eff_stepped n m s e s' : eff s e s' → ¬ e_lost e → e_closes e = [] → rooms n m s' → stepped n m s e s'.
Proof. intros ? ? Hc ?. rw /stepped Hc. by split_and!. Qed.

Lemma stepped_rooms n m n' m' s e s' : stepped n m s e s' → rooms n' m' s' → stepped n' m' s e s'.
Proof. intros (? & ? & ? & _) ?. by split_and!. Qed.

Lemma recv_frame_spec {E} cx n s :
  rooms (Datatypes.S n) 1 s → cfg_max_stream_window_size (sub_config (part s)) ≠ 0 →
  wp (recv_frame (E:=E) cx) (λ r s', (∃ p, r = Ok p) ∧ ∃ e, stepped n 0 s e s' ∧
    (dead (part s) = true → we_taken (e_part e) = [])) s.
Proof.
  intros (Hn & H1 & H2) Hcfg. assert (rooms n 0 s) as Hr.
  { split; [eapply room_less; [|exact Hn]; lia|split; by apply hroom_less]. }
  assert (∀ p : Poll (option unit), (∃ q, Ok (E:=E) p = Ok q) ∧ ∃ e, stepped n 0 s e s ∧
    (dead (part s) = true → we_taken (e_part e) = [])) as Hstay.
  { intros p. split; [by eexists|]. exists e_nil. split; [|done]. apply eff_stepped; [apply eff_refl|apply e_lost_nil|done..]. }
  rw /recv_frame. do 2 wp_step. destruct (dead (part s)) eqn:Hd; [by apply wp_ret|].
  do 2 wp_step. rw /recv_event_size (proj2 (Z.eqb_neq _ _) Hcfg). case_match; [by apply wp_ret|].
  wp_step. apply wp_on_part. rw {1}/on_substream {1}/wp. destruct (fr_poll_next (substream (part s))) as [p x] eqn:Hx.
  cbn [fst snd]. set (s1 := with_part _ s).
  assert ((∀ f, p ≠ Ready (Some (inl f))) → stepped (Datatypes.S n) 1 s e_nil s1) as Hno.
  { intros Hp. destruct (fr_next_other _ _ _ Hx Hp) as [Hi Ho]. apply eff_stepped; [|apply e_lost_nil|done|by split].
    apply eff_part; [|done..]. apply weff_same; try done. by rw app_nil_r. }
  assert (∀ err e, stepped (Datatypes.S n) 0 s e s1 → e_closes e = [] → wp (error_close (E:=E) cx err;; mret (Ready (None (A:=unit))))
    (λ r s', (∃ p, r = Ok p) ∧ ∃ e, stepped n 0 s e s' ∧ (false = true → we_taken (e_part e) = [])) s1) as Herr.
  { intros err e He Hc. wp_step. wp_apply (error_close_spec cx err n 0 s1); [apply He|].
    intros r s2 (-> & e2 & He2 & Hd2 & Ht2 & _). wp_step. split; [by eexists|]. exists (e_app e e2).
    split; [|done]. eapply stepped_app; [done..|by left]. }
  destruct p as [[[data|err]|]|].
  - destruct (fr_next_frame _ _ _ Hx) as [Hi Ho]. rw -/(apply_before (before_receive s) data).
    pose proof (taken_eff s data x _ Hi Ho eq_refl) as Ht. rw /decoded /= in Ht.
    assert (¬ e_lost (mkEff (mkWEff (H:=H) [data] [] [] []) [] [] [])) as Hnl.
    { intros [Hl | [Hl | Hl]]; by apply not_lost_nil in Hl. }
    destruct (apply_before (before_receive s) data) as [d|err]; simpl in Ht; last first.
    { apply (Herr err (mkEff (mkWEff [data] [] [] []) [] [] [])); [|done]. by eapply eff_stepped; [exact Ht| |done|split; [|split; apply hroom_less]]. }
    rw /push_session /push_service. do 4 wp_step. set (s2 := set_service_proto_sender _ _).
    assert (stepped n 0 s (mkEff (mkWEff [data] [] [] []) [] [] []) s2) as H12.
    { apply eff_stepped; [exact Ht|done|done|split; [apply Hr|split; by apply hroom_push]]. }
    wp_step. wp_apply (distribute_spec cx n 0 s2); [apply H12|].
    intros r s3 [-> (e3 & H3 & _)%flushed_stepped]. wp_step. split; [by eexists|].
    eexists. by split; [exact (stepped_app _ _ _ _ _ _ _ _ _ H12 H3 (or_introl eq_refl))|].
  - apply (Herr err e_nil); [|done]. apply (stepped_rooms (Datatypes.S n) 1); [by apply Hno|]. split; [done|split; by apply hroom_less].
  - wp_step. apply wp_on_part. do 2 wp_step. split; [by eexists|]. exists (e_app e_nil e_nil). split; [|done].
    eapply stepped_app; [by apply Hno| |by left]. apply eff_stepped; [|apply e_lost_nil|done|exact Hr].
    apply (eff_part s1); [|done..]. apply weff_same; try done. by rw app_nil_r.
  - wp_step. split; [by eexists|]. exists e_nil. split; [|done]. by apply (stepped_rooms (Datatypes.S n) 1); [apply Hno|].
Qed.
Lemma recv_event_stepped {E} cx n m s :
  rooms (Datatypes.S n) m s → cfg_max_stream_window_size (sub_config (part s)) ≠ 0 →
  wp (recv_event (E:=E) cx) (λ r s', (∃ p, r = Ok p) ∧ ∃ e, stepped n m s e s' ∧ we_taken (e_part e) = []) s.
Proof.
  intros (Hn & H1 & H2) Hcfg. apply wp_on_part. wp_apply (recv_event_spec fr_poll_shutdown cx n); [apply fr_shutdown_same|done..|].
  intros r w [Hr (e & He & Ht & Hs & Hl & Hroom)]. split; [done|]. exists (mkEff e [] [] []). split; [|done].
  split; [apply eff_part; by rw ?Hs|]. split; [|split; [done|by split]].
  intros [? | [Hl' | Hl']]; [by apply Hl|by apply not_lost_nil in Hl'..].
Qed.

(** How a poll leaves the stream: going on, or ended; and ended because flushing
    found that the connection is lost. *)
Inductive Outcome := Going | Finished | ConnectionLost.

Definition flush_lost (cx : Waker) s : bool :=
  negb (dead (part s) || ctx_closed (context (part s))) &&
  match (flush cx s).1 with Err err => connection_gone err | _ => false end.

Definition outcome (cx : Waker) s (p : Poll (option unit)) : Outcome :=
  match p with Ready None => if flush_lost cx s then ConnectionLost else Finished | _ => Going end.

(** The closes of a stream: an end closes it, except that of a lost connection; a
    close on the way kills the stream. *)
Definition closes_of (o : Outcome) (is_dead : bool) (closes : list bool) : Prop :=
  match o with
  | Going => closes ≠ [] → is_dead = true
  | Finished => closes ≠ []
  | ConnectionLost => closes = [] ∧ is_dead = true
  end.

(** The effect of a poll. Its losses and its closes end the stream; a dead
    stream takes no frame. *)
Definition polled s (o : Outcome) (e : Eff H) s' : Prop :=
  eff s e s' ∧ (e_lost e → dead (part s') = true) ∧ closes_of o (dead (part s')) (e_closes e) ∧
  (o = ConnectionLost → dead (part s) = false) ∧
  (dead (part s) = true → we_taken (e_part e) = []).

(** The stream can be polled without a panic. *)
Definition pollable s : Prop := rooms 2 1 s ∧ cfg_max_stream_window_size (sub_config (part s)) ≠ 0.

Lemma poll_next_spec {E} proceed cx s :
  pollable s → wp (poll_next (E:=E) proceed cx) (λ r s', ∃ p e, r = Ok p ∧ polled s (outcome cx s p) e s') s.
Proof.
  intros [Hr Hcfg]. rw /outcome /flush_lost /poll_next. do 2 wp_step. destruct (dead (part s) || ctx_closed (context (part s))) eqn:Hd.
  { wp_step. wp_apply (stream_close_spec cx 2 1 s Hr). intros r s' (-> & He & _). wp_step. exists (Ready None), (close_eff s).
    split; [done|]. split; [done|]. split; [by intros ?%close_eff_lost|]. done. }
  apply orb_false_iff in Hd as [Hd _]. wp_step. apply wp_try. eapply wp_mono; [apply wp_eqn, (flush_spec cx 2 1 s Hr)|].
  intros r s1 [H1 Hfl]. rw Hfl. cbn [negb andb fst].
  assert (∀ n m e s', stepped n m s e s' → polled s Going e s') as Hdone.
  { intros n m e s' (He & Hl & Hc & _). rw /polled Hd. by split_and!. }
  destruct r as [u|err|]; [|wp_step|done].
  - destruct (flushed_stepped _ _ _ _ H1) as (e1 & He1 & _ & Hc1).
    destruct proceed; cbn [negb]; [|by wp_step; exists Pending, e1; split; [|eapply Hdone]].
    destruct (wf_static _ _ _ (ef_part _ _ _ (proj1 He1))) as (_ & _ & Hcf1).
    wp_step. wp_apply (recv_frame_spec cx 1 s1); [apply He1|by rw Hcf1|]. intros r s2 [[p1 ->] (e2 & He2 & _)].
    destruct (wf_static _ _ _ (ef_part _ _ _ (proj1 He2))) as (_ & _ & Hcf2).
    wp_step. wp_apply (recv_event_stepped cx 0 0 s2); [apply He2|by rw Hcf2 Hcf1|]. intros r s3 [[p2 ->] (e3 & He3 & Ht3)].
    wp_step. eexists _, _. split; [done|]. eapply (eq_ind_r (λ o, polled s o _ _)); [eapply Hdone|by destruct (_ && _)].
    eapply stepped_app; [exact He1|eapply stepped_app; [exact He2|exact He3|by right]|by left].
  - destruct H1 as (e1 & (He1 & Ht1 & Hc1 & _) & Hr1). wp_apply (error_close_spec cx err 1 1 s1 Hr1).
    intros r s2 (-> & e2 & He2 & Hd2 & Ht2 & _ & Hc2). wp_step. eexists _, (e_app e1 e2). split; [done|].
    split; [eapply eff_app; [by left|exact He1|apply He2]|]. split; [done|]. rw /closes_of /= Hc1 /=.
    split; [destruct (connection_gone err); naive_solver|]. split; [done|]. intros _. by rw /= Ht1 Ht2.
Qed.

(** ** Runs *)

(** Between two polls the rest of the system acts: frames arrive, the channels
    and the session's flag change. The stream's own buffers stay. *)
Definition same_buffer {C' T} (b b' : option (Buffer C' T)) : Prop := b_buffer <$> b' = b_buffer <$> b.

Record surroundings (arrived : list bytes) s s' : Prop := {
  su_in : fr_incoming (substream (part s')) = fr_incoming (substream (part s)) ++ arrived;
  su_out : fr_sent (substream (part s')) = fr_sent (substream (part s));
  su_log : rx_log (event_receiver (part s')) = rx_log (event_receiver (part s));
  su_buf p : buf_of p (part s') = buf_of p (part s);
  su_events : b_buffer (event_sender (part s')) = b_buffer (event_sender (part s));
  su_service : same_buffer (service_proto_sender s) (service_proto_sender s');
  su_session : same_buffer (session_proto_sender s) (session_proto_sender s');
  su_static : dead (part s') = dead (part s) ∧ spawned (part s') = spawned (part s) ∧
    ctx_id (context (part s')) = ctx_id (context (part s)) ∧ sub_config (part s') = sub_config (part s) ∧
    before_receive s' = before_receive s ∧ keep_buffer s' = keep_buffer s;
}.

(** The events that a poll put into a handle's channel. *)
Definition put {C' T} `{!MsgSender C' T} (ms : list T) (b b' : option (Buffer C' T)) : Prop :=
  match b, b' with Some b, Some b' => entered Normal ms (b_sender b) (b_sender b') | _, _ => ms = [] end.

(** A run: the frames that arrived, and the events that were put into the
    channels of the two handles. The task ends when a poll returns [None]. *)
Inductive run s0 : list bytes → list ServiceProtocolEvent → list SessionProtocolEvent → St → Outcome → Prop :=
| run_start : run s0 [] [] [] s0 Going
| run_poll fs sv ss s s1 s2 arrived sv' ss' proceed cx p :
    run s0 fs sv ss s Going → surroundings arrived s s1 → pollable s1 →
    poll_next (E:=Empty_set) proceed cx s1 = (Ok p, s2) →
    put sv' (service_proto_sender s1) (service_proto_sender s2) → put ss' (session_proto_sender s1) (session_proto_sender s2) →
    run s0 (fs ++ arrived) (sv ++ sv') (ss ++ ss') s2 (outcome cx s1 p).

(** The events that left the buffer of a handle, and the ones that were pushed. *)
Definition told {C' T} (b b' : option (Buffer C' T)) (out : list (Fate * T)) (pushed : list T) : Prop :=
  match b, b' with
  | Some b, Some b' => out.*2 ++ b_buffer b' = b_buffer b ++ pushed
  | None, None => out = []
  | _, _ => False
  end.

(** What a run did. *)
Record history s0 (fs : list bytes) (sv : list ServiceProtocolEvent) (ss : list SessionProtocolEvent) s (fin : Outcome)
    (e : Eff H) : Prop := mk_history {
  hi_in : fr_incoming (substream (part s0)) ++ fs = we_taken (e_part e) ++ fr_incoming (substream (part s));
  hi_out : fr_sent (substream (part s)) = fr_sent (substream (part s0)) ++ (of_fate Sent (we_out (e_part e))).*2;
  hi_log : rx_log (event_receiver (part s)) = rx_log (event_receiver (part s0)) ++ we_got (e_part e);
  hi_buf p : of_prio p (we_out (e_part e)).*2 ++ buf_of p (part s) = buf_of p (part s0) ++ messages p (we_got (e_part e));
  hi_spawned : spawned (part s) = spawned (part s0) ++ we_spawned (e_part e);
  hi_service : told (service_proto_sender s0) (service_proto_sender s) (e_service e)
    (service_events (ctx_id (context (part s0))) (before_receive s0) (we_taken (e_part e)) (e_closes e));
  hi_session : told (session_proto_sender s0) (session_proto_sender s) (e_session e)
    (session_events (before_receive s0) (we_taken (e_part e)) (e_closes e));
  hi_put : of_fate Sent (e_service e) = sv ∧ of_fate Sent (e_session e) = ss;
  hi_handed : of_fate Handed (e_service e) = to_service (we_spawned (e_part e)) ∧
    of_fate Handed (e_session e) = to_session (we_spawned (e_part e));
  hi_lost : e_lost e → dead (part s) = true;
  hi_closes : closes_of fin (dead (part s)) (e_closes e);
  hi_static : ctx_id (context (part s)) = ctx_id (context (part s0)) ∧ before_receive s = before_receive s0;
}.

Lemma told_same {C' T} (b b' b'' : option (Buffer C' T)) out pushed : same_buffer b' b'' → told b b' out pushed → told b b'' out pushed.
Proof.
  rw /same_buffer /told. destruct b as [b|], b' as [b'|], b'' as [b''|]; try done. intros [= ->]. done.
Qed.

Lemma told_heff {C' T} `{!MsgSender C' T} (b b' b'' : option (Buffer C' T)) o1 o2 p1 p2 :
  told b b' o1 p1 → heff b' b'' o2 p2 → told b b'' (o1 ++ o2) (p1 ++ p2).
Proof.
  destruct b as [b|], b' as [b'|], b'' as [b''|]; simpl; try done; [|by intros -> ->].
  intros H1 [_ H2]. rw fmap_app -app_assoc H2 app_assoc H1. by rewrite <-app_assoc.
Qed.

Lemma put_unique {C' T} `{!MsgSender C' T} (b b' : option (Buffer C' T)) out pushed ms :
  heff b b' out pushed → put ms b b' → of_fate Sent out = ms.
Proof.
  destruct b as [b|], b' as [b'|]; simpl; try done; [|by intros -> ->].
  intros [H1 _] H2. specialize (H1 Normal). rw (H2 Normal) in H1. simpl in H1. by apply (inj _) in H1.
Qed.

Lemma run_history s0 fs sv ss s fin : run s0 fs sv ss s fin → ∃ e, history s0 fs sv ss s fin e.
Proof.
  induction 1 as [|fs sv ss s s1 s2 arrived sv' ss' proceed cx p _ [e IH] Hsu Hpo Hpoll Hsv Hss].
  { exists e_nil. split; simpl; try done; try by rw ?app_nil_r.
    - intros p. by rw app_nil_r.
    - by destruct (service_proto_sender s0); simpl; rw ?app_nil_r.
    - by destruct (session_proto_sender s0); simpl; rw ?app_nil_r.
    - by intros []%e_lost_nil. }
  destruct (wp_intro _ _ _ _ _ (poll_next_spec proceed cx s1 Hpo) Hpoll) as (p' & f & [= <-] & Hf & Hl & Hc & Hlive & Ht).
  exists (e_app e f). destruct IH as [Hin Hout Hlog Hbuf Hsp Hsvc Hses [<- <-] [Hh1 Hh2] Hlost Hcl [Hid Hbe]].
  destruct Hsu as [Sin Sout Slog Sbuf _ Ssv Sss (Sd & Ssp & Sid & _ & Sbe & _)].
  destruct Hf as [Hw Fsv Fss [Fh1 Fh2] [_ Fb]]. destruct (weff_context _ _ _ Hw) as [Fid _].
  destruct Hw as [Win Wout Wlog Wbuf _ Wsp _ Wd].
  assert (e_closes e = [] ∨ we_taken (e_part f) = []) as Hord.
  { destruct (e_closes e); [by left|right]. apply Ht. rw Sd. by apply Hcl. }
  split; simpl.
  - by rw app_assoc Hin -app_assoc -Sin Win app_assoc.
  - by rw Wout Sout Hout of_fate_app fmap_app app_assoc.
  - by rw Wlog Slog Hlog app_assoc.
  - intros q. by rw fmap_app frames_of_prio_app messages_app -app_assoc Wbuf Sbuf app_assoc Hbuf app_assoc.
  - by rw Wsp Ssp Hsp app_assoc.
  - rw service_events_app //. rw Sid Hid Sbe Hbe in Fsv. eapply told_heff; [by eapply told_same|done].
  - rw session_events_app //. rw Sbe Hbe in Fss. eapply told_heff; [by eapply told_same|done].
  - by rw !of_fate_app (put_unique _ _ _ _ _ Fsv Hsv) (put_unique _ _ _ _ _ Fss Hss).
  - by rw !of_fate_app to_service_app to_session_app Hh1 Fh1 Hh2 Fh2.
  - intros [He | ?]%e_lost_app; [|auto]. apply Wd. rw Sd. auto.
  - rw Sd in Hlive. rw /closes_of in Hcl Hc *. destruct (outcome cx s1 p).
    + intros Hne. destruct (e_closes e); [by apply Hc|]. apply Wd. rw Sd. by apply Hcl.
    + by destruct (e_closes e).
    + destruct (e_closes e); [done|]. specialize (Hlive eq_refl). by rw Hcl in Hlive.
  - by rw Fid Sid Hid Fb Sbe Hbe.
Qed.

(** A stream as [open_protocol] starts it: built and opened. *)
Definition opened (x : S) (id proto_id : nat) (config : SessionConfig) (keep : bool) (sender : C) (receiver : R)
    (ctx : SessionContext) (service : option C1) (session : option C2) (before : option (bytes → bytes + io.ErrorKind))
    (version : bytes) : St :=
  (proto_open (E:=Empty_set) version
    (substream_build x id proto_id config keep sender receiver ctx (plain_new <$> service) (plain_new <$> session) before)).2.


(** A poll of a dead stream, or of one whose session was closed, ends it: what
    is buffered for each handle goes to a task, followed by the closing event
    (and, for the session's handle of a closed session, by the disconnect); the
    session is told of the close unless it is closed itself. *)
Theorem substream_closing s proceed cx :
  rooms 0 0 s → dead (part s) = true ∨ ctx_closed (context (part s)) = true →
  ∃ s', poll_next (E:=Empty_set) proceed cx s = (Ok (Ready None), s') ∧
    spawned (part s') = spawned (part s) ++ closing_tasks s ∧
    fr_sent (substream (part s')) = fr_sent (substream (part s)) ∧
    b_buffer <$> service_proto_sender s' = (λ _, []) <$> service_proto_sender s ∧
    b_buffer <$> session_proto_sender s' = (λ _, []) <$> session_proto_sender s.
Proof.
  intros Hr Hd. assert (dead (part s) || ctx_closed (context (part s)) = true) as Hd' by (by apply orb_true_iff).
  rw /poll_next {1}/mbind {1}/M_bind {1}/get Hd' {1}/mbind {1}/M_bind.
  pose proof (stream_close_spec (E:=Empty_set) cx 0 0 s Hr) as (Hok & [Hw Hsv Hss _ _] & _).
  destruct (close_proto_stream cx s) as [r s'] eqn:Hc. simpl in Hok, Hw, Hsv, Hss. subst r. exists s'. split; [done|].
  split; [by rw (wf_spawned _ _ _ Hw)|]. split; [by rw (wf_out _ _ _ Hw) app_nil_r|].
  assert (∀ {C' T} {MS' : MsgSender C' T} (b b' : option (Buffer C' T)) xs,
    heff b b' (from_option (λ b, pair Handed <$> b_buffer b ++ xs) [] b) xs → b_buffer <$> b' = (λ _, []) <$> b) as Hemp.
  { intros C' T MS' [b|] [b'|] xs; simpl; try done. rw snd_pair. intros [_ He]. f_equal.
    rewrite <-(app_nil_r (b_buffer b ++ xs)) in He at 2. by apply (inj _) in He. }
  split; eapply Hemp; [exact Hsv|]. rw /session_events /= app_nil_r in Hss. exact Hss.
Qed.

(** How a stream ends on an error. On an error of a lost connection nothing is
    sent to anyone: the handles and the session are not told. On another error
    everybody is told, but the error itself reaches the session only when the
    buffers are kept. *)
Theorem error_close_behaviour cx error s :
  rooms 1 0 s →
  ∃ s', error_close (E:=Empty_set) cx error s = (Ok (), s') ∧ dead (part s') = true ∧
    if connection_gone error then
      spawned (part s') = spawned (part s) ∧ service_proto_sender s' = service_proto_sender s ∧
      session_proto_sender s' = session_proto_sender s
    else
      spawned (part s') = spawned (part s) ++ service_task s ++ session_task s ++
        (if ctx_closed (context (part s)) then []
         else [ToParent ((if keep_buffer s then b_buffer (event_sender (part s)) ++ [PvError (sub_proto_id (part s)) error] else []) ++
           [PvClose (sub_id (part s)) (sub_proto_id (part s))])]).
Proof.
  intros (Hn & H1 & H2). rw /error_close.
  destruct (connection_gone error); [by eexists|].
  set (s2 := with_part (set_event_sender (plain_push (PvError (sub_proto_id (part s)) error) (event_sender (part s)))
    (set_dead true (part s))) s).
  assert (rooms 0 0 s2) as Hr2 by by split; [apply (room_push 0 (set_dead true (part s)))|].
  pose proof (stream_close_spec (E:=Empty_set) cx 0 0 s2 Hr2) as (Hok & [Hw _ _ _ _] & _).
  exists (close_proto_stream (E:=Empty_set) cx s2).2. split.
  - change (close_proto_stream (E:=Empty_set) cx s2 = (Ok (), (close_proto_stream (E:=Empty_set) cx s2).2)). rw -Hok. by destruct (close_proto_stream cx s2).
  - split; [by apply (wf_dead _ _ _ Hw)|]. rw (wf_spawned _ _ _ Hw) /closing_tasks /parent_task. by simpl.
Qed.
End substream.

(** ** A stream that receives one frame and sends one message *)

Definition demo_context : SessionContext := mkSessionContext 7 (mkMultiaddr []) Inbound None false 3.

Definition demo_opened (frames : list bytes) (events : list (Priority * ProtocolEvent unit)) :
    Substream ListSocket (ListChan (ProtocolEvent unit)) (ListChan ServiceProtocolEvent) (ListChan SessionProtocolEvent)
      (ListRx (ProtocolEvent unit)) unit :=
  opened (wire frames) 0 1 (session_config_default 262144) false (mkListChan []) (mkListRx events [])
    demo_context (Some (mkListChan [])) (Some (mkListChan [])) None [x31].

Definition demo_stream := demo_opened [[x61; x62]] [(High, PvMessage [x63])].

Lemma demo_pollable frames events : pollable (demo_opened frames events).
Proof. split; [done|]. by vm_compute. Qed.

Definition demo_polled := (poll_next (E:=Empty_set) true 0%nat demo_stream).2.

Lemma demo_stream_run :
  run demo_stream [] [SvConnected 7 [x31]; SvReceived 7 [x61; x62]] [SsOpened [x31]; SsReceived [x61; x62]] demo_polled Going.
Proof.
  refine (run_poll _ [] [] [] demo_stream demo_stream demo_polled [] _ _ true 0%nat (Ready (Some ())) _ _ _ _ _ _).
  - constructor.
  - split; done.
  - apply demo_pollable.
  - vm_compute. reflexivity.
  - intros []; reflexivity.
  - intros []; reflexivity.
Qed.


Definition demo_dead : Substream ListSocket (ListChan (ProtocolEvent unit)) (ListChan ServiceProtocolEvent)
    (ListChan SessionProtocolEvent) (ListRx (ProtocolEvent unit)) unit :=
  with_part (set_dead true (part demo_stream)) demo_stream.

Lemma substream_closing_witness :
  rooms 0 0 demo_dead ∧ dead (part demo_dead) = true ∧
  ∃ s', poll_next (E:=Empty_set) true 0%nat demo_dead = (Ok (Ready None), s') ∧
    spawned (part s') = [ToService [SvConnected 7 [x31]; SvDisconnected 7]; ToSession [SsOpened [x31]; SsClosed]; ToParent [PvClose 0 1]].
Proof.
  assert (rooms 0 0 demo_dead) as Hr by done. split; [exact Hr|]. split; [reflexivity|].
  destruct (substream_closing demo_dead true 0%nat Hr (or_introl eq_refl)) as (s' & Hp & Hs & _).
  exists s'. split; [exact Hp|]. rw Hs. vm_compute. reflexivity.
Defined.

Lemma error_close_behaviour_witness :
  rooms 1 0 demo_stream ∧
  (∃ s', error_close (E:=Empty_set) 0%nat io.ConnectionReset demo_stream = (Ok (), s') ∧ spawned (part s') = []) ∧
  (∃ s', error_close (E:=Empty_set) 0%nat io.InvalidData demo_stream = (Ok (), s') ∧
    spawned (part s') = [ToService [SvConnected 7 [x31]; SvDisconnected 7]; ToSession [SsOpened [x31]; SsClosed]; ToParent [PvClose 0 1]]).
Proof.
  assert (rooms 1 0 demo_stream) as Hr by done. split; [exact Hr|]. split.
  - destruct (error_close_behaviour 0%nat io.ConnectionReset demo_stream Hr) as (s' & Hp & _ & Hs & _).
    exists s'. split; [exact Hp|]. rw Hs. vm_compute. reflexivity.
  - destruct (error_close_behaviour 0%nat io.InvalidData demo_stream Hr) as (s' & Hp & _ & Hs).
    exists s'. split; [exact Hp|]. simpl in Hs. rw Hs. vm_compute. reflexivity.
Defined.
