(* ===== verification/ProtocolHandle.v ===== *)
(** * The calls of protocol handles

    What the tasks of the two kinds of protocol handles share
    ([tentacle/src/protocol_handle_stream.rs], modelled in [ServiceHandle.v] and
    [SessionHandle.v]): the calls of the user's handle, the inputs of the task's
    loop, and the discipline of the calls about a session. *)
From S2P Require Import Prelude Multiaddr SecioMessages Events.

(** The calls of a handle. *)
Inductive Call :=
| CInit
| CConnected (session : nat) (version : bytes)
| CDisconnected (session : nat)
| CReceived (session : nat) (data : bytes)
| CNotify (token : Z)
| CPoll.

(** [ProtocolHandleErrorKind::AbnormallyClosed]. *)
Inductive ProtocolHandleErrorKind := AbnormallyClosed (session : option nat).

(** What a select of the task's loop yields; [IPoll] is the handle's [poll]. *)
Inductive Input (T : Type) :=
| IEvent (event : option T)
| INotify (token : Z)
| IPoll (res : option unit)
| IStop.
Arguments IEvent {T}.
Arguments INotify {T}.
Arguments IPoll {T}.
Arguments IStop {T}.

(** ** The discipline of the calls *)

(** Whether the last call about a session opened it. *)
Definition open_after (id : nat) (cs : list Call) : bool :=
  foldl (λ b c, match c with
                | CConnected i _ => if decide (i = id) then true else b
                | CDisconnected i => if decide (i = id) then false else b
                | _ => b
                end) false cs.

(** A session is used and disconnected only while it is open. *)
Definition disciplined (cs : list Call) : Prop :=
  ∀ pre c post, cs = pre ++ c :: post →
    match c with CReceived id _ | CDisconnected id => open_after id pre = true | _ => True end.

Lemma open_after_snoc id cs c :
  open_after id (cs ++ [c]) = match c with
    | CConnected i _ => if decide (i = id) then true else open_after id cs
    | CDisconnected i => if decide (i = id) then false else open_after id cs
    | _ => open_after id cs
    end.
Proof. by rw /open_after foldl_app. Qed.

Lemma disciplined_snoc cs c :
  disciplined cs → match c with CReceived id _ | CDisconnected id => open_after id cs = true | _ => True end →
  disciplined (cs ++ [c]).
Proof.
  intros Hcs Hc pre c' post Heq. destruct post as [|x post _] using rev_ind.
  - apply app_inj_tail in Heq as [<- <-]. done.
  - rw app_comm_cons app_assoc in Heq. apply app_inj_tail in Heq as [-> _]. by eapply Hcs.
Qed.
