(* ===== verification/ServiceHandle.v ===== *)
(** * The task of a service's protocol handle

    [ServiceProtocolStream] of [tentacle/src/protocol_handle_stream.rs]: it serves
    a protocol for all sessions. The user's handle is known by its calls only:
    [panics] says which of them panic, and the calls made are recorded. The shared
    flags are read where the code reads them; a record gives the values. Timers
    are recorded with their interval. *)
From S2P Require Import Prelude Multiaddr SecioMessages Events ProtocolHandle.

Inductive CurrentTask := Idle | Run (session : option nat).

(** The sessions are named by their ids. *)
Record ServiceProtocolStream := mkService {
  proto_id : nat;
  listens : list Multiaddr;
  sessions : gset nat;
  notify : gmap Z Z;
  current_task : CurrentTask;
  need_poll : bool;
  calls : list Call;
  timers : list (Z * Z);
}.
Abbreviation St := ServiceProtocolStream.

Definition set_listens (x : list Multiaddr) (s : St) : St :=
  mkService (proto_id s) x (sessions s) (notify s) (current_task s) (need_poll s) (calls s) (timers s).
Definition set_sessions (x : gset nat) (s : St) : St :=
  mkService (proto_id s) (listens s) x (notify s) (current_task s) (need_poll s) (calls s) (timers s).
Definition set_notify_map (x : gmap Z Z) (s : St) : St :=
  mkService (proto_id s) (listens s) (sessions s) x (current_task s) (need_poll s) (calls s) (timers s).
Definition set_current_task (x : CurrentTask) (s : St) : St :=
  mkService (proto_id s) (listens s) (sessions s) (notify s) x (need_poll s) (calls s) (timers s).
Definition set_need_poll (x : bool) (s : St) : St :=
  mkService (proto_id s) (listens s) (sessions s) (notify s) (current_task s) x (calls s) (timers s).
Definition add_call (c : Call) (s : St) : St :=
  mkService (proto_id s) (listens s) (sessions s) (notify s) (current_task s) (need_poll s) (calls s ++ [c]) (timers s).
Definition add_timer (t : Z * Z) (s : St) : St :=
  mkService (proto_id s) (listens s) (sessions s) (notify s) (current_task s) (need_poll s) (calls s) (timers s ++ [t]).

Definition new (proto_id : nat) : St := mkService proto_id [] ∅ ∅ Idle true [] [].

(** The flags: at the loop's head, at the start of an event, and before [received]. *)
Record Flags := mkFlags {
  stop : bool;
  shutdown : bool;
  closed : nat → bool;
  shutdown_later : bool;
  closed_later : nat → bool;
}.

Section stream.
Context {E : Type} (panics : Call → bool).

Definition call (c : Call) : M St E unit := λ s,
  if panics c then (Panic, add_call c s) else (Ok (), add_call c s).

Definition set_notify (token : Z) : M St E unit :=
  s ← get;
  match notify s !! token with
  | Some interval => modify (add_timer (token, interval))
  | None => mret ()
  end.

(** [if let Some(session) = self.sessions.remove(&id)]. *)
Definition disconnect (id : nat) : M St E unit :=
  s ← get;
  if bool_decide (id ∈ sessions s) then modify (set_sessions (sessions s ∖ {[id]}));; call (CDisconnected id)
  else mret ().

Fixpoint disconnect_all (ids : list nat) : M St E unit :=
  match ids with
  | [] => mret ()
  | id :: ids => disconnect id;; disconnect_all ids
  end.

(** The [match event] of [handle_event]. *)
Definition event_body (f : Flags) (event : ServiceProtocolEvent) : M St E unit :=
  match event with
  | SvInit => modify (set_current_task (Run None));; call CInit
  | SvConnected session version =>
      modify (set_current_task (Run (Some session)));;
      call (CConnected session version);;
      modify (λ s, set_sessions ({[session]} ∪ sessions s) s)
  | SvDisconnected id => modify (set_current_task (Run (Some id)));; disconnect id
  | SvReceived id data =>
      modify (set_current_task (Run (Some id)));;
      s ← get;
      when (bool_decide (id ∈ sessions s) && (negb (closed_later f id) && negb (shutdown_later f)))
        (call (CReceived id data))
  | SvNotify token => modify (set_current_task (Run None));; call (CNotify token);; set_notify token
  | SvSetNotify interval token =>
      modify (set_current_task (Run None));;
      modify (λ s, set_notify_map (<[token := default interval (notify s !! token)]> (notify s)) s);;
      set_notify token
  | SvRemoveNotify token =>
      modify (set_current_task (Run None));; modify (λ s, set_notify_map (delete token (notify s)) s)
  | SvUpdate listen_addrs => modify (set_current_task (Run None));; modify (set_listens listen_addrs)
  end.

Definition handle_event (f : Flags) (event : ServiceProtocolEvent) : M St E unit :=
  if shutdown f && match event with SvDisconnected _ => false | _ => true end then mret ()
  else
    s ← get;
    disconnect_all (filter (λ id, closed f id = true) (elements (sessions s)));;
    event_body f event;;
    modify (set_current_task Idle).

(** Whether the loop ended; [false] means that it waits for more. *)
Fixpoint run (inputs : list (Flags * Input ServiceProtocolEvent)) : M St E bool :=
  match inputs with
  | [] => mret false
  | (f, i) :: inputs =>
      if stop f then modify (set_current_task Idle);; mret true
      else
        match i with
        | IEvent (Some event) => handle_event f event;; run inputs
        | IEvent None => modify (set_current_task Idle);; mret true
        | INotify token => handle_event f (SvNotify token);; run inputs
        | IPoll res =>
            s ← get;
            if need_poll s then
              call CPoll;; modify (set_need_poll (if res is Some _ then true else false));; run inputs
            else run inputs
        | IStop => mret true
        end
  end.

(** What dropping the task reports, for its protocol. *)
Definition drop (shutdown : bool) (s : St) : option (ProtocolHandleErrorKind * nat) :=
  if shutdown then None
  else match current_task s with
       | Run session => Some (AbnormallyClosed session, proto_id s)
       | Idle => None
       end.
End stream.

(** ** Facts *)

Section facts.
Context (panics : Call → bool).
Implicit Types s : St.

(** The open sessions are those of the calls. *)
Definition inv s : Prop := disciplined (calls s) ∧ ∀ id, open_after id (calls s) = true ↔ id ∈ sessions s.
Definition inv_post {A} (r : Res Empty_set A) s : Prop :=
  match r with Ok _ => inv s | Err _ => False | Panic => disciplined (calls s) end.

(** A step that makes no call. *)
Lemma inv_silent s s' : inv s → calls s' = calls s → sessions s' = sessions s → inv s'.
Proof. rw /inv. by intros ? -> ->. Qed.

(** A call that is not about the opening of a session. *)
Lemma call_other c s :
  inv s → match c with CInit | CNotify _ | CPoll => True | CReceived id _ => id ∈ sessions s | _ => False end →
  wp (call panics c) inv_post s.
Proof.
  intros [Hd Hs] Hc. assert (disciplined (calls s ++ [c])) as Hd'.
  { apply disciplined_snoc; [done|]. destruct c; try done. by apply Hs. }
  rw /wp /call. destruct (panics c); simpl; [done|]. split; [done|]. intros id. cbn [calls add_call sessions].
  rw open_after_snoc. by destruct c.
Qed.

Lemma disconnect_inv id s : inv s → wp (disconnect panics id) inv_post s.
Proof.
  intros [Hd Hs]. rw /disconnect. do 2 wp_step. case_bool_decide as Hid; [|by wp_step]. wp_step. wp_step.
  assert (disciplined (calls s ++ [CDisconnected id])) as Hd' by (apply disciplined_snoc; [done|by apply Hs]).
  rw /wp /call. destruct (panics _); simpl; [done|]. split; [done|]. intros i. cbn [calls add_call set_sessions sessions].
  rw open_after_snoc. case_decide; [set_solver|]. rw Hs. set_solver.
Qed.

Lemma disconnect_all_inv ids s : inv s → wp (disconnect_all panics ids) inv_post s.
Proof.
  revert s. induction ids as [|id ids IH]; intros s Hs; cbn [disconnect_all]; wp_step; [done|].
  wp_apply (disconnect_inv id s Hs). intros [u|[]|] s1 H1; [|done]. by apply IH.
Qed.

Lemma set_notify_inv token s : inv s → wp (set_notify token) inv_post s.
Proof. intros Hs. rw /set_notify. do 2 wp_step. destruct (notify s !! token); wp_step; [|done]. by eapply inv_silent. Qed.

Lemma handle_event_inv f event s : inv s → wp (handle_event panics f event) inv_post s.
Proof.
  intros Hs. rw /handle_event. case_match; [by wp_step|]. do 3 wp_step. wp_apply (disconnect_all_inv _ s Hs).
  intros [u|[]|] s1 H1; [|done]. wp_step.
  assert (∀ t, inv (set_current_task t s1)) as Ht by by intros; eapply inv_silent.
  eapply (wp_mono _ inv_post); last by (intros [u'|[]|] s2 H2; [wp_step; by eapply inv_silent|done]).
  destruct event; cbn [event_body]; wp_step; wp_step.
  - by apply call_other.
  - wp_step. destruct (Ht (Run (Some session))) as [Hd Ho]. assert (disciplined (calls s1 ++ [CConnected session version])) as Hd'.
    { by apply disciplined_snoc. }
    rw {1}/wp /call. destruct (panics _); cbn [fst snd]; [done|]. wp_step. split; [done|]. intros i. cbn [calls add_call set_sessions sessions set_current_task].
    rw open_after_snoc. case_decide; [set_solver|]. rw Ho. set_solver.
  - by apply disconnect_inv.
  - do 2 wp_step. wp_step; [|done]. apply call_other; [done|]. apply andb_true_iff in H0 as [H0 _]. by apply bool_decide_eq_true in H0.
  - do 2 wp_step. apply set_notify_inv. by eapply inv_silent.
  - by eapply inv_silent.
  - wp_step. wp_apply (call_other (CNotify token)); [done|done|]. intros [u'|[]|] s2 H2; [|done]. by apply set_notify_inv.
  - by eapply inv_silent.
Qed.

Lemma handle_run_inv inputs s : inv s → wp (run panics inputs) inv_post s.
Proof.
  revert s. induction inputs as [|[f i] inputs IH]; intros s Hs; cbn [run]; [by wp_step|].
  case_match; [wp_steps; by eapply inv_silent|]. destruct i as [[event|]|token|res|].
  - wp_step. wp_apply (handle_event_inv f event s Hs). intros [u|[]|] s1 H1; [by apply IH|done].
  - wp_steps. by eapply inv_silent.
  - wp_step. wp_apply (handle_event_inv f (SvNotify token) s Hs). intros [u|[]|] s1 H1; [by apply IH|done].
  - do 2 wp_step. destruct (need_poll s); [|by apply IH]. wp_step. wp_apply (call_other CPoll s); [done|done|].
    intros [u|[]|] s1 H1; [|done]. do 2 wp_step. apply IH. by eapply inv_silent.
  - by wp_step.
Qed.

(** ** The calls of one event *)

(** The sessions that were closed, in the order of the map. *)
Definition stale (f : Flags) s : list nat := filter (λ id, closed f id = true) (elements (sessions s)).
Definition live (f : Flags) s : gset nat := sessions s ∖ list_to_set (stale f s).

(** The call that an event is about, if it makes one. *)
Definition own_calls (f : Flags) (open : gset nat) (event : ServiceProtocolEvent) : list Call :=
  match event with
  | SvInit => [CInit]
  | SvConnected session version => [CConnected session version]
  | SvDisconnected id => if bool_decide (id ∈ open) then [CDisconnected id] else []
  | SvReceived id data =>
      if bool_decide (id ∈ open) && (negb (closed_later f id) && negb (shutdown_later f)) then [CReceived id data] else []
  | SvNotify token => [CNotify token]
  | _ => []
  end.

Definition session_of (event : ServiceProtocolEvent) : option nat :=
  match event with SvConnected id _ | SvDisconnected id | SvReceived id _ => Some id | _ => None end.

Lemma stale_elem f s id : id ∈ stale f s ↔ id ∈ sessions s ∧ closed f id = true.
Proof. rw /stale list_elem_of_filter elem_of_elements. naive_solver. Qed.

Lemma stale_NoDup f s : NoDup (stale f s).
Proof. apply NoDup_filter, NoDup_elements. Qed.

(** Disconnecting sessions: all of them, or up to the first call that panics. *)
Lemma disconnect_all_calls ids s :
  NoDup ids → (∀ id, id ∈ ids → id ∈ sessions s) →
  wp (disconnect_all (E:=Empty_set) panics ids) (λ r s', proto_id s' = proto_id s ∧ current_task s' = current_task s ∧
    match r with
    | Ok _ => calls s' = calls s ++ (CDisconnected <$> ids) ∧ sessions s' = sessions s ∖ list_to_set ids
    | Err _ => False
    | Panic => ∃ done id, calls s' = calls s ++ done ++ [CDisconnected id] ∧ id ∈ ids ∧ panics (CDisconnected id) = true
    end) s.
Proof.
  revert s. induction ids as [|id ids IH]; intros s Hnd Hin; cbn [disconnect_all]; wp_step.
  { split_and!; try done; [by rw app_nil_r|set_solver]. }
  apply NoDup_cons in Hnd as [Hni Hnd]. rw /disconnect. do 2 wp_step. rewrite -> bool_decide_true by (apply Hin; set_solver).
  wp_step. wp_step. rw {1}/wp /call. destruct (panics (CDisconnected id)) eqn:Hp; cbn [fst snd].
  { split_and!; try done. exists [], id. split; [done|]. split; [set_solver|done]. }
  wp_apply (IH (add_call (CDisconnected id) (set_sessions (sessions s ∖ {[id]}) s))); [done| |].
  { intros i Hi. simpl. specialize (Hin i). set_solver. }
  intros [u|[]|] s' (-> & -> & H'); (split; [done|]; split; [done|]).
  - destruct H' as [-> ->]. simpl. split; [by rw -app_assoc|set_solver].
  - destruct H' as (l & i & -> & Hi & ?). exists (CDisconnected id :: l), i. simpl. rw -app_assoc. split; [done|]. split; [set_solver|done].
Qed.

(** The sessions after an event. *)
Definition sessions_after (open : gset nat) (event : ServiceProtocolEvent) : gset nat :=
  match event with SvConnected id _ => {[id]} ∪ open | SvDisconnected id => open ∖ {[id]} | _ => open end.

(** The outcome of the calls of an event: all of them, or up to one that panics. *)
Definition body_post f event s (r : Res Empty_set unit) s' : Prop :=
  proto_id s' = proto_id s ∧ current_task s' = Run (session_of event) ∧
  match r with
  | Ok _ => calls s' = calls s ++ own_calls f (sessions s) event ∧ sessions s' = sessions_after (sessions s) event
  | Err _ => False
  | Panic => ∃ c, calls s' = calls s ++ [c] ∧ own_calls f (sessions s) event = [c] ∧ panics c = true
  end.

Lemma call_body f event c s s1 :
  own_calls f (sessions s) event = [c] → calls s1 = calls s → proto_id s1 = proto_id s → current_task s1 = Run (session_of event) →
  wp (call (E:=Empty_set) panics c) (λ r s', match r with
    | Ok _ => s' = add_call c s1 ∧ calls s' = calls s ++ own_calls f (sessions s) event
    | _ => body_post f event s r s'
    end) s1.
Proof.
  intros Ho Hc Hp Ht. rw /wp /call. destruct (panics c) eqn:Hpc; simpl; [|by rw Hc Ho].
  split; [done|]. split; [done|]. exists c. by rw -Hc.
Qed.

Lemma set_notify_body f event token s s1 :
  body_post f event s (Ok ()) s1 → wp (set_notify token) (body_post f event s) s1.
Proof. intros H1. rw /set_notify. do 2 wp_step. by destruct (notify s1 !! token); wp_step. Qed.

Lemma event_body_spec f event s : wp (event_body panics f event) (body_post f event s) s.
Proof.
  destruct event as [|id v|id|id d|i t|t|t|l]; cbn [event_body]; wp_step; wp_step.
  - wp_apply (call_body f SvInit CInit s); [done..|]. by intros [u|[]|] s' H'; [destruct H' as [-> ?]|].
  - wp_step. wp_apply (call_body f (SvConnected id v) (CConnected id v) s); [done..|].
    by intros [u|[]|] s' H'; [destruct H' as [-> ?]; wp_step|].
  - rw /disconnect. do 2 wp_step. cbn [sessions set_current_task]. rw /body_post. cbn [own_calls sessions_after].
    destruct (bool_decide (id ∈ sessions s)) eqn:Hb; cbn [bool_decide].
    + wp_step. wp_step. wp_apply (call_body f (SvDisconnected id) (CDisconnected id) s); [by rw /= Hb|done..|].
      rw /body_post /= Hb. by intros [u|[]|] s' H'; [destruct H' as [-> ?]|].
    + wp_step. split_and!; try done; [by rw app_nil_r|]. apply bool_decide_eq_false in Hb. simpl. set_solver.
  - do 2 wp_step. cbn [sessions set_current_task]. rw /when. destruct (_ && _) eqn:Hb.
    + wp_apply (call_body f (SvReceived id d) (CReceived id d) s); [by rw /= Hb|done..|].
      by intros [u|[]|] s' H'; [destruct H' as [-> ?]|].
    + wp_step. split_and!; try done. by rw /= Hb app_nil_r.
  - do 2 wp_step. apply set_notify_body. split_and!; try done. by rw /= app_nil_r.
  - split_and!; try done. by rw /= app_nil_r.
  - wp_step. wp_apply (call_body f (SvNotify t) (CNotify t) s); [done..|]. intros [u|[]|] s' H'; [|done].
    destruct H' as [-> ?]. by apply set_notify_body.
  - split_and!; try done. by rw /= app_nil_r.
Qed.

Definition skipped (f : Flags) (event : ServiceProtocolEvent) : bool :=
  shutdown f && match event with SvDisconnected _ => false | _ => true end.

Lemma handle_event_spec f event s :
  skipped f event = false →
  wp (handle_event (E:=Empty_set) panics f event) (λ r s', proto_id s' = proto_id s ∧ match r with
    | Ok _ => current_task s' = Idle ∧
        calls s' = calls s ++ (CDisconnected <$> stale f s) ++ own_calls f (live f s) event ∧
        sessions s' = sessions_after (live f s) event
    | Err _ => False
    | Panic =>
        (∃ done id, calls s' = calls s ++ done ++ [CDisconnected id] ∧ id ∈ stale f s ∧
          panics (CDisconnected id) = true ∧ current_task s' = current_task s) ∨
        (∃ c, calls s' = calls s ++ (CDisconnected <$> stale f s) ++ [c] ∧ own_calls f (live f s) event = [c] ∧
          panics c = true ∧ current_task s' = Run (session_of event))
    end) s.
Proof.
  intros Hsk. rw /handle_event -/(skipped f event) Hsk. do 3 wp_step.
  wp_apply (disconnect_all_calls (stale f s) s); [apply stale_NoDup|by intros id ?%stale_elem; destruct_and?|].
  intros [u|[]|] s1 (Hp1 & Ht1 & H1); [|split; [done|left]; destruct H1 as (l & id & ? & ? & ?); by exists l, id].
  destruct H1 as [Hc1 Hs1]. rw -/(live f s) in Hs1. wp_step. wp_apply (event_body_spec f event s1).
  intros r s2 (Hp2 & Ht2 & H2). rw Hs1 Hc1 in H2. destruct r as [u'|[]|]; [wp_step|].
  - rw /= Hp2 Hp1. destruct H2 as [-> ->]. by rw app_assoc.
  - rw Hp2 Hp1. split; [done|]. right. destruct H2 as (c & -> & ? & ?). exists c. by rw app_assoc.
Qed.
End facts.

(** C22. Whatever events and ticks the task of a service's handle gets, and
    wherever its callbacks panic: data and the disconnect of a session are given
    to the handle only between its connect and its disconnect, and as long as no
    callback panicked the task's map holds exactly the connected sessions. *)
Theorem service_handle_disciplined panics proto inputs :
  disciplined (calls (run (E:=Empty_set) panics inputs (new proto)).2) ∧
  ((run (E:=Empty_set) panics inputs (new proto)).1 ≠ Panic →
    ∀ id, open_after id (calls (run (E:=Empty_set) panics inputs (new proto)).2) = true ↔
      id ∈ sessions (run (E:=Empty_set) panics inputs (new proto)).2).
Proof.
  assert (inv (new proto)) as Hnew.
  { split; [intros [] ? ? Heq; done|]. intros id. simpl. set_solver. }
  pose proof (handle_run_inv panics inputs _ Hnew) as H. rw /wp in H. destruct (run panics inputs (new proto)) as [[b|[]|] s]; simpl in *.
  - destruct H as [Hd Ho]. split; [done|]. by intros _.
  - split; [done|]. by intros [].
Qed.

(** One event: the sessions that were closed are disconnected first, then the
    event makes its own call; data of a closed session is not delivered. Without
    a panicking callback the event ends, and no closed session is left, except one
    that just connected. *)
Theorem service_handle_event panics f event s :
  (∀ c, panics c = false) → skipped f event = false →
  ∃ s', handle_event (E:=Empty_set) panics f event s = (Ok (), s') ∧
    calls s' = calls s ++ (CDisconnected <$> stale f s) ++ own_calls f (live f s) event ∧
    sessions s' = sessions_after (live f s) event ∧
    (∀ id, id ∈ sessions s' → closed f id = false ∨ ∃ v, event = SvConnected id v).
Proof.
  intros Hp Hsk. pose proof (handle_event_spec panics f event s Hsk) as H. rw /wp in H.
  destruct (handle_event panics f event s) as [[[]|[]|] s']; simpl in H; destruct H as [_ H].
  - destruct H as (_ & Hc & Hs). exists s'. split_and!; try done. intros id. rw Hs.
    assert (∀ i, i ∈ live f s → closed f i = false) as Hl.
    { intros i. rw /live elem_of_difference elem_of_list_to_set stale_elem. destruct (closed f i); naive_solver. }
    destruct event; simpl; try by left; apply Hl.
    + intros [->%elem_of_singleton | ?]%elem_of_union; [right; by eexists|left; by apply Hl].
    + intros [? _]%elem_of_difference. left. by apply Hl.
  - destruct H as [(l & id & _ & _ & Hpc & _) | (c & _ & _ & Hpc & _)]; by rw Hp in Hpc.
Qed.

(** A callback that panics is reported, with the session of the event, when the
    event itself made the call; when the call was the disconnect of a session that
    was found closed, dropping the task reports nothing. *)
Theorem service_handle_panic panics f event s s' :
  current_task s = Idle → handle_event (E:=Empty_set) panics f event s = (Panic, s') →
  ∃ pre c, calls s' = calls s ++ pre ++ [c] ∧ panics c = true ∧
    ((∃ id, c = CDisconnected id ∧ id ∈ sessions s ∧ closed f id = true ∧ drop false s' = None) ∨
     (own_calls f (live f s) event = [c] ∧ drop false s' = Some (AbnormallyClosed (session_of event), proto_id s))).
Proof.
  intros Ht Hev. destruct (skipped f event) eqn:Hsk.
  { rw /handle_event -/(skipped f event) Hsk in Hev. done. }
  pose proof (handle_event_spec panics f event s Hsk) as H. rw /wp Hev in H. simpl in H. destruct H as [Hpi H].
  destruct H as [(l & id & Hc & [Hin Hcl]%stale_elem & Hp & Ht') | (c & Hc & Ho & Hp & Ht')].
  - exists l, (CDisconnected id). split; [done|]. split; [done|]. left. exists id. by rw /drop Ht' Ht.
  - exists (CDisconnected <$> stale f s), c. split; [done|]. split; [done|]. right. by rw /drop Ht' Hpi.
Qed.

(** A protocol with two sessions, of which the second was closed. *)
Definition demo_flags : Flags := mkFlags false false (λ id, bool_decide (id = 2%nat)) false (λ id, bool_decide (id = 2%nat)).
Definition demo_handle : St := mkService 5 [] {[1%nat; 2%nat]} ∅ Idle true [] [].

Lemma service_handle_event_witness :
  skipped demo_flags (SvReceived 1 [x61]) = false ∧
  ∃ s', handle_event (E:=Empty_set) (λ _, false) demo_flags (SvReceived 1 [x61]) demo_handle = (Ok (), s') ∧
    calls s' = [CDisconnected 2; CReceived 1 [x61]] ∧ sessions s' = {[1%nat]}.
Proof.
  assert (skipped demo_flags (SvReceived 1 [x61]) = false) as Hsk by reflexivity. split; [exact Hsk|].
  destruct (service_handle_event (λ _, false) demo_flags (SvReceived 1 [x61]) demo_handle (λ _, eq_refl) Hsk) as (s' & Hr & Hc & Hs & _).
  exists s'. split; [exact Hr|]. rw Hc Hs. split; [vm_compute; reflexivity|]. simpl. apply set_eq. intros i. rw /live.
  vm_compute (stale demo_flags demo_handle). set_solver.
Defined.

Definition demo_panics (c : Call) : bool := match c with CDisconnected _ => true | _ => false end.

Lemma service_handle_panic_witness :
  current_task demo_handle = Idle ∧
  ∃ s' pre c, handle_event (E:=Empty_set) demo_panics demo_flags (SvReceived 1 [x61]) demo_handle = (Panic, s') ∧
    calls s' = pre ++ [c] ∧ demo_panics c = true ∧ drop false s' = None.
Proof.
  split; [reflexivity|].
  assert (∃ s', handle_event (E:=Empty_set) demo_panics demo_flags (SvReceived 1 [x61]) demo_handle = (Panic, s')) as [s' Hs'].
  { eexists. vm_compute. reflexivity. }
  destruct (service_handle_panic demo_panics demo_flags (SvReceived 1 [x61]) demo_handle s' eq_refl Hs') as (pre & c & Hc & Hp & Hd).
  exists s', pre, c. split; [exact Hs'|]. split; [exact Hc|]. split; [exact Hp|].
  destruct Hd as [(id & _ & _ & _ & Hd) | [Ho _]]; [exact Hd|]. vm_compute in Ho. injection Ho as <-. discriminate Hp.
Defined.
