(* ===== verification/SessionHandle.v ===== *)
(** * The task of a session's protocol handle

    [SessionProtocolStream] of [tentacle/src/protocol_handle_stream.rs]: the
    handle of one session. As in [ServiceHandle.v], the user's handle is known by
    its calls, and the shared flags are arguments. *)
From S2P Require Import Prelude Multiaddr SecioMessages Events ProtocolHandle.

Record SessionProtocolStream := mkSession {
  proto_id : nat;
  session : nat;
  listens : list Multiaddr;
  (** [receiver.close()] was called. *)
  receiver_closed : bool;
  notify : gmap Z Z;
  current_task : bool;
  need_poll : bool;
  calls : list Call;
  timers : list (Z * Z);
}.
Abbreviation St := SessionProtocolStream.

Definition set_listens (x : list Multiaddr) (s : St) : St :=
  mkSession (proto_id s) (session s) x (receiver_closed s) (notify s) (current_task s) (need_poll s) (calls s) (timers s).
Definition set_receiver_closed (s : St) : St :=
  mkSession (proto_id s) (session s) (listens s) true (notify s) (current_task s) (need_poll s) (calls s) (timers s).
Definition set_notify_map (x : gmap Z Z) (s : St) : St :=
  mkSession (proto_id s) (session s) (listens s) (receiver_closed s) x (current_task s) (need_poll s) (calls s) (timers s).
Definition set_current_task (x : bool) (s : St) : St :=
  mkSession (proto_id s) (session s) (listens s) (receiver_closed s) (notify s) x (need_poll s) (calls s) (timers s).
Definition set_need_poll (x : bool) (s : St) : St :=
  mkSession (proto_id s) (session s) (listens s) (receiver_closed s) (notify s) (current_task s) x (calls s) (timers s).
Definition add_call (c : Call) (s : St) : St :=
  mkSession (proto_id s) (session s) (listens s) (receiver_closed s) (notify s) (current_task s) (need_poll s) (calls s ++ [c]) (timers s).
Definition add_timer (t : Z * Z) (s : St) : St :=
  mkSession (proto_id s) (session s) (listens s) (receiver_closed s) (notify s) (current_task s) (need_poll s) (calls s) (timers s ++ [t]).

Definition new (proto_id session : nat) : St := mkSession proto_id session [] false ∅ false true [] [].

Record Flags := mkFlags { shutdown : bool; closed : bool }.

Section stream.
Context {E : Type} (panics : Call → bool).

Definition call (c : Call) : M St E unit := λ s,
  if panics c then (Panic, add_call c s) else (Ok (), add_call c s).

Definition set_notify (token : Z) : M St E unit :=
  s ← get;
  match notify s !! token with
  | Some interval => modify (add_timer (token, interval))
  | None => mret ()
  end.

Definition close : M St E unit := modify set_receiver_closed;; modify (set_current_task false).

Definition handle_event (f : Flags) (event : SessionProtocolEvent) : M St E unit :=
  modify (set_current_task true);;
  if shutdown f && match event with SsDisconnected | SsClosed => false | _ => true end then
    modify (set_current_task false)
  else
    s ← get;
    match (if closed f then SsDisconnected else event) with
    | SsOpened version => call (CConnected (session s) version)
    | SsClosed => call (CDisconnected (session s))
    | SsDisconnected => close
    | SsReceived data => call (CReceived (session s) data)
    | SsNotify token => call (CNotify token);; set_notify token
    | SsSetNotify interval token =>
        modify (λ s, set_notify_map (<[token := default interval (notify s !! token)]> (notify s)) s);; set_notify token
    | SsRemoveNotify token => modify (λ s, set_notify_map (delete token (notify s)) s)
    | SsUpdate listen_addrs => modify (set_listens listen_addrs)
    end;;
    modify (set_current_task false).

Fixpoint run (inputs : list (Flags * Input SessionProtocolEvent)) : M St E bool :=
  match inputs with
  | [] => mret false
  | (f, i) :: inputs =>
      match i with
      | IEvent (Some event) => handle_event f event;; run inputs
      | IEvent None => close;; mret true
      | INotify token => handle_event f (SsNotify token);; run inputs
      | IPoll res =>
          s ← get;
          if need_poll s then
            call CPoll;; modify (set_need_poll (if res is Some _ then true else false));; run inputs
          else run inputs
      | IStop => mret true
      end
  end.

Definition drop (shutdown : bool) (s : St) : option (ProtocolHandleErrorKind * nat) :=
  if negb shutdown && current_task s then Some (AbnormallyClosed (Some (session s)), proto_id s) else None.
End stream.

(** ** Facts *)

(** The call of an event while the session is open. *)
Definition call_of (id : nat) (event : SessionProtocolEvent) : option Call :=
  match event with
  | SsOpened version => Some (CConnected id version)
  | SsClosed => Some (CDisconnected id)
  | SsReceived data => Some (CReceived id data)
  | SsNotify token => Some (CNotify token)
  | _ => None
  end.

Definition as_input (shut closed : bool) (event : SessionProtocolEvent) : Flags * Input SessionProtocolEvent :=
  (mkFlags shut closed, IEvent (Some event)).

Section facts.
Context (panics : Call → bool) (Hp : ∀ c, panics c = false).
Implicit Types s : St.

Lemma call_ok c s : call (E:=Empty_set) panics c s = (Ok (), add_call c s).
Proof. by rw /call Hp. Qed.

(** One event of an open, and of a closed session. *)
Lemma handle_open event s :
  ∃ s', handle_event (E:=Empty_set) panics (mkFlags false false) event s = (Ok (), s') ∧ session s' = session s ∧
    current_task s' = false ∧ calls s' = calls s ++ option_list (call_of (session s) event) ∧
    receiver_closed s' = receiver_closed s || (if event is SsDisconnected then true else false).
Proof.
  rw /handle_event /mbind /M_bind /modify /get /=.
  destruct event; rw /= ?call_ok /set_notify /mbind /M_bind /get /modify /=.
  all: try match goal with |- context [match ?m !! ?k with _ => _ end] => destruct (m !! k) end.
  all: eexists; split; [reflexivity|]; simpl; by rw ?app_nil_r ?orb_false_r ?orb_true_r.
Qed.

Lemma handle_closed shut event s :
  ∃ s', handle_event (E:=Empty_set) panics (mkFlags shut true) event s = (Ok (), s') ∧ session s' = session s ∧
    current_task s' = false ∧ calls s' = calls s.
Proof.
  rw /handle_event /mbind /M_bind /modify /get /=. by case_match; eexists.
Qed.

Lemma run_open evs rest s :
  ∃ s', run (E:=Empty_set) panics ((as_input false false <$> evs) ++ rest) s = run panics rest s' ∧ session s' = session s ∧
    calls s' = calls s ++ omap (call_of (session s)) evs.
Proof.
  revert s. induction evs as [|ev evs IH]; intros s; [exists s; by rw app_nil_r|].
  destruct (handle_open ev s) as (s1 & H1 & Hid & _ & Hc & _). destruct (IH s1) as (s2 & H2 & Hid2 & Hc2).
  exists s2. cbn [fmap list_fmap app run as_input]. rw (M_bind_Ok _ _ _ _ _ H1) Hid2 Hid Hc2 Hc Hid. split; [exact H2|]. split; [done|].
  rw -app_assoc. f_equal. cbn. by destruct (call_of (session s) ev).
Qed.

Lemma run_closed evs s :
  ∃ s', run (E:=Empty_set) panics ((λ e, as_input e.1 true e.2) <$> evs) s = (Ok false, s') ∧ calls s' = calls s.
Proof.
  revert s. induction evs as [|[shut ev] evs IH]; intros s; [by exists s|].
  destruct (handle_closed shut ev s) as (s1 & H1 & _ & _ & Hc). destruct (IH s1) as (s2 & H2 & Hc2).
  exists s2. cbn [fmap list_fmap run as_input fst snd]. rw (M_bind_Ok _ _ _ _ _ H1) Hc2. done.
Qed.
End facts.

(** The handle of a session is called for the events that it gets while the
    session is open, in their order, and for none after the session was closed:
    if the session closes first, neither the end of the protocol nor the rest of
    its data is told to the handle. *)
Theorem session_handle_calls panics proto id evs late :
  (∀ c, panics c = false) →
  ∃ s, run (E:=Empty_set) panics ((as_input false false <$> evs) ++ ((λ e, as_input e.1 true e.2) <$> late)) (new proto id) = (Ok false, s) ∧
    calls s = omap (call_of id) evs.
Proof.
  intros Hp. destruct (run_open panics Hp evs ((λ e, as_input e.1 true e.2) <$> late) (new proto id)) as (s1 & -> & _ & Hc).
  destruct (run_closed panics late s1) as (s2 & -> & Hc2). exists s2. by rw Hc2 Hc.
Qed.

Lemma session_handle_calls_witness :
  ∃ s, run (E:=Empty_set) (λ _, false) ((as_input false false <$> [SsOpened [x31]; SsReceived [x61]]) ++
      ((λ e, as_input e.1 true e.2) <$> [(false, SsReceived [x62]); (false, SsClosed); (false, SsDisconnected)])) (new 5 7) = (Ok false, s) ∧
    calls s = [CConnected 7 [x31]; CReceived 7 [x61]].
Proof. exact (session_handle_calls (λ _, false) 5 7 _ _ (λ _, eq_refl)). Defined.
