(* ===== verification/FutureTask.v ===== *)
(** * The manager of future tasks

    [tentacle/src/service/future_task.rs]: [FutureTaskManager] gives each task
    an id that is not in use, keeps the sender of its stop signal, and forgets it
    when the task's id comes back. The spawned tasks are part of the system's
    state: those that still run, and the ids that were sent back. *)
From S2P Require Import Prelude.

Record FutureTaskManager := mkManager { signals : gset Z; next_id : Z }.

Definition manager_new : FutureTaskManager := mkManager ∅ 0.

(** [next_id.wrapping_add(1)]. *)
Definition succ (id : Z) : Z := wrap 64 (id + 1).

(** The loop of [add_task]; [None] when the fuel is used up. *)
Fixpoint find_id (fuel : nat) (used : gset Z) (id : Z) : option Z :=
  match fuel with
  | O => None
  | S fuel => if decide (succ id ∈ used) then find_id fuel used (succ id) else Some (succ id)
  end.

(** One more turn than there are ids in use is enough, unless all are in use. *)
Definition add_task (m : FutureTaskManager) : option (Z * FutureTaskManager) :=
  id ← find_id (S (size (signals m))) (signals m) (next_id m);
  Some (id, mkManager ({[id]} ∪ signals m) id).

Definition remove_task (id : Z) (m : FutureTaskManager) : FutureTaskManager :=
  mkManager (signals m ∖ {[id]}) (next_id m).

(** [poll_next], given the flag [shutdown] before and after, the budget, and what
    the two receivers yield: its result, the id of the task it spawned, and the
    new state; no result when no id is free. *)
Definition manager_poll (shut proceed : bool) (task : Poll (option unit)) (finished : Poll (option Z)) (shut' : bool)
    (m : FutureTaskManager) : option (Poll (option unit) * option Z * FutureTaskManager) :=
  if shut then Some (Ready None, None, m)
  else if negb proceed then Some (Pending, None, m)
  else
    let next (spawned : option Z) (pending : bool) (m : FutureTaskManager) :=
      match finished with
      | Ready None => (Ready None, spawned, m)
      | _ =>
          let m := match finished with Ready (Some id) => remove_task id m | _ => m end in
          let pending := pending && is_pending finished in
          if shut' then (Ready None, spawned, m)
          else (if pending then Pending else Ready (Some ()), spawned, m)
      end in
    match task with
    | Ready (Some _) => '(id, m) ← add_task m; Some (next (Some id) false m)
    | Ready None => Some (Ready None, None, m)
    | Pending => Some (next None true m)
    end.

(** The ids whose tasks get the stop signal when the manager is dropped. *)
Definition manager_drop (m : FutureTaskManager) : gset Z := signals m.

(** ** Finding a free id *)

Lemma succ_range id : 0 ≤ succ id < 2 ^ 64.
Proof. by apply wrap_range. Qed.

Lemma iter_succ n id : Nat.iter (S n) succ id = wrap 64 (id + Z.of_nat (S n)).
Proof.
  induction n as [|n IH]; [done|]. change (Nat.iter (S (S n)) succ id) with (succ (Nat.iter (S n) succ id)). rw IH /succ /wrap Zplus_mod_idemp_l. f_equal. lia.
Qed.

Lemma find_id_spec fuel used id :
  match find_id fuel used id with
  | Some i => (i ∉ used) ∧ (0 ≤ i < 2 ^ 64)%Z ∧ ∃ k, i = Nat.iter (S k) succ id ∧ ∀ j, (j < k)%nat → Nat.iter (S j) succ id ∈ used
  | None => ∀ j, (j < fuel)%nat → Nat.iter (S j) succ id ∈ used
  end.
Proof.
  revert id. induction fuel as [|fuel IH]; intros id; cbn [find_id]; [intros; lia|].
  assert (∀ j, Nat.iter (S j) succ (succ id) = Nat.iter (S (S j)) succ id) as Hshift.
  { intros j. by rw (Nat.iter_succ_r (S j)). }
  case_decide as Hu.
  - specialize (IH (succ id)). destruct (find_id fuel used (succ id)) as [i|].
    + destruct IH as (Hi & Hr & k & -> & Hk). split; [done|]. split; [done|]. exists (S k). rw Hshift. split; [done|].
      intros [|j] Hj; [done|]. rw -Hshift. apply Hk. lia.
    + intros [|j] Hj; [done|]. rw -Hshift. apply IH. lia.
  - split; [done|]. split; [apply succ_range|]. exists 0%nat. split; [done|]. intros. lia.
Qed.

Lemma add_task_finds m :
  (Z.of_nat (size (signals m)) < 2 ^ 64)%Z → ∃ id m', add_task m = Some (id, m').
Proof.
  intros Hs. rw /add_task. pose proof (find_id_spec (S (size (signals m))) (signals m) (next_id m)) as H.
  destruct (find_id _ _ _) as [i|]; [by eexists _, _|]. exfalso.
  set (ids := (λ j, Nat.iter (S j) succ (next_id m)) <$> seq 0 (S (size (signals m)))).
  assert (NoDup ids) as Hnd.
  { apply NoDup_fmap_2_strong; [|apply NoDup_seq]. intros i j Hi%elem_of_seq Hj%elem_of_seq. rw !iter_succ /wrap. intros Heq.
    assert ((Z.of_nat i - Z.of_nat j) mod 2 ^ 64 = 0) as Hm.
    { replace (Z.of_nat i - Z.of_nat j) with ((next_id m + Z.of_nat (S i)) - (next_id m + Z.of_nat (S j))) by lia.
      by rewrite -> Zminus_mod, Heq, Z.sub_diag. }
    apply Z.mod_divide in Hm as [q Hq]; [|done]. nia. }
  assert (list_to_set (C:=gset Z) ids ⊆ signals m) as Hsub.
  { intros i [j [-> Hj%elem_of_seq]]%elem_of_list_to_set%list_elem_of_fmap. apply H. lia. }
  apply subseteq_size in Hsub. rw size_list_to_set // /ids length_fmap length_seq in Hsub. lia.
Qed.

(** ** The system: the manager and its tasks *)

Record System := mkSystem { manager : FutureTaskManager; running : gset Z; sent_back : list Z }.

(** A task ends (by itself or on its signal) and sends its id back; a poll takes
    a task, an id, or both. *)
Inductive system_step : System → System → Prop :=
| task_ends s id :
    id ∈ running s → system_step s (mkSystem (manager s) (running s ∖ {[id]}) (sent_back s ++ [id]))
| manager_polls s shut proceed task shut' p spawned m :
    manager_poll shut proceed task (match sent_back s with id :: _ => Ready (Some id) | [] => Pending end) shut' (manager s) =
      Some (p, spawned, m) →
    system_step s (mkSystem m (from_option (λ id, {[id]}) ∅ spawned ∪ running s)
      (if shut || negb proceed || (if task is Ready None then true else false) then sent_back s else tail (sent_back s))).

(** The ids in use are those of the running tasks and those on their way back,
    each once. *)
Record system_inv (s : System) : Prop := {
  si_ids : signals (manager s) = running s ∪ list_to_set (sent_back s);
  si_disjoint : running s ## list_to_set (sent_back s);
  si_nodup : NoDup (sent_back s);
  si_range : ∀ id, id ∈ signals (manager s) → 0 ≤ id < 2 ^ 64;
}.

Lemma add_task_inv m id m' :
  add_task m = Some (id, m') →
  (id ∉ signals m) ∧ (0 ≤ id < 2 ^ 64) ∧ signals m' = {[id]} ∪ signals m ∧ next_id m' = id.
Proof.
  rw /add_task. pose proof (find_id_spec (S (size (signals m))) (signals m) (next_id m)) as H.
  destruct (find_id _ _ _) as [i|]; [|done]. intros [= -> <-]. by destruct H as (? & ? & _).
Qed.

(** What a poll did with the ids. *)
Lemma manager_poll_ids shut proceed task finished shut' m p spawned m' :
  manager_poll shut proceed task finished shut' m = Some (p, spawned, m') →
  let taken := if shut || negb proceed || (if task is Ready None then true else false) then None
               else match finished with Ready (Some id) => Some id | _ => None end in
  (match spawned with Some id => (id ∉ signals m) ∧ (0 ≤ id < 2 ^ 64) | None => True end) ∧
  signals m' = (from_option (λ id, {[id]}) ∅ spawned ∪ signals m) ∖ from_option (λ id, {[id]}) ∅ taken.
Proof.
  rw /manager_poll. destruct shut; [intros [= <- <- <-]; simpl; split; [done|set_solver]|].
  destruct proceed; [|intros [= <- <- <-]; simpl; split; [done|set_solver]]. cbn [negb orb].
  assert (∀ sp b mm, (let '(q, sp', mm') := (match finished with
      | Ready None => (Ready None, sp, mm)
      | _ => let m := match finished with Ready (Some id) => remove_task id mm | _ => mm end in
             let pending := b && is_pending finished in
             if shut' then (Ready None, sp, m) else (if pending then Pending else Ready (Some ()), sp, m)
      end : Poll (option unit) * option Z * FutureTaskManager) in
      sp' = sp ∧ signals mm' = signals mm ∖ from_option (λ id, {[id]}) ∅ (match finished with Ready (Some id) => Some id | _ => None end))) as Hnext.
  { intros sp b mm. destruct finished as [[id|]|], shut'; simpl; split; try done; set_solver. }
  destruct task as [[u|]|].
  - destruct (add_task m) as [[id m1]|] eqn:Ha; simpl; [|done]. intros [= Heq]. specialize (Hnext (Some id) false m1).
    cbv zeta in Hnext. rw Heq in Hnext. destruct Hnext as [-> Hs]. destruct (add_task_inv _ _ _ Ha) as (Hn & Hr & Hs1 & _).
    split; [done|]. simpl. by rw Hs Hs1.
  - intros [= <- <- <-]. simpl. split; [done|set_solver].
  - intros [= Heq]. specialize (Hnext None true m). cbv zeta in Hnext. rw Heq in Hnext. destruct Hnext as [-> Hs]. split; [done|].
    simpl. rw Hs. set_solver.
Qed.

Lemma system_step_inv s s' : system_inv s → system_step s s' → system_inv s'.
Proof.
  intros Hinv Hstep. destruct Hstep as [s id Hid|s shut proceed task shut' p spawned m Hp]; destruct Hinv as [Hids Hdis Hnd Hr].
  - split; simpl.
    + rw Hids list_to_set_app_L /=. apply set_eq. intros i. destruct (decide (i = id)); set_solver.
    + rw list_to_set_app_L /=. set_solver.
    + apply NoDup_app. split; [done|]. split; [set_solver|apply NoDup_singleton].
    + done.
  - apply manager_poll_ids in Hp as [Hsp Hs]. cbv zeta in Hs. set (new := from_option _ ∅ spawned) in *.
    assert (∀ i, i ∈ new → (i ∉ signals (manager s)) ∧ (0 ≤ i < 2 ^ 64)%Z) as Hnew.
    { intros i. rw /new. destruct spawned as [j|]; simpl; [|set_solver]. by intros ->%elem_of_singleton. }
    rw Hids in Hnew. destruct (_ || _); simpl in *.
    { split; simpl; [|..|done|]; rw ?Hs ?Hids; [set_solver|set_solver|]. intros i. rw Hids in Hr. set_solver. }
    destruct (sent_back s) as [|id ids] eqn:Hb; simpl in *.
    { split; simpl; [|..|done|]; rw ?Hs ?Hids; [set_solver|set_solver|]. intros i. rw Hids in Hr. set_solver. }
    apply NoDup_cons in Hnd as [Hni Hnd]. split; simpl; [|..|done|]; rw ?Hs ?Hids.
    + apply set_eq. intros i. destruct (decide (i = id)); set_solver.
    + set_solver.
    + intros i. rw Hids in Hr. set_solver.
Qed.

(** A task gets an id that no running task and no id on its way back has;
    the search ends unless [2 ^ 64] ids are in use. In every reachable state the
    manager holds the stop signal of exactly the running tasks and of those whose
    id is on its way back, so that dropping it stops every running task. *)
Theorem task_ids_unique s :
  rtc system_step (mkSystem manager_new ∅ []) s →
  (Z.of_nat (size (signals (manager s))) < 2 ^ 64 → ∃ id m, add_task (manager s) = Some (id, m)) ∧
  (∀ id m, add_task (manager s) = Some (id, m) → (id ∉ running s) ∧ (id ∉ sent_back s) ∧ id ∈ manager_drop m) ∧
  running s ⊆ manager_drop (manager s) ∧ (∀ id, id ∈ manager_drop (manager s) → id ∈ running s ∨ id ∈ sent_back s).
Proof.
  intros Hs. assert (∀ x y, rtc system_step x y → system_inv x → system_inv y) as Hrtc.
  { induction 1; eauto using system_step_inv. }
  destruct (Hrtc _ _ Hs) as [Hids Hdis Hnd Hr].
  { split; simpl; [set_solver..|apply NoDup_nil_2|set_solver]. }
  split; [apply add_task_finds|]. rw /manager_drop. split_and!.
  - intros id m (Hn & _ & Hm & _)%add_task_inv. rw Hids in Hn. set_solver.
  - set_solver.
  - intros id. rw Hids. set_solver.
Qed.

(** Two tasks are taken, and the first one ends. *)
Definition demo_system : System :=
  mkSystem (mkManager ({[2]} ∪ ({[1]} ∪ ∅)) 2) (({[2]} ∪ ({[1]} ∪ ∅)) ∖ {[1]}) [1].

Lemma demo_system_reachable : rtc system_step (mkSystem manager_new ∅ []) demo_system.
Proof.
  apply (rtc_l _ _ (mkSystem (mkManager ({[1]} ∪ ∅) 1) ({[1]} ∪ ∅) [])).
  { by apply (manager_polls (mkSystem manager_new ∅ []) false true (Ready (Some ())) false (Ready (Some ())) (Some 1)). }
  apply (rtc_l _ _ (mkSystem (mkManager ({[2]} ∪ ({[1]} ∪ ∅)) 2) ({[2]} ∪ ({[1]} ∪ ∅)) [])).
  { exact (manager_polls (mkSystem (mkManager ({[1]} ∪ ∅) 1) ({[1]} ∪ ∅) []) false true (Ready (Some ())) false
      (Ready (Some ())) (Some 2) (mkManager ({[2]} ∪ ({[1]} ∪ ∅)) 2) eq_refl). }
  apply rtc_once.
  refine (task_ends (mkSystem (mkManager ({[2]} ∪ ({[1]} ∪ ∅)) 2) ({[2]} ∪ ({[1]} ∪ ∅)) []) 1 _). simpl. set_solver.
Qed.

Lemma task_ids_unique_witness :
  rtc system_step (mkSystem manager_new ∅ []) demo_system ∧
  ∃ id m, add_task (manager demo_system) = Some (id, m) ∧ id = 3 ∧ (id ∉ running demo_system) ∧ id ∉ sent_back demo_system.
Proof.
  split; [exact demo_system_reachable|]. destruct (task_ids_unique demo_system demo_system_reachable) as (Hf & Hu & _).
  destruct Hf as (id & m & Ha); [vm_compute; reflexivity|]. destruct (Hu _ _ Ha) as (Hr & Hb & _). exists id, m.
  split; [exact Ha|]. split; [|by split]. vm_compute in Ha. congruence.
Defined.
