(* ===== verification/TentacleSession.v ===== *)
(** * Sessions

    [tentacle/src/session.rs]: [Session], the task of one connection. It opens
    protocol streams ([Substream.v]) on negotiated substreams, routes the
    service's messages to them, hands their events to the service and ends the
    connection; [InnerSocket], the task that turns the yamux session's results
    into events. The tasks it spawns are recorded. [HashMap]s are iterated in an
    order of their own; the model uses that of [map_to_list]. *)
From S2P Require Import Prelude Multiaddr SecioMessages Channel ChannelBound ChannelBoundFacts Buffer Framed Events Substream ProtocolHandle.

(** ** Events *)

Inductive SessionState := RemoteClose | LocalClose | NormalState | Abnormal.

#[global] Instance SessionState_eq_dec : EqDecision SessionState.
Proof. solve_decision. Defined.

Definition is_local_close (s : SessionState) : bool := bool_decide (s = LocalClose).
Definition is_normal (s : SessionState) : bool := bool_decide (s = NormalState).

(** Types of the network layer: substreams, connections, listeners, errors. *)
Record NetTypes := mkNetTypes { StreamHandle : Type; RawIo : Type; Incoming : Type; HandshakeErr : Type; TransportErr : Type }.

Inductive SessionEvent (N : NetTypes) :=
| SeSessionClose (id : nat)
| SeListenStart (listen_address : Multiaddr) (incoming : Incoming N)
| SeHandshakeSuccess (handle : RawIo N) (public_key : option PublicKey) (address : Multiaddr) (ty : SessionType)
    (listen_address : option Multiaddr)
| SeHandshakeError (address : Multiaddr) (ty : SessionType) (error : HandshakeErr N)
| SeDialError (address : Multiaddr) (error : TransportErr N)
| SeListenError (address : Multiaddr) (error : TransportErr N)
| SeProtocolMessage (proto_id : nat) (data : bytes)
| SeProtocolOpen (proto_id : nat)
| SeProtocolClose (proto_id : nat)
| SeStreamStart (stream : StreamHandle N)
| SeChangeState (id : nat) (state : SessionState) (error : option io.ErrorKind)
| SeProtocolSelectError (id : nat) (proto_name : option bytes)
| SeSessionTimeout (id : nat)
| SeProtocolError (id proto_id : nat) (error : io.ErrorKind)
| SeMuxerError (id : nat) (error : io.ErrorKind)
| SeProtocolHandleError (error : ProtocolHandleErrorKind) (proto_id : nat).
Arguments SeSessionClose {N}.
Arguments SeListenStart {N}.
Arguments SeHandshakeSuccess {N}.
Arguments SeHandshakeError {N}.
Arguments SeDialError {N}.
Arguments SeListenError {N}.
Arguments SeProtocolMessage {N}.
Arguments SeProtocolOpen {N}.
Arguments SeProtocolClose {N}.
Arguments SeStreamStart {N}.
Arguments SeChangeState {N}.
Arguments SeProtocolSelectError {N}.
Arguments SeSessionTimeout {N}.
Arguments SeProtocolError {N}.
Arguments SeMuxerError {N}.
Arguments SeProtocolHandleError {N}.

(** The receiving half of a plain channel. *)
Class PlainReceiver (R T : Type) := {
  pr_poll_next : R → Poll (option T) * R;
  pr_close : R → R;
}.

(** [Meta], as far as a session uses it: [spawn] says whether the protocol reads
    its stream itself. *)
Record Meta := mkMeta {
  meta_id : nat;
  meta_name : bytes;
  support_versions : list bytes;
  meta_spawn : bool;
  meta_before_receive : option (bytes → bytes + io.ErrorKind);
}.

(** ** The session *)

(** The types of a session: the substream below a codec ([S]), a negotiated
    substream ([H]), the senders of a protocol stream to the session ([C]) and to
    the handles ([C1], [C2]), its receiver ([R]) and the session's sender to it
    ([P]); the session's receivers ([PR], [SR]), its sender to the service ([CS]),
    and the handles that it waits for ([J]). *)
Record SessTypes := mkSessTypes {
  tS : Type; tH : Type; tC : Type; tC1 : Type; tC2 : Type; tR : Type; tP : Type;
  tPR : Type; tSR : Type; tCS : Type; tJ : Type; tN : NetTypes;
}.

Inductive Task (T : SessTypes) :=
| TClientSelect (proto_name : bytes) (versions : list bytes)
| TServerSelect (substream : StreamHandle (tN T)) (protos : list Meta)
| TSubstream (s : Substream (tS T) (tC T) (tC1 T) (tC2 T) (tR T) (tH T))
| TSplit (w : WritePart (tS T) (tC T) (tR T) (tH T)) (r : SubstreamReadPart (tS T))
| TServiceEvents (events : list (SessionEvent (tN T)))
| TControlClose.
Arguments TClientSelect {T}.
Arguments TServerSelect {T}.
Arguments TSubstream {T}.
Arguments TSplit {T}.
Arguments TServiceEvents {T}.
Arguments TControlClose {T}.

Record Session (T : SessTypes) := mkSession {
  protocol_configs_by_name : gmap (list byte) Meta;
  protocol_configs_by_id : gmap nat Meta;
  s_config : SessionConfig;
  s_keep_buffer : bool;
  s_state : SessionState;
  s_context : SessionContext;
  next_stream : nat;
  substreams : gmap nat (PriorityBuffer (tP T) (ProtocolEvent (tH T)));
  proto_streams : gmap nat nat;
  proto_event_sender : tC T;
  proto_event_receiver : tPR T;
  service_sender : Buffer (tCS T) (SessionEvent (tN T));
  service_receiver : tSR T;
  service_proto_senders : gmap nat (tC1 T);
  session_proto_senders : gmap nat (tC2 T);
  wait_handle : list (bool * tJ T);
  s_tasks : list (Task T);
}.
Arguments mkSession {T}.
Arguments protocol_configs_by_name {T}.
Arguments protocol_configs_by_id {T}.
Arguments s_config {T}.
Arguments s_keep_buffer {T}.
Arguments s_state {T}.
Arguments s_context {T}.
Arguments next_stream {T}.
Arguments substreams {T}.
Arguments proto_streams {T}.
Arguments proto_event_sender {T}.
Arguments proto_event_receiver {T}.
Arguments service_sender {T}.
Arguments service_receiver {T}.
Arguments service_proto_senders {T}.
Arguments session_proto_senders {T}.
Arguments wait_handle {T}.
Arguments s_tasks {T}.

Section setters.
Context {T : SessTypes}.

Definition set_state (x : SessionState) (s : Session T) : Session T :=
  mkSession (protocol_configs_by_name s) (protocol_configs_by_id s) (s_config s) (s_keep_buffer s) x
    (s_context s) (next_stream s) (substreams s) (proto_streams s) (proto_event_sender s)
    (proto_event_receiver s) (service_sender s) (service_receiver s) (service_proto_senders s)
    (session_proto_senders s) (wait_handle s) (s_tasks s).
Definition set_s_context (x : SessionContext) (s : Session T) : Session T :=
  mkSession (protocol_configs_by_name s) (protocol_configs_by_id s) (s_config s) (s_keep_buffer s) (s_state s)
    x (next_stream s) (substreams s) (proto_streams s) (proto_event_sender s) (proto_event_receiver s)
    (service_sender s) (service_receiver s) (service_proto_senders s) (session_proto_senders s)
    (wait_handle s) (s_tasks s).
Definition set_next_stream (x : nat) (s : Session T) : Session T :=
  mkSession (protocol_configs_by_name s) (protocol_configs_by_id s) (s_config s) (s_keep_buffer s) (s_state s)
    (s_context s) x (substreams s) (proto_streams s) (proto_event_sender s) (proto_event_receiver s)
    (service_sender s) (service_receiver s) (service_proto_senders s) (session_proto_senders s)
    (wait_handle s) (s_tasks s).
Definition set_substreams (x : gmap nat (PriorityBuffer (tP T) (ProtocolEvent (tH T)))) (s : Session T) : Session T :=
  mkSession (protocol_configs_by_name s) (protocol_configs_by_id s) (s_config s) (s_keep_buffer s) (s_state s)
    (s_context s) (next_stream s) x (proto_streams s) (proto_event_sender s) (proto_event_receiver s)
    (service_sender s) (service_receiver s) (service_proto_senders s) (session_proto_senders s)
    (wait_handle s) (s_tasks s).
Definition set_proto_streams (x : gmap nat nat) (s : Session T) : Session T :=
  mkSession (protocol_configs_by_name s) (protocol_configs_by_id s) (s_config s) (s_keep_buffer s) (s_state s)
    (s_context s) (next_stream s) (substreams s) x (proto_event_sender s) (proto_event_receiver s)
    (service_sender s) (service_receiver s) (service_proto_senders s) (session_proto_senders s)
    (wait_handle s) (s_tasks s).
Definition set_proto_event_receiver (x : tPR T) (s : Session T) : Session T :=
  mkSession (protocol_configs_by_name s) (protocol_configs_by_id s) (s_config s) (s_keep_buffer s) (s_state s)
    (s_context s) (next_stream s) (substreams s) (proto_streams s) (proto_event_sender s) x (service_sender s)
    (service_receiver s) (service_proto_senders s) (session_proto_senders s) (wait_handle s) (s_tasks s).
Definition set_service_sender (x : Buffer (tCS T) (SessionEvent (tN T))) (s : Session T) : Session T :=
  mkSession (protocol_configs_by_name s) (protocol_configs_by_id s) (s_config s) (s_keep_buffer s) (s_state s)
    (s_context s) (next_stream s) (substreams s) (proto_streams s) (proto_event_sender s)
    (proto_event_receiver s) x (service_receiver s) (service_proto_senders s) (session_proto_senders s)
    (wait_handle s) (s_tasks s).
Definition set_service_receiver (x : tSR T) (s : Session T) : Session T :=
  mkSession (protocol_configs_by_name s) (protocol_configs_by_id s) (s_config s) (s_keep_buffer s) (s_state s)
    (s_context s) (next_stream s) (substreams s) (proto_streams s) (proto_event_sender s)
    (proto_event_receiver s) (service_sender s) x (service_proto_senders s) (session_proto_senders s)
    (wait_handle s) (s_tasks s).
Definition set_wait_handle (x : list (bool * tJ T)) (s : Session T) : Session T :=
  mkSession (protocol_configs_by_name s) (protocol_configs_by_id s) (s_config s) (s_keep_buffer s) (s_state s)
    (s_context s) (next_stream s) (substreams s) (proto_streams s) (proto_event_sender s)
    (proto_event_receiver s) (service_sender s) (service_receiver s) (service_proto_senders s)
    (session_proto_senders s) x (s_tasks s).
Definition set_tasks (x : list (Task T)) (s : Session T) : Session T :=
  mkSession (protocol_configs_by_name s) (protocol_configs_by_id s) (s_config s) (s_keep_buffer s) (s_state s)
    (s_context s) (next_stream s) (substreams s) (proto_streams s) (proto_event_sender s)
    (proto_event_receiver s) (service_sender s) (service_receiver s) (service_proto_senders s)
    (session_proto_senders s) (wait_handle s) x.
Definition spawn (t : Task T) (s : Session T) : Session T := set_tasks (s_tasks s ++ [t]) s.
End setters.

Section session.
Context {T : SessTypes}.
Context `{!MsgSender (tP T) (ProtocolEvent (tH T)), !MsgSender (tCS T) (SessionEvent (tN T)), !PlainReceiver (tPR T) (ProtocolEvent (tH T)),
  !EventReceiver (tSR T) (SessionEvent (tN T))}.
(** Parts of other code: a protocol's codec put on a negotiated substream, the two
    halves of a framed stream, a new priority channel, the poll of a handle. *)
Context (reframe : nat → tH T → tS T) (split : tS T → tS T * tS T) (channel : Z → tP T * tR T)
  (poll_handle : tJ T → Poll unit * tJ T).
Abbreviation St := (Session T).
Implicit Types s : St.

(** [Session::new]; the timer of the timeout check and the task of the yamux
    session are started beside it. *)
Definition session_new (by_name : gmap (list byte) Meta) (by_id : gmap nat Meta) (config : SessionConfig) (keep : bool) (ctx : SessionContext)
    (proto_sender : tC T) (proto_receiver : tPR T) (to_service : tCS T) (from_service : tSR T)
    (service_senders : gmap nat (tC1 T)) (session_senders : gmap nat (tC2 T)) (handles : list (bool * tJ T)) : St :=
  mkSession by_name by_id config keep NormalState ctx 0 ∅ ∅ proto_sender proto_receiver (plain_new to_service) from_service
    service_senders session_senders handles [].

(** The event of a finished negotiation ([None]: it timed out). *)
Definition select_event (res : option ((tH T * bytes * option bytes) + io.ErrorKind)) : ProtocolEvent (tH T) :=
  match res with
  | Some (inl (handle, name, Some version)) => PvOpen name handle version
  | Some (inl (_, name, None)) => PvSelectError (Some name)
  | Some (inr _) | None => PvSelectError None
  end.

(** Indexing a [HashMap] with a missing key panics. *)
Definition open_proto_stream {E} (proto_name : bytes) : M St E unit :=
  s ← get;
  match protocol_configs_by_name s !! proto_name with
  | None => panic
  | Some meta => modify (spawn (TClientSelect proto_name (support_versions meta)))
  end.

(** [Buffer::try_send] to the service. *)
Definition service_try_send {E} (cx : Waker) : M St E SendResult := λ s,
  match plain_try_send cx (service_sender s) with
  | (Ok r, b) => (Ok r, set_service_sender b s)
  | (_, b) => (Panic, set_service_sender b s)
  end.

Definition s_output {E} (cx : Waker) : M St E unit :=
  r ← service_try_send cx;
  match r with
  | SDisconnect =>
      modify (λ s, set_service_sender (plain_clear (service_sender s)) s);;
      modify (set_state Abnormal)
  | _ => mret ()
  end.

Definition event_output {E} (cx : Waker) (event : SessionEvent (tN T)) : M St E unit :=
  modify (λ s, set_service_sender (plain_push event (service_sender s)) s);;
  s_output cx.

(** A call on the buffer of a stream, if there is one. *)
Definition on_buffer {E} (id : nat) (f : PriorityBuffer (tP T) (ProtocolEvent (tH T)) → PriorityBuffer (tP T) (ProtocolEvent (tH T))) :
    M St E unit :=
  modify (λ s, set_substreams (alter f id (substreams s)) s).
Definition buffer_send {E} (cx : Waker) (id : nat) : M St E SendResult := λ s,
  match substreams s !! id with
  | None => (Ok SOk, s)
  | Some b =>
      match buffer_try_send cx b with
      | (Ok r, b) => (Ok r, set_substreams (<[id := b]> (substreams s)) s)
      | (_, b) => (Panic, set_substreams (<[id := b]> (substreams s)) s)
      end
  end.

(** The loop of [distribute_to_substream], over the ids of the map. *)
Fixpoint distribute {E} (cx : Waker) (ids : list nat) : M St E unit :=
  match ids with
  | [] => mret ()
  | id :: ids =>
      s ← get;
      if from_option buffer_is_empty true (substreams s !! id) then distribute cx ids
      else
        r ← buffer_send cx id;
        match r with
        | SPending =>
            s ← get;
            when (send_buffer_size (s_config s) <? ctx_pending_data_size (s_context s))
              (modify (set_state Abnormal);;
               on_buffer id buffer_clear;;
               event_output cx (SeChangeState (ctx_id (s_context s)) Abnormal None))
        | _ => distribute cx ids
        end
  end.

Definition distribute_to_substream {E} (cx : Waker) : M St E unit :=
  s ← get; distribute cx (map_to_list (substreams s)).*1.

Definition handle_substream {E} (substream : StreamHandle (tN T)) : M St E unit :=
  s ← get; modify (spawn (TServerSelect substream (map_to_list (protocol_configs_by_name s)).*2)).

(** The tasks of a new stream; [version] is the negotiated one. *)
Definition stream_task (proto : Meta) (version : bytes) (handle : tH T) (receiver : tR T) s : Task T :=
  let frame := reframe (meta_id proto) handle in
  if meta_spawn proto then
    let '(write, read) := split frame in
    TSplit (write_part_build write (next_stream s) (meta_id proto) (s_config s) (proto_event_sender s) receiver (s_context s))
      (mkReadPart read (meta_before_receive proto) (meta_id proto) (next_stream s) version)
  else
    TSubstream (proto_open (E:=Empty_set) version
      (substream_build frame (next_stream s) (meta_id proto) (s_config s) (s_keep_buffer s) (proto_event_sender s) receiver (s_context s)
        (plain_new <$> service_proto_senders s !! meta_id proto) (plain_new <$> session_proto_senders s !! meta_id proto)
        (meta_before_receive proto))).2.

(** [next_stream += 1] on a [usize]. *)
Definition usize_succ (n : nat) : nat := Z.to_nat (wrap 64 (n + 1)).

Definition open_protocol {E} (cx : Waker) (name version : bytes) (handle : tH T) : M St E unit :=
  s ← get;
  match protocol_configs_by_name s !! name with
  | None =>
      modify (set_state Abnormal);;
      event_output cx (SeProtocolSelectError (ctx_id (s_context s)) None)
  | Some proto =>
      if decide (is_Some (proto_streams s !! meta_id proto)) then mret ()
      else
        let '(sender, receiver) := channel (channel_size (s_config s)) in
        modify (λ s, set_substreams (<[next_stream s := buffer_new sender]> (substreams s)) s);;
        modify (λ s, set_proto_streams (<[meta_id proto := next_stream s]> (proto_streams s)) s);;
        modify (spawn (stream_task proto version handle receiver s));;
        modify (λ s, set_next_stream (usize_succ (next_stream s)) s)
  end.

Definition handle_stream_event {E} (cx : Waker) (event : ProtocolEvent (tH T)) : M St E unit :=
  s ← get;
  let id := ctx_id (s_context s) in
  match event with
  | PvOpen proto_name substream version => open_protocol cx proto_name version substream
  | PvClose id proto_id =>
      when (bool_decide (is_Some (substreams s !! id)))
        (modify (λ s, set_substreams (delete id (substreams s)) s);;
         modify (λ s, set_proto_streams (delete proto_id (proto_streams s)) s))
  | PvMessage _ => panic
  | PvSelectError proto_name => event_output cx (SeProtocolSelectError id proto_name)
  | PvError proto_id error => event_output cx (SeProtocolError id proto_id error)
  | PvTimeoutCheck =>
      when (bool_decide (substreams s = ∅))
        (event_output cx (SeSessionTimeout id);;
         modify (set_state LocalClose))
  end.

(** [close] on the receivers, and the task that closes the connection. *)
Definition clean {E} : M St E unit :=
  modify (set_substreams ∅);;
  modify (λ s, set_service_receiver (rx_close (service_receiver s)) s);;
  modify (λ s, set_proto_event_receiver (pr_close (proto_event_receiver s)) s);;
  modify (spawn TControlClose).

Definition close_session {E} : M St E unit :=
  modify (λ s, set_s_context (store_closed (s_context s)) s);;
  s ← get;
  let '(events, sender) := plain_take (service_sender s) in
  modify (set_service_sender sender);;
  modify (spawn (TServiceEvents (events ++ [SeSessionClose (ctx_id (s_context s))])));;
  clean.

Fixpoint close_protos {E} (cx : Waker) (ids : list nat) : M St E unit :=
  match ids with
  | [] => mret ()
  | id :: ids => on_buffer id (push_high (PvClose id 0));; buffer_send cx id;; close_protos cx ids
  end.

Definition close_all_proto {E} (cx : Waker) : M St E unit :=
  s ← get;
  if ctx_closed (s_context s) then close_session
  else
    close_protos cx (map_to_list (substreams s)).*1;;
    modify (λ s, set_s_context (store_closed (s_context s)) s).

Definition handle_session_event {E} (cx : Waker) (event : SessionEvent (tN T)) (priority : Priority) : M St E unit :=
  s ← get;
  match event with
  | SeProtocolMessage proto_id data =>
      match proto_streams s !! proto_id with
      | Some stream_id =>
          when (bool_decide (is_Some (substreams s !! stream_id)))
            (on_buffer stream_id (match priority with High => push_high (PvMessage data) | Normal => push_normal (PvMessage data) end);;
             buffer_send cx stream_id;; mret ())
      | None => mret ()
      end
  | SeSessionClose _ =>
      if decide (substreams s = ∅) then close_session
      else modify (set_state LocalClose);; close_all_proto cx
  | SeProtocolOpen proto_id =>
      if decide (is_Some (proto_streams s !! proto_id)) then mret ()
      else match protocol_configs_by_id s !! proto_id with
           | Some meta => open_proto_stream (meta_name meta)
           | None => mret ()
           end
  | SeProtocolClose proto_id =>
      match proto_streams s !! proto_id with
      | Some stream_id =>
          when (bool_decide (is_Some (substreams s !! stream_id)))
            (on_buffer stream_id (push_high (PvClose stream_id proto_id));; buffer_send cx stream_id;; mret ())
      | None => mret ()
      end
  | SeStreamStart stream => handle_substream stream
  | SeChangeState id state error =>
      when (is_normal (s_state s))
        (modify (set_state state);;
         match error with
         | Some err =>
             when (negb (s_keep_buffer s)) (modify (λ s, set_service_sender (plain_clear (service_sender s)) s));;
             event_output cx (SeMuxerError id err)
         | None => mret ()
         end)
  | _ => mret ()
  end.

Definition recv_substreams {E} (cx : Waker) : M St E (Poll (option unit)) :=
  s ← get;
  let '(p, rx) := pr_poll_next (proto_event_receiver s) in
  modify (set_proto_event_receiver rx);;
  match p with
  | Ready (Some event) =>
      if negb (is_local_close (s_state s)) then handle_stream_event cx event;; mret (Ready (Some ()))
      else mret (Ready None)
  | Ready None => modify (set_state LocalClose);; mret (Ready None)
  | Pending => mret Pending
  end.

Definition recv_service {E} (cx : Waker) : M St E (Poll (option unit)) :=
  s ← get;
  let '(p, rx) := rx_poll_next (service_receiver s) in
  modify (set_service_receiver rx);;
  match p with
  | Ready (Some (priority, event)) =>
      if negb (is_normal (s_state s)) then mret (Ready None)
      else handle_session_event cx event priority;; mret (Ready (Some ()))
  | Ready None => modify (set_state LocalClose);; clean;; mret (Ready None)
  | Pending => mret Pending
  end.

(** Each handle is told to stop (once) and polled; the pending ones are kept. *)
Definition poll_handles (hs : list (bool * tJ T)) : list (bool * tJ T) :=
  omap (λ '(_, h), let '(p, h) := poll_handle h in match p with Pending => Some (false, h) | Ready _ => None end) hs.

Definition wait_handle_poll {E} : M St E (Poll (option unit)) :=
  modify (λ s, set_wait_handle (poll_handles (wait_handle s)) s);;
  s ← get;
  mret (if wait_handle s is [] then Ready None else Pending).

Definition s_flush {E} (cx : Waker) : M St E unit :=
  distribute_to_substream cx;;
  s ← get;
  when (negb (plain_is_empty (service_sender s))) (s_output cx).

Definition s_poll_next {E} (proceed : bool) (cx : Waker) : M St E (Poll (option unit)) :=
  s ← get;
  if is_local_close (s_state s) then mret (Ready None)
  else
    s_flush cx;;
    if negb proceed then mret Pending
    else
      p1 ← recv_substreams cx;
      p2 ← recv_service cx;
      let rest := mret (if is_pending p1 && is_pending p2 then Pending else Ready (Some ())) in
      s ← get;
      match s_state s with
      | LocalClose | Abnormal =>
          modify (set_proto_streams ∅);;
          close_session;;
          wait_handle_poll
      | RemoteClose =>
          if decide (proto_streams s = ∅) then close_session;; wait_handle_poll
          else close_all_proto cx;; rest
      | NormalState => rest
      end.
End session.

(** ** [InnerSocket] *)

(** What a poll of the yamux session's task sends to the session (first, by
    [quick_send]), and whether the task goes on. *)
Definition inner_poll {N : NetTypes} (id : nat) (p : Poll (option (StreamHandle N + io.ErrorKind))) :
    option (SessionEvent N) * Poll (option unit) :=
  match p with
  | Ready (Some (inl stream)) => (Some (SeStreamStart stream), Ready (Some ()))
  | Ready None => (Some (SeChangeState id RemoteClose None), Ready None)
  | Pending => (None, Pending)
  | Ready (Some (inr err)) =>
      (Some (if connection_gone err then SeChangeState id RemoteClose None else SeChangeState id Abnormal (Some err)), Ready None)
  end.
