(* ===== verification/TentacleSessionFacts.v ===== *)
(** * The streams of a session, and its end

    Theorems on [TentacleSession.v]: the ids of the streams are never reused, a
    protocol has at most one stream, an event of an old stream does not touch a
    newer one; messages go to the stream of their protocol, in order; a session
    ends only after it is marked closed and the service was told. *)
From S2P Require Import Prelude Multiaddr SecioMessages Channel ChannelBound ChannelBoundFacts Buffer Framed Events Substream ProtocolHandle TentacleSession.

Section facts.
Context {T : SessTypes}.
Context {MP : MsgSender (tP T) (ProtocolEvent (tH T))} {MPL : MsgSenderLaws (tP T) (ProtocolEvent (tH T))}
  {MC : MsgSender (tCS T) (SessionEvent (tN T))} {MCL : MsgSenderLaws (tCS T) (SessionEvent (tN T))}
  {PR : PlainReceiver (tPR T) (ProtocolEvent (tH T))} {SR : EventReceiver (tSR T) (SessionEvent (tN T))}.
Context (reframe : nat → tH T → tS T) (split : tS T → tS T * tS T) (channel : Z → tP T * tR T)
  (poll_handle : tJ T → Poll unit * tJ T).
Abbreviation St := (Session T).
Implicit Types s : St.

(** ** The invariant *)

(** The streams that were started: their ids and protocols. *)
Definition stream_key (t : Task T) : option (nat * nat) :=
  match t with
  | TSubstream s => Some (sub_id (part s), sub_proto_id (part s))
  | TSplit w _ => Some (sub_id w, sub_proto_id w)
  | _ => None
  end.
Definition streams s : list (nat * nat) := omap stream_key (s_tasks s).

(** The counter has counted the streams, and is above their ids. *)
Definition fresh (next : nat) (l : list (nat * nat)) : Prop :=
  next = length l ∧ ∀ id p, (id, p) ∈ l → (id < next)%nat.

(** Another stream can be counted. *)
Definition few s : Prop := length (streams s) < 2 ^ 64 - 1.

Lemma usize_succ_few s : few s → usize_succ (length (streams s)) = Datatypes.S (length (streams s)).
Proof. rw /few /usize_succ /wrap => H. rw Z.mod_small; lia. Qed.

Record inv s : Prop := {
  iv_ids : NoDup (streams s).*1;
  iv_fresh : fresh (next_stream s) (streams s);
  iv_proto p id : proto_streams s !! p = Some id → (id, p) ∈ streams s;
  iv_live id : is_Some (substreams s !! id) → ∃ p, (id, p) ∈ streams s ∧ proto_streams s !! p = Some id;
}.

(** The configuration: every protocol of a session is found by its name. *)
Definition configured s : Prop :=
  ∀ p meta, protocol_configs_by_id s !! p = Some meta → is_Some (protocol_configs_by_name s !! meta_name meta).

(** The channels can count what is buffered and so many more events. *)
Definition sroom (n : nat) s : Prop := ms_room (plain_len (service_sender s) + n) (b_sender (service_sender s)).
Definition broom (m : nat) s : Prop := map_Forall (λ _ b, ms_room (buffer_len b + m) (sender b)) (substreams s).

(** What no step changes, or only in one direction. *)
Record adv s s' : Prop := {
  av_by_name : protocol_configs_by_name s' = protocol_configs_by_name s;
  av_by_id : protocol_configs_by_id s' = protocol_configs_by_id s;
  av_config : s_config s' = s_config s;
  av_id : ctx_id (s_context s') = ctx_id (s_context s);
  av_closed : ctx_closed (s_context s) = true → ctx_closed (s_context s') = true;
  av_tasks : ∃ new, s_tasks s' = s_tasks s ++ new;
}.

Lemma adv_refl s : adv s s.
Proof. split; try done. exists []. by rw app_nil_r. Qed.
Lemma adv_trans s1 s2 s3 : adv s1 s2 → adv s2 s3 → adv s1 s3.
Proof.
  intros [? ? ? ? ? [n1 H1]] [? ? ? ? ? [n2 H2]]. split; try congruence; [auto|]. exists (n1 ++ n2). by rw H2 H1 app_assoc.
Qed.

Record good (n m : nat) s : Prop := {
  gd_inv : inv s;
  gd_config : configured s;
  gd_service : sroom n s;
  gd_buffers : broom m s;
}.

(** A step that ends well. *)
Definition does {A} (n m : nat) s (r : Res Empty_set A) s' : Prop := (∃ a, r = Ok a) ∧ good n m s' ∧ adv s s'.

Lemma sroom_less n s : sroom (Datatypes.S n) s → sroom n s.
Proof.
  rw /sroom. replace (plain_len (service_sender s) + Datatypes.S n)%nat with (1 + (plain_len (service_sender s) + n))%nat by lia.
  apply ms_room_drop.
Qed.
Lemma broom_less m s : broom (Datatypes.S m) s → broom m s.
Proof.
  intros H id b Hb. specialize (H id b Hb). simpl in H. revert H.
  replace (buffer_len b + Datatypes.S m)%nat with (1 + (buffer_len b + m))%nat by lia. apply ms_room_drop.
Qed.
Lemma good_less n m s : good (Datatypes.S n) m s → good n m s.
Proof. intros []. split; try done. by apply sroom_less. Qed.
Lemma good_less_b n m s : good n (Datatypes.S m) s → good n m s.
Proof. intros []. split; try done. by apply broom_less. Qed.

(** ** Events to the service *)

(** Only the buffer to the service and the state changed. *)
Lemma inv_same s s' :
  inv s → s_tasks s' = s_tasks s → next_stream s' = next_stream s → proto_streams s' = proto_streams s →
  dom (substreams s') ⊆ dom (substreams s) → inv s'.
Proof.
  intros [] Ht Hn Hp Hs. split; rw /streams ?Ht ?Hn ?Hp; try done. intros id Hid. apply iv_live0.
  apply elem_of_dom, Hs, elem_of_dom, Hid.
Qed.

Lemma output_does cx n m s :
  good n m s → wp (s_output (E:=Empty_set) cx) (λ r s', does n m s r s' ∧ substreams s' = substreams s ∧
    proto_streams s' = proto_streams s ∧ s_tasks s' = s_tasks s ∧ (s_state s' = s_state s ∨ s_state s' = Abnormal)) s.
Proof.
  intros [Hi Hc Hs Hb]. rw /s_output. wp_step. rw {1}/wp /service_try_send.
  pose proof (plain_buffer_flush cx n _ Hs) as Hf. destruct (plain_try_send cx (service_sender s)) as [[r|e|] b]; [|done..].
  destruct Hf as [Hr (ms & lost & _ & _ & Hcase)]. cbn [fst snd].
  assert (∀ st b', ms_room (plain_len b' + n) (b_sender b') → does n m s (Ok () : Res Empty_set unit) (set_state st (set_service_sender b' s))) as Hdone.
  { intros st b' Hb'. split; [by eexists|]. split; [split; try done; by eapply inv_same|]. split; try done. exists []. by rw app_nil_r. }
  destruct r; wp_steps; try (split; [by apply (Hdone (s_state s))|]; by auto).
  split; [|by auto]. apply Hdone. simpl. rw /plain_len Hcase in Hr. done.
Qed.

Lemma event_output_does cx ev n m s :
  good (Datatypes.S n) m s → wp (event_output (E:=Empty_set) cx ev) (λ r s', does n m s r s' ∧ substreams s' = substreams s ∧
    proto_streams s' = proto_streams s ∧ s_tasks s' = s_tasks s ∧ (s_state s' = s_state s ∨ s_state s' = Abnormal)) s.
Proof.
  intros [Hi Hc Hs Hb]. rw /event_output. wp_step. wp_step. set (s1 := set_service_sender _ s).
  wp_apply (output_does cx n m s1).
  { split; try done; [by eapply inv_same|]. rw /sroom /plain_len /= length_app /=.
    by replace (length (b_buffer (service_sender s)) + 1 + n)%nat with (length (b_buffer (service_sender s)) + Datatypes.S n)%nat by lia. }
  intros r s' [(Hok & Hg & Ha) Hrest]. split; [|done]. split; [done|]. split; [done|]. eapply adv_trans; [|exact Ha].
  split; try done. exists []. by rw app_nil_r.
Qed.

(** ** Events to the streams *)

(** Only the contents of one buffer to a stream changed. *)
Definition only_buffer (id : nat) s s' : Prop :=
  ∃ m, s' = set_substreams m s ∧ dom m = dom (substreams s) ∧ ∀ j, j ≠ id → m !! j = substreams s !! j.

Lemma only_buffer_does id n m s s' :
  good n m s → only_buffer id s s' → (∀ b, substreams s' !! id = Some b → ms_room (buffer_len b + m) (sender b)) →
  good n m s' ∧ adv s s'.
Proof.
  intros [Hi Hc Hs Hr] (sub & -> & Hd & Ho) Hb. split; [split; try done|].
  - by eapply inv_same; try done; simpl; rw Hd.
  - intros j b. simpl. destruct (decide (j = id)) as [->|Hne]; [apply Hb|]. rw Ho //. apply Hr.
  - split; try done. exists []. by rw app_nil_r.
Qed.

Lemma only_buffer_refl id s : only_buffer id s s.
Proof. exists (substreams s). by destruct s. Qed.

Lemma only_buffer_trans id s1 s2 s3 : only_buffer id s1 s2 → only_buffer id s2 s3 → only_buffer id s1 s3.
Proof.
  intros (m1 & -> & H1 & Ho1) (m2 & -> & H2 & Ho2). exists m2. simpl in *. rw H2 H1. split; [done|]. split; [done|].
  intros j Hj. by rw Ho2 // Ho1.
Qed.

Lemma buffer_send_does cx id n m s :
  good n m s → wp (buffer_send (E:=Empty_set) cx id) (λ r s', does n m s r s' ∧ only_buffer id s s') s.
Proof.
  intros Hg. rw /wp /buffer_send. destruct (substreams s !! id) as [b|] eqn:Hb; simpl; last first.
  { split; [|apply only_buffer_refl]. split; [by eexists|]. split; [done|apply adv_refl]. }
  pose proof (gd_buffers _ _ _ Hg id b Hb) as Hr. destruct (buffer_flush_spec cx m b Hr) as (r & b' & -> & Hr' & _). simpl.
  assert (only_buffer id s (set_substreams (<[id:=b']> (substreams s)) s)) as Hsame.
  { eexists. split; [done|]. split; [by rw dom_insert_lookup_L|]. intros j Hj. by rw lookup_insert_ne. }
  split; [|done]. split; [by eexists|]. eapply only_buffer_does; [done..|]. simpl. rw lookup_insert_eq. by intros ? [= <-].
Qed.

Lemma on_buffer_does id f n m s :
  good n m s → (∀ b, substreams s !! id = Some b → ms_room (buffer_len (f b) + m) (sender (f b))) →
  wp (on_buffer (E:=Empty_set) id f) (λ r s', does n m s r s' ∧ only_buffer id s s') s.
Proof.
  intros Hg Hf. rw /on_buffer. wp_step. set (s' := set_substreams _ s).
  assert (only_buffer id s s') as Hsame.
  { eexists. split; [done|]. split; [apply dom_alter_L|]. intros j Hj. by rw lookup_alter_ne. }
  split; [|done]. split; [by eexists|]. eapply only_buffer_does; [done..|]. simpl. rw lookup_alter_eq.
  intros b (b0 & Hb0 & ->)%fmap_Some. by apply Hf.
Qed.

Lemma room_push_buffer (p : Priority) ev m (b : PriorityBuffer (tP T) (ProtocolEvent (tH T))) :
  ms_room (buffer_len b + Datatypes.S m) (sender b) →
  ms_room (buffer_len (match p with High => push_high ev | Normal => push_normal ev end b) + m)
    (sender (match p with High => push_high ev | Normal => push_normal ev end b)).
Proof.
  replace (buffer_len b + Datatypes.S m)%nat with (buffer_len (match p with High => push_high ev | Normal => push_normal ev end b) + m)%nat; [by destruct p|].
  destruct p; rw /buffer_len /= length_app /=; lia.
Qed.

Lemma does_app {A B} n m n' m' s1 s2 s3 (r : Res Empty_set A) (r' : Res Empty_set B) :
  does n m s1 r s2 → does n' m' s2 r' s3 → does n' m' s1 r' s3.
Proof. intros (_ & _ & Ha) (? & ? & Hb). split; [done|]. split; [done|]. by eapply adv_trans. Qed.

(** Pushing an event to a stream, and flushing its buffer. *)
Lemma push_send_does {A} cx id p ev (k : M St Empty_set A) n m s Q :
  good n m s → (∀ b, substreams s !! id = Some b → ms_room (buffer_len b + Datatypes.S m) (sender b)) →
  (∀ s', does n m s (Ok () : Res Empty_set unit) s' → only_buffer id s s' → wp k Q s') →
  wp (on_buffer (E:=Empty_set) id (match p with High => push_high ev | Normal => push_normal ev end);; buffer_send cx id;; k) Q s.
Proof.
  intros Hg Hr Hk. wp_step. wp_apply (on_buffer_does id _ n m s Hg); [by intros b Hb; apply room_push_buffer, Hr|].
  intros r s1 [H1 Hs1]. destruct (H1) as ([u ->] & Hg1 & _). wp_step. wp_apply (buffer_send_does cx id n m s1 Hg1).
  intros r s2 [H2 Hs2]. destruct (H2) as ([u2 ->] & Hg2 & Ha2). apply Hk; [|by eapply only_buffer_trans].
  eapply does_app; [exact H1|]. split; [by eexists|done].
Qed.

Lemma distribute_does cx ids n m s :
  good (Datatypes.S n) m s →
  wp (distribute (E:=Empty_set) cx ids) (λ r s', does n m s r s' ∧ dom (substreams s') = dom (substreams s) ∧
    proto_streams s' = proto_streams s ∧ s_tasks s' = s_tasks s ∧ (s_state s' = s_state s ∨ s_state s' = Abnormal)) s.
Proof.
  revert s. induction ids as [|id ids IH]; intros s Hg; cbn [distribute].
  { wp_step. split; [|by auto]. split; [by eexists|]. split; [by apply good_less|apply adv_refl]. }
  do 2 wp_step. case_match; [by apply IH|]. wp_step. wp_apply (buffer_send_does cx id _ m s Hg).
  intros r s1 [H1 Hs1]. destruct (H1) as ([u ->] & Hg1 & Ha1). destruct (Hs1) as (sub & Heq & Hd & _).
  assert (dom (substreams s1) = dom (substreams s) ∧ proto_streams s1 = proto_streams s ∧ s_tasks s1 = s_tasks s ∧ s_state s1 = s_state s)
    as (Hd1 & Hp1 & Ht1 & Hst1) by by rw Heq.
  assert (wp (distribute (E:=Empty_set) cx ids) (λ r s', does n m s r s' ∧ dom (substreams s') = dom (substreams s) ∧
    proto_streams s' = proto_streams s ∧ s_tasks s' = s_tasks s ∧ (s_state s' = s_state s ∨ s_state s' = Abnormal)) s1) as Hrest.
  { wp_apply (IH s1 Hg1). rw Hd1 Hp1 Ht1 Hst1. intros r s2 [H2 ?]. split; [by eapply does_app|done]. }
  destruct u; [done| |done]. do 2 wp_step. wp_step; last first.
  { split; [|by rw Hd1 Hp1 Ht1 Hst1; auto]. split; [by eexists|]. split; [by apply good_less|done]. }
  wp_step. wp_step. wp_step. set (s2 := set_state Abnormal s1).
  assert (good (Datatypes.S n) m s2 ∧ adv s1 s2) as [Hg2 Ha2].
  { split; [destruct Hg1; split; try done; by eapply inv_same|]. split; try done. exists []. by rw app_nil_r. }
  wp_apply (on_buffer_does id buffer_clear (Datatypes.S n) m s2 Hg2).
  { intros b Hb. by apply (ms_room_drop m (buffer_len b)), (gd_buffers _ _ _ Hg2 id b). }
  intros r s3 [H3 (sub3 & Heq3 & Hd3 & _)]. destruct (H3) as ([u ->] & Hg3 & _).
  wp_apply (event_output_does cx _ n m s3 Hg3). rw Heq3. simpl. intros r s4 (H4 & Hs4 & Hp4 & Ht4 & Hst4).
  rw Hs4 Hp4 Ht4 Hd3 Hp1 Ht1 /s2 /= Hd1. split; [|by destruct Hst4; auto]. eapply does_app; [exact H1|].
  apply (does_app n m n m s1 s3 s4 (Ok ()) r); [|by rw Heq3]. split; [by eexists|]. split; [by apply good_less|].
  eapply adv_trans; [exact Ha2|apply H3].
Qed.

Lemma s_flush_does cx n m s :
  good (Datatypes.S n) m s →
  wp (s_flush (E:=Empty_set) cx) (λ r s', does n m s r s' ∧ proto_streams s' = proto_streams s ∧ s_tasks s' = s_tasks s ∧
    (s_state s' = s_state s ∨ s_state s' = Abnormal)) s.
Proof.
  intros Hg. rw /s_flush /distribute_to_substream. do 3 wp_step. wp_apply (distribute_does cx _ n m s Hg).
  intros r s1 (H1 & _ & Hp1 & Ht1 & Hs1). destruct (H1) as ([[] ->] & Hg1 & _). do 2 wp_step. wp_step; [|done].
  wp_apply (output_does cx n m s1 Hg1). intros r s2 (H2 & _ & Hp2 & Ht2 & Hs2).
  split; [by eapply does_app|]. rw Hp2 Ht2. split; [done|]. split; [done|]. destruct Hs2 as [-> | ->]; auto.
Qed.

(** ** Closing *)

(** The service is told that the session closed: a task sends all that [s] had
    buffered for it, and then the end. *)
Definition told_close s s' : Prop :=
  s_tasks s' = s_tasks s ++
    [TServiceEvents (b_buffer (service_sender s) ++ [SeSessionClose (ctx_id (s_context s))]); TControlClose] ∧
  b_buffer (service_sender s') = [].

(** Closing needs no buffers, so that it may follow the reset of the streams. *)
Lemma close_session_does n m s :
  NoDup (streams s).*1 → fresh (next_stream s) (streams s) →
  (∀ p id, proto_streams s !! p = Some id → (id, p) ∈ streams s) → configured s → sroom n s →
  wp (close_session (E:=Empty_set)) (λ r s', does n m s r s' ∧ s_state s' = s_state s ∧ ctx_closed (s_context s') = true ∧
    told_close s s' ∧ substreams s' = ∅ ∧ proto_streams s' = proto_streams s) s.
Proof.
  intros H1 H2 H3 Hc Hs. rw /close_session. wp_step. wp_step. do 2 wp_step. cbn [plain_take]. wp_step. wp_step. wp_step. wp_step.
  rw /clean. wp_steps. set (s' := spawn TControlClose _).
  assert (s_tasks s' = s_tasks s ++ [TServiceEvents (b_buffer (service_sender s) ++ [SeSessionClose (ctx_id (s_context s))]); TControlClose]) as Ht.
  { rw /s' /=. by rewrite <-app_assoc. }
  assert (streams s' = streams s) as Hst by by rw /streams Ht omap_app /= app_nil_r.
  split; [|split; [done|split; [done|split; [|done]]]].
  - split; [by eexists|]. split; [split; try done|split; try done; by eexists].
    + split; rw ?Hst; try done. intros id [b Hb]. by rw /s' /= lookup_empty in Hb.
    + rw /sroom /=. by apply (ms_room_drop n (plain_len (service_sender s))).
  - split; [exact Ht|done].
Qed.

Lemma close_session_good n m s :
  good n m s → wp (close_session (E:=Empty_set)) (λ r s', does n m s r s' ∧ s_state s' = s_state s ∧
    ctx_closed (s_context s') = true ∧ told_close s s' ∧ substreams s' = ∅ ∧ proto_streams s' = proto_streams s) s.
Proof. intros [[] ? ? ?]. by apply close_session_does. Qed.

Lemma close_protos_does cx ids n m s :
  NoDup ids → good n m s → (∀ id b, id ∈ ids → substreams s !! id = Some b → ms_room (buffer_len b + Datatypes.S m) (sender b)) →
  wp (close_protos (E:=Empty_set) cx ids) (λ r s', does n m s r s' ∧ ∃ sub, s' = set_substreams sub s ∧ dom sub = dom (substreams s)) s.
Proof.
  revert s. induction ids as [|id ids IH]; intros s Hnd Hg Hr; cbn [close_protos].
  { wp_step. split; [split; [by eexists|split; [done|apply adv_refl]]|]. exists (substreams s). by destruct s. }
  apply NoDup_cons in Hnd as [Hni Hnd].
  apply (push_send_does cx id High (PvClose id 0) _ n m s); [done|intros b Hb; apply (Hr id); [set_solver|done]|].
  intros s1 H1 (sub & Heq & Hd & Ho). wp_apply (IH s1 Hnd); [apply H1| |].
  { intros j b Hj. rw Heq /= Ho; [|set_solver]. apply Hr. set_solver. }
  intros r s2 [H2 (sub2 & Heq2 & Hd2)]. split; [by eapply does_app|]. exists sub2. rw Heq2 Heq. split; [done|].
  rw Heq /= in Hd2. by rw Hd2.
Qed.

Lemma close_all_proto_does cx n m s :
  good n (Datatypes.S m) s → wp (close_all_proto (E:=Empty_set) cx) (λ r s', does n m s r s' ∧ s_state s' = s_state s ∧
    proto_streams s' = proto_streams s ∧ ctx_closed (s_context s') = true) s.
Proof.
  intros Hg. rw /close_all_proto. do 2 wp_step. destruct (ctx_closed (s_context s)) eqn:Hc.
  { wp_apply (close_session_good n m s); [by apply good_less_b|]. intros r s' (H & Hst & Hcl & _ & _ & Hp). done. }
  wp_step. wp_apply (close_protos_does cx _ n m s); [apply NoDup_fst_map_to_list|by apply good_less_b| |].
  { intros id b _ Hb. apply (gd_buffers _ _ _ Hg id b Hb). }
  intros r s1 [H1 (sub & Heq & Hd)]. destruct (H1) as ([u ->] & Hg1 & _). wp_step. rw Heq. simpl.
  split; [|done]. eapply does_app; [exact H1|]. rw Heq in Hg1 |- *. split; [by eexists|]. destruct Hg1. split.
  - split; try done. by eapply inv_same.
  - split; try done. exists []. by rw app_nil_r.
Qed.

(** ** Opening and the events of the streams *)

(** The room of a new channel. *)
Definition channel_room (m : nat) : Prop := ∀ size, ms_room m (channel size).1.

Lemma stream_task_key proto version handle receiver s :
  stream_key (stream_task reframe split proto version handle receiver s) = Some (next_stream s, meta_id proto).
Proof. rw /stream_task. destruct (meta_spawn proto); [by destruct (split _)|done]. Qed.

(** Only the state changed. *)
Lemma set_state_does st n m s : good n m s → good n m (set_state st s) ∧ adv s (set_state st s).
Proof.
  intros []. split; [split; try done; by eapply inv_same|]. split; try done. exists []. by rw app_nil_r.
Qed.

Lemma streams_unique s id p q : inv s → (id, p) ∈ streams s → (id, q) ∈ streams s → p = q.
Proof.
  intros [Hnd _ _ _] Hp Hq. apply list_elem_of_lookup in Hp as [i Hi], Hq as [j Hj].
  assert (i = j) as ->; [|congruence].
  eapply (NoDup_lookup _ _ _ id Hnd); rw list_lookup_fmap; [by rw Hi|by rw Hj].
Qed.

Lemma open_protocol_does cx name version handle n m s :
  channel_room m → few s → good (Datatypes.S n) m s →
  wp (open_protocol (E:=Empty_set) reframe split channel cx name version handle) (λ r s', does n m s r s') s.
Proof.
  intros Hch Hfew Hg. rw /open_protocol. do 2 wp_step. destruct (protocol_configs_by_name s !! name) as [proto|]; last first.
  { do 2 wp_step. destruct (set_state_does Abnormal _ _ _ Hg) as [Hg1 Ha1].
    wp_apply (event_output_does cx _ n m _ Hg1). intros r s' [(Hr & Hg' & Ha') _]. split; [done|]. split; [done|].
    by eapply adv_trans. }
  case_decide as Hopen; [wp_step; split; [by eexists|split; [by apply good_less|apply adv_refl]]|].
  pose proof (Hch (channel_size (s_config s))) as Hroom. destruct (channel _) as [sender receiver]. simpl in Hroom. wp_steps.
  set (s' := set_next_stream _ _). destruct Hg as [[Hnd [Hnext Hfr] Hpr Hlv] Hc Hs Hb]. pose proof (sroom_less _ _ Hs) as Hs'.
  assert (s_tasks s' = s_tasks s ++ [stream_task reframe split proto version handle receiver s]) as Ht by done.
  assert (streams s' = streams s ++ [(next_stream s, meta_id proto)]) as Hst by by rw /streams Ht omap_app /= stream_task_key.
  split; [by eexists|]. split; [split; try done|split; try done; by eexists].
  - split; rw ?Hst.
    + rw fmap_app /=. apply NoDup_app. split; [done|]. split; [|apply NoDup_singleton].
      intros i ([i' p] & -> & Hi)%list_elem_of_fmap Heq%list_elem_of_singleton. simpl in Heq. specialize (Hfr _ _ Hi). lia.
    + assert (next_stream s' = Datatypes.S (next_stream s)) as Hn by (rw /s' /= Hnext; by apply usize_succ_few).
      rw /fresh Hn length_app Hnext /= Nat.add_1_r. split; [done|].
      intros id p [Hin%Hfr | [= -> ->]%list_elem_of_singleton]%elem_of_app; lia.
    + intros p id. simpl. destruct (decide (p = meta_id proto)) as [->|Hne].
      * rw lookup_insert_eq. intros [= <-]. set_solver.
      * rw lookup_insert_ne //. intros ?%Hpr. set_solver.
    + intros id. simpl. destruct (decide (id = next_stream s)) as [->|Hne].
      * intros _. exists (meta_id proto). rw lookup_insert_eq. set_solver.
      * rw lookup_insert_ne //. intros (p & Hin & Hp)%Hlv. exists p. split; [set_solver|].
        rw lookup_insert_ne //. intros <-. apply Hopen. by eexists.
  - intros id b. simpl. destruct (decide (id = next_stream s)) as [->|Hne].
    + rw lookup_insert_eq. by intros [= <-].
    + rw lookup_insert_ne //. apply Hb.
Qed.

(** The events that streams send: a close names a stream that was started. *)
Definition genuine s (event : ProtocolEvent (tH T)) : Prop :=
  match event with PvMessage _ => False | PvClose id p => (id, p) ∈ streams s | _ => True end.

Lemma close_stream_inv id p s :
  inv s → is_Some (substreams s !! id) → (id, p) ∈ streams s →
  inv (set_proto_streams (delete p (proto_streams s)) (set_substreams (delete id (substreams s)) s)).
Proof.
  intros Hi Hid Hin. destruct (Hi) as [Hnd Hfr Hpr Hlv]. destruct (Hlv id Hid) as (q & Hq & Hpq).
  pose proof (streams_unique _ _ _ _ Hi Hin Hq) as <-. split; simpl; try done.
  - intros r j [_ Hr]%lookup_delete_Some. by apply Hpr.
  - intros j [b [Hne Hj]%lookup_delete_Some]. destruct (Hlv j) as (r & Hr & Hpr'); [by eexists|]. exists r. split; [done|].
    rw lookup_delete_ne //. intros ->. congruence.
Qed.

Lemma handle_stream_event_does cx event n m s :
  channel_room m → few s → genuine s event → good (Datatypes.S n) m s →
  wp (handle_stream_event (E:=Empty_set) reframe split channel cx event) (λ r s', does n m s r s') s.
Proof.
  intros Hch Hfew Hgen Hg. assert (does n m s (Ok () : Res Empty_set unit) s) as Hsame.
  { split; [by eexists|]. split; [by apply good_less|apply adv_refl]. }
  assert (∀ ev, wp (event_output (E:=Empty_set) cx ev) (λ r s', does n m s r s') s) as Hout.
  { intros ev. wp_apply (event_output_does cx ev n m s Hg). by intros r s' [? _]. }
  rw /handle_stream_event. do 2 wp_step. destruct event as [name h v|id p|d|name|p e|]; try done.
  - by apply open_protocol_does.
  - wp_step; [|done]. apply bool_decide_eq_true in H. wp_steps. split; [by eexists|]. destruct Hg as [Hi Hc Hs Hb]. split.
    + split; [exact (close_stream_inv id p s Hi H Hgen)|done|by apply sroom_less|].
      intros j b. simpl. intros [_ Hj]%lookup_delete_Some. by apply (Hb j b).
    + split; try done. exists []. by rw app_nil_r.
  - wp_step; [|done]. wp_step. wp_apply (Hout (SeSessionTimeout (ctx_id (s_context s)))). intros r s1 H1.
    destruct (H1) as ([u ->] & Hg1 & _). wp_step. eapply does_app; [exact H1|]. split; [by eexists|]. by apply set_state_does.
Qed.

(** ** The service's events *)

Lemma handle_session_event_does cx event p n m s :
  good (Datatypes.S n) (Datatypes.S m) s →
  wp (handle_session_event (E:=Empty_set) cx event p) (λ r s', does n m s r s') s.
Proof.
  intros Hg. pose proof (good_less _ _ _ Hg) as Hg1. pose proof (good_less_b _ _ _ Hg1) as Hg0.
  assert (does n m s (Ok () : Res Empty_set unit) s) as Hsame by (split; [by eexists|]; split; [done|apply adv_refl]).
  assert (∀ t, stream_key t = None → does n m s (Ok () : Res Empty_set unit) (spawn t s)) as Hspawn.
  { intros t Ht. split; [by eexists|]. destruct Hg0 as [[Hnd Hfr Hpr Hlv] ? ? ?]. split; [|split; try done; by eexists].
    assert (streams (spawn t s) = streams s) as Hst by by rw /streams /= omap_app /= Ht app_nil_r.
    split; try done. by split; rw ?Hst. }
  assert (∀ id q ev, wp (on_buffer (E:=Empty_set) id (match q with High => push_high ev | Normal => push_normal ev end);; buffer_send cx id;; mret ())
    (λ r s', does n m s r s') s) as Hpush.
  { intros id q ev. apply (push_send_does cx id q ev _ n m s _ Hg0).
    - intros b Hb. apply (gd_buffers _ _ _ Hg id b Hb).
    - intros s' Hs' _. by wp_step. }
  rw /handle_session_event. do 2 wp_step. destruct event; try done.
  - case_decide; [wp_apply (close_session_good n m s Hg0); by intros r s' [? _]|]. do 2 wp_step.
    destruct (set_state_does LocalClose _ _ _ Hg1) as [Hg2 Ha2]. wp_apply (close_all_proto_does cx n m _ Hg2).
    intros r s' [(Hr & Hg' & Ha') _]. split; [done|]. split; [done|]. by eapply adv_trans.
  - destruct (proto_streams s !! proto_id) as [id|]; [|done]. wp_step; [|done]. apply (Hpush id p).
  - case_decide; [done|]. destruct (protocol_configs_by_id s !! proto_id) as [meta|] eqn:Hm; [|done].
    rw /open_proto_stream. do 2 wp_step. destruct (gd_config _ _ _ Hg _ _ Hm) as [meta' ->]. wp_step. by apply Hspawn.
  - destruct (proto_streams s !! proto_id) as [id|]; [|done]. wp_step; [|done]. apply (Hpush id High).
  - rw /handle_substream. do 3 wp_step. by apply Hspawn.
  - wp_step; [|done]. do 2 wp_step. destruct (set_state_does state _ _ _ Hg1) as [Hg2 Ha2].
    destruct (set_state_does state _ _ _ Hg) as [Hg3 _]. destruct error as [err|]; last first.
    { wp_step. split; [by eexists|]. split; [by apply good_less_b|done]. }
    wp_step. eapply (wp_mono _ (λ r s1, r = Ok () ∧ good (Datatypes.S n) m s1 ∧ adv s s1)).
    { assert (good (Datatypes.S n) m (set_state state s)) as Hg4 by by apply good_less_b. wp_step; [|done]. wp_step. split; [done|]. destruct Hg4. split.
      - split; try done; [by eapply inv_same|]. rw /sroom /=. by apply (ms_room_drop _ (plain_len (service_sender s))).
      - split; try done. exists []. by rw app_nil_r. }
    intros r s1 (-> & Hg4 & Ha4). wp_apply (event_output_does cx _ n m s1 Hg4). intros r s' [(Hr & Hg' & Ha') _].
    split; [done|]. split; [done|]. by eapply adv_trans.
Qed.

Lemma recv_service_does cx n m s :
  good (Datatypes.S n) (Datatypes.S m) s →
  wp (recv_service (E:=Empty_set) cx) (λ r s', does n m s r s') s.
Proof.
  intros Hg. rw /recv_service. do 2 wp_step. destruct (rx_poll_next (service_receiver s)) as [p rx]. wp_step. wp_step.
  set (s1 := set_service_receiver rx s).
  assert (good (Datatypes.S n) (Datatypes.S m) s1 ∧ adv s s1) as [Hg1 Ha1].
  { destruct Hg. split; [split; try done; by eapply inv_same|]. split; try done. exists []. by rw app_nil_r. }
  assert (∀ a : Poll (option unit), does n m s (Ok a : Res Empty_set _) s1) as Hsame.
  { intros a. split; [by eexists|]. split; [by apply good_less_b, good_less|done]. }
  destruct p as [[[priority event]|]|]; [|..|by wp_step].
  - case_match; [by wp_step|]. wp_step. wp_apply (handle_session_event_does cx event priority n m s1 Hg1).
    intros r s2 ([u ->] & Hg2 & Ha2). wp_step. split; [by eexists|]. split; [done|]. by eapply adv_trans.
  - rw /clean. wp_steps. set (s2 := spawn TControlClose _). split; [by eexists|]. destruct Hg1 as [[Hnd Hfr Hpr Hlv] Hc Hs Hb].
    assert (streams s2 = streams s1) as Hst by by rw /streams /= omap_app /= app_nil_r.
    split; [split; try done|].
    + split; rw ?Hst; try done. intros id [b Hb']. by rw /= lookup_empty in Hb'.
    + by apply sroom_less.
    + eapply adv_trans; [exact Ha1|]. split; try done. by eexists.
Qed.

Lemma recv_substreams_does cx n m s :
  channel_room m → few s → (∀ event rx, pr_poll_next (proto_event_receiver s) = (Ready (Some event), rx) → genuine s event) →
  good (Datatypes.S n) m s →
  wp (recv_substreams (E:=Empty_set) reframe split channel cx) (λ r s', does n m s r s') s.
Proof.
  intros Hch Hfew Hgen Hg. rw /recv_substreams. do 2 wp_step. destruct (pr_poll_next (proto_event_receiver s)) as [p rx] eqn:Hrx. wp_step. wp_step.
  set (s1 := set_proto_event_receiver rx s).
  assert (good (Datatypes.S n) m s1 ∧ adv s s1) as [Hg1 Ha1].
  { destruct Hg. split; [split; try done; by eapply inv_same|]. split; try done. exists []. by rw app_nil_r. }
  assert (∀ a : Poll (option unit), does n m s (Ok a : Res Empty_set _) s1) as Hsame.
  { intros a. split; [by eexists|]. split; [by apply good_less|done]. }
  destruct p as [[event|]|]; [|..|by wp_step].
  - case_match; [|by wp_step]. wp_step. wp_apply (handle_stream_event_does cx event n m s1 Hch Hfew); [by eapply Hgen|done|].
    intros r s2 ([u ->] & Hg2 & Ha2). wp_step. split; [by eexists|]. split; [done|]. by eapply adv_trans.
  - do 3 wp_step. split; [by eexists|]. destruct (set_state_does LocalClose _ _ _ (good_less _ _ _ Hg1)). split; [done|]. by eapply adv_trans.
Qed.

(** ** A poll *)

Lemma s_flush_receiver cx rx : preserves (λ s, proto_event_receiver s = rx) (s_flush (E:=Empty_set) cx).
Proof.
  assert (preserves (λ s, proto_event_receiver s = rx) (s_output (E:=Empty_set) cx)) as Hout.
  { rw /s_output. preserves; try by apply preserves_modify.
    intros s Hs. rw /service_try_send. by destruct (plain_try_send _ _) as [[] ?]. }
  assert (∀ ids, preserves (λ s, proto_event_receiver s = rx) (distribute (E:=Empty_set) cx ids)) as Hdist.
  { induction ids as [|id ids IH]; cbn [distribute]; [apply preserves_ret|]. rw /event_output /on_buffer.
    preserves; try done; try by apply preserves_modify.
    intros s Hs. rw /buffer_send. destruct (substreams s !! id); [|done]. by destruct (buffer_try_send _ _) as [[] ?]. }
  rw /s_flush /distribute_to_substream. preserves; try done.
Qed.

(** The session can be polled: its channels can count, it has started fewer than
    [2^64 - 1] streams, and its streams' events are genuine. *)
Definition session_pollable s : Prop :=
  sroom 3 s ∧ broom 2 s ∧ few s ∧ ∀ event rx, pr_poll_next (proto_event_receiver s) = (Ready (Some event), rx) → genuine s event.

(** The part of a poll that may find out that the session ends. *)
Definition s_receive (cx : Waker) : M St Empty_set (Poll (option unit)) :=
  s_flush cx;; recv_substreams reframe split channel cx;; recv_service cx.

(** A poll ended the session: it is marked closed, and the service is told, after
    what was buffered for it when the end was found out. *)
Definition ended_by (cx : Waker) s s' : Prop :=
  ctx_closed (s_context s') = true ∧ ctx_id (s_context s') = ctx_id (s_context s) ∧ told_close (s_receive cx s).2 s'.

(** The result of a poll. *)
Definition session_polled cx s (p : Poll (option unit)) s' : Prop :=
  good 0 0 s' ∧ adv s s' ∧
  (s_state s = LocalClose → s' = s ∧ p = Ready None) ∧
  (s_state s ≠ LocalClose → p = Ready None ∨ s_state s' = LocalClose → ended_by cx s s').

Lemma wait_handle_does n m s :
  good n m s → wp (wait_handle_poll (E:=Empty_set) poll_handle) (λ r s', does n m s r s' ∧ s_context s' = s_context s ∧ s_state s' = s_state s ∧
    s_tasks s' = s_tasks s ∧ service_sender s' = service_sender s) s.
Proof.
  intros []. rw /wait_handle_poll. wp_step. wp_step. do 3 wp_step. split; [|done]. split; [by eexists|].
  split; [split; try done; by eapply inv_same|]. split; try done. exists []. by rw app_nil_r.
Qed.

Lemma finish_does n m s :
  NoDup (streams s).*1 → fresh (next_stream s) (streams s) →
  (∀ p id, proto_streams s !! p = Some id → (id, p) ∈ streams s) → configured s → sroom n s →
  wp (close_session (E:=Empty_set);; wait_handle_poll poll_handle) (λ r s', does n m s r s' ∧ ctx_closed (s_context s') = true ∧ told_close s s') s.
Proof.
  intros H1 H2 H3 H4 H5. wp_step. wp_apply (close_session_does n m s H1 H2 H3 H4 H5). intros r s1 (Hd & _ & Hcl & Htold & _).
  destruct (Hd) as ([u ->] & Hg & _). wp_apply (wait_handle_does n m s1 Hg). intros r s2 (Hd2 & Hc2 & _ & Ht2 & Hs2).
  split; [by eapply does_app|]. rw Hc2. split; [done|]. by rw /told_close Ht2 Hs2.
Qed.

Lemma s_poll_next_spec proceed cx s :
  channel_room 2 → inv s → configured s → session_pollable s →
  wp (s_poll_next (E:=Empty_set) reframe split channel poll_handle proceed cx) (λ r s', ∃ p, r = Ok p ∧ session_polled cx s p s') s.
Proof.
  intros Hch Hi Hcf (Hsr & Hbr & Hfew & Hgen). assert (good 3 2 s) as Hg by done. rw /s_poll_next. do 2 wp_step. rw /is_local_close. case_bool_decide as Hst.
  { wp_step. exists (Ready None). split; [done|]. split; [|split; [apply adv_refl|done]].
    by do 3 apply good_less; do 2 apply good_less_b. }
  wp_step. eapply wp_mono.
  { apply wp_eqn, wp_and; [apply (s_flush_does cx 2 2 s Hg)|apply (wp_preserves _ _ _ (s_flush_receiver cx (proto_event_receiver s)) eq_refl)]. }
  intros r s1 [[(H1 & Hp1 & Ht1 & Hs1) Hrx1] He1]. destruct (H1) as ([u ->] & Hg1 & Ha1).
  assert (s_state s1 ≠ LocalClose) as Hst1 by by destruct Hs1 as [-> | ->].
  destruct proceed; cbn [negb]; last first.
  { wp_step. exists Pending. split; [done|]. split; [by do 2 apply good_less; do 2 apply good_less_b|]. split; [done|]. split; [done|]. by intros _ []. }
  wp_step. eapply wp_mono; [apply wp_eqn, (recv_substreams_does cx 1 2 s1 Hch); [by rw /few /streams Ht1| |done]|].
  { rw Hrx1. intros ev rx Hev. specialize (Hgen ev rx Hev). rw /genuine /streams Ht1. exact Hgen. }
  intros r s2 [H2 He2]. destruct (H2) as ([p1 ->] & Hg2 & _). pose proof (does_app _ _ _ _ _ _ _ _ _ H1 H2) as H12.
  wp_step. eapply wp_mono; [apply wp_eqn, (recv_service_does cx 0 1 s2 Hg2)|]. intros r s3 [H3 He3]. destruct (H3) as ([p2 ->] & Hg3 & _).
  assert ((s_receive cx s).2 = s3) as Hrecv
    by (rw /s_receive (M_bind_Ok _ _ _ _ _ He1) (M_bind_Ok _ _ _ _ _ He2) He3; done).
  pose proof (does_app _ _ _ _ _ _ _ _ _ H12 H3) as (_ & _ & Ha3). do 2 wp_step.
  assert (∀ m : M St Empty_set (Poll (option unit)), wp m (λ r s', does 0 0 s3 r s' ∧ ctx_closed (s_context s') = true ∧ told_close s3 s') s3 →
    wp m (λ r s', ∃ p, r = Ok p ∧ session_polled cx s p s') s3) as Hfin.
  { intros mm Hm. eapply wp_mono; [exact Hm|]. intros r s4 (([p ->] & Hg4 & Ha4) & Hc4 & Ht4). exists p. split; [done|].
    split; [done|]. split; [by eapply adv_trans|]. split; [done|]. intros _ _.
    split; [done|]. rw Hrecv. split; [|done]. by rw (av_id _ _ Ha4) (av_id _ _ Ha3). }
  assert (∀ b s4, does 0 0 s3 (Ok () : Res Empty_set unit) s4 → s_state s4 ≠ LocalClose → wp (E:=Empty_set) (mret (if b : bool then Pending else Ready (Some ())))
    (λ r s', ∃ p, r = Ok p ∧ session_polled cx s p s') s4) as Hrest.
  { intros b s4 (_ & Hg4 & Ha4) Hs4. wp_step. eexists. split; [done|]. split; [done|]. split; [by eapply adv_trans|]. split; [done|].
    intros _ [Hp | ?]; [|done]. by destruct b. }
  destruct (Hg3) as [[Hnd Hfr Hpr Hlv] Hc Hs Hb].
  assert (wp (modify (set_proto_streams ∅);; close_session (E:=Empty_set);; wait_handle_poll poll_handle)
    (λ r s', ∃ p, r = Ok p ∧ session_polled cx s p s') s3) as Hend.
  { apply Hfin. do 2 wp_step. wp_apply (finish_does 0 0 (set_proto_streams ∅ s3)); [done..| |done|done|].
    - intros p id. by rw /= lookup_empty.
    - intros r s4 ((Hr & Hg4 & Ha4) & Hc4 & Ht4). split; [|done]. split; [done|]. split; [done|].
      eapply adv_trans; [|exact Ha4]. split; try done. exists []. by rw app_nil_r. }
  destruct (s_state s3) eqn:Hst3; [|done| |done].
  - case_decide; [by apply Hfin, finish_does|]. wp_step. wp_apply (close_all_proto_does cx 0 0 s3 Hg3).
    intros r s4 (H4 & Hst4 & _). destruct (H4) as ([[] ->] & _). apply Hrest; [done|]. by rw Hst4 Hst3.
  - apply Hrest; [|by rw Hst3]. split; [by eexists|]. split; [by apply good_less_b|apply adv_refl].
Qed.

(** ** Runs *)

(** Between two polls the channels, the counter of the context and the handles
    change, and the flag [closed] may be set. *)
Record session_env s s' : Prop := {
  se_by_name : protocol_configs_by_name s' = protocol_configs_by_name s;
  se_by_id : protocol_configs_by_id s' = protocol_configs_by_id s;
  se_state : s_state s' = s_state s;
  se_id : ctx_id (s_context s') = ctx_id (s_context s);
  se_closed : ctx_closed (s_context s) = true → ctx_closed (s_context s') = true;
  se_next : next_stream s' = next_stream s;
  se_buffers : (λ b, (high_buffer b, normal_buffer b)) <$> substreams s' = (λ b, (high_buffer b, normal_buffer b)) <$> substreams s;
  se_protos : proto_streams s' = proto_streams s;
  se_tasks : s_tasks s' = s_tasks s;
}.

Inductive session_run s0 : St → Prop :=
| session_start : session_run s0 s0
| session_poll s s1 s2 proceed cx p :
    session_run s0 s → session_env s s1 → session_pollable s1 →
    s_poll_next (E:=Empty_set) reframe split channel poll_handle proceed cx s1 = (Ok p, s2) → session_run s0 s2.

(** The service was told of the end by a poll, from [sa] to [sb], after which no task
    was started. *)
Definition close_told s : Prop :=
  ∃ sa sb cx, ended_by cx sa sb ∧ ctx_id (s_context s) = ctx_id (s_context sb) ∧ s_tasks s = s_tasks sb.

Record run_inv s : Prop := {
  ri_inv : inv s;
  ri_config : configured s;
  ri_end : s_state s = LocalClose → ctx_closed (s_context s) = true ∧ close_told s;
}.

Lemma run_inv_env s s' : run_inv s → session_env s s' → run_inv s'.
Proof.
  intros [Hi Hc He] []. split.
  - eapply inv_same; [done..|]. intros id. rw !elem_of_dom. apply (f_equal (lookup id)) in se_buffers0.
    rw !lookup_fmap in se_buffers0. destruct (substreams s' !! id), (substreams s !! id); naive_solver.
  - rw /configured se_by_name0 se_by_id0. exact Hc.
  - rw se_state0. intros Hs. destruct (He Hs) as [Hcl (sa & sb & cx & Hin)]. split; [auto|]. exists sa, sb, cx. by rw se_id0 se_tasks0.
Qed.

Lemma run_inv_poll cx s p s' : run_inv s → session_polled cx s p s' → run_inv s' ∧ (p = Ready None → ctx_closed (s_context s') = true ∧ close_told s').
Proof.
  intros [Hi Hc He] ([Hi' Hc' _ _] & Ha & Hloc & Hend). destruct (decide (s_state s = LocalClose)) as [Hs|Hs].
  { destruct (Hloc Hs) as [-> ->]. split; [done|]. intros _. by apply He. }
  specialize (Hend Hs). assert (p = Ready None ∨ s_state s' = LocalClose → ctx_closed (s_context s') = true ∧ close_told s') as H.
  { intros Hp. pose proof (Hend Hp) as He'. split; [apply He'|]. by exists s, s', cx. }
  split; [split; auto|auto].
Qed.

Lemma session_run_inv s0 s : channel_room 2 → run_inv s0 → session_run s0 s → run_inv s.
Proof.
  intros Hch H0. induction 1 as [|s s1 s2 proceed cx p _ IH Henv Hpo Hpoll]; [done|].
  pose proof (run_inv_env _ _ IH Henv) as H1. destruct (H1) as [Hi Hc _].
  destruct (wp_intro _ _ _ _ _ (s_poll_next_spec proceed cx s1 Hch Hi Hc Hpo) Hpoll) as (p' & [= <-] & Hpd).
  by apply (run_inv_poll _ _ _ _ H1 Hpd).
Qed.

Lemma run_inv_new by_name by_id config keep ctx ps pr ts fs sv ss hs :
  (∀ p meta, by_id !! p = Some meta → is_Some (by_name !! meta_name meta)) →
  run_inv (session_new by_name by_id config keep ctx ps pr ts fs sv ss hs).
Proof.
  intros Hc. split; [|exact Hc|done]. split; simpl; [apply NoDup_nil_2|split; [done|set_solver]| |].
  - intros p id. by rw lookup_empty.
  - intros id [b Hb]. by rw lookup_empty in Hb.
Qed.

(** C10. In every reachable state of a session that has started fewer than [2^64]
    streams, whatever the service and the network do, and the streams as long as
    they close only themselves and send no messages to the session (as they do, the
    session panics on a message): stream ids are never reused; a protocol is mapped
    to a stream of its own, and every open stream is the one of its protocol; a late
    or repeated close of a stream that is gone changes nothing; the next poll does
    not panic. *)
Theorem session_streams_unique by_name by_id config keep ctx ps pr ts fs sv ss hs s :
  channel_room 2 → (∀ p meta, by_id !! p = Some meta → is_Some (by_name !! meta_name meta)) →
  session_run (session_new by_name by_id config keep ctx ps pr ts fs sv ss hs) s →
  NoDup (streams s).*1 ∧
  (∀ p id, proto_streams s !! p = Some id → (id, p) ∈ streams s) ∧
  (∀ id, is_Some (substreams s !! id) → ∃ p, (id, p) ∈ streams s ∧ proto_streams s !! p = Some id) ∧
  (∀ cx id p, (id, p) ∈ streams s → substreams s !! id = None →
    handle_stream_event (E:=Empty_set) reframe split channel cx (PvClose id p) s = (Ok (), s)) ∧
  (∀ s1 proceed cx, session_env s s1 → session_pollable s1 →
    ∃ p s2, s_poll_next (E:=Empty_set) reframe split channel poll_handle proceed cx s1 = (Ok p, s2)).
Proof.
  intros Hch Hc Hrun. pose proof (session_run_inv _ _ Hch (run_inv_new _ _ _ _ _ _ _ _ _ _ _ _ Hc) Hrun) as Hri.
  destruct (Hri) as [[Hnd Hfr Hpr Hlv] Hcf _]. split; [done|]. split; [done|]. split; [done|]. split.
  - intros cx id p _ Hnone. rw /handle_stream_event /mbind /M_bind /get Hnone. done.
  - intros s1 proceed cx Henv Hpo. destruct (run_inv_env _ _ Hri Henv) as [Hi1 Hc1 _].
    destruct (s_poll_next_spec proceed cx s1 Hch Hi1 Hc1 Hpo) as (p & Hr & _).
    exists p, (s_poll_next (E:=Empty_set) reframe split channel poll_handle proceed cx s1).2. rw -Hr.
    by destruct (s_poll_next _ _ _ _ _ _ _).
Qed.

(** C23. A session that ends, that is, whose poll returns [None] or closes it
    locally, is marked closed, and the poll has started a task that sends the service
    exactly what was buffered for it when the poll had handled the events it got, in
    order, and then the end; nothing stays buffered. A session that had closed
    locally before is left alone, and an earlier poll had done that. *)
Theorem session_end_told by_name by_id config keep ctx ps pr ts fs sv ss hs s s1 s2 proceed cx p :
  channel_room 2 → (∀ p meta, by_id !! p = Some meta → is_Some (by_name !! meta_name meta)) →
  session_run (session_new by_name by_id config keep ctx ps pr ts fs sv ss hs) s →
  session_env s s1 → session_pollable s1 →
  s_poll_next (E:=Empty_set) reframe split channel poll_handle proceed cx s1 = (Ok p, s2) →
  p = Ready None ∨ s_state s2 = LocalClose →
  (s_state s1 ≠ LocalClose → ended_by cx s1 s2) ∧
  (s_state s1 = LocalClose → s2 = s1 ∧ ctx_closed (s_context s2) = true ∧ close_told s2).
Proof.
  intros Hch Hc Hrun Henv Hpo Hpoll Hend.
  pose proof (session_run_inv _ _ Hch (run_inv_new _ _ _ _ _ _ _ _ _ _ _ _ Hc) Hrun) as Hri.
  pose proof (run_inv_env _ _ Hri Henv) as Hri1. destruct (Hri1) as [Hi1 Hc1 _].
  destruct (wp_intro _ _ _ _ _ (s_poll_next_spec proceed cx s1 Hch Hi1 Hc1 Hpo) Hpoll) as (p' & [= <-] & Hpd).
  destruct Hpd as (_ & _ & Hloc & Hnew). split; [by intros Hs; apply Hnew|].
  intros Hs. destruct (Hloc Hs) as [-> _]. split; [done|]. by apply (ri_end _ Hri1).
Qed.

(** A message of the service goes to the stream of its protocol and to no
    other, behind those of its priority, and as much as the stream's channel takes
    is put there, in order and high priority first; without a stream it is dropped. *)
Theorem session_routes_message cx proto_id data priority s :
  broom 1 s →
  ∃ s', handle_session_event (E:=Empty_set) cx (SeProtocolMessage proto_id data) priority s = (Ok (), s') ∧
    match proto_streams s !! proto_id with
    | Some id =>
        (∀ j, j ≠ id → substreams s' !! j = substreams s !! j) ∧
        match substreams s !! id with
        | Some b => ∃ r b', substreams s' !! id = Some b' ∧
            flushed_to (match priority with High => push_high (PvMessage data) | Normal => push_normal (PvMessage data) end b) r b'
        | None => s' = s
        end
    | None => s' = s
    end.
Proof.
  intros Hb. rw /handle_session_event {1}/mbind {1}/M_bind {1}/get. destruct (proto_streams s !! proto_id) as [id|]; [|by exists s].
  destruct (substreams s !! id) as [b|] eqn:Hid; [|by rw bool_decide_false; [exists s|intros []]].
  rewrite -> bool_decide_true by (by eexists).
  set (f := match priority with High => push_high (PvMessage data) | Normal => push_normal (PvMessage data) end).
  assert (ms_room (buffer_len (f b) + 0) (sender (f b))) as Hroom.
  { pose proof (room_push_buffer priority (PvMessage data) 0 b (Hb id b Hid)). by rw /f; destruct priority. }
  destruct (buffer_flush_spec cx 0 (f b) Hroom) as (r & b' & Hsend & _ & Hf).
  rw /when /on_buffer /mbind /M_bind /modify /buffer_send /= lookup_alter_eq Hid /= Hsend.
  eexists. split; [reflexivity|]. simpl. split.
  - intros j Hj. by rw lookup_insert_ne // lookup_alter_ne.
  - exists r, b'. by rw lookup_insert_eq.
Qed.
End facts.

(** ** A session with one protocol *)

Record ListPlain (T : Type) := mkListPlain { lp_items : list T }.
Arguments mkListPlain {T}.
Arguments lp_items {T}.

#[global] Instance ListPlain_receiver T : PlainReceiver (ListPlain T) T := {|
  pr_poll_next r := match lp_items r with x :: xs => (Ready (Some x), mkListPlain xs) | [] => (Pending, r) end;
  pr_close r := r;
|}.

Definition demo_net : NetTypes := mkNetTypes unit unit unit unit unit.
Definition demo_types : SessTypes :=
  mkSessTypes ListSocket unit (ListChan (ProtocolEvent unit)) (ListChan ServiceProtocolEvent) (ListChan SessionProtocolEvent)
    (ListRx (ProtocolEvent unit)) (ListChan (ProtocolEvent unit)) (ListPlain (ProtocolEvent unit)) (ListRx (SessionEvent demo_net))
    (ListChan (SessionEvent demo_net)) unit demo_net.

Definition demo_meta : Meta := mkMeta 5 [x70] [[x31]] false None.
Definition demo_ctx : SessionContext := mkSessionContext 7 (mkMultiaddr []) Inbound None false 0.

Definition demo_session (events : list (ProtocolEvent unit)) (commands : list (Priority * SessionEvent demo_net)) : Session demo_types :=
  session_new (T:=demo_types) {[ [x70] := demo_meta ]} {[ 5%nat := demo_meta ]} (session_config_default 262144) false demo_ctx
    (mkListChan []) (mkListPlain events) (mkListChan []) (mkListRx commands []) ∅ ∅ [].

Definition demo_reframe (_ : nat) (_ : unit) : ListSocket := wire [].
Definition demo_split (x : ListSocket) : ListSocket * ListSocket := (x, x).
Definition demo_channel (_ : Z) : ListChan (ProtocolEvent unit) * ListRx (ProtocolEvent unit) := (mkListChan [], mkListRx [] []).
Definition demo_poll (j : unit) : Poll unit * unit := (Ready (), j).

Definition demo_poll_next (s : Session demo_types) : Res Empty_set (Poll (option unit)) * Session demo_types :=
  s_poll_next (T:=demo_types) (MsgSender0:=ListChan_sender _) (MsgSender1:=ListChan_sender _) (PlainReceiver0:=ListPlain_receiver _)
    (EventReceiver0:=ListRx_receiver _) demo_reframe demo_split demo_channel demo_poll true 0%nat s.

Lemma demo_configured p meta : ({[ 5%nat := demo_meta ]} : gmap nat Meta) !! p = Some meta → is_Some (({[ [x70] := demo_meta ]} : gmap (list byte) Meta) !! meta_name meta).
Proof. intros [<- <-]%lookup_singleton_Some. eexists. apply lookup_singleton_eq. Qed.

Abbreviation demo_session_run := (session_run (T:=demo_types) (MP:=ListChan_sender _) (MC:=ListChan_sender _) (PR:=ListPlain_receiver _) (SR:=ListRx_receiver _)
  demo_reframe demo_split demo_channel demo_poll).

Lemma demo_env (s : Session demo_types) : session_env s s.
Proof. by split. Qed.

Lemma demo_session_pollable events commands :
  (∀ event, event ∈ events → match event with PvMessage _ | PvClose _ _ => False | _ => True end) →
  session_pollable (T:=demo_types) (demo_session events commands).
Proof.
  intros Hev. split; [done|]. split; [done|]. split; [done|]. intros event rx. simpl. destruct events as [|e events]; [done|].
  intros [= -> _]. specialize (Hev event ltac:(constructor)). by destruct event.
Qed.

Definition demo_open := demo_session [PvOpen [x70] () [x31]] [(High, SeProtocolMessage 5 [x61])].

Lemma demo_open_run : demo_session_run demo_open (demo_poll_next demo_open).2.
Proof.
  eapply (session_poll _ _ _ _ _ demo_open demo_open _ true 0%nat (Ready (Some ()))).
  - constructor.
  - apply demo_env.
  - apply demo_session_pollable. intros event ->%list_elem_of_singleton. done.
  - vm_compute. reflexivity.
Qed.

Lemma session_streams_unique_witness :
  demo_session_run demo_open (demo_poll_next demo_open).2 ∧ streams (demo_poll_next demo_open).2 = [(0, 5)]%nat ∧
  handle_stream_event (E:=Empty_set) (T:=demo_types) (MsgSender1:=ListChan_sender _) demo_reframe demo_split demo_channel 0%nat (PvClose 0 5)
    (set_substreams ∅ (demo_poll_next demo_open).2) = (Ok (), set_substreams ∅ (demo_poll_next demo_open).2) ∧
  ∃ p, (0%nat, p) ∈ streams (demo_poll_next demo_open).2 ∧ proto_streams (demo_poll_next demo_open).2 !! p = Some 0%nat.
Proof.
  split; [exact demo_open_run|]. split; [vm_compute; reflexivity|]. split; [vm_compute; reflexivity|].
  destruct (session_streams_unique (T:=demo_types) (MP:=ListChan_sender _) (MC:=ListChan_sender _) (PR:=ListPlain_receiver _)
    (SR:=ListRx_receiver _) demo_reframe demo_split demo_channel demo_poll {[ [x70] := demo_meta ]} {[ 5%nat := demo_meta ]}
    (session_config_default 262144) false demo_ctx (mkListChan []) (mkListPlain [PvOpen [x70] () [x31]]) (mkListChan [])
    (mkListRx [(High, SeProtocolMessage 5 [x61])] []) ∅ ∅ [] _ (λ _, I) demo_configured demo_open_run) as (_ & _ & Hl & _).
  apply Hl. vm_compute. eexists. reflexivity.
Defined.

Definition demo_timeout := demo_session [PvTimeoutCheck] [].

Lemma session_end_told_witness :
  demo_poll_next demo_timeout = (Ok (Ready None), (demo_poll_next demo_timeout).2) ∧
  ctx_closed (s_context (demo_poll_next demo_timeout).2) = true ∧
  b_buffer (service_sender (demo_poll_next demo_timeout).2) = [] ∧
  s_tasks (demo_poll_next demo_timeout).2 = [TServiceEvents [SeSessionClose 7]; TControlClose].
Proof.
  assert (demo_poll_next demo_timeout = (Ok (Ready None), (demo_poll_next demo_timeout).2)) as Hrun by (vm_compute; reflexivity).
  assert (session_pollable (T:=demo_types) demo_timeout) as Hpo
    by (apply demo_session_pollable; intros event ->%list_elem_of_singleton; exact I).
  split; [exact Hrun|].
  destruct (session_end_told (T:=demo_types) (MP:=ListChan_sender _) (MC:=ListChan_sender _) (PR:=ListPlain_receiver _)
    (SR:=ListRx_receiver _) demo_reframe demo_split demo_channel demo_poll {[ [x70] := demo_meta ]} {[ 5%nat := demo_meta ]}
    (session_config_default 262144) false demo_ctx (mkListChan []) (mkListPlain [PvTimeoutCheck]) (mkListChan []) (mkListRx [] []) ∅ ∅ []
    demo_timeout demo_timeout (demo_poll_next demo_timeout).2 true 0%nat (Ready None) (λ _, I) demo_configured (session_start _ _ _ _ _) (demo_env _) Hpo Hrun
    (or_introl eq_refl)) as [H _].
  destruct H as (Hc & _ & Ht & Hb); [vm_compute; congruence|]. split; [exact Hc|]. split; [exact Hb|]. rw Ht. vm_compute. reflexivity.
Defined.

Lemma session_routes_message_witness :
  ∃ s', handle_session_event (E:=Empty_set) (T:=demo_types) (MsgSender0:=ListChan_sender _) (MsgSender1:=ListChan_sender _) 0%nat
      (SeProtocolMessage 5 [x62]) Normal (demo_poll_next demo_open).2 = (Ok (), s') ∧
    ∃ b, substreams s' !! 0%nat = Some b ∧ lc_items (sender b) = [(High, PvMessage [x61]); (Normal, PvMessage [x62])].
Proof.
  destruct (session_routes_message (T:=demo_types) (MP:=ListChan_sender _) (MC:=ListChan_sender _) 0%nat 5 [x62] Normal (demo_poll_next demo_open).2) as (s' & Hs & Hm).
  { vm_compute. repeat constructor. }
  exists s'. split; [exact Hs|]. vm_compute in Hs. injection Hs as <-. eexists. split; vm_compute; reflexivity.
Defined.
