(* ===== verification/Service.v ===== *)
(** * The service

    [tentacle/src/service.rs], with [State] of [service/config.rs] and the events
    of [service/event.rs]: [InnerService], the loop that starts listeners and
    dials, turns finished handshakes into sessions, routes the user's tasks to the
    sessions and handles, and ends. What it sends and the tasks it starts are
    recorded in order; a full channel, which only delays the loop, is not modelled.
    The transports answer a request at once with an error or start a task
    ([transport_listen], [transport_dial]). [HashMap]s are iterated in an order of
    their own; the model uses that of [map_to_list]. The calls of the
    port mapping's client ([Upnp.v]) are left out. *)
From S2P Require Import Prelude Text StdNet Multiaddr MultiaddrFacts SecioMessages PeerId AddrUtils Channel Events ProtocolHandle TentacleSession.

#[global] Instance Multiaddr_eq_dec : EqDecision Multiaddr.
Proof. solve_decision. Defined.
#[global] Instance Multiaddr_countable : Countable Multiaddr :=
  inj_countable' ma_bytes mkMultiaddr (λ m, match m with mkMultiaddr _ => eq_refl end).

(** ** The state of the service *)

(** [Running] counts the dials and listens in progress. *)
Inductive State := Running (num : Z) | Forever | PreShutdown.

Definition state_new (forever : bool) : State := if forever then Forever else Running 0.

Definition is_shutdown (s : State) : bool :=
  match s with
  | Running num => num =? 0
  | PreShutdown => true
  | Forever => false
  end.

Definition pre_shutdown (s : State) : State := PreShutdown.
Definition increase (s : State) : State := match s with Running num => Running (wrap 64 (num + 1)) | _ => s end.
Definition decrease (s : State) : State := match s with Running num => Running (wrap 64 (num - 1)) | _ => s end.
Definition into_inner (s : State) : option Z := match s with Running num => Some num | _ => None end.

(** ** Tasks and events *)

Inductive Source := External | Internal.

#[global] Instance Source_eq_dec : EqDecision Source.
Proof. solve_decision. Defined.

Definition is_outbound (ty : SessionType) : bool := match ty with Outbound => true | Inbound => false end.

Inductive TargetProtocol := TpAll | TpSingle (id : nat) | TpFilter (filter : nat → bool).

(** [Multi]'s iterator as the list it yields. *)
Inductive TargetSession := TsAll | TsSingle (id : nat) | TsMulti (ids : list nat) | TsFilter (filter : nat → bool).

Section events.
Context (N : NetTypes).

Inductive DialerErrorKind :=
| DeIoError (error : io.ErrorKind)
| DePeerIdNotMatch
| DeRepeatedConnection (id : nat)
| DeHandshakeError (error : HandshakeErr N)
| DeTransportError (error : TransportErr N).

Inductive ListenErrorKind :=
| LeIoError (error : io.ErrorKind)
| LeRepeatedConnection (id : nat)
| LeTransportError (error : TransportErr N).

Inductive ServiceError :=
| ErDialerError (address : Multiaddr) (error : DialerErrorKind)
| ErListenError (address : Multiaddr) (error : ListenErrorKind)
| ErProtocolSelectError (proto_name : option bytes) (session : SessionContext)
| ErProtocolError (id proto_id : nat) (error : io.ErrorKind)
| ErSessionTimeout (session : SessionContext)
| ErMuxerError (session : SessionContext) (error : io.ErrorKind)
| ErProtocolHandleError (proto_id : nat) (error : ProtocolHandleErrorKind)
| ErSessionBlocked (session : SessionContext).

Inductive ServiceEvent :=
| EvSessionClose (session : SessionContext)
| EvSessionOpen (session : SessionContext)
| EvListenClose (address : Multiaddr)
| EvListenStarted (address : Multiaddr).

Inductive RawSessionInfo := RsInbound (listen_addr : Multiaddr) | RsOutbound (target : TargetProtocol).

(** A future task of the user is named by a number. *)
Inductive ServiceTask :=
| StProtocolMessage (target : TargetSession) (proto_id : nat) (data : bytes)
| StProtocolOpen (session_id : nat) (target : TargetProtocol)
| StProtocolClose (session_id proto_id : nat)
| StSetProtocolNotify (proto_id : nat) (interval token : Z)
| StRemoveProtocolNotify (proto_id : nat) (token : Z)
| StSetProtocolSessionNotify (session_id proto_id : nat) (interval token : Z)
| StRemoveProtocolSessionNotify (session_id proto_id : nat) (token : Z)
| StFutureTask (task : nat)
| StDisconnect (session_id : nat)
| StDial (address : Multiaddr) (target : TargetProtocol)
| StListen (address : Multiaddr)
| StRawSession (remote_address : Multiaddr) (session_info : RawSessionInfo)
| StShutdown (quick : bool).

(** What a new session is built from. *)
Record NewSession := mkNewSession {
  ns_context : SessionContext;
  ns_by_name : gmap (list byte) Meta;
  ns_by_id : gmap nat Meta;
  (** protocols with a handle of the service, of the session *)
  ns_service_senders : list nat;
  ns_session_senders : list nat;
  (** the names given to [open_proto_stream], in order *)
  ns_opened : list bytes;
}.

Inductive Job :=
| JListen (address : Multiaddr)
| JDial (address : Multiaddr)
| JHandshake (ty : SessionType) (remote_address : Multiaddr) (listen_address : option Multiaddr)
| JListener (incoming : Incoming N) (listen_address : Multiaddr)
| JShutdownIo (handle : RawIo N)
| JServiceHandle (proto_id : nat)
| JSessionHandle (id proto_id : nat)
| JSession (session : NewSession)
| JFutureTask (task : nat).

(** What the service does, in order. *)
Inductive Out :=
| OEvent (event : ServiceEvent)
| OError (error : ServiceError)
| OUpdate (listen_addrs : list Multiaddr)
| OSession (id : nat) (priority : Priority) (event : SessionEvent N)
| OServiceHandle (proto_id : nat) (event : ServiceProtocolEvent)
| OSessionHandle (id proto_id : nat) (event : SessionProtocolEvent)
| OSpawn (job : Job)
| OCloseUser
| OStopHandle (proto_id : option nat).
End events.
Arguments DeIoError {N}.
Arguments DePeerIdNotMatch {N}.
Arguments DeRepeatedConnection {N}.
Arguments DeHandshakeError {N}.
Arguments DeTransportError {N}.
Arguments LeIoError {N}.
Arguments LeRepeatedConnection {N}.
Arguments LeTransportError {N}.
Arguments ErDialerError {N}.
Arguments ErListenError {N}.
Arguments ErProtocolSelectError {N}.
Arguments ErProtocolError {N}.
Arguments ErSessionTimeout {N}.
Arguments ErMuxerError {N}.
Arguments ErProtocolHandleError {N}.
Arguments ErSessionBlocked {N}.
Arguments JListen {N}.
Arguments JDial {N}.
Arguments JHandshake {N}.
Arguments JListener {N}.
Arguments JShutdownIo {N}.
Arguments JServiceHandle {N}.
Arguments JSessionHandle {N}.
Arguments JSession {N}.
Arguments JFutureTask {N}.
Arguments OEvent {N}.
Arguments OError {N}.
Arguments OUpdate {N}.
Arguments OSession {N}.
Arguments OServiceHandle {N}.
Arguments OSessionHandle {N}.
Arguments OSpawn {N}.
Arguments OCloseUser {N}.
Arguments OStopHandle {N}.

(** ** [InnerService] *)

(** [ProtocolMeta]: whether the protocol has a handle of the service, and one for a
    given session ([session_handle] is called once per session). *)
Record ProtocolMeta := mkProtocolMeta {
  pm_inner : Meta;
  pm_service_handle : bool;
  pm_session_handle : nat → bool;
  pm_before_send : option (bytes → bytes);
}.
Definition pm_name (m : ProtocolMeta) : bytes := meta_name (pm_inner m).

(** A session's controller is its context; its sender is the output [OSession]. The
    senders to the handles are known by their keys. *)
Record InnerService (N : NetTypes) := mkService {
  protocol_configs : gmap nat ProtocolMeta;
  max_connection_number : Z;
  sessions : gmap nat SessionContext;
  listens : gset Multiaddr;
  dial_protocols : gmap Multiaddr TargetProtocol;
  state : State;
  next_session : nat;
  before_sends : gmap nat (bytes → bytes);
  service_proto_handles : gset nat;
  session_proto_handles : gset (nat * nat);
  (** [service_context.listens()] *)
  context_listens : list Multiaddr;
  shutdown : bool;
  (** whether the receivers of tasks and events were closed *)
  receivers_closed : bool;
  (** the task manager ([None]) and the service's handles *)
  wait_handle : list (option nat);
  outs : list (Out N);
}.
Arguments mkService {N}.
Arguments protocol_configs {N}.
Arguments max_connection_number {N}.
Arguments sessions {N}.
Arguments listens {N}.
Arguments dial_protocols {N}.
Arguments state {N}.
Arguments next_session {N}.
Arguments before_sends {N}.
Arguments service_proto_handles {N}.
Arguments session_proto_handles {N}.
Arguments context_listens {N}.
Arguments shutdown {N}.
Arguments receivers_closed {N}.
Arguments wait_handle {N}.
Arguments outs {N}.

Section setters.
Context {N : NetTypes}.
Implicit Types s : InnerService N.

Definition set_sessions x s := mkService (protocol_configs s) (max_connection_number s) x (listens s) (dial_protocols s) (state s)
  (next_session s) (before_sends s) (service_proto_handles s) (session_proto_handles s) (context_listens s) (shutdown s) (receivers_closed s) (wait_handle s) (outs s).
Definition set_listens x s := mkService (protocol_configs s) (max_connection_number s) (sessions s) x (dial_protocols s) (state s)
  (next_session s) (before_sends s) (service_proto_handles s) (session_proto_handles s) (context_listens s) (shutdown s) (receivers_closed s) (wait_handle s) (outs s).
Definition set_dial_protocols x s := mkService (protocol_configs s) (max_connection_number s) (sessions s) (listens s) x (state s)
  (next_session s) (before_sends s) (service_proto_handles s) (session_proto_handles s) (context_listens s) (shutdown s) (receivers_closed s) (wait_handle s) (outs s).
Definition set_service_state x s := mkService (protocol_configs s) (max_connection_number s) (sessions s) (listens s) (dial_protocols s) x
  (next_session s) (before_sends s) (service_proto_handles s) (session_proto_handles s) (context_listens s) (shutdown s) (receivers_closed s) (wait_handle s) (outs s).
Definition set_next_session x s := mkService (protocol_configs s) (max_connection_number s) (sessions s) (listens s) (dial_protocols s) (state s)
  x (before_sends s) (service_proto_handles s) (session_proto_handles s) (context_listens s) (shutdown s) (receivers_closed s) (wait_handle s) (outs s).
Definition set_before_sends x s := mkService (protocol_configs s) (max_connection_number s) (sessions s) (listens s) (dial_protocols s) (state s)
  (next_session s) x (service_proto_handles s) (session_proto_handles s) (context_listens s) (shutdown s) (receivers_closed s) (wait_handle s) (outs s).
Definition set_service_handles x s := mkService (protocol_configs s) (max_connection_number s) (sessions s) (listens s) (dial_protocols s) (state s)
  (next_session s) (before_sends s) x (session_proto_handles s) (context_listens s) (shutdown s) (receivers_closed s) (wait_handle s) (outs s).
Definition set_session_handles x s := mkService (protocol_configs s) (max_connection_number s) (sessions s) (listens s) (dial_protocols s) (state s)
  (next_session s) (before_sends s) (service_proto_handles s) x (context_listens s) (shutdown s) (receivers_closed s) (wait_handle s) (outs s).
Definition set_context_listens x s := mkService (protocol_configs s) (max_connection_number s) (sessions s) (listens s) (dial_protocols s) (state s)
  (next_session s) (before_sends s) (service_proto_handles s) (session_proto_handles s) x (shutdown s) (receivers_closed s) (wait_handle s) (outs s).
Definition set_shutdown x s := mkService (protocol_configs s) (max_connection_number s) (sessions s) (listens s) (dial_protocols s) (state s)
  (next_session s) (before_sends s) (service_proto_handles s) (session_proto_handles s) (context_listens s) x (receivers_closed s) (wait_handle s) (outs s).
Definition set_receivers_closed x s := mkService (protocol_configs s) (max_connection_number s) (sessions s) (listens s) (dial_protocols s) (state s)
  (next_session s) (before_sends s) (service_proto_handles s) (session_proto_handles s) (context_listens s) (shutdown s) x (wait_handle s) (outs s).
Definition set_wait_handle x s := mkService (protocol_configs s) (max_connection_number s) (sessions s) (listens s) (dial_protocols s) (state s)
  (next_session s) (before_sends s) (service_proto_handles s) (session_proto_handles s) (context_listens s) (shutdown s) (receivers_closed s) x (outs s).
Definition set_outs (x : list (Out N)) s := mkService (protocol_configs s) (max_connection_number s) (sessions s) (listens s) (dial_protocols s) (state s)
  (next_session s) (before_sends s) (service_proto_handles s) (session_proto_handles s) (context_listens s) (shutdown s) (receivers_closed s) (wait_handle s) x.
Definition add_out (o : Out N) s := set_outs (outs s ++ [o]) s.
End setters.

(** Which handles have ended, so that a send to them fails. *)
Record Gone := mkGone { service_gone : nat → bool; session_gone : nat * nat → bool }.

(** ** Operations *)

(** A call of the address library; it panics on a malformed address. *)
Definition addr_call {S E A} (r : option (Res Error A)) : M S E A :=
  match r with Some (Ok a) => mret a | _ => panic end.

Section service.
Context {N : NetTypes} `{!AddrCodecs} (sha256 : bytes → bytes).
(** The immediate answer of the transport to a request, and whether a listener was
    merged into an existing one. *)
Context (transport_listen transport_dial : Multiaddr → option (TransportErr N)) (is_upgrade : Incoming N → bool).
Abbreviation St := (InnerService N).
Implicit Types s : St.

Definition emit {E} (o : Out N) : M St E unit := modify (add_out o).
Definition update_state {E} (f : State → State) : M St E unit := modify (λ s, set_service_state (f (state s)) s).

(** The domain name of a TLS component is removed. *)
Definition clear_protocol (p : Protocol) : Protocol := match p with Tls _ => Tls [] | _ => p end.
Definition clear_addr {E} (address : Multiaddr) : M St E Multiaddr :=
  ps ← addr_call (iter address);
  mret (from_iter (clear_protocol <$> ps)).

Definition listen_inner {E} (address : Multiaddr) : M St E (option (TransportErr N)) :=
  match transport_listen address with
  | Some e => mret (Some e)
  | None => emit (OSpawn (JListen address));; update_state increase;; mret None
  end.

Definition dial_inner {E} (address : Multiaddr) (target : TargetProtocol) : M St E (option (TransportErr N)) :=
  match transport_dial address with
  | Some e => mret (Some e)
  | None =>
      modify (λ s, set_dial_protocols (<[address := target]> (dial_protocols s)) s);;
      emit (OSpawn (JDial address));;
      update_state increase;;
      mret None
  end.

(** Whether one of the addresses being dialed has this peer id. *)
Fixpoint any_peer_id {E} (peer_id : PeerId) (addrs : list Multiaddr) : M St E bool :=
  match addrs with
  | [] => mret false
  | addr :: addrs =>
      r ← addr_call (extract_peer_id addr);
      if bool_decide (r = Some peer_id) then mret true else any_peer_id peer_id addrs
  end.

(** The check before a dial: the address, or its peer id, is being dialed. *)
Definition is_dialing {E} (address : Multiaddr) : M St E bool :=
  s ← get;
  if bool_decide (is_Some (dial_protocols s !! address)) then mret true
  else
    r ← addr_call (extract_peer_id address);
    match r with
    | Some peer_id => any_peer_id peer_id (map_to_list (dial_protocols s)).*1
    | None => mret false
    end.

(** The handles of a new session. *)
Fixpoint session_handles_loop {E} (id : nat) (protos : list (nat * ProtocolMeta)) : M St E unit :=
  match protos with
  | [] => mret ()
  | (proto_id, meta) :: protos =>
      s ← get;
      when (pm_session_handle meta id && bool_decide (is_Some (sessions s !! id)))
        (modify (λ s, set_session_handles ({[(id, proto_id)]} ∪ session_proto_handles s) s);;
         emit (OSpawn (JSessionHandle id proto_id)));;
      session_handles_loop id protos
  end.
Definition session_handles_open {E} (id : nat) : M St E unit :=
  s ← get; session_handles_loop id (map_to_list (protocol_configs s)).

(** One message to one session, if there is such a session. *)
Definition send_to {E} (priority : Priority) (proto_id : nat) (data : bytes) (id : nat) : M St E unit :=
  s ← get;
  when (bool_decide (is_Some (sessions s !! id)))
    (modify (λ s, set_sessions (alter (incr_pending_data_size (Z.of_nat (length data))) id (sessions s)) s);;
     emit (OSession id priority (SeProtocolMessage proto_id data))).
Fixpoint send_all {E} (priority : Priority) (proto_id : nat) (data : bytes) (ids : list nat) : M St E unit :=
  match ids with
  | [] => mret ()
  | id :: ids => send_to priority proto_id data id;; send_all priority proto_id data ids
  end.

Definition target_ids (target : TargetSession) s : list nat :=
  match target with
  | TsSingle id => [id]
  | TsMulti ids => ids
  | TsFilter f => List.filter f (map_to_list (sessions s)).*1
  | TsAll => (map_to_list (sessions s)).*1
  end.

Definition handle_message {E} (target : TargetSession) (proto_id : nat) (priority : Priority) (data : bytes) : M St E unit :=
  s ← get;
  let data := match before_sends s !! proto_id with Some f => f data | None => data end in
  send_all priority proto_id data (target_ids target s).

(** [wrapping_add(1)] on a session id. *)
Definition next_id (id : nat) : nat := Z.to_nat (wrap 64 (Z.of_nat id + 1)).
(** The loop of [generate_next_session]; [None] when the fuel is used up. One turn
    more than there are sessions is enough. *)
Fixpoint find_session (fuel : nat) (used : gmap nat SessionContext) (id : nat) : option nat :=
  match fuel with
  | O => None
  | S fuel => if decide (is_Some (used !! next_id id)) then find_session fuel used (next_id id) else Some (next_id id)
  end.
Definition generate_next_session {E} : M St E unit :=
  s ← get;
  match find_session (S (size (sessions s))) (sessions s) (next_session s) with
  | Some id => modify (set_next_session id)
  | None => panic
  end.

Definition checked_add (a b : Z) : option Z := if a + b <=? usize_max then Some (a + b) else None.
Definition reached_max_connection_limit s : bool :=
  from_option (λ count, max_connection_number s <? count) false
    (checked_add (Z.of_nat (size (sessions s))) (default 0 (into_inner (state s)))).

(** The session of a public key. *)
Definition session_of_key (k : PublicKey) s : option SessionContext :=
  head (List.filter (λ c, bool_decide (ctx_remote_pubkey c = Some k)) (map_to_list (sessions s)).*2).

(** The checks on the remote's key: [None] when the connection is refused, or the
    session's address. *)
Definition check_key {E} (handle : RawIo N) (remote_pubkey : option PublicKey) (address : Multiaddr) (ty : SessionType)
    (listen_addr : option Multiaddr) : M St E (option Multiaddr) :=
  match remote_pubkey with
  | None => mret (Some address)
  | Some key =>
      s ← get;
      match session_of_key key s with
      | Some context =>
          emit (OSpawn (JShutdownIo handle));;
          (if is_outbound ty then emit (OError (ErDialerError address (DeRepeatedConnection (ctx_id context))))
           else match listen_addr with
                | Some a => emit (OError (ErListenError a (LeRepeatedConnection (ctx_id context))))
                | None => panic
                end);;
          mret None
      | None =>
          r ← addr_call (extract_peer_id address);
          match r with
          | Some peer_id =>
              if bool_decide (from_public_key sha256 key = peer_id) then mret (Some address)
              else emit (OError (ErDialerError address DePeerIdNotMatch));; mret None
          | None => mret (Some (push address (P2P (peer_inner (from_public_key sha256 key)))))
          end
      end
  end.

(** The protocols that [target] asks for. *)
Definition target_protocols (target : TargetProtocol) (configs : gmap nat ProtocolMeta) : list (nat * ProtocolMeta) :=
  match target with
  | TpAll => map_to_list configs
  | TpSingle id => option_list (pair id <$> configs !! id)
  | TpFilter f => List.filter (λ '(id, _), f id) (map_to_list configs)
  end.

(** The session as it is handed to its task. *)
Definition new_session (ctx : SessionContext) (opened : list bytes) s : NewSession :=
  mkNewSession ctx
    (list_to_map (reverse ((λ '(_, m), (pm_name m, pm_inner m)) <$> map_to_list (protocol_configs s))))
    (pm_inner <$> protocol_configs s)
    (elements (service_proto_handles s))
    (omap (λ '(id, proto), if decide (id = ctx_id ctx) then Some proto else None) (elements (session_proto_handles s)))
    opened.

Definition session_open {E} (handle : RawIo N) (remote_pubkey : option PublicKey) (address : Multiaddr) (ty : SessionType)
    (listen_addr : option Multiaddr) : M St E unit :=
  s ← get;
  let target := default TpAll (dial_protocols s !! address) in
  modify (λ s, set_dial_protocols (delete address (dial_protocols s)) s);;
  r ← check_key handle remote_pubkey address ty listen_addr;
  match r with
  | None => mret ()
  | Some address =>
      generate_next_session;;
      id ← gets next_session;
      let ctx := mkSessionContext id address ty remote_pubkey false 0 in
      modify (λ s, set_sessions (<[id := ctx]> (sessions s)) s);;
      session_handles_open id;;
      emit (OEvent (EvSessionOpen ctx));;
      s ← get;
      let opened := if is_outbound ty then pm_name <$> (target_protocols target (protocol_configs s)).*2 else [] in
      emit (OSpawn (JSession (new_session ctx opened s)))
  end.

Definition session_close {E} (id : nat) (source : Source) : M St E unit :=
  s ← get;
  if decide (source = External) then
    when (bool_decide (is_Some (sessions s !! id))) (emit (OSession id High (SeSessionClose id)))
  else
    modify (λ s, set_session_handles (filter (λ k, id ≠ k.1) (session_proto_handles s)) s);;
    match sessions s !! id with
    | Some c =>
        modify (λ s, set_sessions (delete id (sessions s)) s);;
        emit (OEvent (EvSessionClose c))
    | None => mret ()
    end.

Definition protocol_open {E} (id proto_id : nat) : M St E unit :=
  s ← get; when (bool_decide (is_Some (sessions s !! id))) (emit (OSession id High (SeProtocolOpen proto_id))).
Definition protocol_close {E} (session_id proto_id : nat) : M St E unit :=
  s ← get; when (bool_decide (is_Some (sessions s !! session_id))) (emit (OSession session_id High (SeProtocolClose proto_id))).

Fixpoint each {E A} (f : A → M St E unit) (l : list A) : M St E unit :=
  match l with [] => mret () | x :: l => f x;; each f l end.

(** [ServiceTask::Shutdown]. *)
Definition shutdown_task {E} (quick : bool) : M St E unit :=
  update_state pre_shutdown;;
  s ← get;
  modify (set_listens ∅);;
  each (λ address, emit (OEvent (EvListenClose address))) (elements (listens s));;
  let ids := (map_to_list (sessions s)).*1 in
  if quick then
    modify (set_receivers_closed true);;
    modify (set_service_handles ∅);;
    modify (set_session_handles ∅);;
    each (λ i, session_close i Internal) ids
  else each (λ i, session_close i External) ids.

Definition init_proto_handles {E} : M St E unit :=
  s ← get;
  each (λ '(proto_id, meta),
    when (pm_service_handle meta)
      (modify (λ s, set_service_handles ({[proto_id]} ∪ service_proto_handles s) s);;
       emit (OSpawn (JServiceHandle proto_id));;
       modify (λ s, set_wait_handle (wait_handle s ++ [Some proto_id]) s));;
    match pm_before_send meta with
    | Some f => modify (λ s, set_before_sends (<[proto_id := f]> (before_sends s)) s)
    | None => mret ()
    end) (map_to_list (protocol_configs s)).

(** The start of [Service::run]; [started] says that the task manager was taken before. *)
Definition run_init {E} (started : bool) : M St E unit :=
  when (negb started) (modify (λ s, set_wait_handle (wait_handle s ++ [None]) s);; init_proto_handles).

Definition try_update_listens {E} (g : Gone) : M St E unit :=
  s ← get;
  if decide (size (listens s) = length (context_listens s)) then mret ()
  else
    let new_listens := elements (listens s) in
    modify (set_context_listens new_listens);;
    emit (OUpdate new_listens);;
    each (λ proto_id,
      if service_gone g proto_id then emit (OError (ErProtocolHandleError proto_id (AbnormallyClosed None)))
      else emit (OServiceHandle proto_id (SvUpdate new_listens))) (elements (service_proto_handles s));;
    each (λ k,
      if session_gone g k then emit (OError (ErProtocolHandleError k.2 (AbnormallyClosed (Some k.1))))
      else emit (OSessionHandle k.1 k.2 (SsUpdate new_listens))) (elements (session_proto_handles s));;
    when (existsb (service_gone g) (elements (service_proto_handles s)) || existsb (session_gone g) (elements (session_proto_handles s)))
      (shutdown_task false).

Definition handle_session_event {E} (g : Gone) (event : SessionEvent N) : M St E unit :=
  s ← get;
  match event with
  | SeSessionClose id => session_close id Internal
  | SeHandshakeSuccess handle public_key address ty listen_address =>
      when (is_outbound ty) (update_state decrease);;
      s ← get;
      when (negb (reached_max_connection_limit s)) (session_open handle public_key address ty listen_address)
  | SeHandshakeError address ty error =>
      when (is_outbound ty)
        (update_state decrease;;
         modify (λ s, set_dial_protocols (delete address (dial_protocols s)) s);;
         emit (OError (ErDialerError address (DeHandshakeError error))))
  | SeProtocolMessage _ _ | SeProtocolOpen _ | SeProtocolClose _ => panic
  | SeProtocolSelectError id proto_name =>
      match sessions s !! id with Some c => emit (OError (ErProtocolSelectError proto_name c)) | None => mret () end
  | SeProtocolError id proto_id error => emit (OError (ErProtocolError id proto_id error))
  | SeDialError address error =>
      update_state decrease;;
      modify (λ s, set_dial_protocols (delete address (dial_protocols s)) s);;
      emit (OError (ErDialerError address (DeTransportError error)))
  | SeListenError address error =>
      emit (OError (ErListenError address (LeTransportError error)));;
      if decide (address ∈ listens s) then
        modify (λ s, set_listens (listens s ∖ {[address]}) s);;
        try_update_listens g;;
        emit (OEvent (EvListenClose address))
      else update_state decrease
  | SeSessionTimeout id =>
      match sessions s !! id with Some c => emit (OError (ErSessionTimeout c)) | None => mret () end
  | SeMuxerError id error =>
      match sessions s !! id with Some c => emit (OError (ErMuxerError c error)) | None => mret () end
  | SeListenStart listen_address incoming =>
      emit (OEvent (EvListenStarted listen_address));;
      addr ← clear_addr listen_address;
      modify (λ s, set_listens ({[addr]} ∪ listens s) s);;
      update_state decrease;;
      try_update_listens g;;
      when (negb (is_upgrade incoming)) (emit (OSpawn (JListener incoming listen_address)))
  | SeProtocolHandleError error proto_id =>
      emit (OError (ErProtocolHandleError proto_id error));;
      shutdown_task false
  | SeChangeState id _ _ =>
      match sessions s !! id with Some c => emit (OError (ErSessionBlocked c)) | None => mret () end
  | SeStreamStart _ => mret ()
  end.

Definition handle_service_task {E} (priority : Priority) (task : ServiceTask) : M St E unit :=
  s ← get;
  match task with
  | StProtocolMessage target proto_id data => handle_message target proto_id priority data
  | StDial address target =>
      dialing ← is_dialing address;
      when (negb dialing)
        (r ← dial_inner address target;
         match r with Some e => emit (OError (ErDialerError address (DeTransportError e))) | None => mret () end)
  | StListen address =>
      addr ← clear_addr address;
      when (bool_decide (addr ∉ listens s))
        (r ← listen_inner address;
         match r with Some e => emit (OError (ErListenError address (LeTransportError e))) | None => mret () end)
  | StRawSession remote_address info =>
      match info with
      | RsInbound listen_addr => emit (OSpawn (JHandshake Inbound remote_address (Some listen_addr)))
      | RsOutbound target =>
          modify (λ s, set_dial_protocols (<[remote_address := target]> (dial_protocols s)) s);;
          update_state increase;;
          emit (OSpawn (JHandshake Outbound remote_address None))
      end
  | StDisconnect session_id => session_close session_id External
  | StFutureTask task => emit (OSpawn (JFutureTask task))
  | StSetProtocolNotify proto_id interval token =>
      when (bool_decide (proto_id ∈ service_proto_handles s)) (emit (OServiceHandle proto_id (SvSetNotify interval token)))
  | StRemoveProtocolNotify proto_id token =>
      when (bool_decide (proto_id ∈ service_proto_handles s)) (emit (OServiceHandle proto_id (SvRemoveNotify token)))
  | StSetProtocolSessionNotify session_id proto_id interval token =>
      when (bool_decide ((session_id, proto_id) ∈ session_proto_handles s))
        (emit (OSessionHandle session_id proto_id (SsSetNotify interval token)))
  | StRemoveProtocolSessionNotify session_id proto_id token =>
      when (bool_decide ((session_id, proto_id) ∈ session_proto_handles s))
        (emit (OSessionHandle session_id proto_id (SsRemoveNotify token)))
  | StProtocolOpen session_id target =>
      match target with
      | TpSingle id => protocol_open session_id id
      | _ => each (protocol_open session_id) (target_protocols target (protocol_configs s)).*1
      end
  | StProtocolClose session_id proto_id => protocol_close session_id proto_id
  | StShutdown quick => shutdown_task quick
  end.

(** [Service::listen] and [Service::dial], before the loop is started; [res] is what
    the transport's future yields. *)
Definition service_listen {E} (address : Multiaddr) (res : (Multiaddr * Incoming N) + TransportErr N) :
    M St E (Multiaddr + TransportErr N) :=
  match transport_listen address with
  | Some e => mret (inr e)
  | None =>
      match res with
      | inr e => mret (inr e)
      | inl (addr, incoming) =>
          emit (OEvent (EvListenStarted addr));;
          c ← clear_addr addr;
          modify (λ s, set_listens ({[c]} ∪ listens s) s);;
          when (negb (is_upgrade incoming)) (emit (OSpawn (JListener incoming addr)));;
          mret (inl addr)
      end
  end.
Definition service_dial {E} (address : Multiaddr) (target : TargetProtocol) (res : Multiaddr + TransportErr N) :
    M St E (option (TransportErr N)) :=
  dialing ← is_dialing address;
  if (dialing : bool) then mret None
  else
    match transport_dial address with
    | Some e => mret (Some e)
    | None =>
        match res with
        | inr e => mret (Some e)
        | inl addr =>
            emit (OSpawn (JHandshake Outbound addr None));;
            modify (λ s, set_dial_protocols (<[address := target]> (dial_protocols s)) s);;
            update_state increase;;
            mret None
        end
    end.

(** [Service::new]. *)
Definition service_new (configs : gmap nat ProtocolMeta) (forever : bool) (max : Z) : St :=
  mkService configs max ∅ ∅ ∅ (state_new forever) 0 ∅ ∅ ∅ [] false false [] [].

(** ** The loop *)

Definition stops s : bool := bool_decide (listens s = ∅) && is_shutdown (state s) && bool_decide (sessions s = ∅).

Inductive RunInput :=
| RiEvent (event : SessionEvent N)
| RiTask (priority : Priority) (task : ServiceTask).

Definition wait_handle_poll {E} : M St E unit :=
  emit OCloseUser;;
  s ← get;
  modify (set_wait_handle []);;
  each (λ h, emit (OStopHandle h)) (wait_handle s).

(** One turn of [run] with what the select yields, and the handles that have ended
    at its start and at the event: whether the loop ends. *)
Definition run_turn {E} (g g' : Gone) (input : RunInput) : M St E bool :=
  s ← get;
  if stops s then modify (set_shutdown true);; wait_handle_poll;; mret true
  else
    try_update_listens g;;
    match input with
    | RiEvent event => handle_session_event g' event
    | RiTask priority task => handle_service_task priority task
    end;;
    mret false.
End service.
