(* ===== verification/ServiceFacts.v ===== *)
(** * Properties of the service

    The invariant of the service and of the work that it started ([Service.v]):
    its sessions and what the user is told of them, the connection limit, and the
    count of the dials and listens in progress that decides when it may end. *)
From S2P Require Import Prelude Text StdNet Multiaddr MultiaddrFacts SecioMessages PeerId AddrUtils Channel Events ProtocolHandle TentacleSession FutureTask Service.

(** ** What the service does, in order *)

Section log.
Context {N : NetTypes}.
Implicit Types (o : Out N) (os : list (Out N)).

(** Whether the user was last told that the session is open. *)
Definition told_step (id : nat) (b : bool) o : bool :=
  match o with
  | OEvent (EvSessionOpen c) => if decide (ctx_id c = id) then true else b
  | OEvent (EvSessionClose c) => if decide (ctx_id c = id) then false else b
  | _ => b
  end.
Definition told_open (id : nat) os : bool := foldl (told_step id) false os.

(** A session's protocols are known by name, those to open at once included. *)
Definition configured_session (ns : NewSession) : Prop :=
  (∀ p meta, ns_by_id ns !! p = Some meta → is_Some (ns_by_name ns !! meta_name meta)) ∧
  (∀ name, name ∈ ns_opened ns → is_Some (ns_by_name ns !! name)).

(** The user is told of the opening of a session before its task starts and before
    it gets events, and of its closing once. *)
Definition out_ok (pre : list (Out N)) o : Prop :=
  match o with
  | OEvent (EvSessionOpen c) => told_open (ctx_id c) pre = false
  | OEvent (EvSessionClose c) => told_open (ctx_id c) pre = true
  | OSession id _ _ => told_open id pre = true
  | OSpawn (JSession ns) => told_open (ctx_id (ns_context ns)) pre = true ∧ configured_session ns
  | OSpawn (JHandshake Inbound _ listen_address) => is_Some listen_address
  | _ => True
  end.
Definition ordered os : Prop := ∀ pre o post, os = pre ++ o :: post → out_ok pre o.

(** The outbound work that was started. *)
Definition starts o : bool :=
  match o with
  | OSpawn (JListen _) | OSpawn (JDial _) | OSpawn (JHandshake Outbound _ _) => true
  | _ => false
  end.
Definition started os : nat := length (List.filter starts os).

Lemma told_open_snoc id os o : told_open id (os ++ [o]) = told_step id (told_open id os) o.
Proof. by rw /told_open foldl_app. Qed.

Lemma ordered_snoc os o : ordered os → out_ok os o → ordered (os ++ [o]).
Proof.
  intros Hos Ho pre o' post Heq. destruct post as [|x post _] using rev_ind.
  - apply app_inj_tail in Heq as [<- <-]. done.
  - rw app_comm_cons app_assoc in Heq. apply app_inj_tail in Heq as [-> _]. by eapply Hos.
Qed.

Lemma started_app os os' : started (os ++ os') = (started os + started os')%nat.
Proof. by rw /started List.filter_app length_app. Qed.

Lemma started_snoc os o : started (os ++ [o]) = (started os + (if starts o then 1 else 0))%nat.
Proof. rw started_app /started /=. by destruct (starts o). Qed.

(** An output that concerns neither a session nor work in progress. *)
Definition quiet o : Prop := starts o = false ∧ (∀ id b, told_step id b o = b) ∧ ∀ pre, out_ok pre o.

Lemma quiet_list os os' :
  Forall quiet os' → ordered os →
  ordered (os ++ os') ∧ started (os ++ os') = started os ∧ ∀ id, told_open id (os ++ os') = told_open id os.
Proof.
  intros Hq. revert os. induction Hq as [|o os' (Hst & Ht & Hok) _ IH]; intros os Hos; [by rw app_nil_r|].
  rw cons_middle app_assoc. destruct (IH (os ++ [o])) as (H1 & H2 & H3); [by apply ordered_snoc|].
  split; [done|]. rw H2 started_snoc Hst. split; [lia|]. intros id. by rw H3 told_open_snoc Ht.
Qed.
End log.

(** ** The invariant *)

Section facts.
Context {N : NetTypes} {AC : AddrCodecs} {AL : AddrCodecsLaws} (sha256 : bytes → bytes) {PH : PeerHash sha256}.
Context (transport_listen transport_dial : Multiaddr → option (TransportErr N)) (is_upgrade : Incoming N → bool).
Abbreviation St := (InnerService N).
Implicit Types s : St.

(** At least [e] pieces of outbound work were started, the results of [d] of them
    have come back, [L] are the addresses with a live listener, and the count is at
    most [B]. *)
Record Inv (B : Z) (d e : nat) (L : gset Multiaddr) s : Prop := {
  inv_ids : ∀ id c, sessions s !! id = Some c → ctx_id c = id;
  inv_keys : ∀ i j c c' k, sessions s !! i = Some c → sessions s !! j = Some c' →
    ctx_remote_pubkey c = Some k → ctx_remote_pubkey c' = Some k → i = j;
  inv_peers : ∀ id c k, sessions s !! id = Some c → ctx_remote_pubkey c = Some k →
    extract_peer_id (ctx_address c) = Some (Ok (Some (from_public_key sha256 k)));
  inv_handles : ∀ id p, (id, p) ∈ session_proto_handles s → is_Some (sessions s !! id);
  inv_limit : 0 ≤ max_connection_number s < 2 ^ 63 ∧ Z.of_nat (size (sessions s)) ≤ max_connection_number s + 1;
  inv_dials : ∀ a, is_Some (dial_protocols s !! a) → addr_wf a;
  inv_told : ∀ id, told_open id (outs s) = bool_decide (is_Some (sessions s !! id));
  inv_ordered : ordered (outs s);
  inv_count : (e ≤ started (outs s))%nat ∧
              match state s with
              | Running n => 0 ≤ n ≤ B ∧ Z.of_nat (started (outs s)) + Z.of_nat (size (L ∖ listens s)) ≤ n + Z.of_nat d
              | _ => True
              end;
}.

Lemma service_emit_ok {E} B d e L (o : Out N) : quiet o → ok_on (Inv B d e L) (emit (E:=E) o).
Proof.
  intros (Hst & Ht & Hok) s [H1 H2 H3 H4 H5 H6 H7 H8 H9]. exists (), (add_out o s). split; [done|]. split; simpl; try done.
  - intros id. by rw told_open_snoc Ht.
  - by apply ordered_snoc.
  - rw started_snoc Hst Nat.add_0_r. done.
Qed.

Lemma each_ok {E A} P (f : A → M St E unit) l : (∀ x, x ∈ l → ok_on P (f x)) → ok_on P (each f l).
Proof.
  induction l as [|x l IH]; intros Hf; cbn [each]; [apply ok_ret|].
  apply ok_bind; [apply Hf; set_solver|]. intros _. apply IH. set_solver.
Qed.

(** An event to a session that exists. *)
Lemma emit_session B d e L s (id : nat) (p : Priority) (ev : SessionEvent N) :
  Inv B d e L s → is_Some (sessions s !! id) → Inv B d e L (add_out (OSession id p ev) s).
Proof.
  intros [H1 H2 H3 H4 H5 H6 H7 H8 H9] Hid. split; simpl; try done.
  - intros i. rw told_open_snoc. apply H7.
  - apply ordered_snoc; [done|]. simpl. by rw H7 bool_decide_eq_true_2.
  - rw started_snoc Nat.add_0_r. done.
Qed.

Lemma to_session_ok {E} B d e L (id : nat) (p : Priority) (ev : SessionEvent N) :
  ok_on (Inv B d e L) (s ← get; when (bool_decide (is_Some (sessions s !! id))) (emit (E:=E) (OSession id p ev))).
Proof.
  apply ok_get_bind. intros s Hs. case_bool_decide as Hid; [|by exists (), s].
  eexists (), _. split; [done|]. by apply emit_session.
Qed.

(** The contexts may change in what is shared with other tasks. *)
Definition same_session (c c' : SessionContext) : Prop :=
  ctx_id c' = ctx_id c ∧ ctx_address c' = ctx_address c ∧ ctx_ty c' = ctx_ty c ∧ ctx_remote_pubkey c' = ctx_remote_pubkey c.

Lemma contexts_ok B d e L s m :
  Inv B d e L s → (∀ id, option_relation same_session (λ _, False) (λ _, False) (sessions s !! id) (m !! id)) →
  Inv B d e L (set_sessions m s).
Proof.
  intros [H1 H2 H3 H4 H5 H6 H7 H8 H9] Hm.
  assert (∀ id c', m !! id = Some c' → ∃ c, sessions s !! id = Some c ∧ same_session c c') as Hback.
  { intros id c' Hc. specialize (Hm id). rw Hc in Hm. destruct (sessions s !! id) as [c|]; [by exists c|done]. }
  assert (∀ id, is_Some (m !! id) ↔ is_Some (sessions s !! id)) as Hdom.
  { intros id. specialize (Hm id). destruct (sessions s !! id), (m !! id); simpl in Hm; try done; split; intros [? ?]; done. }
  split; simpl; try done.
  - intros id c' Hc. destruct (Hback _ _ Hc) as (c & Hc0 & Hi & _). rw Hi. by apply H1.
  - intros i j c c' k Hi Hj Hk Hk'. destruct (Hback _ _ Hi) as (c0 & Hi0 & _ & _ & _ & E0). destruct (Hback _ _ Hj) as (c1 & Hj0 & _ & _ & _ & E1).
    eapply (H2 i j c0 c1 k); try done; by rw -?E0 -?E1.
  - intros id c' k Hc Hk. destruct (Hback _ _ Hc) as (c & Hc0 & _ & Ha & _ & Hp). rw Ha. eapply H3; [done|]. by rw -Hp.
  - intros id p Hp. apply Hdom. by eapply H4.
  - split; [apply H5|]. replace (size m) with (size (sessions s)); [apply H5|]. rw -!(size_dom (D:=gset nat)). f_equal. apply set_eq. intros i.
    rw !elem_of_dom. by rw Hdom.
  - intros id. rw H7. by apply bool_decide_ext.
Qed.

Lemma send_to_ok {E} B d e L p proto data id : ok_on (Inv B d e L) (send_to (N:=N) (E:=E) p proto data id).
Proof.
  apply ok_get_bind. intros s Hs. case_bool_decide as Hid; [|by exists (), s].
  eexists (), _. split; [done|]. apply emit_session; [|by apply lookup_alter_is_Some].
  apply contexts_ok; [done|]. intros i. destruct (decide (i = id)) as [->|Hi].
  - rw lookup_alter_eq. by destruct (sessions s !! id).
  - rw lookup_alter_ne //. by destruct (sessions s !! i).
Qed.

Lemma send_all_ok {E} B d e L p proto data ids : ok_on (Inv B d e L) (send_all (N:=N) (E:=E) p proto data ids).
Proof. induction ids as [|id ids IH]; [apply ok_ret|]. apply ok_bind; [apply send_to_ok|by intros]. Qed.

(** A session is removed and the user is told. *)
Lemma remove_ok B d e L s id c :
  Inv B d e L s → sessions s !! id = Some c →
  Inv B d e L (add_out (OEvent (EvSessionClose c))
    (set_sessions (delete id (sessions s)) (set_session_handles (filter (λ k, id ≠ k.1) (session_proto_handles s)) s))).
Proof.
  intros [H1 H2 H3 H4 H5 H6 H7 H8 H9] Hc. split; simpl.
  - intros i c' [_ Hi]%lookup_delete_Some. by apply H1.
  - intros i j c0 c1 k [_ Hi]%lookup_delete_Some [_ Hj]%lookup_delete_Some. by apply H2.
  - intros i c' k [_ Hi]%lookup_delete_Some. by apply (H3 _ _ _ Hi).
  - intros i p [Hne Hip]%elem_of_filter. rw lookup_delete_ne //. by eapply H4.
  - split; [apply H5|]. rw map_size_delete_Some; [|by exists c]. lia.
  - done.
  - intros i. rw told_open_snoc /= (H1 _ _ Hc) H7. destruct (decide (id = i)) as [->|Hi].
    + by rw lookup_delete_eq.
    + by rw lookup_delete_ne.
  - apply ordered_snoc; [done|]. simpl. rw (H1 _ _ Hc) H7 bool_decide_eq_true_2 //.
  - rw started_snoc Nat.add_0_r. done.
Qed.

Lemma filter_handles_ok B d e L s id :
  Inv B d e L s → Inv B d e L (set_session_handles (filter (λ k, id ≠ k.1) (session_proto_handles s)) s).
Proof. intros [H1 H2 H3 H4 H5 H6 H7 H8 H9]. split; simpl; try done. intros i p [_ Hip]%elem_of_filter. by eapply H4. Qed.

Lemma session_close_ok {E} B d e L id source : ok_on (Inv B d e L) (session_close (N:=N) (E:=E) id source).
Proof.
  intros s Hs. rw /session_close bind_get. destruct source; cbn [decide].
  - rewrite -> decide_True by done. case_bool_decide as Hid; [|by exists (), s].
    eexists (), _. split; [done|]. by apply emit_session.
  - rewrite -> decide_False by done. rw bind_modify. destruct (sessions s !! id) as [c|] eqn:Hc.
    + rw bind_modify. eexists (), _. split; [done|]. by apply (remove_ok _ _ _ _ s).
    + eexists (), _. split; [done|]. by apply filter_handles_ok.
Qed.

Lemma quiet_listen_close a : quiet (N:=N) (OEvent (EvListenClose a)).
Proof. by split_and!. Qed.

Lemma shutdown_task_ok {E} B d e L quick : ok_on (Inv B d e L) (shutdown_task (N:=N) (E:=E) quick).
Proof.
  intros s Hs. rw /shutdown_task /update_state bind_modify bind_get bind_modify.
  assert (Inv B d e L (set_listens ∅ (set_service_state (pre_shutdown (state s)) s))) as Hs1 by (destruct Hs as [? ? ? ? ? ? ? ? [? ?]]; by split).
  revert Hs1. generalize (set_listens ∅ (set_service_state (pre_shutdown (state s)) s)).
  match goal with |- ∀ s, Inv _ _ _ _ s → ∃ a s', ?m s = _ ∧ _ => change (ok_on (Inv B d e L) m) end.
  apply ok_bind; [apply each_ok; intros a _; apply service_emit_ok, quiet_listen_close|]. intros _. destruct quick.
  - repeat (apply ok_bind; [apply ok_modify; by intros ? []|intros _]).
    apply each_ok. intros i _. apply session_close_ok.
  - apply each_ok. intros i _. apply session_close_ok.
Qed.

Lemma try_update_listens_ok {E} B d e L g : ok_on (Inv B d e L) (try_update_listens (N:=N) (E:=E) g).
Proof.
  assert (∀ s0, ok_on (Inv B d e L) (
    modify (set_context_listens (elements (listens s0)));;
    emit (N:=N) (E:=E) (OUpdate (elements (listens s0)));;
    each (λ proto_id,
      if service_gone g proto_id then emit (OError (ErProtocolHandleError proto_id (AbnormallyClosed None)))
      else emit (OServiceHandle proto_id (SvUpdate (elements (listens s0))))) (elements (service_proto_handles s0));;
    each (λ k,
      if session_gone g k then emit (OError (ErProtocolHandleError k.2 (AbnormallyClosed (Some k.1))))
      else emit (OSessionHandle k.1 k.2 (SsUpdate (elements (listens s0))))) (elements (session_proto_handles s0));;
    when (existsb (service_gone g) (elements (service_proto_handles s0)) || existsb (session_gone g) (elements (session_proto_handles s0)))
      (shutdown_task false))) as H.
  2: { apply ok_get_bind. intros s Hs. case_decide; [by exists (), s|]. by apply H. }
  intros s0. apply ok_bind; [apply ok_modify; by intros ? []|intros _].
  apply ok_bind; [by apply service_emit_ok; split_and!|intros _].
  apply ok_bind; [apply each_ok; intros p _; destruct (service_gone g p); by apply service_emit_ok; split_and!|intros _].
  apply ok_bind; [apply each_ok; intros k _; destruct (session_gone g k); by apply service_emit_ok; split_and!|intros _].
  apply ok_when, shutdown_task_ok.
Qed.

(** ** New sessions *)

Lemma next_id_succ id : Z.of_nat (Service.next_id id) = FutureTask.succ (Z.of_nat id).
Proof. rw /Service.next_id Z2Nat.id //. apply succ_range. Qed.

(** The search for a session id is that of the task manager. *)
Lemma find_session_find_id fuel used id :
  find_session fuel used id = Z.to_nat <$> find_id fuel (set_map Z.of_nat (dom used)) (Z.of_nat id).
Proof.
  revert id. induction fuel as [|fuel IH]; intros id; [done|]. cbn [find_session find_id]. rw -next_id_succ IH.
  assert (is_Some (used !! Service.next_id id) ↔ Z.of_nat (Service.next_id id) ∈ set_map (D:=gset Z) Z.of_nat (dom used)) as Hiff.
  { rw -elem_of_dom elem_of_map. split; [by exists (Service.next_id id)|]. intros (j & ->%Nat2Z.inj & Hj). done. }
  do 2 case_decide; try tauto. by rw /= Nat2Z.id.
Qed.

Lemma find_session_fresh (used : gmap nat SessionContext) id :
  Z.of_nat (size used) < 2 ^ 64 → ∃ id', find_session (S (size used)) used id = Some id' ∧ used !! id' = None.
Proof.
  intros Hs. rw find_session_find_id. set (u := set_map (D:=gset Z) Z.of_nat (dom used)).
  assert (size u = size used) as Hu .
  { rw /u /set_map size_list_to_set; [|apply NoDup_fmap_2; [apply _|apply NoDup_elements]]. by rw length_fmap -(size_dom (D:=gset nat)). }
  destruct (add_task_finds (mkManager u (Z.of_nat id))) as (i & m & Hadd); [by rw /= Hu|].
  rw /add_task in Hadd. cbn [signals FutureTask.next_id] in Hadd. rw Hu in Hadd. pose proof (find_id_spec (S (size used)) u (Z.of_nat id)) as Hsp.
  destruct (find_id (S (size used)) u (Z.of_nat id)) as [j|]; [|done]. destruct Hsp as (Hj & Hr & _).
  exists (Z.to_nat j). split; [done|]. apply not_elem_of_dom. intros Hd. apply Hj. apply elem_of_map. exists (Z.to_nat j). split; [lia|done].
Qed.

Definition handles_opened (id : nat) (ps : list nat) s : St :=
  set_outs (outs s ++ ((λ p, OSpawn (JSessionHandle id p)) <$> ps))
    (set_session_handles (list_to_set (pair id <$> ps) ∪ session_proto_handles s) s).

Lemma session_handles_loop_spec {E} id protos s :
  is_Some (sessions s !! id) →
  session_handles_loop (E:=E) id protos s =
    (Ok (), handles_opened id (List.filter (λ '(_, m), pm_session_handle m id) protos).*1 s).
Proof.
  revert s. induction protos as [|[p m] protos IH]; intros s Hid.
  - rw /handles_opened /= app_nil_r left_id_L. by destruct s.
  - cbn [session_handles_loop]. rw bind_get bool_decide_eq_true_2 // andb_true_r. cbn [List.filter]. destruct (pm_session_handle m id).
    + rw /= {1}/mbind /M_bind /=. rw IH //. rw /handles_opened /set_outs /set_session_handles /=. f_equal. f_equal; [|by rw -app_assoc].
      apply set_eq. intros k. set_solver.
    + rw {1}/mbind /M_bind /=. by apply IH.
Qed.

Lemma quiet_ok B d e L s os : Inv B d e L s → Forall quiet os → Inv B d e L (set_outs (outs s ++ os) s).
Proof.
  intros [H1 H2 H3 H4 H5 H6 H7 H8 H9] Hq. destruct (quiet_list _ _ Hq H8) as (Ho & Hst & Ht). split; simpl; try done.
  - intros id. by rw Ht.
  - by rw Hst.
Qed.

Lemma session_of_key_None k s id c : session_of_key k s = None → sessions s !! id = Some c → ctx_remote_pubkey c ≠ Some k.
Proof.
  rw /session_of_key. intros Hh Hc Hk.
  assert (c ∈ List.filter (λ c, bool_decide (ctx_remote_pubkey c = Some k)) (map_to_list (sessions s)).*2) as Hin.
  { apply list_elem_of_In, List.filter_In. split; [|by apply bool_decide_eq_true_2].
    apply list_elem_of_In, list_elem_of_fmap. exists (id, c). split; [done|]. by apply elem_of_map_to_list. }
  destruct (List.filter _ _); [by apply not_elem_of_nil in Hin|done].
Qed.

Lemma push_peer_id a k :
  addr_wf a → extract_peer_id a = Some (Ok None) →
  extract_peer_id (push a (P2P (peer_inner (from_public_key sha256 k)))) = Some (Ok (Some (from_public_key sha256 k))).
Proof.
  intros [ps Hps] Hnone. rw (extract_peer_id_Comps _ _ Hps) in Hnone. injection Hnone as Hnone.
  rw (extract_peer_id_Comps _ (ps ++ [P2P (peer_inner (from_public_key sha256 k))])).
  - rw first_some_app Hnone /=. reflexivity.
  - apply Comps_app; [done|]. apply Comps_write. apply peer_from_bytes_check_p2p. exists (from_public_key sha256 k). apply (peer_from_seed sha256 (PH:=PH)).
Qed.

(** What the checks on the remote's key leave: no session has the key, and the
    address has its peer id. *)
Lemma check_key_spec {E} handle pk a ty la s :
  addr_wf a → (ty = Inbound → is_Some la) →
  ∃ r os, check_key (E:=E) sha256 handle pk a ty la s = (Ok r, set_outs (outs s ++ os) s) ∧ Forall quiet os ∧
    ∀ a' k, r = Some a' → pk = Some k →
      session_of_key k s = None ∧ extract_peer_id a' = Some (Ok (Some (from_public_key sha256 k))).
Proof.
  intros Ha Hla. assert (s = set_outs (outs s ++ []) s) as Hnil by (rw app_nil_r; by destruct s).
  rw /check_key. destruct pk as [key|]; [|exists (Some a), []; by rw -Hnil].
  rw bind_get. destruct (session_of_key key s) as [c|] eqn:Hc.
  - exists None. destruct ty; cbn [is_outbound].
    + eexists [_; _]. split; [by rw /mbind /M_bind /emit /modify /add_out /= -app_assoc|]. by repeat constructor.
    + destruct (Hla eq_refl) as [b ->]. eexists [_; _]. split; [by rw /mbind /M_bind /emit /modify /add_out /= -app_assoc|]. by repeat constructor.
  - assert (∃ r, extract_peer_id a = Some (Ok r)) as [r Hr] by (destruct Ha as [ps Hps]; eexists; by apply (extract_peer_id_Comps _ ps)).
    rw Hr /addr_call. destruct r as [peer|]; rw {1}/mbind {1}/M_bind {1}/mret {1}/M_ret.
    + case_bool_decide as Hp.
      * exists (Some a), []. rw -Hnil. split; [done|]. split; [done|]. intros a' k [= <-] [= <-]. by rw Hr Hp.
      * exists None, [OError (ErDialerError a DePeerIdNotMatch)]. split; [done|]. split; [by repeat constructor|done].
    + eexists (Some _), []. rw -Hnil. split; [done|]. split; [done|]. intros a' k [= <-] [= <-]. split; [done|]. by apply push_peer_id.
Qed.

Lemma new_session_configured ctx target s :
  configured_session (new_session ctx (pm_name <$> (target_protocols target (protocol_configs s)).*2) s) ∧
  configured_session (new_session ctx [] s).
Proof.
  assert (∀ p m, protocol_configs s !! p = Some m →
    is_Some ((list_to_map (reverse ((λ '(_, m), (pm_name m, pm_inner m)) <$> map_to_list (protocol_configs s))) : gmap (list byte) Meta) !! pm_name m)) as Hn.
  { intros p m Hp. apply not_eq_None_Some. intros Hno%not_elem_of_list_to_map_2. apply Hno.
    apply list_elem_of_fmap. exists (pm_name m, pm_inner m). split; [done|]. apply elem_of_reverse, list_elem_of_fmap. exists (p, m). split; [done|].
    by apply elem_of_map_to_list. }
  assert (∀ p meta, (pm_inner <$> protocol_configs s) !! p = Some meta →
    is_Some ((list_to_map (reverse ((λ '(_, m), (pm_name m, pm_inner m)) <$> map_to_list (protocol_configs s))) : gmap (list byte) Meta) !! meta_name meta)) as Hi.
  { intros p meta. rw lookup_fmap_Some. intros (m & <- & Hp). by eapply Hn. }
  split; (split; simpl; [exact Hi|]); intros name; [|by intros ?%not_elem_of_nil].
  rw list_elem_of_fmap. intros (m & -> & Hm). apply list_elem_of_fmap in Hm as ([p m'] & -> & Hm). apply (Hn p).
  destruct target as [|id|f]; simpl in Hm.
  - by apply elem_of_map_to_list.
  - destruct (protocol_configs s !! id) as [m0|] eqn:E0; simpl in Hm; [|by apply not_elem_of_nil in Hm].
    apply list_elem_of_singleton in Hm as [= -> ->]. done.
  - apply list_elem_of_In, List.filter_In in Hm as [Hm _]. by apply elem_of_map_to_list, list_elem_of_In.
Qed.

(** The session that an accepted connection gets. *)
Lemma open_ok B d e L s ctx ns ps :
  Inv B d e L s → sessions s !! ctx_id ctx = None →
  (∀ k id c, ctx_remote_pubkey ctx = Some k → sessions s !! id = Some c → ctx_remote_pubkey c ≠ Some k) →
  (∀ k, ctx_remote_pubkey ctx = Some k → extract_peer_id (ctx_address ctx) = Some (Ok (Some (from_public_key sha256 k)))) →
  Z.of_nat (size (sessions s)) ≤ max_connection_number s →
  configured_session ns → ns_context ns = ctx →
  Inv B d e L (add_out (OSpawn (JSession ns)) (add_out (OEvent (EvSessionOpen ctx))
    (handles_opened (ctx_id ctx) ps (set_sessions (<[ctx_id ctx := ctx]> (sessions s)) (set_next_session (ctx_id ctx) s))))).
Proof.
  intros [H1 H2 H3 H4 H5 H6 H7 H8 H9] Hnew Hkey Hpeer Hmax Hns Hctx.
  destruct (quiet_list (outs s) ((λ p, OSpawn (JSessionHandle (ctx_id ctx) p)) <$> ps)) as (Ho & Hst & Ht); [|done|].
  { apply Forall_fmap, Forall_true. intros p. by split_and!. }
  split; simpl.
  - intros id c [[<- <-]|[_ Hc]]%lookup_insert_Some; [done|by apply H1].
  - intros i j c c' k [[<- <-]|[Hi Hc]]%lookup_insert_Some [[<- <-]|[Hj Hc']]%lookup_insert_Some Hk Hk'; try done.
    + by destruct (Hkey _ _ _ Hk Hc').
    + by destruct (Hkey _ _ _ Hk' Hc).
    + by eapply H2.
  - intros id c k [[<- <-]|[_ Hc]]%lookup_insert_Some Hk; [by apply Hpeer|by eapply H3].
  - intros id p [Hp|Hp]%elem_of_union.
    + apply elem_of_list_to_set, list_elem_of_fmap in Hp as (q & [= -> ->] & _). rw lookup_insert_eq. by eexists.
    + apply lookup_insert_is_Some'. right. by eapply H4.
  - split; [apply H5|]. rw map_size_insert_None //. lia.
  - done.
  - intros id. rw !told_open_snoc Ht H7 /=. destruct (decide (ctx_id ctx = id)) as [<-|Hne].
    + by rw lookup_insert_eq.
    + by rw lookup_insert_ne.
  - apply ordered_snoc; [apply ordered_snoc; [done|]|]; simpl.
    + rw Ht H7 Hnew. done.
    + split; [|done]. rw told_open_snoc Hctx /=. by rw decide_True.
  - rw !started_snoc Hst !Nat.add_0_r. done.
Qed.

Lemma session_open_ok {E} B d e L s handle pk a ty la :
  Inv B d e L s → B < 2 ^ 63 → addr_wf a → (ty = Inbound → is_Some la) → reached_max_connection_limit s = false →
  ∃ s', session_open (E:=E) sha256 handle pk a ty la s = (Ok (), s') ∧ Inv B d e L s'.
Proof.
  intros Hs HB Ha Hla Hlim. rw /session_open bind_get bind_modify.
  set (s1 := set_dial_protocols (delete a (dial_protocols s)) s).
  assert (Inv B d e L s1) as Hs1.
  { destruct Hs as [H1 H2 H3 H4 H5 H6 H7 H8 H9]. split; simpl; try done. intros a' [t [_ Ht]%lookup_delete_Some]. apply H6. by exists t. }
  destruct (check_key_spec (E:=E) handle pk a ty la s1 Ha Hla) as (r & os & Hck & Hq & Hr). rw (M_bind_Ok _ _ _ _ _ Hck).
  pose proof (quiet_ok _ _ _ _ _ _ Hs1 Hq) as Hs2. set (s2 := set_outs (outs s1 ++ os) s1) in *.
  destruct r as [a'|]; [|by exists s2].
  assert (Z.of_nat (size (sessions s2)) ≤ max_connection_number s2) as Hmax.
  { destruct Hs as [_ _ _ _ [Hm Hsz] _ _ _ Hc]. rw /reached_max_connection_limit /checked_add in Hlim. simpl.
    revert Hlim. set (n := default 0 (into_inner (state s))). assert (0 ≤ n < 2 ^ 63) as Hn by (rw /n; destruct (state s); simpl in *; lia).
    rewrite -> (proj2 (Z.leb_le _ usize_max)) by (unfold_int; lia). simpl. intros Hlim%Z.ltb_ge. lia. }
  destruct (find_session_fresh (sessions s2) (next_session s2)) as (id & Hfind & Hfresh).
  { destruct Hs2 as [_ _ _ _ [Hm Hsz] _ _ _ _]. lia. }
  assert (generate_next_session (E:=E) s2 = (Ok (), set_next_session id s2)) as Hgen
    by (rw /generate_next_session bind_get Hfind; done).
  rw (M_bind_Ok _ _ _ _ _ Hgen) bind_gets bind_modify.
  assert (∀ x, session_handles_open (E:=E) id (set_sessions (<[id := x]> (sessions (set_next_session id s2))) (set_next_session id s2)) =
    (Ok (), handles_opened id (List.filter (λ '(_, m), pm_session_handle m id) (map_to_list (protocol_configs s2))).*1
      (set_sessions (<[id := x]> (sessions s2)) (set_next_session id s2)))) as Hho.
  { intros x. rw /session_handles_open bind_get session_handles_loop_spec //. simpl. rw lookup_insert_eq. by eexists. }
  cbn [next_session set_next_session]. rw (M_bind_Ok _ _ _ _ _ (Hho _)). eexists. split; [done|].
  set (ctx := mkSessionContext id a' ty pk false 0). apply (open_ok B d e L s2 ctx); try done.
  - intros k i c Hk. destruct (Hr a' k eq_refl Hk) as [Hno _]. by apply session_of_key_None.
  - intros k Hk. by apply (Hr a' k eq_refl Hk).
  - destruct ty; [apply (proj1 (new_session_configured _ _ _))|apply (proj2 (new_session_configured _ TpAll _))].
Qed.

(** ** The count of outbound work *)

Lemma size_le_one (X Y : gset Multiaddr) a : X ⊆ {[a]} ∪ Y → (size X ≤ S (size Y))%nat.
Proof.
  intros Hs. apply subseteq_size in Hs. rw size_union_alt size_singleton in Hs.
  pose proof (subseteq_size (Y ∖ {[a]}) Y ltac:(set_solver)). lia.
Qed.

Lemma emit_inv B d e L s (o : Out N) : Inv B d e L s → quiet o → Inv B d e L (add_out o s).
Proof. intros Hs Hq. by apply (quiet_ok _ _ _ _ _ [o]); [|constructor]. Qed.

Lemma decrease_ok B d L s :
  Inv B d (S d) L s → B < 2 ^ 63 → Inv B (S d) (S d) L (set_service_state (decrease (state s)) s).
Proof.
  intros [H1 H2 H3 H4 H5 H6 H7 H8 [He H9]] HB. split; simpl; try done. split; [done|].
  destruct (state s) as [n| |]; simpl; try done. rewrite -> wrap_small by lia. lia.
Qed.

Lemma forget_dial B d e L s a : Inv B d e L s → Inv B d e L (set_dial_protocols (delete a (dial_protocols s)) s).
Proof.
  intros [H1 H2 H3 H4 H5 H6 H7 H8 H9]. split; simpl; try done. intros a' [t [_ Ht]%lookup_delete_Some]. apply H6. by exists t.
Qed.

Lemma remember_dial B d e L s a t : addr_wf a → Inv B d e L s → Inv B d e L (set_dial_protocols (<[a := t]> (dial_protocols s)) s).
Proof.
  intros Ha [H1 H2 H3 H4 H5 H6 H7 H8 H9]. split; simpl; try done.
  intros a' [? [[<- _]|[_ Ht]]%lookup_insert_Some]; [done|]. apply H6. by eexists.
Qed.

(** Work is started and counted. *)
Lemma start_ok B d e L s (o : Out N) :
  Inv B d e L s → B < 2 ^ 63 → starts o = true → (∀ id b, told_step id b o = b) → (∀ pre, out_ok pre o) →
  Inv (B + 1) d e L (set_service_state (increase (state s)) (add_out o s)).
Proof.
  intros [H1 H2 H3 H4 H5 H6 H7 H8 [He H9]] HB Hst Ht Hok. split; simpl; try done.
  - intros id. rw told_open_snoc Ht. apply H7.
  - by apply ordered_snoc.
  - rw started_snoc Hst. split; [lia|]. destruct (state s) as [n| |]; simpl; try done. rewrite -> wrap_small by lia. lia.
Qed.

Lemma Inv_mono B B' d e L s : B ≤ B' → Inv B d e L s → Inv B' d e L s.
Proof.
  intros HB [H1 H2 H3 H4 H5 H6 H7 H8 [He H9]]. split; try done. split; [done|]. destruct (state s); try done. lia.
Qed.

(** An address as it is kept in the set of listens. *)
Definition cleared (a : Multiaddr) : Multiaddr :=
  match iter a with Some (Ok ps) => from_iter (clear_protocol <$> ps) | _ => a end.

Lemma clear_addr_wf {E} a s : addr_wf a → clear_addr (E:=E) a s = (Ok (cleared a), s).
Proof. intros [ps Hps]. by rw /clear_addr /cleared (iter_Comps _ _ Hps). Qed.

(** A listener started: its address is listened on, and it lives. *)
Lemma listening_ok B d e L s a : Inv B d e L s → Inv B d e ({[a]} ∪ L) (set_listens ({[a]} ∪ listens s) s).
Proof.
  intros [H1 H2 H3 H4 H5 H6 H7 H8 [He H9]]. split; simpl; try done. split; [done|]. destruct (state s) as [n| |]; simpl in *; try done.
  pose proof (subseteq_size (({[a]} ∪ L) ∖ ({[a]} ∪ listens s)) (L ∖ listens s) ltac:(set_solver)). lia.
Qed.

(** Events that are the result of outbound work. *)
Definition outbound_result (event : SessionEvent N) : bool :=
  match event with
  | SeHandshakeSuccess _ _ _ Outbound _ | SeHandshakeError _ Outbound _ | SeDialError _ _ | SeListenError _ _ | SeListenStart _ _ => true
  | _ => false
  end.
Definition live_after (event : SessionEvent N) (L : gset Multiaddr) : gset Multiaddr :=
  match event with SeListenStart a _ => {[cleared a]} ∪ L | _ => L end.

(** What the service's tasks send it. *)
Definition event_wf (event : SessionEvent N) : Prop :=
  match event with
  | SeHandshakeSuccess _ _ a ty la => addr_wf a ∧ (ty = Inbound → is_Some la)
  | SeListenStart a _ => addr_wf a
  | SeProtocolMessage _ _ | SeProtocolOpen _ | SeProtocolClose _ => False
  | _ => True
  end.

Lemma handshake_success_ok {E} B d e L s g handle pk a ty la :
  Inv B d e L s → B < 2 ^ 63 → addr_wf a → (ty = Inbound → is_Some la) → e = (if is_outbound ty then S d else d) →
  ∃ s', handle_session_event (E:=E) sha256 is_upgrade g (SeHandshakeSuccess handle pk a ty la) s = (Ok (), s') ∧ Inv B e e L s'.
Proof.
  intros Hs HB Ha Hla He. rw /handle_session_event bind_get. set (s1 := if is_outbound ty then set_service_state (decrease (state s)) s else s).
  assert (when (is_outbound ty) (update_state (E:=E) decrease) s = (Ok (), s1)) as Hw by (by destruct ty).
  rw (M_bind_Ok _ _ _ _ _ Hw) bind_get.
  assert (Inv B e e L s1) as Hs1 by (subst e s1; destruct ty; [by apply decrease_ok|done]).
  destruct (reached_max_connection_limit s1) eqn:Hl; [by exists s1|]. by apply session_open_ok.
Qed.

Lemma listen_error_ok {E} B d L s g a err :
  Inv B d (S d) L s → B < 2 ^ 63 →
  ∃ s', handle_session_event (E:=E) sha256 is_upgrade g (SeListenError a err) s = (Ok (), s') ∧ Inv B (S d) (S d) L s'.
Proof.
  intros Hs HB. rw /handle_session_event bind_get /emit bind_modify. set (s1 := add_out _ s).
  assert (Inv B d (S d) L s1) as Hs1 by (apply emit_inv; [done|by split_and!]).
  case_decide as Ha; [|eexists; split; [done|]; by apply decrease_ok]. rw bind_modify.
  assert (Inv B (S d) (S d) L (set_listens (listens s1 ∖ {[a]}) s1)) as Hs2.
  { subst s1. destruct Hs1 as [H1 H2 H3 H4 H5 H6 H7 H8 [He H9]]. split; simpl in *; try done. split; [done|]. destruct (state s) as [n| |]; simpl in *; try done.
    assert (L ∖ (listens s ∖ {[a]}) ⊆ {[a]} ∪ L ∖ listens s) as Hle%size_le_one by (intros x; destruct (decide (x = a)); set_solver).
    lia. }
  destruct (try_update_listens_ok (E:=E) _ _ _ _ g _ Hs2) as ([] & s3 & Hup & Hs3). rw (M_bind_Ok _ _ _ _ _ Hup).
  eexists. split; [done|]. apply emit_inv; [done|by split_and!].
Qed.

(** A live listener fails. *)
Lemma listener_fails_ok {E} B d L s g a err :
  Inv B d d L s → B < 2 ^ 63 → a ∈ L →
  ∃ s', handle_session_event (E:=E) sha256 is_upgrade g (SeListenError a err) s = (Ok (), s') ∧ Inv B d d (L ∖ {[a]}) s'.
Proof.
  intros Hs HB HaL. rw /handle_session_event bind_get /emit bind_modify. set (s1 := add_out _ s).
  assert (Inv B d d L s1) as Hs1 by (apply emit_inv; [done|by split_and!]). case_decide as Ha.
  - rw bind_modify. assert (Inv B d d (L ∖ {[a]}) (set_listens (listens s1 ∖ {[a]}) s1)) as Hs2.
    { subst s1. destruct Hs1 as [H1 H2 H3 H4 H5 H6 H7 H8 [He H9]]. split; simpl in *; try done. split; [done|]. destruct (state s) as [n| |]; simpl in *; try done.
      pose proof (subseteq_size ((L ∖ {[a]}) ∖ (listens s ∖ {[a]})) (L ∖ listens s) ltac:(set_solver)). lia. }
    destruct (try_update_listens_ok (E:=E) _ _ _ _ g _ Hs2) as ([] & s3 & Hup & Hs3). rw (M_bind_Ok _ _ _ _ _ Hup).
    eexists. split; [done|]. apply emit_inv; [done|by split_and!].
  - eexists. split; [done|]. subst s1. destruct Hs1 as [H1 H2 H3 H4 H5 H6 H7 H8 [He H9]]. split; simpl in *; try done. split; [done|].
    destruct (state s) as [n| |]; simpl in *; try done.
    pose proof (size_union_alt {[a]} ((L ∖ {[a]}) ∖ listens s)) as Hsz. rw size_singleton in Hsz.
    replace ({[a]} ∪ (L ∖ {[a]}) ∖ listens s) with (L ∖ listens s) in Hsz by (apply set_eq; intros x; destruct (decide (x = a)); set_solver).
    replace (((L ∖ {[a]}) ∖ listens s) ∖ {[a]}) with ((L ∖ {[a]}) ∖ listens s) in Hsz by set_solver.
    rewrite -> wrap_small by lia. lia.
Qed.

Lemma listen_start_ok {E} B d L s g a incoming :
  Inv B d (S d) L s → B < 2 ^ 63 → addr_wf a →
  ∃ s', handle_session_event (E:=E) sha256 is_upgrade g (SeListenStart a incoming) s = (Ok (), s') ∧
    Inv B (S d) (S d) ({[cleared a]} ∪ L) s'.
Proof.
  intros Hs HB Ha. rw /handle_session_event bind_get /emit bind_modify (M_bind_Ok _ _ _ _ _ (clear_addr_wf (E:=E) _ _ Ha)).
  rw bind_modify /update_state bind_modify. set (s1 := set_service_state _ _).
  assert (Inv B (S d) (S d) ({[cleared a]} ∪ L) s1) as Hs1.
  { apply (decrease_ok B d _ (set_listens ({[cleared a]} ∪ listens s) (add_out (OEvent (EvListenStarted a)) s))); [|done].
    apply (listening_ok _ _ _ _ (add_out (OEvent (EvListenStarted a)) s)). apply emit_inv; [done|by split_and!]. }
  destruct (try_update_listens_ok (E:=E) _ _ _ _ g _ Hs1) as ([] & s2 & Hup & Hs2). rw (M_bind_Ok _ _ _ _ _ Hup).
  destruct (is_upgrade incoming); [by exists s2|]. eexists. split; [done|]. apply emit_inv; [done|by split_and!].
Qed.

(** Every event is handled, and the invariant holds after it. *)
Lemma handle_event_ok {E} B d L s g event :
  event_wf event → B < 2 ^ 63 → Inv B d (if outbound_result event then S d else d) L s →
  ∃ s', handle_session_event (E:=E) sha256 is_upgrade g event s = (Ok (), s') ∧
    let d' := if outbound_result event then S d else d in Inv B d' d' (live_after event L) s'.
Proof.
  intros Hev HB Hs. destruct event as [id|a inc|h pk a ty la|a ty err|a err|a err|p data|p|p|st|id st err|id name|id|id p err|id err|err p];
    cbn [outbound_result live_after event_wf] in *; try done.
  all: try (rw /handle_session_event bind_get).
  - destruct (session_close_ok (E:=E) _ _ _ _ id Internal s Hs) as ([] & s' & Hc & Hs'). by exists s'.
  - by apply listen_start_ok.
  - destruct Hev as [Ha Hla]. destruct (handshake_success_ok (E:=E) B d _ L s g h pk a ty la Hs HB Ha Hla) as (s' & Hh & Hs'); [by destruct ty|].
    exists s'. split; [exact Hh|]. by destruct ty.
  - destruct ty; [|by exists s]. cbn [is_outbound when]. rw /update_state !bind_modify. eexists. split; [done|].
    apply emit_inv; [|by split_and!]. apply forget_dial. by apply decrease_ok.
  - rw /update_state !bind_modify. eexists. split; [done|]. apply emit_inv; [|by split_and!]. apply forget_dial. by apply decrease_ok.
  - by apply listen_error_ok.
  - by exists s.
  - destruct (sessions s !! id) as [c|]; [|by exists s]. eexists. split; [done|]. apply emit_inv; [done|by split_and!].
  - destruct (sessions s !! id) as [c|]; [|by exists s]. eexists. split; [done|]. apply emit_inv; [done|by split_and!].
  - destruct (sessions s !! id) as [c|]; [|by exists s]. eexists. split; [done|]. apply emit_inv; [done|by split_and!].
  - eexists. split; [done|]. apply emit_inv; [done|by split_and!].
  - destruct (sessions s !! id) as [c|]; [|by exists s]. eexists. split; [done|]. apply emit_inv; [done|by split_and!].
  - rw /emit bind_modify. destruct (shutdown_task_ok (E:=E) B d d L false (add_out (OError (ErProtocolHandleError p err)) s)) as ([] & s' & Hsh & Hs').
    { apply emit_inv; [done|by split_and!]. }
    by exists s'.
Qed.

Definition task_wf (task : ServiceTask) : Prop :=
  match task with StDial a _ | StListen a | StRawSession a _ => addr_wf a | _ => True end.

Lemma any_peer_id_ok {E} peer addrs s : Forall addr_wf addrs → ∃ b, any_peer_id (E:=E) peer addrs s = (Ok b, s).
Proof.
  induction 1 as [|a addrs [ps Hps] _ [b IH]]; [by exists false|]. cbn [any_peer_id]. rw (extract_peer_id_Comps _ _ Hps) /addr_call.
  rw {1}/mbind {1}/M_bind {1}/mret {1}/M_ret. case_bool_decide; [by exists true|by exists b].
Qed.

Lemma is_dialing_ok {E} B d e L s a : Inv B d e L s → addr_wf a → ∃ b, is_dialing (E:=E) a s = (Ok b, s).
Proof.
  intros Hs [ps Hps]. rw /is_dialing bind_get. case_bool_decide; [by exists true|].
  rw (extract_peer_id_Comps _ _ Hps) /addr_call {1}/mbind {1}/M_bind {1}/mret {1}/M_ret.
  destruct (first_some _ ps) as [peer|]; [|by exists false]. apply any_peer_id_ok. apply Forall_forall. intros a'.
  intros ([a0 t] & -> & Ha)%list_elem_of_fmap. apply (inv_dials _ _ _ _ _ Hs). exists t. by apply elem_of_map_to_list in Ha.
Qed.

(** Every task of the user is handled, and the invariant holds after it. *)
Lemma handle_task_ok {E} B d e L s p task :
  task_wf task → B < 2 ^ 63 → Inv B d e L s →
  ∃ s', handle_service_task (N:=N) (E:=E) transport_listen transport_dial p task s = (Ok (), s') ∧ Inv (B + 1) d e L s'.
Proof.
  intros Ht HB Hs.
  assert (∀ m : M St E unit, ok_on (Inv B d e L) m → ∃ s', m s = (Ok (), s') ∧ Inv (B + 1) d e L s') as Hok.
  { intros m Hm. destruct (Hm s Hs) as ([] & s' & Hr & Hs'). exists s'. split; [done|]. apply (Inv_mono B); [lia|done]. }
  rw /handle_service_task bind_get.
  destruct task as [target proto data|sid target|sid proto|proto iv tok|proto tok|sid proto iv tok|sid proto tok|t|sid|a target|a|a info|quick];
    cbn [task_wf] in Ht.
  - apply Hok, ok_get_bind. intros s1 Hs1. by apply send_all_ok.
  - destruct target; apply Hok; try (apply each_ok; intros x _); apply to_session_ok.
  - apply Hok, to_session_ok.
  - apply Hok, ok_when, service_emit_ok. by split_and!.
  - apply Hok, ok_when, service_emit_ok. by split_and!.
  - apply Hok, ok_when, service_emit_ok. by split_and!.
  - apply Hok, ok_when, service_emit_ok. by split_and!.
  - apply Hok, service_emit_ok. by split_and!.
  - apply Hok, session_close_ok.
  - destruct (is_dialing_ok (E:=E) _ _ _ _ _ _ Hs Ht) as [b Hb]. rw (M_bind_Ok _ _ _ _ _ Hb).
    destruct b; cbn [negb when]; [exists s; split; [done|]; apply (Inv_mono B); [lia|done]|]. rw /dial_inner. destruct (transport_dial a) as [err|].
    + apply (Hok (emit (OError (ErDialerError a (DeTransportError err))))), service_emit_ok. by split_and!.
    + eexists. split; [done|]. apply (start_ok B d e L (set_dial_protocols (<[a:=target]> (dial_protocols s)) s)); try done. by apply remember_dial.
  - rw (M_bind_Ok _ _ _ _ _ (clear_addr_wf (E:=E) _ _ Ht)).
    case_bool_decide; cbn [when]; [|exists s; split; [done|]; apply (Inv_mono B); [lia|done]]. rw /listen_inner. destruct (transport_listen a) as [err|].
    + apply (Hok (emit (OError (ErListenError a (LeTransportError err))))), service_emit_ok. by split_and!.
    + eexists. split; [done|]. by apply (start_ok B d e L s).
  - destruct info as [la|target].
    + apply Hok, service_emit_ok. split_and!; try done. intros pre. by exists la.
    + eexists. split; [done|]. apply (start_ok B d e L (set_dial_protocols (<[a:=target]> (dial_protocols s)) s) (OSpawn (JHandshake Outbound a None))); try done.
      by apply remember_dial.
  - apply Hok, shutdown_task_ok.
Qed.

(** ** Runs *)

Definition input_wf (input : RunInput (N:=N)) : Prop :=
  match input with RiEvent event => event_wf event | RiTask _ task => task_wf task end.
Definition consumes (input : RunInput (N:=N)) : bool := match input with RiEvent event => outbound_result event | _ => false end.
Definition listening_after (input : RunInput (N:=N)) (L : gset Multiaddr) : gset Multiaddr :=
  match input with RiEvent event => live_after event L | _ => L end.

Abbreviation turn := (run_turn (E:=Empty_set) sha256 transport_listen transport_dial is_upgrade).

(** A turn that does not end the loop. *)
Lemma run_turn_ok B d L s g g' input :
  input_wf input → B < 2 ^ 63 → stops s = false → Inv B d (if consumes input then S d else d) L s →
  ∃ s', turn g g' input s = (Ok false, s') ∧
    let d' := if consumes input then S d else d in Inv (B + 1) d' d' (listening_after input L) s'.
Proof.
  intros Hin HB Hst Hs. rw /run_turn bind_get Hst.
  destruct (try_update_listens_ok (E:=Empty_set) _ _ _ _ g _ Hs) as ([] & s1 & Hup & Hs1). rw (M_bind_Ok _ _ _ _ _ Hup).
  destruct input as [event|p task]; cbn [input_wf consumes listening_after] in *.
  - destruct (handle_event_ok (E:=Empty_set) B d L s1 g' event Hin HB Hs1) as (s2 & Hh & Hs2). rw (M_bind_Ok _ _ _ _ _ Hh).
    exists s2. split; [done|]. eapply Inv_mono; [|exact Hs2]. lia.
  - destruct (handle_task_ok (E:=Empty_set) B d d L s1 p task Hin HB Hs1) as (s2 & Hh & Hs2). rw (M_bind_Ok _ _ _ _ _ Hh). by exists s2.
Qed.

(** The turn of a live listener's failure. *)
Lemma run_turn_fails_ok B d L s g g' a err :
  B < 2 ^ 63 → stops s = false → a ∈ L → Inv B d d L s →
  ∃ s', turn g g' (RiEvent (SeListenError a err)) s = (Ok false, s') ∧ Inv B d d (L ∖ {[a]}) s'.
Proof.
  intros HB Hst Ha Hs. rw /run_turn bind_get Hst.
  destruct (try_update_listens_ok (E:=Empty_set) _ _ _ _ g _ Hs) as ([] & s1 & Hup & Hs1). rw (M_bind_Ok _ _ _ _ _ Hup).
  destruct (listener_fails_ok (E:=Empty_set) B d L s1 g' a err Hs1 HB Ha) as (s2 & Hh & Hs2). rw (M_bind_Ok _ _ _ _ _ Hh). by exists s2.
Qed.

Lemma service_listen_ok {E} B d e L s a res :
  (∀ addr i, res = inl (addr, i) → addr_wf addr) → Inv B d e L s →
  ∃ r s', service_listen (E:=E) transport_listen is_upgrade a res s = (Ok r, s') ∧
    Inv B d e (match r with inl addr => {[cleared addr]} ∪ L | inr _ => L end) s'.
Proof.
  intros Hres Hs. rw /service_listen. destruct (transport_listen a) as [err|]; [by exists (inr err), s|].
  destruct res as [[addr i]|err]; [|by exists (inr err), s]. rw /emit bind_modify.
  rw (M_bind_Ok _ _ _ _ _ (clear_addr_wf (E:=E) _ _ (Hres _ _ eq_refl))) bind_modify. set (s1 := set_listens _ _).
  assert (Inv B d e ({[cleared addr]} ∪ L) s1) as Hs1.
  { apply (listening_ok _ _ _ _ (add_out (OEvent (EvListenStarted addr)) s)). apply emit_inv; [done|by split_and!]. }
  exists (inl addr). destruct (is_upgrade i); [by exists s1|]. eexists. split; [done|]. apply emit_inv; [done|by split_and!].
Qed.

Lemma service_dial_ok {E} B d e L s a target res :
  B < 2 ^ 63 → addr_wf a → Inv B d e L s →
  ∃ r s', service_dial (E:=E) transport_dial a target res s = (Ok r, s') ∧ Inv (B + 1) d e L s'.
Proof.
  intros HB Ha Hs. rw /service_dial. destruct (is_dialing_ok (E:=E) _ _ _ _ _ _ Hs Ha) as [b Hb]. rw (M_bind_Ok _ _ _ _ _ Hb).
  assert (Inv (B + 1) d e L s) as Hs' by (apply (Inv_mono B); [lia|done]).
  destruct b; [by exists None, s|]. destruct (transport_dial a) as [err|]; [by exists (Some err), s|].
  destruct res as [addr|err]; [|by exists (Some err), s]. eexists None, _. split; [done|].
  apply (start_ok B d e L (set_dial_protocols (<[a:=target]> (dial_protocols s)) s) (OSpawn (JHandshake Outbound addr None))); try done.
  by apply remember_dial.
Qed.

Lemma run_init_ok {E} B d e L started : ok_on (Inv B d e L) (run_init (N:=N) (E:=E) started).
Proof.
  apply ok_when, ok_bind; [apply ok_modify; by intros ? []|intros _]. apply ok_get_bind. intros s0.
  revert s0. assert (∀ l, ok_on (Inv B d e L) (each (E:=E) (λ '(proto_id, meta),
    when (pm_service_handle meta)
      (modify (λ s, set_service_handles ({[proto_id]} ∪ service_proto_handles s) s);;
       emit (OSpawn (JServiceHandle proto_id));;
       modify (λ s, set_wait_handle (wait_handle s ++ [Some proto_id]) s));;
    match pm_before_send meta with
    | Some f => modify (λ s, set_before_sends (<[proto_id := f]> (before_sends s)) s)
    | None => mret ()
    end) l)) as H; [|intros s0 Hs0; by apply H].
  intros l. apply each_ok. intros [p m] _. apply ok_bind.
  - apply ok_when, ok_bind; [apply ok_modify; by intros ? []|intros _].
    apply ok_bind; [apply service_emit_ok; by split_and!|intros _]. apply ok_modify. by intros ? [].
  - intros _. destruct (pm_before_send m); [|apply ok_ret]. apply ok_modify. by intros ? [].
Qed.

(** The service with the number of results that came back and its live listeners. *)
Record World := mkWorld { w_service : St; w_done : nat; w_live : gset Multiaddr }.

(** Fewer than [2 ^ 63 - 1] dials and listens are counted. *)
Definition count_small s : Prop := match state s with Running n => n < 2 ^ 63 - 1 | _ => True end.

(** What may happen next: a turn of the loop with an event or a task (a result of
    outbound work only while some is in progress), the failure of a live listener,
    a change of what the service shares with the sessions' tasks, or one of the
    calls that precede the loop. *)
Inductive world_step : World → World → Prop :=
| world_turn s d L g g' input b s' :
    input_wf input → (consumes input = true → (d < started (outs s))%nat) → stops s = false →
    turn g g' input s = (Ok b, s') →
    world_step (mkWorld s d L) (mkWorld s' (if consumes input then S d else d) (listening_after input L))
| world_listener_fails s d L g g' a err b s' :
    a ∈ L → stops s = false → turn g g' (RiEvent (SeListenError a err)) s = (Ok b, s') →
    world_step (mkWorld s d L) (mkWorld s' d (L ∖ {[a]}))
| world_contexts s d L m :
    (∀ id, option_relation same_session (λ _, False) (λ _, False) (sessions s !! id) (m !! id)) →
    world_step (mkWorld s d L) (mkWorld (set_sessions m s) d L)
| world_listen s d L a res r s' :
    (∀ addr i, res = inl (addr, i) → addr_wf addr) →
    service_listen (E:=Empty_set) transport_listen is_upgrade a res s = (Ok r, s') →
    world_step (mkWorld s d L) (mkWorld s' d (match r with inl addr => {[cleared addr]} ∪ L | inr _ => L end))
| world_dial s d L a target res r s' :
    addr_wf a → service_dial (E:=Empty_set) transport_dial a target res s = (Ok r, s') →
    world_step (mkWorld s d L) (mkWorld s' d L)
| world_init s d L begun s' :
    run_init (E:=Empty_set) begun s = (Ok (), s') → world_step (mkWorld s d L) (mkWorld s' d L).

Definition world_run : World → World → Prop := rtc (λ w w', count_small (w_service w) ∧ world_step w w').

Definition world_inv (w : World) : Prop := ∃ B, Inv B (w_done w) (w_done w) (w_live w) (w_service w).

Lemma count_bound B d e L s : Inv B d e L s → count_small s → ∃ B', B' < 2 ^ 63 - 1 ∧ Inv B' d e L s.
Proof.
  intros [H1 H2 H3 H4 H5 H6 H7 H8 [He H9]] Hc. rw /count_small in Hc. destruct (state s) as [n| |] eqn:Hst.
  - exists n. split; [done|]. split; try done. rw Hst. split; [done|]. lia.
  - exists 0. split; [done|]. split; try done. by rw Hst.
  - exists 0. split; [done|]. split; try done. by rw Hst.
Qed.

Lemma more_started B d e L s : Inv B d d L s → (e ≤ started (outs s))%nat → Inv B d e L s.
Proof. intros [H1 H2 H3 H4 H5 H6 H7 H8 [He H9]] He'. by split. Qed.

Lemma world_step_inv w w' : world_inv w → count_small (w_service w) → world_step w w' → world_inv w'.
Proof.
  intros [B0 HB0] Hc Hstep. destruct (count_bound _ _ _ _ _ HB0 Hc) as (B & HB & Hs). clear B0 HB0.
  destruct Hstep as [s d L g g' input b s' Hin Hcon Hst Ht|s d L g g' a err b s' Ha Hst Ht|s d L m Hm|s d L a res r s' Hres Hl|s d L a t res r s' Ha Hd|s d L b s' Hi];
    cbn [w_service w_done w_live] in *.
  - destruct (run_turn_ok B d L s g g' input Hin) as (s1 & H1 & Hs1); [lia|done| |].
    { apply more_started; [done|]. destruct (consumes input); [by apply Hcon|]. apply (inv_count _ _ _ _ _ Hs). }
    rw Ht in H1. injection H1 as -> <-. by exists (B + 1).
  - destruct (run_turn_fails_ok B d L s g g' a err) as (s1 & H1 & Hs1); [lia|done..|].
    rw Ht in H1. injection H1 as -> <-. by exists B.
  - exists B. by apply contexts_ok.
  - destruct (service_listen_ok (E:=Empty_set) B d d L s a res Hres Hs) as (r1 & s1 & H1 & Hs1).
    rw Hl in H1. injection H1 as <- <-. by exists B.
  - destruct (service_dial_ok (E:=Empty_set) B d d L s a t res) as (r1 & s1 & H1 & Hs1); [lia|done..|].
    rw Hd in H1. injection H1 as <- <-. by exists (B + 1).
  - destruct (run_init_ok (E:=Empty_set) B d d L b s Hs) as ([] & s1 & H1 & Hs1). rw Hi in H1. injection H1 as <-. by exists B.
Qed.

Lemma world_run_inv w w' : world_run w w' → world_inv w → world_inv w'.
Proof. induction 1 as [|w w1 w2 [Hc Hst] _ IH]; [done|]. intros Hi. by apply IH, (world_step_inv w). Qed.

Definition new_world (configs : gmap nat ProtocolMeta) (forever : bool) (max : Z) : World := mkWorld (service_new configs forever max) 0 ∅.

Lemma new_world_inv configs forever max : 0 ≤ max < 2 ^ 63 → world_inv (new_world configs forever max).
Proof.
  intros Hmax. exists 0. split; simpl; try done.
  - split; [done|]. rw map_size_empty. lia.
  - intros a [t Ht]. done.
  - intros pre o post Heq. by destruct pre.
  - destruct forever; [done|]. split; [done|]. split; [lia|done].
Qed.

(** ** Messages *)

(** The sessions that a message goes to, in order. *)
Definition recipients (target : TargetSession) s : list nat :=
  List.filter (λ id, bool_decide (is_Some (sessions s !! id))) (target_ids target s).

Lemma send_all_spec {E} p proto data ids s :
  ∃ s', send_all (N:=N) (E:=E) p proto data ids s = (Ok (), s') ∧
    let sent := List.filter (λ id, bool_decide (is_Some (sessions s !! id))) ids in
    outs s' = outs s ++ ((λ id, OSession id p (SeProtocolMessage proto data)) <$> sent) ∧
    (∀ id, sessions s' !! id = Nat.iter (count_occ Nat.eq_dec sent id) (incr_pending_data_size (Z.of_nat (length data))) <$> sessions s !! id).
Proof.
  revert s. induction ids as [|i ids IH]; intros s.
  { exists s. split; [done|]. split; [by rw app_nil_r|]. intros id. simpl. by destruct (sessions s !! id). }
  cbn [send_all]. rw /send_to. cbn [List.filter]. destruct (bool_decide (is_Some (sessions s !! i))) eqn:Hi.
  - assert (∃ s1, (s0 ← get; when (bool_decide (is_Some (sessions s0 !! i)))
      (modify (λ s, set_sessions (alter (incr_pending_data_size (Z.of_nat (length data))) i (sessions s)) s);;
       emit (E:=E) (OSession i p (SeProtocolMessage proto data)))) s = (Ok (), s1) ∧
      s1 = add_out (OSession i p (SeProtocolMessage proto data)) (set_sessions (alter (incr_pending_data_size (Z.of_nat (length data))) i (sessions s)) s))
      as (s1 & H1 & ->) by (rw bind_get Hi; by eexists).
    rw (M_bind_Ok _ _ _ _ _ H1). edestruct IH as (s2 & H2 & Ho & Hss). exists s2. split; [exact H2|].
    assert (∀ id, bool_decide (is_Some (alter (incr_pending_data_size (Z.of_nat (length data))) i (sessions s) !! id)) =
      bool_decide (is_Some (sessions s !! id))) as Hdom by (intros id; apply bool_decide_ext, lookup_alter_is_Some).
    cbn [sessions set_sessions add_out set_outs outs] in *. rewrite -> (List.filter_ext _ _ Hdom) in *. split.
    + rw Ho -app_assoc. done.
    + intros id. rw Hss. cbn [count_occ]. destruct (Nat.eq_dec i id) as [<-|Hne].
      * rw lookup_alter_eq. destruct (sessions s !! i); [|done]. simpl. f_equal. by rw -Nat.iter_succ_r.
      * by rw lookup_alter_ne.
  - rw {1}/mbind {1}/M_bind bind_get Hi. apply IH.
Qed.

(** A message goes, once for each time its target names it, to the sessions that
    exist and are targeted, in this order and with the protocol's transformation of
    the data; the data is counted as pending for each; nothing else changes
    hands. *)
Theorem service_message_targets target proto priority data s :
  ∃ s', handle_message (N:=N) (E:=Empty_set) target proto priority data s = (Ok (), s') ∧
    let data' := match before_sends s !! proto with Some f => f data | None => data end in
    outs s' = outs s ++ ((λ id, OSession id priority (SeProtocolMessage proto data')) <$> recipients target s) ∧
    (∀ id, sessions s' !! id =
      Nat.iter (count_occ Nat.eq_dec (recipients target s) id) (incr_pending_data_size (Z.of_nat (length data'))) <$> sessions s !! id) ∧
    (∀ id, id ∈ recipients target s ↔ is_Some (sessions s !! id) ∧
      match target with TsAll => True | TsSingle i => id = i | TsMulti ids => id ∈ ids | TsFilter f => f id = true end) ∧
    match target with TsAll | TsFilter _ | TsSingle _ => NoDup (recipients target s) | TsMulti _ => True end.
Proof.
  rw /handle_message bind_get. destruct (send_all_spec (E:=Empty_set) priority proto
    (match before_sends s !! proto with Some f => f data | None => data end) (target_ids target s) s) as (s' & Hs' & Ho & Hss).
  exists s'. split; [done|]. split; [done|]. split; [done|]. split.
  - intros id. rw /recipients list_elem_of_In List.filter_In -list_elem_of_In bool_decide_eq_true.
    assert (is_Some (sessions s !! id) → id ∈ (map_to_list (sessions s)).*1) as Hk.
    { intros [c Hc]. apply list_elem_of_fmap. exists (id, c). split; [done|]. by apply elem_of_map_to_list. }
    destruct target; simpl; [tauto|rw list_elem_of_singleton; tauto|tauto|].
    rw list_elem_of_In List.filter_In -list_elem_of_In. tauto.
  - assert (∀ f l, NoDup l → NoDup (List.filter (A:=nat) f l)) as Hf by (intros f l; rw !NoDup_ListNoDup; apply List.NoDup_filter).
    destruct target; simpl; try done; apply Hf; [apply NoDup_fst_map_to_list|apply NoDup_singleton|apply Hf, NoDup_fst_map_to_list].
Qed.

(** ** Runs *)

(** C6. In every state that the service reaches: a session is known by its id, no
    two sessions have the same public key, the address of a session names the peer
    that authenticated, a session's handles belong to a session, there is at most
    one session more than the configured maximum; and whatever comes next is
    handled without a panic, the next session's id included. *)
Theorem service_sessions_safe configs forever max w :
  0 ≤ max < 2 ^ 63 → world_run (new_world configs forever max) w →
  let s := w_service w in
  (∀ id c, sessions s !! id = Some c → ctx_id c = id) ∧
  (∀ i j c c' k, sessions s !! i = Some c → sessions s !! j = Some c' →
    ctx_remote_pubkey c = Some k → ctx_remote_pubkey c' = Some k → i = j) ∧
  (∀ id c k, sessions s !! id = Some c → ctx_remote_pubkey c = Some k →
    extract_peer_id (ctx_address c) = Some (Ok (Some (from_public_key sha256 k)))) ∧
  (∀ id p, (id, p) ∈ session_proto_handles s → is_Some (sessions s !! id)) ∧
  Z.of_nat (size (sessions s)) ≤ max_connection_number s + 1 ∧
  (∀ g g' input, count_small s → input_wf input → (consumes input = true → (w_done w < started (outs s))%nat) →
    ∃ b s', turn g g' input s = (Ok b, s')).
Proof.
  intros Hmax Hrun s. destruct (world_run_inv _ _ Hrun (new_world_inv _ _ _ Hmax)) as [B Hs]. fold s in Hs.
  destruct (Hs) as [H1 H2 H3 H4 [_ H5] _ _ _ [He _]]. do 5 (split; [done|]). intros g g' input Hc Hin Hcon.
  destruct (stops s) eqn:Hst.
  - rw /run_turn bind_get Hst bind_modify. exists true.
    assert (ok_on (λ _, True) (wait_handle_poll (N:=N) (E:=Empty_set))) as Hw.
    { apply ok_bind; [by apply ok_modify|intros _]. apply ok_get_bind. intros s0 _.
      assert (ok_on (λ _ : St, True) (E:=Empty_set) (modify (set_wait_handle []);; each (λ h, emit (OStopHandle h)) (wait_handle s0))) as H; [|by apply H].
      apply ok_bind; [by apply ok_modify|intros _]. apply each_ok. intros x _. by apply ok_modify. }
    destruct (Hw (set_shutdown true s) I) as ([] & s' & Hw' & _). exists s'. by rw (M_bind_Ok _ _ _ _ _ Hw').
  - destruct (count_bound _ _ _ _ _ Hs Hc) as (B' & HB & Hs').
    destruct (run_turn_ok B' (w_done w) (w_live w) s g g' input Hin) as (s1 & H & _); [lia|done| |by exists false, s1].
    apply more_started; [done|]. destruct (consumes input); [by apply Hcon|done].
Qed.

(** C11. In every state that the service reaches: the user was told of the opening
    of each session before its task was started and before it got any event, and
    of its closing once, while it was open; the sessions that the user was last
    told to be open are exactly those of the service; and each session was started
    with all its protocols known by name. *)
Theorem service_user_told configs forever max w :
  0 ≤ max < 2 ^ 63 → world_run (new_world configs forever max) w →
  ordered (outs (w_service w)) ∧ ∀ id, told_open id (outs (w_service w)) = true ↔ is_Some (sessions (w_service w) !! id).
Proof.
  intros Hmax Hrun. destruct (world_run_inv _ _ Hrun (new_world_inv _ _ _ Hmax)) as [B [_ _ _ _ _ _ Ht Ho _]].
  split; [done|]. intros id. by rw Ht bool_decide_eq_true.
Qed.

(** C21. The count of the service is never less than the outbound work in progress,
    and so it never wraps below zero; when the service ends without having been
    asked to, all that it started has come back, no listener lives and no session
    is open. *)
Theorem service_ends_idle configs forever max w n :
  0 ≤ max < 2 ^ 63 → world_run (new_world configs forever max) w → state (w_service w) = Running n →
  Z.of_nat (started (outs (w_service w)) - w_done w) ≤ n ∧
  (stops (w_service w) = true →
    started (outs (w_service w)) = w_done w ∧ w_live w = ∅ ∧ sessions (w_service w) = ∅).
Proof.
  intros Hmax Hrun Hst. destruct (world_run_inv _ _ Hrun (new_world_inv _ _ _ Hmax)) as [B [_ _ _ _ _ _ _ _ [He Hc]]].
  rw Hst in Hc. split; [lia|]. rw /stops Hst !andb_true_iff. intros [[Hl%bool_decide_eq_true Hn%Z.eqb_eq] Hss%bool_decide_eq_true].
  rw Hl in Hc. rw (_ : w_live w ∖ ∅ = w_live w) in Hc; [|set_solver]. split; [lia|]. split; [|done]. apply leibniz_equiv, size_empty_iff. lia.
Qed.

(** ** Ending the service *)

Lemma each_emit {E A} (f : A → Out N) l s : each (E:=E) (λ x, emit (f x)) l s = (Ok (), set_outs (outs s ++ (f <$> l)) s).
Proof.
  revert s. induction l as [|x l IH]; intros s; [by rw /= app_nil_r; destruct s|]. cbn [each]. rw /emit bind_modify.
  fold (emit (N:=N) (E:=E)). rw IH /= -app_assoc. done.
Qed.

(** All sessions of a list are closed, and the user is told. *)
Lemma close_internal {E} l s :
  NoDup l.*1 → (∀ id c, (id, c) ∈ l → sessions s !! id = Some c) →
  ∃ h, each (E:=E) (λ i, session_close i Internal) l.*1 s =
    (Ok (), set_outs (outs s ++ ((λ ic, OEvent (EvSessionClose ic.2)) <$> l))
      (set_sessions (filter (λ ic, ic.1 ∉ l.*1) (sessions s)) (set_session_handles h s))) ∧ h ⊆ session_proto_handles s.
Proof.
  revert s. induction l as [|[id c] l IH]; intros s Hnd Hl.
  { exists (session_proto_handles s). split; [|done]. rw /= app_nil_r map_filter_id; [by destruct s|]. intros ? ? _. apply not_elem_of_nil. }
  cbn [fmap list_fmap fst each] in *. apply NoDup_cons in Hnd as [Hid Hnd].
  assert (session_close (E:=E) id Internal s = (Ok (), add_out (OEvent (EvSessionClose c))
    (set_sessions (delete id (sessions s)) (set_session_handles (filter (λ k, id ≠ k.1) (session_proto_handles s)) s)))) as Hc.
  { rw /session_close bind_get. rewrite -> decide_False by done. rw bind_modify (Hl id c) //. set_solver. }
  rw (M_bind_Ok _ _ _ _ _ Hc). clear Hc. set (s1 := add_out _ _). destruct (IH s1 Hnd) as (h & Hr & Hh); subst s1; last first.
  - exists h. rw Hr. split.
    + f_equal. rw /set_outs /set_sessions /add_out /set_session_handles /=. f_equal; [|by rw -app_assoc].
      apply map_eq. intros i. apply option_eq. intros x. rw !map_lookup_filter_Some lookup_delete_Some /= not_elem_of_cons. naive_solver.
    + simpl in Hh. set_solver.
  - intros i x Hix. simpl. rw lookup_delete_ne; [apply Hl; set_solver|]. intros <-. apply Hid, list_elem_of_fmap. by exists (id, x).
Qed.

Lemma close_external {E} l s :
  (∀ id, id ∈ l → is_Some (sessions s !! id)) →
  each (E:=E) (λ i, session_close i External) l s = (Ok (), set_outs (outs s ++ ((λ id, OSession id High (SeSessionClose id)) <$> l)) s).
Proof.
  revert s. induction l as [|id l IH]; intros s Hl; [by rw /= app_nil_r; destruct s|]. cbn [each].
  assert (session_close (E:=E) id External s = (Ok (), add_out (OSession id High (SeSessionClose id)) s)) as Hc.
  { rw /session_close bind_get. rewrite -> decide_True by done. rw bool_decide_eq_true_2 //. apply Hl. set_solver. }
  rw (M_bind_Ok _ _ _ _ _ Hc) IH; [by rw /= -app_assoc|]. intros i Hi. simpl. apply Hl. set_solver.
Qed.

(** A quick shutdown tells the user that the listens and all sessions are
    closed and ends the loop at its next turn; another one tells the user of the
    listens and asks every session to close, and the loop goes on until they have. *)
Theorem service_shutdown priority quick s :
  ∃ s', handle_service_task (N:=N) (E:=Empty_set) transport_listen transport_dial priority (StShutdown quick) s = (Ok (), s') ∧
    listens s' = ∅ ∧ state s' = PreShutdown ∧
    outs s' = outs s ++ ((λ a, OEvent (EvListenClose a)) <$> elements (listens s)) ++
      (if quick then (λ ic, OEvent (EvSessionClose ic.2)) <$> map_to_list (sessions s)
       else (λ id, OSession id High (SeSessionClose id)) <$> (map_to_list (sessions s)).*1) ∧
    (if quick then sessions s' = ∅ ∧ session_proto_handles s' = ∅ ∧ receivers_closed s' = true else sessions s' = sessions s) ∧
    stops s' = quick || bool_decide (sessions s = ∅).
Proof.
  rw /handle_service_task bind_get /shutdown_task /update_state bind_modify bind_get bind_modify.
  rw (M_bind_Ok _ _ _ _ _ (each_emit (E:=Empty_set) _ _ _)). destruct quick.
  - rw !bind_modify. edestruct (close_internal (E:=Empty_set) (map_to_list (sessions s))) as (h & Hr & Hh); last first.
    { eexists. split; [exact Hr|]. simpl in Hh. split; [done|]. split; [done|]. split; [by rw /= -app_assoc|].
      assert (filter (λ ic : nat * SessionContext, ic.1 ∉ (map_to_list (sessions s)).*1) (sessions s) = ∅) as Hemp.
      { apply map_eq. intros i. rw lookup_empty. apply map_lookup_filter_None. right. intros c Hc. simpl. intros Hn. apply Hn.
        apply list_elem_of_fmap. exists (i, c). split; [done|]. by apply elem_of_map_to_list. }
      rw /stops /=. rw Hemp. split; [split; [done|]; split; [set_solver|done]|]. by rw !bool_decide_eq_true_2. }
    + intros id c Hc. by apply elem_of_map_to_list in Hc.
    + apply NoDup_fst_map_to_list.
  - rw close_external; last first.
    { intros id ([i c] & -> & Hc%elem_of_map_to_list)%list_elem_of_fmap. by exists c. }
    eexists. split; [done|]. split; [done|]. split; [done|]. split; [by rw /= -app_assoc|]. split; [done|].
    by rw /stops /= bool_decide_eq_true_2.
Qed.

(** ** Where the bookkeeping goes wrong *)

(** When the limit is reached, the connection that a dial established is
    dropped without a word, and the address stays marked as being dialed: every
    later dial of it is ignored, also without a word. *)
Theorem service_limit_keeps_dial g priority handle pk a la t target s :
  dial_protocols s !! a = Some t → reached_max_connection_limit (set_service_state (decrease (state s)) s) = true →
  let s' := set_service_state (decrease (state s)) s in
  handle_session_event (E:=Empty_set) sha256 is_upgrade g (SeHandshakeSuccess handle pk a Outbound la) s = (Ok (), s') ∧
  handle_service_task (E:=Empty_set) transport_listen transport_dial priority (StDial a target) s' = (Ok (), s').
Proof.
  intros Ha Hlim s'. split.
  - rw /handle_session_event bind_get. cbn [is_outbound when]. rw /update_state bind_modify bind_get Hlim. done.
  - rw /handle_service_task bind_get /is_dialing. rw {1}/mbind {1}/M_bind bind_get bool_decide_eq_true_2 //.
Qed.

Lemma try_update_alive {E} g s :
  (∀ p, service_gone g p = false) → (∀ k, session_gone g k = false) →
  ∃ os l, try_update_listens (E:=E) g s = (Ok (), set_outs (outs s ++ os) (set_context_listens l s)).
Proof.
  intros Hg Hg'. rw /try_update_listens bind_get. case_decide.
  { exists [], (context_listens s). rw app_nil_r. by destruct s. }
  assert (∀ {A} (f : A → bool) l, (∀ x, f x = false) → existsb f l = false) as Hex.
  { intros A f l Hf. induction l as [|x l IH]; [done|]. simpl. by rw Hf IH. }
  assert (∀ {A} (c : A → bool) (f f' : A → Out N) l s, (∀ x, c x = false) →
    each (E:=E) (λ x, if c x then emit (f x) else emit (f' x)) l s = (Ok (), set_outs (outs s ++ (f' <$> l)) s)) as Hem.
  { intros A c f f' l s0 Hc. rw -each_emit. revert s0. induction l as [|x l IH]; intros s0; [done|]. cbn [each]. rw Hc /mbind /M_bind /emit /modify. apply IH. }
  rw bind_modify /emit bind_modify. fold (emit (N:=N) (E:=E)).
  rw (M_bind_Ok _ _ _ _ _ (Hem _ (service_gone g) _ _ _ _ Hg)) (M_bind_Ok _ _ _ _ _ (Hem _ (session_gone g) _ _ _ _ Hg')) (Hex _ _ _ Hg) (Hex _ _ _ Hg').
  eexists _, _. rw /= /set_outs /=. by rw -!app_assoc.
Qed.

(** Two listens on one address, requested before the first has started: when
    the second fails, the address is reported closed and forgotten although its
    listener was started, and the failed request stays counted: the service will
    not end by itself. *)
Theorem duplicate_listen_loses_address g a incoming err s n :
  addr_wf a → cleared a = a → a ∉ listens s → is_upgrade incoming = false →
  state s = Running n → 2 ≤ n < 2 ^ 63 →
  (∀ p, service_gone g p = false) → (∀ k, session_gone g k = false) →
  ∃ s1 s2, handle_session_event (E:=Empty_set) sha256 is_upgrade g (SeListenStart a incoming) s = (Ok (), s1) ∧
    handle_session_event (E:=Empty_set) sha256 is_upgrade g (SeListenError a err) s1 = (Ok (), s2) ∧
    OSpawn (JListener incoming a) ∈ outs s2 ∧ listens s2 = listens s ∧ state s2 = Running (n - 1).
Proof.
  intros Ha Hcl Hnew Hup Hst Hn Hg Hg'.
  assert (∃ s1, handle_session_event (E:=Empty_set) sha256 is_upgrade g (SeListenStart a incoming) s = (Ok (), s1) ∧
    listens s1 = {[a]} ∪ listens s ∧ state s1 = Running (n - 1) ∧ OSpawn (JListener incoming a) ∈ outs s1) as (s1 & H1 & Hl1 & Hst1 & Ho1).
  { rw /handle_session_event bind_get /emit bind_modify (M_bind_Ok _ _ _ _ _ (clear_addr_wf (E:=Empty_set) _ _ Ha)).
    rw bind_modify /update_state bind_modify Hcl. set (st := set_service_state _ _).
    destruct (try_update_alive (E:=Empty_set) g st Hg Hg') as (os & l & H1). subst st.
    rw (M_bind_Ok _ _ _ _ _ H1) Hup. eexists. split; [done|]. simpl. rw Hst /= wrap_small; [|lia]. split; [done|]. split; [done|]. set_solver. }
  exists s1. assert (∃ s2, handle_session_event (E:=Empty_set) sha256 is_upgrade g (SeListenError a err) s1 = (Ok (), s2) ∧
    listens s2 = listens s1 ∖ {[a]} ∧ state s2 = state s1 ∧ ∀ o, o ∈ outs s1 → o ∈ outs s2) as (s2 & H2 & Hl2 & Hst2 & Ho2).
  { rw /handle_session_event bind_get /emit bind_modify. rewrite -> decide_True by set_solver.
    rw bind_modify. set (st := set_listens _ _).
    destruct (try_update_alive (E:=Empty_set) g st Hg Hg') as (os & l & H2). subst st.
    rw (M_bind_Ok _ _ _ _ _ H2). eexists. split; [done|]. simpl. split; [done|]. split; [done|]. set_solver. }
  exists s2. split; [done|]. split; [done|]. split; [by apply Ho2|]. rw Hl2 Hl1 Hst2 Hst1. split; [set_solver|done].
Qed.
End facts.

(** ** Witnesses *)

Definition service_net : NetTypes := mkNetTypes unit unit unit unit unit.
Definition demo_configs : gmap nat ProtocolMeta :=
  {[5%nat := mkProtocolMeta (mkMeta 5 [x70] [[x31]] false None) true (λ _, true) None]}.
Definition demo_addr : Multiaddr := from_iter [Ip4 (mkIp4 1 2 3 4); Tcp 80].
Definition no_errors : Multiaddr → option (TransportErr service_net) := λ _, None.
Definition never_upgrade : Incoming service_net → bool := λ _, false.
Definition all_alive : Gone := mkGone (λ _, false) (λ _, false).
Definition demo_key : PublicKey := mkPublicKey [x6b].

Lemma service_addr_wf : addr_wf demo_addr.
Proof. exists [Ip4 (mkIp4 1 2 3 4); Tcp 80]. apply Comps_concat. repeat constructor; unfold_int; simpl; lia. Qed.

(** A dial before the loop, the start of the loop, and the finished handshake. *)
Definition demo_success : SessionEvent service_net := SeHandshakeSuccess (N:=service_net) tt (Some demo_key) demo_addr Outbound None.
Abbreviation demo_dial := (service_dial (N:=service_net) (E:=Empty_set) no_errors demo_addr TpAll (inl demo_addr)).
Abbreviation demo_turn := (run_turn (N:=service_net) (E:=Empty_set) demo_hash no_errors no_errors never_upgrade all_alive all_alive).
Definition demo_w0 : World (N:=service_net) := new_world demo_configs false 10.
Definition demo_w1 : World (N:=service_net) := mkWorld (demo_dial (w_service demo_w0)).2 0 ∅.
Definition demo_w2 : World (N:=service_net) := mkWorld (run_init (E:=Empty_set) false (w_service demo_w1)).2 0 ∅.
Definition demo_w3 : World (N:=service_net) := mkWorld (demo_turn (RiEvent demo_success) (w_service demo_w2)).2 1 ∅.

Lemma demo_world_run : world_run demo_hash no_errors no_errors never_upgrade demo_w0 demo_w3.
Proof.
  eapply (rtc_l _ _ demo_w1); [split; [done|]|eapply (rtc_l _ _ demo_w2); [split; [done|]|apply rtc_once; split; [done|]]].
  - apply (world_dial _ _ _ _ _ _ _ demo_addr TpAll (inl demo_addr) None); [apply service_addr_wf|]. by vm_compute.
  - apply (world_init _ _ _ _ _ _ _ false). by vm_compute.
  - apply (world_turn demo_hash no_errors no_errors never_upgrade (w_service demo_w2) 0 ∅ all_alive all_alive (RiEvent demo_success) false).
    + split; [apply service_addr_wf|done].
    + intros _. vm_compute. lia.
    + by vm_compute.
    + by vm_compute.
Qed.

Lemma service_sessions_safe_witness :
  is_Some (sessions (w_service demo_w3) !! 1%nat) ∧
  (∀ c k, sessions (w_service demo_w3) !! 1%nat = Some c → ctx_remote_pubkey c = Some k →
    extract_peer_id (ctx_address c) = Some (Ok (Some (from_public_key demo_hash k)))).
Proof.
  destruct (service_sessions_safe demo_hash no_errors no_errors never_upgrade demo_configs false 10 demo_w3) as (_ & _ & H & _).
  - lia.
  - exact demo_world_run.
  - split; [vm_compute; by eexists|]. intros c k. apply H.
Defined.

Lemma service_user_told_witness :
  told_open 1 (outs (w_service demo_w3)) = true ∧ ordered (outs (w_service demo_w3)).
Proof.
  destruct (service_user_told demo_hash no_errors no_errors never_upgrade demo_configs false 10 demo_w3) as (Ho & Ht).
  - lia.
  - exact demo_world_run.
  - split; [|exact Ho]. apply Ht. vm_compute. by eexists.
Defined.

Lemma service_ends_idle_witness :
  state (w_service demo_w3) = Running 0 ∧ Z.of_nat (started (outs (w_service demo_w3)) - w_done demo_w3) ≤ 0.
Proof.
  assert (state (w_service demo_w3) = Running 0) as Hst by by vm_compute.
  destruct (service_ends_idle demo_hash no_errors no_errors never_upgrade demo_configs false 10 demo_w3 0) as (Hle & _).
  - lia.
  - exact demo_world_run.
  - exact Hst.
  - split; [exact Hst|exact Hle].
Defined.

Definition demo_full : InnerService service_net :=
  mkService demo_configs 0 {[7%nat := mkSessionContext 7 demo_addr Inbound None false 0]} ∅ {[demo_addr := TpAll]} (Running 1) 7 ∅ ∅ ∅ [] false
    false [] [].

Lemma service_limit_keeps_dial_witness :
  handle_session_event (E:=Empty_set) demo_hash never_upgrade all_alive demo_success demo_full = (Ok (), set_service_state (Running 0) demo_full) ∧
  handle_service_task (E:=Empty_set) no_errors no_errors Normal (StDial demo_addr TpAll) (set_service_state (Running 0) demo_full) =
    (Ok (), set_service_state (Running 0) demo_full).
Proof.
  apply (service_limit_keeps_dial demo_hash no_errors no_errors never_upgrade all_alive Normal tt (Some demo_key) demo_addr None TpAll TpAll demo_full);
    by vm_compute.
Defined.

Definition demo_listening : InnerService service_net :=
  mkService demo_configs 10 ∅ ∅ ∅ (Running 2) 0 ∅ ∅ ∅ [] false false [] [].

Lemma duplicate_listen_loses_address_witness :
  ∃ s1 s2, handle_session_event (E:=Empty_set) demo_hash never_upgrade all_alive (SeListenStart (N:=service_net) demo_addr tt) demo_listening = (Ok (), s1) ∧
    handle_session_event (E:=Empty_set) demo_hash never_upgrade all_alive (SeListenError (N:=service_net) demo_addr tt) s1 = (Ok (), s2) ∧
    OSpawn (JListener (N:=service_net) tt demo_addr) ∈ outs s2 ∧ listens s2 = ∅ ∧ state s2 = Running 1.
Proof.
  apply (duplicate_listen_loses_address demo_hash no_errors no_errors never_upgrade all_alive demo_addr tt tt demo_listening 2).
  - exact service_addr_wf.
  - by vm_compute.
  - apply not_elem_of_empty.
  - done.
  - done.
  - lia.
  - done.
  - done.
Defined.
