(* ===== verification/TcpListen.v ===== *)
(** * TCP listeners

    [tentacle/src/transports/tcp_base_listen.rs] and the dispatch of
    [transports/mod.rs]: the upgrade modes of a socket that serves TCP, websocket
    and TLS addresses, [bind] with the table of the sockets in use, and
    [protocol_select], which looks at the first bytes of a connection to decide
    what it is. The socket is the stream of [ProxyProtocol.v]; the operating
    system's answer to a bind, the HTTP parser and the handshakes of websocket and
    TLS are parameters. *)
From S2P Require Import Prelude Text StdNet ProxyProtocol Multiaddr MultiaddrFacts Molecule SecioMessages PeerId AddrUtils YamuxFrame.

(** ** Upgrade modes *)

Inductive TcpListenMode := LmTcp | LmTls | LmWs.

#[global] Instance TcpListenMode_eq_dec : EqDecision TcpListenMode.
Proof. solve_decision. Defined.

Inductive UpgradeModeEnum := OnlyTcp | OnlyWs | OnlyTls | TcpAndWs | TcpAndTls | UmAll.

(** [as u8] and [From<u8>]; the latter panics on other numbers. *)
Definition mode_u8 (m : UpgradeModeEnum) : Z :=
  match m with OnlyTcp => 1 | OnlyWs => 2 | OnlyTls => 4 | TcpAndWs => 3 | TcpAndTls => 5 | UmAll => 7 end.
Definition mode_from_u8 {E} (value : Z) : Res E UpgradeModeEnum :=
  if value =? 1 then Ok OnlyTcp else if value =? 2 then Ok OnlyWs else if value =? 3 then Ok TcpAndWs
  else if value =? 4 then Ok OnlyTls else if value =? 5 then Ok TcpAndTls else if value =? 7 then Ok UmAll else Panic.

Definition mode_of (m : TcpListenMode) : UpgradeModeEnum := match m with LmTcp => OnlyTcp | LmTls => OnlyTls | LmWs => OnlyWs end.

(** [UpgradeMode] is a shared number. *)
Definition combine (inner : Z) (other : UpgradeModeEnum) : Z := Z.lor inner (mode_u8 other).
Definition to_enum {E} (inner : Z) : Res E UpgradeModeEnum := mode_from_u8 inner.

(** ** Errors and addresses *)

Inductive TransportErrorKind :=
| TeIo (error : io.ErrorKind)
| TeProxyError (error : io.ErrorKind)
| TeNotSupported (address : Multiaddr)
| TeDnsResolverError (address : Multiaddr) (error : io.ErrorKind)
| TeTlsError (message : bytes).

#[global] Instance Ipv4Addr_countable : Countable Ipv4Addr :=
  inj_countable' (λ a, (oct_a a, oct_b a, oct_c a, oct_d a)) (λ '(a, b, c, d), mkIp4 a b c d) (λ a, match a with mkIp4 _ _ _ _ => eq_refl end).
#[global] Instance Ipv6Addr_countable : Countable Ipv6Addr :=
  inj_countable' segments mkIp6 (λ a, match a with mkIp6 _ => eq_refl end).
#[global] Instance IpAddr_countable : Countable IpAddr :=
  inj_countable' (λ a, match a with V4 a => inl a | V6 a => inr a end) (λ s, match s with inl a => V4 a | inr a => V6 a end)
    (λ a, match a with V4 _ => eq_refl | V6 _ => eq_refl end).
#[global] Instance SocketAddr_countable : Countable SocketAddr :=
  inj_countable' (λ a, (ip a, port a)) (λ '(i, p), mkSocketAddr i p) (λ a, match a with mkSocketAddr _ _ => eq_refl end).

(** ** Binding *)

Inductive TcpBaseListenerEnum := BlUpgrade | BlNew (local_addr : SocketAddr).

(** The table [listens_upgrade_modes]; a listener's mode is its entry. *)
Abbreviation Modes := (gmap SocketAddr Z).

Section bind.
Context `{!AddrCodecs}.

(** A call of the address library; it panics on a malformed address. *)
Definition addr_res {A} (r : option (Res Error A)) : M Modes TransportErrorKind A :=
  match r with Some (Ok a) => mret a | _ => panic end.

Definition parse_tls_domain_name : Multiaddr → option (Res Error (option bytes)) :=
  find_map (λ proto, match proto with Tls s => Some s | _ => None end).

(** The address that is reported for a socket. *)
Definition listen_addr (addr : Multiaddr) (mode : TcpListenMode) (socket : SocketAddr) : M Modes TransportErrorKind Multiaddr :=
  let base := socketaddr_to_multiaddr socket in
  match mode with
  | LmTcp => mret base
  | LmWs => mret (push base Ws)
  | LmTls =>
      d ← addr_res (parse_tls_domain_name addr);
      match d with
      | None => throw (TeNotSupported addr)
      | Some d => mret (push base (Tls d))
      end
  end.

(** [bind] on a resolved address; [tcp] is the system's answer to [tcp_listen]. *)
Definition bind (addr : Multiaddr) (mode : TcpListenMode) (tcp : SocketAddr → io.ErrorKind + SocketAddr) :
    M Modes TransportErrorKind (Multiaddr * TcpBaseListenerEnum) :=
  r ← addr_res (multiaddr_to_socketaddr addr);
  match r with
  | None => throw (TeNotSupported addr)
  | Some socket_address =>
      if port socket_address =? 0 then
        match tcp socket_address with
        | inl e => throw (TeIo e)
        | inr local_addr =>
            modify <[local_addr := mode_u8 (mode_of mode)]>;;
            a ← listen_addr addr mode local_addr;
            mret (a, BlNew local_addr)
        end
      else
        g ← get;
        match g !! socket_address with
        | Some v =>
            a ← listen_addr addr mode socket_address;
            modify <[socket_address := combine v (mode_of mode)]>;;
            mret (a, BlUpgrade)
        | None =>
            modify <[socket_address := mode_u8 (mode_of mode)]>;;
            match tcp socket_address with
            | inl e => throw (TeIo e)
            | inr local_addr =>
                a ← listen_addr addr mode local_addr;
                mret (a, BlNew local_addr)
            end
        end
  end.

(** [Drop for TcpBaseListener]. *)
Definition listener_drop (local_addr : SocketAddr) (g : Modes) : Modes := delete local_addr g.

(** [MultiTransport::listen] and [dial]: the mode, or the immediate error. *)
Inductive ListenKind := LkTcp (mode : TcpListenMode) | LkMemory.
Definition multi_listen (tls_config : bool) (address : Multiaddr) : option (Res Error (ListenKind + TransportErrorKind)) :=
  match find_type address with
  | Some (Ok ty) =>
      Some (Ok match ty with
               | TTcp => inl (LkTcp LmTcp)
               | TWs => inl (LkTcp LmWs)
               | TMemory => inl LkMemory
               | TWss => inr (TeNotSupported address)
               | TTls => if tls_config then inl (LkTcp LmTls) else inr (TeTlsError (str "tls config is not set"))
               | TOnion => inr (TeNotSupported address)
               end)
  | Some (Err e) => Some (Err e)
  | Some Panic => Some Panic
  | None => None
  end.
Definition multi_dial (tls_config : bool) (address : Multiaddr) : option (Res Error (TransportType + TransportErrorKind)) :=
  match find_type address with
  | Some (Ok ty) =>
      Some (Ok match ty with
               | TWss => inr (TeNotSupported address)
               | TTls => if tls_config then inl TTls else inr (TeTlsError (str "tls config is not set"))
               | _ => inl ty
               end)
  | Some (Err e) => Some (Err e)
  | Some Panic => Some Panic
  | None => None
  end.
End bind.

(** ** Recognising a connection *)

Definition at4 (i : nat) (b : bytes) : bytes := take 4 (drop i b).

(** The test on the first sixteen bytes: a secio proposition or a first yamux frame. *)
Definition looks_like_tcp (b : bytes) : bool :=
  let length_delimited_header := be_Z (at4 0 b) in
  let molecule_header := from_le 4 (drop 4 b) in
  let rand_start := from_le 4 (drop 8 b) in
  let rand_end := from_le 4 (drop 12 b) in
  let yamux_version := be_Z (take 1 b) in
  let yamux_ty := be_Z (take 1 (drop 1 b)) in
  let yamux_flags := be_Z (take 2 (drop 2 b)) in
  let yamux_stream_id := be_Z (at4 4 b) in
  ((length_delimited_header =? molecule_header) && (rand_start =? 24) && (rand_start <? rand_end) && (rand_end <? molecule_header)) ||
  ((yamux_version =? 0) &&
   (((yamux_ty =? 1) && negb (yamux_stream_id =? 0)) || ((yamux_ty =? 2) && (yamux_stream_id =? 0))) &&
   (yamux_flags =? 1)).

(** *** The forwarded address of a websocket request *)

(** [char::is_whitespace] in UTF-8. *)
Definition whitespace : list bytes :=
  [[x09]; [x0a]; [x0b]; [x0c]; [x0d]; [x20]; [xc2; x85]; [xc2; xa0]; [xe1; x9a; x80]; [xe2; x80; x80]; [xe2; x80; x81]; [xe2; x80; x82];
   [xe2; x80; x83]; [xe2; x80; x84]; [xe2; x80; x85]; [xe2; x80; x86]; [xe2; x80; x87]; [xe2; x80; x88]; [xe2; x80; x89]; [xe2; x80; x8a];
   [xe2; x80; xa8]; [xe2; x80; xa9]; [xe2; x80; xaf]; [xe2; x81; x9f]; [xe3; x80; x80]].
Fixpoint trim_with (fuel : nat) (ws : list bytes) (s : bytes) : bytes :=
  match fuel with
  | O => s
  | S fuel =>
      match List.find (λ w, bool_decide (w `prefix_of` s)) ws with
      | Some w => trim_with fuel ws (drop (length w) s)
      | None => s
      end
  end.
(** [str::trim]. *)
Definition trim (s : bytes) : bytes :=
  let s := trim_with (length s) whitespace s in
  reverse (trim_with (length s) (reverse <$> whitespace) (reverse s)).

Definition eq_ignore_ascii_case (a b : bytes) : bool := bool_decide (ascii_lower <$> a = ascii_lower <$> b).

(** The first item of a comma-separated value, trimmed. *)
Definition first_item (value : bytes) : option bytes :=
  if utf8_valid value then trim <$> head (split (chr 44) value) else None.

Definition forwarded_step (acc : option IpAddr * option Z) (header : bytes * bytes) : option IpAddr * option Z :=
  let '(ip, port) := acc in
  if eq_ignore_ascii_case header.1 (str "x-forwarded-for") then
    (match first_item header.2 ≫= parse_ip with Some a => Some a | None => ip end, port)
  else if eq_ignore_ascii_case header.1 (str "x-forwarded-port") then
    (ip, match first_item header.2 ≫= parse_u16 with Some p => Some p | None => port end)
  else acc.

(** [headers] is what the HTTP parser finds in the peeked bytes, if it succeeds. *)
Definition extract_forwarded_for (headers : option (list (bytes * bytes))) (fallback_address : SocketAddr) : SocketAddr :=
  match headers with
  | None => fallback_address
  | Some hs =>
      match foldl forwarded_step (None, None) hs with
      | (Some ip, p) => mkSocketAddr ip (default (port fallback_address) p)
      | (None, _) => fallback_address
      end
  end.

(** *** [protocol_select] *)

Inductive Outcome :=
| OcGaveUp
| OcWaiting
| OcDelivered (address : Multiaddr) (ty : TransportType).

Section select.
Context {Sock : Type} `{!TcpStream Sock} `{!AddrCodecs}.
(** The trusted proxies, whether the HTTP parser takes sixteen bytes as the start of
    a request, the headers it finds in the first bytes of the stream, and the
    results of the two handshakes ([false] for an error or a timeout). *)
Context (trusted_proxies : list IpAddr) (is_request : bytes → bool) (request_headers : Sock → option (list (bytes * bytes)))
  (accept_ws accept_tls : Sock → bool).

(** Peeking until sixteen bytes are there; [late] says at each short peek whether
    the time is over. *)
Fixpoint peek16 (late : list bool) (s : Sock) : option (bytes + unit) * Sock :=
  match ts_peek 16 s with
  | (inr _, s) => (Some (inr ()), s)
  | (inl b, s) =>
      if decide (length b = 16%nat) then (Some (inl b), s)
      else match late with
           | [] => (None, s)
           | true :: _ => (Some (inr ()), s)
           | false :: late => peek16 late s
           end
  end.

Definition is_trusted (remote : SocketAddr) : bool := bool_decide (ip remote ∈ trusted_proxies).

(** [try_parse_proxy_protocol]; [late] for a timeout. *)
Definition try_parse_proxy_protocol (late : bool) (remote : SocketAddr) (s : Sock) : option SocketAddr * Sock :=
  if late then (None, s)
  else match parse_proxy_protocol s with
       | (Success addr, s) => (Some addr, s)
       | (NotProxyProtocol, s) => (Some remote, s)
       | (ProxyProtocol.Error _, s) => (None, s)
       end.

Definition deliver (remote : SocketAddr) (ty : TransportType) : Outcome :=
  let addr := socketaddr_to_multiaddr remote in
  match ty with
  | TWs => OcDelivered (push addr Ws) TWs
  | TTls => OcDelivered (push addr (Tls [])) TTls
  | _ => OcDelivered addr TTcp
  end.

(** The arm of [OnlyTcp], and of [OnlyTls] before its handshake. *)
Definition behind_proxy (late proxy_parsed : bool) (remote : SocketAddr) (s : Sock) (k : SocketAddr → Sock → Outcome * Sock) : Outcome * Sock :=
  if negb proxy_parsed && is_trusted remote then
    match try_parse_proxy_protocol late remote s with
    | (Some remote, s) => k remote s
    | (None, s) => (OcGaveUp, s)
    end
  else k remote s.

(** The loop on the mode, with the peeked bytes; [late2] is for the second peek. *)
Fixpoint select_loop (fuel : nat) (late : bool) (late2 : list bool) (mode : UpgradeModeEnum) (proxy_parsed : bool) (peek_buf : bytes)
    (remote : SocketAddr) (s : Sock) : Outcome * Sock :=
  match fuel with
  | O => (OcWaiting, s)
  | S fuel =>
      match mode with
      | OnlyTcp => behind_proxy late proxy_parsed remote s (λ remote s, (deliver remote TTcp, s))
      | OnlyWs =>
          let remote := if is_trusted remote then extract_forwarded_for (request_headers s) remote else remote in
          (if accept_ws s then deliver remote TWs else OcGaveUp, s)
      | OnlyTls =>
          behind_proxy late proxy_parsed remote s (λ remote s, (if accept_tls s then deliver remote TTls else OcGaveUp, s))
      | TcpAndTls =>
          let next (proxy_parsed : bool) (buf : bytes) (remote : SocketAddr) (s : Sock) :=
            select_loop fuel late late2 (if looks_like_tcp buf then OnlyTcp else OnlyTls) proxy_parsed buf remote s in
          if is_trusted remote then
            if late then (OcGaveUp, s)
            else match parse_proxy_protocol s with
                 | (Success addr, s) =>
                     match peek16 late2 s with
                     | (Some (inl b), s) => next true b addr s
                     | (Some (inr _), s) => (OcGaveUp, s)
                     | (None, s) => (OcWaiting, s)
                     end
                 | (NotProxyProtocol, s) => next true peek_buf remote s
                 | (ProxyProtocol.Error _, s) => (OcGaveUp, s)
                 end
          else next proxy_parsed peek_buf remote s
      | TcpAndWs =>
          select_loop fuel late late2 (if is_request peek_buf then OnlyWs else OnlyTcp) proxy_parsed peek_buf remote s
      | UmAll =>
          select_loop fuel late late2 (if is_request peek_buf then OnlyWs else TcpAndTls) proxy_parsed peek_buf remote s
      end
  end.

(** Three turns are enough. *)
Definition protocol_select (late1 : list bool) (late : bool) (late2 : list bool) (mode : UpgradeModeEnum) (remote : SocketAddr) (s : Sock) :
    Outcome * Sock :=
  match peek16 late1 s with
  | (Some (inl b), s) => select_loop 3 late late2 mode false b remote s
  | (Some (inr _), s) => (OcGaveUp, s)
  | (None, s) => (OcWaiting, s)
  end.
End select.
