(* ===== verification/TcpListenFacts.v ===== *)
(** * Properties of the TCP listeners

    What a socket's combined mode means, what [bind] does to the table of modes,
    and that the first bytes of tentacle's own protocols and of TLS are told apart
    ([TcpListen.v]). *)
From S2P Require Import Prelude Text StdNet ProxyProtocol Multiaddr MultiaddrFacts Molecule MoleculeFacts SecioMessages PeerId AddrUtils YamuxFrame TcpListen.

(** ** Modes *)

Definition bits (t w l : bool) : Z := Z.b2z t + 2 * Z.b2z w + 4 * Z.b2z l.

Lemma combine_bits t w l m :
  combine (bits t w l) (mode_of m) =
    bits (t || bool_decide (m = LmTcp)) (w || bool_decide (m = LmWs)) (l || bool_decide (m = LmTls)).
Proof. by destruct t, w, l, m. Qed.

Definition serves (e : UpgradeModeEnum) (m : TcpListenMode) : bool :=
  match e, m with
  | OnlyTcp, LmTcp | OnlyWs, LmWs | OnlyTls, LmTls | TcpAndWs, (LmTcp | LmWs) | TcpAndTls, (LmTcp | LmTls) | UmAll, _ => true
  | _, _ => false
  end.

Lemma combine_all t w l ms :
  foldl combine (bits t w l) (mode_of <$> ms) =
    bits (t || bool_decide (LmTcp ∈ ms)) (w || bool_decide (LmWs ∈ ms)) (l || bool_decide (LmTls ∈ ms)).
Proof.
  revert t w l. induction ms as [|m ms IH]; intros t w l; [by rw /= !orb_false_r|]. cbn [fmap list_fmap foldl]. rw combine_bits IH.
  assert (∀ x, bool_decide (x ∈ m :: ms) = bool_decide (m = x) || bool_decide (x ∈ ms)) as Hx.
  { intros x. apply eq_true_iff_eq. rw orb_true_iff !bool_decide_eq_true elem_of_cons. naive_solver. }
  by rw !Hx !orb_assoc.
Qed.

Lemma mode_bits m ms :
  foldl combine (mode_u8 (mode_of m)) (mode_of <$> ms) =
    bits (bool_decide (LmTcp ∈ m :: ms)) (bool_decide (LmWs ∈ m :: ms)) (bool_decide (LmTls ∈ m :: ms)).
Proof.
  assert (mode_u8 (mode_of m) = bits (bool_decide (m = LmTcp)) (bool_decide (m = LmWs)) (bool_decide (m = LmTls))) as -> by by destruct m.
  rw combine_all. assert (∀ x, bool_decide (m = x) || bool_decide (x ∈ ms) = bool_decide (x ∈ m :: ms)) as Hx.
  { intros x. apply eq_true_iff_eq. rw orb_true_iff !bool_decide_eq_true elem_of_cons. naive_solver. }
  by rw !Hx.
Qed.

(** A socket that is used for TCP, or not for both websocket and TLS. *)
Lemma mode_serves m ms :
  LmTcp ∈ m :: ms ∨ (LmWs ∉ m :: ms) ∨ (LmTls ∉ m :: ms) →
  ∃ e, to_enum (E:=Empty_set) (foldl combine (mode_u8 (mode_of m)) (mode_of <$> ms)) = Ok e ∧ ∀ x, serves e x = true ↔ x ∈ m :: ms.
Proof.
  rw mode_bits. assert (m ∈ m :: ms) as Hm by apply elem_of_cons, or_introl, eq_refl. revert Hm. generalize (m :: ms) as l. intros l Hm Hc.
  destruct (bool_decide_reflect (LmTcp ∈ l)), (bool_decide_reflect (LmWs ∈ l)), (bool_decide_reflect (LmTls ∈ l)); simpl;
    try (eexists; split; [done|]; intros []; by split); destruct m; naive_solver.
Qed.

(** A socket that is used for websocket and TLS but not for TCP. *)
Lemma mode_panics m ms :
  (LmTcp ∉ m :: ms) → LmWs ∈ m :: ms → LmTls ∈ m :: ms →
  to_enum (E:=Empty_set) (foldl combine (mode_u8 (mode_of m)) (mode_of <$> ms)) = Panic.
Proof. intros H1 H2 H3. rw mode_bits bool_decide_eq_false_2 // !bool_decide_eq_true_2 //. Qed.

(** A socket on which addresses of the modes [m :: ms] listen serves exactly
    these, except that reading the mode panics when it is used for websocket and
    TLS but not for TCP. *)
Theorem upgrade_modes_sound m ms :
  match to_enum (E:=Empty_set) (foldl combine (mode_u8 (mode_of m)) (mode_of <$> ms)) with
  | Ok e => ∀ x, serves e x = true ↔ x ∈ m :: ms
  | Err _ => False
  | Panic => (LmTcp ∉ m :: ms) ∧ LmWs ∈ m :: ms ∧ LmTls ∈ m :: ms
  end.
Proof.
  destruct (decide (LmTcp ∈ m :: ms ∨ (LmWs ∉ m :: ms) ∨ (LmTls ∉ m :: ms))) as [Hc|Hc].
  - by destruct (mode_serves m ms Hc) as (e & -> & He).
  - assert ((LmTcp ∉ m :: ms) ∧ LmWs ∈ m :: ms ∧ LmTls ∈ m :: ms) as (H1 & H2 & H3)
      by (destruct (decide (LmWs ∈ m :: ms)), (decide (LmTls ∈ m :: ms)); tauto).
    by rw mode_panics.
Qed.

(** ** Binding *)

Section bind_facts.
Context {AC : AddrCodecs} {AL : AddrCodecsLaws}.

Lemma listen_addr_ok addr mode sa g :
  (mode = LmTls → ∃ d, parse_tls_domain_name addr = Some (Ok (Some d))) → ∃ a, listen_addr addr mode sa g = (Ok a, g).
Proof.
  intros Hd. destruct mode; rw /listen_addr; [by eexists| |by eexists]. destruct (Hd eq_refl) as [d Hd']. rw Hd'. by eexists.
Qed.

(** The first bind of a socket registers it; when the system refuses the
    socket, the entry stays, and every later bind of the same address succeeds
    without a listener behind it. *)
Theorem failed_bind_leaves_entry addr mode mode' tcp tcp' err sa g :
  multiaddr_to_socketaddr addr = Some (Ok (Some sa)) → port sa ≠ 0 → g !! sa = None → tcp sa = inl err →
  (mode' = LmTls → ∃ d, parse_tls_domain_name addr = Some (Ok (Some d))) →
  ∃ g1 a g2, bind addr mode tcp g = (Err (TeIo err), g1) ∧ bind addr mode' tcp' g1 = (Ok (a, BlUpgrade), g2).
Proof.
  intros Ha Hp Hg Ht Hd. apply Z.eqb_neq in Hp. destruct (listen_addr_ok addr mode' sa (<[sa := mode_u8 (mode_of mode)]> g) Hd) as [a Hla].
  eexists _, a, _. rw /bind Ha /addr_res. rw {1}/mbind {1}/M_bind {1}/mret {1}/M_ret Hp bind_get Hg bind_modify Ht. split; [done|].
  rw {1}/mbind {1}/M_bind {1}/mret {1}/M_ret Hp bind_get lookup_insert_eq (M_bind_Ok _ _ _ _ _ Hla) bind_modify. done.
Qed.

(** A successful bind: a new listener is entered with its mode, a later address of
    the same socket adds its mode. *)
Lemma bind_ok addr mode tcp sa g :
  multiaddr_to_socketaddr addr = Some (Ok (Some sa)) → port sa ≠ 0 → tcp sa = inr sa →
  (mode = LmTls → ∃ d, parse_tls_domain_name addr = Some (Ok (Some d))) →
  ∃ a, bind addr mode tcp g =
    match g !! sa with
    | Some v => (Ok (a, BlUpgrade), <[sa := combine v (mode_of mode)]> g)
    | None => (Ok (a, BlNew sa), <[sa := mode_u8 (mode_of mode)]> g)
    end.
Proof.
  intros Ha Hp Ht Hd. apply Z.eqb_neq in Hp. destruct (g !! sa) as [v|] eqn:Hg.
  - destruct (listen_addr_ok addr mode sa g Hd) as [a Hla]. exists a. rw /bind Ha /addr_res {1}/mbind {1}/M_bind {1}/mret {1}/M_ret Hp bind_get Hg.
    by rw (M_bind_Ok _ _ _ _ _ Hla) bind_modify.
  - destruct (listen_addr_ok addr mode sa (<[sa := mode_u8 (mode_of mode)]> g) Hd) as [a Hla]. exists a.
    rw /bind Ha /addr_res {1}/mbind {1}/M_bind {1}/mret {1}/M_ret Hp bind_get Hg bind_modify Ht. by rw (M_bind_Ok _ _ _ _ _ Hla).
Qed.
End bind_facts.

(** ** The first bytes of a connection *)

(** A secio proposition with its length, as molecule and the length-delimited codec
    write them. *)
Lemma looks_like_propose (L e : Z) :
  24 < e < L → L < 2 ^ 32 → looks_like_tcp (put_u32 L ++ le_bytes 4 L ++ le_bytes 4 24 ++ le_bytes 4 e) = true.
Proof.
  intros He HL. rw /looks_like_tcp /at4. apply orb_true_iff. left.
  assert (∀ (x y : bytes) n, length x = n → drop n (x ++ y) = y) as Hd by (intros x y n <-; apply drop_app_length).
  assert (∀ n y, 0 ≤ n < 2 ^ 32 → from_le 4 (le_bytes 4 n ++ y) = n) as Hle.
  { intros n y Hn. rw -{2}(from_le_bytes 4 n); [|done]. by rw /from_le take_app_le ?le_bytes_length // take_ge ?le_bytes_length //. }
  rw (drop_0 (_ ++ _)) (Hd (put_u32 L) _ 4%nat) // Hle; [|lia].
  rw -(drop_drop _ 4 4) -(drop_drop _ 8 4) -(drop_drop _ 4 4) !(Hd (put_u32 L) _ 4%nat) // !(Hd (le_bytes 4 _) _ 4%nat) ?le_bytes_length //.
  rw -(app_nil_r (le_bytes 4 e)) !Hle; [|lia..]. rw take_app_le ?length_be_bytes // take_ge ?length_be_bytes //.
  rw be_Z_put; [|change (256 ^ Z.of_nat 4) with (2 ^ 32); lia]. rewrite -> Z.eqb_refl, (proj2 (Z.ltb_lt _ _)), (proj2 (Z.ltb_lt _ _)) by lia. done.
Qed.

(** The first frame of a yamux connection: a stream is opened, or a ping. *)
Lemma looks_like_yamux t id (tail : bytes) :
  0 ≤ id < 2 ^ 32 → (t = 1 ∧ id ≠ 0) ∨ (t = 2 ∧ id = 0) →
  looks_like_tcp (put_u8 0 ++ put_u8 t ++ put_u16 1 ++ put_u32 id ++ tail) = true.
Proof.
  intros Hid Ht. rw /looks_like_tcp /at4. apply orb_true_iff. right.
  set (b := put_u8 0 ++ _). assert (take 1 b = put_u8 0) as -> by done. assert (take 1 (drop 1 b) = put_u8 t) as -> by done.
  assert (take 2 (drop 2 b) = put_u16 1) as -> by done. assert (take 4 (drop 4 b) = put_u32 id) as -> by done.
  rw /put_u8 /put_u16 /put_u32 !be_Z_put; [|change (256 ^ Z.of_nat 4) with (2 ^ 32); lia|lia|destruct Ht as [[-> _]|[-> _]]; done|lia].
  destruct Ht as [[-> Hne]|[-> ->]]; [|done]. by rw (proj2 (Z.eqb_neq _ _) Hne).
Qed.

(** The first record of a TLS handshake, whose hello is shorter than [2 ^ 16]. *)
Lemma looks_like_tls (v l1 l2 h2 h3 : byte) (tail : bytes) :
  looks_like_tcp (x16 :: x03 :: v :: l1 :: l2 :: x01 :: x00 :: h2 :: h3 :: tail) = false.
Proof.
  rw /looks_like_tcp /at4 /from_le. cbn [drop take rev app]. rw !be_Z_cons. cbn [length].
  change (be_Z []) with 0. change (byte_Z x16) with 22. change (byte_Z x03) with 3. change (byte_Z x01) with 1. change (byte_Z x00) with 0.
  pose proof (byte_Z_range v). pose proof (byte_Z_range l1). pose proof (byte_Z_range l2). pose proof (byte_Z_range h2).
  rewrite -> (proj2 (Z.eqb_neq (22 * _ + _) (_ + _))); [done|]. lia.
Qed.

Section select_facts.
Context {Sock : Type} {TS : TcpStream Sock} {TL : TcpStreamLaws Sock} {AC : AddrCodecs}.
Context (trusted_proxies : list IpAddr) (is_request : bytes → bool) (request_headers : Sock → option (list (bytes * bytes)))
  (accept_ws accept_tls : Sock → bool).
Context {MN : MolNumber} {ML : MolNumberLaws}.

(** Molecule's numbers are little-endian. *)
Class MolLittleEndian : Prop := { pack_number_le n : pack_number n = le_bytes 4 n }.
Context {LE : MolLittleEndian}.

Lemma peek16_prefix late s b s' :
  peek16 late s = (Some (inl b), s') → b = take 16 (ts_content s) ∧ length b = 16%nat ∧ ts_content s' = ts_content s.
Proof.
  revert s. induction late as [|l late IH]; intros s; cbn [peek16]; destruct (ts_peek 16 s) as [[b1|e] s1] eqn:Hp; try done;
    destruct (ts_peek_ok _ _ _ _ Hp) as (Hc & Hpre & _); case_decide as Hl; try done.
  all: try (intros [= <- <-]; split; [|done]; destruct Hpre as [k ->]; by rw take_app_le ?Hl // take_ge ?Hl).
  destruct l; [done|]. intros H. destruct (IH _ H) as (-> & Hl16 & Hc'). rw Hc in Hl16 Hc' |- *. done.
Qed.

Lemma take_app_16 (a b c d y : bytes) :
  length a = 4%nat → length b = 4%nat → length c = 4%nat → length d = 4%nat → take 16 (a ++ b ++ c ++ d ++ y) = a ++ b ++ c ++ d.
Proof.
  intros Ha Hb Hc Hd. rw (_ : a ++ b ++ c ++ d ++ y = (a ++ b ++ c ++ d) ++ y); [|by rw -!app_assoc].
  apply take_app_length'. rw !length_app. lia.
Qed.

Lemma table_write_cons2 (x y : bytes) (xs : list bytes) :
  table_write (x :: y :: xs) =
    pack_number (length (table_write (x :: y :: xs))) ++ pack_number (4 * (length xs + 3)) ++ pack_number (4 * (length xs + 3) + length x) ++
    concat (pack_number <$> mol_offsets (4 * (length xs + 3) + length x + length y) xs) ++ concat (x :: y :: xs).
Proof.
  rw table_write_length. rw /table_write /NUMBER_SIZE. cbn [length mol_offsets fmap list_fmap concat]. rw -!app_assoc.
  replace (4 * (Z.of_nat (S (S (length xs))) + 1)) with (4 * (Z.of_nat (length xs) + 3)) by lia.
  f_equal. f_equal. lia.
Qed.

Lemma propose_first16 p (rest : bytes) :
  propose_wf p →
  looks_like_tcp (take 16 (put_u32 (length (propose_encode p)) ++ propose_encode p ++ rest)) = true.
Proof.
  intros [Hl _]. rw /propose_encode in Hl |- *. set (L := Z.of_nat (length (table_write _))) in *.
  rw {1}table_write_cons2 -/L !pack_number_le -!app_assoc.
  etransitivity; [apply f_equal, (take_app_16 (put_u32 L) (le_bytes 4 L) (le_bytes 4 24) (le_bytes 4 (24 + length (fixvec_write (pr_rand p)))));
    by rw ?length_be_bytes ?le_bytes_length|].
  apply looks_like_propose; [|done]. subst L. rw table_write_length. cbn [length concat]. rw !length_app.
  rw !pack_number_length. lia.
Qed.

Abbreviation select := (protocol_select trusted_proxies is_request request_headers accept_ws accept_tls).

Lemma select_loop_tls_tcp fuel late late2 b remote s :
  is_trusted trusted_proxies remote = false → looks_like_tcp b = true →
  select_loop trusted_proxies is_request request_headers accept_ws accept_tls (S (S fuel)) late late2 TcpAndTls false b remote s =
    (deliver remote TTcp, s).
Proof. intros Ht Hb. cbn [select_loop]. by rw Ht Hb /behind_proxy Ht andb_false_r. Qed.

Lemma select_loop_tls_tls fuel late late2 b remote s :
  is_trusted trusted_proxies remote = false → looks_like_tcp b = false →
  select_loop trusted_proxies is_request request_headers accept_ws accept_tls (S (S fuel)) late late2 TcpAndTls false b remote s =
    (if accept_tls s then deliver remote TTls else OcGaveUp, s).
Proof. intros Ht Hb. cbn [select_loop]. by rw Ht Hb /behind_proxy Ht andb_false_r. Qed.

(** C24. On a socket that serves TCP and TLS, or also websocket when the first bytes
    are no HTTP request, a connection that does not come from a trusted proxy is
    recognised by its first sixteen bytes: one that starts with a secio proposition
    or with a yamux frame that opens a stream or pings is delivered as TCP, with
    nothing of it consumed; one that starts with a TLS hello goes to the TLS
    handshake. *)
Theorem listener_recognises_peers mode late1 late late2 remote s b s1 :
  mode = TcpAndTls ∨ (mode = UmAll ∧ is_request b = false) → is_trusted trusted_proxies remote = false →
  peek16 late1 s = (Some (inl b), s1) →
  (∀ p rest, propose_wf p → ts_content s = put_u32 (length (propose_encode p)) ++ propose_encode p ++ rest →
    select late1 late late2 mode remote s = (deliver remote TTcp, s1) ∧ ts_content s1 = ts_content s) ∧
  (∀ f rest, ts_content s = encode f [] ++ rest → version (header f) = PROTOCOL_VERSION → flags (header f) = flags_from Syn →
    is_u32 (stream_id (header f)) →
    (ty (header f) = WindowUpdate ∧ stream_id (header f) ≠ 0) ∨ (ty (header f) = Ping ∧ stream_id (header f) = 0) →
    select late1 late late2 mode remote s = (deliver remote TTcp, s1) ∧ ts_content s1 = ts_content s) ∧
  (∀ v l1 l2 h2 h3 rest, ts_content s = x16 :: x03 :: v :: l1 :: l2 :: x01 :: x00 :: h2 :: h3 :: rest →
    select late1 late late2 mode remote s = (if accept_tls s1 then deliver remote TTls else OcGaveUp, s1) ∧ ts_content s1 = ts_content s).
Proof.
  intros Hmode Ht Hpeek. destruct (peek16_prefix _ _ _ _ Hpeek) as (Hb & Hlen & Hc).
  assert (∀ r, (looks_like_tcp b = true → r = (deliver remote TTcp, s1)) →
    (looks_like_tcp b = false → r = (if accept_tls s1 then deliver remote TTls else OcGaveUp, s1)) → select late1 late late2 mode remote s = r) as Hsel.
  { intros r H1 H2. rw /protocol_select Hpeek. destruct (looks_like_tcp b) eqn:Hk.
    - rw H1 //. destruct Hmode as [->|[-> Hr]]; [by apply select_loop_tls_tcp|]. cbn [select_loop]. rw Hr. by apply (select_loop_tls_tcp 0).
    - rw H2 //. destruct Hmode as [->|[-> Hr]]; [by apply select_loop_tls_tls|]. cbn [select_loop]. rw Hr. by apply (select_loop_tls_tls 0). }
  split_and!.
  - intros p rest Hp Hct. split; [|done]. apply Hsel; [done|]. rw Hb Hct propose_first16 //.
  - intros f rest Hct Hv Hf Hid Hty. split; [|done]. apply Hsel; [done|]. revert Hb. rw Hct /encode Hv Hf. cbn [app].
    assert (∀ (h t : bytes), b = take 16 (h ++ t) → length h = 12%nat → b = h ++ take 4 t) as Htake.
    { intros h t -> Hh. rw take_app_ge; [|lia]. by rw Hh. }
    set (h := put_u8 PROTOCOL_VERSION ++ put_u8 (ty_u8 (ty (header f))) ++ put_u16 (flags_value (flags_from Syn)) ++
      put_u32 (stream_id (header f)) ++ put_u32 (length_ (header f))).
    intros Hb'. assert (b = h ++ take 4 (default [] (body f) ++ rest)) as ->.
    { apply Htake; [|done]. by rw Hb' /h -!app_assoc. }
    rw /h -!app_assoc looks_like_yamux //; [unfold_int; lia|]. destruct Hty as [[-> ?]|[-> ?]]; [by left|by right].
  - intros v l1 l2 h2 h3 rest Hct. split; [|done]. apply Hsel; [|done]. rw Hb Hct. cbn [take]. by rw looks_like_tls.
Qed.
End select_facts.

(** ** Witnesses *)

#[global] Instance LeNumberLittle : MolLittleEndian (MN:=LeNumber).
Proof. by split. Qed.

Definition demo_listen : Multiaddr := from_iter [Ip4 (mkIp4 1 2 3 4); Tcp 80].
Definition demo_sock : SocketAddr := mkSocketAddr (V4 (mkIp4 1 2 3 4)) 80.

Lemma failed_bind_leaves_entry_witness :
  ∃ g1 a g2, bind demo_listen LmTcp (λ _, inl io.Other) ∅ = (Err (TeIo io.Other), g1) ∧
    bind demo_listen LmWs (λ _, inl io.Other) g1 = (Ok (a, BlUpgrade), g2).
Proof.
  apply (failed_bind_leaves_entry demo_listen LmTcp LmWs (λ _, inl io.Other) (λ _, inl io.Other) io.Other demo_sock ∅); by vm_compute.
Defined.

Definition demo_propose : Propose := mkPropose (replicate 16 x01) [x02] (str "P-256") (str "AES-128-GCM") (str "SHA256").
Definition demo_bytes : bytes := put_u32 (length (propose_encode demo_propose)) ++ propose_encode demo_propose ++ [].
Definition never {A} : A → bool := λ _, false.

Lemma listener_recognises_peers_witness :
  protocol_select [] never (λ _, None) never never [] false [] TcpAndTls demo_sock demo_bytes = (deliver demo_sock TTcp, demo_bytes).
Proof.
  destruct (listener_recognises_peers [] never (λ _, None) never never TcpAndTls [] false [] demo_sock demo_bytes (take 16 demo_bytes) demo_bytes)
    as (H & _ & _).
  - by left.
  - by vm_compute.
  - by vm_compute.
  - apply (H demo_propose []); [split; [by vm_compute|by split_and!]|done].
Defined.
