(* ===== verification/Listener.v ===== *)
(** * Listeners and handshakes of the service

    [tentacle/src/service/helper.rs]: the event that a finished handshake sends to
    the service, and [Listener], the task behind a listening socket, which starts a
    handshake for every connection and, when the socket fails, reports every
    address that it served. The modes of the sockets are those of [TcpListen.v]. *)
From S2P Require Import Prelude Text StdNet ProxyProtocol Multiaddr MultiaddrFacts SecioMessages PeerId AddrUtils Channel Events ProtocolHandle TentacleSession FutureTask Service ServiceFacts TcpListen TcpListenFacts.

(** ** Handshakes *)

(** The result of the handshake task: without encryption the socket itself; else a
    timeout, or the result of the secio handshake. *)
Inductive HandshakeResult (N : NetTypes) :=
| HrNoop (socket : RawIo N)
| HrTimeout (error : HandshakeErr N)
| HrSecio (result : (RawIo N * PublicKey) + HandshakeErr N).
Arguments HrNoop {N}.
Arguments HrTimeout {N}.
Arguments HrSecio {N}.

(** The event that [HandshakeContext::handshake] sends. *)
Definition handshake_event {N} (ty : SessionType) (remote_address : Multiaddr) (listen_address : option Multiaddr) (r : HandshakeResult N) :
    SessionEvent N :=
  match r with
  | HrNoop socket => SeHandshakeSuccess socket None remote_address ty listen_address
  | HrTimeout error => SeHandshakeError remote_address ty error
  | HrSecio (inl (handle, public_key)) => SeHandshakeSuccess handle (Some public_key) remote_address ty listen_address
  | HrSecio (inr error) => SeHandshakeError remote_address ty error
  end.

(** ** [Listener] *)

Section listener.
Context `{!AddrCodecs}.

(** The addresses that [close] reports: those of the socket's mode. *)
Definition close_reports (mode : option UpgradeModeEnum) (address : Multiaddr) (ps : list Protocol) : list Multiaddr :=
  let without (f : Protocol → bool) := from_iter (List.filter (λ p, negb (f p)) ps) in
  let is_tls p := match p with Tls _ => true | _ => false end in
  let is_ws p := match p with Ws => true | _ => false end in
  match mode with
  | None | Some OnlyTcp | Some OnlyWs => [address]
  | Some OnlyTls => [from_iter (clear_protocol <$> ps)]
  | Some TcpAndTls => let base_net := without is_tls in [base_net; push base_net (Tls [])]
  | Some TcpAndWs => let base_net := without is_ws in [base_net; push base_net Ws]
  | Some UmAll => let base_net := without (λ p, is_ws p || is_tls p) in [base_net; push base_net Ws; push base_net (Tls [])]
  end.

(** [close]: the mode of the socket is read from the table. *)
Definition listener_close (g : Modes) (address : Multiaddr) : option (Res Error (list Multiaddr)) :=
  match multiaddr_to_socketaddr address, iter address with
  | Some (Ok sa), Some (Ok ps) =>
      match sa ≫= (g !!.) with
      | None => Some (Ok (close_reports None address ps))
      | Some v => match to_enum (E:=Empty_set) v with Ok e => Some (Ok (close_reports (Some e) address ps)) | _ => Some Panic end
      end
  | None, _ | _, None => None
  | _, _ => Some Panic
  end.

(** What a poll does. *)
Inductive ListenerAction :=
| LaHandshake (ty : SessionType) (remote_address : Multiaddr) (listen_address : option Multiaddr)
| LaReport (addresses : list Multiaddr) (error : io.ErrorKind).

Definition listener_poll (g : Modes) (listen_addr : Multiaddr) (p : Poll (option (Multiaddr + io.ErrorKind))) :
    option (Res Error (Poll (option unit) * list ListenerAction)) :=
  let fail e :=
    match listener_close g listen_addr with
    | Some (Ok addrs) => Some (Ok (Ready None, [LaReport addrs e]))
    | Some (Err err) => Some (Err err)
    | Some Panic => Some Panic
    | None => None
    end in
  match p with
  | Ready (Some (inl remote_address)) => Some (Ok (Ready (Some ()), [LaHandshake Inbound remote_address (Some listen_addr)]))
  | Ready None => fail io.BrokenPipe
  | Pending => Some (Ok (Pending, []))
  | Ready (Some (inr err)) => fail err
  end.
End listener.

(** ** Facts *)

Section facts.
Context {AC : AddrCodecs} {AL : AddrCodecsLaws}.

(** A handshake's event is one that the service handles. *)
Lemma handshake_event_wf {N} ty remote la (r : HandshakeResult N) :
  addr_wf remote → (ty = Inbound → is_Some la) → event_wf (handshake_event ty remote la r).
Proof. intros Hr Hla. by destruct r as [|?|[[]|]]. Qed.

Definition socket_parts (sa : SocketAddr) : list Protocol := [match ip sa with V4 a => Ip4 a | V6 a => Ip6 a end; Tcp (port sa)].
Definition mode_parts (m : TcpListenMode) (domain : bytes) : list Protocol :=
  match m with LmTcp => [] | LmWs => [Ws] | LmTls => [Tls domain] end.

(** The address of a mode on a socket, with its domain. *)
Definition mode_addr (sa : SocketAddr) (m : TcpListenMode) (domain : bytes) : Multiaddr := from_iter (socket_parts sa ++ mode_parts m domain).

Lemma from_iter_snoc ps p : from_iter (ps ++ [p]) = push (from_iter ps) p.
Proof. rw /from_iter /push. cbn [ma_bytes]. by rw fmap_app concat_app /= app_nil_r. Qed.

Lemma socket_parts_addr sa : from_iter (socket_parts sa) = socketaddr_to_multiaddr sa.
Proof. done. Qed.

Lemma mode_addr_Comps sa m d :
  ip_wf (ip sa) → is_u16 (port sa) → text_wf d → Comps (ma_bytes (mode_addr sa m d)) (socket_parts sa ++ mode_parts m d).
Proof.
  intros Hip Hp Hd. apply Comps_concat. apply Forall_app. split.
  - apply Forall_cons. split; [by destruct (ip sa)|]. by apply Forall_singleton.
  - destruct m; [done|by apply Forall_singleton..].
Qed.

(** The address that a bind reports is that of its mode. *)
Lemma listen_addr_mode addr m sa g a g' :
  listen_addr addr m sa g = (Ok a, g') → ∃ d, a = mode_addr sa m d ∧ (m = LmTls → parse_tls_domain_name addr = Some (Ok (Some d))).
Proof.
  rw /listen_addr. destruct m; [intros [= <- _]; by exists []| |intros [= <- _]; exists []; by rw /mode_addr from_iter_snoc].
  rw /addr_res. destruct (parse_tls_domain_name addr) as [[[d|]| |]|]; try done. intros [= <- _]. exists d. by rw /mode_addr from_iter_snoc.
Qed.

Lemma text_wf_nil : text_wf [].
Proof. by split. Qed.

Lemma mode_addr_cleared sa m d :
  ip_wf (ip sa) → is_u16 (port sa) → text_wf d → cleared (mode_addr sa m d) = mode_addr sa m [].
Proof.
  intros Hip Hp Hd. rw /cleared (iter_Comps _ _ (mode_addr_Comps sa m d Hip Hp Hd)) /mode_addr fmap_app. f_equal. f_equal.
  - rw /socket_parts /=. by destruct (ip sa).
  - by destruct m.
Qed.

Lemma mode_addr_inj sa m m' : ip_wf (ip sa) → is_u16 (port sa) → mode_addr sa m [] = mode_addr sa m' [] → m = m'.
Proof.
  intros Hip Hp Heq. pose proof (mode_addr_Comps sa m [] Hip Hp text_wf_nil) as H1. rw Heq in H1.
  pose proof (Comps_det _ _ _ H1 (mode_addr_Comps sa m' [] Hip Hp text_wf_nil)) as H%app_inv_head. by destruct m, m'.
Qed.

Lemma close_reports_modes e sa m d :
  serves e m = true →
  close_reports (Some e) (mode_addr sa m d) (socket_parts sa ++ mode_parts m d) =
    (λ x, mode_addr sa x []) <$> List.filter (serves e) [LmTcp; LmWs; LmTls].
Proof.
  destruct e, m; try done; intros _; rw /close_reports /mode_addr /socket_parts; destruct (ip sa); simpl; rewrite <-?from_iter_snoc; done.
Qed.

(** C36. When the socket of a listener fails, the service is told of exactly the
    addresses under which it keeps the listens of the socket, one for each mode
    that was bound to it, unless the modes are websocket and TLS without TCP: then
    reading the mode panics and nothing is told. *)
Theorem listener_reports_its_listens sa m d ms g :
  ip_wf (ip sa) → is_u16 (port sa) → text_wf d →
  g !! sa = Some (foldl combine (mode_u8 (mode_of m)) (mode_of <$> ms)) →
  (LmTcp ∈ m :: ms ∨ (LmWs ∉ m :: ms) ∨ (LmTls ∉ m :: ms) →
   ∃ reports, listener_close g (mode_addr sa m d) = Some (Ok reports) ∧ NoDup reports ∧
     ∀ a, a ∈ reports ↔ ∃ x d', x ∈ m :: ms ∧ text_wf d' ∧ a = cleared (mode_addr sa x d')) ∧
  ((LmTcp ∉ m :: ms) → LmWs ∈ m :: ms → LmTls ∈ m :: ms → listener_close g (mode_addr sa m d) = Some Panic).
Proof.
  intros Hip Hp Hd Hg. pose proof (mode_addr_Comps sa m d Hip Hp Hd) as HC.
  rw /listener_close (multiaddr_to_socketaddr_Comps _ _ HC) (iter_Comps _ _ HC).
  assert (first_socket (socket_parts sa ++ mode_parts m d) = Some sa) as -> by (rw /socket_parts; by destruct sa as [[] ?]).
  cbn [mbind option_bind]. rw Hg. split; [|intros H1 H2 H3; by rw mode_panics].
  intros Hc. destruct (mode_serves m ms Hc) as (e & He & Hs). rw He close_reports_modes; [|apply Hs, elem_of_cons; by left]. eexists. split; [done|]. split.
  - apply NoDup_fmap_2_strong; [intros x y _ _; by apply mode_addr_inj|]. apply NoDup_ListNoDup, List.NoDup_filter, NoDup_ListNoDup.
    by apply (bool_decide_unpack _).
  - intros a. rw list_elem_of_fmap. split.
    + intros (x & -> & [_ Hx]%list_elem_of_In%List.filter_In). exists x, []. rw mode_addr_cleared //. split; [by apply Hs|]. split; [apply text_wf_nil|done].
    + intros (x & d' & Hx & Hd' & ->). exists x. rw mode_addr_cleared //. split; [done|]. apply list_elem_of_In, List.filter_In.
      split; [|by apply Hs]. destruct x; simpl; tauto.
Qed.
End facts.

Lemma listener_reports_its_listens_witness :
  ∃ reports, listener_close {[demo_sock := 7]} (mode_addr demo_sock LmWs []) = Some (Ok reports) ∧ NoDup reports.
Proof.
  destruct (listener_reports_its_listens demo_sock LmWs [] [LmTcp; LmTls] {[demo_sock := 7]}) as [(r & Hr & Hnd & _) _].
  - repeat constructor; unfold_int; simpl; lia.
  - unfold_int; simpl; lia.
  - by split.
  - by vm_compute.
  - left. set_solver.
  - exists r. split; [exact Hr|exact Hnd].
Defined.
