(* ===== verification/MemoryTransport.v ===== *)
(** * The memory transport

    [tentacle/src/transports/memory.rs]: the table of listening ports, binding,
    connecting and dropping a listener, and the sockets, two channels of byte
    vectors with a read buffer each. The channels are those of the futures crate:
    a queue that may be closed; whether it has room for a write is a parameter of
    the write, and so are the random ports. *)
From S2P Require Import Prelude Text StdNet Multiaddr MultiaddrFacts SecioMessages PeerId AddrUtils ProxyProtocol Molecule YamuxFrame TcpListen.

(** ** The hub *)

(** Each listening port with the sockets that wait to be accepted. *)
Abbreviation Hub := (gmap Z (list nat)).

Section hub.
Context `{!AddrCodecs}.

(** The port of an address that starts with a memory component. *)
Definition parse_memory_port {S E} (addr : Multiaddr) : M S E (option Z) :=
  match iter_next (ma_bytes addr) with
  | Ok (Some (Memory port, _)) => mret (Some port)
  | Ok _ => mret None
  | _ => panic
  end.

Definition insert_hub (port : Z) : M Hub TransportErrorKind unit :=
  hub ← get;
  match hub !! port with
  | Some _ => throw (TeIo io.AddrNotAvailable)
  | None => modify <[port := []]>
  end.

(** The loop over random ports ends at the first that is not zero. *)
Fixpoint random_port (random : list Z) : option Z :=
  match random with
  | [] => None
  | r :: random => if r =? 0 then random_port random else Some r
  end.

(** [bind]; no result while all random numbers were zero. *)
Definition memory_bind (random : list Z) (address : Multiaddr) : M Hub TransportErrorKind (option (Multiaddr * Z)) :=
  p ← parse_memory_port address;
  match p with
  | None => throw (TeNotSupported address)
  | Some port =>
      if port =? 0 then
        match random_port random with
        | None => mret None
        | Some port => insert_hub port;; mret (Some (from_protocol (Memory port), port))
        end
      else insert_hub port;; mret (Some (from_protocol (Memory port), port))
  end.

(** [connect]: the socket [remote] is handed to the listener; [alive] says whether
    its receiver still exists. *)
Definition memory_connect (alive : bool) (remote : nat) (address : Multiaddr) : M Hub TransportErrorKind Multiaddr :=
  p ← parse_memory_port address;
  match p with
  | None => throw (TeNotSupported address)
  | Some port =>
      if port =? 0 then throw (TeIo io.AddrNotAvailable)
      else
        hub ← get;
        match hub !! port with
        | None => throw (TeIo io.AddrNotAvailable)
        | Some waiting =>
            if alive then modify <[port := waiting ++ [remote]]>;; mret address
            else throw (TeIo io.ConnectionRefused)
        end
  end.

(** A poll of the listener: the next socket, with the empty address. *)
Definition memory_accept (port : Z) (hub : Hub) : option (Multiaddr * nat) * Hub :=
  match hub !! port with
  | Some (s :: waiting) => (Some (mkMultiaddr [], s), <[port := waiting]> hub)
  | _ => (None, hub)
  end.

(** [Drop for MemoryListener]. *)
Definition memory_drop (port : Z) (hub : Hub) : Hub := delete port hub.
End hub.

(** ** Sockets *)

(** One direction of a pair of sockets, with the reader's buffer. *)
Record MemoryPipe := mkPipe {
  pipe_queue : list bytes;
  (** the sender or the receiver closed the channel *)
  pipe_closed : bool;
  (** the end was reported *)
  pipe_terminated : bool;
  read_buffer : bytes;
}.

Definition pipe_new : MemoryPipe := mkPipe [] false false [].

Inductive Readiness := HasRoom | IsFull | IsClosed.

(** [poll_write]: the whole buffer is sent as one vector. *)
Definition memory_write (room : Readiness) (buf : bytes) (p : MemoryPipe) : Poll (Z + io.ErrorKind) * MemoryPipe :=
  match room with
  | HasRoom => (Ready (inl (Z.of_nat (length buf))), mkPipe (pipe_queue p ++ [buf]) (pipe_closed p) (pipe_terminated p) (read_buffer p))
  | IsFull => (Pending, p)
  | IsClosed => (Ready (inr io.BrokenPipe), p)
  end.

(** The loop of [poll_read]: whether the end was reached, the rest of the queue and
    the buffer. *)
Fixpoint read_fill (queue : list bytes) (closed : bool) (buffer : bytes) : bool * list bytes * bytes :=
  match buffer with
  | _ :: _ => (false, queue, buffer)
  | [] => match queue with
          | data :: queue => read_fill queue closed data
          | [] => (closed, [], [])
          end
  end.

Definition memory_read (remaining : nat) (p : MemoryPipe) : Poll (bytes + io.ErrorKind) * MemoryPipe :=
  let '(ended, queue, buffer) :=
    if pipe_terminated p then (false, pipe_queue p, read_buffer p) else read_fill (pipe_queue p) (pipe_closed p) (read_buffer p) in
  if (ended : bool) then (Ready (inr io.BrokenPipe), mkPipe queue (pipe_closed p) true buffer)
  else
    let n := Nat.min remaining (length buffer) in
    if decide (n = 0%nat) then (Pending, mkPipe queue (pipe_closed p) (pipe_terminated p) buffer)
    else (Ready (inl (take n buffer)), mkPipe queue (pipe_closed p) (pipe_terminated p) (drop n buffer)).

(** [poll_shutdown] closes both channels of a socket. *)
Definition memory_shutdown (p : MemoryPipe) : MemoryPipe := mkPipe (pipe_queue p) true (pipe_terminated p) (read_buffer p).

(** ** Facts *)

Section hub_facts.
Context {AC : AddrCodecs} {AL : AddrCodecsLaws}.

Lemma parse_memory_port_ok {S E} port (s : S) :
  is_u64 port → parse_memory_port (E:=E) (from_protocol (Memory port)) s = (Ok (Some port), s).
Proof.
  intros Hp. rw /parse_memory_port. assert (iter_next (ma_bytes (from_protocol (Memory port))) = Ok (Some (Memory port, []))) as ->; [|done].
  apply iter_next_cons. rw /from_protocol. cbn [ma_bytes]. rw -(app_nil_r (write_to_bytes _)). by apply from_bytes_write.
Qed.

(** A port that nobody listens on can be bound, once: a second bind is refused
    and changes nothing. Connections to it wait in their order and are accepted in
    it; when the listener is dropped the port is free again. *)
Theorem memory_hub_ports port random socks hub :
  is_u64 port → port ≠ 0 → hub !! port = None →
  ∃ hub1, memory_bind random (from_protocol (Memory port)) hub = (Ok (Some (from_protocol (Memory port), port)), hub1) ∧
    memory_bind random (from_protocol (Memory port)) hub1 = (Err (TeIo io.AddrNotAvailable), hub1) ∧
    (∀ waiting s, memory_connect true s (from_protocol (Memory port)) (<[port := waiting]> hub1) =
      (Ok (from_protocol (Memory port)), <[port := waiting ++ [s]]> hub1)) ∧
    (∀ s, memory_accept port (<[port := s :: socks]> hub1) = (Some (mkMultiaddr [], s), <[port := socks]> hub1)) ∧
    memory_drop port hub1 = hub.
Proof.
  intros Hu Hp Hn. apply Z.eqb_neq in Hp. exists (<[port := []]> hub). split_and!.
  - rw /memory_bind (M_bind_Ok _ _ _ _ _ (parse_memory_port_ok _ _ Hu)) Hp /insert_hub. by rw {1}/mbind {1}/M_bind bind_get Hn.
  - rw /memory_bind (M_bind_Ok _ _ _ _ _ (parse_memory_port_ok _ _ Hu)) Hp /insert_hub. by rw {1}/mbind {1}/M_bind bind_get lookup_insert_eq.
  - intros waiting s. rw /memory_connect (M_bind_Ok _ _ _ _ _ (parse_memory_port_ok _ _ Hu)) Hp bind_get lookup_insert_eq bind_modify.
    by rw !insert_insert_eq.
  - intros s. rw /memory_accept lookup_insert_eq. by rw insert_insert_eq.
  - rw /memory_drop. by rw delete_insert_id.
Qed.
End hub_facts.

(** What a sequence of calls at the two ends writes and reads. *)
Inductive PipeCall := PcWrite (room : Readiness) (buf : bytes) | PcRead (remaining : nat) | PcShutdown.

Fixpoint pipe_run (calls : list PipeCall) (p : MemoryPipe) : bytes * bytes * MemoryPipe :=
  match calls with
  | [] => ([], [], p)
  | PcWrite room buf :: calls =>
      let '(r, p) := memory_write room buf p in
      let '(w, d, p) := pipe_run calls p in
      (match r with Ready (inl _) => buf ++ w | _ => w end, d, p)
  | PcRead n :: calls =>
      let '(r, p) := memory_read n p in
      let '(w, d, p) := pipe_run calls p in
      (w, match r with Ready (inl b) => b ++ d | _ => d end, p)
  | PcShutdown :: calls => pipe_run calls (memory_shutdown p)
  end.

(** What is still on its way. *)
Definition in_flight (p : MemoryPipe) : bytes := read_buffer p ++ concat (pipe_queue p).

Lemma read_fill_spec queue closed buffer :
  let '(ended, q, b) := read_fill queue closed buffer in
  buffer ++ concat queue = b ++ concat q ∧ (ended = true → b = [] ∧ q = []) ∧ (b = [] → q = [] ∧ ended = closed).
Proof.
  revert buffer. induction queue as [|data queue IH]; intros [|x buffer]; simpl; try done.
  specialize (IH data). destruct (read_fill queue closed data) as [[ended q] b]. done.
Qed.

Lemma memory_read_spec n p :
  let '(r, p') := memory_read n p in
  in_flight p = match r with Ready (inl b) => b | _ => [] end ++ in_flight p' ∧
  (pipe_terminated p = false → (0 < n)%nat → in_flight p ≠ [] → ∃ b, r = Ready (inl b) ∧ b ≠ []) ∧
  (pipe_terminated p = false → in_flight p = [] → r = if pipe_closed p then Ready (inr io.BrokenPipe) else Pending).
Proof.
  rw /memory_read. destruct (pipe_terminated p) eqn:Ht.
  - case_decide; [done|]. rw /in_flight /=. split; [by rw app_assoc take_drop|]. done.
  - pose proof (read_fill_spec (pipe_queue p) (pipe_closed p) (read_buffer p)) as Hf.
    destruct (read_fill _ _ _) as [[ended q] b]. destruct Hf as (Hc & He & Hn). rw /in_flight Hc. destruct ended.
    + destruct (He eq_refl) as [-> ->]. simpl. destruct (Hn eq_refl) as [_ <-]. done.
    + case_decide as Hm; simpl.
      * split; [done|]. split.
        -- intros _ Hn0 Hne. destruct b as [|x b]; [|simpl in Hm; lia]. destruct (Hn eq_refl) as [-> _]. by destruct Hne.
        -- intros _ [-> _]%app_eq_nil. destruct (Hn eq_refl) as [_ <-]. done.
      * split; [by rw app_assoc take_drop|]. split.
        -- intros _ _ _. exists (take (Nat.min n (length b)) b). split; [done|]. intros Hz%(f_equal length). rw length_take /= in Hz. lia.
        -- intros _ [-> _]%app_eq_nil. simpl in Hm. lia.
Qed.

(** Over any sequence of writes, reads and shutdowns at the two ends of one
    direction: what was read, followed by what is still on its way, is what was
    written. A read with room yields data whenever some is on its way, until the
    end was reported. *)
Theorem memory_socket_fifo calls n :
  let '(w, d, p) := pipe_run calls pipe_new in
  w = d ++ in_flight p ∧
  (pipe_terminated p = false → (0 < n)%nat → in_flight p ≠ [] → ∃ b p', memory_read n p = (Ready (inl b), p') ∧ b ≠ []) ∧
  (pipe_terminated p = false → in_flight p = [] → (memory_read n p).1 = if pipe_closed p then Ready (inr io.BrokenPipe) else Pending).
Proof.
  assert (∀ p, let '(w, d, p') := pipe_run calls p in in_flight p ++ w = d ++ in_flight p') as Hrun.
  { induction calls as [|[room buf|m|] calls IH]; intros p; cbn [pipe_run]; [by rw app_nil_r| | |by apply (IH (memory_shutdown p))].
    - destruct (memory_write room buf p) as [r p1] eqn:Hw. specialize (IH p1). destruct (pipe_run calls p1) as [[w d] p2].
      destruct room; injection Hw as <- <-; try done. rw -IH /in_flight /= concat_app /= app_nil_r. by rw -!app_assoc.
    - pose proof (memory_read_spec m p) as Hr. destruct (memory_read m p) as [r p1]. destruct Hr as (Hr & _). specialize (IH p1).
      destruct (pipe_run calls p1) as [[w d] p2]. rw Hr -app_assoc IH. destruct r as [[b|]|]; simpl; [by rw app_assoc|done..]. }
  specialize (Hrun pipe_new). destruct (pipe_run calls pipe_new) as [[w d] p]. split; [done|].
  pose proof (memory_read_spec n p) as Hr. destruct (memory_read n p) as [r p1]. destruct Hr as (_ & H1 & H2). split; [|done].
  intros Ht Hn Hf. destruct (H1 Ht Hn Hf) as (b & -> & Hb). by exists b, p1.
Qed.

Lemma memory_hub_ports_witness :
  ∃ hub1, memory_bind [] (from_protocol (Memory 9)) ∅ = (Ok (Some (from_protocol (Memory 9), 9)), hub1) ∧
    memory_bind [] (from_protocol (Memory 9)) hub1 = (Err (TeIo io.AddrNotAvailable), hub1).
Proof.
  destruct (memory_hub_ports 9 [] [] ∅) as (hub1 & H1 & H2 & _).
  - unfold_int; lia.
  - done.
  - done.
  - exists hub1. split; [exact H1|exact H2].
Defined.
