(* ===== verification/QuicIdentity.v ===== *)
(** * QUIC identities

    [quic/identity.rs] and [quic/verifier.rs] with the readers and builders of
    the generated [quic/identity_mol.rs]: the self-signed certificate that
    carries a secio identity, reading the identity back, and the two
    certificate verifiers. The X.509 parser ([x509_parser]), the certificate
    generator ([rcgen]) and SHA-256 ([ring]) are parameters, and so is the key
    provider. The texts inside errors are dropped; an error of the verifiers
    says which check failed instead. *)
From S2P Require Import Prelude Text Multiaddr MultiaddrFacts Molecule MoleculeFacts SecioSupport SecioMessages SecioHandshake PeerId.

(** ** Certificates *)

(** An extension: [ext.oid.iter()], which is [None] for an identifier whose
    parts do not fit, and [ext.value]. *)
Record X509Extension := mkExt { ext_oid : option (list Z); ext_value : bytes }.

(** What the code reads of a parsed certificate: [extensions()], the timestamps
    of [validity()] and [public_key().raw]. *)
Record X509Certificate := mkCert {
  extensions : list X509Extension;
  cert_not_before : Z;
  cert_not_after : Z;
  spki_raw : bytes;
}.

(** What the code sets of [rcgen::CertificateParams], and the validity that it
    leaves as it is. *)
Record CertificateParams := mkParams {
  distinguished_name : list (string * bytes);
  custom_extensions : list (list Z * bytes);
  not_before : Z;
  not_after : Z;
}.

Class X509 := {
  parse_x509_certificate : bytes → option (bytes * X509Certificate);
  TlsKeyPair : Type;
  (** The randomness of the key generation. *)
  TlsSeed : Type;
  generate_for_ed25519 : TlsSeed → option TlsKeyPair;
  public_key_der : TlsKeyPair → bytes;
  serialize_der : TlsKeyPair → bytes;
  params_new : list bytes → option CertificateParams;
  self_signed : CertificateParams → TlsKeyPair → option bytes;
}.

(** [rcgen]'s documentation: the default validity runs from 1975 to 4096 and
    there are no custom extensions; a signed certificate is a certificate of
    the key, with the given validity, and it holds the custom extensions in
    order beside standard ones, which lie under 2.5.29. *)
Class X509Laws `{X509} : Prop := {
  params_new_default sans p :
    params_new sans = Some p →
    custom_extensions p = [] ∧ not_before p = 157766400 ∧ not_after p = 67090118400;
  self_signed_parses p k der :
    self_signed p k = Some der →
    ∃ rest c, parse_x509_certificate der = Some (rest, c) ∧ spki_raw c = public_key_der k ∧
      cert_not_before c = not_before p ∧ cert_not_after c = not_after p ∧
      ∀ oid, take 3 oid ≠ [2; 5; 29] →
        ext_value <$> filter (λ e, ext_oid e = Some oid) (extensions c) =
        snd <$> filter (λ e, e.1 = oid) (custom_extensions p);
}.

(** ** [identity.rs] *)

Inductive QuicErrorKind :=
| CertificateError
| SigningError
| ExtensionNotFound
| IdentityVersionUnsupported (version : Z)
| MultipleIdentityFound.

Definition TENTACLE_QUIC_IDENT_OID : list Z := [1; 3; 6; 1; 4; 1; 99999; 1; 1].
Definition BINDING_DOMAIN : bytes := str "tentacle-quic-binding/v1".
Definition IDENTITY_VERSION : Z := 1.

Record TentacleQuicCert := mkQuicCert { cert_der : bytes; key_der : bytes }.

(** An error of a call as an error of the caller. *)
Definition res_map_err {E F A} (f : E → F) (r : Res E A) : Res F A :=
  match r with Ok a => Ok a | Err e => Err (f e) | Panic => Panic end.
Definition res_ok_or {E A} (e : E) (o : option A) : Res E A :=
  match o with Some a => Ok a | None => Err e end.

(** An accessor of a verified slice: it returns or panics. *)
Definition access {E A} (r : VR A) : Res E A := match r with Ok a => Ok a | _ => Panic end.

Section identity.
Context `{!MolNumber}.

Definition uint8_reader_verify : Verifier := array_verify 1.
Definition identity_bytes_reader_verify : Verifier := fixvec_verify.
Definition identity_reader_verify : Verifier :=
  table_verify [uint8_reader_verify; identity_bytes_reader_verify; identity_bytes_reader_verify].

Definition encode_identity_payload (secio_pubkey binding_sig : bytes) : bytes :=
  table_write [[Z_byte IDENTITY_VERSION]; fixvec_write secio_pubkey; fixvec_write binding_sig].

(** [identity.version().nth0().into()], [secio_pubkey().raw_data()] and
    [binding_sig().raw_data()]. *)
Definition identity_version (identity : bytes) : VR Z :=
  v ← table_field 3 0 identity;
  match v with [] => Panic | b :: _ => Ok (byte_Z b) end.
Definition identity_secio_pubkey (identity : bytes) : VR bytes := field_data 3 1 identity.
Definition identity_binding_sig (identity : bytes) : VR bytes := field_data 3 2 identity.

Context `{!X509} (sha256 : bytes → bytes).

(** The loop over [parsed_cert.extensions()]. *)
Fixpoint find_identity (exts : list X509Extension) (identity : option bytes)
    : Res QuicErrorKind (option bytes) :=
  match exts with
  | [] => Ok identity
  | ext :: exts =>
      if bool_decide (ext_oid ext = Some TENTACLE_QUIC_IDENT_OID) then
        match identity with
        | Some _ => Err MultipleIdentityFound
        | None =>
            _ ← res_map_err (λ _, CertificateError) (identity_reader_verify (ext_value ext) true);
            find_identity exts (Some (ext_value ext))
        end
      else find_identity exts identity
  end.

Definition extract_identity (leaf_der : bytes) : Res QuicErrorKind bytes :=
  parsed_cert ← res_ok_or CertificateError (parse_x509_certificate leaf_der);
  found ← find_identity (extensions parsed_cert.2) None;
  match found with
  | Some identity =>
      version ← access (identity_version identity);
      if negb (version =? IDENTITY_VERSION) then Err (IdentityVersionUnsupported version) else Ok identity
  | None => Err ExtensionNotFound
  end.

Context {K : Type} `{!KeyProvider K}.

Definition build_self_signed (key : K) (seed : TlsSeed) : Res QuicErrorKind TentacleQuicCert :=
  tls_keypair ← res_ok_or CertificateError (generate_for_ed25519 seed);
  let spki_der := public_key_der tls_keypair in
  let digest := sha256 (BINDING_DOMAIN ++ spki_der) in
  binding_sig ← res_map_err (λ _, SigningError) (sign_ecdsa key digest);
  let secio_pubkey := pubkey key in
  let payload := encode_identity_payload secio_pubkey binding_sig in
  let ext := (TENTACLE_QUIC_IDENT_OID, payload) in
  params ← res_ok_or CertificateError (params_new [str "tentacle.invalid"]);
  let dn := [("CommonName"%string, str "tentacle.invalid")] in
  let params := mkParams dn (custom_extensions params ++ [ext]) (not_before params) (not_after params) in
  cert ← res_ok_or CertificateError (self_signed params tls_keypair);
  Ok (mkQuicCert cert (serialize_der tls_keypair)).

Definition verify_binding (local_key : K) (secio_pubkey : PublicKey) (leaf_spki_der sig : bytes)
    : Res QuicErrorKind unit :=
  let digest := sha256 (BINDING_DOMAIN ++ leaf_spki_der) in
  if verify_ecdsa local_key (key secio_pubkey) digest sig then Ok () else Err SigningError.

(** ** [verifier.rs] *)

(** The [RustlsError::General] of each check. *)
Inductive CertRejected :=
| IntermediateCertificates
| LeafNotParsed
| OutsideValidity
| IdentityExtension (e : QuicErrorKind)
| BindingInvalid (e : QuicErrorKind)
| UnexpectedPeerId (expected got : PeerId).

(** [u64 as i64]. *)
Definition as_i64 (n : Z) : Z := if n <? 2 ^ 63 then n else n - 2 ^ 64.

Context `{!AddrCodecs}.

Definition verify_tentacle_cert (local_key : K) (end_entity : bytes) (intermediates : list bytes)
    (now : Z) (expected_peer_id : option PeerId) : Res CertRejected unit :=
  if negb (bool_decide (intermediates = [])) then Err IntermediateCertificates else
  parsed ← res_ok_or LeafNotParsed (parse_x509_certificate end_entity);
  let now_secs := as_i64 now in
  if (now_secs <? cert_not_before parsed.2) || (cert_not_after parsed.2 <? now_secs)
  then Err OutsideValidity else
  identity ← res_map_err IdentityExtension (extract_identity end_entity);
  secio_pubkey_bytes ← access (identity_secio_pubkey identity);
  let secio_pubkey := mkPublicKey secio_pubkey_bytes in
  let derived_peer_id := from_public_key sha256 secio_pubkey in
  let spki_der := spki_raw parsed.2 in
  binding_sig ← access (identity_binding_sig identity);
  _ ← res_map_err BindingInvalid (verify_binding local_key secio_pubkey spki_der binding_sig);
  match expected_peer_id with
  | Some expected =>
      if negb (bool_decide (expected = derived_peer_id))
      then Err (UnexpectedPeerId expected derived_peer_id) else Ok ()
  | None => Ok ()
  end.

(** The verifiers; the crypto provider they also hold is only handed on. *)
Record TentacleQuicServerCertVerifier := mkServerVerifier {
  sv_expected_peer_id : option PeerId;
  sv_local_key : K;
}.
Record TentacleQuicClientCertVerifier := mkClientVerifier { cv_local_key : K }.

Definition verify_server_cert (v : TentacleQuicServerCertVerifier) (end_entity : bytes)
    (intermediates : list bytes) (now : Z) : Res CertRejected unit :=
  verify_tentacle_cert (sv_local_key v) end_entity intermediates now (sv_expected_peer_id v).

Definition verify_client_cert (v : TentacleQuicClientCertVerifier) (end_entity : bytes)
    (intermediates : list bytes) (now : Z) : Res CertRejected unit :=
  verify_tentacle_cert (cv_local_key v) end_entity intermediates now None.

(** ** What the module's documentation promises *)

(** The payloads of the extensions with the identity's identifier. *)
Definition identity_payloads (exts : list X509Extension) : list bytes :=
  ext_value <$> filter (λ e, ext_oid e = Some TENTACLE_QUIC_IDENT_OID) exts.

(** A payload decodes to these fields. *)
Definition decodes_to (payload : bytes) (version : Z) (secio_pubkey binding_sig : bytes) : Prop :=
  identity_reader_verify payload true = Ok () ∧ identity_version payload = Ok version ∧
  identity_secio_pubkey payload = Ok secio_pubkey ∧ identity_binding_sig payload = Ok binding_sig.

(** A certificate is acceptable: the five conditions of [verifier.rs]. *)
Definition acceptable (local_key : K) (end_entity : bytes) (intermediates : list bytes) (now : Z)
    (expected : option PeerId) : Prop :=
  intermediates = [] ∧
  ∃ rest cert payload pk sig,
    parse_x509_certificate end_entity = Some (rest, cert) ∧
    cert_not_before cert ≤ now ≤ cert_not_after cert ∧
    identity_payloads (extensions cert) = [payload] ∧ decodes_to payload IDENTITY_VERSION pk sig ∧
    verify_ecdsa local_key pk (sha256 (BINDING_DOMAIN ++ spki_raw cert)) sig = true ∧
    (∀ p, expected = Some p → p = from_public_key sha256 (mkPublicKey pk)).
End identity.

(** ** Facts *)

Section facts.
Context {MN : MolNumber} {ML : MolNumberLaws} {X : X509}.
Implicit Types exts : list X509Extension.

Lemma identity_verified payload c :
  identity_reader_verify payload c = Ok () →
  ∃ v pk sig, identity_version payload = Ok v ∧ identity_secio_pubkey payload = Ok pk ∧
    identity_binding_sig payload = Ok sig.
Proof.
  intros Hv. rw /identity_version /identity_secio_pubkey /identity_binding_sig /field_data.
  destruct (table_verified _ _ _ 0 _ Hv eq_refl) as (x & Hx & Hl%array_verified).
  destruct (table_verified _ _ _ 1 _ Hv eq_refl) as (y & Hy & [pk Hpk]%fixvec_verified).
  destruct (table_verified _ _ _ 2 _ Hv eq_refl) as (z & Hz & [sig Hsig]%fixvec_verified).
  cbn [length] in Hx, Hy, Hz. rw Hx Hy Hz. cbn [mbind Res_bind]. destruct x as [|b x]; [done|]. by exists (byte_Z b), pk, sig.
Qed.

Lemma identity_no_panic payload c : identity_reader_verify payload c ≠ Panic.
Proof.
  apply table_no_panic. intros f x (i & Hf)%list_elem_of_lookup.
  destruct i as [|[|[|i]]]; simplify_eq/=; [apply array_no_panic|apply fixvec_no_panic..].
Qed.

Lemma identity_payload_length pk sig :
  length (encode_identity_payload pk sig) = (25 + length pk + length sig)%nat.
Proof.
  rw /encode_identity_payload /table_write /fixvec_write. cbn [concat mol_offsets fmap list_fmap].
  rw !length_app !pack_number_length. cbn [length]. lia.
Qed.

(** A payload that fits the format is read back. *)
Lemma identity_payload_roundtrip pk sig :
  length (encode_identity_payload pk sig) < 2 ^ 32 →
  decodes_to (encode_identity_payload pk sig) IDENTITY_VERSION pk sig.
Proof.
  intros Hl. set (items := [[Z_byte IDENTITY_VERSION]; fixvec_write pk; fixvec_write sig]).
  change (encode_identity_payload pk sig) with (table_write items) in *.
  assert (∀ d, fixvec_write d ∈ items → length d < 2 ^ 32) as Hd.
  { intros d (i & Hi)%list_elem_of_lookup. rw table_write_length in Hl.
    assert (length (fixvec_write d) ≤ length (concat items))%nat as Hle.
    { rw -(take_drop_middle _ _ _ Hi) concat_app length_app. cbn [concat]. rw length_app. lia. }
    rw {1}/fixvec_write length_app in Hle. rw /NUMBER_SIZE in Hl. lia. }
  assert (∀ (i : nat) x, items !! i = Some x → table_field 3 i (table_write items) = Ok x) as Hf
    by (intros i x; by apply (table_read_write items)).
  split_and!.
  - apply table_verify_write; [done..|]. rw /items.
    apply Forall2_cons; split; [done|]. repeat constructor; apply fixvec_verify_write, Hd; rw /items; set_solver.
  - by rw /identity_version (Hf 0%nat _ eq_refl).
  - rw /identity_secio_pubkey /field_data (Hf 1%nat _ eq_refl). apply fixvec_read_write.
  - rw /identity_binding_sig /field_data (Hf 2%nat _ eq_refl). apply fixvec_read_write.
Qed.

(** *** The loop over the extensions *)

Lemma identity_payloads_cons ext exts :
  identity_payloads (ext :: exts) =
  if bool_decide (ext_oid ext = Some TENTACLE_QUIC_IDENT_OID)
  then ext_value ext :: identity_payloads exts else identity_payloads exts.
Proof. rw /identity_payloads filter_cons. case_bool_decide; [by rw decide_True|by rw decide_False]. Qed.

Lemma find_identity_again exts p :
  find_identity exts (Some p) =
  if bool_decide (identity_payloads exts = []) then Ok (Some p) else Err MultipleIdentityFound.
Proof.
  induction exts as [|ext exts IH]; [done|]. cbn [find_identity]. rw identity_payloads_cons IH.
  case: (bool_decide_reflect (ext_oid ext = _)) => _; [|done]. by rw bool_decide_eq_false_2.
Qed.

Lemma find_identity_first exts :
  find_identity exts None =
  match identity_payloads exts with
  | [] => Ok None
  | p :: ps =>
      _ ← res_map_err (λ _, CertificateError) (identity_reader_verify p true);
      if bool_decide (ps = []) then Ok (Some p) else Err MultipleIdentityFound
  end.
Proof.
  induction exts as [|ext exts IH]; [done|]. cbn [find_identity]. rw identity_payloads_cons IH.
  case: (bool_decide_reflect (ext_oid ext = _)) => _; [|done]. by rw find_identity_again.
Qed.

(** What [extract_identity] returns, in each case of the payloads that the
    certificate holds under the identity's identifier. *)
Lemma extract_identity_cases leaf_der :
  extract_identity leaf_der =
  match parse_x509_certificate leaf_der with
  | None => Err CertificateError
  | Some (_, cert) =>
      match identity_payloads (extensions cert) with
      | [] => Err ExtensionNotFound
      | p :: ps =>
          match identity_reader_verify p true with
          | Ok _ =>
              if bool_decide (ps = []) then
                match identity_version p with
                | Ok v => if v =? IDENTITY_VERSION then Ok p else Err (IdentityVersionUnsupported v)
                | _ => Panic
                end
              else Err MultipleIdentityFound
          | Err _ => Err CertificateError
          | Panic => Panic
          end
      end
  end.
Proof.
  rw /extract_identity. destruct (parse_x509_certificate leaf_der) as [[rest cert]|]; [|done].
  cbn [res_ok_or mbind Res_bind snd]. rw find_identity_first. destruct (identity_payloads _) as [|p ps]; [done|].
  destruct (identity_reader_verify p true); [|done..]. cbn [res_map_err mbind Res_bind].
  case_bool_decide; [|done]. cbn [mbind Res_bind]. destruct (identity_version p); [|done..]. simpl. by destruct (_ =? _).
Qed.

Lemma extract_identity_Ok leaf_der payload :
  extract_identity leaf_der = Ok payload ↔
  ∃ rest cert pk sig, parse_x509_certificate leaf_der = Some (rest, cert) ∧
    identity_payloads (extensions cert) = [payload] ∧ decodes_to payload IDENTITY_VERSION pk sig.
Proof.
  rw extract_identity_cases. split.
  - destruct (parse_x509_certificate leaf_der) as [[rest cert]|]; [|done].
    destruct (identity_payloads _) as [|p ps] eqn:Hp; [done|].
    destruct (identity_reader_verify p true) as [[]|?|] eqn:Hv; [|done..]. case_bool_decide as Hps; [|done].
    destruct (identity_verified _ _ Hv) as (v & pk & sig & H1 & H2 & H3). rw H1.
    destruct (Z.eqb_spec v IDENTITY_VERSION) as [->|]; [|done]. intros [= <-]. subst ps. by exists rest, cert, pk, sig.
  - intros (rest & cert & pk & sig & -> & -> & -> & -> & _). done.
Qed.

Lemma extract_identity_no_panic leaf_der : extract_identity leaf_der ≠ Panic.
Proof.
  rw extract_identity_cases. destruct (parse_x509_certificate leaf_der) as [[rest cert]|]; [|done].
  destruct (identity_payloads _) as [|p ps]; [done|]. pose proof (identity_no_panic p true).
  destruct (identity_reader_verify p true) as [[]|?|] eqn:Hv; [|done..].
  destruct (identity_verified _ _ Hv) as (v & pk & sig & -> & _). case_bool_decide; [|done]. by destruct (_ =? _).
Qed.

Context (sha256 : bytes → bytes) {K : Type} {KP : KeyProvider K} {AC : AddrCodecs}.

Lemma as_i64_small n : n < 2 ^ 63 → as_i64 n = n.
Proof. rw /as_i64. by case: Z.ltb_spec; [|lia]. Qed.

(** The checks after the identity was extracted. *)
Lemma verify_after_extract (lk : K) leaf now expected rest cert payload pk sig :
  parse_x509_certificate leaf = Some (rest, cert) → extract_identity leaf = Ok payload →
  identity_secio_pubkey payload = Ok pk → identity_binding_sig payload = Ok sig → now < 2 ^ 63 →
  cert_not_before cert ≤ now ≤ cert_not_after cert →
  verify_tentacle_cert sha256 lk leaf [] now expected =
  if verify_ecdsa lk pk (sha256 (BINDING_DOMAIN ++ spki_raw cert)) sig then
    match expected with
    | Some p => if bool_decide (p = from_public_key sha256 (mkPublicKey pk)) then Ok ()
                else Err (UnexpectedPeerId p (from_public_key sha256 (mkPublicKey pk)))
    | None => Ok ()
    end
  else Err (BindingInvalid SigningError).
Proof.
  intros Hp He Hk Hs Hn [H1 H2]. rw /verify_tentacle_cert /= Hp. cbn [res_ok_or mbind Res_bind snd]. rw as_i64_small //.
  rewrite -> (proj2 (Z.ltb_ge _ _)) by done. rewrite -> (proj2 (Z.ltb_ge _ _)) by done. cbn [orb].
  rw He. cbn [res_map_err mbind Res_bind]. rw Hk Hs /verify_binding. cbn [access mbind Res_bind key].
  destruct (verify_ecdsa _ _ _ _); [|done]. cbn [res_map_err mbind Res_bind]. destruct expected; [|done].
  by case_bool_decide.
Qed.

Lemma verify_outside (lk : K) leaf now expected rest cert :
  parse_x509_certificate leaf = Some (rest, cert) → now < 2 ^ 63 →
  ¬ (cert_not_before cert ≤ now ≤ cert_not_after cert) →
  verify_tentacle_cert sha256 lk leaf [] now expected = Err OutsideValidity.
Proof.
  intros Hp Hn Hv. rw /verify_tentacle_cert /= Hp. cbn [res_ok_or mbind Res_bind snd]. rw as_i64_small //.
  case: Z.ltb_spec => ?; [done|]. case: Z.ltb_spec => ?; [done|]. lia.
Qed.

Lemma verify_tentacle_cert_iff (lk : K) leaf inter now expected :
  0 ≤ now < 2 ^ 63 →
  (verify_tentacle_cert sha256 lk leaf inter now expected = Ok () ↔ acceptable sha256 lk leaf inter now expected) ∧
  verify_tentacle_cert sha256 lk leaf inter now expected ≠ Panic.
Proof.
  intros Hn. rw /acceptable. destruct inter as [|i inter]; last first.
  { rw /verify_tentacle_cert /=. split; [split; [done|by intros []]|done]. }
  destruct (parse_x509_certificate leaf) as [[rest cert]|] eqn:Hp; last first.
  { rw /verify_tentacle_cert /= Hp /=. split; [split; [done|naive_solver]|done]. }
  destruct (decide (cert_not_before cert ≤ now ≤ cert_not_after cert)) as [Ht|Ht]; last first.
  { rw (verify_outside lk leaf now expected rest cert Hp) //; [|lia]. split; [split; [done|naive_solver]|done]. }
  pose proof (extract_identity_Ok leaf) as HOk. pose proof (extract_identity_no_panic leaf) as Hnp.
  destruct (extract_identity leaf) as [payload|e|] eqn:He; [|clear Hnp|done].
  - destruct (proj1 (HOk payload) eq_refl) as (? & ? & pk & sig & Hp' & Hps & (Hv & Hver & Hk & Hs)).
    rw Hp in Hp'. injection Hp' as <- <-.
    rw (verify_after_extract lk leaf now expected rest cert payload pk sig) //; [|lia].
    destruct (verify_ecdsa lk pk _ sig) eqn:Hsv; last first.
    { split; [split; [done|]|done]. intros (_ & ? & ? & payload' & pk' & sig' & Hp' & _ & Hps' & (_ & _ & Hk' & Hs') & Hsv' & _).
      simplify_eq. congruence. }
    destruct expected as [p|]; [case_bool_decide as Hpe|]; split; try done; split; intros Hacc; try done.
    + split; [done|]. exists rest, cert, payload, pk, sig. do 5 (split; [done|]). by intros ? [= <-].
    + destruct Hacc as (_ & ? & ? & payload' & pk' & sig' & Hp' & _ & Hps' & (_ & _ & Hk' & Hs') & _ & Hexp).
      simplify_eq. assert (pk' = pk) as -> by congruence. by destruct Hpe; apply Hexp.
    + split; [done|]. exists rest, cert, payload, pk, sig. by do 5 (split; [done|]).
  - split; [split|].
    + rw /verify_tentacle_cert /= Hp /= as_i64_small; [|lia]. rewrite -> !(proj2 (Z.ltb_ge _ _)) by lia. by rw He.
    + intros (_ & ? & ? & payload & pk & sig & Hp' & _ & Hps & Hdec & _).
      pose proof (proj2 (HOk payload)) as H. injection Hp' as <- <-. discriminate H. by exists rest, cert, pk, sig.
    + rw /verify_tentacle_cert /= Hp /= as_i64_small; [|lia]. rewrite -> !(proj2 (Z.ltb_ge _ _)) by lia. by rw He.
Qed.

(** C16. The verifiers accept exactly the certificates that the module's
    documentation describes - a single leaf, valid now, with exactly one
    identity extension, which decodes with version 1 and whose signature binds
    the secio key to the certificate's TLS key, and for a client that pinned a
    peer the key of that peer - and they never panic, whatever the peer
    presents. *)
Theorem quic_verifiers_accept_iff (sv : TentacleQuicServerCertVerifier) (cv : TentacleQuicClientCertVerifier)
    (end_entity : bytes) (intermediates : list bytes) (now : Z) :
  0 ≤ now < 2 ^ 63 →
  (verify_server_cert sha256 sv end_entity intermediates now = Ok () ↔
     acceptable sha256 (sv_local_key sv) end_entity intermediates now (sv_expected_peer_id sv)) ∧
  (verify_client_cert sha256 cv end_entity intermediates now = Ok () ↔
     acceptable sha256 (cv_local_key cv) end_entity intermediates now None) ∧
  verify_server_cert sha256 sv end_entity intermediates now ≠ Panic ∧
  verify_client_cert sha256 cv end_entity intermediates now ≠ Panic.
Proof.
  intros Hn. rw /verify_server_cert /verify_client_cert.
  destruct (verify_tentacle_cert_iff (sv_local_key sv) end_entity intermediates now (sv_expected_peer_id sv) Hn).
  destruct (verify_tentacle_cert_iff (cv_local_key cv) end_entity intermediates now None Hn). done.
Qed.

(** *** Certificates of our own *)

Context {KL : KeyProviderLaws K} {XL : X509Laws}.

(** What [build_self_signed] puts into a certificate. *)
Lemma build_self_signed_parses (k : K) seed cert :
  build_self_signed sha256 k seed = Ok cert →
  ∃ rest c sig, parse_x509_certificate (cert_der cert) = Some (rest, c) ∧
    sign_ecdsa k (sha256 (BINDING_DOMAIN ++ spki_raw c)) = Ok sig ∧
    identity_payloads (extensions c) = [encode_identity_payload (pubkey k) sig] ∧
    cert_not_before c = 157766400 ∧ cert_not_after c = 67090118400.
Proof.
  rw /build_self_signed. destruct (generate_for_ed25519 seed) as [kp|]; [|done]. cbn [res_ok_or mbind Res_bind].
  destruct (sign_ecdsa k _) as [sig|?|] eqn:Hsig; [|done..]. cbn [res_map_err mbind Res_bind].
  destruct (params_new _) as [p|] eqn:Hp; [|done]. cbn [res_ok_or mbind Res_bind].
  destruct (self_signed _ kp) as [der|] eqn:Hd; [|done]. cbn [res_ok_or mbind Res_bind]. intros [= <-].
  apply params_new_default in Hp as (Hce & Hnb & Hna).
  apply self_signed_parses in Hd as (rest & c & Hpc & Hspki & Hb & Ha & Hexts). cbn [custom_extensions not_before not_after] in *.
  exists rest, c, sig. split_and!; [done|by rw Hspki| |congruence..].
  by rw /identity_payloads Hexts // Hce.
Qed.

(** C18. A certificate that [build_self_signed] makes for a key is accepted by every
    peer, whichever key the peer has itself, from 1975 to 4096; a client that
    pinned a peer accepts it exactly when it pinned the id of that key, and
    otherwise reports the id it found. *)
Theorem quic_own_certificate_accepted (k lk : K) (seed : TlsSeed) (cert : TentacleQuicCert) (now : Z)
    (expected : option PeerId) :
  build_self_signed sha256 k seed = Ok cert →
  (∀ m sig, sign_ecdsa k m = Ok sig → length (encode_identity_payload (pubkey k) sig) < 2 ^ 32) →
  157766400 ≤ now ≤ 67090118400 →
  let own := from_public_key sha256 (mkPublicKey (pubkey k)) in
  verify_client_cert sha256 (mkClientVerifier lk) (cert_der cert) [] now = Ok () ∧
  verify_server_cert sha256 (mkServerVerifier expected lk) (cert_der cert) [] now =
    match expected with
    | Some p => if bool_decide (p = own) then Ok () else Err (UnexpectedPeerId p own)
    | None => Ok ()
    end.
Proof.
  intros (rest & c & sig & Hp & Hs & Hps & Hb & Ha)%build_self_signed_parses Hfit Hn own.
  pose proof (identity_payload_roundtrip (pubkey k) sig (Hfit _ _ Hs)) as Hdec.
  assert (extract_identity (cert_der cert) = Ok (encode_identity_payload (pubkey k) sig)) as He
    by (apply extract_identity_Ok; by exists rest, c, (pubkey k), sig).
  destruct Hdec as (_ & _ & Hk & Hsig). rw /verify_server_cert /verify_client_cert.
  rewrite -> !(verify_after_extract lk _ now _ rest c _ _ _ Hp He Hk Hsig) by lia.
  by rw (verify_sign k lk _ _ Hs).
Qed.
End facts.

(** ** A concrete certificate *)

(** Certificates in a toy format: the length of the key, the key, and the
    payload of the only extension. *)
#[local] Instance DemoX509 : X509 := {|
  parse_x509_certificate der :=
    match der with
    | [] => None
    | n :: der =>
        let k := Z.to_nat (byte_Z n) in
        Some ([], mkCert
          [mkExt (Some [2; 5; 29; 17]) (str "tentacle.invalid");
           mkExt (Some TENTACLE_QUIC_IDENT_OID) (drop k der)] 157766400 67090118400 (take k der))
    end;
  TlsKeyPair := byte;
  TlsSeed := byte;
  generate_for_ed25519 s := Some s;
  public_key_der k := [k];
  serialize_der k := [k];
  params_new _ := Some (mkParams [] [] 157766400 67090118400);
  self_signed p k :=
    match p with
    | mkParams _ [(oid, payload)] nb na =>
        if bool_decide (oid = TENTACLE_QUIC_IDENT_OID ∧ nb = 157766400 ∧ na = 67090118400)
        then Some (Z_byte 1 :: k :: payload) else None
    | _ => None
    end;
|}.

#[local] Instance DemoX509Laws : X509Laws.
Proof.
  split; [by intros sans p [= <-]|]. intros [dn [|[oid payload] [|? ?]] nb na] k der; [done| |done].
  cbn [self_signed DemoX509]. case_bool_decide as H; [|done]. destruct H as (-> & -> & ->). intros [= <-].
  eexists _, _. split; [done|]. split_and!; [done..|]. intros oid Hoid. cbn [extensions custom_extensions drop].
  rw !filter_cons !filter_nil. cbn [ext_oid fst].
  rewrite -> (decide_False (P := Some [2; 5; 29; 17] = Some oid)) by (intros [= <-]; by apply Hoid).
  destruct (decide (TENTACLE_QUIC_IDENT_OID = oid)) as [<-|Hne].
  - by rewrite -> !decide_True by done.
  - rewrite -> !decide_False by congruence. done.
Qed.

#[local] Instance DemoQuicKey : KeyProvider bytes := {|
  sign_ecdsa k m := Ok (k ++ take 8 m);
  pubkey k := k;
  verify_ecdsa _ pk m s := bool_decide (s = pk ++ take 8 m);
|}.
#[local] Instance DemoQuicKeyLaws : KeyProviderLaws bytes.
Proof. split. intros k k' m s [= <-]. by apply bool_decide_eq_true. Qed.

Definition demo_seed : @TlsSeed DemoX509 := Z_byte 7.
Definition demo_quic_cert : bytes :=
  match build_self_signed demo_hash (str "alice") demo_seed with Ok c => cert_der c | _ => [] end.
Definition demo_quic_id (name : bytes) : PeerId := from_public_key demo_hash (mkPublicKey name).

Lemma quic_own_certificate_accepted_witness :
  verify_server_cert demo_hash (mkServerVerifier (Some (demo_quic_id (str "mallory"))) (str "bob"))
    demo_quic_cert [] 1700000000 = Err (UnexpectedPeerId (demo_quic_id (str "mallory")) (demo_quic_id (str "alice"))).
Proof.
  destruct (quic_own_certificate_accepted demo_hash (str "alice") (str "bob") demo_seed
    (mkQuicCert demo_quic_cert [Z_byte 7]) 1700000000 (Some (demo_quic_id (str "mallory")))) as [_ H].
  - vm_compute. reflexivity.
  - intros m sig [= <-]. pose proof (length_take m 8).
    rw identity_payload_length. cbn [length pubkey DemoQuicKey str]. simpl. lia.
  - lia.
  - exact H.
Defined.

Lemma quic_verifiers_accept_iff_witness :
  acceptable demo_hash (str "bob") demo_quic_cert [] 1700000000 (Some (demo_quic_id (str "alice"))).
Proof.
  apply (quic_verifiers_accept_iff demo_hash (mkServerVerifier (Some (demo_quic_id (str "alice"))) (str "bob"))
    (mkClientVerifier (str "bob")) demo_quic_cert [] 1700000000); [lia|].
  vm_compute. reflexivity.
Defined.
