(* ===== verification/WsStream.v ===== *)
(** * WebSocket streams

    [transports/ws.rs]: [WsStream], which makes a stream of bytes of the
    messages of a WebSocket. The WebSocket (tokio-tungstenite's
    [WebSocketStream]) is a parameter: a class of poll functions with what the
    code relies on. Dialing is in [TcpDial]. *)
From S2P Require Import Prelude Text.

(** [tungstenite::Message]; the text and the raw frame are never looked at. *)
Inductive Message :=
| MText (text : bytes)
| MBinary (data : bytes)
| MPing (data : bytes)
| MPong (data : bytes)
| MClose
| MFrame (frame : bytes).

Class WebSocket (W : Type) := {
  ws_poll_next : W → Poll (option (Message + unit)) * W;
  ws_poll_ready : W → Poll (unit + unit) * W;
  ws_start_send : Message → W → (unit + unit) * W;
  ws_poll_flush : W → Poll (unit + unit) * W;
  ws_poll_close : W → Poll (unit + unit) * W;
  (** The messages the peer sent that are not yet delivered, those accepted for
      sending, and whether the reading task will be woken up. *)
  ws_incoming : W → list Message;
  ws_sent : W → list Message;
  ws_waits : W → bool;
}.

(** Messages are delivered and sent in order, and a [Pending] of [poll_next] has
    registered the task (the contract of [Stream]). *)
Class WebSocketLaws (W : Type) `{WebSocket W} : Prop := {
  ws_next_message w m w' :
    ws_poll_next w = (Ready (Some (inl m)), w') → ws_incoming w = m :: ws_incoming w' ∧ ws_sent w' = ws_sent w;
  ws_next_other w p w' :
    ws_poll_next w = (p, w') → (∀ m, p ≠ Ready (Some (inl m))) →
    ws_incoming w' = ws_incoming w ∧ ws_sent w' = ws_sent w;
  ws_next_pending w w' : ws_poll_next w = (Pending, w') → ws_waits w' = true;
  ws_ready_same w : ws_incoming (ws_poll_ready w).2 = ws_incoming w ∧ ws_sent (ws_poll_ready w).2 = ws_sent w;
  ws_flush_same w : ws_incoming (ws_poll_flush w).2 = ws_incoming w ∧ ws_sent (ws_poll_flush w).2 = ws_sent w;
  ws_close_same w : ws_incoming (ws_poll_close w).2 = ws_incoming w ∧ ws_sent (ws_poll_close w).2 = ws_sent w;
  ws_send_message m w w' :
    ws_start_send m w = (inl (), w') → ws_sent w' = ws_sent w ++ [m] ∧ ws_incoming w' = ws_incoming w;
  ws_send_fail m w w' :
    ws_start_send m w = (inr (), w') → ws_sent w' = ws_sent w ∧ ws_incoming w' = ws_incoming w;
}.

Record WsStream (W : Type) := mkWs {
  ws_inner : W;
  ws_recv_buf : bytes;
  pending_ping : option bytes;
  already_send_close : bool;
}.
Arguments mkWs {W}.
Arguments ws_inner {W}.
Arguments ws_recv_buf {W}.
Arguments pending_ping {W}.
Arguments already_send_close {W}.

Section stream.
Context {W : Type} `{!WebSocket W}.
Abbreviation St := (WsStream W).

Definition ws_new (inner : W) : St := mkWs inner [] None false.

Definition set_inner (w : W) (st : St) : St := mkWs w (ws_recv_buf st) (pending_ping st) (already_send_close st).
Definition set_ws_buf (b : bytes) (st : St) : St := mkWs (ws_inner st) b (pending_ping st) (already_send_close st).
Definition set_ping (p : option bytes) (st : St) : St := mkWs (ws_inner st) (ws_recv_buf st) p (already_send_close st).
Definition set_closed (st : St) : St := mkWs (ws_inner st) (ws_recv_buf st) (pending_ping st) true.

(** An operation of the WebSocket. *)
Definition on_ws {E A} (f : W → A * W) : M St E A := λ st,
  let '(a, w) := f (ws_inner st) in (Ok a, set_inner w st).

(** [start_send(m)?], then [let _ignore = poll_flush(cx)?], which only reports
    errors. *)
Definition send_and_flush (m : Message) : M St io.ErrorKind unit :=
  r ← on_ws (ws_start_send m);
  match r with
  | inr _ => throw io.BrokenPipe
  | inl _ =>
      q ← on_ws ws_poll_flush;
      match q with Ready (inr _) => throw io.BrokenPipe | _ => mret () end
  end.

Definition respond_ping : M St io.ErrorKind unit :=
  closed ← gets already_send_close;
  if (closed : bool) then mret ()
  else
    ping ← gets pending_ping;
    match ping with
    | Some data =>
        modify (set_ping None);;
        p ← on_ws ws_poll_ready;
        match p with
        | Ready (inl _) => send_and_flush (MPong data)
        | Pending => modify (set_ping (Some data))
        | Ready (inr _) => throw io.BrokenPipe
        end
    | None => mret ()
    end.

(** [drain] into a buffer with room for [remaining] bytes: what it copied. *)
Definition ws_drain (remaining : nat) : M St io.ErrorKind bytes :=
  b ← gets ws_recv_buf;
  if bool_decide (b = []) then mret []
  else
    let n := Nat.min remaining (length b) in
    modify (set_ws_buf (drop n b));;
    mret (take n b).

(** [poll_read]: the bytes it put into the buffer. *)
Definition ws_poll_read (remaining : nat) : M St io.ErrorKind (Poll bytes) :=
  respond_ping;;
  copied ← ws_drain remaining;
  if bool_decide (0 < length copied)%nat then mret (Ready copied)
  else
    p ← on_ws ws_poll_next;
    match p with
    | Ready (Some (inl t)) =>
        data ← match t with
               | MBinary data => mret data
               | MClose => throw io.BrokenPipe
               | MPing data => modify (set_ping (Some data));; respond_ping;; mret []
               | MPong _ => mret []
               | MText _ => mret []
               | MFrame _ => mret []
               end;
        if bool_decide (data = []) then mret Pending
        else if bool_decide (length data ≤ remaining)%nat then mret (Ready data)
        else
          modify (set_ws_buf data);;
          copied ← ws_drain remaining;
          mret (Ready copied)
    | Ready (Some (inr _)) => throw io.BrokenPipe
    | Ready None => throw io.BrokenPipe
    | Pending => mret Pending
    end.

Definition ws_poll_write (buf : bytes) : M St io.ErrorKind (Poll nat) :=
  closed ← gets already_send_close;
  if (closed : bool) then throw io.BrokenPipe
  else
    respond_ping;;
    p ← on_ws ws_poll_ready;
    match p with
    | Ready (inl _) => send_and_flush (MBinary buf);; mret (Ready (length buf))
    | Pending => mret Pending
    | Ready (inr _) => throw io.BrokenPipe
    end.

Definition ws_forward (p : Poll (unit + unit)) : M St io.ErrorKind (Poll unit) :=
  match p with
  | Ready (inl _) => mret (Ready ())
  | Ready (inr _) => throw io.BrokenPipe
  | Pending => mret Pending
  end.

Definition ws_stream_flush : M St io.ErrorKind (Poll unit) :=
  p ← on_ws ws_poll_flush;
  ws_forward p.

Definition ws_stream_shutdown : M St io.ErrorKind (Poll unit) :=
  closed ← gets already_send_close;
  if (closed : bool) then p ← on_ws ws_poll_close; ws_forward p
  else
    p ← on_ws ws_poll_ready;
    match p with
    | Ready (inl _) =>
        send_and_flush MClose;;
        modify set_closed;;
        p ← on_ws ws_poll_close;
        ws_forward p
    | Pending => mret Pending
    | Ready (inr _) => throw io.BrokenPipe
    end.

(** ** Calls of the stream's owner *)

Inductive WsCall := WcRead (remaining : nat) | WcWrite (buf : bytes) | WcFlush | WcShutdown.

(** What a sequence of calls read and wrote; a failed write may still have put its
    bytes into the sink, so the run ends with the first error. *)
Fixpoint ws_run (calls : list WsCall) : M St io.ErrorKind (bytes * list bytes) :=
  match calls with
  | [] => mret ([], [])
  | WcRead n :: calls =>
      p ← ws_poll_read n;
      rest ← ws_run calls;
      mret (match p with Ready b => b ++ rest.1 | Pending => rest.1 end, rest.2)
  | WcWrite buf :: calls =>
      p ← ws_poll_write buf;
      rest ← ws_run calls;
      mret (rest.1, match p with Ready _ => buf :: rest.2 | Pending => rest.2 end)
  | WcFlush :: calls => ws_stream_flush;; ws_run calls
  | WcShutdown :: calls => ws_stream_shutdown;; ws_run calls
  end.

(** The bytes a message carries to the reader. *)
Definition msg_data (m : Message) : bytes := match m with MBinary data => data | _ => [] end.
(** The bytes that were not yet read, and the writes that were sent. *)
Definition ws_unread (st : St) : bytes := ws_recv_buf st ++ concat (msg_data <$> ws_incoming (ws_inner st)).
Definition is_binary (m : Message) : bool := match m with MBinary _ => true | _ => false end.
Definition ws_written (st : St) : list bytes := msg_data <$> filter (λ m, is_binary m = true) (ws_sent (ws_inner st)).
End stream.

(** ** Facts *)

Section facts.
Context {W : Type} {WS : WebSocket W} {WL : WebSocketLaws W}.
Implicit Types st : WsStream W.

(** What a call leaves as it is, apart from the WebSocket's own state. *)
Definition unmoved st st' : Prop :=
  ws_recv_buf st' = ws_recv_buf st ∧ ws_incoming (ws_inner st') = ws_incoming (ws_inner st) ∧
  ws_written st' = ws_written st ∧ already_send_close st' = already_send_close st.

Lemma unmoved_refl st : unmoved st st.
Proof. done. Qed.

Lemma unmoved_trans st1 st2 st3 : unmoved st1 st2 → unmoved st2 st3 → unmoved st1 st3.
Proof. rw /unmoved. intros (-> & -> & -> & ->) (-> & -> & -> & ->). done. Qed.

Lemma unmoved_unread st st' : unmoved st st' → ws_unread st' = ws_unread st.
Proof. rw /unmoved /ws_unread. by intros (-> & -> & _). Qed.

Lemma wp_on_ws {A} (f : W → A * W) Q st :
  Q (Ok (f (ws_inner st)).1) (set_inner (f (ws_inner st)).2 st) → wp (on_ws (E:=io.ErrorKind) f) Q st.
Proof. rw /wp /on_ws. by destruct (f (ws_inner st)). Qed.

Lemma ws_ready_unmoved st : unmoved st (set_inner (ws_poll_ready (ws_inner st)).2 st).
Proof. destruct (ws_ready_same (ws_inner st)) as [H1 H2]. by rw /unmoved /ws_written /= H1 H2. Qed.

Lemma ws_flush_unmoved st : unmoved st (set_inner (ws_poll_flush (ws_inner st)).2 st).
Proof. destruct (ws_flush_same (ws_inner st)) as [H1 H2]. by rw /unmoved /ws_written /= H1 H2. Qed.

Lemma ws_close_unmoved st : unmoved st (set_inner (ws_poll_close (ws_inner st)).2 st).
Proof. destruct (ws_close_same (ws_inner st)) as [H1 H2]. by rw /unmoved /ws_written /= H1 H2. Qed.

(** A control message does not count as written. *)
Lemma send_control_unmoved m st :
  is_binary m = false → unmoved st (set_inner (ws_start_send m (ws_inner st)).2 st).
Proof.
  intros Hm. rw /unmoved /ws_written /=. destruct (ws_start_send m (ws_inner st)) as [[[]|[]] w] eqn:E; simpl.
  - apply ws_send_message in E as [-> ->]. rw filter_app filter_cons Hm. rewrite -> decide_False by done.
    by rw filter_nil app_nil_r.
  - by apply ws_send_fail in E as [-> ->].
Qed.

(** A call without a result for the owner: it moves nothing, whatever it returns, and
    its only error is [BrokenPipe]. *)
Definition stays {A} st : Res io.ErrorKind A → WsStream W → Prop :=
  post (λ _ st', unmoved st st') (λ e st', e = io.BrokenPipe ∧ unmoved st st').

Lemma stays_after {A} (m : M (WsStream W) io.ErrorKind A) st st1 :
  unmoved st st1 → wp m (stays st1) st1 → wp m (stays st) st1.
Proof. intros H Hm. eapply wp_mono; [exact Hm|]. intros [] ?; [by apply unmoved_trans|intros [-> ?]|done].
  split; [done|]. by eapply unmoved_trans.
Qed.

Lemma send_and_flush_control m st : is_binary m = false → wp (send_and_flush m) (stays st) st.
Proof.
  intros Hm. pose proof (send_control_unmoved m st Hm) as Hs. rw /send_and_flush. wp_step. apply wp_on_ws.
  apply stays_after; [exact Hs|]. destruct (ws_start_send m (ws_inner st)) as [[|] w]; simpl in *; [|by wp_steps].
  wp_step. apply wp_on_ws. apply stays_after; [apply (ws_flush_unmoved (set_inner w st))|].
  destruct (ws_poll_flush _) as [[[|]|] w2]; by wp_steps.
Qed.

Lemma respond_ping_stays st : wp respond_ping (stays st) st.
Proof.
  rw /respond_ping. wp_steps; try done. apply wp_on_ws.
  apply stays_after; [apply (ws_ready_unmoved (set_ping None st))|].
  destruct (ws_poll_ready _) as [[[|]|] w]; simpl; [by apply send_and_flush_control|by wp_steps..].
Qed.

(** *** Reading *)

Lemma ws_drain_spec n st :
  wp (ws_drain n) (post (λ b st',
      ws_recv_buf st = b ++ ws_recv_buf st' ∧ (b = [] → (0 < n)%nat → ws_recv_buf st' = []) ∧ (length b ≤ n)%nat ∧
      ws_inner st' = ws_inner st ∧ already_send_close st' = already_send_close st) (λ _ _, False)) st.
Proof.
  rw /ws_drain. wp_steps; [apply bool_decide_eq_true in Heqb|apply bool_decide_eq_false in Heqb].
  - rw /post. cbn [length app]. split_and!; [done|by intros|lia|done|done].
  - rw /post. cbn [ws_recv_buf set_ws_buf ws_inner already_send_close]. rw take_drop length_take. split_and!; [done| |lia|done|done].
    intros H Hn%Nat.lt_nge. exfalso. destruct (ws_recv_buf st) as [|x b]; [done|]. destruct n; [lia|done].
Qed.

(** What a read may return. *)
Definition read_post (n : nat) st (r : Res io.ErrorKind (Poll bytes)) st' : Prop :=
  ws_written st' = ws_written st ∧ already_send_close st' = already_send_close st ∧
  match r with
  | Ok (Ready b) => ws_unread st = b ++ ws_unread st' ∧ (0 < length b ≤ n)%nat
  | Ok Pending => ws_unread st = ws_unread st' ∧
      (ws_waits (ws_inner st') = true ∨
       ∃ m, ws_incoming (ws_inner st) = m :: ws_incoming (ws_inner st') ∧ msg_data m = [])
  | Err e => e = io.BrokenPipe ∧ ws_unread st = ws_unread st'
  | Panic => False
  end.

Lemma read_post_after n st st1 r st' : unmoved st st1 → read_post n st1 r st' → read_post n st r st'.
Proof.
  intros Hu. pose proof (unmoved_unread _ _ Hu) as Hr. destruct Hu as (_ & Hi & Hw & Hc).
  by rw /read_post Hr Hi Hw Hc.
Qed.

(** A message arrived while the buffer was empty. *)
Lemma ws_next_unread st m w :
  ws_poll_next (ws_inner st) = (Ready (Some (inl m)), w) → ws_recv_buf st = [] →
  ws_unread st = msg_data m ++ ws_unread (set_inner w st) ∧ ws_written (set_inner w st) = ws_written st ∧
  ws_incoming (ws_inner st) = m :: ws_incoming w.
Proof.
  intros [Hi Hs]%ws_next_message Hb. rw /ws_unread /ws_written /= Hb Hi Hs /=. done.
Qed.

(** What the read does with the data of a message. *)
Lemma read_data n data st0 st :
  (0 < n)%nat → ws_recv_buf st = [] → ws_unread st0 = data ++ ws_unread st → ws_written st = ws_written st0 →
  already_send_close st = already_send_close st0 →
  (data = [] → ∃ m, ws_incoming (ws_inner st0) = m :: ws_incoming (ws_inner st) ∧ msg_data m = []) →
  wp (if bool_decide (data = []) then mret Pending
      else if bool_decide (length data ≤ n)%nat then mret (Ready data)
      else modify (set_ws_buf data);; copied ← ws_drain n; mret (Ready copied)) (read_post n st0) st.
Proof.
  intros Hn Hb Hr Hw Hc Hm. case_bool_decide as Hd.
  { wp_step. subst data. split_and!; [done..|]. right. by apply Hm. }
  case_bool_decide as Hl.
  { wp_step. split_and!; [done..| |done]. destruct data; [done|simpl; lia]. }
  do 2 wp_step. wp_step. wp_apply ws_drain_spec. intros [b|e|] st1; [|done..].
  cbn [ws_recv_buf set_ws_buf ws_inner already_send_close]. intros (Hbb & He & Hle & Hi & Hc1). wp_step.
  rw /read_post /ws_written Hi Hr. cbn [ws_inner set_ws_buf]. split_and!; [done|congruence| | |done].
  - rw {1}Hbb /ws_unread Hi Hb. by rw -app_assoc.
  - destruct b; [|simpl; lia]. destruct Hd. by rw Hbb He.
Qed.

Lemma ws_poll_read_spec n st : (0 < n)%nat → wp (ws_poll_read n) (read_post n st) st.
Proof.
  intros Hn. rw /ws_poll_read. wp_step. wp_apply respond_ping_stays. intros [[]|e|] st1; [| |done]; last first.
  { intros [-> Hu]. apply (read_post_after _ _ _ _ _ Hu). done. }
  intros Hu. eapply wp_mono; [|intros r st'; apply (read_post_after _ _ _ _ _ Hu)]. clear st Hu. rename st1 into st.
  wp_step. wp_apply ws_drain_spec. intros [b|e|] st1; [|done..]. intros (Hb & He & Hl & Hi & Hc).
  case_bool_decide as Hlb.
  { wp_step. rw /read_post /ws_written /ws_unread Hi Hb app_assoc. done. }
  assert (b = []) as -> by (destruct b; [done|simpl in Hlb; lia]). specialize (He eq_refl Hn).
  assert (unmoved st st1) as Hu. { rw /unmoved /ws_written Hi Hc He. by rw Hb He. }
  eapply wp_mono; [|intros r st'; apply (read_post_after _ _ _ _ _ Hu)]. clear st Hb Hl Hi Hc Hlb Hu. rename st1 into st.
  wp_step. apply wp_on_ws. pose proof (ws_next_unread st) as Hnext. pose proof (ws_next_other (ws_inner st)) as Hother.
  pose proof (ws_next_pending (ws_inner st)) as Hpend. destruct (ws_poll_next (ws_inner st)) as [[[[m|]|]|] w]; cbn [fst snd].
  - clear Hother Hpend. destruct (Hnext m w eq_refl He) as (Hr & Hw & Hi). clear Hnext.
    assert (∀ data, data = msg_data m → data = [] →
      ∃ m', ws_incoming (ws_inner st) = m' :: ws_incoming (ws_inner (set_inner w st)) ∧ msg_data m' = []) as Hno
      by (intros data -> Hd; by exists m).
    destruct m as [t|data|data|data| |f]; simpl in Hr; wp_step.
    + wp_step. apply read_data; try done. by apply Hno.
    + wp_step. apply read_data; try done. by apply Hno.
    + do 2 wp_step. wp_step. wp_apply respond_ping_stays. intros [[]|e|] st2; [| |done].
      * intros Hu. wp_step. pose proof (unmoved_unread _ _ Hu) as Hr2. destruct Hu as (Hb2 & Hi2 & Hw2 & Hc2).
        apply read_data; [done|by rw Hb2|by rw Hr2|by rw Hw2|done|]. intros _. exists (MPing data). by rw Hi2.
      * intros [-> Hu]. pose proof (unmoved_unread _ _ Hu) as Hr2. destruct Hu as (Hb2 & Hi2 & Hw2 & Hc2).
        split_and!; [by rw Hw2|by rw Hc2|done|by rw Hr2].
    + wp_step. apply read_data; try done. by apply Hno.
    + wp_step. done.
    + wp_step. apply read_data; try done. by apply Hno.
  - destruct (Hother _ _ eq_refl ltac:(done)) as [H1 H2]. wp_step. by rw /read_post /ws_written /ws_unread /= H1 H2.
  - destruct (Hother _ _ eq_refl ltac:(done)) as [H1 H2]. wp_step. by rw /read_post /ws_written /ws_unread /= H1 H2.
  - destruct (Hother _ _ eq_refl ltac:(done)) as [H1 H2]. wp_step. rw /read_post /ws_written /ws_unread /= H1 H2.
    split_and!; [done..|]. left. by apply Hpend.
Qed.

(** *** Writing and closing *)

Lemma send_binary_spec buf st :
  wp (send_and_flush (MBinary buf)) (post
    (λ _ st', ws_unread st' = ws_unread st ∧ ws_written st' = ws_written st ++ [buf])
    (λ e st', e = io.BrokenPipe ∧ ws_unread st' = ws_unread st)) st.
Proof.
  rw /send_and_flush. wp_step. apply wp_on_ws. destruct (ws_start_send _ _) as [[[]|[]] w] eqn:E; simpl.
  - apply ws_send_message in E as [Hs Hi]. wp_step. apply wp_on_ws.
    assert (∀ st', unmoved (set_inner w st) st' →
      ws_unread st' = ws_unread st ∧ ws_written st' = ws_written st ++ [buf]) as Hu.
    { intros st' (H1 & H2 & H3 & _). rw /ws_unread H1 H2 H3 /ws_written /= Hi Hs filter_app fmap_app. done. }
    specialize (Hu _ (ws_flush_unmoved _)). destruct (ws_poll_flush _) as [[[|]|] w2]; simpl in *; wp_steps; [done| |done].
    by destruct Hu.
  - apply ws_send_fail in E as [Hs Hi]. wp_steps. by rw /post /ws_unread /= Hi.
Qed.

Lemma ws_poll_write_spec buf st :
  wp (ws_poll_write buf) (post
    (λ p st', ws_unread st' = ws_unread st ∧
      ws_written st' = ws_written st ++ match p with Ready _ => [buf] | Pending => [] end ∧
      (∀ k, p = Ready k → k = length buf))
    (λ e st', e = io.BrokenPipe ∧ ws_unread st' = ws_unread st)) st.
Proof.
  rw /ws_poll_write. do 2 wp_step. destruct (already_send_close st) eqn:Hc; [by wp_steps|].
  wp_step. wp_apply respond_ping_stays. intros [[]|e|] st1; [| |done]; last first.
  { intros [-> Hu]. by rw /post (unmoved_unread _ _ Hu). }
  intros Hu. wp_step. apply wp_on_ws. pose proof (unmoved_trans _ _ _ Hu (ws_ready_unmoved st1)) as Hu2. clear Hu.
  destruct (ws_poll_ready _) as [[[]|] w]; cbn [fst snd] in *; pose proof (unmoved_unread _ _ Hu2) as Hr;
    destruct Hu2 as (_ & _ & Hw & _).
  - wp_step. wp_apply send_binary_spec. intros [[]|e|] st2; [| |done]; rw /post Hr.
    + intros [H1 H2]. wp_step. split_and!; [done|congruence|]. by intros k [= <-].
    + by intros [-> ->].
  - by wp_step.
  - wp_step. rw /post Hr Hw app_nil_r. done.
Qed.

Lemma ws_forward_stays p st : wp (ws_forward p) (stays st) st.
Proof. destruct p as [[]|]; by wp_steps. Qed.

Lemma ws_flush_stays st : wp ws_stream_flush (stays st) st.
Proof.
  rw /ws_stream_flush. wp_step. apply wp_on_ws. apply stays_after; [apply ws_flush_unmoved|]. apply ws_forward_stays.
Qed.

Lemma ws_shutdown_spec st :
  wp ws_stream_shutdown (post
    (λ p st', ws_unread st' = ws_unread st ∧ ws_written st' = ws_written st ∧
      (p = Ready () → already_send_close st' = true))
    (λ e st', e = io.BrokenPipe ∧ ws_unread st' = ws_unread st)) st.
Proof.
  assert (∀ st1, ws_unread st1 = ws_unread st → ws_written st1 = ws_written st → already_send_close st1 = true →
    wp (p ← on_ws ws_poll_close; ws_forward p) (post
      (λ p st', ws_unread st' = ws_unread st ∧ ws_written st' = ws_written st ∧
        (p = Ready () → already_send_close st' = true))
      (λ e st', e = io.BrokenPipe ∧ ws_unread st' = ws_unread st)) st1) as Hclose.
  { intros st1 H1 H2 H3. wp_step. apply wp_on_ws. pose proof (ws_close_unmoved st1) as Hu.
    wp_apply ws_forward_stays. intros [p|e|] st2; [|intros [-> Hu2]|done]; rw /post -H1 -?H2.
    - intros Hu2. pose proof (unmoved_trans _ _ _ Hu Hu2) as Hu3. rw (unmoved_unread _ _ Hu3).
      destruct Hu3 as (_ & _ & -> & ->). done.
    - by rw (unmoved_unread _ _ (unmoved_trans _ _ _ Hu Hu2)). }
  rw /ws_stream_shutdown. do 2 wp_step. destruct (already_send_close st) eqn:Hc; [by apply Hclose|].
  wp_step. apply wp_on_ws. pose proof (ws_ready_unmoved st) as Hu.
  destruct (ws_poll_ready _) as [[[]|] w]; cbn [fst snd] in *.
  - wp_step. wp_apply (send_and_flush_control MClose); [done|]. intros [[]|e|] st2; [intros Hu2|intros [-> Hu2]|done];
      pose proof (unmoved_trans _ _ _ Hu Hu2) as Hu3; pose proof (unmoved_unread _ _ Hu3) as Hr; [|done].
    destruct Hu3 as (_ & _ & Hw & _). do 2 wp_step. by apply Hclose.
  - wp_step. by rw /post (unmoved_unread _ _ Hu).
  - wp_step. rw /post (unmoved_unread _ _ Hu). by destruct Hu as (_ & _ & -> & _).
Qed.

(** C26. The stream is a reliable byte stream over the WebSocket: over any sequence of
    calls in which reads have room, the bytes read, followed by those not yet read,
    are the bytes of the binary messages the peer sent, in their order, whatever
    control messages come between them; every write that was accepted is one binary
    message, in order. Nothing panics, and the only error is [BrokenPipe]. *)
Theorem ws_stream_delivers (calls : list WsCall) (w : W) :
  Forall (λ c, match c with WcRead n => (0 < n)%nat | _ => True end) calls →
  ws_sent w = [] →
  match ws_run calls (ws_new w) with
  | (Ok (read, wrote), st) =>
      concat (msg_data <$> ws_incoming w) = read ++ ws_unread st ∧ ws_written st = wrote
  | (Err e, _) => e = io.BrokenPipe
  | (Panic, _) => False
  end.
Proof.
  intros Hc Hs. enough (∀ st, wp (ws_run calls) (post
    (λ x st', ws_unread st = x.1 ++ ws_unread st' ∧ ws_written st' = ws_written st ++ x.2)
    (λ e _, e = io.BrokenPipe)) st) as H.
  { specialize (H (ws_new w)). rw /wp in H. destruct (ws_run calls (ws_new w)) as [[[read wrote]| |] st]; try done.
    destruct H as [H1 H2]. split; [exact H1|]. rw H2 /ws_written /= Hs. done. }
  clear w Hs. induction Hc as [|[n|buf| |] calls Hn _ IH]; intros st; cbn [ws_run].
  - wp_step. by rw /post app_nil_r.
  - wp_step. wp_apply (ws_poll_read_spec n st Hn). intros [p|e|] st1 (Hw & _ & Hp); [|by destruct Hp|done].
    wp_step. wp_apply IH. intros [[rd wr]|e|] st2; [|done..]. intros [H1 H2]. wp_step. simpl in *. rw -Hw H2.
    destruct p as [b|]; destruct Hp as [-> _]; rw H1; [by rw app_assoc|done].
  - wp_step. wp_apply ws_poll_write_spec. intros [p|e|] st1; [intros (Hr & Hw & _)|by intros [-> _]|done].
    wp_step. wp_apply IH. intros [[rd wr]|e|] st2; [|done..]. intros [H1 H2]. wp_step. simpl in *. rw -Hr H2 Hw -app_assoc.
    by destruct p.
  - wp_step. wp_apply ws_flush_stays. intros [p|e|] st1; [intros Hu|by intros [-> _]|done].
    rw -(unmoved_unread _ _ Hu). destruct Hu as (_ & _ & <- & _). apply IH.
  - wp_step. wp_apply ws_shutdown_spec. intros [p|e|] st1; [intros (<- & <- & _)|by intros [-> _]|done]. apply IH.
Qed.
End facts.

(** ** A WebSocket that delivers a list of messages *)

Record QueueWs := mkQueueWs { qw_in : list Message; qw_out : list Message; qw_waits : bool }.

#[global] Instance QueueWebSocket : WebSocket QueueWs := {|
  ws_poll_next w :=
    match qw_in w with
    | m :: ms => (Ready (Some (inl m)), mkQueueWs ms (qw_out w) (qw_waits w))
    | [] => (Pending, mkQueueWs [] (qw_out w) true)
    end;
  ws_poll_ready w := (Ready (inl ()), w);
  ws_start_send m w := (inl (), mkQueueWs (qw_in w) (qw_out w ++ [m]) (qw_waits w));
  ws_poll_flush w := (Ready (inl ()), w);
  ws_poll_close w := (Ready (inl ()), w);
  ws_incoming := qw_in;
  ws_sent := qw_out;
  ws_waits := qw_waits;
|}.

#[global] Instance QueueWebSocketLaws : WebSocketLaws QueueWs.
Proof.
  split; try done.
  - intros [[|m ms] out b] m' w'; [done|]. by intros [= <- <-].
  - intros [[|m ms] out b] p w'; simpl; [by intros [= <- <-]|]. intros [= <- <-] H. by destruct (H m).
  - intros [[|m ms] out b] w'; [|done]. by intros [= <-].
  - by intros m w w' [= <-].
Qed.

(** A control message ahead of data stops the reader: the read returns [Pending]
    although a binary message is there to be read, and nothing has been registered to
    wake the reader up. *)
Theorem ws_control_message_stalls (m : Message) (data : bytes) (n : nat) :
  msg_data m = [] → m ≠ MClose →
  ∃ st, ws_poll_read n (ws_new (mkQueueWs [m; MBinary data] [] false)) = (Ok Pending, st) ∧
    ws_incoming (ws_inner st) = [MBinary data] ∧ ws_waits (ws_inner st) = false.
Proof. intros Hm Hc. destruct m as [t|[]|d|d| |f]; try done; by eexists. Qed.

(** A read without room drops what the stream had buffered, as soon as another
    binary message has arrived. *)
Theorem ws_empty_read_drops (x : byte) (buf data : bytes) :
  data ≠ [] →
  ∃ st, ws_poll_read 0 (mkWs (mkQueueWs [MBinary data] [] false) (x :: buf) None false) = (Ok (Ready []), st) ∧
    ws_unread st = data.
Proof. intros Hd. destruct data as [|y data]; [done|]. eexists. split; [done|]. rw /ws_unread /=. by rw app_nil_r. Qed.

Lemma ws_stream_delivers_witness :
  ∃ st, ws_run [WcRead 2; WcWrite (str "hi"); WcRead 2; WcRead 9; WcShutdown]
    (ws_new (mkQueueWs [MBinary (str "abc"); MPing (str "p")] [] false)) = (Ok (str "abc", [str "hi"]), st) ∧
    ws_written st = [str "hi"] ∧ ws_unread st = [].
Proof.
  pose proof (ws_stream_delivers [WcRead 2; WcWrite (str "hi"); WcRead 2; WcRead 9; WcShutdown]
    (mkQueueWs [MBinary (str "abc"); MPing (str "p")] [] false)) as H.
  specialize (H ltac:(repeat constructor; lia) eq_refl). vm_compute in H. destruct H as [_ H].
  eexists. split; [vm_compute; reflexivity|]. split; [vm_compute; exact H|vm_compute; reflexivity].
Defined.

Lemma ws_control_message_stalls_witness :
  ∃ st, ws_poll_read 16 (ws_new (mkQueueWs [MPing []; MBinary (str "data")] [] false)) = (Ok Pending, st) ∧
    ws_incoming (ws_inner st) = [MBinary (str "data")] ∧ ws_waits (ws_inner st) = false.
Proof. apply (ws_control_message_stalls (MPing []) (str "data") 16); done. Defined.

Lemma ws_empty_read_drops_witness :
  ∃ st, ws_poll_read 0 (mkWs (mkQueueWs [MBinary (str "b")] [] false) (str "a") None false) = (Ok (Ready []), st) ∧
    ws_unread st = str "b".
Proof. apply (ws_empty_read_drops (Z_byte 97) [] (str "b")); done. Defined.
