(* ===== verification/TcpDial.v ===== *)
(** * Resolving and dialing

    [utils/dns.rs], the dialing halves of [transports/tcp.rs], [ws.rs], [tls.rs]
    and [onion.rs], and [tcp_dial] and [onion_dial] of [transports/mod.rs]. What
    the network does is a parameter: the system's resolver, the outcome of
    opening a socket, and the outcomes of the websocket handshake with a URL and of
    the TLS handshake. A
    stream is identified by what it was connected to; futures are run to their
    end. *)
From S2P Require Import Prelude Text StdNet ProxyProtocol Multiaddr MultiaddrFacts Molecule SecioMessages PeerId AddrUtils TcpListen.

(** What [timeout(connect(..))] came to; an error says whether its text names
    [connect_by_proxy]. *)
Inductive Dialed := DTimeout | DError (by_proxy : bool) (error : io.ErrorKind) | DConnected.

(** What [timeout(client_async_with_config(..))] came to; an error of tungstenite
    is an I/O error or another one. *)
Inductive WsHandshake := WhTimeout | WhError (io_error : option io.ErrorKind) | WhDone.

(** The network. [tls_connect] is [None] for a name that is no server name. *)
Record Network := mkNetwork {
  to_socket_addrs : bytes → Z → io.ErrorKind + list SocketAddr;
  connect_to : SocketAddr → Dialed;
  connect_onion_to : Multiaddr → Dialed;
  (** the request of a URL over a socket; a string that is no URL is an error *)
  ws_handshake : bytes → SocketAddr → WsHandshake;
  tls_connect : bytes → SocketAddr → option (option io.ErrorKind);
}.

Inductive DialedStream :=
| DsTcp (socket : SocketAddr)
| DsOnion (address : Multiaddr)
| DsWs (socket : SocketAddr)
| DsTls (domain : bytes) (socket : SocketAddr).

Record DnsResolver := mkDns {
  source_address : Multiaddr;
  dns_ty : TransportType;
  dns_peer_id : option PeerId;
  dns_port : Z;
  dns_domain : bytes;
}.

Abbreviation TR := (Res TransportErrorKind).

(** A call of the address library, which panics on a malformed address. *)
Definition addr_get {A} (r : option (Res Error A)) : TR A :=
  match r with Some (Ok a) => Ok a | _ => Panic end.

Section dial.
Context `{!AddrCodecs}.

(** The loop of [DnsResolver::new] on the peekable iterator. *)
Fixpoint dns_loop (fuel : nat) (s : bytes) : option (Res Error (option (bytes * Z))) :=
  match fuel with
  | O => None
  | S fuel =>
      match iter_next s with
      | Ok None => Some (Ok None)
      | Ok (Some (proto1, s)) =>
          match proto1 with
          | Dns4 _ | Dns6 _ =>
              match iter_next s with
              | Ok None => Some (Ok None)
              | Ok (Some (proto2, s)) =>
                  match proto1, proto2 with
                  | Dns4 domain, Tcp port => Some (Ok (Some (domain, port)))
                  | Dns6 domain, Tcp port => Some (Ok (Some (domain, port)))
                  | _, _ => dns_loop fuel s
                  end
              | _ => Some Panic
              end
          | _ => dns_loop fuel s
          end
      | _ => Some Panic
      end
  end.

Definition dns_new (source_address : Multiaddr) : TR (option DnsResolver) :=
  found ← addr_get (dns_loop (S (ma_len source_address)) (ma_bytes source_address));
  match found with
  | Some (domain, port) =>
      ty ← addr_get (find_type source_address);
      peer_id ← addr_get (extract_peer_id source_address);
      Ok (Some (mkDns source_address ty peer_id port domain))
  | None => Ok None
  end.

(** [new_addr]: the address, or the source with the error. *)
Definition dns_new_addr (dns : DnsResolver) (iter : list SocketAddr) : TR (Multiaddr + (Multiaddr * io.ErrorKind)) :=
  match iter with
  | address :: _ =>
      let address := socketaddr_to_multiaddr address in
      address ← match dns_ty dns with
                | TTcp | TMemory => Ok address
                | TTls =>
                    domain_name ← addr_get (parse_tls_domain_name (source_address dns));
                    Ok (push address (Tls (default [] domain_name)))
                | TWs => Ok (push address Ws)
                | TWss => Ok (push address Wss)
                | TOnion => Ok address
                end;
      Ok (inl match dns_peer_id dns with
              | Some peer_id => push address (P2P (peer_inner peer_id))
              | None => address
              end)
  | [] => Ok (inr (source_address dns, io.InvalidData))
  end.

Context (net : Network).

(** The resolver's future. *)
Definition dns_resolve (dns : DnsResolver) : TR (Multiaddr + (Multiaddr * io.ErrorKind)) :=
  match to_socket_addrs net (dns_domain dns) (dns_port dns) with
  | inr iter => dns_new_addr dns iter
  | inl e => Ok (inr (source_address dns, e))
  end.

(** [dns.map_err(..)], awaited. *)
Definition dns_address (dns : DnsResolver) : TR Multiaddr :=
  r ← dns_resolve dns;
  match r with
  | inl addr => Ok addr
  | inr (multiaddr, io_error) => Err (TeDnsResolverError multiaddr io_error)
  end.

Definition of_dialed (d : Dialed) : TR unit :=
  match d with
  | DTimeout => Err (TeIo io.TimedOut)
  | DError true e => Err (TeProxyError e)
  | DError false e => Err (TeIo e)
  | DConnected => Ok ()
  end.

Definition tcp_dial (addr : SocketAddr) : TR unit := of_dialed (connect_to net addr).
Definition onion_dial (onion_addr : Multiaddr) : TR unit := of_dialed (connect_onion_to net onion_addr).

(** [connect] of each transport; [address] is the awaited future. *)
Definition tcp_connect (address : TR Multiaddr) (original : option Multiaddr) : TR (Multiaddr * DialedStream) :=
  addr ← address;
  socket ← addr_get (multiaddr_to_socketaddr addr);
  match socket with
  | Some socket_address =>
      _ ← tcp_dial socket_address;
      Ok (default addr original, DsTcp socket_address)
  | None => Err (TeNotSupported (default addr original))
  end.

(** [format!("ws://{}:{}", ip, port)]. *)
Definition ws_url (a : SocketAddr) : bytes :=
  str "ws://" ++ (match ip a with V4 i => show_ip4 i | V6 i => show_ip6 i end) ++ str ":" ++ show_dec (port a).

Definition ws_connect (address : TR Multiaddr) (original : option Multiaddr) : TR (Multiaddr * DialedStream) :=
  addr ← address;
  socket ← addr_get (multiaddr_to_socketaddr addr);
  match socket with
  | Some socket_address =>
      let url := ws_url socket_address in
      _ ← tcp_dial socket_address;
      match ws_handshake net url socket_address with
      | WhTimeout => Err (TeIo io.TimedOut)
      | WhError (Some e) => Err (TeIo e)
      | WhError None => Err (TeIo io.ConnectionAborted)
      | WhDone => Ok (default addr original, DsWs socket_address)
      end
  | None => Err (TeNotSupported (default addr original))
  end.

Definition tls_dial_connect (client_config : bool) (domain_name : bytes) (address : TR Multiaddr)
    (original : option Multiaddr) : TR (Multiaddr * DialedStream) :=
  if negb client_config then Err (TeTlsError (str "client config not found")) else
  addr ← address;
  socket ← addr_get (multiaddr_to_socketaddr addr);
  match socket with
  | Some socket_address =>
      _ ← tcp_dial socket_address;
      match tls_connect net domain_name socket_address with
      | None => Err (TeTlsError (str "invalid dnsname"))
      | Some (Some e) => Err (TeIo e)
      | Some None => Ok (default addr original, DsTls domain_name socket_address)
      end
  | None => Err (TeNotSupported (default addr original))
  end.

Definition onion_connect (address : Multiaddr) : TR (Multiaddr * DialedStream) :=
  _ ← onion_dial address;
  Ok (address, DsOnion address).

(** The future of one transport as that of [MultiTransport]. *)
Definition dialed (r : TR (Multiaddr * DialedStream)) : TR (option (Multiaddr * DialedStream)) :=
  x ← r; Ok (Some x).

(** [dial] of a transport: through the resolver when the address names a host. *)
Definition dial_with (connect : TR Multiaddr → option Multiaddr → TR (Multiaddr * DialedStream)) (address : Multiaddr)
    : TR (Multiaddr * DialedStream) :=
  dns ← dns_new address;
  match dns with
  | Some dns => connect (dns_address dns) (Some address)
  | None => connect (Ok address) None
  end.

Definition tls_transport_dial (client_config : bool) (address : Multiaddr) : TR (Multiaddr * DialedStream) :=
  domain ← addr_get (parse_tls_domain_name address);
  match domain with
  | Some domain_name => dial_with (tls_dial_connect client_config domain_name) address
  | None => Err (TeNotSupported address)
  end.

(** [MultiTransport::dial] and its future, but for the memory transport. *)
Definition transport_dial (tls_config : option bool) (address : Multiaddr) : TR (option (Multiaddr * DialedStream)) :=
  ty ← addr_get (find_type address);
  match ty with
  | TTcp => dialed (dial_with tcp_connect address)
  | TOnion => dialed (onion_connect address)
  | TWs => dialed (dial_with ws_connect address)
  | TMemory => Ok None
  | TWss => Err (TeNotSupported address)
  | TTls =>
      match tls_config with
      | None => Err (TeTlsError (str "tls config is not set"))
      | Some client_config => dialed (tls_transport_dial client_config address)
      end
  end.
End dial.

(** ** Facts *)

Section facts.
Context {AC : AddrCodecs} {AL : AddrCodecsLaws}.

(** The first host name whose pair is a TCP port, pairs not overlapping. *)
Fixpoint first_dns (ps : list Protocol) : option (bytes * Z) :=
  match ps with
  | Dns4 d :: Tcp port :: _ => Some (d, port)
  | Dns6 d :: Tcp port :: _ => Some (d, port)
  | Dns4 _ :: _ :: ps => first_dns ps
  | Dns6 _ :: _ :: ps => first_dns ps
  | _ :: ps => first_dns ps
  | [] => None
  end.

Definition peer_of (p : Protocol) : option PeerId := match p with P2P b => Some (mkPeerId b) | _ => None end.
Definition tls_of (p : Protocol) : option bytes := match p with Tls s => Some s | _ => None end.
Definition type_of (ps : list Protocol) : TransportType := default TTcp (first_some transport_of ps).

Lemma dns_loop_Comps b ps fuel :
  Comps b ps → (length ps < fuel)%nat → dns_loop fuel b = Some (Ok (first_dns ps)).
Proof.
  revert b fuel. induction ps as [ps IH] using (induction_ltof1 _ length); rw /ltof in IH.
  intros b [|fuel] Hb Hf; [lia|]. inversion Hb as [|b' p rest ps' Hp Hr]; subst; [done|]. cbn [dns_loop].
  rw (iter_next_cons _ _ _ Hp). simpl in Hf.
  assert (∀ qs r, Comps r qs → (length qs ≤ length ps')%nat → dns_loop fuel r = Some (Ok (first_dns qs))) as IH'.
  { intros qs r Hq Hl. apply IH; [simpl; lia|done|lia]. }
  inversion Hr as [|b'' q rest' qs Hq Hr']; subst.
  - destruct p; try done; by apply (IH' [] []).
  - rw (iter_next_cons _ _ _ Hq).
    assert (dns_loop fuel rest = Some (Ok (first_dns (q :: qs)))) as H1 by (by apply IH').
    assert (dns_loop fuel rest' = Some (Ok (first_dns qs))) as H2 by (apply IH'; [done|simpl; lia]).
    by destruct p; try exact H1; destruct q.
Qed.

Lemma find_type_Comps m ps : Comps (ma_bytes m) ps → find_type m = Some (Ok (type_of ps)).
Proof. intros H. by rw /find_type (find_map_Comps _ _ _ H). Qed.

Lemma tls_name_Comps m ps : Comps (ma_bytes m) ps → parse_tls_domain_name m = Some (Ok (first_some tls_of ps)).
Proof. apply find_map_Comps. Qed.

Lemma dns_new_Comps m ps :
  Comps (ma_bytes m) ps →
  dns_new m = Ok ((λ x, mkDns m (type_of ps) (first_some peer_of ps) x.2 x.1) <$> first_dns ps).
Proof.
  intros H. rw /dns_new (dns_loop_Comps _ ps); [|done|apply Comps_length in H; rw /ma_len; lia].
  cbn [addr_get mbind Res_bind]. destruct (first_dns ps) as [[d p]|]; [|done].
  by rw (find_type_Comps _ _ H) (extract_peer_id_Comps _ _ H).
Qed.

(** The components of a resolved address. *)
Definition resolved (ps : list Protocol) (a : SocketAddr) : list Protocol :=
  [match ip a with V4 i => Ip4 i | V6 i => Ip6 i end; Tcp (port a)] ++
  match type_of ps with
  | TTls => [Tls (default [] (first_some tls_of ps))] | TWs => [Ws] | TWss => [Wss] | _ => []
  end ++
  match first_some peer_of ps with Some id => [P2P (peer_inner id)] | None => [] end.

Lemma first_some_wf {B} (f : Protocol → option B) ps b :
  Forall proto_wf ps → first_some f ps = Some b → ∃ p, proto_wf p ∧ f p = Some b.
Proof.
  induction 1 as [|p ps Hp _ IH]; [done|]. cbn [first_some]. destruct (f p) eqn:E; [|done]. intros [= ->]. eauto.
Qed.

Lemma push_Comps m ps p : Comps (ma_bytes m) ps → proto_wf p → Comps (ma_bytes (push m p)) (ps ++ [p]).
Proof. intros H Hp. apply Comps_app; [done|]. by apply Comps_write. Qed.

Lemma socketaddr_Comps a :
  ip_wf (ip a) → is_u16 (port a) →
  Comps (ma_bytes (socketaddr_to_multiaddr a)) [match ip a with V4 i => Ip4 i | V6 i => Ip6 i end; Tcp (port a)].
Proof.
  intros Hi Hp. apply Comps_concat. apply Forall_cons. split; [by destruct (ip a)|]. by apply Forall_singleton.
Qed.

Lemma dns_new_addr_Comps m ps d p a iter :
  Comps (ma_bytes m) ps → ip_wf (ip a) → is_u16 (port a) →
  ∃ m', dns_new_addr (mkDns m (type_of ps) (first_some peer_of ps) p d) (a :: iter) = Ok (inl m') ∧
    Comps (ma_bytes m') (resolved ps a).
Proof.
  intros H Hi Hp. pose proof (Comps_wf _ _ H) as Hwf. rw /dns_new_addr /resolved. cbn [dns_ty dns_peer_id source_address].
  assert (∃ m1, (match type_of ps with
      | TTcp | TMemory => Ok (socketaddr_to_multiaddr a)
      | TTls => domain_name ← addr_get (parse_tls_domain_name m);
                Ok (push (socketaddr_to_multiaddr a) (Tls (default [] domain_name)))
      | TWs => Ok (push (socketaddr_to_multiaddr a) Ws)
      | TWss => Ok (push (socketaddr_to_multiaddr a) Wss)
      | TOnion => Ok (socketaddr_to_multiaddr a)
      end : TR Multiaddr) = Ok m1 ∧
    Comps (ma_bytes m1) ([match ip a with V4 i => Ip4 i | V6 i => Ip6 i end; Tcp (port a)] ++
      match type_of ps with
      | TTls => [Tls (default [] (first_some tls_of ps))] | TWs => [Ws] | TWss => [Wss] | _ => []
      end)) as (m1 & -> & H1).
  { rw (tls_name_Comps _ _ H). cbn [addr_get mbind Res_bind]. pose proof (socketaddr_Comps a Hi Hp) as Ha.
    destruct (type_of ps) eqn:Ht; eexists; (split; [done|]); rw ?app_nil_r //; try by apply push_Comps.
    apply push_Comps; [done|]. destruct (first_some tls_of ps) as [s|] eqn:Hs; [|by vm_compute].
    by destruct (first_some_wf _ _ _ Hwf Hs) as ([] & Hpw & [= <-]). }
  cbn [mbind Res_bind]. destruct (first_some peer_of ps) as [id|] eqn:Hid; eexists; (split; [done|]); rw ?app_nil_r //.
  rw app_assoc. apply push_Comps; [done|]. by destruct (first_some_wf _ _ _ Hwf Hid) as ([] & Hpw & [= <-]).
Qed.

Lemma type_tls_name ps : type_of ps = TTls → ∃ s, first_some tls_of ps = Some s.
Proof.
  rw /type_of. induction ps as [|p ps IH]; [done|]. cbn [first_some]. destruct p; simpl; eauto; done.
Qed.

(** What is read from a resolved address. *)
Lemma resolved_reads ps a :
  type_of ps ≠ TOnion → type_of ps ≠ TMemory →
  first_socket (resolved ps a) = Some a ∧ type_of (resolved ps a) = type_of ps ∧
  first_some peer_of (resolved ps a) = first_some peer_of ps ∧
  (type_of ps = TTls → first_some tls_of (resolved ps a) = first_some tls_of ps).
Proof.
  intros Ho Hm.
  rw /resolved. destruct a as [[i|i] po]; cbn [ip port].
  all: split_and!; [done|rw {1}/type_of !first_some_app|rw !first_some_app|rw !first_some_app].
  all: destruct (type_of ps) eqn:Ht; try done; destruct (first_some peer_of ps) as [[id]|] eqn:Hid; try done.
  all: intros _; destruct (type_tls_name _ Ht) as [s Hs]; by rw Hs.
Qed.

(** A resolved address is the source with its host name replaced by the first
    address of the resolver: it leads to that socket, over the same transport (for
    TLS with the same server name), and names the same peer. *)
Theorem dns_keeps_address (m : Multiaddr) (ps : list Protocol) (dns : DnsResolver) (a : SocketAddr) (iter : list SocketAddr) :
  Comps (ma_bytes m) ps → dns_new m = Ok (Some dns) → ip_wf (ip a) → is_u16 (port a) →
  find_type m ≠ Some (Ok TOnion) → find_type m ≠ Some (Ok TMemory) →
  ∃ m', dns_new_addr dns (a :: iter) = Ok (inl m') ∧
    multiaddr_to_socketaddr m' = Some (Ok (Some a)) ∧ find_type m' = find_type m ∧
    extract_peer_id m' = extract_peer_id m ∧
    (find_type m = Some (Ok TTls) → parse_tls_domain_name m' = parse_tls_domain_name m).
Proof.
  intros H Hd Hi Hp. rw (dns_new_Comps _ _ H) in Hd. destruct (first_dns ps) as [[d p]|]; [|done].
  injection Hd as <-. cbn [fst snd]. rw !(find_type_Comps _ _ H) (extract_peer_id_Comps _ _ H) (tls_name_Comps _ _ H).
  intros Ho Hm. destruct (dns_new_addr_Comps m ps d p a iter H Hi Hp) as (m' & He & Hm'). exists m'.
  rw (find_type_Comps _ _ Hm') (extract_peer_id_Comps _ _ Hm') (tls_name_Comps _ _ Hm')
    (multiaddr_to_socketaddr_Comps _ _ Hm').
  destruct (resolved_reads ps a) as (H1 & H2 & H3 & H4); [congruence..|]. rw H1 H2. fold peer_of. rw H3.
  split_and!; try done. intros [= Ht]. by rw H4.
Qed.

(** *** Dialing *)

(** Where an address leads to. *)
Definition dial_target (net : Network) (m : Multiaddr) (ps : list Protocol) : TransportErrorKind + SocketAddr :=
  match first_dns ps with
  | Some (d, p) =>
      match to_socket_addrs net d p with
      | inl e => inl (TeDnsResolverError m e)
      | inr [] => inl (TeDnsResolverError m io.InvalidData)
      | inr (a :: _) => inr a
      end
  | None => match first_socket ps with Some a => inr a | None => inl (TeNotSupported m) end
  end.

(** The resolver returns socket addresses. *)
Definition network_wf (net : Network) : Prop :=
  ∀ d p l a, to_socket_addrs net d p = inr l → a ∈ l → ip_wf (ip a) ∧ is_u16 (port a).

(** A [connect] function that awaits the address, opens a socket to it and goes on
    with [k]. *)
Definition connects (net : Network) (connect : TR Multiaddr → option Multiaddr → TR (Multiaddr * DialedStream))
    (k : SocketAddr → TR DialedStream) : Prop :=
  (∀ e o, connect (Err e) o = Err e) ∧
  ∀ addr o ps, Comps (ma_bytes addr) ps →
    connect (Ok addr) o =
    match first_socket ps with
    | Some a => _ ← tcp_dial net a; s ← k a; Ok (default addr o, s)
    | None => Err (TeNotSupported (default addr o))
    end.

Lemma dial_with_spec net connect k m ps :
  network_wf net → connects net connect k → Comps (ma_bytes m) ps → type_of ps ≠ TOnion → type_of ps ≠ TMemory →
  dial_with net connect m =
  match dial_target net m ps with
  | inl e => Err e
  | inr a => _ ← tcp_dial net a; s ← k a; Ok (m, s)
  end.
Proof.
  intros Hn [He Hk] H Ho Hm. rw /dial_with (dns_new_Comps _ _ H) /dial_target. cbn [mbind Res_bind].
  destruct (first_dns ps) as [[d p]|]; cbn [fmap option_fmap option_map fst snd]; last first.
  { rw (Hk m None ps H). by destruct (first_socket ps). }
  rw /dns_address /dns_resolve. cbn [dns_domain dns_port source_address].
  destruct (to_socket_addrs net d p) as [e|[|a l]] eqn:Hr; cbn [mbind Res_bind source_address]; [by rw He..|].
  destruct (Hn _ _ _ a Hr) as [Hi Hp]; [set_solver|].
  destruct (dns_new_addr_Comps m ps d p a l H Hi Hp) as (m' & E & Hm'). rw E. cbn [mbind Res_bind].
  rw (Hk m' (Some m) _ Hm'). by destruct (resolved_reads ps a Ho Hm) as (-> & _).
Qed.

Lemma tcp_connects net : connects net (tcp_connect net) (λ a, Ok (DsTcp a)).
Proof.
  split; [done|]. intros addr o ps H. rw /tcp_connect. cbn [mbind Res_bind]. rw (multiaddr_to_socketaddr_Comps _ _ H).
  cbn [addr_get mbind Res_bind]. destruct (first_socket ps); [|done]. by destruct (tcp_dial net _).
Qed.

(** What is left to do on an open socket. *)
Definition ws_upgrade (net : Network) (a : SocketAddr) : TR DialedStream :=
  match ws_handshake net (ws_url a) a with
  | WhTimeout => Err (TeIo io.TimedOut)
  | WhError (Some e) => Err (TeIo e)
  | WhError None => Err (TeIo io.ConnectionAborted)
  | WhDone => Ok (DsWs a)
  end.
Definition tls_upgrade (net : Network) (domain : bytes) (a : SocketAddr) : TR DialedStream :=
  match tls_connect net domain a with
  | None => Err (TeTlsError (str "invalid dnsname"))
  | Some (Some e) => Err (TeIo e)
  | Some None => Ok (DsTls domain a)
  end.

Lemma ws_connects net : connects net (ws_connect net) (ws_upgrade net).
Proof.
  split; [done|]. intros addr o ps H. rw /ws_connect /ws_upgrade. cbn [mbind Res_bind].
  rw (multiaddr_to_socketaddr_Comps _ _ H). cbn [addr_get mbind Res_bind]. destruct (first_socket ps); [|done].
  destruct (tcp_dial net _); [|done..]. by destruct (ws_handshake net _ _) as [|[]|].
Qed.

Lemma tls_connects net domain : connects net (tls_dial_connect net true domain) (tls_upgrade net domain).
Proof.
  split; [done|]. intros addr o ps H. rw /tls_dial_connect /tls_upgrade. cbn [mbind Res_bind negb].
  rw (multiaddr_to_socketaddr_Comps _ _ H). cbn [addr_get mbind Res_bind]. destruct (first_socket ps); [|done].
  destruct (tcp_dial net _); [|done..]. by destruct (tls_connect net _ _) as [[]|].
Qed.

(** The outcome of a dial once the socket is open, per transport. *)
Definition upgrade (net : Network) (ty : TransportType) (ps : list Protocol) (a : SocketAddr) : TR DialedStream :=
  match ty with
  | TTls => tls_upgrade net (default [] (first_some tls_of ps)) a
  | TWs => ws_upgrade net a
  | _ => Ok (DsTcp a)
  end.

(** C25. Dialing a TCP, websocket or TLS address opens a socket to the address's host,
    resolved when it is a name, upgrades it as the address says and reports the
    address that was dialed, not the resolved one; what fails on the way is the
    error, again with the dialed address. No address makes it panic. *)
Theorem transport_dial_outcome (net : Network) (m : Multiaddr) (ps : list Protocol) :
  network_wf net → Comps (ma_bytes m) ps →
  (∀ ty, find_type m = Some (Ok ty) → ty = TTcp ∨ ty = TWs ∨ ty = TTls →
    transport_dial net (Some true) m =
    match dial_target net m ps with
    | inl e => Err e
    | inr a => _ ← tcp_dial net a; s ← upgrade net ty ps a; Ok (Some (m, s))
    end) ∧
  ∀ tls, transport_dial net tls m ≠ Panic.
Proof.
  intros Hn H.
  assert (∀ a, tcp_dial net a ≠ Panic) as Hd by (intros a; rw /tcp_dial; by destruct (connect_to net a) as [|[]|]).
  assert (∀ connect k, connects net connect k → (∀ a, k a ≠ Panic) → type_of ps ≠ TOnion → type_of ps ≠ TMemory →
    dialed (dial_with net connect m) ≠ Panic) as Hnp.
  { intros connect k Hc Hk Ho Hm. rw (dial_with_spec _ _ _ _ _ Hn Hc H Ho Hm). destruct (dial_target net m ps) as [|a]; [done|].
    specialize (Hd a). specialize (Hk a). destruct (tcp_dial net a); [|done..]. cbn [mbind Res_bind].
    by destruct (k a). }
  rw (find_type_Comps _ _ H). split.
  - intros ty [= <-] Hty. rw /transport_dial (find_type_Comps _ _ H). cbn [addr_get mbind Res_bind].
    assert (∀ connect k, connects net connect k → dialed (dial_with net connect m) =
      match dial_target net m ps with
      | inl e => Err e
      | inr a => _ ← tcp_dial net a; s ← k a; Ok (Some (m, s))
      end) as Hsp.
    { intros connect k Hc. rw (dial_with_spec _ _ _ _ _ Hn Hc H); [|by destruct Hty as [->|[->| ->]]..].
      destruct (dial_target net m ps) as [|a]; [done|]. destruct (tcp_dial net a); [|done..]. cbn [mbind Res_bind].
      by destruct (k a). }
    destruct Hty as [Ht|[Ht|Ht]]; rw Ht.
    + apply (Hsp _ _ (tcp_connects net)).
    + apply (Hsp _ _ (ws_connects net)).
    + rw /tls_transport_dial (tls_name_Comps _ _ H). cbn [addr_get mbind Res_bind upgrade].
      destruct (type_tls_name _ Ht) as [s Hs]. rw Hs. apply (Hsp _ _ (tls_connects net s)).
  - intros tls. rw /transport_dial (find_type_Comps _ _ H). cbn [addr_get mbind Res_bind].
    destruct (type_of ps) eqn:Ht; try done.
    + apply (Hnp _ _ (ws_connects net)); [|done..]. intros a. rw /ws_upgrade. by destruct (ws_handshake net _ a) as [|[]|].
    + by apply (Hnp _ _ (tcp_connects net)).
    + destruct tls as [[]|]; [| |done]; rw /tls_transport_dial (tls_name_Comps _ _ H); cbn [addr_get mbind Res_bind];
        destruct (first_some tls_of ps) as [s|]; try done.
      * apply (Hnp _ _ (tls_connects net s)); [|done..]. intros a. rw /tls_upgrade. by destruct (tls_connect net s a) as [[]|].
      * rw /dial_with (dns_new_Comps _ _ H). cbn [mbind Res_bind]. by destruct (first_dns ps).
    + rw /onion_connect /onion_dial. by destruct (connect_onion_to net m) as [|[]|].
Qed.
End facts.

(** An IPv6 address is put into the URL without the brackets that URLs have around it. *)
Lemma ws_ipv6_url : ws_url (mkSocketAddr (V6 (mkIp6 [0; 0; 0; 0; 0; 0; 0; 1])) 80) = str "ws://::1:80".
Proof. vm_compute. reflexivity. Qed.

(** ** A concrete network *)

Definition demo_net : Network := mkNetwork
  (λ d _, if bool_decide (d = str "localhost") then inr [demo_socket] else inl io.NotConnected)
  (λ a, if bool_decide (a = demo_socket) then DConnected else DTimeout)
  (λ _, DTimeout) (λ _ _, WhDone) (λ _ _, Some None).
Definition demo_host : list Protocol := [Dns4 (str "localhost"); Tcp 80; Ws].

Lemma demo_host_Comps : Comps (ma_bytes (from_iter demo_host)) demo_host.
Proof. apply Comps_concat. repeat constructor; unfold_int; simpl; lia. Qed.

Lemma dns_keeps_address_witness :
  ∃ m', dns_new_addr (mkDns (from_iter demo_host) TWs None 80 (str "localhost")) [demo_socket] = Ok (inl m') ∧
    multiaddr_to_socketaddr m' = Some (Ok (Some demo_socket)) ∧ find_type m' = Some (Ok TWs).
Proof.
  destruct (dns_keeps_address (from_iter demo_host) demo_host (mkDns (from_iter demo_host) TWs None 80 (str "localhost"))
    demo_socket []) as (m' & H1 & H2 & H3 & _).
  - exact demo_host_Comps.
  - vm_compute. reflexivity.
  - repeat constructor; unfold_int; simpl; lia.
  - unfold_int; simpl; lia.
  - vm_compute. discriminate.
  - vm_compute. discriminate.
  - exists m'. split; [exact H1|]. split; [exact H2|]. rewrite -> H3. vm_compute. reflexivity.
Defined.

Lemma transport_dial_outcome_witness :
  transport_dial demo_net (Some true) (from_iter demo_host) = Ok (Some (from_iter demo_host, DsWs demo_socket)).
Proof.
  destruct (transport_dial_outcome demo_net (from_iter demo_host) demo_host) as [H _].
  - intros d p l a. cbn [to_socket_addrs demo_net]. case_bool_decide; [|discriminate]. intros [= <-] ->%list_elem_of_singleton.
    split; [repeat constructor; unfold_int; simpl; lia|unfold_int; simpl; lia].
  - exact demo_host_Comps.
  - etransitivity; [apply (H TWs); [vm_compute; reflexivity|auto]|]. vm_compute. reflexivity.
Defined.
