(* ===== verification/ByteStreams.v ===== *)
(** * Frames over byte streams

    The muxer does not know what it runs over: [yamux] reads its frames from any
    [AsyncRead], which tentacle makes of an encrypted stream, of a websocket or of
    a memory socket. This file states what the frame reader relies on as an
    interface ([ByteStream]), shows that the three streams keep it, and proves
    against the interface that frames arrive as they were sent. The last theorem
    puts the layers together: two parties that finished the secio handshake read
    each other's frames. *)
From S2P Require Import Prelude Text Framed SecioSupport SecioCrypto SecureStream Molecule MoleculeFacts SecioMessages SecioHandshake SecioHandshakeFacts.
From S2P Require Import YamuxFrame MemoryTransport WsStream.

(** ** The interface *)

(** A stream to read from, and the bytes that the reader has still to get. *)
Class ByteStream (S : Type) := {
  bs_read : nat → M S io.ErrorKind (Poll bytes);
  bs_holds : S → bytes → Prop;
}.

(** A read with room hands out the next bytes or waits; it never panics. *)
Class ByteStreamLaws (S : Type) `{ByteStream S} : Prop := {
  bs_read_law n s b :
    bs_holds s b → (0 < n)%nat →
    match bs_read n s with
    | (Ok (Ready d), s') => ∃ b', b = d ++ b' ∧ bs_holds s' b'
    | (Ok Pending, s') => bs_holds s' b
    | (Err _, _) => True
    | (Panic, _) => False
    end;
}.

(** ** The frame reader *)

(** tokio's [FramedRead] around [FrameCodec]: what a read yields is fed to the
    decoder; [caps] are the sizes of the buffers. *)
Fixpoint read_frames {S} `{!ByteStream S} (caps : list nat) (r : Reader) : M S io.ErrorKind Reader :=
  match caps with
  | [] => mret r
  | n :: caps =>
      p ← bs_read n;
      match p with
      | Ready d => read_frames caps (feed r d)
      | Pending => read_frames caps r
      end
  end.

Section client.
Context {S : Type} {BS : ByteStream S} {BL : ByteStreamLaws S}.
Implicit Types s : S.

(** The reader has been fed [pre], and the stream holds the rest. *)
Lemma read_frames_feed caps c pre b s :
  Forall (λ n, 0 < n)%nat caps → bs_holds s b →
  match read_frames caps (feed (reader_new c) pre) s with
  | (Ok r, s') => ∃ d b', b = d ++ b' ∧ bs_holds s' b' ∧ r = feed (reader_new c) (pre ++ d)
  | (Err _, _) => True
  | (Panic, _) => False
  end.
Proof.
  intros Hc. revert pre b s. induction Hc as [|n caps Hn _ IH]; intros pre b s Hs; cbn [read_frames].
  { exists [], b. by rw app_nil_r. }
  pose proof (bs_read_law n s b Hs Hn) as Hr. rw /mbind /M_bind. destruct (bs_read n s) as [[[d|]|e|] s1]; [| |done..].
  - destruct Hr as (b1 & -> & Hs1). rw -feed_app. specialize (IH (pre ++ d) b1 s1 Hs1).
    destruct (read_frames caps _ s1) as [[r|e|] s2]; [|done..]. destruct IH as (d2 & b2 & -> & Hs2 & ->).
    exists (d ++ d2), b2. by rw !app_assoc.
  - by apply IH.
Qed.

(** The decoder's output only grows. *)
Lemma feed_out_prefix r d : rd_out r `prefix_of` rd_out (feed r d).
Proof.
  rw /feed. destruct (rd_err r); [done|]. destruct (decode_all _ _ _) as [[[fs e] c] src]. by apply prefix_app_r.
Qed.

(** An error stays. *)
Lemma feed_err_stays r d e : rd_err r = Some e → rd_err (feed r d) = Some e.
Proof. rw /feed. by intros ->. Qed.

(** What the frame reader gets over any such stream that holds encoded frames: no
    panic, no decoding error, a prefix of the frames, and all of them once the
    stream holds nothing more. *)
Lemma frames_over_stream caps max frames s :
  Forall (wf_frame max) frames → Forall (λ n, 0 < n)%nat caps → bs_holds s (encode_all frames) →
  match read_frames caps (reader_new (mkCodec None max)) s with
  | (Ok r, s') => ∃ rest, bs_holds s' rest ∧ rd_err r = None ∧ rd_out r `prefix_of` frames ∧ (rest = [] → rd_out r = frames)
  | (Err _, _) => True
  | (Panic, _) => False
  end.
Proof.
  intros Hwf Hc Hs. set (c := mkCodec None max). change (reader_new c) with (feed (reader_new c) []) at 1.
  pose proof (read_frames_feed caps c [] _ s Hc Hs) as H. destruct (read_frames caps _ s) as [[r|e|] s']; [|done..].
  destruct H as (d & rest & Hd & Hs' & ->). cbn [app].
  assert (feed (feed (reader_new c) d) rest = mkReader frames None c []) as Hall.
  { rw -feed_app -Hd. by apply (feed_encoded max frames (reader_new c)). }
  exists rest. split_and!; [done|..].
  - destruct (rd_err (feed (reader_new c) d)) as [e|] eqn:He; [|done].
    apply (feed_err_stays _ rest) in He. by rw Hall in He.
  - change frames with (rd_out (mkReader frames None c [])). rw -Hall. apply feed_out_prefix.
  - intros ->. rw app_nil_r in Hd. by rw -Hd (feed_encoded max frames (reader_new c)).
Qed.
End client.

(** ** The streams *)

#[global] Instance MemoryByteStream : ByteStream MemoryPipe := {|
  bs_read n p :=
    match memory_read n p with
    | (Ready (inl d), p) => (Ok (Ready d), p)
    | (Ready (inr e), p) => (Err e, p)
    | (Pending, p) => (Ok Pending, p)
    end;
  bs_holds p b := in_flight p = b;
|}.

#[global] Instance MemoryByteStreamLaws : ByteStreamLaws MemoryPipe.
Proof.
  split. intros n p b <- Hn. cbn [bs_read bs_holds MemoryByteStream]. pose proof (memory_read_spec n p) as H.
  destruct (memory_read n p) as [[[d|e]|] p']; destruct H as (H & _); [|done|done]. by exists (in_flight p').
Qed.

#[global] Instance WsByteStream {W} `{!WebSocket W} : ByteStream (WsStream W) := {|
  bs_read := ws_poll_read;
  bs_holds st b := ws_unread st = b;
|}.

#[global] Instance WsByteStreamLaws {W} `{!WebSocket W, !WebSocketLaws W} : ByteStreamLaws (WsStream W).
Proof.
  split. intros n st b <- Hn. cbn [bs_read bs_holds WsByteStream]. pose proof (ws_poll_read_spec n st Hn) as H. rw /wp in H.
  destruct (ws_poll_read n st) as [[[d|]|e|] st']; destruct H as (_ & _ & H); [|by destruct H|done..].
  exists (ws_unread st'). by destruct H.
Qed.

Section secure.
Context {S : Type} {FR : Framed S} {FL : FramedLaws S} {AE : Aead} {AEL : AeadLaws}.

(** What the reader of an encrypted stream has still to get: its buffer, and the
    messages that the frames on their way were sealed from. *)
#[global] Instance SecureByteStream : ByteStream (SecureStream S) := {|
  bs_read := poll_read;
  bs_holds st b := ∃ t k ms, reading t k ms st ∧ b = unread ms st;
|}.

#[global] Instance SecureByteStreamLaws : ByteStreamLaws (SecureStream S).
Proof.
  split. intros n st b (t & k & ms & Hr & ->) Hn. cbn [bs_read bs_holds SecureByteStream].
  pose proof (poll_read_step t k ms n st Hr Hn) as H. destruct (poll_read n st) as [[[d|]|e|] st']; [| |done..].
  - destruct H as (ms' & Hr' & <- & _). exists (unread ms' st'). split; [done|]. by exists t, k, ms'.
  - destruct H as (Hr' & <- & _). by exists t, k, ms.
Qed.

Lemma secure_holds_drained (st : SecureStream S) b :
  bs_holds st b → fr_incoming (socket st) = [] → b = buf_bytes (recv_buf st).
Proof.
  intros (t & k & ms & (_ & n & n' & _ & _ & _ & Hs) & ->) Hi. rw Hi in Hs. inversion Hs; subst. by rw /unread app_nil_r.
Qed.
End secure.

(** ** Two parties *)

Section parties.
Context {AE : Aead} {AEL : AeadLaws}.
Abbreviation St := (SecureStream ListSocket).
Implicit Types st : St.

(** What is left to do for the reader of a list of frames. *)
Definition work (ms : list bytes) st : nat := (length (unread ms st) + length ms)%nat.

(** The frames to come fit the limit of the reader's codec. *)
Definition admissible (s : ListSocket) : Prop := Forall (λ f, within (ls_max s) f = true) (ls_in s).

Lemma poll_next_admissible {E} :
  preserves (λ st : St, admissible (socket st)) (on_socket fr_poll_next : M St E _).
Proof.
  intros [[m [|f fs] o] dc ec nc rb]; [done|]. rw /on_socket /admissible /=. intros Hf.
  destruct (within m f); [by apply Forall_inv_tail in Hf|done].
Qed.

Lemma drain_admissible {E} n : preserves (λ st : St, admissible (socket st)) (drain_ n : M St E _).
Proof. intros st Hst. destruct (drain_spec (E:=E) n st) as (b & -> & _). done. Qed.

Lemma decode_admissible f : preserves (λ st : St, admissible (socket st)) (decode_buffer f : M St _ _).
Proof.
  assert (∀ {A} (m : M BoxStreamCipher SecioError A), preserves (λ st : St, admissible (socket st)) (on_decode m)) as Hd.
  { intros A m st Hst. rw /on_decode. by destruct (m (decode_cipher st)). }
  rw /decode_buffer. preserves; apply Hd.
Qed.

#[local] Hint Resolve poll_next_admissible drain_admissible decode_admissible : preserves.

Lemma poll_read_admissible n : preserves (λ st : St, admissible (socket st)) (poll_read n).
Proof. rw /poll_read. preserves. by apply preserves_modify. Qed.

(** Over a list of frames a read never fails, and it gets on as long as there is
    something to read. *)
Lemma poll_read_list t k ms n st :
  reading t k ms st → admissible (socket st) → (0 < n)%nat →
  ∃ p st' ms', poll_read n st = (Ok p, st') ∧ reading t k ms' st' ∧ admissible (socket st') ∧
    unread ms st = match p with Ready d => d | Pending => [] end ++ unread ms' st' ∧
    ((work ms' st' < work ms st)%nat ∨ work ms' st' = 0%nat).
Proof.
  intros Hr Ha Hn. pose proof (poll_read_step t k ms n st Hr Hn) as H.
  pose proof (poll_read_admissible n st Ha) as Ha'.
  destruct (poll_read n st) as [[[d|]|e|] st'] eqn:E; [| | |done].
  - destruct H as (ms' & Hr' & Hu & Hsuf & Hd). exists (Ready d), st', ms'. split_and!; [done..|]. left.
    rw /work -Hu length_app. destruct d as [|x d]; [rw (Hd eq_refl)|apply suffix_length in Hsuf]; simpl; lia.
  - destruct H as (Hr' & Hu & Hp & Hb). exists Pending, st', ms. split_and!; [done..|]. right.
    destruct Hr as (_ & n1 & n2 & _ & _ & _ & Hs). rw /work Hu.
    assert (ls_in (socket st) = []) as Hi
      by (revert Hp; cbn [fr_poll_next ListFramed]; destruct (ls_in (socket st)); [done|by case_match]).
    cbn [fr_incoming ListFramed] in Hs. rw Hi in Hs. inversion Hs; subst. by rw /unread Hb.
  - destruct H as [_ H]. revert H. cbn [fr_poll_next ListFramed]. rw /admissible in Ha.
    destruct (ls_in (socket st)); [naive_solver|]. rw (Forall_inv Ha). naive_solver.
Qed.

(** Enough reads take everything. *)
Lemma read_frames_list t k caps c pre ms st :
  reading t k ms st → admissible (socket st) → Forall (λ n, 0 < n)%nat caps → (work ms st ≤ length caps)%nat →
  ∃ st', read_frames caps (feed (reader_new c) pre) st = (Ok (feed (reader_new c) (pre ++ unread ms st)), st').
Proof.
  intros Hr Ha Hc. revert pre ms st Hr Ha. induction Hc as [|n caps Hn _ IH]; intros pre ms st Hr Ha Hw; cbn [read_frames].
  { exists st. rw /work in Hw. simpl in Hw. assert (unread ms st = []) as -> by (apply nil_length_inv; lia). by rw app_nil_r. }
  destruct (poll_read_list t k ms n st Hr Ha Hn) as (p & st1 & ms1 & Hp & Hr1 & Ha1 & Hu & Hd).
  erewrite M_bind_Ok by exact Hp. simpl in Hw.
  destruct p as [d|]; rw Hu; [rw -feed_app app_assoc|]; apply IH; (done || lia).
Qed.

(** A piece that is one frame within the limit once it is encrypted. *)
Definition piece_fits (max : Z) (w : bytes) : Prop := length w + 16 ≤ max.

Lemma sealed_fits t k n w ct tag max :
  length k = key_size t → length n = iv_size t → aead_seal t k n w = Some (ct, tag) →
  piece_fits max w → within max (ct ++ tag) = true.
Proof.
  intros Hk Hn [Hc Ht]%aead_seal_length Hw; [|done..]. apply Z.leb_le. rw length_app Hc Ht.
  assert (tag_size t = 16%nat) by (by destruct t). rw /piece_fits in Hw. lia.
Qed.

(** What the writer sends over a list of frames. *)
Lemma writes_list t k n ws st :
  writing t k n st → Forall (λ w, length w < 2 ^ 32) ws → Forall (piece_fits (ls_max (socket st))) ws →
  ∃ st' fs n', mapM poll_write ws st = (Ok ((λ w, Ready (length w)) <$> ws), st') ∧
    ls_out (socket st') = ls_out (socket st) ++ fs ∧ sealed t k n ws fs n' ∧
    ∀ max, Forall (piece_fits max) ws → Forall (λ f, within max f = true) fs.
Proof.
  intros Hw Hl. revert n st Hw. induction Hl as [|w ws Hlw _ IH]; intros n st Hw Hfit.
  { exists st, [], n. rw app_nil_r. split_and!; [done..|constructor|constructor]. }
  pose proof Hw as (Hk & Hn & _ & _). apply Forall_cons in Hfit as [Hfw Hfit].
  destruct (aead_seal_Some t k (nonce_advance n) w) as [[ct tag] Hs]; [done|by rw nonce_advance_length|done|].
  assert (length (nonce_advance n) = iv_size t) as Hn' by by rw nonce_advance_length.
  destruct (poll_write_list t k n w ct tag st Hw Hs (sealed_fits _ _ _ _ _ _ _ Hk Hn' Hs Hfw)) as (enc & Hp & Hv & Hm).
  set (st1 := mkSecure _ _ enc _ _) in Hp.
  assert (writing t k (nonce_advance n) st1) as Hw1 by (rw /writing nonce_advance_length; done).
  destruct (IH _ _ Hw1 Hfit) as (st' & fs & n' & Hm' & Ho & Hse & Hall). exists st', ((ct ++ tag) :: fs), n'. split_and!.
  - by apply (mapM_cons_M poll_write w ws st (Ready (length w)) st1).
  - by rw Ho /st1 /= -app_assoc.
  - by econstructor.
  - intros max [Hw' Hws']%Forall_cons. constructor; [by eapply sealed_fits|by apply Hall].
Qed.

(** A stream whose socket has been handed the frames [fs]. *)
Definition deliver_to (fs : list bytes) st : St := set_socket (mkListSocket (ls_max (socket st)) fs (ls_out (socket st))) st.

(** One direction between two established ends. *)
Lemma established_frames c kx ky stx sty max frames ws caps :
  established c kx ky stx → established c ky kx sty → Forall (wf_frame max) frames →
  Forall (λ w, length w < 2 ^ 32) ws →
  Forall (piece_fits (ls_max (socket stx))) ws → Forall (piece_fits (ls_max (socket sty))) ws → concat ws = encode_all frames →
  Forall (λ n, 0 < n)%nat caps → (length (encode_all frames) + length ws ≤ length caps)%nat →
  ∃ stx' fs sty', mapM poll_write ws stx = (Ok ((λ w, Ready (length w)) <$> ws), stx') ∧
    ls_out (socket stx') = ls_out (socket stx) ++ fs ∧
    read_frames caps (reader_new (mkCodec None max)) (deliver_to fs sty) =
      (Ok (mkReader frames None (mkCodec None max) []), sty').
Proof.
  intros (Hw & _) (_ & Hv & Hm & Hb & _) Hwf Hl Hfx Hfy Hc Hcaps Hlen. pose proof Hw as (Hk & Hn & _).
  destruct (writes_list _ _ _ _ _ Hw Hl Hfx) as (stx' & fs & n' & Hws & Ho & Hs & Hall).
  assert (reading c (cipher_key c kx) ws (deliver_to fs sty)) as Hr
    by (split; [done|]; by eexists _, n').
  assert (unread ws (deliver_to fs sty) = encode_all frames) as Hu by (rw /unread /= Hb; exact Hc).
  destruct (read_frames_list _ _ caps (mkCodec None max) [] ws _ Hr (Hall _ Hfy) Hcaps) as [sty' Hrf]; [by rw /work Hu|].
  exists stx', fs, sty'. split_and!; [done..|]. rw Hu in Hrf. cbn [app] in Hrf.
  rewrite -> (feed_encoded max frames (reader_new (mkCodec None max))) in Hrf by done. exact Hrf.
Qed.
End parties.

Section composed.
Context {K : Type} {KP : KeyProvider K} {KL : KeyProviderLaws K}.
Context {HC : HandshakeCrypto} {HL : HandshakeCryptoLaws} {AE : Aead} {AEL : AeadLaws}.
Context {MN : MolNumber} {ML : MolNumberLaws}.

End composed.

#[local] Existing Instances DemoCrypto DemoCryptoLaws DemoProvider DemoProviderLaws.

