(* ===== verification/Upnp.v ===== *)
(** * Port mapping

    [tentacle/src/upnp/mod.rs] and [upnp/unix.rs]: [IgdClient], which asks the
    gateway of the local network to forward the ports that the service listens on.
    The gateway and the clock are parameters ([Gateway]): a call may fail, and what
    it does to the gateway's table of mappings is stated as laws. The interfaces
    that [getifaddrs] lists are given. Times are in nanoseconds. [HashMap]s are
    iterated in an order of their own; the model uses that of [map_to_list]. *)
From S2P Require Import Prelude Text StdNet Multiaddr MultiaddrFacts SecioMessages PeerId AddrUtils TcpListen.

(** ** The local network *)

Record Network := mkNetwork { address : Ipv4Addr; net_mask : Ipv4Addr }.

(** [libc::sockaddr]: the family and the data, 14 [c_char]s. *)
Record SockAddr := mkSockAddr { sa_family : Z; sa_data : list Z }.
Record IfAddr := mkIfAddr { ifa_name : bytes; ifa_addr : option SockAddr; ifa_netmask : option SockAddr }.

Definition AF_INET : Z := 2.

Definition sa_octet (i : nat) (a : SockAddr) : Z := wrap 8 (default 0 (sa_data a !! i)).
Definition parse_addr (p_sock : option SockAddr) : option Ipv4Addr :=
  match p_sock with
  | None => None
  | Some addr =>
      if sa_family addr =? AF_INET
      then Some (mkIp4 (sa_octet 2 addr) (sa_octet 3 addr) (sa_octet 4 addr) (sa_octet 5 addr))
      else None
  end.

(** The walk along the list that [getifaddrs] returns. *)
Fixpoint net_states (ifas : list IfAddr) : Res io.ErrorKind (list Network) :=
  match ifas with
  | [] => Ok []
  | ifa :: ifas =>
      if bool_decide (str "docker" `prefix_of` ifa_name ifa) || bool_decide (str "lo" `prefix_of` ifa_name ifa) then net_states ifas
      else match parse_addr (ifa_addr ifa) with
           | Some address =>
               match parse_addr (ifa_netmask ifa) with
               | Some net_mask => rest ← net_states ifas; Ok (mkNetwork address net_mask :: rest)
               | None => Panic
               end
           | None => net_states ifas
           end
  end.
Definition get_local_net_state (ifas : option (list IfAddr)) : Res io.ErrorKind (list Network) :=
  match ifas with Some ifas => net_states ifas | None => Err io.Other end.

(** Whether two addresses are in the same subnet. *)
Definition in_same_subnet (addr1 addr2 subnet_mask : Ipv4Addr) : bool :=
  bool_decide (zip_with Z.land (octets addr1) (octets subnet_mask) =
               zip_with Z.land (octets addr2) (octets subnet_mask)).

(** ** The gateway *)

(** [igd::AddPortError]; the client only tells one kind from the others. *)
Inductive AddPortError := OnlyPermanentLeasesSupported | OtherAddPortError.

(** [igd::RemovePortError]; the client ignores it. *)
Inductive RemovePortError := NoSuchPortMapping | OtherRemovePortError.

(** [igd::Gateway] with what surrounds it: [add_port external local lease] and
    [remove_port external] for TCP, and the clock. *)
Class Gateway (W : Type) := {
  gw_addr : W → SocketAddr;
  get_external_ip : W → option IpAddr * W;
  add_port : Z → SocketAddr → Z → W → option AddPortError * W;
  remove_port : Z → W → option RemovePortError * W;
  instant_now : W → Z * W;
}.

(** ** The client *)

Record IgdClient (W : Type) := mkIgd {
  gateway : W;
  net : Network;
  only_leases_support : bool;
  succeeded : gset SocketAddr;
  leases : gmap SocketAddr (option Z) }.
Arguments mkIgd {W}.
Arguments gateway {W}. Arguments net {W}. Arguments only_leases_support {W}.
Arguments succeeded {W}. Arguments leases {W}.

Definition secs (n : Z) : Z := n * 10 ^ 9.
Definition RENEW_AFTER : Z := secs 40.
Definition LEASE : Z := 60.

(** [Instant::saturating_duration_since]. *)
Definition saturating_since (now t : Z) : Z := Z.max 0 (now - t).

Definition is_multicast4 (a : Ipv4Addr) : bool := (224 <=? oct_a a) && (oct_a a <=? 239).
Definition is_loopback (a : IpAddr) : bool := match a with V4 a => is_loopback4 a | V6 a => is_loopback6 a end.
Definition is_multicast (a : IpAddr) : bool := match a with V4 a => is_multicast4 a | V6 a => is_multicast6 a end.

Section client.
Context `{!AddrCodecs} {W E : Type} `{!Gateway W}.
Abbreviation St := (IgdClient W).

Definition set_gateway (w : W) (c : St) : St := mkIgd w (net c) (only_leases_support c) (succeeded c) (leases c).
Definition set_only_leases (b : bool) (c : St) : St := mkIgd (gateway c) (net c) b (succeeded c) (leases c).
Definition upd_succeeded (f : gset SocketAddr → gset SocketAddr) (c : St) : St :=
  mkIgd (gateway c) (net c) (only_leases_support c) (f (succeeded c)) (leases c).
Definition upd_leases (f : gmap SocketAddr (option Z) → gmap SocketAddr (option Z)) (c : St) : St :=
  mkIgd (gateway c) (net c) (only_leases_support c) (succeeded c) (f (leases c)).

(** A call of the gateway. *)
Definition on_gateway {A} (f : W → A * W) : M St E A := λ c,
  let '(a, w) := f (gateway c) in (Ok a, set_gateway w c).

(** The multiaddr library panics on a malformed address. *)
Definition socket_of (address : Multiaddr) : M St E (option SocketAddr) := λ c,
  match multiaddr_to_socketaddr address with Some (Ok a) => (Ok a, c) | _ => (Panic, c) end.

(** [IgdClient::new]: [found] is what [search_gateway] finds, [ifas] what [getifaddrs] lists. *)
Definition igd_new (found : option W) (ifas : option (list IfAddr)) : Res io.ErrorKind (option St) :=
  match found with
  | None => Ok None
  | Some w =>
      if is_reachable (ip (gw_addr w)) then Ok None
      else match get_external_ip w with
           | (Some external, w) =>
               if is_reachable external then
                 match get_local_net_state ifas with
                 | Ok networks =>
                     match List.find (λ network,
                       match ip (gw_addr w) with
                       | V4 ip => in_same_subnet (address network) ip (net_mask network)
                       | V6 _ => false
                       end) networks with
                     | Some state => Ok (Some (mkIgd w state false ∅ ∅))
                     | None => Ok None
                     end
                 | Err _ => Ok None
                 | Panic => Panic
                 end
               else Ok None
           | (None, _) => Ok None
           end
  end.

(** The local end of a mapping. *)
Definition local_of (c : St) (addr : SocketAddr) : SocketAddr := mkSocketAddr (V4 (address (net c))) (port addr).

(** The body of the loop of [process_only_leases_support]. *)
Definition renew_lease (entry : SocketAddr * option Z) : M St E unit :=
  let '(addr, interval) := entry in
  register ← match interval with
             | Some inner => now ← on_gateway instant_now; mret (RENEW_AFTER <? saturating_since now inner)
             | None => mret true
             end;
  when register (
    c ← get;
    _ ← on_gateway (add_port (port addr) (local_of c addr) LEASE);
    now ← on_gateway instant_now;
    modify (upd_leases <[addr := Some now]>)).

Fixpoint renew_leases (entries : list (SocketAddr * option Z)) : M St E unit :=
  match entries with
  | [] => mret ()
  | entry :: entries => _ ← renew_lease entry; renew_leases entries
  end.
Definition process_only_leases_support : M St E unit :=
  c ← get; renew_leases (map_to_list (leases c)).

Definition register (address : Multiaddr) : M St E unit :=
  addr ← socket_of address;
  match addr with
  | None => mret ()
  | Some addr =>
      c ← get;
      if bool_decide (addr ∈ succeeded c) || bool_decide (is_Some (leases c !! addr)) then mret ()
      else if is_loopback (ip addr) || is_multicast (ip addr) then mret ()
      else if only_leases_support c then
        _ ← modify (upd_leases <[addr := None]>);
        process_only_leases_support
      else
        res ← on_gateway (add_port (port addr) (local_of c addr) 0);
        match res with
        | Some OnlyPermanentLeasesSupported =>
            _ ← modify (upd_leases <[addr := None]>);
            _ ← process_only_leases_support;
            modify (set_only_leases true)
        | Some OtherAddPortError => mret ()
        | None => modify (upd_succeeded (λ s, {[addr]} ∪ s))
        end
  end.

Definition remove (address : Multiaddr) : M St E unit :=
  addr ← socket_of address;
  match addr with
  | None => mret ()
  | Some addr =>
      c ← get;
      let from_succeeded := bool_decide (addr ∈ succeeded c) in
      let from_leases := negb from_succeeded && bool_decide (is_Some (leases c !! addr)) in
      _ ← modify (upd_succeeded (λ s, s ∖ {[addr]}));
      _ ← when from_leases (modify (upd_leases (delete addr)));
      when (from_succeeded || from_leases) (_ ← on_gateway (remove_port (port addr)); mret ())
  end.

Fixpoint remove_ports (addrs : list SocketAddr) : M St E unit :=
  match addrs with
  | [] => mret ()
  | addr :: addrs => _ ← on_gateway (remove_port (port addr)); remove_ports addrs
  end.

(** [clear]; dropping the client calls it. *)
Definition clear : M St E unit :=
  c ← get;
  _ ← modify (upd_succeeded (λ _, ∅));
  _ ← modify (upd_leases (λ _, ∅));
  remove_ports (elements (succeeded c) ++ (map_to_list (leases c)).*1).

(** What the service calls: a listener started or ended, its listens changed. *)
Inductive IgdCall := CRegister (address : Multiaddr) | CRemove (address : Multiaddr) | CProcess.
Definition igd_call (call : IgdCall) : M St E unit :=
  match call with
  | CRegister address => register address
  | CRemove address => remove address
  | CProcess => process_only_leases_support
  end.
Fixpoint igd_calls (calls : list IgdCall) : M St E unit :=
  match calls with
  | [] => mret ()
  | call :: calls => _ ← igd_call call; igd_calls calls
  end.
End client.

(** ** What a gateway does *)

(** The gateway's table: who gets the connections to an external port; and the ports
    for which a call has failed, so that it is not known what it did. Mappings
    may lapse at any time. [tame p w w'] says that only the port [p] may have got a
    new mapping. *)
Class GatewayTable (W : Type) := {
  mappings : W → gmap Z SocketAddr;
  clock : W → Z;
  failed : W → gset Z;
}.

Definition tame {W} `{!GatewayTable W} (p : option Z) (w w' : W) : Prop :=
  clock w ≤ clock w' ∧ failed w ⊆ failed w' ∧
  ∀ q, p ≠ Some q → mappings w' !! q = None ∨ mappings w' !! q = mappings w !! q.

(** A call works on its own port. A removal that succeeds, or finds nothing to
    remove, leaves the port unmapped; one that fails may leave the mapping. A gateway
    that has only permanent mappings does not make a lease. The clock does not go
    back. *)
Class GatewayLaws (W : Type) `{Gateway W, GatewayTable W} : Prop := {
  add_port_law p a l w :
    match (add_port p a l w).1 with
    | None => tame (Some p) w (add_port p a l w).2
    | Some OnlyPermanentLeasesSupported => tame None w (add_port p a l w).2
    | Some OtherAddPortError => tame (Some p) w (add_port p a l w).2 ∧ p ∈ failed (add_port p a l w).2
    end;
  remove_port_law p w :
    tame None w (remove_port p w).2 ∧
    match (remove_port p w).1 with
    | None | Some NoSuchPortMapping => mappings (remove_port p w).2 !! p = None
    | Some OtherRemovePortError => p ∈ failed (remove_port p w).2
    end;
  instant_now_law w : tame None w (instant_now w).2 ∧ clock w ≤ (instant_now w).1 ≤ clock (instant_now w).2;
}.

Section facts.
Context {AC : AddrCodecs} {AL : AddrCodecsLaws} {W E : Type} {GW : Gateway W} {GT : GatewayTable W} {GL : GatewayLaws W}.
Implicit Types c : IgdClient W.

(** The addresses that the client keeps. *)
Definition tracked c (a : SocketAddr) : Prop := a ∈ succeeded c ∨ a ∈ dom (leases c).

(** A port is as it was in [w0] or unmapped, or a call for it failed. *)
Definition restored (w0 w : W) (q : Z) : Prop :=
  q ∈ failed w ∨ mappings w !! q = None ∨ mappings w !! q = mappings w0 !! q.

(** The ports that no tracked address has are restored. *)
Definition tidy (w0 : W) c : Prop := ∀ q, (∀ a, tracked c a → port a ≠ q) → restored w0 (gateway c) q.

Lemma restored_tame w0 w w' p q : tame p w w' → p ≠ Some q → restored w0 w q → restored w0 w' q.
Proof.
  intros (_ & Hf & Ht) Hp [?|H]; [left; set_solver|]. rw /restored. destruct (Ht q Hp) as [?| ->]; [by right; left|by right].
Qed.

Lemma tidy_gateway w0 c p w' :
  tidy w0 c → tame p (gateway c) w' → (∀ q, p = Some q → q ∈ failed w' ∨ ∃ a, tracked c a ∧ port a = q) →
  tidy w0 (set_gateway w' c).
Proof.
  intros Hc Ht Hp q Hq. cbn [gateway set_gateway]. destruct (decide (p = Some q)) as [->|Hne].
  - destruct (Hp q eq_refl) as [?|(a & Ha & Haq)]; [by left|]. by destruct (Hq a Ha).
  - eapply restored_tame; [done..|]. by apply Hc.
Qed.

Lemma tame_weaken p w w' : tame None w w' → tame p w w'.
Proof. intros (Hc & Hf & Ht). split_and!; [done..|]. intros q _. by apply Ht. Qed.

Lemma tame_add p a l w : tame (Some p) w (add_port p a l w).2.
Proof. pose proof (add_port_law p a l w) as H. destruct (add_port p a l w).1 as [[]|]; [by apply tame_weaken|apply H|done]. Qed.

(** More addresses are tracked. *)
Lemma tidy_more w0 c c' : tidy w0 c → gateway c' = gateway c → (∀ a, tracked c a → tracked c' a) → tidy w0 c'.
Proof. intros Hc Hg Ht q Hq. rw Hg. apply Hc. auto. Qed.

(** A call of the gateway succeeds. *)
Lemma wp_on_gateway {A} (f : W → A * W) (Q : Res E A → IgdClient W → Prop) c :
  Q (Ok (f (gateway c)).1) (set_gateway (f (gateway c)).2 c) → wp (on_gateway f) Q c.
Proof. rw /wp /on_gateway. by destruct (f (gateway c)). Qed.

Lemma wp_socket_of m (Q : Res E (option SocketAddr) → IgdClient W → Prop) c :
  addr_wf m → (∀ a, Q (Ok a) c) → wp (socket_of m) Q c.
Proof. intros [ps H] HQ. rw /wp /socket_of (multiaddr_to_socketaddr_Comps _ _ H). apply HQ. Qed.

(** The loop over the leases keeps the addresses and renews the old leases. *)
Definition renewed (w0 : W) c c' : Prop :=
  tidy w0 c' ∧ succeeded c' = succeeded c ∧ dom (leases c') = dom (leases c) ∧ net c' = net c ∧
  clock (gateway c) ≤ clock (gateway c').

Lemma renewed_refl w0 c : tidy w0 c → renewed w0 c c.
Proof. intros H. split_and!; done || lia. Qed.
Lemma renewed_trans w0 c1 c2 c3 : renewed w0 c1 c2 → renewed w0 c2 c3 → renewed w0 c1 c3.
Proof.
  intros (_ & H1 & H2 & H3 & H4) (H & H5 & H6 & H7 & H8). split_and!; [done|congruence..|lia].
Qed.

Lemma renewed_now w0 c : tidy w0 c → renewed w0 c (set_gateway (instant_now (gateway c)).2 c).
Proof.
  intros H. destruct (instant_now_law (gateway c)) as [Ht _]. split_and!; [|done..|apply Ht].
  by eapply tidy_gateway.
Qed.

Lemma renewed_add w0 c a l : tidy w0 c → a ∈ dom (leases c) →
  renewed w0 c (set_gateway (add_port (port a) (local_of c a) l (gateway c)).2 c).
Proof.
  intros H Ha. pose proof (tame_add (port a) (local_of c a) l (gateway c)) as Ht. split_and!; [|done..|apply Ht].
  eapply tidy_gateway; [done..|]. intros q [= <-]. right. exists a. split; [by right|done].
Qed.

Lemma renewed_stamp w0 c a t : tidy w0 c → a ∈ dom (leases c) → renewed w0 c (upd_leases <[a := Some t]> c).
Proof.
  intros H Ha. assert (dom (<[a:=Some t]> (leases c)) = dom (leases c)) as Hd by set_solver.
  split_and!; [|done..]. eapply tidy_more; [done..|]. rw /tracked /= Hd. done.
Qed.

Definition lease_post w0 c a : unit → IgdClient W → Prop := λ _ c',
  renewed w0 c c' ∧ (∀ b, b ≠ a → leases c' !! b = leases c !! b) ∧
  ∃ t, leases c' !! a = Some (Some t) ∧ clock (gateway c) - RENEW_AFTER ≤ t.

Lemma add_lease_ok w0 a c0 c :
  renewed w0 c0 c → leases c = leases c0 → a ∈ dom (leases c) →
  wp (c ← get;
      _ ← on_gateway (add_port (port a) (local_of c a) LEASE);
      now ← on_gateway instant_now;
      modify (upd_leases <[a := Some now]>) : M _ E unit) (post (lease_post w0 c0 a) (λ _ _, False)) c.
Proof.
  intros H0 Hl Ha. wp_step. wp_step. wp_step. apply wp_on_gateway. cbv beta iota. wp_step. apply wp_on_gateway. cbv beta iota.
  pose proof (renewed_add w0 c a LEASE (proj1 H0) Ha) as H1. set (c1 := set_gateway _ c) in *.
  pose proof (renewed_now w0 c1 (proj1 H1)) as H2. destruct (instant_now_law (gateway c1)) as [_ Ht].
  set (c2 := set_gateway _ c1) in *. set (t := (instant_now (gateway c1)).1) in *.
  pose proof (renewed_stamp w0 c2 a t (proj1 H2) Ha) as H3. wp_step. cbn [post].
  split; [by do 3 (eapply renewed_trans; [done|])|]. rw -Hl. split.
  - intros b Hb. by apply lookup_insert_ne.
  - exists t. rw /= lookup_insert_eq. split; [done|]. destruct H0 as (_ & _ & _ & _ & ?), H1 as (_ & _ & _ & _ & ?).
    rw /RENEW_AFTER /secs. lia.
Qed.

Lemma renew_lease_ok w0 a i c :
  tidy w0 c → leases c !! a = Some i →
  wp (renew_lease (E:=E) (a, i)) (post (lease_post w0 c a) (λ _ _, False)) c.
Proof.
  intros H Ha. assert (a ∈ dom (leases c)) as Hd by (apply elem_of_dom; eauto). rw /renew_lease. wp_step.
  destruct i as [i|]; [|wp_step; apply add_lease_ok; [by apply renewed_refl|done..]].
  wp_step. apply wp_on_gateway. cbv beta iota. wp_step. wp_step; [by apply add_lease_ok, Hd; [apply renewed_now|]|].
  cbn [post]. split; [by apply renewed_now|]. split; [done|]. exists i. split; [done|].
  destruct (instant_now_law (gateway c)) as [_ Ht]. rw /saturating_since in H0. lia.
Qed.

Lemma renew_leases_ok w0 l c :
  tidy w0 c → NoDup l.*1 → (∀ a i, (a, i) ∈ l → leases c !! a = Some i) →
  wp (renew_leases (E:=E) l) (post (λ _ c', renewed w0 c c' ∧
    (∀ b, b ∉ l.*1 → leases c' !! b = leases c !! b) ∧
    ∀ a, a ∈ l.*1 → ∃ t, leases c' !! a = Some (Some t) ∧ clock (gateway c) - RENEW_AFTER ≤ t) (λ _ _, False)) c.
Proof.
  revert c. induction l as [|[a i] l IH]; intros c H Hnd Hl; cbn [renew_leases].
  { wp_step. split_and!; [by apply renewed_refl|done|set_solver]. }
  inversion Hnd as [|?? Hn Hnd']; subst. wp_step.
  wp_apply (renew_lease_ok w0 a i c H); [apply Hl; set_solver|].
  intros [u|e|] c1; [|done..]. intros (H1 & Hne & t & Ht & Hc).
  wp_apply (IH c1); [apply H1|done| |].
  { intros b j Hb. rw Hne; [|intros ->; apply Hn, list_elem_of_fmap; by exists (a, j)]. apply Hl. set_solver. }
  intros [v|e|] c2; [|done..]. intros (H2 & Hne2 & Hold). cbn [post]. split; [by eapply renewed_trans|]. split.
  - intros b Hb. cbn in Hb. rw Hne2; [|set_solver]. apply Hne. set_solver.
  - intros b [->|Hb]%elem_of_cons.
    + exists t. by rw Hne2.
    + destruct (Hold b Hb) as (t' & Ht' & Hc'). exists t'. split; [done|]. destruct H1 as (_ & _ & _ & _ & ?). lia.
Qed.

Lemma process_ok w0 c :
  tidy w0 c →
  wp (process_only_leases_support (E:=E)) (post (λ _ c', renewed w0 c c' ∧
    ∀ a, a ∈ dom (leases c) → ∃ t, leases c' !! a = Some (Some t) ∧ clock (gateway c) - RENEW_AFTER ≤ t) (λ _ _, False)) c.
Proof.
  intros H. rw /process_only_leases_support. wp_step. wp_step.
  wp_apply (renew_leases_ok w0 _ c H).
  - apply NoDup_fst_map_to_list.
  - intros a i. by rw elem_of_map_to_list.
  - intros [u|e|] c'; [|done..]. intros (H1 & _ & H2). split; [done|]. intros a Ha. apply H2.
    apply elem_of_dom in Ha as [i Hi]. apply list_elem_of_fmap. exists (a, i). by rw elem_of_map_to_list.
Qed.

(** ** The invariant of the client *)

(** An address that [register] takes. *)
Definition mappable (a : SocketAddr) : Prop := is_loopback (ip a) || is_multicast (ip a) = false.

Definition igd_inv (w0 : W) c : Prop :=
  tidy w0 c ∧ (∀ a, tracked c a → mappable a) ∧ succeeded c ## dom (leases c).

Lemma renewed_inv w0 c c' : igd_inv w0 c → renewed w0 c c' → igd_inv w0 c'.
Proof.
  intros (_ & Hm & Hd) (Ht & Hs & Hl & _). split; [done|]. rw /tracked Hs Hl. done.
Qed.

Lemma lease_insert_inv w0 c a :
  igd_inv w0 c → mappable a → a ∉ succeeded c → igd_inv w0 (upd_leases <[a := None]> c).
Proof.
  intros (Ht & Hm & Hd) Ha Hn. split_and!.
  - eapply tidy_more; [done..|]. intros b [?|?]; [by left|right]. set_solver.
  - intros b [?|Hb]; [apply Hm; by left|]. cbn in Hb. rewrite dom_insert elem_of_union elem_of_singleton in Hb.
    destruct Hb as [->|]; [done|]. apply Hm. by right.
  - cbn. set_solver.
Qed.

Lemma only_leases_inv w0 c b : igd_inv w0 c → igd_inv w0 (set_only_leases b c).
Proof. done. Qed.

Lemma process_inv w0 c : igd_inv w0 c → wp (process_only_leases_support (E:=E)) (post (λ _, igd_inv w0) (λ _ _, False)) c.
Proof.
  intros H. wp_apply (process_ok w0 c); [apply H|]. intros [u|e|] c'; [|done..]. intros [? _]. by eapply renewed_inv.
Qed.

Lemma tame_None_inv w0 c w' : igd_inv w0 c → tame None (gateway c) w' → igd_inv w0 (set_gateway w' c).
Proof. intros (Ht & H) Hw. split; [|exact H]. by eapply tidy_gateway. Qed.

(** A permanent mapping was made. *)
Lemma succeeded_inv w0 c a w' :
  igd_inv w0 c → mappable a → a ∉ dom (leases c) → tame (Some (port a)) (gateway c) w' →
  igd_inv w0 (upd_succeeded (λ s, {[a]} ∪ s) (set_gateway w' c)).
Proof.
  intros (Ht & Hm & Hd) Ha Hl Htame.
  assert (∀ b, tracked (upd_succeeded (λ s, {[a]} ∪ s) (set_gateway w' c)) b ↔ b = a ∨ tracked c b) as Htr
    by (intros b; rw /tracked /=; set_solver). split_and!.
  - intros q Hq. cbn [gateway upd_succeeded set_gateway]. assert (port a ≠ q) as Hne by (apply Hq, Htr; by left).
    eapply restored_tame; [done|by intros [=]|]. apply Ht. intros b Hb. apply Hq, Htr. by right.
  - intros b [->|Hb]%Htr; [done|by apply Hm].
  - cbn. set_solver.
Qed.

Lemma register_inv w0 m c : addr_wf m → igd_inv w0 c → wp (register (E:=E) m) (post (λ _, igd_inv w0) (λ _ _, False)) c.
Proof.
  intros Hm H. rw /register. wp_step. apply wp_socket_of; [done|]. intros [a|]; [|by wp_step].
  wp_step. wp_step. wp_step; [by wp_step|]. wp_step; [by wp_step|].
  apply orb_false_elim in Heqb as [Hs%bool_decide_eq_false Hl%bool_decide_eq_false].
  rewrite <- elem_of_dom in Hl. wp_step.
  { wp_step. wp_step. by apply process_inv, lease_insert_inv. }
  pose proof (add_port_law (port a) (local_of c a) 0 (gateway c)) as Ht. wp_step. apply wp_on_gateway. cbv beta iota.
  destruct (add_port _ _ _ _) as [[[]|] w']; cbn [fst snd] in *.
  - wp_step. wp_step. wp_step. wp_apply process_inv; [by apply lease_insert_inv; [apply tame_None_inv|..]|].
    intros [u|e|] c'; [|done..]. intros Hc'. wp_step. by apply only_leases_inv.
  - wp_step. destruct Ht as [Ht Hf], H as [Hti H]. split; [|exact H]. eapply tidy_gateway; [done..|].
    intros q [= <-]. by left.
  - wp_step. by apply succeeded_inv.
Qed.

(** An address was dropped, and its port unmapped. *)
Lemma untrack_inv w0 c c1 a :
  igd_inv w0 c → gateway c1 = gateway c → (∀ b, tracked c1 b → tracked c b) →
  (∀ b, tracked c b → b = a ∨ tracked c1 b) → succeeded c1 ## dom (leases c1) →
  igd_inv w0 (set_gateway (remove_port (port a) (gateway c1)).2 c1).
Proof.
  intros (Ht & Hm & _) Hg Hsub Hsup Hd. destruct (remove_port_law (port a) (gateway c1)) as [Hr Hn]. split_and!.
  - intros q Hq. cbn [gateway set_gateway]. destruct (decide (port a = q)) as [<-|Hne].
    { destruct (remove_port _ _).1 as [[]|]; [right; by left|by left|right; by left]. }
    eapply restored_tame; [done..|]. rw Hg. apply Ht. intros b [->|Hb]%Hsup; [done|by apply Hq].
  - intros b Hb. by apply Hm, Hsub.
  - done.
Qed.

Lemma remove_inv w0 m c : addr_wf m → igd_inv w0 c → wp (remove (E:=E) m) (post (λ _, igd_inv w0) (λ _ _, False)) c.
Proof.
  intros Hm H. rw /remove. wp_step. apply wp_socket_of; [done|]. intros [a|]; [|by wp_step].
  wp_step. wp_step. cbv zeta. wp_step. wp_step. wp_step. pose proof H as (_ & _ & Hd).
  destruct (bool_decide_reflect (a ∈ succeeded c)) as [Hs|Hs]; cbn [negb andb orb when].
  { wp_step. cbn [orb when]. wp_step. apply wp_on_gateway. wp_step. eapply untrack_inv; [done|done|..]; rw /tracked /=.
    all: try intros b; try destruct (decide (b = a)); set_solver. }
  destruct (bool_decide_reflect (is_Some (leases c !! a))) as [Hl|Hl]; cbn [when].
  - rewrite <- elem_of_dom in Hl. wp_step. cbn [orb when]. wp_step. apply wp_on_gateway. wp_step.
    eapply untrack_inv; [done|done|..]; rw /tracked /= dom_delete_L.
    all: try intros b; try destruct (decide (b = a)); set_solver.
  - wp_step. cbn [orb when]. wp_step. destruct H as (Ht & Hmp & _). split_and!; [| |cbn; set_solver].
    + eapply tidy_more; [done..|]. rw /tracked /=. set_solver.
    + intros b Hb. apply Hmp. rw /tracked /= in Hb *. set_solver.
Qed.

(** [clear] unmaps the ports of a list of addresses. *)
Lemma remove_ports_ok w0 l c :
  (∀ q, restored w0 (gateway c) q ∨ ∃ a, a ∈ l ∧ port a = q) →
  wp (remove_ports (E:=E) l) (post (λ _ c', succeeded c' = succeeded c ∧ leases c' = leases c ∧
    ∀ q, restored w0 (gateway c') q) (λ _ _, False)) c.
Proof.
  revert c. induction l as [|a l IH]; intros c Hq; cbn [remove_ports].
  { wp_step. split_and!; [done..|]. intros q. destruct (Hq q) as [?|(b & []%elem_of_nil & _)]. done. }
  wp_step. apply wp_on_gateway. cbv beta iota. wp_apply IH; [|done]. intros q. cbn [gateway set_gateway].
  destruct (remove_port_law (port a) (gateway c)) as [Ht Hn]. destruct (decide (port a = q)) as [<-|Hne].
  { left. destruct (remove_port _ _).1 as [[]|]; [right; by left|by left|right; by left]. }
  destruct (Hq q) as [?|(b & [->|Hb]%elem_of_cons & Hbq)]; [left; by eapply restored_tame|done|right; eauto].
Qed.

Definition call_wf (call : IgdCall) : Prop :=
  match call with CRegister m | CRemove m => addr_wf m | CProcess => True end.

Lemma igd_call_inv w0 call c :
  call_wf call → igd_inv w0 c → wp (igd_call (E:=E) call) (post (λ _, igd_inv w0) (λ _ _, False)) c.
Proof. destruct call; cbn [igd_call call_wf]; intros; [by apply register_inv|by apply remove_inv|by apply process_inv]. Qed.

Lemma igd_calls_inv w0 calls c :
  Forall call_wf calls → igd_inv w0 c → wp (igd_calls (E:=E) calls) (post (λ _, igd_inv w0) (λ _ _, False)) c.
Proof.
  intros Hw. revert c. induction Hw as [|call calls Hc _ IH]; intros c H; cbn [igd_calls]; [by wp_step|].
  wp_step. wp_apply igd_call_inv; [done..|]. intros [u|e|] c'; [|done..]. apply IH.
Qed.

Lemma fresh_inv w n b : igd_inv w (mkIgd w n b ∅ ∅).
Proof. split_and!; [|rw /tracked /=; set_solver..]. intros q _. by do 2 right. Qed.

Lemma clear_ok w0 c :
  igd_inv w0 c → wp (clear (E:=E)) (post (λ _ c', succeeded c' = ∅ ∧ leases c' = ∅ ∧
    ∀ q, restored w0 (gateway c') q) (λ _ _, False)) c.
Proof.
  intros (Ht & _). rw /clear. do 6 wp_step. wp_apply (remove_ports_ok w0); [|done].
  set (l := elements _ ++ _). intros q. cbn [gateway upd_leases upd_succeeded].
  assert (∀ a, tracked c a → a ∈ l) as Hl.
  { intros a Ha. rewrite elem_of_app elem_of_elements. destruct Ha as [?|[i Hi]%elem_of_dom]; [by left|right].
    apply list_elem_of_fmap. exists (a, i). by rw elem_of_map_to_list. }
  destruct (decide (Exists (λ a, port a = q) l)) as [(a & Ha & Hq)%Exists_exists|Hno]; [right; eauto|left].
  apply Ht. intros a Ha Hq. apply Hno, Exists_exists. eauto.
Qed.

(** C34. A client that was given any well-formed addresses to register and remove,
    in any order, and then is dropped leaves nothing behind that the gateway did
    not refuse to take back: no call panics, only addresses that are neither loopback
    nor multicast are kept, no address is kept as permanent and as leased at once,
    and in the end every port of the gateway is unmapped or mapped as before, except
    ports for which a call of the gateway failed, since the client ignores these
    failures. *)
Theorem igd_leaves_nothing (w : W) (n : Network) (calls : list IgdCall) :
  Forall call_wf calls → failed w = ∅ →
  ∃ c c', igd_calls (E:=E) calls (mkIgd w n false ∅ ∅) = (Ok (), c) ∧ clear (E:=E) c = (Ok (), c') ∧
    (∀ a, tracked c a → mappable a) ∧ succeeded c ## dom (leases c) ∧
    (∀ a, ¬ tracked c' a) ∧
    ∀ q, q ∉ failed (gateway c') → mappings (gateway c') !! q = None ∨ mappings (gateway c') !! q = mappings w !! q.
Proof.
  intros Hw _. pose proof (igd_calls_inv w calls _ Hw (fresh_inv w n false)) as H. rw /wp in H.
  destruct (igd_calls calls _) as [[[]|e|] c]; [|done..]. pose proof (clear_ok w c H) as Hc. rw /wp in Hc.
  destruct (clear c) as [[[]|e|] c'] eqn:Hcl; [|done..]. destruct Hc as (Hs & Hl & Hq). destruct H as (_ & Hm & Hd).
  exists c, c'. rw /tracked Hs Hl. split_and!; try done; [set_solver|]. intros q Hf. by destruct (Hq q).
Qed.

(** A pass over the leases keeps the addresses, and afterwards each of them was
    asked for less than 40 seconds before the pass began: a mapping of 60 seconds is
    renewed in time if passes are 20 seconds apart. *)
Theorem igd_pass_renews (w0 : W) (c : IgdClient W) :
  igd_inv w0 c →
  ∃ c', process_only_leases_support (E:=E) c = (Ok (), c') ∧ igd_inv w0 c' ∧ dom (leases c') = dom (leases c) ∧
    ∀ a i, leases c' !! a = Some i → ∃ t, i = Some t ∧ clock (gateway c) - t ≤ secs 40.
Proof.
  intros H. pose proof (process_ok w0 c (proj1 H)) as Hp. rw /wp in Hp.
  destruct (process_only_leases_support c) as [[[]|e|] c']; [|done..]. destruct Hp as [Hr Ht]. exists c'.
  split_and!; [done|by eapply renewed_inv|apply Hr|]. intros a i Hi. destruct Hr as (_ & _ & Hd & _).
  destruct (Ht a) as (t & Ht' & Hc); [rw -Hd; apply elem_of_dom; eauto|]. exists t. rw Ht' in Hi. split; [by injection Hi|].
  rw /RENEW_AFTER in Hc. lia.
Qed.

(** *** A gateway that answers as its library documents *)

(** [OnlyPermanentLeasesSupported] refuses a lease, so a request for a permanent
    mapping never gets it. *)
Hypothesis permanent_served : ∀ p a w, (add_port p a 0 w).1 ≠ Some OnlyPermanentLeasesSupported.

Definition leases_unused c : Prop := leases c = ∅ ∧ only_leases_support c = false.

Lemma process_unused c : leases c = ∅ → process_only_leases_support (E:=E) c = (Ok (), c).
Proof. intros H. rw /process_only_leases_support bind_get H map_to_list_empty. done. Qed.

Lemma igd_call_unused call c :
  call_wf call → leases_unused c → wp (igd_call (E:=E) call) (post (λ _, leases_unused) (λ _ _, False)) c.
Proof.
  intros Hw H. pose proof H as [Hl Ho]. destruct call as [m|m|]; cbn [igd_call].
  - rw /register. wp_step. apply wp_socket_of; [done|]. intros [a|]; [|by wp_step]. wp_step. wp_step.
    wp_step; [by wp_step|]. wp_step; [by wp_step|]. rw Ho. wp_step. apply wp_on_gateway. cbv beta iota.
    pose proof (permanent_served (port a) (local_of c a) (gateway c)) as Hp.
    destruct (add_port _ _ _ _) as [[[]|] w']; cbn [fst snd] in *; by wp_step.
  - rw /remove. wp_step. apply wp_socket_of; [done|]. intros [a|]; [|by wp_step]. wp_step. wp_step. cbv zeta.
    rw Hl lookup_empty (bool_decide_eq_false_2 _ is_Some_None) andb_false_r orb_false_r. wp_step. wp_step. wp_step.
    cbn [when]. wp_step. wp_step; [|done]. wp_step. by apply wp_on_gateway.
  - by rw /wp process_unused.
Qed.

(** With such a gateway the code for leases never runs. *)
Theorem igd_leases_unused (w : W) (n : Network) (calls : list IgdCall) :
  Forall call_wf calls → ∃ c, igd_calls (E:=E) calls (mkIgd w n false ∅ ∅) = (Ok (), c) ∧ leases_unused c.
Proof.
  intros Hw. assert (leases_unused (mkIgd w n false ∅ ∅)) as H by done. revert H. generalize (mkIgd w n false ∅ ∅).
  induction Hw as [|call calls Hc _ IH]; intros c H; cbn [igd_calls]; [by exists c|].
  pose proof (igd_call_unused call c Hc H) as H1. rw /wp in H1. destruct (igd_call call c) as [[[]|e|] c'] eqn:E1; [|done..].
  rw (M_bind_Ok _ _ _ _ _ E1). by apply IH.
Qed.
End facts.

(** ** A gateway *)

(** A table, and whether it takes permanent mappings; the clock stands still, and it
    does not let port 80 be removed. *)
Record DemoGateway := mkDemo { d_table : gmap Z SocketAddr; d_clock : Z; d_permanent : bool; d_failed : gset Z }.
#[global] Instance DemoGatewayOps : Gateway DemoGateway := {|
  gw_addr _ := mkSocketAddr (V4 (mkIp4 192 168 1 1)) 1900;
  get_external_ip w := (Some (V4 (mkIp4 8 8 8 8)), w);
  add_port p a l w :=
    if d_permanent w || negb (l =? 0) then (None, mkDemo (<[p := a]> (d_table w)) (d_clock w) (d_permanent w) (d_failed w))
    else (Some OnlyPermanentLeasesSupported, w);
  remove_port p w :=
    if p =? 80 then (Some OtherRemovePortError, mkDemo (d_table w) (d_clock w) (d_permanent w) ({[p]} ∪ d_failed w))
    else match d_table w !! p with
         | Some _ => (None, mkDemo (delete p (d_table w)) (d_clock w) (d_permanent w) (d_failed w))
         | None => (Some NoSuchPortMapping, w)
         end;
  instant_now w := (d_clock w, w);
|}.
#[global] Instance DemoGatewayTable : GatewayTable DemoGateway := {| mappings := d_table; clock := d_clock; failed := d_failed |}.
#[global] Instance DemoGatewayLaws : GatewayLaws DemoGateway.
Proof.
  split.
  - intros p a l w. rw /add_port /=. destruct (d_permanent w || _); cbn; (split_and!; [done..|]); [|by right].
    intros q Hq. right. apply lookup_insert_ne. congruence.
  - intros p w. rw /remove_port /=. destruct (p =? 80); [|destruct (d_table w !! p) eqn:Hp]; cbn.
    + split; [|set_solver]. split_and!; [done|set_solver|by right].
    + split; [|apply lookup_delete_eq]. split_and!; [done..|]. intros q _. destruct (decide (p = q)) as [->|].
      * left. apply lookup_delete_eq.
      * right. by apply lookup_delete_ne.
    + split; [|done]. split_and!; [done..|by right].
  - intros w. split; [split_and!; [done..|by right]|]. cbn. lia.
Qed.

Definition demo_net : Network := mkNetwork (mkIp4 192 168 1 7) (mkIp4 255 255 255 0).
Definition demo_v4 : Multiaddr := socketaddr_to_multiaddr (mkSocketAddr (V4 (mkIp4 0 0 0 0)) 1337).
Definition demo_v6 : Multiaddr := socketaddr_to_multiaddr (mkSocketAddr (V6 (mkIp6 [0; 0; 0; 0; 0; 0; 0; 0])) 1337).
Definition demo_gateway (permanent : bool) : DemoGateway := mkDemo {[ 80 := mkSocketAddr (V4 (mkIp4 192 168 1 2)) 80 ]} 0 permanent ∅.

Definition demo_calls : list IgdCall := [CRegister demo_v4; CRegister demo_v6; CProcess; CRemove demo_v4].

Lemma demo_calls_wf : Forall call_wf demo_calls.
Proof.
  repeat constructor; eexists; apply Comps_concat; repeat constructor; unfold_int; simpl; lia.
Qed.

Lemma igd_leaves_nothing_witness :
  ∃ c c', igd_calls (E:=Empty_set) demo_calls (mkIgd (demo_gateway true) demo_net false ∅ ∅) = (Ok (), c) ∧
    clear (E:=Empty_set) c = (Ok (), c') ∧
    (∀ a, tracked c a → mappable a) ∧ succeeded c ## dom (leases c) ∧ (∀ a, ¬ tracked c' a) ∧
    ∀ q, q ∉ failed (gateway c') →
      mappings (gateway c') !! q = None ∨ mappings (gateway c') !! q = mappings (demo_gateway true) !! q.
Proof. apply (igd_leaves_nothing (demo_gateway true) demo_net demo_calls); [apply demo_calls_wf|reflexivity]. Defined.

(** The two addresses of a dual-stack listener have one port: removing one of them
    unmaps it, though the other one is still kept as mapped. *)
Lemma shared_port_unmapped :
  match igd_calls (E:=Empty_set) demo_calls (mkIgd (demo_gateway true) demo_net false ∅ ∅) with
  | (Ok _, c) => elements (succeeded c) = [mkSocketAddr (V6 (mkIp6 [0; 0; 0; 0; 0; 0; 0; 0])) 1337] ∧
      mappings (gateway c) !! 1337 = None
  | _ => False
  end.
Proof. vm_compute. done. Qed.

(** The client finds the network of its gateway, beside those of other interfaces. *)
Lemma demo_igd_new :
  let sa := λ a b c d, Some (mkSockAddr AF_INET [0; 0; a; b; c; d]) in
  igd_new (Some (demo_gateway true)) (Some [mkIfAddr (str "lo") (sa 127 0 0 1) (sa 255 0 0 0);
     mkIfAddr (str "docker0") (sa (-64) (-88) 1 9) (sa (-1) (-1) (-1) 0);
     mkIfAddr (str "eth1") (sa 10 0 0 3) (sa (-1) 0 0 0); mkIfAddr (str "eth0") (sa (-64) (-88) 1 7) (sa (-1) (-1) (-1) 0)]) =
  Ok (Some (mkIgd (demo_gateway true) demo_net false ∅ ∅)).
Proof. vm_compute. done. Qed.
