(* ===== verification/Control.v ===== *)
(** * The user's control

    [tentacle/src/service/control.rs]: [ServiceControl] and [ServiceAsyncControl],
    with which the user gives the running service its tasks. Each method sends one
    [ServiceTask] through the bounded priority channel ([ChannelBound.v]), which the
    loop of the service ([Service.v]) reads. A control is a sender handle of the
    channel and the flag [closed], which the service sets when it ends. An
    asynchronous method yields a future, which is polled. *)
From S2P Require Import Prelude Text StdNet Multiaddr MultiaddrFacts SecioMessages PeerId AddrUtils Events ProtocolHandle TentacleSession Service Channel ChannelBound ChannelBoundFacts.

(** [error::SendErrorKind]. *)
Inductive ControlError := CtlBrokenPipe | CtlWouldBlock.

(** What the controls and the service share. *)
Record Shared (A : Type) := mkShared { task_channel : Chan ServiceTask A; closed : bool }.
Arguments mkShared {A}. Arguments task_channel {A}. Arguments closed {A}.

Section control.
Context {A : Type} `{!AtomicWaker A}.
Abbreviation St := (Shared A).

Definition on_channel {E B} (m : M (Chan ServiceTask A) E B) : M St E B := λ s,
  let '(r, c) := m (task_channel s) in (r, mkShared c (closed s)).

Definition send_error {T} (e : TrySendError T) : ControlError :=
  if try_is_full e then CtlWouldBlock else CtlBrokenPipe.

(** ** [ServiceControl]; [sid] is its sender. *)

Section methods.
Context (sid : nat).

Definition control_send (event : ServiceTask) : M St ControlError unit :=
  cl ← gets closed;
  if (cl : bool) then throw CtlBrokenPipe else map_err send_error (on_channel (try_send sid event)).
Definition control_quick_send (event : ServiceTask) : M St ControlError unit :=
  cl ← gets closed;
  if (cl : bool) then throw CtlBrokenPipe else map_err send_error (on_channel (try_quick_send sid event)).

Definition control_listen (address : Multiaddr) := control_quick_send (StListen address).
Definition control_dial (address : Multiaddr) (target : TargetProtocol) := control_quick_send (StDial address target).
Definition control_raw_session (remote_address : Multiaddr) (info : RawSessionInfo) :=
  control_quick_send (StRawSession remote_address info).
Definition control_disconnect (session_id : nat) := control_quick_send (StDisconnect session_id).
Definition control_filter_broadcast (target : TargetSession) (proto_id : nat) (data : bytes) :=
  control_send (StProtocolMessage target proto_id data).
Definition control_quick_filter_broadcast (target : TargetSession) (proto_id : nat) (data : bytes) :=
  control_quick_send (StProtocolMessage target proto_id data).
Definition control_send_message_to (session_id proto_id : nat) (data : bytes) :=
  control_filter_broadcast (TsSingle session_id) proto_id data.
Definition control_quick_send_message_to (session_id proto_id : nat) (data : bytes) :=
  control_quick_filter_broadcast (TsSingle session_id) proto_id data.
Definition control_future_task (task : nat) := control_send (StFutureTask task).
Definition control_open_protocol (session_id proto_id : nat) :=
  control_quick_send (StProtocolOpen session_id (TpSingle proto_id)).
Definition control_open_protocols (session_id : nat) (target : TargetProtocol) :=
  control_quick_send (StProtocolOpen session_id target).
Definition control_close_protocol (session_id proto_id : nat) := control_quick_send (StProtocolClose session_id proto_id).
Definition control_set_service_notify (proto_id : nat) (interval token : Z) :=
  control_send (StSetProtocolNotify proto_id interval token).
Definition control_remove_service_notify (proto_id : nat) (token : Z) := control_send (StRemoveProtocolNotify proto_id token).
Definition control_set_session_notify (session_id proto_id : nat) (interval token : Z) :=
  control_send (StSetProtocolSessionNotify session_id proto_id interval token).
Definition control_remove_session_notify (session_id proto_id : nat) (token : Z) :=
  control_send (StRemoveProtocolSessionNotify session_id proto_id token).
Definition control_close := control_quick_send (StShutdown false).
Definition control_shutdown := control_quick_send (StShutdown true).
End methods.

(** ** [ServiceAsyncControl] *)

(** The future of an asynchronous method: it looks at the flag when it is first
    polled, and then sends. *)
Inductive SendPhase := PhStart (event : ServiceTask) | PhSend (msg : option ServiceTask).
Record SendFuture := mkSendFuture { fut_priority : Priority; fut_phase : SendPhase }.

Definition async_send (event : ServiceTask) : SendFuture := mkSendFuture Normal (PhStart event).
Definition async_quick_send (event : ServiceTask) : SendFuture := mkSendFuture High (PhStart event).

Definition poll_sending {E} (sid : nat) (p : Priority) (msg : option ServiceTask) (cx : Waker) :
    M St E (SendFuture * Poll (Res ControlError unit)) :=
  r ← on_channel (match p with
                  | Normal => async_send_poll sid msg cx
                  | High => async_quick_send_poll sid msg cx
                  end);
  let '(msg, res) := r in
  mret (mkSendFuture p (PhSend msg),
        match res with
        | Ready (Ok u) => Ready (Ok u)
        | Ready _ => Ready (Err CtlBrokenPipe)
        | Pending => Pending
        end).
Definition poll_future {E} (sid : nat) (cx : Waker) (fut : SendFuture) : M St E (SendFuture * Poll (Res ControlError unit)) :=
  match fut_phase fut with
  | PhStart event =>
      cl ← gets closed;
      if (cl : bool) then mret (mkSendFuture (fut_priority fut) (PhSend None), Ready (Err CtlBrokenPipe))
      else poll_sending sid (fut_priority fut) (Some event) cx
  | PhSend msg => poll_sending sid (fut_priority fut) msg cx
  end.

Definition async_listen (address : Multiaddr) := async_quick_send (StListen address).
Definition async_dial (address : Multiaddr) (target : TargetProtocol) := async_quick_send (StDial address target).
Definition async_raw_session (remote_address : Multiaddr) (info : RawSessionInfo) :=
  async_quick_send (StRawSession remote_address info).
Definition async_disconnect (session_id : nat) := async_quick_send (StDisconnect session_id).
Definition async_filter_broadcast (target : TargetSession) (proto_id : nat) (data : bytes) :=
  async_send (StProtocolMessage target proto_id data).
Definition async_quick_filter_broadcast (target : TargetSession) (proto_id : nat) (data : bytes) :=
  async_quick_send (StProtocolMessage target proto_id data).
Definition async_send_message_to (session_id proto_id : nat) (data : bytes) :=
  async_filter_broadcast (TsSingle session_id) proto_id data.
Definition async_quick_send_message_to (session_id proto_id : nat) (data : bytes) :=
  async_quick_filter_broadcast (TsSingle session_id) proto_id data.
Definition async_future_task (task : nat) := async_send (StFutureTask task).
Definition async_open_protocol (session_id proto_id : nat) :=
  async_quick_send (StProtocolOpen session_id (TpSingle proto_id)).
Definition async_open_protocols (session_id : nat) (target : TargetProtocol) :=
  async_quick_send (StProtocolOpen session_id target).
Definition async_close_protocol (session_id proto_id : nat) := async_quick_send (StProtocolClose session_id proto_id).
Definition async_set_service_notify (proto_id : nat) (interval token : Z) :=
  async_send (StSetProtocolNotify proto_id interval token).
Definition async_remove_service_notify (proto_id : nat) (token : Z) := async_send (StRemoveProtocolNotify proto_id token).
Definition async_set_session_notify (session_id proto_id : nat) (interval token : Z) :=
  async_send (StSetProtocolSessionNotify session_id proto_id interval token).
Definition async_remove_session_notify (session_id proto_id : nat) (token : Z) :=
  async_send (StRemoveProtocolSessionNotify session_id proto_id token).
Definition async_close := async_quick_send (StShutdown false).
Definition async_shutdown := async_quick_send (StShutdown true).
End control.

(** ** The calls of a user *)

Inductive ControlCall :=
| CcListen (address : Multiaddr)
| CcDial (address : Multiaddr) (target : TargetProtocol)
| CcRawSession (remote_address : Multiaddr) (info : RawSessionInfo)
| CcDisconnect (session_id : nat)
| CcFilterBroadcast (target : TargetSession) (proto_id : nat) (data : bytes)
| CcQuickFilterBroadcast (target : TargetSession) (proto_id : nat) (data : bytes)
| CcSendMessageTo (session_id proto_id : nat) (data : bytes)
| CcQuickSendMessageTo (session_id proto_id : nat) (data : bytes)
| CcFutureTask (task : nat)
| CcOpenProtocol (session_id proto_id : nat)
| CcOpenProtocols (session_id : nat) (target : TargetProtocol)
| CcCloseProtocol (session_id proto_id : nat)
| CcSetServiceNotify (proto_id : nat) (interval token : Z)
| CcRemoveServiceNotify (proto_id : nat) (token : Z)
| CcSetSessionNotify (session_id proto_id : nat) (interval token : Z)
| CcRemoveSessionNotify (session_id proto_id : nat) (token : Z)
| CcClose
| CcShutdown.

Definition control_call {A} `{!AtomicWaker A} (sid : nat) (call : ControlCall) : M (Shared A) ControlError unit :=
  match call with
  | CcListen address => control_listen sid address
  | CcDial address target => control_dial sid address target
  | CcRawSession address info => control_raw_session sid address info
  | CcDisconnect id => control_disconnect sid id
  | CcFilterBroadcast target p d => control_filter_broadcast sid target p d
  | CcQuickFilterBroadcast target p d => control_quick_filter_broadcast sid target p d
  | CcSendMessageTo id p d => control_send_message_to sid id p d
  | CcQuickSendMessageTo id p d => control_quick_send_message_to sid id p d
  | CcFutureTask t => control_future_task sid t
  | CcOpenProtocol id p => control_open_protocol sid id p
  | CcOpenProtocols id target => control_open_protocols sid id target
  | CcCloseProtocol id p => control_close_protocol sid id p
  | CcSetServiceNotify p i t => control_set_service_notify sid p i t
  | CcRemoveServiceNotify p t => control_remove_service_notify sid p t
  | CcSetSessionNotify id p i t => control_set_session_notify sid id p i t
  | CcRemoveSessionNotify id p t => control_remove_session_notify sid id p t
  | CcClose => control_close sid
  | CcShutdown => control_shutdown sid
  end.
Definition async_call (call : ControlCall) : SendFuture :=
  match call with
  | CcListen address => async_listen address
  | CcDial address target => async_dial address target
  | CcRawSession address info => async_raw_session address info
  | CcDisconnect id => async_disconnect id
  | CcFilterBroadcast target p d => async_filter_broadcast target p d
  | CcQuickFilterBroadcast target p d => async_quick_filter_broadcast target p d
  | CcSendMessageTo id p d => async_send_message_to id p d
  | CcQuickSendMessageTo id p d => async_quick_send_message_to id p d
  | CcFutureTask t => async_future_task t
  | CcOpenProtocol id p => async_open_protocol id p
  | CcOpenProtocols id target => async_open_protocols id target
  | CcCloseProtocol id p => async_close_protocol id p
  | CcSetServiceNotify p i t => async_set_service_notify p i t
  | CcRemoveServiceNotify p t => async_remove_service_notify p t
  | CcSetSessionNotify id p i t => async_set_session_notify id p i t
  | CcRemoveSessionNotify id p t => async_remove_session_notify id p t
  | CcClose => async_close
  | CcShutdown => async_shutdown
  end.

(** The task of a call and the queue that it takes. *)
Definition call_task (call : ControlCall) : Priority * ServiceTask :=
  match call with
  | CcListen address => (High, StListen address)
  | CcDial address target => (High, StDial address target)
  | CcRawSession address info => (High, StRawSession address info)
  | CcDisconnect id => (High, StDisconnect id)
  | CcFilterBroadcast target p d => (Normal, StProtocolMessage target p d)
  | CcQuickFilterBroadcast target p d => (High, StProtocolMessage target p d)
  | CcSendMessageTo id p d => (Normal, StProtocolMessage (TsSingle id) p d)
  | CcQuickSendMessageTo id p d => (High, StProtocolMessage (TsSingle id) p d)
  | CcFutureTask t => (Normal, StFutureTask t)
  | CcOpenProtocol id p => (High, StProtocolOpen id (TpSingle p))
  | CcOpenProtocols id target => (High, StProtocolOpen id target)
  | CcCloseProtocol id p => (High, StProtocolClose id p)
  | CcSetServiceNotify p i t => (Normal, StSetProtocolNotify p i t)
  | CcRemoveServiceNotify p t => (Normal, StRemoveProtocolNotify p t)
  | CcSetSessionNotify id p i t => (Normal, StSetProtocolSessionNotify id p i t)
  | CcRemoveSessionNotify id p t => (Normal, StRemoveProtocolSessionNotify id p t)
  | CcClose => (High, StShutdown false)
  | CcShutdown => (High, StShutdown true)
  end.

Definition send_as {A} `{!AtomicWaker A} (sid : nat) (p : Priority) (task : ServiceTask) : M (Shared A) ControlError unit :=
  match p with High => control_quick_send sid task | Normal => control_send sid task end.

Lemma control_call_sends {A} `{!AtomicWaker A} sid call :
  control_call (A:=A) sid call = send_as sid (call_task call).1 (call_task call).2.
Proof. by destruct call. Qed.
Lemma async_call_future call : async_call call = mkSendFuture (call_task call).1 (PhStart (call_task call).2).
Proof. by destruct call. Qed.

(** ** What a call does *)

Section facts.
Context {A : Type} {AW : AtomicWaker A} {AWL : AtomicWakerLaws A}.
Implicit Types (c : Chan ServiceTask A) (s : Shared A).

(** The handle [sid] is live, with its task cell, and the state word is one. *)
Definition live c (sid : nat) (sdr : BoundedSenderInner) (tk : SenderTask) : Prop :=
  is_u64 (state (inner c)) ∧ senders c !! sid = Some sdr ∧ tasks c !! sender_task sdr = Some tk ∧
  num_messages (state_of c) < MAX_CAPACITY.

(** The task is queued, at the end of the queue of its priority. *)
Definition queued_task c c' (p : Priority) (task : ServiceTask) : Prop :=
  ∀ p', queue_of p' c' = queue_of p' c ++ (if decide (p' = p) then [task] else []).

Lemma send_as_eq sid p task s :
  send_as sid p task s =
    if closed s then (Err CtlBrokenPipe, s)
    else let '(r, c) := (o ← gets (λ c, senders c !! sid);
      match o with
      | Some _ => sender_try_send sid task p
      | None => throw (mkTrySendError (mkSendError Disconnected) task)
      end) (task_channel s) in
      (match r with Ok u => Ok u | Err e => Err (send_error e) | Panic => Panic end, mkShared c (closed s)).
Proof.
  destruct p; rw /send_as /control_send /control_quick_send bind_gets; destruct (closed s) eqn:Hc; try done;
    rw /map_err /on_channel /try_send /try_quick_send !bind_gets Hc; destruct (senders (task_channel s) !! sid); try done;
    by destruct (sender_try_send _ _ _ _) as [[[]| |] c].
Qed.

Lemma send_as_outcome sid sdr tk p task s :
  live (task_channel s) sid sdr tk →
  let '(r, s') := send_as sid p task s in
  closed s' = closed s ∧
  if closed s then r = Err CtlBrokenPipe ∧ s' = s
  else if maybe_parked sdr && is_parked tk then r = Err CtlWouldBlock ∧ inner (task_channel s') = inner (task_channel s)
  else if negb (is_open (state_of (task_channel s))) then
    r = Err CtlBrokenPipe ∧ inner (task_channel s') = inner (task_channel s)
  else r = Ok () ∧ sent_ok (task_channel s) (task_channel s') sid (sender_task sdr) task p.
Proof.
  intros (Hu & Hs & Ht & Hn). rw send_as_eq. destruct (closed s) eqn:Hc; [done|]. rw bind_gets Hs.
  pose proof (try_send_behaviour _ sid sdr tk task p Hu Hs Ht) as H. destruct (sender_try_send _ _ _ _) as [r c'].
  cbn [task_channel closed]. split; [done|]. rewrite -> (proj2 (Z.ltb_lt _ _) Hn) in H.
  destruct (maybe_parked sdr && is_parked tk); [by destruct H as [-> ?]|].
  destruct (is_open _); by destruct H as [-> ?].
Qed.

(** The future of [async_send] in one form for both priorities. *)
Lemma poll_sending_eq {E} sid p task cx s :
  is_Some (senders (task_channel s) !! sid) →
  poll_sending (E:=E) sid p (Some task) cx s =
    match sender_poll_ready (E:=E) sid cx (task_channel s) with
    | (Ok (Ready (Ok _)), c) =>
        match (o ← gets (λ c, senders c !! sid);
               match o with
               | Some _ => sender_try_send sid task p
               | None => throw (mkTrySendError (mkSendError Disconnected) task)
               end) c with
        | (Panic, c) => (Panic, mkShared c (closed s))
        | (Ok _, c) => (Ok (mkSendFuture p (PhSend None), Ready (Ok ())), mkShared c (closed s))
        | (Err _, c) => (Ok (mkSendFuture p (PhSend None), Ready (Err CtlBrokenPipe)), mkShared c (closed s))
        end
    | (Ok (Ready _), c) => (Ok (mkSendFuture p (PhSend None), Ready (Err CtlBrokenPipe)), mkShared c (closed s))
    | (Ok Pending, c) => (Ok (mkSendFuture p (PhSend (Some task)), Pending), mkShared c (closed s))
    | (Err e, c) => (Err e, mkShared c (closed s))
    | (Panic, c) => (Panic, mkShared c (closed s))
    end.
Proof.
  intros [sdr Hs]. rw /poll_sending /on_channel {1}/mbind /M_bind. 
  assert (poll_ready (E:=E) sid cx (task_channel s) = sender_poll_ready sid cx (task_channel s)) as Hp
    by (by rw /poll_ready bind_gets Hs).
  destruct p; rw /async_send_poll /async_quick_send_poll /mbind /M_bind Hp;
    destruct (sender_poll_ready sid cx (task_channel s)) as [[[[]|]|e|] c]; try done;
    rw /start_send /start_quick_send /try_catch /map_err /try_send /try_quick_send /gets /mbind /M_bind;
    destruct (senders c !! sid); try done; by destruct (sender_try_send _ _ _ _) as [[[]| |] c'].
Qed.

Lemma sender_poll_ready_eq {E} sid sdr tk cx c :
  live c sid sdr tk →
  sender_poll_ready (E:=E) sid cx c =
    if negb (is_open (state_of c)) then (Ok (Ready (Err (mkSendError Disconnected))), c)
    else if maybe_parked sdr && is_parked tk then
      (Ok Pending, with_tasks <[sender_task sdr := mkSenderTask (Some cx) true]> c)
    else (Ok (Ready (Ok ())),
          if maybe_parked sdr then with_senders (alter (λ x, mkSenderInner (sender_task x) false) sid) c else c).
Proof.
  intros (_ & Hs & Ht & _). rw /sender_poll_ready bind_gets. destruct (is_open (state_of c)); [|done]. cbn [negb].
  rw /mbind /M_bind (poll_unparked_eq _ _ _ _ _ Hs Ht). destruct (maybe_parked sdr); [|done]. by destruct (is_parked tk).
Qed.

(** A poll of a future that holds [task]. *)
Lemma poll_sending_outcome {E} sid sdr tk p task cx s :
  live (task_channel s) sid sdr tk →
  ∃ fut r s', poll_sending (E:=E) sid p (Some task) cx s = (Ok (fut, r), s') ∧ closed s' = closed s ∧
  if negb (is_open (state_of (task_channel s))) then
    r = Ready (Err CtlBrokenPipe) ∧ inner (task_channel s') = inner (task_channel s)
  else if maybe_parked sdr && is_parked tk then
    r = Pending ∧ fut = mkSendFuture p (PhSend (Some task)) ∧ inner (task_channel s') = inner (task_channel s) ∧
    tasks (task_channel s') !! sender_task sdr = Some (mkSenderTask (Some cx) true)
  else r = Ready (Ok ()) ∧ queued_task (task_channel s) (task_channel s') p task.
Proof.
  intros Hl. pose proof Hl as (Hu & Hs & Ht & Hn). rw poll_sending_eq; [|eauto]. rw (sender_poll_ready_eq _ _ _ _ _ Hl).
  destruct (is_open (state_of (task_channel s))) eqn:Ho; cbn [negb]; [|by eexists _, _, _].
  destruct (maybe_parked sdr && is_parked tk) eqn:Hp.
  { eexists _, _, _. split_and!; try done. cbn. by rw lookup_insert_eq. }
  set (c1 := if maybe_parked sdr then _ else _).
  assert (inner c1 = inner (task_channel s)) as Hi by (rw /c1; by destruct (maybe_parked sdr)).
  assert (senders c1 !! sid = Some (mkSenderInner (sender_task sdr) false)) as Hs1.
  { rw /c1. destruct (maybe_parked sdr) eqn:Hm; [by rw /= lookup_alter_eq Hs|]. rw Hs. by destruct sdr; simpl in *; subst. }
  assert (tasks c1 = tasks (task_channel s)) as Ht1 by (rw /c1; by destruct (maybe_parked sdr)).
  assert (state_of c1 = state_of (task_channel s)) as Hst by (by rw /state_of Hi).
  rw bind_gets Hs1. pose proof (try_send_behaviour c1 sid _ tk task p ltac:(by rw Hi) Hs1 ltac:(by rw Ht1)) as H.
  destruct (sender_try_send _ _ _ _) as [r c']. rewrite -> Hst, Ho, (proj2 (Z.ltb_lt _ _) Hn) in H. cbn in H.
  destruct H as (-> & _ & Hq & _). eexists _, _, _. split_and!; [done..|]. intros p'. cbn [task_channel]. rw Hq.
  f_equal. rw /queue_of Hi. done.
Qed.

(** C38. A call to the control on every branch. A control whose service has ended
    refuses at once; otherwise a call of the blocking control is refused with
    [WouldBlock] while its sender is parked, where the future of the asynchronous
    one waits with its task and its waker in the channel; on a closed channel both
    fail with [BrokenPipe]; and else exactly the task of the method is queued, at
    the end of the queue of its priority. *)
Theorem control_call_outcome {E} (sid : nat) sdr tk (cx : Waker) (call : ControlCall) s :
  live (task_channel s) sid sdr tk →
  (let '(r, s') := control_call sid call s in
   if closed s then r = Err CtlBrokenPipe ∧ s' = s
   else if maybe_parked sdr && is_parked tk then r = Err CtlWouldBlock ∧ inner (task_channel s') = inner (task_channel s)
   else if negb (is_open (state_of (task_channel s))) then
     r = Err CtlBrokenPipe ∧ inner (task_channel s') = inner (task_channel s)
   else r = Ok () ∧ queued_task (task_channel s) (task_channel s') (call_task call).1 (call_task call).2) ∧
  ∃ fut r s', poll_future (E:=E) sid cx (async_call call) s = (Ok (fut, r), s') ∧
   if closed s then r = Ready (Err CtlBrokenPipe) ∧ s' = s
   else if negb (is_open (state_of (task_channel s))) then
     r = Ready (Err CtlBrokenPipe) ∧ inner (task_channel s') = inner (task_channel s)
   else if maybe_parked sdr && is_parked tk then
     r = Pending ∧ fut = mkSendFuture (call_task call).1 (PhSend (Some (call_task call).2)) ∧
     inner (task_channel s') = inner (task_channel s) ∧
     tasks (task_channel s') !! sender_task sdr = Some (mkSenderTask (Some cx) true)
   else r = Ready (Ok ()) ∧ queued_task (task_channel s) (task_channel s') (call_task call).1 (call_task call).2.
Proof.
  intros Hl. rw control_call_sends async_call_future. destruct (call_task call) as [p task]. cbn [fst snd]. split.
  - pose proof (send_as_outcome sid sdr tk p task s Hl) as H. destruct (send_as sid p task s) as [r s'].
    destruct H as [_ H]. destruct (closed s); [done|]. destruct (_ && _); [done|]. destruct (is_open _); [|done].
    destruct H as (-> & _ & Hq & _). done.
  - rw /poll_future. cbn [fut_phase fut_priority]. rw bind_gets. destruct (closed s) eqn:Hc; [by eexists _, _, _|].
    destruct (poll_sending_outcome (E:=E) sid sdr tk p task cx s Hl) as (fut & r & s' & Hp & _ & H).
    by exists fut, r, s'.
Qed.

(** ** From the user to the service *)

(** What no send changes: the size of the buffer, the receiver, and that the state is one word. *)
Definition kept (b : Z) c : Prop := buffer (inner c) = b ∧ receiver c = true ∧ is_u64 (state (inner c)).

Lemma kept_inc {E} b : preserves (kept b) (inc_num_messages (E:=E) : M (Chan ServiceTask A) E _).
Proof.
  intros c (Hb & Hr & Hu). rw /inc_num_messages bind_gets.
  destruct (negb (is_open _)); [done|]. destruct (negb _) eqn:Hn; [done|]. rw /mbind /M_bind /modify. cbn [mret M_ret].
  split_and!; [done..|]. cbn [snd with_inner set_state inner state]. apply encode_is_u64. cbn.
  pose proof (decode_num_range _ Hu). assert (MAX_CAPACITY = 2 ^ 63 - 1) as HM by done.
  apply negb_false_iff, Z.ltb_lt in Hn. lia.
Qed.

Lemma kept_park {E} b sid : preserves (kept b) (park sid : M (Chan ServiceTask A) E _).
Proof.
  rw /park /self /park_lock /park_push /park_check /set_maybe_parked. preserves; by apply preserves_modify.
Qed.

Lemma kept_push {E} b msg p : preserves (kept b) (queue_push_and_signal msg p : M (Chan ServiceTask A) E _).
Proof.
  rw /queue_push_and_signal /queue_push /recv_wake. preserves; apply preserves_modify; intros c (? & ? & ?).
  - by destruct p.
  - by destruct (aw_wake _).
Qed.

Lemma kept_try_send b sid msg p : preserves (kept b) (sender_try_send sid msg p : M (Chan ServiceTask A) _ _).
Proof.
  rw /sender_try_send /do_send_b /poll_unparked /self /set_maybe_parked.
  preserves; try (by apply preserves_modify); by (apply kept_inc || apply kept_park || apply kept_push).
Qed.

(** The user's calls, one after the other. *)
Fixpoint control_calls (sid : nat) (calls : list ControlCall) : M (Shared A) ControlError unit :=
  match calls with
  | [] => mret ()
  | call :: calls => _ ← control_call sid call; control_calls sid calls
  end.

(** The sender is not parked, and the open channel counts [n] messages. *)
Definition free (b : Z) (sid t : nat) (n : Z) c : Prop :=
  kept b c ∧ senders c !! sid = Some (mkSenderInner t false) ∧ is_Some (tasks c !! t) ∧ state_of c = mkState true n.

Lemma control_calls_queue b sid t n calls c :
  free b sid t n c → n + length calls ≤ b → b < MAX_BUFFER →
  ∃ c', control_calls sid calls (mkShared c false) = (Ok (), mkShared c' false) ∧ receiver c' = true ∧
    ∀ p, queue_of p c' = queue_of p c ++ of_prio p (call_task <$> calls).
Proof.
  intros H Hn Hb. revert n c H Hn. induction calls as [|call calls IH]; intros n c H Hn; cbn [control_calls].
  { exists c. split_and!; [done|apply H|]. intros p. by rw app_nil_r. }
  destruct H as (Hk & Hs & [tk Ht] & Hst). pose proof Hk as (Hbuf & _ & Hu).
  assert (MAX_CAPACITY = 2 ^ 63 - 1 ∧ MAX_BUFFER = 2 ^ 62 - 1) as [HM HB] by done. cbn [length] in Hn.
  assert (live c sid (mkSenderInner t false) tk) as Hl by (split_and!; [done..|rw Hst; cbn; lia]).
  pose proof (send_as_outcome sid _ tk (call_task call).1 (call_task call).2 (mkShared c false) Hl) as H.
  rw -control_call_sends in H. destruct (control_call sid call _) as [r [c1 cl]] eqn:Hcall. cbn [closed task_channel] in H.
  destruct H as [-> H]. cbn [maybe_parked andb] in H. rw Hst in H. cbn [is_open negb num_messages sender_task] in H.
  destruct H as (-> & Hst1 & Hq & _ & Hpark). rw Hst Hbuf in Hst1 Hpark. cbn [num_messages] in *.
  assert (b <? n + 1 = false) as Hlt by (apply Z.ltb_ge; lia). rw Hlt in Hpark. destruct Hpark as (_ & Ht1 & Hs1).
  rw (M_bind_Ok _ _ _ _ _ Hcall). destruct (IH (n + 1) c1) as (c' & Hc' & Hr & Hq'); [|lia|].
  { split_and!; [|done|rw Ht1; eauto|done]. pose proof (kept_try_send b sid (call_task call).2 (call_task call).1 c Hk) as Hk1.
    rw control_call_sends send_as_eq in Hcall. cbn [closed task_channel] in Hcall. rw bind_gets Hs in Hcall.
    destruct (sender_try_send _ _ _ _) as [r1 c2]. by injection Hcall as _ ->. }
  exists c'. split_and!; [done..|]. intros p. rw Hq' Hq -app_assoc. f_equal. rw /of_prio. cbn [fmap list_fmap omap list_omap].
  destruct (decide (p = (call_task call).1)) as [->|Hne]; [by rewrite -> decide_True by done|].
  by rewrite -> decide_False by congruence.
Qed.

Section pump.
Context {Sv E : Type} (turn : Priority → ServiceTask → M Sv E bool).

(** The tasks are given to the loop one by one, until it ends. *)
Fixpoint task_turns (ts : list (Priority * ServiceTask)) : M Sv E bool :=
  match ts with
  | [] => mret false
  | (p, t) :: ts => stop ← turn p t; if (stop : bool) then mret true else task_turns ts
  end.

(** The loop takes its next [n] tasks from the channel. *)
Fixpoint pump (n : nat) (c : Chan ServiceTask A) (s : Sv) : Res E bool * Sv :=
  match n with
  | O => (Ok false, s)
  | S n =>
      match next_message (E:=unit) c with
      | (Ok (Ready (Some (p, t))), c') =>
          match turn p t s with
          | (Ok false, s') => pump n c' s'
          | res => res
          end
      | (Ok _, _) => (Ok false, s)
      | (_, _) => (Panic, s)
      end
  end.

Lemma pump_eq n c (s : Sv) :
  receiver c = true → n = (length (queue_of High c) + length (queue_of Normal c))%nat →
  pump n c s = task_turns ((pair High <$> queue_of High c) ++ (pair Normal <$> queue_of Normal c)) s.
Proof.
  revert c s. induction n as [|n IH]; intros c s Hr Hn.
  { by destruct (queue_of High c), (queue_of Normal c). }
  pose proof (next_message_takes c Hr) as H. cbn [pump].
  destruct (queue_of High c) as [|m q], (queue_of Normal c) as [|m' q']; [done|..]; cbn [length] in Hn;
    destruct H as (c' & Hm & H1 & H2 & Hr'); rw Hm; cbn [fmap list_fmap app task_turns]; rw /mbind /M_bind;
    destruct (turn _ _ s) as [[[]|e|] s']; try done; (rw (IH c' s' Hr'); [by rw H1 H2|]); rw H1 H2; cbn in *; lia.
Qed.
End pump.

(** The order in which the service gets the tasks of calls that were made at once. *)
Definition served (ts : list (Priority * ServiceTask)) : list (Priority * ServiceTask) :=
  (pair High <$> of_prio High ts) ++ (pair Normal <$> of_prio Normal ts).

Lemma of_prio_split (ts : list (Priority * ServiceTask)) :
  (length (of_prio High ts) + length (of_prio Normal ts))%nat = length ts.
Proof.
  induction ts as [|[[] t] ts IH]; [done|..]; cbn [length]; rw -IH.
  - change (of_prio High ((High, t) :: ts)) with (t :: of_prio High ts).
    change (of_prio Normal ((High, t) :: ts)) with (of_prio Normal ts). done.
  - change (of_prio High ((Normal, t) :: ts)) with (of_prio High ts).
    change (of_prio Normal ((Normal, t) :: ts)) with (t :: of_prio Normal ts). cbn [length]. lia.
Qed.
End facts.

Section composed.
Context {A : Type} {AW : AtomicWaker A} {AWL : AtomicWakerLaws A}.
Context {N : NetTypes} {AC : AddrCodecs} (sha256 : bytes → bytes).
Context (transport_listen transport_dial : Multiaddr → option (TransportErr N)) (is_upgrade : Incoming N → bool).

(** C17. From the control to the service: calls that fit in the buffer of the channel
    are all accepted, and the service that then takes as many tasks as there were
    calls runs exactly as if it had been given the tasks of these methods directly,
    those of the quick methods first and otherwise in the order of the calls. In
    particular a shutdown overtakes the messages that wait. *)
Theorem control_reaches_service (buf : Z) (c : Chan ServiceTask A) (calls : list ControlCall) (g g' : Gone)
    (s : InnerService N) :
  let turn p t := run_turn (E:=Empty_set) sha256 transport_listen transport_dial is_upgrade g g' (RiTask p t) in
  channel buf = Some c → length calls ≤ buf →
  ∃ c', control_calls 0 calls (mkShared c false) = (Ok (), mkShared c' false) ∧
    pump turn (length calls) c' s = task_turns turn (served (call_task <$> calls)) s.
Proof.
  intros turn Hc Hn. rw /channel in Hc. destruct (buf <? MAX_BUFFER) eqn:Hb; [|done]. injection Hc as <-.
  apply Z.ltb_lt in Hb. set (c := mkChan _ _ _ _ _).
  destruct (control_calls_queue buf 0 0 0 calls c) as (c' & Hcalls & Hr & Hq); [|lia|done|].
  { split; [|split_and!; [done|by eexists|by rw /state_of /= decode_INIT_STATE]]. split_and!; [done..| |]; done. }
  exists c'. split; [exact Hcalls|]. rw pump_eq; [|done|].
  - by rw !Hq.
  - rw !Hq. cbn [app queue_of inner message_queue quick_message_queue]. by rw of_prio_split length_fmap.
Qed.
End composed.

Definition demo_calls_made : list ControlCall := [CcSendMessageTo 1 2 (str "hi"); CcDisconnect 3; CcFutureTask 4; CcClose].
Definition control_chan : Chan ServiceTask (option Waker) :=
  mkChan (mkInner 8 INIT_STATE [] [] [] 1 None) {[0%nat := SenderTask_new]} {[0%nat := mkSenderInner 0 false]} true [].

Lemma control_reaches_service_witness :
  served (call_task <$> demo_calls_made) =
    [(High, StDisconnect 3); (High, StShutdown false); (Normal, StProtocolMessage (TsSingle 1) 2 (str "hi"));
     (Normal, StFutureTask 4)] ∧
  ∃ c', control_calls 0 demo_calls_made (mkShared control_chan false) = (Ok (), mkShared c' false) ∧
    pump (λ p t, run_turn (N:=mkNetTypes unit unit unit unit unit) (E:=Empty_set) id (λ _, None) (λ _, None) (λ _, false)
            (mkGone (λ _, false) (λ _, false)) (mkGone (λ _, false) (λ _, false)) (RiTask p t)) 4 c' (service_new ∅ true 10) =
    task_turns (λ p t, run_turn (N:=mkNetTypes unit unit unit unit unit) (E:=Empty_set) id (λ _, None) (λ _, None) (λ _, false)
            (mkGone (λ _, false) (λ _, false)) (mkGone (λ _, false) (λ _, false)) (RiTask p t))
      (served (call_task <$> demo_calls_made)) (service_new ∅ true 10).
Proof.
  split; [reflexivity|].
  apply (control_reaches_service (N:=mkNetTypes unit unit unit unit unit) id (λ _, None) (λ _, None) (λ _, false) 8
    control_chan demo_calls_made (mkGone (λ _, false) (λ _, false)) (mkGone (λ _, false) (λ _, false)) (service_new ∅ true 10)).
  - reflexivity.
  - vm_compute. congruence.
Defined.

Lemma control_call_outcome_witness :
  (let '(r, s') := control_call 0 CcClose (mkShared control_chan false) in
   r = Ok () ∧ queued_task control_chan (task_channel s') High (StShutdown false)) ∧
  ∃ fut r s', poll_future (E:=Empty_set) 0 5 async_close (mkShared control_chan false) = (Ok (fut, r), s') ∧
   r = Ready (Ok ()) ∧ queued_task control_chan (task_channel s') High (StShutdown false).
Proof.
  apply (control_call_outcome (E:=Empty_set) 0 (mkSenderInner 0 false) SenderTask_new 5 CcClose (mkShared control_chan false)).
  split_and!; vm_compute; done.
Defined.
