(* ===== verification/Builder.v ===== *)
(** * Building a service

    [tentacle/src/builder.rs] with the settings of [service/config.rs] and
    [yamux/src/config.rs]: [ServiceBuilder] and [MetaBuilder]. A method of a builder
    returns the new builder or panics on a failed assertion. The types of URLs, of
    sockets, of TLS settings and of keys are parameters; the codec and the choice of
    a version, which the builder only stores, are left out of a protocol's data. *)
From S2P Require Import Prelude Text StdNet Multiaddr MultiaddrFacts SecioMessages PeerId AddrUtils YamuxFrame YamuxStream YamuxSession Events ProtocolHandle TentacleSession Service.

(** ** Settings *)

Inductive SocketState := SockListen | SockDial.
Record TransformerContext := mkTransformer { tc_state : SocketState; tc_address : SocketAddr }.
Definition new_listen (address : SocketAddr) : TransformerContext := mkTransformer SockListen address.
Definition new_dial (address : SocketAddr) : TransformerContext := mkTransformer SockDial address.

Inductive HandshakeType (K : Type) := HtSecio (key : K) | HtNoop.
Arguments HtSecio {K}. Arguments HtNoop {K}.

(** What the code takes from [url::Url]. *)
Class UrlParse (U : Type) := {
  url_parse : bytes → option U;
  url_scheme : U → bytes;
}.

Record ServiceTimeout := mkServiceTimeout { timeout_ns : Z; onion_timeout_ns : Z }.
Definition service_timeout_default : ServiceTimeout := mkServiceTimeout (from_secs 10) (from_secs 120).

(** [SessionConfig] with all of the muxer's settings. *)
Record SessionSettings := mkSessionSettings {
  yamux_settings : Config;
  send_buffer : Z;
  recv_buffer : Z;
  channel_len : Z;
}.
Definition session_settings_default : SessionSettings := mkSessionSettings config_default MAX_BUF_SIZE MAX_BUF_SIZE 128.
(** What a session and its streams use of it. *)
Definition session_config_of (s : SessionSettings) : SessionConfig :=
  mkSessionConfig (max_stream_window_size (yamux_settings s)) (send_buffer s) (recv_buffer s) (channel_len s).

Section settings.
Context {U Sock Tls : Type}.

Definition Transformer : Type := Sock → TransformerContext → Sock + io.ErrorKind.

Record TcpSocketConfig := mkTcpSocketConfig {
  socket_transformer : Transformer;
  proxy_url : option U;
  onion_url : option U;
  proxy_random_auth : bool;
}.
Definition tcp_socket_default : TcpSocketConfig := mkTcpSocketConfig (λ socket _, inl socket) None None true.

Record TcpConfig := mkTcpConfig { tcp : TcpSocketConfig; ws : TcpSocketConfig; tls : TcpSocketConfig }.
Definition tcp_config_default : TcpConfig := mkTcpConfig tcp_socket_default tcp_socket_default tcp_socket_default.

Record ServiceConfig := mkServiceConfig {
  sc_timeout : ServiceTimeout;
  sc_session : SessionSettings;
  sc_max_frame_length : Z;
  sc_keep_buffer : bool;
  sc_upnp : bool;
  sc_max_connection_number : Z;
  sc_tcp : TcpConfig;
  sc_tls : option Tls;
  sc_trusted_proxies : list IpAddr;
}.
Definition LOCALHOST4 : IpAddr := V4 (mkIp4 127 0 0 1).
Definition LOCALHOST6 : IpAddr := V6 (mkIp6 [0; 0; 0; 0; 0; 0; 0; 1]).
Definition service_config_default : ServiceConfig :=
  mkServiceConfig service_timeout_default session_settings_default (1024 * 1024 * 8) false false 65535
    tcp_config_default None [LOCALHOST4; LOCALHOST6].
End settings.
Arguments TcpSocketConfig : clear implicits.
Arguments TcpConfig : clear implicits.
Arguments ServiceConfig : clear implicits.
Arguments Transformer : clear implicits.

(** ** [ServiceBuilder] *)

Record ServiceBuilder (K U Sock Tls : Type) := mkBuilder {
  b_inner : gmap nat ProtocolMeta;
  b_handshake_type : HandshakeType K;
  b_forever : bool;
  b_config : ServiceConfig U Sock Tls;
}.
Arguments mkBuilder {K U Sock Tls}. Arguments b_inner {K U Sock Tls}. Arguments b_handshake_type {K U Sock Tls}.
Arguments b_forever {K U Sock Tls}. Arguments b_config {K U Sock Tls}.

Section builder.
Context {K U Sock Tls : Type} `{!UrlParse U}.
Abbreviation B := (ServiceBuilder K U Sock Tls).
Abbreviation Cfg := (ServiceConfig U Sock Tls).
Implicit Types b : B.

Definition builder_new : B := mkBuilder ∅ HtNoop false service_config_default.

Definition with_config (f : Cfg → Cfg) b : B := mkBuilder (b_inner b) (b_handshake_type b) (b_forever b) (f (b_config b)).
Definition with_session (f : SessionSettings → SessionSettings) : B → B :=
  with_config (λ c, mkServiceConfig (sc_timeout c) (f (sc_session c)) (sc_max_frame_length c) (sc_keep_buffer c)
    (sc_upnp c) (sc_max_connection_number c) (sc_tcp c) (sc_tls c) (sc_trusted_proxies c)).
Definition with_tcp (f : TcpConfig U Sock → TcpConfig U Sock) : B → B :=
  with_config (λ c, mkServiceConfig (sc_timeout c) (sc_session c) (sc_max_frame_length c) (sc_keep_buffer c)
    (sc_upnp c) (sc_max_connection_number c) (f (sc_tcp c)) (sc_tls c) (sc_trusted_proxies c)).
Definition with_timeout (f : ServiceTimeout → ServiceTimeout) : B → B :=
  with_config (λ c, mkServiceConfig (f (sc_timeout c)) (sc_session c) (sc_max_frame_length c) (sc_keep_buffer c)
    (sc_upnp c) (sc_max_connection_number c) (sc_tcp c) (sc_tls c) (sc_trusted_proxies c)).

Definition insert_protocol (protocol : ProtocolMeta) b : B :=
  mkBuilder (<[meta_id (pm_inner protocol) := protocol]> (b_inner b)) (b_handshake_type b) (b_forever b) (b_config b).
Definition set_handshake_type (h : HandshakeType K) b : B := mkBuilder (b_inner b) h (b_forever b) (b_config b).
Definition set_forever (forever : bool) b : B := mkBuilder (b_inner b) (b_handshake_type b) forever (b_config b).
Definition clear_protocols b : B := mkBuilder ∅ (b_handshake_type b) (b_forever b) (b_config b).

Definition set_timeout (t : Z) : B → B := with_timeout (λ o, mkServiceTimeout t (onion_timeout_ns o)).
Definition set_onion_timeout (t : Z) : B → B := with_timeout (λ o, mkServiceTimeout (timeout_ns o) t).

Definition set_yamux_config {E} (config : Config) b : Res E B :=
  if max_stream_window_size config <=? as_u32 (sc_max_frame_length (b_config b)) then
    Ok (with_session (λ s, mkSessionSettings config (send_buffer s) (recv_buffer s) (channel_len s)) b)
  else Panic.
Definition set_max_frame_length {E} (size : Z) b : Res E B :=
  if max_stream_window_size (yamux_settings (sc_session (b_config b))) <=? as_u32 size then
    Ok (with_config (λ c, mkServiceConfig (sc_timeout c) (sc_session c) size (sc_keep_buffer c)
      (sc_upnp c) (sc_max_connection_number c) (sc_tcp c) (sc_tls c) (sc_trusted_proxies c)) b)
  else Panic.

Definition set_channel_size (size : Z) : B → B :=
  with_session (λ s, mkSessionSettings (yamux_settings s) (send_buffer s) (recv_buffer s) size).
Definition set_send_buffer_size (size : Z) : B → B :=
  with_session (λ s, mkSessionSettings (yamux_settings s) size (recv_buffer s) (channel_len s)).
Definition set_recv_buffer_size (size : Z) : B → B :=
  with_session (λ s, mkSessionSettings (yamux_settings s) (send_buffer s) size (channel_len s)).
Definition set_keep_buffer (keep : bool) : B → B :=
  with_config (λ c, mkServiceConfig (sc_timeout c) (sc_session c) (sc_max_frame_length c) keep
    (sc_upnp c) (sc_max_connection_number c) (sc_tcp c) (sc_tls c) (sc_trusted_proxies c)).
Definition set_trusted_proxies (proxies : list IpAddr) : B → B :=
  with_config (λ c, mkServiceConfig (sc_timeout c) (sc_session c) (sc_max_frame_length c) (sc_keep_buffer c)
    (sc_upnp c) (sc_max_connection_number c) (sc_tcp c) (sc_tls c) proxies).
Definition set_upnp (enable : bool) : B → B :=
  with_config (λ c, mkServiceConfig (sc_timeout c) (sc_session c) (sc_max_frame_length c) (sc_keep_buffer c)
    enable (sc_max_connection_number c) (sc_tcp c) (sc_tls c) (sc_trusted_proxies c)).
Definition set_max_connection_number (number : Z) : B → B :=
  with_config (λ c, mkServiceConfig (sc_timeout c) (sc_session c) (sc_max_frame_length c) (sc_keep_buffer c)
    (sc_upnp c) number (sc_tcp c) (sc_tls c) (sc_trusted_proxies c)).
Definition set_tls_config (config : Tls) : B → B :=
  with_config (λ c, mkServiceConfig (sc_timeout c) (sc_session c) (sc_max_frame_length c) (sc_keep_buffer c)
    (sc_upnp c) (sc_max_connection_number c) (sc_tcp c) (Some config) (sc_trusted_proxies c)).

Definition set_transformer (f : Transformer Sock) (c : TcpSocketConfig U Sock) : TcpSocketConfig U Sock :=
  mkTcpSocketConfig f (proxy_url c) (onion_url c) (proxy_random_auth c).
Definition tcp_config (f : Transformer Sock) : B → B := with_tcp (λ c, mkTcpConfig (set_transformer f (tcp c)) (ws c) (tls c)).
Definition tcp_config_on_ws (f : Transformer Sock) : B → B := with_tcp (λ c, mkTcpConfig (tcp c) (set_transformer f (ws c)) (tls c)).
Definition tcp_config_on_tls (f : Transformer Sock) : B → B := with_tcp (λ c, mkTcpConfig (tcp c) (ws c) (set_transformer f (tls c))).

Definition must_parse_proxy_url {E} (url : bytes) : Res E U :=
  match url_parse url with
  | Some u => if bool_decide (url_scheme u = str "socks5") then Ok u else Panic
  | None => Panic
  end.
Definition tcp_proxy_config {E} (url : bytes) b : Res E B :=
  u ← must_parse_proxy_url url;
  Ok (with_tcp (λ c, mkTcpConfig (mkTcpSocketConfig (socket_transformer (tcp c)) (Some u) (onion_url (tcp c))
    (proxy_random_auth (tcp c))) (ws c) (tls c)) b).
Definition tcp_onion_config {E} (url : bytes) b : Res E B :=
  u ← must_parse_proxy_url url;
  Ok (with_tcp (λ c, mkTcpConfig (mkTcpSocketConfig (socket_transformer (tcp c)) (proxy_url (tcp c)) (Some u)
    (proxy_random_auth (tcp c))) (ws c) (tls c)) b).
Definition tcp_proxy_random_auth (random : bool) : B → B :=
  with_tcp (λ c, mkTcpConfig (mkTcpSocketConfig (socket_transformer (tcp c)) (proxy_url (tcp c)) (onion_url (tcp c)) random)
    (ws c) (tls c)).

(** [build]: the loop of the service gets the protocols, [forever] and the limit. *)
Definition build {N} b : InnerService N :=
  service_new (b_inner b) (b_forever b) (sc_max_connection_number (b_config b)).
End builder.

(** ** [MetaBuilder] *)

(** A handle is known by whether it is a callback. *)
Record MetaBuilder := mkMetaBuilder {
  mb_id : nat;
  mb_name : nat → bytes;
  mb_support_versions : list bytes;
  mb_service_handle : bool;
  mb_session_handle : nat → bool;
  mb_before_send : option (bytes → bytes);
  mb_before_receive : option (bytes → bytes + io.ErrorKind);
  mb_spawn : bool;
}.

Definition meta_builder_default : MetaBuilder :=
  mkMetaBuilder 0 (λ id, str "/p2p/" ++ show_dec (Z.of_nat id)) [str "0.0.1"] false (λ _, false) None None false.

(** [now] says whether the call of [session_handle] in [build] yields a callback. *)
Definition meta_build {E} (now : bool) (m : MetaBuilder) : Res E ProtocolMeta :=
  if mb_spawn m && (mb_service_handle m || now) then Panic
  else
    let meta := mkMeta (mb_id m) (mb_name m (mb_id m)) (mb_support_versions m) (mb_spawn m) (mb_before_receive m) in
    Ok (mkProtocolMeta meta (mb_service_handle m) (mb_session_handle m) (mb_before_send m)).

(** ** Sequences of calls *)

Inductive BuilderCall (K Sock Tls : Type) :=
| BcInsert (protocol : ProtocolMeta)
| BcHandshakeType (h : HandshakeType K)
| BcForever (forever : bool)
| BcClear
| BcTimeout (t : Z)
| BcOnionTimeout (t : Z)
| BcYamuxConfig (config : Config)
| BcMaxFrameLength (size : Z)
| BcChannelSize (size : Z)
| BcSendBufferSize (size : Z)
| BcRecvBufferSize (size : Z)
| BcKeepBuffer (keep : bool)
| BcTrustedProxies (proxies : list IpAddr)
| BcUpnp (enable : bool)
| BcMaxConnectionNumber (number : Z)
| BcTlsConfig (config : Tls)
| BcTcpConfig (f : Transformer Sock)
| BcTcpConfigOnWs (f : Transformer Sock)
| BcTcpConfigOnTls (f : Transformer Sock)
| BcTcpProxyConfig (url : bytes)
| BcTcpOnionConfig (url : bytes)
| BcTcpProxyRandomAuth (random : bool).
Arguments BcInsert {K Sock Tls}. Arguments BcHandshakeType {K Sock Tls}. Arguments BcForever {K Sock Tls}.
Arguments BcClear {K Sock Tls}. Arguments BcTimeout {K Sock Tls}. Arguments BcOnionTimeout {K Sock Tls}.
Arguments BcYamuxConfig {K Sock Tls}. Arguments BcMaxFrameLength {K Sock Tls}. Arguments BcChannelSize {K Sock Tls}.
Arguments BcSendBufferSize {K Sock Tls}. Arguments BcRecvBufferSize {K Sock Tls}. Arguments BcKeepBuffer {K Sock Tls}.
Arguments BcTrustedProxies {K Sock Tls}. Arguments BcUpnp {K Sock Tls}. Arguments BcMaxConnectionNumber {K Sock Tls}.
Arguments BcTlsConfig {K Sock Tls}. Arguments BcTcpConfig {K Sock Tls}. Arguments BcTcpConfigOnWs {K Sock Tls}.
Arguments BcTcpConfigOnTls {K Sock Tls}. Arguments BcTcpProxyConfig {K Sock Tls}. Arguments BcTcpOnionConfig {K Sock Tls}.
Arguments BcTcpProxyRandomAuth {K Sock Tls}.

Section calls.
Context {K U Sock Tls E : Type} `{!UrlParse U}.
Abbreviation B := (ServiceBuilder K U Sock Tls).
Implicit Types b : B.

Definition builder_call (call : BuilderCall K Sock Tls) b : Res E B :=
  match call with
  | BcInsert p => Ok (insert_protocol p b)
  | BcHandshakeType h => Ok (set_handshake_type h b)
  | BcForever f => Ok (set_forever f b)
  | BcClear => Ok (clear_protocols b)
  | BcTimeout t => Ok (set_timeout t b)
  | BcOnionTimeout t => Ok (set_onion_timeout t b)
  | BcYamuxConfig c => set_yamux_config c b
  | BcMaxFrameLength n => set_max_frame_length n b
  | BcChannelSize n => Ok (set_channel_size n b)
  | BcSendBufferSize n => Ok (set_send_buffer_size n b)
  | BcRecvBufferSize n => Ok (set_recv_buffer_size n b)
  | BcKeepBuffer k => Ok (set_keep_buffer k b)
  | BcTrustedProxies p => Ok (set_trusted_proxies p b)
  | BcUpnp e => Ok (set_upnp e b)
  | BcMaxConnectionNumber n => Ok (set_max_connection_number n b)
  | BcTlsConfig c => Ok (set_tls_config c b)
  | BcTcpConfig f => Ok (tcp_config f b)
  | BcTcpConfigOnWs f => Ok (tcp_config_on_ws f b)
  | BcTcpConfigOnTls f => Ok (tcp_config_on_tls f b)
  | BcTcpProxyConfig url => tcp_proxy_config url b
  | BcTcpOnionConfig url => tcp_onion_config url b
  | BcTcpProxyRandomAuth r => Ok (tcp_proxy_random_auth r b)
  end.
Fixpoint builder_calls (calls : list (BuilderCall K Sock Tls)) b : Res E B :=
  match calls with
  | [] => Ok b
  | call :: calls => b ← builder_call call b; builder_calls calls b
  end.

(** The sizes are [usize]s, the window a [u32]. *)
Definition call_sizes (call : BuilderCall K Sock Tls) : Prop :=
  match call with
  | BcMaxFrameLength n | BcSendBufferSize n | BcRecvBufferSize n => is_u64 n
  | BcYamuxConfig c => is_u32 (max_stream_window_size c)
  | _ => True
  end.

(** The window of the muxer, and whether a URL is one of a SOCKS proxy. *)
Definition window b : Z := max_stream_window_size (yamux_settings (sc_session (b_config b))).
Definition socks (o : option U) : Prop := match o with Some u => url_scheme u = str "socks5" | None => True end.

Record builder_inv b : Prop := {
  bi_frame : is_u64 (sc_max_frame_length (b_config b));
  bi_buffers : is_u64 (recv_buffer (sc_session (b_config b))) ∧ is_u64 (send_buffer (sc_session (b_config b)));
  bi_u32 : is_u32 (window b);
  bi_window : window b ≤ as_u32 (sc_max_frame_length (b_config b));
  bi_keys : ∀ id m, b_inner b !! id = Some m → meta_id (pm_inner m) = id;
  bi_urls : socks (proxy_url (tcp (sc_tcp (b_config b)))) ∧ socks (onion_url (tcp (sc_tcp (b_config b))));
}.

Lemma must_parse_socks url u : must_parse_proxy_url (E:=E) url = Ok u → socks (Some u).
Proof.
  rw /must_parse_proxy_url. destruct (url_parse url) as [v|]; [|done]. case_bool_decide; [|done]. by intros [= ->].
Qed.

Lemma builder_call_inv call b b' : call_sizes call → builder_inv b → builder_call call b = Ok b' → builder_inv b'.
Proof.
  intros Hs [H1 [Hr Hsd] Hw H2 H3 [H4 H5]].
  destruct call; cbn [builder_call call_sizes] in *; try (by intros [= <-]).
  - intros [= <-]. split; try done. intros id m. cbn.
    destruct (decide (id = meta_id (pm_inner protocol))) as [->|Hne].
    + rw lookup_insert_eq. by intros [= <-].
    + rw lookup_insert_ne; [apply H3|done].
  - rw /set_yamux_config. destruct (_ <=? _) eqn:Hle; [|done]. intros [= <-]. apply Z.leb_le in Hle. by split.
  - rw /set_max_frame_length. destruct (_ <=? _) eqn:Hle; [|done]. intros [= <-]. apply Z.leb_le in Hle. by split.
  - rw /tcp_proxy_config. destruct (must_parse_proxy_url url) as [u| |] eqn:Hu; [|done..]. intros [= <-].
    split; try done. by apply must_parse_socks in Hu.
  - rw /tcp_onion_config. destruct (must_parse_proxy_url url) as [u| |] eqn:Hu; [|done..]. intros [= <-].
    split; try done. by apply must_parse_socks in Hu.
Qed.

Lemma builder_calls_inv calls b b' :
  Forall call_sizes calls → builder_inv b → builder_calls calls b = Ok b' → builder_inv b'.
Proof.
  intros Hs. revert b. induction Hs as [|call calls Hc _ IH]; intros b Hb; cbn [builder_calls].
  { by intros [= <-]. }
  destruct (builder_call call b) as [b1| |] eqn:H1; [|done..]. cbn [mbind Res_bind]. apply IH. by eapply builder_call_inv.
Qed.

Lemma builder_new_inv : builder_inv (builder_new : B).
Proof. split; try done. Qed.

(** The size of a queue for a buffer: the division panics for an empty window, and
    the sum wraps to 0 only for the largest buffer with a window of one byte. *)
Definition queue_size (buffer window : Z) (size : Res E Z) : Prop :=
  (window = 0 ∧ size = Panic) ∨
  (0 < window ∧ ∃ r, size = Ok r ∧ 0 ≤ r ∧ (r = 0 ↔ window = 1 ∧ buffer = 2 ^ 64 - 1)).

Lemma queue_size_ok buffer win :
  is_u64 buffer → is_u32 win →
  queue_size buffer win (if win =? 0 then Panic else Ok (wrap 64 (buffer `div` win + 1))).
Proof.
  rw /is_u64 /is_u32 /u64_max /u32_max. intros Hb Hw. case: Z.eqb_spec => Hz; [by left|]. right. split; [lia|]. eexists. split; [done|].
  assert (0 ≤ buffer `div` win) as H0 by (apply Z.div_pos; lia). rw /wrap.
  assert (win ≠ 1 ∨ buffer ≠ 2 ^ 64 - 1 → buffer `div` win < 2 ^ 64 - 1) as Hlt.
  { intros H. destruct (decide (win = 1)) as [->|Hne]; [rw Z.div_1_r; lia|]. apply Z.div_lt_upper_bound; [lia|].
    assert (2 * (2 ^ 64 - 1) ≤ win * (2 ^ 64 - 1)) by (apply Z.mul_le_mono_nonneg_r; lia). lia. }
  split; [apply Z.mod_pos_bound; lia|]. split.
  - destruct (decide (win = 1)) as [->|]; [destruct (decide (buffer = 2 ^ 64 - 1)) as [->|]; [done|]|];
      rw Z.mod_small; lia.
  - by intros [-> ->].
Qed.

(** C37. Whatever a user sets, in any order: in a configuration that is built the
    window of the muxer is at most the length of a frame of the encrypted stream,
    each protocol is known by its own id, and there are only SOCKS proxies; with
    a window that is not empty the streams can compute the sizes of their queues,
    which are positive unless a buffer of [usize::MAX] bytes meets a window of a
    single byte; with an empty window the computation panics. *)
Theorem built_config_sound (calls : list (BuilderCall K Sock Tls)) b :
  Forall call_sizes calls → builder_calls calls builder_new = Ok b →
  window b ≤ sc_max_frame_length (b_config b) ∧
  (∀ id m, b_inner b !! id = Some m → meta_id (pm_inner m) = id) ∧
  socks (proxy_url (tcp (sc_tcp (b_config b)))) ∧ socks (onion_url (tcp (sc_tcp (b_config b)))) ∧
  queue_size (recv_buffer (sc_session (b_config b))) (window b)
    (recv_event_size (session_config_of (sc_session (b_config b)))) ∧
  queue_size (send_buffer (sc_session (b_config b))) (window b)
    (send_event_size (session_config_of (sc_session (b_config b)))).
Proof.
  intros Hs Hb. destruct (builder_calls_inv _ _ _ Hs builder_new_inv Hb) as [H1 [Hr Hsd] Hw H2 H3 [H4 H5]].
  assert (as_u32 (sc_max_frame_length (b_config b)) ≤ sc_max_frame_length (b_config b)) as Hle
    by (rw /is_u64 in H1; apply Z.mod_le; lia).
  split_and!; try done; [lia| |]; by apply queue_size_ok.
Qed.

(** The assertion compares with the size cut to 32 bits, so a size of 4 GiB, which is
    larger than every window, is refused. *)
Lemma large_frame_length_panics : set_max_frame_length (E:=E) (2 ^ 32) (builder_new : B) = Panic.
Proof. done. Qed.
End calls.

(** A frame of a full window does not fit in an encrypted frame of the length of the
    window, which the builder accepts: it has a header. *)
Lemma full_window_frame_too_long {K U Sock Tls E} `{!UrlParse U} (data : bytes) (b : ServiceBuilder K U Sock Tls) :
  set_max_frame_length (E:=E) INITIAL_STREAM_WINDOW (builder_new : ServiceBuilder K U Sock Tls) = Ok b →
  Z.of_nat (length data) = window b →
  sc_max_frame_length (b_config b) < Z.of_nat (length (encode (new_data 0 1 data) [])).
Proof.
  rw /set_max_frame_length. cbn [builder_new b_config service_config_default sc_session session_settings_default yamux_settings
    config_default max_stream_window_size]. destruct (_ <=? _); [|done]. intros [= <-].
  cbn [with_config b_config sc_max_frame_length window sc_session]. intros Hd.
  rw /encode /put_u8 /put_u16 /put_u32 !length_app !length_be_bytes. cbn in Hd |- *. lia.
Qed.

#[local] Instance DemoUrl : UrlParse bytes := {| url_parse := Some; url_scheme u := take 6 u |}.

Definition demo_builder_calls : list (BuilderCall unit unit unit) :=
  [BcForever true; BcMaxFrameLength (1024 * 1024);
   BcYamuxConfig (mkConfig 256 true (from_secs 30) (from_secs 10) 65535 (512 * 1024)); BcTcpProxyConfig (str "socks5://h:1")].

Lemma built_config_sound_witness :
  ∃ b : ServiceBuilder unit bytes unit unit, builder_calls (E:=Empty_set) demo_builder_calls builder_new = Ok b ∧
    window b ≤ sc_max_frame_length (b_config b) ∧
    queue_size (E:=Empty_set) (recv_buffer (sc_session (b_config b))) (window b)
      (recv_event_size (session_config_of (sc_session (b_config b)))).
Proof.
  eexists. split; [vm_compute; reflexivity|].
  edestruct (built_config_sound (E:=Empty_set) demo_builder_calls) as (H1 & _ & _ & _ & H2 & _);
    [| |split; [exact H1|exact H2]]; [|vm_compute; reflexivity].
  repeat constructor; vm_compute; congruence.
Defined.
