(* ===== verification/TcpIncoming.v ===== *)
(** * The stream of accepted connections

    [TcpBaseListener] of [tentacle/src/transports/tcp_base_listen.rs] as a stream:
    connections are accepted and handed to a task that finds out their protocol
    ([protocol_select], in [TcpListenFacts.v]); what these tasks report through a
    channel is what the stream yields. The mode of the socket is read from its shared
    cell for every connection. The listening socket and the channel are parameters. *)
From S2P Require Import Prelude Text StdNet TcpListen.

(** [C] are accepted connections, [T] is what a task reports. *)
Class Incoming (L R C T : Type) := {
  poll_accept : L → Poll (C + io.ErrorKind) * L;
  peer_addr : C → option SocketAddr;
  poll_reports : R → Poll (option T) * R;
  (** the connections that wait to be accepted, and the reports that have arrived *)
  backlog : L → list C;
  arrived : R → list T;
}.

(** Accepting takes the connections that wait, in order; the channel, whose sender the
    listener keeps, yields the reports that have arrived, in order. *)
Class IncomingLaws (L R C T : Type) `{Incoming L R C T} : Prop := {
  poll_accept_law l :
    match poll_accept l with
    | (Ready (inl c), l') => backlog l = c :: backlog l'
    | (Ready (inr _), l') => backlog l' = backlog l
    | (Pending, l') => backlog l = [] ∧ backlog l' = []
    end;
  poll_reports_law r :
    match poll_reports r with
    | (Ready (Some t), r') => arrived r = t :: arrived r'
    | (_, r') => arrived r = [] ∧ arrived r' = []
    end;
}.

Record TcpBaseListener (L R C : Type) := mkListener {
  li_inner : L;
  (** the number of the mode, which the listener shares with the table of modes; it
      is the same throughout a poll *)
  li_upgrade_mode : Z;
  li_pending_stream : R;
  (** the connections whose tasks were started, with their mode *)
  li_spawned : list (C * UpgradeModeEnum * SocketAddr);
}.
Arguments mkListener {L R C}. Arguments li_inner {L R C}. Arguments li_upgrade_mode {L R C}. Arguments li_pending_stream {L R C}. Arguments li_spawned {L R C}.

Section listener.
Context {L R C T : Type} `{!Incoming L R C T}.
Abbreviation St := (TcpBaseListener L R C).
Implicit Types s : St.

Definition poll_pending {E} : M St E (Poll T) := λ s,
  let '(p, r) := poll_reports (li_pending_stream s) in
  (Ok (match p with Ready (Some res) => Ready res | _ => Pending end), mkListener (li_inner s) (li_upgrade_mode s) r (li_spawned s)).

Definition poll_listen : M St io.ErrorKind (Poll unit) := λ s,
  let '(p, l) := poll_accept (li_inner s) in
  let s := mkListener l (li_upgrade_mode s) (li_pending_stream s) (li_spawned s) in
  match p with
  | Ready (inl stream) =>
      match peer_addr stream with
      | Some remote_address =>
          match to_enum (E:=io.ErrorKind) (li_upgrade_mode s) with
          | Ok upgrade_mode =>
              (Ok (Ready ()), mkListener l (li_upgrade_mode s) (li_pending_stream s)
                 (li_spawned s ++ [(stream, upgrade_mode, remote_address)]))
          | Err e => (Err e, s)
          | Panic => (Panic, s)
          end
      | None => (Ok (Ready ()), s)
      end
  | Ready (inr e) => (Err e, s)
  | Pending => (Ok Pending, s)
  end.

(** The loop of [poll_next]; [None]: out of fuel. *)
Fixpoint incoming_loop (fuel : nat) : M St io.ErrorKind (option (Poll T)) :=
  match fuel with
  | O => mret None
  | S fuel =>
      p ← poll_listen;
      r ← poll_pending;
      match r with
      | Ready res => mret (Some (Ready res))
      | Pending => if is_pending p then mret (Some Pending) else incoming_loop fuel
      end
  end.

Definition incoming_poll_next (fuel : nat) : M St io.ErrorKind (option (Poll T)) :=
  r ← poll_pending;
  match r with
  | Ready res => mret (Some (Ready res))
  | Pending => incoming_loop fuel
  end.
End listener.

Section facts.
Context {L R C T : Type} {IN : Incoming L R C T} {IL : IncomingLaws L R C T}.
Implicit Types s : TcpBaseListener L R C.

(** The task that a connection gets under a mode: none when its peer is gone. *)
Definition spawn_of (mode : Z) (c : C) : list (C * UpgradeModeEnum * SocketAddr) :=
  match peer_addr c, to_enum (E:=io.ErrorKind) mode with Some a, Ok e => [(c, e, a)] | _, _ => [] end.

(** From [s] to [s'] some of the waiting connections were accepted, and a task started
    for each whose peer is known. *)
Definition accepted s s' : Prop :=
  li_upgrade_mode s' = li_upgrade_mode s ∧
  ∃ cs, backlog (li_inner s) = cs ++ backlog (li_inner s') ∧
    li_spawned s' = li_spawned s ++ (cs ≫= spawn_of (li_upgrade_mode s)).

(** The mode cannot be read, and a connection with a known peer was accepted. *)
Definition mode_panic s s' : Prop :=
  to_enum (E:=io.ErrorKind) (li_upgrade_mode s) = Panic ∧ accepted s s' ∧
  ∃ c, c ∈ backlog (li_inner s) ∧ is_Some (peer_addr c).

Lemma accepted_refl s s' :
  backlog (li_inner s') = backlog (li_inner s) → li_upgrade_mode s' = li_upgrade_mode s → li_spawned s' = li_spawned s → accepted s s'.
Proof. intros Hb Hm Hs. split; [done|]. exists []. by rw Hs app_nil_r /= Hb. Qed.
Lemma accepted_trans s1 s2 s3 : accepted s1 s2 → accepted s2 s3 → accepted s1 s3.
Proof.
  intros (Hm & a & Ha & Hsa) (Hm' & b & Hb & Hsb). split; [congruence|]. exists (a ++ b).
  rw Ha Hb Hsb Hsa bind_app !app_assoc Hm. done.
Qed.
Lemma mode_panic_trans s1 s2 s3 : accepted s1 s2 → mode_panic s2 s3 → mode_panic s1 s3.
Proof.
  intros Ha (Hp & Ha' & c & Hc & Hpe). pose proof Ha as (Hm & cs & Hcs & _). split; [by rw -Hm|].
  split; [by eapply accepted_trans|]. exists c. rw Hcs elem_of_app. auto.
Qed.

Definition incoming_post s : Res io.ErrorKind (option (Poll T)) → TcpBaseListener L R C → Prop :=
  λ r s', match r with
  | Ok (Some (Ready res)) => accepted s s' ∧ arrived (li_pending_stream s) = res :: arrived (li_pending_stream s')
  | Ok (Some Pending) =>
      accepted s s' ∧ backlog (li_inner s') = [] ∧ arrived (li_pending_stream s) = [] ∧ arrived (li_pending_stream s') = []
  | Ok None => False
  | Err _ => accepted s s'
  | Panic => mode_panic s s'
  end.

Lemma incoming_post_trans s s1 r s' :
  accepted s s1 → arrived (li_pending_stream s) = arrived (li_pending_stream s1) → incoming_post s1 r s' → incoming_post s r s'.
Proof.
  intros Ha Hr. rw /incoming_post Hr. destruct r as [[[res|]|]|e|]; [intros [H ?]|intros [H ?]|done|intros H|by apply mode_panic_trans];
    try split; try done; by eapply accepted_trans.
Qed.

Lemma wp_poll_pending {E} (Q : Res E (Poll T) → TcpBaseListener L R C → Prop) s :
  (∀ res r', arrived (li_pending_stream s) = res :: arrived r' → Q (Ok (Ready res)) (mkListener (li_inner s) (li_upgrade_mode s) r' (li_spawned s))) →
  (∀ r', arrived (li_pending_stream s) = [] → arrived r' = [] → Q (Ok Pending) (mkListener (li_inner s) (li_upgrade_mode s) r' (li_spawned s))) →
  wp poll_pending Q s.
Proof.
  intros Hr Hp. rw /wp /poll_pending. pose proof (poll_reports_law (li_pending_stream s)) as H.
  destruct (poll_reports (li_pending_stream s)) as [[[res|]|] r']; [by apply Hr|destruct H; by apply Hp..].
Qed.

Lemma wp_poll_listen (Q : Res io.ErrorKind (Poll unit) → TcpBaseListener L R C → Prop) s :
  (∀ l s', l = li_inner s' → length (backlog (li_inner s)) = S (length (backlog l)) → li_pending_stream s' = li_pending_stream s →
    accepted s s' → Q (Ok (Ready ())) s') →
  (∀ e s', accepted s s' → Q (Err e) s') →
  (∀ s', li_pending_stream s' = li_pending_stream s → backlog (li_inner s') = [] → accepted s s' → Q (Ok Pending) s') →
  (∀ s', mode_panic s s' → Q Panic s') →
  wp poll_listen Q s.
Proof.
  intros Hr He Hp Hx. rw /wp /poll_listen. pose proof (poll_accept_law (li_inner s)) as H.
  destruct (poll_accept (li_inner s)) as [[[c|e]|] l]; [|by apply He, accepted_refl|].
  2: { destruct H as [H1 H2]. apply Hp; [done..|]. apply accepted_refl; [cbn; congruence|done..]. }
  assert (∀ sp, sp = li_spawned s ++ spawn_of (li_upgrade_mode s) c →
    accepted s (mkListener l (li_upgrade_mode s) (li_pending_stream s) sp)) as Ha.
  { intros sp ->. split; [done|]. exists [c]. by rw /= app_nil_r. }
  assert (length (backlog (li_inner s)) = S (length (backlog l))) as Hl by by rw H.
  revert Ha. rw /spawn_of. destruct (peer_addr c) as [a|] eqn:Hc; cbn [li_upgrade_mode]; [|intros Ha; apply (Hr l); [done..|]; apply Ha; by rw app_nil_r].
  destruct (to_enum (li_upgrade_mode s)) as [e|e|] eqn:Hm; intros Ha; [by apply (Hr l); [..|apply Ha]|apply He, Ha; by rw app_nil_r|].
  apply Hx. split; [done|]. split; [apply Ha; by rw app_nil_r|]. exists c. rw H Hc. split; [by left|by eexists].
Qed.

(** The loop has the fuel for the connections that wait. *)
Lemma incoming_loop_post fuel s :
  (length (backlog (li_inner s)) < fuel)%nat → wp (incoming_loop fuel) (incoming_post s) s.
Proof.
  revert s. induction fuel as [|fuel IH]; intros s Hf; [lia|]. cbn [incoming_loop]. wp_step.
  apply wp_poll_listen; [intros l s1 -> Hl Hps Ha|intros e s1 Ha|intros s1 Hps Hb Ha|intros s1 Hp; exact Hp].
  - wp_step. apply wp_poll_pending.
    + intros res r' Hr. wp_step. rw /incoming_post -Hps Hr. split; [|done]. by eapply accepted_trans; [|apply accepted_refl].
    + intros r' Hr Hr'. cbn [is_pending is_ready negb]. wp_apply IH; [cbn; lia|].
      intros r s'. apply incoming_post_trans; [by eapply accepted_trans; [|apply accepted_refl]|]. cbn. congruence.
  - exact Ha.
  - wp_step. apply wp_poll_pending.
    + intros res r' Hr. wp_step. rw /incoming_post -Hps Hr. split; [|done]. by eapply accepted_trans; [|apply accepted_refl].
    + intros r' Hr Hr'. cbn [is_pending is_ready negb]. wp_step. rw /incoming_post -Hps Hr.
      split; [by eapply accepted_trans; [|apply accepted_refl]|done].
Qed.

(** C35. A poll of the stream of connections ends, whatever waits to be accepted; it
    yields the oldest report that has arrived; it says that nothing is ready only
    when no report has and every connection that waited was accepted, so that both
    sources will wake the task; and every accepted connection with a known peer has
    got its task with the socket's mode. It panics only when that mode, websocket
    and TLS without TCP, is none that a task can have and a connection with a known
    peer waited. *)
Theorem incoming_poll_outcome s (fuel : nat) :
  (length (backlog (li_inner s)) < fuel)%nat →
  match incoming_poll_next fuel s with
  | (Ok (Some (Ready res)), s') => arrived (li_pending_stream s) = res :: arrived (li_pending_stream s') ∧ accepted s s'
  | (Ok (Some Pending), s') => arrived (li_pending_stream s) = [] ∧ arrived (li_pending_stream s') = [] ∧
      backlog (li_inner s') = [] ∧ li_spawned s' = li_spawned s ++ (backlog (li_inner s) ≫= spawn_of (li_upgrade_mode s))
  | (Err _, s') => accepted s s'
  | (Panic, s') => mode_panic s s'
  | _ => False
  end.
Proof.
  intros Hf. assert (wp (incoming_poll_next fuel) (incoming_post s) s) as H.
  { rw /incoming_poll_next. wp_step. apply wp_poll_pending.
    - intros res r' Hr. wp_step. split; [by apply accepted_refl|done].
    - intros r' Hr Hr'. wp_apply (incoming_loop_post fuel (mkListener (li_inner s) (li_upgrade_mode s) r' (li_spawned s)) Hf).
      intros r s'. apply incoming_post_trans; [by apply accepted_refl|]. cbn. congruence. }
  rw /wp in H. destruct (incoming_poll_next fuel s) as [[[[res|]|]|e|] s']; cbn in H.
  - by destruct H.
  - destruct H as ((_ & cs & Hc & Hsp) & Hb & Ha & Ha'). rw Hb app_nil_r in Hc. split_and!; try done. by rw Hsp Hc.
  - by destruct H.
  - done.
  - done.
Qed.
End facts.

(** ** A listener with a connection that waits *)

#[local] Instance DemoIncoming : Incoming (list nat) (list nat) nat nat := {|
  poll_accept l := match l with c :: l => (Ready (inl c), l) | [] => (Pending, []) end;
  peer_addr c := if bool_decide (c = 0%nat) then None else Some (mkSocketAddr (V4 (mkIp4 10 0 0 1)) (Z.of_nat c));
  poll_reports r := match r with t :: r => (Ready (Some t), r) | [] => (Pending, []) end;
  backlog l := l;
  arrived r := r;
|}.
#[local] Instance DemoIncomingLaws : IncomingLaws (list nat) (list nat) nat nat.
Proof. split; by intros []. Qed.

Lemma incoming_poll_outcome_witness :
  match incoming_poll_next 3 (mkListener [0; 7]%nat 3 [] []) with
  | (Ok (Some Pending), s') => li_spawned s' = [(7%nat, TcpAndWs, mkSocketAddr (V4 (mkIp4 10 0 0 1)) 7)]
  | _ => False
  end.
Proof.
  assert (2 < 3)%nat as Hf by lia.
  pose proof (incoming_poll_outcome (L:=list nat) (R:=list nat) (C:=nat) (T:=nat) (mkListener [0; 7]%nat 3 [] []) 3 Hf) as H.
  destruct H as (_ & _ & _ & H). exact H.
Defined.
